(* ===== verification/_CoqProject ===== *)
-Q . S2P
Prelude.v
Crypto.v
Account.v
Store.v
AccountsDB.v
Merkle.v
Instruction.v
Vm.v
SystemProgram.v
TokenProgram.v
Processor.v
Transaction.v
Scheduler.v
Executor.v
Serial.v
Mempool.v
Poh.v
PohService.v
Vote.v
Tower.v
ForkChoice.v
Leader.v
Blockstore.v
Validator.v
Replica.v
Gossip.v
Gf256.v
Matrix.v
Shred.v
Erasure.v
Neighborhood.v
Propagate.v
Net.v
Network.v
Base58.v
Rpc.v
Server.v
Node.v
Durable.v
Typed.v
Startup.v
Restart.v
Bench.v
NetworkWitnesses.v
NodeWitnesses.v
StartupWitnesses.v
Witnesses.v
