(* ===== verification/Prelude.v ===== *)
(** * TrustNode verification library: overview and prelude

    TrustNode is a Solana-like validator in Rust: an accounts database with a
    Merkle state root, an instruction processor with two native programs, a
    parallel transaction processor, a fee-priority mempool, a Proof-of-History
    clock, Tower BFT consensus, and the networking around them.  This library
    is a shallow embedding of its core: every operation of the modelled parts
    is an executable definition over explicit state, and the theorems state
    what each part promises to the parts that call it.

    ** How the parts interact

    A client's transaction is admitted by the mempool, drained into the
    scheduler, packed into batches of non-conflicting transactions and executed
    by the executor, which locks accounts, charges the fee and hands each
    instruction to the instruction processor; that dispatches to the system or
    the token program, which read and write the accounts database.  The state
    root over the database goes into the block; the Proof-of-History recorder
    chains the slot's entries; validators vote and the tower weighs the forks.
    The validator's slot clock advances Proof of History; in its slots the
    leader drains the mempool into a block, appends it to the ledger and hands
    it to the Turbine propagator, which erasure-codes, signs and queues shreds
    for its tree neighbors; network tasks frame shreds and gossip into
    datagrams and feed received ones back.  The RPC handler parks client
    transactions in the same mempool and reads the same accounts.

    ** Files

    - [Prelude]: notations, machine integers, byte order, little-endian
      codecs, sorting, sums over maps, hint databases.
    - [Crypto]: the classes [Sha256], [Ed25519], [Serde] for the third-party
      primitives (the crates sha2, ed25519-dalek, serde_json), with the only
      laws the development uses: a digest has 32 bytes, a signature made by a
      key consists of bytes and verifies under its public key, printed text
      consists of bytes and parses back to the value.
      Module [Toy] instantiates them by concrete functions for the witnesses.
    - [Account]: src/crates/accounts/src/account.rs.
    - [Store]: the class [AccountsStore], what the database promises to the
      programs and the executor; [AccountsDB] discharges it for
      src/crates/accounts/src/store.rs (index, buffer, log, replay,
      compaction), and finite maps discharge it as the specification.
    - [Merkle]: src/crates/accounts/src/merkle.rs and compute_state_root.
    - [Instruction], [Vm], [SystemProgram], [TokenProgram], [Processor]:
      src/crates/program-executor (instruction codecs, compute budget, the two
      programs, dispatch), over any [AccountsStore].
    - [Transaction], [Scheduler], [Executor]: src/crates/tx-processor.
    - [Mempool]: src/crates/mempool.
    - [Poh]: src/crates/poh (hasher, entry, recorder, verifier).
    - [Vote], [Tower], [ForkChoice]: src/crates/consensus.
    - [PohService]: the recorder's tick loop and channel, the verifier object
      and the accessors of src/crates/poh.
    - [Leader]: src/crates/consensus/src/leader.rs, with binary64 arithmetic.
    - [Blockstore]: src/crates/blockstore (block records, framed log).
    - [Validator]: genesis.rs and the validator state of
      src/validator/src/main.rs (ticks, slots, block production, restart).
    - [Serial], [Replica]: no code of their own; that transactions which do not
      conflict commute, so a batch of the executor is serializable, and that
      validators fed the same transactions agree (the promise of genesis.rs).
    - [Gossip]: src/crates/gossip (messages, CRDS store, protocol handlers).
    - [Gf256], [Matrix], [Erasure]: src/crates/turbine/src/erasure.rs, field
      arithmetic, matrix inversion and generator, the coder; [Shred]:
      shred.rs; [Neighborhood]: neighborhoods.rs; [Propagate]: propagate.rs.
    - [Net]: src/crates/net (datagram framing, send and receive paths).
    - [Network]: the tasks of src/validator/src/network.rs, peer and identity
      parsing and the slot clock of main.rs.
    - [Base58], [Rpc]: src/crates/rpc/src/handler.rs; [Server]: server.rs, one
      connection from the bytes read to the bytes written.
    - [Node]: the tasks of main.rs over the state they share, as steps that
      interleave (clock, RPC connections, leadership check, production, both
      sockets, pings), with start and restart.
    - [Startup]: [main] of main.rs from the command line to the tasks, over a
      file system, with the genesis files of genesis.rs, the address conversions
      of network.rs and the status table.
    - [Durable], [Typed], [Restart]: no code of their own; that executing blocks
      keeps the accounts log a complete history of small records, that block
      production keeps the types of the ledger, and the life of a node over its
      files, with restarts and crashes.
    - [Bench]: [run_benchmarks] of main.rs, timings apart.
    - [NetworkWitnesses], [NodeWitnesses], [StartupWitnesses]: as [Witnesses],
      for the files from [ForkChoice] on.
    - [Witnesses]: the theorems that have hypotheses, applied to concrete
      inputs on which the hypotheses hold.

    ** What the theorems show

    Refinement: the database implements a finite map, the programs and the
    processor decide relational ledger rules ([system_step], [token_step],
    [ledger_step]), a transaction implements fee charge plus its rules in
    order or, when it declares its writes, nothing but the fee.  Invariants:
    token supply equals the sum of token balances, lamports are conserved up
    to the sources the model names, the mempool's indexes mirror each other,
    per-slot voting weight never exceeds the stake.  Safety: crash recovery
    yields exactly the calls recorded before the cut, only the signer is
    debited, one confirmed block per slot, lockouts, deadlock freedom of
    account locks.  Round trips: instruction codecs, Merkle proofs, log
    replay, recorder and verifier, erasure decoding after encoding from any k
    shreds, datagrams, ledger replay.  Composition: a block the leader
    propagates is reassembled by a validator whose socket delivers any k of
    its shreds and no forged one of the slot; producing a block takes the best
    transactions out of the mempool, executes each once and commits the
    resulting state root; restarts on any ledger prefix keep one chain with
    increasing slots; a transaction accepted over RPC is in the leader's next
    block and in the block such a validator reassembles; no interleaving of
    the node's tasks breaks the invariants of its parts or panics, while
    ledger writes succeed and blocks fit a frame; batches are serializable and
    replicas derive the same roots and hashes.  Restarts: a restart over its
    own files restores accounts and ledger exactly and changes no file; after
    a crash that cuts both logs anywhere a node starts with exactly the
    records that lie before the cuts. The lives these theorems range over have
    no failed append, no oversized block and no accounts log torn by an
    earlier crash; what happens otherwise is proved in
    [failed_append_hides_later_stores], [torn_tail_hides_later_stores],
    [failed_write_loses_later_blocks] and [oversized_block_lost].  The
    recorder's channel carries one verifiable history, and the benchmark run
    completes for every identity ([benchmarks_complete]).

    Where the code does not do what it means to do the library proves that
    too: a self transfer mints money, [InitializeMint] can never succeed in a
    transaction, the state root does not commit to keys, transactions of one
    fee payer race within a batch, a block can go to a slot of another leader,
    a parent cycle makes the tower diverge, the propagation tree panics on
    more than 40 validators, an unsigned shred displaces a genuine one,
    transaction statuses never leave pending, account stores made behind a
    torn log record are lost on the following start, lowering registered
    stakes lets two blocks of a slot be confirmed.

    ** Modelling conventions

    Integers are [Z] with the width written out: [wrap64] for release-mode
    [+]/[*], [checked_*] returning options, [saturating_*] clamping.  Fallible
    code returns [result]; state is passed explicitly; the programs run in a
    small state-and-error monad ([Vm]).  A mutex or atomic that only serializes
    whole calls is modelled by the sequence of calls; the account locks of the
    executor, where interleaving matters, are a step relation.  A concurrent
    hash map whose iteration order the code does not fix is a finite map plus
    an explicit enumeration of its entries, an argument of the operations that
    iterate, and the theorems hold for every enumeration.  The clock is an
    argument.  Loops that are not structural carry fuel: the Merkle loops get
    the number of hashes, the replay loop the length of the log, the scheduler
    loop the number of pending transactions, each of which strictly decreases
    the quantity it bounds, and the theorems show that the result is complete;
    the recursion of the tower over parents gets the number of nodes and
    returns [None] when that is not enough, which the termination theorem
    rules out for well-formed votes and the cycle example exhibits.  The walk of
    the fork choice gets the number of blocks, the tree loop one unit per
    queued group and validator, the path loop the number of nodes, the receive
    tasks one unit per socket event, the block replay the length of the file;
    [fork_chain], [tree_loop_terminates], [path_loop_spec], [tpu_receive_all]
    and [ledger_open_valid] show these are enough.  Code that can panic returns
    an [outcome].

    ** Not modelled

    Sockets, task spawning and timers are I/O: the models take what those
    calls return as arguments.  Files are their contents; whether a log opens,
    the genesis file is written and an append to either log succeeds, fails or
    stops half-way are inputs too, with the exits and the state the code then
    has.  Of the compaction of the accounts log only the run without I/O
    errors is modelled.  The threads of a batch run one transaction after the
    other in the model, in any order.  The command line is modelled from the
    record clap fills in.  Log lines, measured times and rates have no
    definitions, nor have accessors that return a field as it is, where no
    other code calls them.  A read of the accounts by RPC while a block
    executes is modelled before or after the block.  The theorems on restarts
    rely on two documented facts of serde: it builds values of the types only
    (hypotheses [from_value_ok], [genesis_typed]) and writes an account with
    small data in less than 2^32 bytes ([json_size]); all three hold of the
    instance the witnesses use. *)

From Stdlib Require Export Lia ZArith Ascii.
From stdpp Require Export base countable gmap list strings pretty sorting numbers.

Open Scope Z_scope.

(** ** Notations and automation *)

Declare Scope trust_scope.
Delimit Scope trust_scope with trust.
Open Scope trust_scope.

(** Byte strings ([Vec<u8>], [&[u8]], [[u8; n]]) are lists of integers; the
    range of each byte is the predicate [bytes_ok]. *)
Abbreviation bytes := (list Z).

Create HintDb trust.
Create Rewrite HintDb trust_len.

(** Case analysis on every [match]/[if] of the goal or of a hypothesis. *)
Ltac case_match_hyp H :=
  match type of H with
  | context [match ?x with _ => _ end] => destruct x eqn:?
  end.
Ltac crush_match H := repeat (case_match_hyp H; simplify_eq/=).
Ltac case_match_goal :=
  match goal with
  | |- context [match ?x with _ => _ end] => destruct x eqn:?
  end.

(** ** Machine integers

    [u64] values are integers of [Z] with the predicate [is_u64]; the
    arithmetic of the release profile is written out: [+]/[+=] wrap,
    [checked_add] returns an option, [saturating_*] clamp. *)

Definition U64_MAX : Z := 18446744073709551615.
Definition U64_MOD : Z := 18446744073709551616.

Definition is_u64 (z : Z) : Prop := 0 <= z < U64_MOD.
Definition is_byte (z : Z) : Prop := 0 <= z < 256.

Definition wrap64 (z : Z) : Z := z mod U64_MOD.
Definition wrap32 (z : Z) : Z := z mod 4294967296.

Definition checked_add (a b : Z) : option Z :=
  if a + b <=? U64_MAX then Some (a + b) else None.
Definition checked_sub (a b : Z) : option Z :=
  if b <=? a then Some (a - b) else None.
Definition saturating_add (a b : Z) : Z := Z.min (a + b) U64_MAX.
Definition saturating_sub (a b : Z) : Z := Z.max (a - b) 0.
Definition saturating_mul (a b : Z) : Z := Z.min (a * b) U64_MAX.

Ltac u64_unfold :=
  unfold is_u64, is_byte, wrap64, wrap32, checked_add, checked_sub,
    saturating_add, saturating_sub, saturating_mul, U64_MAX, U64_MOD in *.

Lemma wrap64_id z : is_u64 z -> wrap64 z = z.
Proof. intros H. apply Z.mod_small, H. Qed.

Lemma wrap64_u64 z : is_u64 (wrap64 z).
Proof. apply Z.mod_pos_bound. reflexivity. Qed.

Lemma checked_add_Some a b c :
  checked_add a b = Some c <-> c = a + b /\ a + b <= U64_MAX.
Proof. unfold checked_add. case_match; split; intros; simplify_eq; lia || naive_solver lia. Qed.

Lemma checked_add_None a b : checked_add a b = None <-> U64_MAX < a + b.
Proof. unfold checked_add. case_match; split; intros; simplify_eq; lia || naive_solver lia. Qed.

Lemma checked_add_u64 a b c :
  is_u64 a -> is_u64 b -> checked_add a b = Some c -> is_u64 c.
Proof. intros Ha Hb [-> ?]%checked_add_Some. u64_unfold. lia. Qed.

Lemma is_u64_sub a b : is_u64 a -> 0 <= b <= a -> is_u64 (a - b).
Proof. u64_unfold. lia. Qed.

#[export] Instance is_u64_dec z : Decision (is_u64 z).
Proof. unfold is_u64. apply _. Defined.
#[export] Instance is_byte_dec z : Decision (is_byte z).
Proof. unfold is_byte. apply _. Defined.

#[export] Hint Resolve wrap64_id wrap64_u64 checked_add_u64 is_u64_sub : trust.

(** ** Byte strings *)

Definition bytes_ok (l : bytes) : Prop := Forall is_byte l.

(** A 32-byte array: [Pubkey], [[u8; 32]] hashes. *)
Definition arr32 (k : bytes) : Prop := length k = 32%nat /\ bytes_ok k.

#[export] Instance bytes_ok_dec l : Decision (bytes_ok l).
Proof. unfold bytes_ok. apply _. Defined.
#[export] Instance arr32_dec k : Decision (arr32 k).
Proof. unfold arr32. apply _. Defined.

Lemma bytes_ok_app l1 l2 : bytes_ok (l1 ++ l2) <-> bytes_ok l1 /\ bytes_ok l2.
Proof. apply Forall_app. Qed.

(** [[b; 32]] *)
Definition fill32 (b : Z) : bytes := replicate 32 b.

Lemma fill32_ok b : is_byte b -> arr32 (fill32 b).
Proof. intros H. split; [apply length_replicate | by apply Forall_replicate]. Qed.

(** Half-open slice [l[a..b]] for [a <= b <= len]. *)
Definition slice {A} (l : list A) (a b : nat) : list A := take (b - a) (drop a l).

(** [to_le_bytes] of an [n]-byte integer. *)
Fixpoint le_bytes (n : nat) (z : Z) : bytes :=
  match n with
  | O => []
  | S n => z mod 256 :: le_bytes n (z / 256)
  end.

(** [from_le_bytes]. *)
Fixpoint from_le (l : bytes) : Z :=
  match l with
  | [] => 0
  | b :: l => b + 256 * from_le l
  end.

Lemma length_le_bytes n z : length (le_bytes n z) = n.
Proof. revert z. induction n as [|n IH]; intros z; simpl; [done | by rewrite IH]. Qed.

Lemma le_bytes_ok n z : bytes_ok (le_bytes n z).
Proof.
  revert z. induction n as [|n IH]; intros z; simpl; constructor; [|apply IH].
  apply Z.mod_pos_bound. lia.
Qed.

Lemma from_le_bytes n z : 0 <= z < 256 ^ Z.of_nat n -> from_le (le_bytes n z) = z.
Proof.
  revert z. induction n as [|n IH]; intros z Hz; simpl; [simpl in Hz; lia|].
  rewrite Nat2Z.inj_succ, Z.pow_succ_r in Hz by lia.
  rewrite IH.
  - pose proof (Z.div_mod z 256). lia.
  - split; [apply Z.div_pos; lia | apply Z.div_lt_upper_bound; lia].
Qed.

Lemma from_le_bytes_64 z : is_u64 z -> from_le (le_bytes 8 z) = z.
Proof. intros H. apply from_le_bytes. exact H. Qed.

Lemma le_bytes_inj n x y :
  0 <= x < 256 ^ Z.of_nat n -> 0 <= y < 256 ^ Z.of_nat n ->
  le_bytes n x = le_bytes n y -> x = y.
Proof. intros Hx Hy E. apply (f_equal from_le) in E. by rewrite !from_le_bytes in E. Qed.

Lemma from_le_bound l : bytes_ok l -> 0 <= from_le l < 256 ^ Z.of_nat (length l).
Proof.
  induction 1 as [|b l Hb _ IH]; simpl; [lia|].
  rewrite Nat2Z.inj_succ, Z.pow_succ_r by lia. unfold is_byte in Hb. lia.
Qed.

Lemma le_bytes_from_le l : bytes_ok l -> le_bytes (length l) (from_le l) = l.
Proof.
  induction 1 as [|b l Hb Hl IH]; simpl; [done|].
  assert (Hd : (b + 256 * from_le l) / 256 = from_le l).
  { symmetry. apply Z.div_unique with b; unfold is_byte in Hb; lia. }
  assert (Hm : (b + 256 * from_le l) mod 256 = b).
  { symmetry. apply Z.mod_unique with (from_le l); unfold is_byte in Hb; lia. }
  by rewrite Hd, Hm, IH.
Qed.

Global Arguments le_bytes : simpl never.
Global Arguments from_le : simpl never.

#[export] Hint Rewrite @length_app length_le_bytes @length_replicate : trust_len.

(** Lexicographic comparison of byte strings ([Ord] on arrays and slices). *)
Fixpoint bytes_le (a b : bytes) : bool :=
  match a, b with
  | [], _ => true
  | _ :: _, [] => false
  | x :: a, y :: b => (x <? y) || ((x =? y) && bytes_le a b)
  end.

Lemma bytes_le_total a b : bytes_le a b = true \/ bytes_le b a = true.
Proof.
  revert b. induction a as [|x a IH]; intros [|y b]; simpl; auto.
  specialize (IH b). rewrite !orb_true_iff, !andb_true_iff, !Z.ltb_lt, !Z.eqb_eq.
  destruct (Z.lt_total x y) as [?|[?|?]]; naive_solver.
Qed.

Lemma bytes_le_trans a b c : bytes_le a b = true -> bytes_le b c = true -> bytes_le a c = true.
Proof.
  revert b c. induction a as [|x a IH]; intros [|y b] [|z c]; simpl; try done.
  rewrite !orb_true_iff, !andb_true_iff, !Z.ltb_lt, !Z.eqb_eq.
  specialize (IH b c). intros [?|[??]] [?|[??]]; naive_solver lia.
Qed.

Lemma bytes_le_antisym a b : bytes_le a b = true -> bytes_le b a = true -> a = b.
Proof.
  revert b. induction a as [|x a IH]; intros [|y b]; simpl; try done.
  rewrite !orb_true_iff, !andb_true_iff, !Z.ltb_lt, !Z.eqb_eq.
  intros [?|[??]] [?|[??]]; try lia. f_equal; auto.
Qed.

(** ** Stable sorting ([slice::sort_by]) *)

Section SortBy.
Context {A : Type} (leb : A -> A -> bool).

Fixpoint insert_by (x : A) (l : list A) : list A :=
  match l with
  | [] => [x]
  | y :: l => if leb x y then x :: y :: l else y :: insert_by x l
  end.

Fixpoint sort_by (l : list A) : list A :=
  match l with
  | [] => []
  | x :: l => insert_by x (sort_by l)
  end.

Lemma insert_by_perm x l : insert_by x l ≡ₚ x :: l.
Proof.
  induction l as [|y l IH]; simpl; [done|]. destruct (leb x y); [done|].
  rewrite IH. apply Permutation_swap.
Qed.

Lemma sort_by_perm l : sort_by l ≡ₚ l.
Proof. induction l as [|x l IH]; simpl; [done|]. by rewrite insert_by_perm, IH. Qed.

Lemma length_sort_by l : length (sort_by l) = length l.
Proof. by rewrite sort_by_perm. Qed.

Context (leb_total : forall x y, leb x y = true \/ leb y x = true)
        (leb_trans : forall x y z, leb x y = true -> leb y z = true -> leb x z = true).

Lemma insert_by_sorted x l :
  StronglySorted (fun a b => leb a b = true) l ->
  StronglySorted (fun a b => leb a b = true) (insert_by x l).
Proof.
  induction 1 as [|y l Hs IH Hy]; simpl; [repeat constructor|].
  destruct (leb x y) eqn:E; constructor.
  - by constructor.
  - constructor; [done|]. revert Hy. rewrite !Forall_forall. naive_solver.
  - done.
  - rewrite insert_by_perm. constructor; [|done].
    destruct (leb_total x y); congruence.
Qed.

Lemma sort_by_sorted l : StronglySorted (fun a b => leb a b = true) (sort_by l).
Proof. induction l; simpl; [constructor | by apply insert_by_sorted]. Qed.

(** Sorting is a function of the multiset when the order is antisymmetric. *)
Lemma sort_by_perm_eq l1 l2 :
  (forall x y, leb x y = true -> leb y x = true -> x = y) ->
  l1 ≡ₚ l2 -> sort_by l1 = sort_by l2.
Proof.
  intros Hanti Hp.
  apply (StronglySorted_unique_strong (fun a b => leb a b = true)).
  - intros x y _ _ ? ?. by apply Hanti.
  - apply sort_by_sorted.
  - apply sort_by_sorted.
  - by rewrite !sort_by_perm.
Qed.
End SortBy.

(** Sorting by a function of the elements commutes with mapping it. *)
Lemma sort_by_fmap {A B} (f : A -> B) (lebA : A -> A -> bool) (lebB : B -> B -> bool) l :
  (forall x y, lebA x y = lebB (f x) (f y)) -> sort_by lebB (f <$> l) = f <$> sort_by lebA l.
Proof.
  intros Hf. assert (Hins : forall x l, insert_by lebB (f x) (f <$> l) = f <$> insert_by lebA x l).
  { intros x l'. induction l' as [|y l' IH]; [done|]. simpl. rewrite <- Hf.
    destruct (lebA x y); [done|]. rewrite fmap_cons. f_equal. exact IH. }
  induction l as [|x l IH]; [done|]. rewrite fmap_cons. cbn [sort_by]. by rewrite IH, Hins.
Qed.

Lemma sorted_impl {A} (R Q : A -> A -> Prop) l :
  (forall a b, R a b -> Q a b) -> StronglySorted R l -> StronglySorted Q l.
Proof. intros Hi. induction 1 as [|a l _ IH Hf]; constructor; [done|]. eapply Forall_impl; [|exact Hf]. auto. Qed.

(** ** The longest prefix that fits

    What is left of a sequence of records when the file that holds them is cut:
    [d] is the longest prefix of [l] whose records take at most [n] bytes. *)
Definition longest_within {A} (size : list A -> nat) (n : nat) (l d : list A) : Prop :=
  d `prefix_of` l /\ forall pre, pre `prefix_of` l -> (size pre <= n)%nat <-> pre `prefix_of` d.

Lemma longest_all {A} (size : list A -> nat) n l :
  (forall pre, pre `prefix_of` l -> (size pre <= size l)%nat) -> (size l <= n)%nat -> longest_within size n l l.
Proof. intros Hmono Hn. split; [done|]. intros pre Hpre. split; [done|]. intros _. specialize (Hmono pre Hpre). lia. Qed.

Lemma longest_snoc {A} (size : list A -> nat) n l d x :
  longest_within size n l d -> (n < size (l ++ [x]))%nat -> longest_within size n (l ++ [x]) d.
Proof.
  intros [Hd Hmax] Hn. split; [by apply prefix_app_r|]. intros pre [k Hk].
  destruct k as [|y k _] using rev_ind.
  - rewrite app_nil_r in Hk. subst pre. split; [lia|]. intros Hp%prefix_length. apply prefix_length in Hd.
    rewrite length_app in Hp. cbn in Hp. lia.
  - rewrite app_assoc in Hk. apply app_inj_tail in Hk as [-> _]. apply Hmax. by apply prefix_app_r.
Qed.

(** In a sorted list every element of a prefix precedes every later one. *)
Lemma sorted_take_drop {A} (R : A -> A -> Prop) (l : list A) n x y :
  StronglySorted R l -> x ∈ take n l -> y ∈ drop n l -> R x y.
Proof.
  intros Hs. rewrite <- (take_drop n l) in Hs. apply StronglySorted_app in Hs as (Hs & _ & _).
  apply Hs.
Qed.

(** ** Results and the instruction monad *)

(** [Result<A, E>]. *)
Inductive result (A E : Type) :=
  | Ok (a : A)
  | Err (e : E).
Arguments Ok {A E} a.
Arguments Err {A E} e.

Definition ok_or {A E} (o : option A) (e : E) : result A E :=
  match o with Some a => Ok a | None => Err e end.

Definition is_ok {A E} (r : result A E) : bool :=
  match r with Ok _ => true | Err _ => false end.

(** Stateful, fallible code: a failing call keeps the state it reached, as a
    Rust function returning [Err] after mutating its [&mut] arguments does. *)
Definition Prog (S E A : Type) : Type := S -> S * result A E.

Definition pret {S E A} (a : A) : Prog S E A := fun s => (s, Ok a).
Definition pfail {S E A} (e : E) : Prog S E A := fun s => (s, Err e).
Definition pbind {S E A B} (m : Prog S E A) (f : A -> Prog S E B) : Prog S E B :=
  fun s => match m s with
           | (s', Ok a) => f a s'
           | (s', Err e) => (s', Err e)
           end.
Definition plift {S E A} (r : result A E) : Prog S E A := fun s => (s, r).
Definition pget {S E A} (f : S -> A) : Prog S E A := fun s => (s, Ok (f s)).
Definition pmod {S E} (f : S -> S) : Prog S E unit := fun s => (f s, Ok tt).

Notation "x <-- m ;; k" := (pbind m (fun x => k))
  (at level 100, m at next level, right associativity) : trust_scope.
Notation "m ;;; k" := (pbind m (fun _ => k))
  (at level 100, right associativity) : trust_scope.
(** Early [return Err(e)] when the condition holds. *)
Notation "'fail_if' b 'with' e ;;; k" := (if b then pfail e else k)
  (at level 100, b at level 99, e at level 99, right associativity) : trust_scope.

(** Inversion of a successful sequence. *)
Lemma pbind_Ok {S E A B} (m : Prog S E A) (f : A -> Prog S E B) s s' b :
  pbind m f s = (s', Ok b) <-> exists s1 a, m s = (s1, Ok a) /\ f a s1 = (s', Ok b).
Proof.
  unfold pbind. destruct (m s) as [s1 [a|e]]; split.
  - eauto.
  - intros (?&?&?&?). by simplify_eq.
  - done.
  - intros (?&?&?&?). by simplify_eq.
Qed.

(** ** Sums over finite maps *)

Section MapSum.
Context {K V : Type} `{Countable K} (f : V -> Z).

Definition map_sum (m : gmap K V) : Z := map_fold (fun _ v acc => f v + acc) 0 m.

Lemma map_sum_empty : map_sum ∅ = 0.
Proof. apply map_fold_empty. Qed.

Lemma map_sum_insert_None m k v :
  m !! k = None -> map_sum (<[k:=v]> m) = f v + map_sum m.
Proof.
  intros Hk. unfold map_sum.
  rewrite (map_fold_insert_L (fun _ v acc => f v + acc)); [done| |done].
  intros. lia.
Qed.

Lemma map_sum_delete m k v :
  m !! k = Some v -> map_sum m = f v + map_sum (delete k m).
Proof.
  intros Hk. rewrite <- (map_sum_insert_None (delete k m) k v) by apply lookup_delete_eq.
  by rewrite insert_delete_id.
Qed.

Lemma map_sum_insert_Some m k v w :
  m !! k = Some w -> map_sum (<[k:=v]> m) = map_sum m - f w + f v.
Proof.
  intros Hk. rewrite (map_sum_delete m k w Hk).
  rewrite (map_sum_delete (<[k:=v]> m) k v) by apply lookup_insert_eq.
  rewrite delete_insert_eq. lia.
Qed.

Lemma map_sum_insert m k v :
  map_sum (<[k:=v]> m) = map_sum m - from_option f 0 (m !! k) + f v.
Proof.
  destruct (m !! k) as [w|] eqn:E; simpl.
  - by rewrite (map_sum_insert_Some _ _ _ w).
  - rewrite map_sum_insert_None by done. lia.
Qed.

Lemma map_sum_nonneg m : (forall v, 0 <= f v) -> 0 <= map_sum m.
Proof.
  intros Hf. induction m as [|k v m Hk IH] using map_ind.
  - by rewrite map_sum_empty.
  - rewrite map_sum_insert_None by done. specialize (Hf v). lia.
Qed.
End MapSum.

(** ** Text formatting used by log lines and error messages *)

Definition dec (z : Z) : string := pretty z.

Definition hex_digit (d : Z) : ascii :=
  ascii_of_nat (Z.to_nat (if d <? 10 then 48 + d else 87 + d)).

(** [hex::encode]. *)
Fixpoint hex_encode (l : bytes) : string :=
  match l with
  | [] => EmptyString
  | b :: l => String (hex_digit (b / 16)) (String (hex_digit (b mod 16)) (hex_encode l))
  end.

(** [{:?}] of a byte array. *)
Fixpoint join_with (sep : string) (l : list string) : string :=
  match l with
  | [] => ""
  | [x] => x
  | x :: l => x +:+ sep +:+ join_with sep l
  end.

Definition debug_bytes (l : bytes) : string :=
  "[" +:+ join_with ", " (dec <$> l) +:+ "]".

(** Bytes of an ASCII literal ([b"..."], [str::as_bytes]). *)
Fixpoint str_bytes (s : string) : bytes :=
  match s with
  | EmptyString => []
  | String c s => Z.of_nat (nat_of_ascii c) :: str_bytes s
  end.

(** Splitting equal concatenations whose first parts have the same length. *)
Lemma app_split {A} (a b c d : list A) :
  length a = length c -> a ++ b = c ++ d -> a = c /\ b = d.
Proof. intros Hl E. by apply app_inj_1 in E. Qed.

(** Split an equation between concatenations at each part of known length. *)
Ltac split_app H :=
  let E := fresh "E" in
  apply app_split in H as [E H]; [|autorewrite with trust_len; reflexivity || congruence || lia].

Lemma mjoin_cons {A} (x : list A) (xs : list (list A)) : mjoin (x :: xs) = x ++ mjoin xs.
Proof. done. Qed.

(** ** Filters, partial maps and sublists *)

Lemma filter_all {A} (P : A -> Prop) `{!forall x, Decision (P x)} (l : list A) :
  (forall x, x ∈ l -> P x) -> filter P l = l.
Proof.
  induction l as [|x l IH]; intros Hl; [done|]. rewrite filter_cons_True by (apply Hl, list_elem_of_here).
  f_equal. apply IH. intros y Hy. apply Hl. by apply list_elem_of_further.
Qed.

Lemma filter_weaken {A} (P Q : A -> Prop) `{!forall x, Decision (P x)} `{!forall x, Decision (Q x)} (l : list A) :
  (forall x, x ∈ l -> P x -> Q x) -> sublist (filter P l) (filter Q l).
Proof.
  induction l as [|x l IH]; intros Hl; [done|]. assert (IH' : sublist (filter P l) (filter Q l)).
  { apply IH. intros y Hy. apply Hl. by apply list_elem_of_further. }
  rewrite !filter_cons. specialize (Hl x (list_elem_of_here _ _)). repeat case_decide; auto using sublist_skip, sublist_cons.
  exfalso. auto.
Qed.

Lemma length_omap_le {A B} (f : A -> option B) l : (length (omap f l) <= length l)%nat.
Proof.
  induction l as [|x l IH]; [done|]. change (x :: l) with ([x] ++ l). rewrite omap_app, !length_app.
  cbn. destruct (f x); cbn in *; lia.
Qed.

Lemma fmap_inj_on {A B} (P : A -> Prop) (f : A -> B) l1 l2 :
  (forall x y, P x -> P y -> f x = f y -> x = y) -> Forall P l1 -> Forall P l2 -> f <$> l1 = f <$> l2 -> l1 = l2.
Proof.
  intros Hf H1. revert l2. induction H1 as [|x l1 Hx H1 IH]; intros l2 H2 E; destruct H2 as [|y l2 Hy H2];
    [done..|]. rewrite !fmap_cons in E. injection E as E1 E2. f_equal; [by apply Hf|by apply IH].
Qed.

Lemma lookups_submseteq {A} (d : A) (l : list A) ks xs :
  NoDup ks -> Forall2 (fun i x => l !! i = Some x) ks xs -> xs ⊆+ l.
Proof.
  intros Hnd Hf. set (f := fun i => default d (l !! i)).
  assert (Hxs : xs = f <$> ks).
  { clear Hnd. induction Hf as [|i x ks xs Hi _ IH]; [done|]. rewrite fmap_cons, <- IH. unfold f. by rewrite Hi. }
  assert (Hl : l = f <$> seq 0 (length l)).
  { apply list_eq. intros i. rewrite list_lookup_fmap. destruct (decide (i < length l)%nat) as [Hlt|Hge].
    - rewrite lookup_seq_lt by done. simpl. destruct (lookup_lt_is_Some_2 l i Hlt) as [x Hx].
      unfold f. by rewrite Hx.
    - by rewrite lookup_seq_ge, lookup_ge_None_2 by lia. }
  rewrite Hl, Hxs. apply fmap_submseteq, NoDup_submseteq; [done|].
  intros i Hi. apply list_elem_of_lookup in Hi as [n Hn].
  destruct (Forall2_lookup_l _ _ _ _ _ Hf Hn) as (x & _ & Hx). apply lookup_lt_Some in Hx.
  apply elem_of_seq. lia.
Qed.
