(* ===== verification/Crypto.v ===== *)
(** * External code: hashing, signatures, JSON

    The program calls three libraries that are not part of the repository:
    [sha2], [ed25519-dalek] and [serde_json].  Each is a type class whose
    operations are parameters of the models and whose laws state documented
    behaviour only.  The end of the file gives concrete instances of all of
    them, used where a statement is evaluated on a concrete input. *)

From S2P Require Import Prelude.
Open Scope Z_scope.

(** [Sha256::digest]: 32 bytes out. *)
Class Sha256 := {
  sha256 : bytes -> bytes;
  sha256_arr32 m : arr32 (sha256 m)
}.

(** No collision of the hash among two sets of inputs. *)
Definition no_collision `{Sha256} (l1 l2 : list bytes) : Prop :=
  forall x y, x ∈ l1 -> y ∈ l2 -> sha256 x = sha256 y -> x = y.

(** [ed25519_dalek]: keys and signatures are byte strings on the wire. *)
Class Ed25519 := {
  SigningKey : Type;
  (** [key.verifying_key().to_bytes()] *)
  verifying_key : SigningKey -> bytes;
  (** [key.sign(msg).to_bytes()] *)
  ed_sign : SigningKey -> bytes -> bytes;
  (** [VerifyingKey::from_bytes(..).is_ok()] *)
  vk_from_bytes_ok : bytes -> bool;
  (** [Signature::from_slice(..).is_ok()] *)
  sig_from_slice_ok : bytes -> bool;
  (** [vk.verify_strict(msg, sig).is_ok()] *)
  verify_strict : bytes -> bytes -> bytes -> bool;
  verifying_key_arr32 k : arr32 (verifying_key k);
  verifying_key_valid k : vk_from_bytes_ok (verifying_key k) = true;
  sig_from_slice_len s : sig_from_slice_ok s = true -> length s = 64%nat;
  ed_sign_valid k m : sig_from_slice_ok (ed_sign k m) = true;
  ed_sign_bytes k m : bytes_ok (ed_sign k m);
  verify_sign k m : verify_strict (verifying_key k) m (ed_sign k m) = true
}.

(** The body shared by every [verify_signature] of the repository: parse the
    key, parse the signature, [verify_strict]. *)
Definition ed_verify `{Ed25519} (pk msg sig : bytes) : bool :=
  if negb (vk_from_bytes_ok pk) then false
  else if negb (sig_from_slice_ok sig) then false
  else verify_strict pk msg sig.

Lemma ed_verify_sign `{Ed25519} k m : ed_verify (verifying_key k) m (ed_sign k m) = true.
Proof.
  unfold ed_verify.
  by rewrite verifying_key_valid, ed_sign_valid, verify_sign.
Qed.

Lemma ed_verify_nonempty `{Ed25519} pk m : ed_verify pk m [] = false.
Proof.
  unfold ed_verify. destruct (vk_from_bytes_ok pk); simpl; [|done].
  destruct (sig_from_slice_ok []) eqn:E; [|done].
  by apply sig_from_slice_len in E.
Qed.

(** [serde_json::to_vec] / [from_slice] of a type whose values of the source
    type satisfy [valid]: the text is bytes, a value of the type serializes, and
    parsing gives it back. *)
Class Serde (A : Type) (valid : A -> Prop) := {
  to_vec : A -> option bytes;
  from_slice : bytes -> option A;
  to_vec_bytes a b : to_vec a = Some b -> bytes_ok b;
  serde_roundtrip a : valid a -> exists b, to_vec a = Some b /\ from_slice b = Some a
}.
Arguments to_vec {A valid _} a.
Arguments from_slice {A valid _} b.

(** ** Concrete instances *)

Module Toy.
(** A 32-byte digest of the input (not collision resistant). *)
Definition toy_sha (m : bytes) : bytes :=
  le_bytes 32 (foldl (fun acc b => (acc * 263 + b + 1) mod 2 ^ 255) 7 m).

#[export] Program Instance toy_sha256 : Sha256 := {| sha256 := toy_sha |}.
Next Obligation.
  intros m. split; [apply length_le_bytes | apply le_bytes_ok].
Qed.

(** Keys are seeds; a signature is the digest of key and message, twice. *)
Definition toy_pk (k : Z) : bytes := le_bytes 32 k.
Definition toy_mac (pk m : bytes) : bytes := toy_sha (pk ++ m) ++ toy_sha (m ++ pk).

#[export] Program Instance toy_ed25519 : Ed25519 := {|
  SigningKey := Z;
  verifying_key := toy_pk;
  ed_sign k m := toy_mac (toy_pk k) m;
  vk_from_bytes_ok pk := (length pk =? 32)%nat;
  sig_from_slice_ok s := (length s =? 64)%nat;
  verify_strict pk m s := bool_decide (s = toy_mac pk m)
|}.
Next Obligation. intros k. split; [apply length_le_bytes | apply le_bytes_ok]. Qed.
Next Obligation. intros k. unfold toy_pk. by rewrite length_le_bytes. Qed.
Next Obligation. intros s. apply Nat.eqb_eq. Qed.
Next Obligation.
  intros k m. unfold toy_mac, toy_sha. rewrite length_app, !length_le_bytes. done.
Qed.
Next Obligation. intros k m. apply bytes_ok_app. split; apply le_bytes_ok. Qed.
Next Obligation. intros k m. simpl. by apply bool_decide_eq_true_2. Qed.

(** Any countable type has a byte encoding: the bytes of its code. *)
Definition pos_bytes (p : positive) : bytes :=
  le_bytes (Z.to_nat (Z.log2 (Zpos p) / 8 + 1)) (Zpos p).

Lemma from_le_pos_bytes p : from_le (pos_bytes p) = Zpos p.
Proof.
  unfold pos_bytes. apply from_le_bytes.
  assert (0 <= Z.log2 (Zpos p) / 8) by (apply Z.div_pos; [apply Z.log2_nonneg | lia]).
  rewrite Z2Nat.id by lia. split; [lia|].
  change 256 with (2 ^ 8). rewrite <- Z.pow_mul_r by lia.
  destruct (Z.log2_spec (Zpos p)) as [_ Hub]; [lia|].
  eapply Z.lt_le_trans; [exact Hub|]. apply Z.pow_le_mono_r; [lia|].
  pose proof (Z.div_mod (Z.log2 (Zpos p)) 8). pose proof (Z.mod_pos_bound (Z.log2 (Zpos p)) 8). lia.
Qed.

#[export] Program Instance countable_serde {A} `{Countable A} (valid : A -> Prop) : Serde A valid := {|
  to_vec a := Some (pos_bytes (encode a));
  from_slice b := decode (Z.to_pos (from_le b))
|}.
Next Obligation. intros A ?? valid a b [= <-]. apply le_bytes_ok. Qed.
Next Obligation.
  intros A ?? valid a _. eexists. split; [done|].
  rewrite from_le_pos_bytes. simpl. apply decode_encode.
Qed.
End Toy.
