(* ===== verification/Account.v ===== *)
(** * Accounts ([crates/accounts/src/account.rs])

    The account record, its constructors, the byte string its hash commits to
    and the injectivity of that byte string. *)

From S2P Require Import Prelude Crypto.
Open Scope Z_scope.

Definition MINIMUM_RENT_EXEMPT_BALANCE : Z := 890880.

(** [enum AccountData] *)
Inductive AccountData :=
  | System
  | Program (code : bytes)
  | Token (mint authority : bytes) (amount : Z)
  | Mint (authority : bytes) (supply : Z)
  | Data (data : bytes).

(** [struct Account] *)
Record Account := mkAccount {
  lamports : Z;
  owner : bytes;
  executable : bool;
  rent_epoch : Z;
  data : AccountData
}.

#[export] Instance AccountData_eq_dec : EqDecision AccountData.
Proof. solve_decision. Defined.
#[export] Instance Account_eq_dec : EqDecision Account.
Proof. solve_decision. Defined.

Definition data_code (d : AccountData) :=
  match d with
  | System => inl (inl ())
  | Program c => inl (inr c)
  | Token m a n => inr (inl (m, a, n))
  | Mint a s => inr (inr (inl (a, s)))
  | Data l => inr (inr (inr l))
  end.
Definition data_decode (c : (() + bytes) + ((bytes * bytes * Z) + ((bytes * Z) + bytes))) :=
  match c with
  | inl (inl ()) => System
  | inl (inr c) => Program c
  | inr (inl (m, a, n)) => Token m a n
  | inr (inr (inl (a, s))) => Mint a s
  | inr (inr (inr l)) => Data l
  end.

#[export] Instance AccountData_countable : Countable AccountData.
Proof. apply (inj_countable' data_code data_decode). by intros []. Defined.

#[export] Instance Account_countable : Countable Account.
Proof.
  apply (inj_countable'
    (fun a => (lamports a, owner a, executable a, rent_epoch a, data a))
    (fun '(l, o, e, r, d) => mkAccount l o e r d)).
  by intros [].
Defined.

(** The values of the Rust types: [u64] fields in range, keys of 32 bytes. *)
Definition data_ok (d : AccountData) : Prop :=
  match d with
  | System => True
  | Program c => bytes_ok c
  | Token m a n => arr32 m /\ arr32 a /\ is_u64 n
  | Mint a s => arr32 a /\ is_u64 s
  | Data l => bytes_ok l
  end.

Definition account_ok (a : Account) : Prop :=
  is_u64 (lamports a) /\ arr32 (owner a) /\ is_u64 (rent_epoch a) /\ data_ok (data a).

#[export] Instance data_ok_dec d : Decision (data_ok d).
Proof. destruct d; simpl; apply _. Defined.
#[export] Instance account_ok_dec a : Decision (account_ok a).
Proof. unfold account_ok. apply _. Defined.

(** Field updates ([account.lamports = x] and the like). *)
Definition set_lamports (a : Account) (l : Z) : Account :=
  mkAccount l (owner a) (executable a) (rent_epoch a) (data a).
Definition set_owner (a : Account) (o : bytes) : Account :=
  mkAccount (lamports a) o (executable a) (rent_epoch a) (data a).
Definition set_data (a : Account) (d : AccountData) : Account :=
  mkAccount (lamports a) (owner a) (executable a) (rent_epoch a) d.

Lemma set_lamports_ok a l : account_ok a -> is_u64 l -> account_ok (set_lamports a l).
Proof. unfold account_ok. simpl. tauto. Qed.
Lemma set_owner_ok a o : account_ok a -> arr32 o -> account_ok (set_owner a o).
Proof. unfold account_ok. simpl. tauto. Qed.
Lemma set_data_ok a d : account_ok a -> data_ok d -> account_ok (set_data a d).
Proof. unfold account_ok. simpl. tauto. Qed.
#[export] Hint Resolve set_lamports_ok set_owner_ok set_data_ok : trust.

(** [system_program_id()], [token_program_id()] *)
Definition system_program_id : bytes := fill32 1.
Definition token_program_id : bytes := fill32 2.

Lemma system_program_id_ok : arr32 system_program_id.
Proof. by apply fill32_ok. Qed.
Lemma token_program_id_ok : arr32 token_program_id.
Proof. by apply fill32_ok. Qed.
#[export] Hint Resolve system_program_id_ok token_program_id_ok : trust.

Definition new_system_account (_pubkey : bytes) (lamports : Z) : Account :=
  mkAccount lamports system_program_id false 0 System.

Definition new_program_account (_pubkey owner code : bytes) : Account :=
  mkAccount 0 owner true 0 (Program code).

Definition new_token_account (_pubkey mint authority : bytes) (amount : Z) : Account :=
  mkAccount 0 token_program_id false 0 (Token mint authority amount).

Definition new_mint (_pubkey authority : bytes) : Account :=
  mkAccount MINIMUM_RENT_EXEMPT_BALANCE token_program_id false 0 (Mint authority 0).

Lemma is_u64_0 : is_u64 0.
Proof. u64_unfold. lia. Qed.
Lemma is_u64_rent : is_u64 MINIMUM_RENT_EXEMPT_BALANCE.
Proof. u64_unfold. unfold MINIMUM_RENT_EXEMPT_BALANCE. lia. Qed.
#[export] Hint Resolve is_u64_0 is_u64_rent : trust.

Lemma new_system_account_ok k l : is_u64 l -> account_ok (new_system_account k l).
Proof. intros. unfold account_ok; simpl; split_and?; auto with trust. Qed.
Lemma new_token_account_ok k m a n :
  arr32 m -> arr32 a -> is_u64 n -> account_ok (new_token_account k m a n).
Proof. intros. unfold account_ok; simpl; split_and?; auto with trust. Qed.
Lemma new_mint_ok k a : arr32 a -> account_ok (new_mint k a).
Proof.
  intros. unfold account_ok; simpl; split_and?; auto with trust.
Qed.
#[export] Hint Resolve new_system_account_ok new_token_account_ok new_mint_ok : trust.

Definition b2z (b : bool) : Z := if b then 1 else 0.

(** The part of the hash input that depends on the payload. *)
Definition data_message (d : AccountData) : bytes :=
  match d with
  | System => str_bytes "system"
  | Program code => str_bytes "program" ++ code
  | Token mint authority amount =>
      str_bytes "token" ++ mint ++ authority ++ le_bytes 8 amount
  | Mint authority supply => str_bytes "mint" ++ authority ++ le_bytes 8 supply
  | Data data => str_bytes "data" ++ data
  end.

(** The bytes fed to the hasher by [Account::hash]. *)
Definition account_message (a : Account) : bytes :=
  le_bytes 8 (lamports a) ++ owner a ++ [b2z (executable a)] ++
  le_bytes 8 (rent_epoch a) ++ data_message (data a).

(** [Account::hash] *)
Definition account_hash `{Sha256} (a : Account) : bytes := sha256 (account_message a).

(** [Account::size] *)
Definition account_size (a : Account) : Z :=
  8 + 32 + 1 + 8 +
  match data a with
  | System => 0
  | Program code => Z.of_nat (length code)
  | Token _ _ _ => 32 + 32 + 8
  | Mint _ _ => 32 + 8
  | Data d => Z.of_nat (length d)
  end.

Lemma le8_inj x y : is_u64 x -> is_u64 y -> le_bytes 8 x = le_bytes 8 y -> x = y.
Proof. intros Hx Hy. by apply le_bytes_inj. Qed.

Lemma data_message_inj d1 d2 :
  data_ok d1 -> data_ok d2 -> data_message d1 = data_message d2 -> d1 = d2.
Proof.
  destruct d1, d2; simpl; intros H1 H2 E; simplify_eq; try done.
  - destruct H1 as ([Hm1 _]&[Ha1 _]&Hn1), H2 as ([Hm2 _]&[Ha2 _]&Hn2).
    do 2 split_app E. apply le8_inj in E; congruence.
  - destruct H1 as ([Ha1 _]&Hn1), H2 as ([Ha2 _]&Hn2).
    split_app E. apply le8_inj in E; congruence.
Qed.

(** The byte string an account's hash commits to determines the account:
    two well-typed accounts with the same hash input agree on lamports, owner,
    executable flag, rent epoch and the whole payload (no two payload variants
    share an encoding), so equal account hashes of different accounts are a
    SHA-256 collision. *)
Theorem account_message_inj a b :
  account_ok a -> account_ok b -> account_message a = account_message b -> a = b.
Proof.
  destruct a as [l o e r d], b as [l' o' e' r' d'].
  intros (Hl&[Ho _]&Hr&Hd) (Hl'&[Ho' _]&Hr'&Hd') E. unfold account_message in E.
  cbn [lamports owner executable rent_epoch data] in *.
  do 4 split_app E. apply data_message_inj in E; [|done|done].
  apply le8_inj in E0; [|done|done]. apply le8_inj in E3; [|done|done].
  subst. f_equal. by destruct e, e'.
Qed.
