(* ===== verification/Store.v ===== *)
(** * The interface of the accounts database

    The program executor, the transaction executor, genesis and the RPC layer
    use the accounts database through [load], [exists], [store] and [remove].
    [AccountsStore] is that interface, [AccountsStoreLaws] what it promises:
    it behaves like a finite map from public keys to accounts.  Clients are
    modelled and verified against the class; [AccountsDB.v] proves that the
    append-only database keeps the promise. *)

From S2P Require Import Prelude Crypto Account.
Open Scope Z_scope.

Class AccountsStore (DB : Type) := {
  db_load : DB -> bytes -> option Account;
  db_exists : DB -> bytes -> bool;
  db_store : DB -> bytes -> Account -> DB;
  db_remove : DB -> bytes -> DB * bool
}.

Class AccountsStoreLaws (DB : Type) `{AccountsStore DB} := {
  db_wf : DB -> Prop;
  db_view : DB -> gmap bytes Account;
  db_view_ok db k a : db_wf db -> db_view db !! k = Some a -> account_ok a;
  db_load_view db k : db_wf db -> db_load db k = db_view db !! k;
  db_exists_view db k :
    db_wf db -> db_exists db k = bool_decide (is_Some (db_view db !! k));
  db_store_wf db k a : db_wf db -> account_ok a -> db_wf (db_store db k a);
  db_store_view db k a :
    db_wf db -> account_ok a -> db_view (db_store db k a) = <[k:=a]> (db_view db);
  db_remove_wf db k : db_wf db -> db_wf (db_remove db k).1;
  db_remove_view db k : db_wf db -> db_view (db_remove db k).1 = delete k (db_view db);
  db_remove_result db k :
    db_wf db -> (db_remove db k).2 = bool_decide (is_Some (db_view db !! k))
}.

#[export] Hint Resolve db_store_wf db_remove_wf db_view_ok : trust.

(** The specification itself, as a database: a finite map. *)
Definition map_store_wf (m : gmap bytes Account) : Prop := map_Forall (fun _ a => account_ok a) m.

#[export] Instance map_store : AccountsStore (gmap bytes Account) := {|
  db_load m k := m !! k;
  db_exists m k := bool_decide (is_Some (m !! k));
  db_store m k a := <[k:=a]> m;
  db_remove m k := (delete k m, bool_decide (is_Some (m !! k)))
|}.

#[export] Program Instance map_store_laws : AccountsStoreLaws (gmap bytes Account) := {|
  db_wf := map_store_wf;
  db_view m := m
|}.
Next Obligation. intros m k a Hwf Hk. by apply (Hwf k a). Qed.
Next Obligation. done. Qed.
Next Obligation. done. Qed.
Next Obligation. intros m k a Hwf Ha. by apply map_Forall_insert_2. Qed.
Next Obligation. done. Qed.
Next Obligation. intros m k Hwf. by apply map_Forall_delete. Qed.
Next Obligation. done. Qed.
Next Obligation. done. Qed.

(** Total lamports of the accounts a database holds: the quantity whose
    conservation the program promises. *)
Definition supply (m : gmap bytes Account) : Z := map_sum lamports m.

Lemma supply_insert m k a :
  supply (<[k:=a]> m) = supply m - from_option lamports 0 (m !! k) + lamports a.
Proof. apply map_sum_insert. Qed.

(** [getBalance]-style balance: 0 when the account is absent. *)
Definition balance (m : gmap bytes Account) (k : bytes) : Z := from_option lamports 0 (m !! k).

Lemma supply_insert' m k a : supply (<[k:=a]> m) = supply m - balance m k + lamports a.
Proof. apply supply_insert. Qed.
