(* ===== verification/AccountsDB.v ===== *)
(** * The append-only accounts database ([crates/accounts/src/store.rs])

    Accounts are serialized into a growing buffer; an index maps each key to
    the location of its latest version; an optional log file makes the state
    survive a restart.  The file models every operation, proves that the
    database refines a finite map ([AccountsStoreLaws]) and that reopening a
    log (complete, compacted, or cut anywhere by a crash) restores the state. *)

From S2P Require Import Prelude Crypto Account Store.
Open Scope Z_scope.

(** [struct AccountLocation] *)
Record AccountLocation := mkLoc {
  loc_offset : Z;
  loc_length : Z;
  loc_write_version : Z
}.

Definition RECORD_PUT : Z := 1.
Definition RECORD_DELETE : Z := 2.

(** What [write_all] of a record does to the log file: all of its bytes reach
    it, or an error is reported after the first [written] of them. *)
Inductive AppendOutcome := Appended | AppendFailed (written : nat).

(** [struct AccountsDB]; [persist] holds the bytes of [accounts.log], and
    [appends] is what the disk will do to the coming appends (those beyond the
    end of the list succeed). *)
Record AccountsDB := mkDB {
  storage : bytes;
  index : gmap bytes AccountLocation;
  write_version : Z;
  account_count : Z;
  total_bytes : Z;
  persist : option bytes;
  appends : list AppendOutcome
}.

Section WithSerde.
Context `{Ser : Serde Account account_ok}.

(** [serde_json::to_vec(account).unwrap_or_default()] *)
Definition account_json (a : Account) : bytes := default [] (to_vec a).

(** [encode_put] *)
Definition encode_put (pubkey : bytes) (account : Account) : bytes :=
  let json := account_json account in
  [RECORD_PUT] ++ pubkey ++ le_bytes 4 (wrap32 (Z.of_nat (length json))) ++ json.

(** [encode_delete] *)
Definition encode_delete (pubkey : bytes) : bytes := [RECORD_DELETE] ++ pubkey.

(** [AccountsDB::new] *)
Definition new : AccountsDB := mkDB [] ∅ 0 0 0 None [].

(** [Persist::append], when the database is persistent: an error is logged and
    otherwise ignored, so what was written of the record stays in the file. *)
Definition persist_append (p : option bytes) (io : list AppendOutcome) (record : bytes)
    : option bytes * list AppendOutcome :=
  match p with
  | None => (None, io)
  | Some log =>
      match io with
      | [] => (Some (log ++ record), [])
      | Appended :: io => (Some (log ++ record), io)
      | AppendFailed written :: io => (Some (log ++ take written record), io)
      end
  end.

(** [AccountsDB::store] *)
Definition store (db : AccountsDB) (pubkey : bytes) (account : Account) : AccountsDB :=
  let serialized := account_json account in
  let length := Z.of_nat (length serialized) in
  let wv := wrap64 (write_version db + 1) in
  let offset := Z.of_nat (List.length (storage db)) in
  let is_new := bool_decide (index db !! pubkey = None) in
  mkDB (storage db ++ serialized)
       (<[pubkey := mkLoc offset length wv]> (index db))
       wv
       (if is_new then wrap64 (account_count db + 1) else account_count db)
       (wrap64 (total_bytes db + length))
       (persist_append (persist db) (appends db) (encode_put pubkey account)).1
       (persist_append (persist db) (appends db) (encode_put pubkey account)).2.

(** The bytes a location denotes, [None] when it leaves the buffer. *)
Definition read_location (st : bytes) (loc : AccountLocation) : option bytes :=
  let start := Z.to_nat (loc_offset loc) in
  let stop := (start + Z.to_nat (loc_length loc))%nat in
  if (length st <? stop)%nat then None else Some (slice st start stop).

(** [AccountsDB::load] *)
Definition load (db : AccountsDB) (pubkey : bytes) : option Account :=
  match index db !! pubkey with
  | None => None
  | Some location =>
      match read_location (storage db) location with
      | None => None
      | Some b => from_slice b
      end
  end.

(** [AccountsDB::exists] *)
Definition exists_ (db : AccountsDB) (pubkey : bytes) : bool :=
  bool_decide (is_Some (index db !! pubkey)).

(** [AccountsDB::remove] *)
Definition remove (db : AccountsDB) (pubkey : bytes) : AccountsDB * bool :=
  match index db !! pubkey with
  | None => (db, false)
  | Some _ =>
      (mkDB (storage db) (delete pubkey (index db)) (write_version db)
            (if 0 <? account_count db then account_count db - 1 else account_count db)
            (total_bytes db)
            (persist_append (persist db) (appends db) (encode_delete pubkey)).1
            (persist_append (persist db) (appends db) (encode_delete pubkey)).2, true)
  end.

(** [AccountsDB::replay]: [rest] is the part of the log from the cursor on. *)
Fixpoint replay_loop (fuel : nat) (db : AccountsDB) (rest : bytes) : AccountsDB :=
  match fuel with
  | O => db
  | S fuel =>
    match rest with
    | [] => db
    | tag :: _ =>
      if tag =? RECORD_PUT then
        if (length rest <? 1 + 32 + 4)%nat then db else
        let pubkey := slice rest 1 33 in
        let len := Z.to_nat (from_le (slice rest 33 37)) in
        let payload_end := (37 + len)%nat in
        if (length rest <? payload_end)%nat then db else
        let db' := match from_slice (slice rest 37 payload_end) with
                   | Some account => store db pubkey account
                   | None => db
                   end in
        replay_loop fuel db' (drop payload_end rest)
      else if tag =? RECORD_DELETE then
        if (length rest <? 1 + 32)%nat then db else
        replay_loop fuel (remove db (slice rest 1 33)).1 (drop 33 rest)
      else db
    end
  end.

(** Every record is at least 33 bytes long, so the length of the log bounds
    the number of iterations. *)
Definition replay (db : AccountsDB) (data : bytes) : AccountsDB :=
  replay_loop (length data) db data.

(** [AccountsDB::open] on a directory whose log holds [log]; the torn bytes
    replay stops at stay in the file.  [io] is what the disk will do. *)
Definition open_on (io : list AppendOutcome) (log : bytes) : AccountsDB :=
  let db := replay new log in
  mkDB (storage db) (index db) (write_version db) (account_count db) (total_bytes db) (Some log) io.

(** The same on a disk that does not fail. *)
Definition open (log : bytes) : AccountsDB := open_on [] log.

Definition is_persistent (db : AccountsDB) : bool := bool_decide (is_Some (persist db)).

(** The keys of the index in the order the sharded map iterates them: some
    arrangement of the index's keys. *)
Definition iteration_of (db : AccountsDB) (keys : list bytes) : Prop :=
  keys ≡ₚ (map_to_list (index db)).*1.

Definition compacted_log (db : AccountsDB) (keys : list bytes) : bytes :=
  mjoin ((fun k => match load db k with Some a => encode_put k a | None => [] end) <$> keys).

(** [AccountsDB::snapshot], when its file operations succeed *)
Definition snapshot (db : AccountsDB) (keys : list bytes) : AccountsDB :=
  match persist db with
  | None => db
  | Some _ => mkDB (storage db) (index db) (write_version db) (account_count db)
                   (total_bytes db) (Some (compacted_log db keys)) (appends db)
  end.

(** [AccountsDB::pubkeys] / [snapshot_pubkeys] *)
Definition pubkeys (db : AccountsDB) : list bytes := (map_to_list (index db)).*1.

(** [AccountsDB::total_lamports] *)
Definition total_lamports (db : AccountsDB) (keys : list bytes) : Z :=
  foldl (fun acc a => wrap64 (acc + lamports a)) 0 (omap (load db) keys).

(** [AccountsDB::apply_batch] *)
Definition apply_batch (db : AccountsDB) (updates : list (bytes * Account)) : AccountsDB :=
  foldl (fun db '(pubkey, account) => store db pubkey account) db updates.

(** [struct DBStats], [AccountsDB::stats] *)
Record DBStats := mkStats {
  st_account_count : Z; st_total_bytes : Z; st_index_slots : Z; st_write_version : Z
}.
Definition stats (db : AccountsDB) : DBStats :=
  mkStats (account_count db) (total_bytes db) (Z.of_nat (size (index db))) (write_version db).
End WithSerde.

(** ** Refinement: the database is a finite map *)

Section Refinement.
Context `{Ser : Serde Account account_ok}.

(** The account a location denotes in a buffer. *)
Definition decode_location (st : bytes) (loc : AccountLocation) : option Account :=
  match read_location st loc with Some b => from_slice b | None => None end.

(** Every index entry denotes a well-typed account. *)
Definition wf (db : AccountsDB) : Prop :=
  map_Forall (fun _ loc => exists a, decode_location (storage db) loc = Some a /\ account_ok a)
             (index db).

Definition view (db : AccountsDB) : gmap bytes Account :=
  omap (decode_location (storage db)) (index db).

Lemma account_json_roundtrip a :
  account_ok a -> to_vec a = Some (account_json a) /\ from_slice (account_json a) = Some a.
Proof.
  intros Ha. destruct (serde_roundtrip a Ha) as (b & Hb & Hf).
  unfold account_json. by rewrite Hb.
Qed.

(** Appending to the buffer leaves earlier locations alone. *)
Lemma read_location_app st st' loc b :
  read_location st loc = Some b -> read_location (st ++ st') loc = Some b.
Proof.
  unfold read_location. case_match eqn:E; [done|]. intros [= <-].
  apply Nat.ltb_ge in E. rewrite length_app.
  destruct (_ <? _)%nat eqn:E'; [apply Nat.ltb_lt in E'; lia|].
  f_equal. unfold slice. rewrite drop_app_le by lia. rewrite take_app_le; [done|].
  rewrite length_drop. lia.
Qed.

Lemma decode_location_app st st' loc a :
  decode_location st loc = Some a -> decode_location (st ++ st') loc = Some a.
Proof.
  unfold decode_location. destruct (read_location st loc) eqn:E; [|done].
  by rewrite (read_location_app _ _ _ _ E).
Qed.

(** The location [store] creates denotes the bytes it appends. *)
Lemma read_location_end st b wv :
  read_location (st ++ b) (mkLoc (Z.of_nat (length st)) (Z.of_nat (length b)) wv) = Some b.
Proof.
  unfold read_location, slice. simpl. rewrite !Nat2Z.id, length_app, Nat.ltb_irrefl.
  rewrite drop_app_length. f_equal. apply take_ge. lia.
Qed.

Lemma load_view db k : wf db -> load db k = view db !! k.
Proof. intros _. unfold load, view. rewrite lookup_omap. by destruct (index db !! k). Qed.

Lemma view_lookup_wf db k :
  wf db -> is_Some (view db !! k) <-> is_Some (index db !! k).
Proof.
  intros Hwf. unfold view. rewrite lookup_omap.
  destruct (index db !! k) as [loc|] eqn:E; simpl; [|done].
  destruct (Hwf _ _ E) as (a & -> & _). naive_solver.
Qed.

Lemma store_wf db k a : wf db -> account_ok a -> wf (store db k a).
Proof.
  intros Hwf Ha. unfold wf, store. simpl. apply map_Forall_insert_2.
  - exists a. unfold decode_location.
    rewrite read_location_end. split; [|done]. by apply account_json_roundtrip.
  - intros k' loc Hk'. destruct (Hwf _ _ Hk') as (a' & Ha' & ?).
    exists a'. split; [by apply decode_location_app | done].
Qed.

Lemma store_view db k a :
  wf db -> account_ok a -> view (store db k a) = <[k:=a]> (view db).
Proof.
  intros Hwf Ha. apply map_eq. intros k'. unfold view. rewrite lookup_omap. simpl.
  destruct (decide (k = k')) as [<-|Hne].
  - rewrite !lookup_insert_eq. simpl. unfold decode_location.
    rewrite read_location_end. by apply account_json_roundtrip.
  - rewrite !lookup_insert_ne, lookup_omap by done.
    destruct (index db !! k') as [loc|] eqn:E; simpl; [|done].
    destruct (Hwf _ _ E) as (a' & Ha' & _). rewrite Ha'. by apply decode_location_app.
Qed.

Lemma remove_wf db k : wf db -> wf (remove db k).1.
Proof.
  intros Hwf. unfold remove. destruct (index db !! k); simpl; [|done].
  by apply map_Forall_delete.
Qed.

Lemma remove_view db k : wf db -> view (remove db k).1 = delete k (view db).
Proof.
  intros Hwf. apply map_eq. intros k'. unfold remove, view.
  destruct (index db !! k) eqn:E; simpl; rewrite ?lookup_omap.
  - rewrite !lookup_delete, lookup_omap. by case_decide.
  - rewrite lookup_delete, lookup_omap. case_decide; [|done]. subst. by rewrite E.
Qed.

Lemma remove_result db k : wf db -> (remove db k).2 = bool_decide (is_Some (view db !! k)).
Proof.
  intros Hwf. rewrite (bool_decide_ext _ _ (view_lookup_wf db k Hwf)).
  unfold remove. by destruct (index db !! k).
Qed.

Lemma view_ok db k a : wf db -> view db !! k = Some a -> account_ok a.
Proof.
  intros Hwf. unfold view. rewrite lookup_omap.
  destruct (index db !! k) as [loc|] eqn:E; simpl; [|done].
  destruct (Hwf _ _ E) as (a' & -> & ?). by intros [= <-].
Qed.

Lemma exists_view db k : wf db -> exists_ db k = bool_decide (is_Some (view db !! k)).
Proof. intros Hwf. unfold exists_. by rewrite (bool_decide_ext _ _ (view_lookup_wf db k Hwf)). Qed.

Lemma wf_new : wf new.
Proof. apply map_Forall_empty. Qed.
Lemma view_new : view new = ∅.
Proof. apply omap_empty. Qed.

#[export] Instance accounts_db_store : AccountsStore AccountsDB := {|
  db_load := load; db_exists := exists_; db_store := store; db_remove := remove
|}.

#[export] Instance accounts_db_laws : AccountsStoreLaws AccountsDB := {|
  db_wf := wf; db_view := view;
  db_view_ok := view_ok;
  db_load_view := load_view;
  db_exists_view := exists_view;
  db_store_wf := store_wf;
  db_store_view := store_view;
  db_remove_wf := remove_wf;
  db_remove_view := remove_view;
  db_remove_result := remove_result
|}.
End Refinement.

(** ** Operation sequences *)

(** The mutating calls a client makes. *)
Inductive DbOp :=
  | OpStore (k : bytes) (a : Account)
  | OpRemove (k : bytes).

Section Sequences.
Context `{Ser : Serde Account account_ok}.

Definition op_ok (op : DbOp) : Prop :=
  match op with
  | OpStore k a => arr32 k /\ account_ok a /\ Z.of_nat (length (account_json a)) < 2 ^ 32
  | OpRemove k => arr32 k
  end.

#[export] Instance op_ok_dec op : Decision (op_ok op).
Proof. destruct op; simpl; apply _. Defined.

Definition run_op (db : AccountsDB) (op : DbOp) : AccountsDB :=
  match op with
  | OpStore k a => store db k a
  | OpRemove k => (remove db k).1
  end.
Definition run_ops (ops : list DbOp) (db : AccountsDB) : AccountsDB := foldl run_op db ops.

(** The same calls on the abstract map. *)
Definition map_op (m : gmap bytes Account) (op : DbOp) : gmap bytes Account :=
  match op with
  | OpStore k a => <[k:=a]> m
  | OpRemove k => delete k m
  end.
Definition map_ops (ops : list DbOp) (m : gmap bytes Account) : gmap bytes Account :=
  foldl map_op m ops.

Lemma run_op_wf db op : wf db -> op_ok op -> wf (run_op db op).
Proof. destruct op; simpl; intros; [apply store_wf | apply remove_wf]; naive_solver. Qed.

Lemma run_op_view db op : wf db -> op_ok op -> view (run_op db op) = map_op (view db) op.
Proof. destruct op; simpl; intros; [apply store_view | apply remove_view]; naive_solver. Qed.

Lemma run_ops_wf ops db : wf db -> Forall op_ok ops -> wf (run_ops ops db).
Proof.
  intros Hwf Hops. revert db Hwf.
  induction Hops as [|op ops Hop _ IH]; intros db Hwf; [done|]. by apply IH, run_op_wf.
Qed.

Lemma run_ops_view ops db :
  wf db -> Forall op_ok ops -> view (run_ops ops db) = map_ops ops (view db).
Proof.
  intros Hwf Hops. revert db Hwf.
  induction Hops as [|op ops Hop _ IH]; intros db Hwf; [done|].
  simpl. rewrite IH by (by apply run_op_wf). by rewrite run_op_view.
Qed.

(** The counter equals the number of index entries (below [2^64] entries). *)
Lemma run_op_count db op :
  Z.of_nat (size (index db)) < U64_MAX ->
  account_count db = Z.of_nat (size (index db)) ->
  account_count (run_op db op) = Z.of_nat (size (index (run_op db op))) /\
  Z.of_nat (size (index (run_op db op))) <= Z.of_nat (size (index db)) + 1.
Proof.
  intros Hlt Hc. destruct op as [k a|k]; simpl.
  - destruct (index db !! k) as [loc|] eqn:E.
    + rewrite bool_decide_eq_false_2 by done.
      rewrite map_size_insert_Some by done. lia.
    + rewrite bool_decide_eq_true_2 by done.
      rewrite map_size_insert_None by done. rewrite Hc, wrap64_id; [lia|].
      u64_unfold. lia.
  - unfold remove. destruct (index db !! k) as [loc|] eqn:E; simpl; [|lia].
    rewrite map_size_delete_Some by eauto.
    assert (size (index db) <> 0%nat).
    { intros H0. apply map_size_empty_inv in H0. rewrite H0 in E. done. }
    destruct (0 <? account_count db) eqn:E0; lia.
Qed.

Lemma run_ops_count ops db :
  Z.of_nat (size (index db) + length ops) <= U64_MAX ->
  account_count db = Z.of_nat (size (index db)) ->
  account_count (run_ops ops db) = Z.of_nat (size (index (run_ops ops db))).
Proof.
  revert db. induction ops as [|op ops IH]; intros db Hlt Hc; [done|].
  simpl in *. destruct (run_op_count db op) as [Hc' Hs]; [lia|done|]. apply IH; [lia|done].
Qed.

Lemma size_view db : wf db -> size (view db) = size (index db).
Proof.
  intros Hwf. rewrite <- !size_dom. f_equal. apply set_eq. intros k.
  rewrite !elem_of_dom. by apply view_lookup_wf.
Qed.

(** C19. The append-only database implements a finite map: after any sequence
    of [store]/[remove] calls from an empty database, [load] and [exists]
    answer exactly as the map built by the same calls, and the account
    counter is the number of accounts. *)
Theorem accounts_db_refines_map ops k :
  Forall op_ok ops -> Z.of_nat (length ops) <= U64_MAX ->
  let db := run_ops ops new in
  let m := map_ops ops ∅ in
  load db k = m !! k /\
  exists_ db k = bool_decide (is_Some (m !! k)) /\
  account_count db = Z.of_nat (size m).
Proof.
  intros Hops Hlen db m.
  assert (Hwf : wf db) by (by apply run_ops_wf; [apply wf_new|]).
  assert (Hv : view db = m).
  { unfold db. rewrite run_ops_view by (done || apply wf_new). by rewrite view_new. }
  rewrite load_view, exists_view, <- Hv by done. split_and!; [done|done|].
  rewrite size_view by done. by apply run_ops_count.
Qed.

(** Appending never rewrites the buffer: the old bytes stay a prefix. *)
Lemma storage_append_only ops db : storage db `prefix_of` storage (run_ops ops db).
Proof.
  revert db. induction ops as [|op ops IH]; intros db; [done|]. simpl.
  etrans; [|apply IH]. destruct op; simpl.
  - by apply prefix_app_r.
  - unfold remove. by destruct (index db !! k).
Qed.
End Sequences.

(** ** Crash safety of the log *)

Section Log.
Context `{Ser : Serde Account account_ok}.

Lemma slice_mid {A} (a b c : list A) :
  slice (a ++ b ++ c) (length a) (length a + length b) = b.
Proof.
  unfold slice. rewrite drop_app_length. replace (_ - _)%nat with (length b) by lia.
  by rewrite take_app_length.
Qed.

Lemma length_encode_put k a :
  length k = 32%nat -> length (encode_put k a) = (37 + length (account_json a))%nat.
Proof. intros Hk. unfold encode_put. autorewrite with trust_len. rewrite Hk. simpl. lia. Qed.

(** The fields the replay loop reads from a log that starts with a put. *)
Lemma put_fields k a tail :
  length k = 32%nat -> Z.of_nat (length (account_json a)) < 2 ^ 32 ->
  let rest := encode_put k a ++ tail in
  slice rest 1 33 = k /\
  from_le (slice rest 33 37) = Z.of_nat (length (account_json a)) /\
  slice rest 37 (37 + length (account_json a)) = account_json a /\
  drop (37 + length (account_json a)) rest = tail.
Proof.
  intros Hk Hj rest. unfold rest, encode_put. set (j := account_json a) in *.
  set (n := le_bytes 4 _).
  assert (Hn : length n = 4%nat) by apply length_le_bytes.
  split_and!.
  - pose proof (slice_mid [RECORD_PUT] k (n ++ j ++ tail)) as E. rewrite Hk in E.
    by rewrite <- !app_assoc.
  - pose proof (slice_mid ([RECORD_PUT] ++ k) n (j ++ tail)) as E.
    rewrite length_app, Hk, Hn in E. rewrite <- !app_assoc in *. simpl in *. rewrite E.
    unfold n. unfold wrap32. rewrite Z.mod_small by lia. apply from_le_bytes. simpl. lia.
  - pose proof (slice_mid ([RECORD_PUT] ++ k ++ n) j tail) as E.
    rewrite !length_app, Hk, Hn in E. rewrite <- !app_assoc in *. done.
  - rewrite <- !app_assoc. rewrite (app_assoc k), (app_assoc _ j), (app_assoc [_]).
    rewrite drop_app_ge; autorewrite with trust_len; rewrite ?Hk, ?Hn; simpl; [|lia].
    replace (_ - _)%nat with 0%nat by lia. done.
Qed.

Lemma replay_put fuel db k a tail :
  op_ok (OpStore k a) ->
  replay_loop (S fuel) db (encode_put k a ++ tail) = replay_loop fuel (store db k a) tail.
Proof.
  intros ([Hk _] & Ha & Hj).
  destruct (put_fields k a tail Hk Hj) as (H1 & H2 & H3 & H4).
  pose proof (length_encode_put k a Hk) as Hl.
  destruct (encode_put k a ++ tail) as [|tag l] eqn:E; [done|].
  assert (tag = RECORD_PUT) as -> by (unfold encode_put in E; simpl in E; congruence).
  cbn [replay_loop]. rewrite Z.eqb_refl.
  assert (Hl' : length (RECORD_PUT :: l) = (37 + length (account_json a) + length tail)%nat).
  { rewrite <- E, length_app. lia. }
  rewrite H1, H2, Nat2Z.id, H3, H4, Hl'.
  destruct (Nat.ltb_spec (37 + length (account_json a) + length tail) (1 + 32 + 4)); [lia|].
  destruct (Nat.ltb_spec (37 + length (account_json a) + length tail) (37 + length (account_json a))); [lia|].
  by rewrite (proj2 (account_json_roundtrip a Ha)).
Qed.

Lemma replay_delete fuel db k tail :
  length k = 32%nat ->
  replay_loop (S fuel) db (encode_delete k ++ tail) = replay_loop fuel (remove db k).1 tail.
Proof.
  intros Hk.
  assert (H1 : slice (encode_delete k ++ tail) 1 33 = k).
  { pose proof (slice_mid [RECORD_DELETE] k tail) as E. by rewrite Hk in E. }
  assert (H2 : drop 33 (encode_delete k ++ tail) = tail).
  { rewrite drop_app_ge by (unfold encode_delete; simpl; lia).
    replace (_ - _)%nat with 0%nat by (unfold encode_delete; simpl; lia). done. }
  assert (Hl : length (encode_delete k ++ tail) = (33 + length tail)%nat).
  { rewrite length_app. unfold encode_delete. simpl. lia. }
  destruct (encode_delete k ++ tail) as [|tag l] eqn:E; [done|].
  assert (tag = RECORD_DELETE) as -> by (unfold encode_delete in E; simpl in E; congruence).
  cbn [replay_loop]. change (RECORD_DELETE =? RECORD_PUT) with false.
  change (RECORD_DELETE =? RECORD_DELETE) with true. cbv beta iota.
  rewrite H1, H2, Hl.
  destruct (Nat.ltb_spec (33 + length tail) (1 + 32)); [lia|done].
Qed.

(** The record of a call, and the log of a sequence of calls. *)
Definition encode_op (op : DbOp) : bytes :=
  match op with OpStore k a => encode_put k a | OpRemove k => encode_delete k end.
Definition encode_ops (ops : list DbOp) : bytes := mjoin (encode_op <$> ops).

Lemma encode_op_len op : op_ok op -> (33 <= length (encode_op op))%nat.
Proof.
  destruct op as [k a|k]; cbn [encode_op op_ok].
  - intros ([Hk _] & _). rewrite length_encode_put by done. lia.
  - intros [Hk _]. unfold encode_delete. simpl. lia.
Qed.

Lemma encode_ops_cons op ops : encode_ops (op :: ops) = encode_op op ++ encode_ops ops.
Proof. done. Qed.

Lemma encode_ops_one op : encode_ops [op] = encode_op op.
Proof. rewrite encode_ops_cons. apply app_nil_r. Qed.

Lemma encode_ops_app l1 l2 : encode_ops (l1 ++ l2) = encode_ops l1 ++ encode_ops l2.
Proof. unfold encode_ops. by rewrite fmap_app, join_app. Qed.

Lemma encode_ops_len ops : Forall op_ok ops -> (length ops <= length (encode_ops ops))%nat.
Proof.
  induction 1 as [|op ops Hop _ IH]; [done|].
  rewrite encode_ops_cons, length_app. cbn [length].
  apply encode_op_len in Hop. lia.
Qed.

(** Replaying a log of complete records runs the recorded calls. *)
Lemma replay_ops ops fuel db tail :
  Forall op_ok ops ->
  replay_loop (length ops + fuel) db (encode_ops ops ++ tail) =
  replay_loop fuel (run_ops ops db) tail.
Proof.
  intros Hops. revert db. induction Hops as [|op ops Hop _ IH]; intros db; [done|].
  rewrite encode_ops_cons, <- app_assoc. cbn [length Nat.add].
  change (run_ops (op :: ops) db) with (run_ops ops (run_op db op)). rewrite <- IH. destruct op as [k a|k].
  - by apply replay_put.
  - apply replay_delete, Hop.
Qed.

Lemma slice_take {A} (l : list A) n a b : (b <= n)%nat -> slice (take n l) a b = slice l a b.
Proof. intros. unfold slice. rewrite skipn_firstn_comm, take_take. f_equal. lia. Qed.

(** A record cut short by a crash is not applied. *)
Lemma replay_torn fuel db op n :
  op_ok op -> (n < length (encode_op op))%nat ->
  replay_loop fuel db (take n (encode_op op)) = db.
Proof.
  intros Hop Hn. destruct fuel as [|fuel]; [done|].
  destruct n as [|n]; [done|].
  assert (Hl : length (take (S n) (encode_op op)) = S n) by (rewrite length_take; lia).
  destruct op as [k a|k]; cbn [encode_op op_ok] in *.
  - destruct Hop as ([Hk _] & Ha & Hj). rewrite length_encode_put in Hn by done.
    destruct (put_fields k a [] Hk Hj) as (_ & H2 & _). rewrite app_nil_r in H2.
    destruct (take (S n) (encode_put k a)) as [|tag l] eqn:E; [done|].
    assert (tag = RECORD_PUT) as -> by (unfold encode_put in E; simpl in E; congruence).
    cbn [replay_loop]. rewrite Z.eqb_refl, Hl, <- E.
    destruct (Nat.ltb_spec (S n) (1 + 32 + 4)); [done|].
    rewrite slice_take, H2, Nat2Z.id by lia.
    by destruct (Nat.ltb_spec (S n) (37 + length (account_json a))); [|lia].
  - destruct Hop as [Hk _]. unfold encode_delete in *. simpl in Hn.
    cbn [app] in *. rewrite firstn_cons in *. cbn [replay_loop].
    change (RECORD_DELETE =? RECORD_PUT) with false.
    change (RECORD_DELETE =? RECORD_DELETE) with true. cbv beta iota. rewrite Hl.
    destruct (Nat.ltb_spec (S n) (1 + 32)); [done|lia].
Qed.

Lemma replay_log ops db n :
  Forall op_ok ops -> replay db (encode_ops ops ++ n) =
    replay_loop (length (encode_ops ops ++ n) - length ops) (run_ops ops db) n.
Proof.
  intros Hops. unfold replay. rewrite <- replay_ops by done. f_equal.
  apply encode_ops_len in Hops. rewrite length_app. lia.
Qed.

(** The persistent database after a sequence of calls: its log is a sequence
    of complete records whose effect is that of the calls. *)
Lemma run_ops_log ops :
  Forall op_ok ops ->
  exists rs, Forall op_ok rs /\ persist (run_ops ops (open [])) = Some (encode_ops rs) /\
             appends (run_ops ops (open [])) = [] /\ map_ops rs ∅ = map_ops ops ∅.
Proof.
  intros Hops. induction ops as [|op ops IH] using rev_ind.
  - by exists [].
  - apply Forall_app in Hops as [Hops Hop]. inversion_clear Hop as [|?? Hop' _].
    destruct (IH Hops) as (rs & Hrs & Hp & Hio & Hm).
    assert (Hwf : wf (run_ops ops (open []))) by (apply run_ops_wf; [apply wf_new|done]).
    assert (Hv : view (run_ops ops (open [])) = map_ops ops ∅).
    { by rewrite run_ops_view; [|apply wf_new|done]. }
    unfold run_ops, map_ops in *. rewrite !foldl_snoc.
    destruct op as [k a|k]; simpl.
    + exists (rs ++ [OpStore k a]). rewrite encode_ops_app, encode_ops_one, Hp, Hio, foldl_snoc, Hm.
      split_and!; [by apply Forall_app_2; [|constructor] | done..].
    + unfold remove. destruct (index _ !! k) as [loc|] eqn:E; simpl.
      * exists (rs ++ [OpRemove k]). rewrite encode_ops_app, encode_ops_one, Hp, Hio, foldl_snoc, Hm.
        split_and!; [by apply Forall_app_2; [|constructor] | done..].
      * exists rs. split_and!; [done|done|done|]. rewrite Hm, <- Hv. symmetry.
        apply delete_id. apply eq_None_not_Some. rewrite (view_lookup_wf _ _ Hwf), E. by intros [].
Qed.

Lemma open_view ops tail :
  Forall op_ok ops ->
  (forall fuel, replay_loop fuel (run_ops ops new) tail = run_ops ops new) ->
  wf (open (encode_ops ops ++ tail)) /\ view (open (encode_ops ops ++ tail)) = map_ops ops ∅.
Proof.
  intros Hops Ht. unfold open, open_on. rewrite replay_log, Ht by done.
  split; [apply (run_ops_wf _ _ wf_new Hops)|].
  change (view (run_ops ops new) = map_ops ops ∅).
  rewrite run_ops_view; [by rewrite view_new | apply wf_new | done].
Qed.

Lemma replay_loop_nil fuel db : replay_loop fuel db [] = db.
Proof. by destruct fuel. Qed.

Lemma replay_encode_ops ops db : Forall op_ok ops -> replay db (encode_ops ops) = run_ops ops db.
Proof.
  intros Hops. pose proof (replay_log ops db [] Hops) as E.
  by rewrite app_nil_r, replay_loop_nil in E.
Qed.

Lemma open_ops_view ops :
  Forall op_ok ops -> wf (open (encode_ops ops)) /\ view (open (encode_ops ops)) = map_ops ops ∅.
Proof.
  intros Hops. rewrite <- (app_nil_r (encode_ops ops)). apply open_view; [done|].
  intros. apply replay_loop_nil.
Qed.

(** What the calls write to the log of a fresh database. *)
Definition log_of (ops : list DbOp) : bytes := default [] (persist (run_ops ops (open []))).

Lemma log_of_snoc ops op : Forall op_ok ops -> log_of (ops ++ [op]) = log_of ops ++ encode_op op \/
  (log_of (ops ++ [op]) = log_of ops /\ map_ops (ops ++ [op]) ∅ = map_ops ops ∅).
Proof.
  intros Hops. destruct (run_ops_log ops Hops) as (rs & _ & Hp & Hio & _).
  assert (Hwf : wf (run_ops ops (open []))) by (apply run_ops_wf; [apply wf_new|done]).
  assert (Hv : view (run_ops ops (open [])) = map_ops ops ∅) by (by rewrite run_ops_view; [|apply wf_new|done]).
  unfold log_of, run_ops, map_ops in *. rewrite !foldl_snoc. destruct op as [k a|k]; simpl; [left; by rewrite Hp, Hio|].
  unfold remove. destruct (index _ !! k) as [loc|] eqn:E; simpl; [left; by rewrite Hp, Hio|right].
  split; [done|]. rewrite <- Hv. apply delete_id. apply eq_None_not_Some. rewrite (view_lookup_wf _ _ Hwf), E. by intros [].
Qed.

Lemma log_of_prefix pre ops : Forall op_ok ops -> pre `prefix_of` ops -> (length (log_of pre) <= length (log_of ops))%nat.
Proof.
  intros Hops [l ->]. induction l as [|op l IH] using rev_ind; [by rewrite app_nil_r|]. rewrite app_assoc in *.
  apply Forall_app in Hops as [Hops _]. etrans; [by apply IH|].
  destruct (log_of_snoc (pre ++ l) op Hops) as [->|[-> _]]; [rewrite length_app; lia|lia].
Qed.

(** C15. Crash recovery: cut the log of a persistent database (all of whose
    appends succeeded) at byte [n], and reopening it yields the state after a
    prefix of the calls: exactly the calls whose records lie within the
    first [n] bytes, so nothing torn is applied and nothing complete is lost. *)
Theorem crash_recovers_prefix ops n : Forall op_ok ops ->
  exists done_ops, longest_within (fun l => length (log_of l)) n ops done_ops /\
    forall k, load (open (take n (log_of ops))) k = map_ops done_ops ∅ !! k.
Proof.
  intros Hops. enough (exists d, longest_within (fun l => length (log_of l)) n ops d /\ wf (open (take n (log_of ops))) /\
    view (open (take n (log_of ops))) = map_ops d ∅) as (d & Hd & Hwf & Hv).
  { exists d. split; [done|]. intros k. by rewrite load_view, Hv. }
  induction ops as [|op ops IH] using rev_ind.
  { exists []. change (log_of []) with ([] : bytes). rewrite take_nil. split; [apply longest_all; [by intros pre Hp; apply prefix_nil_inv in Hp as ->|cbn; lia]|].
    by destruct (open_ops_view []). }
  pose proof Hops as [Hops' Hop']%Forall_app. inversion_clear Hop' as [|?? Hop _].
  destruct (run_ops_log ops Hops') as (rs & Hrs & Hp & _ & Hm).
  assert (Hlog : log_of ops = encode_ops rs) by (unfold log_of; by rewrite Hp).
  assert (Hall : (length (log_of ops) <= n)%nat -> longest_within (fun l => length (log_of l)) n ops ops)
    by (intros; apply longest_all; [by intros ? ?; apply log_of_prefix|done]).
  destruct (decide (length (log_of (ops ++ [op])) <= n)%nat) as [Hn|Hn].
  - exists (ops ++ [op]). split; [by apply longest_all; [by intros ? ?; apply log_of_prefix|]|]. rewrite take_ge by done.
    destruct (log_of_snoc ops op Hops') as [->|[-> ->]]; [|by rewrite Hlog, <- Hm; apply open_ops_view].
    rewrite Hlog, <- encode_ops_one, <- encode_ops_app. destruct (open_ops_view (rs ++ [op])) as [Hwf Hv];
      [by apply Forall_app_2; [|constructor]|]. split; [done|]. rewrite Hv. unfold map_ops in *. by rewrite !foldl_snoc, Hm.
  - destruct (log_of_snoc ops op Hops') as [E|[E _]]; rewrite E in *.
    + destruct (decide (n < length (log_of ops))%nat) as [Hlt|Hge].
      * destruct (IH Hops') as (d & Hd & Ho). exists d. rewrite take_app_le by lia. split; [|done].
        apply longest_snoc; [done|]. rewrite E. lia.
      * exists ops. split; [apply longest_snoc; [apply Hall; lia|rewrite E; lia]|]. rewrite take_app_ge, Hlog, <- Hm by lia.
        apply open_view; [done|]. intros fuel. apply replay_torn; [done|]. rewrite length_app in Hn. rewrite <- Hlog. lia.
    + destruct (IH Hops') as (d & Hd & Ho). exists d. split; [|done]. apply longest_snoc; [done|]. rewrite E. lia.
Qed.

(** Restart: reopening the log of a persistent database gives back every
    account exactly, and the account counter. *)
Theorem reopen_restores_state ops log k :
  Forall op_ok ops -> Z.of_nat (length log) <= U64_MAX ->
  persist (run_ops ops (open [])) = Some log ->
  load (open log) k = load (run_ops ops (open [])) k /\
  account_count (open log) = Z.of_nat (size (view (open log))).
Proof.
  intros Hops Hlen Hlog. destruct (run_ops_log ops Hops) as (rs & Hrs & Hp & _ & Hm).
  rewrite Hp in Hlog. injection Hlog as <-.
  destruct (open_ops_view rs Hrs) as [Hwf Hv].
  assert (Hwf' : wf (run_ops ops (open []))) by (apply run_ops_wf; [apply wf_new|done]).
  rewrite !load_view, Hv by done. split.
  - rewrite run_ops_view; [|apply wf_new|done].
    by rewrite Hm.
  - rewrite <- Hv, size_view by done. unfold open. simpl. rewrite replay_encode_ops by done.
    apply encode_ops_len in Hrs. apply run_ops_count; [change (size (index new)) with 0%nat; lia | done].
Qed.

(** The fuel of the replay loop is never exhausted: any bound at least as
    large as the log gives the same result. *)
Lemma replay_fuel fuel db rest :
  (length rest <= fuel)%nat -> replay_loop fuel db rest = replay db rest.
Proof.
  unfold replay. remember (length rest) as n eqn:Hn.
  revert n fuel db rest Hn.
  induction n as [n IH] using lt_wf_ind. intros fuel db rest -> Hf.
  destruct rest as [|tag rest']; [by destruct fuel|].
  destruct fuel as [|fuel]; [simpl in Hf; lia|].
  cbn [length replay_loop]. set (rest := tag :: rest') in *.
  assert (Hstep : forall j db', (0 < j)%nat ->
    replay_loop fuel db' (drop j rest) = replay_loop (length rest') db' (drop j rest)).
  { intros j db' Hj.
    assert (Hd : (length (drop j rest) <= length rest')%nat)
      by (rewrite length_drop; simpl; lia).
    simpl in Hf. transitivity (replay_loop (length (drop j rest)) db' (drop j rest));
      [|symmetry]; apply IH; simpl; (done || lia). }
  destruct (tag =? RECORD_PUT).
  - do 2 (case_match_goal; [done|]). apply Hstep. lia.
  - destruct (tag =? RECORD_DELETE); [|done]. case_match_goal; [done|]. apply Hstep. lia.
Qed.

(** Writing the live accounts back, one record each. *)
Definition snapshot_ops (db : AccountsDB) (keys : list bytes) : list DbOp :=
  omap (fun k => OpStore k <$> load db k) keys.

Lemma compacted_log_ops db keys : compacted_log db keys = encode_ops (snapshot_ops db keys).
Proof.
  unfold compacted_log. induction keys as [|k keys IH]; [done|].
  rewrite fmap_cons. rewrite mjoin_cons, IH. unfold snapshot_ops. simpl.
  destruct (load db k); simpl; [|done]. by rewrite encode_ops_cons.
Qed.

Lemma snapshot_ops_lookup db keys m k :
  wf db -> map_ops (snapshot_ops db keys) m !! k =
    if decide (k ∈ keys) then (match view db !! k with Some a => Some a | None => m !! k end)
    else m !! k.
Proof.
  intros Hwf. revert m. induction keys as [|k' keys IH]; intros m.
  { by rewrite decide_False by (by apply not_elem_of_nil). }
  simpl. rewrite load_view by done. destruct (view db !! k') as [a|] eqn:E; simpl.
  - unfold map_ops in *. simpl. rewrite IH. clear IH.
    destruct (decide (k = k')) as [->|Hne].
    + rewrite E, lookup_insert_eq. rewrite (decide_True (P := k' ∈ k' :: keys)) by left. by case_decide.
    + rewrite lookup_insert_ne by done. by repeat case_decide; set_solver.
  - rewrite IH. clear IH. destruct (decide (k = k')) as [->|Hne].
    + rewrite E. by repeat case_decide.
    + by repeat case_decide; set_solver.
Qed.

Lemma map_ops_ok ops m :
  Forall op_ok ops -> map_Forall (fun k a => op_ok (OpStore k a)) m ->
  map_Forall (fun k a => op_ok (OpStore k a)) (map_ops ops m).
Proof.
  intros Hops. revert m. induction Hops as [|op ops Hop _ IH]; intros m Hm; [done|].
  apply IH. destruct op; simpl; [by apply map_Forall_insert_2 | by apply map_Forall_delete].
Qed.

(** Compaction loses nothing: [snapshot] replaces the log by one record
    per live account (in whatever order the index iterates), and reopening
    the compacted log gives back every account of the database. *)
Theorem snapshot_reopen ops keys log k :
  Forall op_ok ops ->
  let db := run_ops ops (open []) in
  iteration_of db keys ->
  persist (snapshot db keys) = Some log ->
  load (open log) k = load db k.
Proof.
  intros Hops db Hkeys Hlog.
  assert (Hwf : wf db) by (apply run_ops_wf; [apply wf_new | done]).
  assert (Hok : map_Forall (fun k a => op_ok (OpStore k a)) (view db)).
  { unfold db. rewrite run_ops_view; [|apply wf_new|done]. apply map_ops_ok; [done|]. change (view (open [])) with (∅ : gmap bytes Account). apply map_Forall_empty. }
  assert (Hrs : Forall op_ok (snapshot_ops db keys)).
  { apply Forall_forall. intros op Hin%list_elem_of_In. apply list_elem_of_omap in Hin as (k' & _ & Hop).
    rewrite load_view in Hop by done. destruct (view db !! k') eqn:E; simplify_eq/=.
    by apply (Hok k'). }
  unfold snapshot in Hlog. destruct (persist db) eqn:Ep; [|congruence].
  simpl in Hlog. injection Hlog as <-. rewrite compacted_log_ops.
  destruct (open_ops_view _ Hrs) as [Hwf' Hv].
  rewrite !load_view, Hv, snapshot_ops_lookup, lookup_empty by done.
  destruct (view db !! k) eqn:E; [|by case_decide].
  rewrite decide_True; [done|]. rewrite Hkeys.
  assert (is_Some (index db !! k)) as [loc Hloc] by (apply view_lookup_wf; eauto).
  apply list_elem_of_fmap. exists (k, loc). split; [done|]. by apply elem_of_map_to_list.
Qed.

End Log.
