(* ===== verification/Merkle.v ===== *)
(** * State roots ([crates/accounts/src/merkle.rs], [AccountsDB::compute_state_root])

    The Merkle tree over account hashes, its inclusion proofs, and the state
    root of a database. *)

From S2P Require Import Prelude Crypto Account Store AccountsDB.
Open Scope Z_scope.

Section Merkle.
Context `{Sha : Sha256}.

(** One pass of the [chunks(2)] loop: hash pairs, promote an odd element. *)
Fixpoint next_level (level : list bytes) : list bytes :=
  match level with
  | a :: b :: rest => sha256 (a ++ b) :: next_level rest
  | rest => rest
  end.

(** [while current_level.len() > 1] *)
Fixpoint merkle_loop (fuel : nat) (current_level : list bytes) : list bytes :=
  match fuel with
  | O => current_level
  | S fuel => if (1 <? length current_level)%nat then merkle_loop fuel (next_level current_level)
              else current_level
  end.

(** [StateRoot::compute] *)
Definition compute (hashes : list bytes) : bytes :=
  match hashes with
  | [] => fill32 0
  | [h] => h
  | _ => hd (fill32 0) (merkle_loop (length hashes) hashes)
  end.

(** [struct MerkleProof] *)
Record MerkleProof := mkProof {
  leaf : bytes;
  siblings : list (bytes * bool);
  proof_index : nat
}.

(** One pass of the loop of [prove]: the next level and the sibling saved for
    [current_index], chunk by chunk ([i] numbers the chunks). *)
Fixpoint prove_level (level : list bytes) (i current_index : nat)
    : list bytes * list (bytes * bool) :=
  match level with
  | a :: b :: rest =>
      let '(next, sibs) := prove_level rest (S i) current_index in
      (sha256 (a ++ b) :: next,
       (if (i =? current_index / 2)%nat
        then [(if Nat.even current_index then b else a, negb (Nat.even current_index))]
        else []) ++ sibs)
  | rest => (rest, [])
  end.

Fixpoint prove_loop (fuel : nat) (level : list bytes) (current_index : nat)
    (sibs : list (bytes * bool)) : list (bytes * bool) :=
  match fuel with
  | O => sibs
  | S fuel =>
      if (1 <? length level)%nat then
        let '(next, new) := prove_level level 0 current_index in
        prove_loop fuel next (current_index / 2) (sibs ++ new)
      else sibs
  end.

(** [StateRoot::prove] *)
Definition prove (hashes : list bytes) (index : nat) : MerkleProof :=
  match hashes !! index with
  | None => mkProof (fill32 0) [] index
  | Some h => mkProof h (prove_loop (length hashes) hashes index []) index
  end.

(** One step of [MerkleProof::verify] *)
Definition fold_sibling (current : bytes) (s : bytes * bool) : bytes :=
  let '(sibling, is_left) := s in
  if is_left : bool then sha256 (sibling ++ current) else sha256 (current ++ sibling).

(** [MerkleProof::verify] *)
Definition verify (p : MerkleProof) (root : bytes) : bool :=
  bool_decide (foldl fold_sibling (leaf p) (siblings p) = root).

(** ** Correctness of proofs *)

(** Induction two elements at a time, as [chunks(2)] goes. *)
Lemma pair_ind (P : list bytes -> Prop) :
  P [] -> (forall a, P [a]) -> (forall a b l, P l -> P (a :: b :: l)) -> forall l, P l.
Proof.
  intros H0 H1 H2 l.
  enough (P l /\ forall a, P (a :: l)) by tauto.
  induction l as [|x l [IH1 IH2]]; split; intros; auto.
Qed.

Lemma length_next_level l : length (next_level l) = Nat.div2 (S (length l)).
Proof. induction l as [| |a b l IH] using pair_ind; simpl; [done|done|]. by rewrite IH. Qed.

Lemma prove_level_next l i idx : (prove_level l i idx).1 = next_level l.
Proof.
  revert i. induction l as [| |a b l IH] using pair_ind; intros i; simpl; [done|done|].
  specialize (IH (S i)). destruct (prove_level l (S i) idx). simpl in *. by rewrite IH.
Qed.

(** Chunks past the one of the index contribute no sibling. *)
Lemma prove_level_past l i idx : (idx / 2 < i)%nat -> (prove_level l i idx).2 = [].
Proof.
  revert i. induction l as [| |a b l IH] using pair_ind; intros i Hi; cbn [prove_level]; [done|done|].
  specialize (IH (S i)). destruct (prove_level l (S i) idx). cbn [fst snd] in *.
  rewrite IH by lia. by destruct (Nat.eqb_spec i (idx / 2)); [lia|].
Qed.

Lemma even_half idx i : (idx / 2 = i)%nat ->
  idx = (2 * i + (if Nat.even idx then 0 else 1))%nat.
Proof.
  intros <-. pose proof (Nat.div2_odd idx) as H. rewrite Nat.div2_div in H.
  rewrite <- Nat.negb_odd. destruct (Nat.odd idx); simpl in *; lia.
Qed.

(** The element above the index is what folding the saved sibling gives. *)
Lemma prove_level_parent l i idx x :
  (i + i <= idx)%nat -> l !! (idx - (i + i))%nat = Some x ->
  next_level l !! (idx / 2 - i)%nat = Some (foldl fold_sibling x (prove_level l i idx).2).
Proof.
  revert i. induction l as [|a|a b l IH] using pair_ind; intros i Hi Hx; [done| |].
  - destruct (idx - (i + i))%nat eqn:E; [|done]. injection Hx as <-.
    assert (idx = i * 2)%nat as -> by lia.
    rewrite Nat.div_mul, Nat.sub_diag by lia. done.
  - simpl next_level. cbn [prove_level].
    specialize (IH (S i)). pose proof (prove_level_past l (S i) idx) as Hpast.
    destruct (prove_level l (S i) idx) as [nl sibs]. cbn [fst snd] in *.
    destruct (Nat.eqb_spec i (idx / 2)) as [Hi2|Hi2].
    + rewrite Hpast by lia. rewrite <- Hi2, Nat.sub_diag. simpl.
      pose proof (even_half idx i (eq_sym Hi2)) as Hidx.
      destruct (Nat.even idx); simpl.
      * replace (idx - (i + i))%nat with 0%nat in Hx by lia. simpl in Hx. congruence.
      * replace (idx - (i + i))%nat with 1%nat in Hx by lia. simpl in Hx. congruence.
    + assert (i < idx / 2)%nat.
      { assert (i <= idx / 2)%nat; [|lia]. apply Nat.div_le_lower_bound; lia. }
      assert (2 * (idx / 2) <= idx)%nat by (apply Nat.Div0.mul_div_le).
      replace (idx / 2 - i)%nat with (S (idx / 2 - S i)) by lia. simpl. apply IH; [lia|].
      replace (idx - (i + i))%nat with (S (S (idx - (S i + S i)))) in Hx by lia. done.
Qed.

Lemma prove_loop_app fuel level idx sibs :
  prove_loop fuel level idx sibs = sibs ++ prove_loop fuel level idx [].
Proof.
  revert level idx sibs. induction fuel as [|fuel IH]; intros level idx sibs; cbn [prove_loop].
  { by rewrite app_nil_r. }
  destruct (1 <? length level)%nat; [|by rewrite app_nil_r].
  destruct (prove_level level 0 idx) as [next new].
  rewrite (IH _ _ (sibs ++ new)), (IH _ _ ([] ++ new)). by rewrite <- app_assoc.
Qed.

(** With fuel for every level the loop reaches the root. *)
Lemma prove_loop_root fuel level idx x :
  (length level <= fuel)%nat -> level !! idx = Some x ->
  merkle_loop fuel level = [foldl fold_sibling x (prove_loop fuel level idx [])].
Proof.
  revert level idx x. induction fuel as [|fuel IH]; intros level idx x Hf Hx.
  { destruct level; [done | simpl in Hf; lia]. }
  pose proof (lookup_lt_Some _ _ _ Hx) as Hlt.
  cbn [merkle_loop prove_loop]. destruct (Nat.ltb_spec 1 (length level)) as [Hl|Hl].
  - pose proof (prove_level_next level 0 idx) as Hn.
    pose proof (prove_level_parent level 0 idx x) as Hp.
    destruct (prove_level level 0 idx) as [next new]. cbn [fst snd Nat.add] in *. subst next.
    rewrite app_nil_l, prove_loop_app, foldl_app. apply IH.
    + rewrite length_next_level, Nat.div2_div. apply Nat.lt_succ_r, Nat.Div0.div_lt_upper_bound. lia.
    + rewrite !Nat.sub_0_r in Hp. apply Hp; [lia|done].
  - destruct level as [|y [|? ?]]; simpl in *; [done| |lia].
    destruct idx; [|lia]. simpl in *. congruence.
Qed.

(** C29. Merkle proofs are complete: for every leaf of every non-empty list of
    hashes, of any length (odd levels included), the proof [prove] builds
    verifies against the root [compute] returns, and it is a proof of that
    leaf. *)
Theorem prove_verifies hashes index h :
  hashes !! index = Some h ->
  leaf (prove hashes index) = h /\ verify (prove hashes index) (compute hashes) = true.
Proof.
  intros Hh. unfold prove. rewrite Hh. split; [done|].
  unfold verify. apply bool_decide_eq_true_2. simpl.
  pose proof (prove_loop_root (length hashes) hashes index h (le_n _) Hh) as E.
  destruct hashes as [|a [|b l]]; [done| |].
  - simpl in *. destruct index; simpl in *; [|done]. congruence.
  - cbn [compute]. by rewrite E.
Qed.

End Merkle.

(** ** The state root of a database *)

Section StateRoot.
Context `{Sha : Sha256} `{Ser : Serde Account account_ok}.

(** [AccountsDB::compute_state_root]: [keys] is the order in which the sharded
    index iterates. *)
Definition compute_state_root (db : AccountsDB) (keys : list bytes) : bytes :=
  compute (sort_by bytes_le (omap (fun k => account_hash <$> load db k) keys)).

(** The root of a map of accounts, independent of any iteration order. *)
Definition root_of (m : gmap bytes Account) : bytes :=
  compute (sort_by bytes_le ((fun '(_, a) => account_hash a) <$> map_to_list m)).

Lemma sort_hashes_perm l1 l2 : l1 ≡ₚ l2 -> sort_by bytes_le l1 = sort_by bytes_le l2.
Proof.
  apply sort_by_perm_eq.
  - apply bytes_le_total.
  - apply bytes_le_trans.
  - apply bytes_le_antisym.
Qed.

Lemma omap_keys {V W} (f : V -> W) (m : gmap bytes V) (l : list (bytes * V)) :
  (forall k v, (k, v) ∈ l -> m !! k = Some v) ->
  omap (fun k => f <$> m !! k) (l.*1) = (fun '(_, v) => f v) <$> l.
Proof.
  induction l as [|[k v] l IH]; intros Hl; simpl; [done|].
  rewrite (Hl k v) by (by left). simpl. f_equal. apply IH. intros. apply Hl. by right.
Qed.

(** The root read off the index is the root of the account map. *)
Lemma state_root_view db keys :
  wf db -> iteration_of db keys -> compute_state_root db keys = root_of (view db).
Proof.
  intros Hwf Hkeys. unfold compute_state_root, root_of. f_equal. apply sort_hashes_perm.
  transitivity (omap (fun k => account_hash <$> view db !! k) (map_to_list (view db)).*1).
  - assert (Hp : keys ≡ₚ (map_to_list (view db)).*1).
    { apply NoDup_Permutation.
      - rewrite Hkeys. apply NoDup_fst_map_to_list.
      - apply NoDup_fst_map_to_list.
      - intros k. rewrite Hkeys, !list_elem_of_fmap. split.
        + intros ([k' loc] & -> & Hin). apply elem_of_map_to_list in Hin. simpl.
          destruct (proj2 (view_lookup_wf db k' Hwf)) as [a Ha]; [by eauto|].
          exists (k', a). by rewrite elem_of_map_to_list.
        + intros ([k' a] & -> & Hin). apply elem_of_map_to_list in Hin. simpl.
          destruct (proj1 (view_lookup_wf db k' Hwf)) as [loc Hloc]; [by eauto|].
          exists (k', loc). by rewrite elem_of_map_to_list. }
    rewrite <- Hp. clear Hp Hkeys. induction keys as [|k keys IH]; [done|].
    simpl. rewrite load_view by done. destruct (view db !! k); simpl; [by rewrite IH | done].
  - rewrite omap_keys; [done|]. intros k a. apply elem_of_map_to_list.
Qed.

(** The state root is a function of the stored accounts alone: whatever
    order the concurrent index iterates in, and however the buffer, the
    versions and the log came about, the root is that of the account map. *)
Theorem state_root_deterministic db keys :
  wf db -> iteration_of db keys -> compute_state_root db keys = root_of (view db).
Proof. apply state_root_view. Qed.

(** What the root does not commit to: keys.  Two account maps holding the
    same accounts under different public keys (two balances exchanged, say)
    have the same state root. *)
Theorem state_root_ignores_keys (m1 m2 : gmap bytes Account) :
  (map_to_list m1).*2 ≡ₚ (map_to_list m2).*2 -> root_of m1 = root_of m2.
Proof.
  intros Hp. unfold root_of. f_equal. apply sort_hashes_perm.
  assert (E : forall m : gmap bytes Account,
    (fun '(_, a) => account_hash a) <$> map_to_list m = account_hash <$> (map_to_list m).*2).
  { intros m. rewrite <- list_fmap_compose. apply list_fmap_ext. by intros ? []. }
  rewrite !E. by rewrite Hp.
Qed.
End StateRoot.
