(* ===== verification/Instruction.v ===== *)
(** * Instructions ([crates/program-executor/src/instruction.rs], [lib.rs])

    Errors, account metas, and the byte encodings of the system and token
    instructions, with their round trips. *)

From S2P Require Import Prelude Crypto Account.
Open Scope Z_scope.

Definition DEFAULT_COMPUTE_UNITS : Z := 150000.
Definition MAX_COMPUTE_UNITS : Z := 200000.

(** [enum InstructionError] *)
Module InstructionError.
Inductive t :=
  | InsufficientComputeUnits
  | InvalidInstructionData (msg : string)
  | AccountNotFound
  | AccountNotWritable
  | InsufficientFunds (needed available : Z)
  | ProgramError (msg : string)
  | InvalidAccountOwner
  | IncorrectAuthority
  | MintMismatch
  | DataSizeTooLarge (requested max : Z)
  | ArithmeticOverflow
  | Custom (code : Z) (msg : string).

(** [impl Display for InstructionError] *)
Definition display (e : t) : string :=
  match e with
  | InsufficientComputeUnits => "Insufficient compute units"
  | InvalidInstructionData msg => "Invalid instruction data: " +:+ msg
  | AccountNotFound => "Account not found"
  | AccountNotWritable => "Account not writable"
  | InsufficientFunds needed available =>
      "Insufficient funds: need " +:+ dec needed +:+ ", have " +:+ dec available
  | ProgramError msg => "Program error: " +:+ msg
  | InvalidAccountOwner => "Invalid account owner"
  | IncorrectAuthority => "Incorrect authority: signer may not perform this action"
  | MintMismatch => "Mint mismatch"
  | DataSizeTooLarge requested max =>
      "Data size " +:+ dec requested +:+ " exceeds maximum " +:+ dec max
  | ArithmeticOverflow => "Arithmetic overflow"
  | Custom code msg => "Custom error " +:+ dec code +:+ ": " +:+ msg
  end.
End InstructionError.
Import InstructionError.

(** [struct AccountMeta] of the program executor (a [usize] index) *)
Record AccountMeta := mkMeta {
  meta_index : nat;
  is_signer : bool;
  is_writable : bool
}.

(** [AccountMeta::readonly], [AccountMeta::writable], [AccountMeta::signer_writable] *)
Definition meta_readonly (index : nat) : AccountMeta := mkMeta index false false.
Definition meta_writable (index : nat) : AccountMeta := mkMeta index false true.
Definition meta_signer_writable (index : nat) : AccountMeta := mkMeta index true true.

(** [struct Instruction] of the program executor *)
Record Instruction := mkIx {
  program_id : bytes;
  account_metas : list AccountMeta;
  ix_data : bytes
}.

(** [resolve_account_key] *)
Definition resolve_account_key (index : nat) (account_keys : list bytes)
    : result bytes InstructionError.t :=
  ok_or (account_keys !! index) AccountNotFound.

(** [require_signer] *)
Definition require_signer (meta : AccountMeta) (signer : bytes) (account_keys : list bytes)
    : result bytes InstructionError.t :=
  match resolve_account_key (meta_index meta) account_keys with
  | Err e => Err e
  | Ok key => if bool_decide (key <> signer) then Err IncorrectAuthority else Ok key
  end.

Lemma resolve_Ok i keys k : resolve_account_key i keys = Ok k <-> keys !! i = Some k.
Proof. unfold resolve_account_key, ok_or. destruct (keys !! i); naive_solver. Qed.

(** Only the meta that resolves to the verified signer passes, whatever its
    [is_signer] flag claims. *)
Lemma require_signer_Ok meta signer keys k :
  require_signer meta signer keys = Ok k <->
  k = signer /\ keys !! meta_index meta = Some signer.
Proof.
  unfold require_signer. destruct (resolve_account_key _ _) as [key|e] eqn:E.
  - apply resolve_Ok in E. case_bool_decide; naive_solver.
  - split; [done|]. intros [-> H]. apply resolve_Ok in H. congruence.
Qed.

(** [struct InstructionResult] *)
Record InstructionResult := mkResult {
  res_success : bool;
  res_compute_units : Z;
  res_return_data : option bytes;
  res_error : option InstructionError.t;
  res_logs : list string
}.

(** [InstructionResult::with_logs] *)
Definition with_logs (success : bool) (units : Z) (error : option InstructionError.t)
    (logs : list string) : InstructionResult :=
  mkResult success units None error logs.

(** [InstructionResult::success], [failure], [with_log]/[add_log], [with_return_data] *)
Definition instruction_success (compute_units : Z) : InstructionResult :=
  mkResult true compute_units None None [].
Definition instruction_failure (error : InstructionError.t) (compute_units : Z) : InstructionResult :=
  mkResult false compute_units None (Some error) [].
Definition add_log (r : InstructionResult) (msg : string) : InstructionResult :=
  mkResult (res_success r) (res_compute_units r) (res_return_data r) (res_error r)
           (res_logs r ++ [msg]).
Definition with_return_data (r : InstructionResult) (d : bytes) : InstructionResult :=
  mkResult (res_success r) (res_compute_units r) (Some d) (res_error r) (res_logs r).

(** ** System instructions *)

Module SystemInstruction.
Inductive t :=
  | Transfer (lamports : Z)
  | CreateAccount (lamports space : Z) (owner : bytes)
  | Assign (owner : bytes)
  | NonceInitialize.

(** [SystemInstruction::from_data] *)
Definition from_data (data : bytes) : result t InstructionError.t :=
  match data with
  | [] => Err (InvalidInstructionData "Empty instruction data")
  | tag :: _ =>
    if tag =? 2 then
      if (length data <? 9)%nat then Err (InvalidInstructionData "Transfer requires 8 bytes")
      else Ok (Transfer (from_le (slice data 1 9)))
    else if tag =? 0 then
      if (length data <? 49)%nat then
        Err (InvalidInstructionData "CreateAccount requires 49 bytes")
      else Ok (CreateAccount (from_le (slice data 1 9)) (from_le (slice data 9 17))
                             (slice data 17 49))
    else if tag =? 1 then
      if (length data <? 33)%nat then Err (InvalidInstructionData "Assign requires 32 bytes")
      else Ok (Assign (slice data 1 33))
    else if tag =? 7 then Ok NonceInitialize
    else Err (InvalidInstructionData ("Unknown system instruction: " +:+ dec tag))
  end.

(** [SystemInstruction::to_data] *)
Definition to_data (i : t) : bytes :=
  match i with
  | Transfer lamports => [2] ++ le_bytes 8 lamports
  | CreateAccount lamports space owner =>
      [0] ++ le_bytes 8 lamports ++ le_bytes 8 space ++ owner
  | Assign owner => [1] ++ owner
  | NonceInitialize => [7]
  end.

(** The values of the Rust type. *)
Definition ok (i : t) : Prop :=
  match i with
  | Transfer l => is_u64 l
  | CreateAccount l s o => is_u64 l /\ is_u64 s /\ arr32 o
  | Assign o => arr32 o
  | NonceInitialize => True
  end.
End SystemInstruction.

(** ** Token instructions *)

Module TokenInstruction.
Inductive t :=
  | InitializeMint
  | InitializeAccount (mint : bytes)
  | Transfer (amount : Z)
  | MintTo (amount : Z)
  | Burn (amount : Z).

(** [TokenInstruction::from_data] *)
Definition from_data (data : bytes) : result t InstructionError.t :=
  match data with
  | [] => Err (InvalidInstructionData "Empty token instruction")
  | tag :: _ =>
    if tag =? 0 then
      if (length data <? 33)%nat then
        Err (InvalidInstructionData "InitializeAccount requires 32-byte mint")
      else Ok (InitializeAccount (slice data 1 33))
    else if tag =? 1 then Ok InitializeMint
    else if tag =? 3 then
      if (length data <? 9)%nat then Err (InvalidInstructionData "Transfer requires 8 bytes")
      else Ok (Transfer (from_le (slice data 1 9)))
    else if tag =? 7 then
      if (length data <? 9)%nat then Err (InvalidInstructionData "MintTo requires 8 bytes")
      else Ok (MintTo (from_le (slice data 1 9)))
    else if tag =? 8 then
      if (length data <? 9)%nat then Err (InvalidInstructionData "Burn requires 8 bytes")
      else Ok (Burn (from_le (slice data 1 9)))
    else Err (InvalidInstructionData ("Unknown token instruction: " +:+ dec tag))
  end.

(** [TokenInstruction::to_data] *)
Definition to_data (i : t) : bytes :=
  match i with
  | InitializeMint => [1]
  | InitializeAccount mint => [0] ++ mint
  | Transfer amount => [3] ++ le_bytes 8 amount
  | MintTo amount => [7] ++ le_bytes 8 amount
  | Burn amount => [8] ++ le_bytes 8 amount
  end.

Definition ok (i : t) : Prop :=
  match i with
  | InitializeMint => True
  | InitializeAccount m => arr32 m
  | Transfer n | MintTo n | Burn n => is_u64 n
  end.
End TokenInstruction.

(** ** Field lemmas shared by both codecs *)

(** Reading a fixed field that follows [pre]. *)
Lemma slice_field (pre f rest : bytes) a b :
  length pre = a -> (a + length f = b)%nat -> slice (pre ++ f ++ rest) a b = f.
Proof.
  intros <- <-. unfold slice. rewrite drop_app_length.
  replace (_ - _)%nat with (length f) by lia. apply take_app_length.
Qed.

Lemma slice_field1 (x : Z) (f rest : bytes) b :
  (1 + length f = b)%nat -> slice (x :: f ++ rest) 1 b = f.
Proof. intros H. by apply (slice_field [x]). Qed.

Lemma slice_u64 (d : bytes) a b :
  bytes_ok d -> (a + 8 = b)%nat -> (b <= length d)%nat ->
  is_u64 (from_le (slice d a b)) /\ le_bytes 8 (from_le (slice d a b)) = slice d a b.
Proof.
  intros Hd <- Hl. assert (Hs : bytes_ok (slice d a (a + 8))).
  { unfold slice. by apply Forall_take, Forall_drop. }
  assert (Hlen : length (slice d a (a + 8)) = 8%nat).
  { unfold slice. rewrite length_take, length_drop. lia. }
  pose proof (from_le_bound _ Hs) as Hb. pose proof (le_bytes_from_le _ Hs) as Hr.
  rewrite Hlen in Hb, Hr. done.
Qed.

Lemma slice_arr32 (d : bytes) a b :
  bytes_ok d -> (a + 32 = b)%nat -> (b <= length d)%nat -> arr32 (slice d a b).
Proof.
  intros Hd <- Hl. split.
  - unfold slice. rewrite length_take, length_drop. lia.
  - unfold slice. by apply Forall_take, Forall_drop.
Qed.

(** Consecutive slices join. *)
Lemma slice_app {A} (l : list A) a b c :
  (a <= b <= c)%nat -> slice l a b ++ slice l b c = slice l a c.
Proof.
  intros H. unfold slice. rewrite <- (take_drop (b - a) (take (c - a) (drop a l))).
  rewrite take_take, skipn_firstn_comm, drop_drop.
  f_equal; [f_equal; lia|]. f_equal; [lia | f_equal; lia].
Qed.

Lemma head_slice_prefix (x : Z) (l : bytes) b :
  (1 <= b)%nat -> [x] ++ slice (x :: l) 1 b `prefix_of` x :: l.
Proof.
  intros H. unfold slice. simpl. rewrite drop_0. apply prefix_cons.
  exists (drop (b - 1) l). by rewrite take_drop.
Qed.

Ltac codec_parse :=
  match goal with
  | |- context [if ?x =? ?y then _ else _] =>
      destruct (Z.eqb_spec x y) as [->|?]; [|try codec_parse]
  end.

(** Decoding an encoding followed by anything. *)
Ltac codec_print :=
  match goal with
  | |- context [(?n <? ?k)%nat] => destruct (Nat.ltb_spec n k); [cbn [length] in *; autorewrite with trust_len in *; lia|]
  end.

Lemma system_from_to i rest :
  SystemInstruction.ok i -> SystemInstruction.from_data (SystemInstruction.to_data i ++ rest) = Ok i.
Proof.
  destruct i as [l|l s o|o|]; cbn [SystemInstruction.ok SystemInstruction.to_data].
  - intros Hl. rewrite <- app_assoc. unfold SystemInstruction.from_data. cbn [app Z.eqb Pos.eqb].
    codec_print. do 2 f_equal.
    rewrite slice_field1 by (by rewrite length_le_bytes).
    by apply from_le_bytes_64.
  - intros (Hl & Hs & [Ho _]). rewrite <- !app_assoc.
    unfold SystemInstruction.from_data. cbn [app Z.eqb Pos.eqb]. codec_print.
    rewrite slice_field1 by (by rewrite length_le_bytes).
    pose proof (slice_field ([0] ++ le_bytes 8 l) (le_bytes 8 s) (o ++ rest) 9 17) as E1.
    rewrite <- !app_assoc in E1. cbn [app] in E1.
    rewrite E1 by (autorewrite with trust_len; done).
    pose proof (slice_field ([0] ++ le_bytes 8 l ++ le_bytes 8 s) o rest 17 49) as E2.
    rewrite <- !app_assoc in E2. cbn [app] in E2.
    rewrite E2 by (autorewrite with trust_len; simpl; lia).
    by rewrite !from_le_bytes_64.
  - intros [Ho _]. rewrite <- app_assoc. unfold SystemInstruction.from_data. cbn [app Z.eqb Pos.eqb].
    codec_print. do 2 f_equal. apply slice_field1. lia.
  - done.
Qed.

Lemma system_from_inv d i :
  bytes_ok d -> SystemInstruction.from_data d = Ok i ->
  SystemInstruction.ok i /\ SystemInstruction.to_data i `prefix_of` d.
Proof.
  intros Hd. destruct d as [|tag l]; [done|]. unfold SystemInstruction.from_data.
  codec_parse; repeat (case_match eqn:E; [done|apply Nat.ltb_ge in E]); try done;
    intros [= <-]; cbn [SystemInstruction.ok SystemInstruction.to_data].
  - destruct (slice_u64 (2 :: l) 1 9 Hd) as [H1 ->]; [lia..|].
    split; [done | by apply head_slice_prefix; lia].
  - destruct (slice_u64 (0 :: l) 1 9 Hd) as [H1 ->]; [lia..|].
    destruct (slice_u64 (0 :: l) 9 17 Hd) as [H2 ->]; [lia..|].
    pose proof (slice_arr32 (0 :: l) 17 49 Hd). rewrite !slice_app by lia.
    split; [naive_solver lia | by apply head_slice_prefix; lia].
  - pose proof (slice_arr32 (1 :: l) 1 33 Hd).
    split; [naive_solver lia | by apply head_slice_prefix; lia].
  - split; [done | apply prefix_cons, prefix_nil].
Qed.

(** System instruction data decodes to an instruction exactly when it
    starts with that instruction's encoding: every well-typed instruction
    survives the round trip, trailing bytes are ignored, and nothing else
    decodes. *)
Theorem system_instruction_codec d i :
  bytes_ok d ->
  SystemInstruction.from_data d = Ok i <->
  SystemInstruction.ok i /\ SystemInstruction.to_data i `prefix_of` d.
Proof.
  intros Hd. split; [by apply system_from_inv|].
  intros [Hi [rest ->]]. by apply system_from_to.
Qed.

Lemma token_from_to i rest :
  TokenInstruction.ok i -> TokenInstruction.from_data (TokenInstruction.to_data i ++ rest) = Ok i.
Proof.
  destruct i as [|m|n|n|n]; cbn [TokenInstruction.ok TokenInstruction.to_data]; intros Hi;
    rewrite <- ?app_assoc; unfold TokenInstruction.from_data; cbn [app Z.eqb Pos.eqb]; [done|..].
  { destruct Hi as [Hm _]. codec_print. rewrite slice_field1 by lia. done. }
  all: codec_print; rewrite slice_field1 by (by rewrite length_le_bytes);
    by rewrite from_le_bytes_64.
Qed.

Lemma token_from_inv d i :
  bytes_ok d -> TokenInstruction.from_data d = Ok i ->
  TokenInstruction.ok i /\ TokenInstruction.to_data i `prefix_of` d.
Proof.
  intros Hd. destruct d as [|tag l]; [done|]. unfold TokenInstruction.from_data.
  codec_parse; repeat (case_match eqn:E; [done|apply Nat.ltb_ge in E]); try done;
    intros [= <-]; cbn [TokenInstruction.ok TokenInstruction.to_data].
  1: pose proof (slice_arr32 (0 :: l) 1 33 Hd);
     split; [naive_solver lia | by apply head_slice_prefix; lia].
  1: split; [done | apply prefix_cons, prefix_nil].
  all: destruct (slice_u64 _ 1 9 Hd) as [H1 ->]; [lia..|];
    split; [done | by apply head_slice_prefix; lia].
Qed.

(** The same for token instructions. *)
Theorem token_instruction_codec d i :
  bytes_ok d ->
  TokenInstruction.from_data d = Ok i <->
  TokenInstruction.ok i /\ TokenInstruction.to_data i `prefix_of` d.
Proof.
  intros Hd. split; [by apply token_from_inv|].
  intros [Hi [rest ->]]. by apply token_from_to.
Qed.
