(* ===== verification/Vm.v ===== *)
(** * The instruction VM's state ([crates/program-executor/src/processor.rs])

    A program handler works on the accounts database, the compute budget and
    the log lines through [&mut] references; [VmState] bundles the three, and a
    handler is a [Prog] over it. *)

From S2P Require Import Prelude Crypto Account Store Instruction.
Import InstructionError.
Open Scope Z_scope.

(** [struct ComputeBudget] *)
Record ComputeBudget := mkBudget { budget_max : Z; budget_consumed : Z }.

(** [ComputeBudget::new] *)
Definition budget_new (max : Z) : ComputeBudget := mkBudget max 0.

(** [ComputeBudget::remaining] *)
Definition budget_remaining (b : ComputeBudget) : Z :=
  saturating_sub (budget_max b) (budget_consumed b).

Record VmState (DB : Type) := mkVm {
  vm_db : DB;
  vm_budget : ComputeBudget;
  vm_logs : list string
}.
Arguments mkVm {DB}.
Arguments vm_db {DB}.
Arguments vm_budget {DB}.
Arguments vm_logs {DB}.

Section Vm.
Context {DB : Type} `{Store : AccountsStore DB}.

Definition VM (A : Type) : Type := Prog (VmState DB) InstructionError.t A.

(** [ComputeBudget::consume] *)
Definition consume (units : Z) : VM unit := fun s =>
  let consumed := wrap64 (budget_consumed (vm_budget s) + units) in
  let s' := mkVm (vm_db s) (mkBudget (budget_max (vm_budget s)) consumed) (vm_logs s) in
  (s', if budget_max (vm_budget s) <? consumed then Err InsufficientComputeUnits else Ok tt).

(** [accounts.load(k)], [accounts.exists(k)], [accounts.store(k, a)], [logs.push(..)] *)
Definition vm_load (k : bytes) : VM (option Account) := pget (fun s => db_load (vm_db s) k).
Definition vm_exists (k : bytes) : VM bool := pget (fun s => db_exists (vm_db s) k).
Definition vm_store (k : bytes) (a : Account) : VM unit :=
  pmod (fun s => mkVm (db_store (vm_db s) k a) (vm_budget s) (vm_logs s)).
Definition vm_log (msg : string) : VM unit :=
  pmod (fun s => mkVm (vm_db s) (vm_budget s) (vm_logs s ++ [msg])).

(** [.ok_or(e)?] on a loaded account *)
Definition vm_load_or (k : bytes) (e : InstructionError.t) : VM Account :=
  o <-- vm_load k ;; plift (ok_or o e).

(** First eight bytes of a key in hex, as the log lines show it. *)
Definition hex8 (k : bytes) : string := hex_encode (take 8 k).
End Vm.

(** Running the monad: unfold one step and split the outcomes, failed branches
    closing by [done] where the claim is about success. *)
Ltac prog_unfold H :=
  unfold pbind, plift, pget, pmod, pret, pfail, vm_load_or, vm_load, vm_exists, vm_store, vm_log,
    consume in H.
Ltac prog_inv H :=
  prog_unfold H;
  repeat (case_match_hyp H; simplify_eq/=).

(** Turn the facts a successful run leaves behind into facts about the view. *)
Ltac prog_clean :=
  repeat match goal with
  | H : context [pmod _ _ = _] |- _ => unfold pmod in H; simplify_eq/=
  | H : pmod _ _ = _ |- _ => unfold pmod in H; simplify_eq/=
  | H : plift _ _ = _ |- _ => unfold plift in H; simplify_eq/=
  | H : require_signer _ _ _ = Ok _ |- _ => apply require_signer_Ok in H as [-> H]
  | H : resolve_account_key _ _ = Ok _ |- _ => apply resolve_Ok in H
  | H : ok_or ?o _ = Ok _ |- _ => destruct o eqn:?; simplify_eq/=
  | H : checked_add _ _ = Some _ |- _ => apply checked_add_Some in H as [-> H]
  | H : (_ <? _) = true |- _ => apply Z.ltb_lt in H
  | H : (_ <? _) = false |- _ => apply Z.ltb_ge in H
  | H : bool_decide _ = false |- _ => apply bool_decide_eq_false in H
  | H : bool_decide _ = true |- _ => apply bool_decide_eq_true in H
  | H : ¬ (_ ≠ _) |- _ => apply dec_stable in H
  | H : db_load _ _ = _ |- _ => rewrite db_load_view in H by done
  | H : db_exists _ _ = _ |- _ => rewrite db_exists_view in H by done
  | H : ¬ is_Some _ |- _ => apply eq_None_not_Some in H
  end.

(** A handler that can pay its cost continues. *)
Definition budget_covers (b : ComputeBudget) (cost : Z) : Prop :=
  0 <= budget_consumed b /\ 0 <= cost /\ budget_consumed b + cost <= budget_max b /\
  is_u64 (budget_max b).

Lemma consume_ok {DB} (s : VmState DB) cost :
  budget_covers (vm_budget s) cost ->
  consume cost s =
    (mkVm (vm_db s) (mkBudget (budget_max (vm_budget s)) (budget_consumed (vm_budget s) + cost))
          (vm_logs s), Ok tt).
Proof.
  intros (? & ? & ? & [? ?]). unfold consume. rewrite wrap64_id by (u64_unfold; lia).
  by destruct (Z.ltb_spec (budget_max (vm_budget s)) (budget_consumed (vm_budget s) + cost)); [lia|].
Qed.

(** The state after a cost has been paid. *)
Definition charged {DB} (s : VmState DB) (cost : Z) : VmState DB :=
  mkVm (vm_db s) (mkBudget (budget_max (vm_budget s)) (budget_consumed (vm_budget s) + cost))
       (vm_logs s).

(** Forward execution: each step of a handler whose check passes. *)
Section Run.
Context {DB : Type} `{Laws : AccountsStoreLaws DB} {A : Type}.
Implicit Types (s : VmState DB).

Lemma run_consume s cost (f : unit -> VM A) :
  budget_covers (vm_budget s) cost -> pbind (consume cost) f s = f tt (charged s cost).
Proof. intros Hx. unfold pbind. by rewrite consume_ok. Qed.

Lemma run_require s meta signer keys (f : bytes -> VM A) :
  keys !! meta_index meta = Some signer ->
  pbind (plift (require_signer meta signer keys)) f s = f signer s.
Proof. intros Hx. unfold pbind, plift. by rewrite (proj2 (require_signer_Ok _ _ _ signer)). Qed.

Lemma run_resolve s i keys k (f : bytes -> VM A) :
  keys !! i = Some k -> pbind (plift (resolve_account_key i keys)) f s = f k s.
Proof. intros Hx. unfold pbind, plift. by rewrite (proj2 (resolve_Ok _ _ k)). Qed.

Lemma run_load_or s k a e (f : Account -> VM A) :
  db_wf (vm_db s) -> db_view (vm_db s) !! k = Some a -> pbind (vm_load_or k e) f s = f a s.
Proof.
  intros Hwf Hk. unfold pbind, vm_load_or, vm_load, pbind, pget, plift.
  by rewrite db_load_view, Hk by done.
Qed.

Lemma run_load s k (f : option Account -> VM A) :
  db_wf (vm_db s) -> pbind (vm_load k) f s = f (db_view (vm_db s) !! k) s.
Proof. intros Hwf. unfold pbind, vm_load, pget. by rewrite db_load_view by done. Qed.

Lemma run_absent s k (f : bool -> VM A) :
  db_wf (vm_db s) -> db_view (vm_db s) !! k = None -> pbind (vm_exists k) f s = f false s.
Proof.
  intros Hwf Hk. unfold pbind, vm_exists, pget. rewrite db_exists_view, Hk by done.
  by rewrite bool_decide_eq_false_2 by (by intros []).
Qed.

Lemma run_add s a b e (f : Z -> VM A) :
  a + b <= U64_MAX -> pbind (plift (ok_or (checked_add a b) e)) f s = f (a + b) s.
Proof. intros Hx. unfold pbind, plift. by rewrite (proj2 (checked_add_Some _ _ (a + b))). Qed.

Lemma run_sub s a b e (f : Z -> VM A) :
  b <= a -> pbind (plift (ok_or (checked_sub a b) e)) f s = f (a - b) s.
Proof. intros Hx. unfold pbind, plift, checked_sub. by rewrite (proj2 (Z.leb_le b a)). Qed.

Lemma run_guard s (b : bool) e (m : VM A) : b = false -> (if b then pfail e else m) s = m s.
Proof. by intros ->. Qed.
End Run.

(** Execute the checks of a handler from the hypotheses. *)
Ltac run_step :=
  first
  [ rewrite run_consume by assumption
  | rewrite run_require by assumption
  | erewrite run_resolve by eassumption
  | erewrite run_load_or by eassumption
  | rewrite run_absent by assumption
  | rewrite run_load by assumption
  | rewrite run_add by (assumption || lia)
  | rewrite run_sub by assumption
  | rewrite run_guard by (apply Z.ltb_ge; (assumption || lia)) ].
