(* ===== verification/SystemProgram.v ===== *)
(** * The system program ([crates/program-executor/src/programs/system_program.rs]) *)

From S2P Require Import Prelude Crypto Account Store Instruction Vm.
Import InstructionError.
Open Scope Z_scope.
Open Scope trust_scope.

Definition MAX_PERMITTED_DATA_LENGTH : Z := 10 * 1024 * 1024.

Section System.
Context {DB : Type} `{Store : AccountsStore DB}.

(** [process_transfer] *)
Definition process_transfer (amount : Z) (metas : list AccountMeta) (signer : bytes)
    (account_keys : list bytes) : VM unit :=
  consume 150 ;;;
  match metas with
  | from_meta :: to_meta :: _ =>
      from_pubkey <-- plift (require_signer from_meta signer account_keys) ;;
      from_account <-- vm_load_or from_pubkey AccountNotFound ;;
      fail_if (lamports from_account <? amount)
        with (InsufficientFunds amount (lamports from_account)) ;;;
      to_pubkey <-- plift (resolve_account_key (meta_index to_meta) account_keys) ;;
      to_loaded <-- vm_load to_pubkey ;;
      let to_account := default (new_system_account to_pubkey 0) to_loaded in
      to_lamports <-- plift (ok_or (checked_add (lamports to_account) amount) ArithmeticOverflow) ;;
      vm_store from_pubkey (set_lamports from_account (lamports from_account - amount)) ;;;
      vm_store to_pubkey (set_lamports to_account to_lamports) ;;;
      vm_log ("Transfer: " +:+ dec amount +:+ " lamports from " +:+ hex8 from_pubkey +:+
              " to " +:+ hex8 to_pubkey)
  | _ => pfail (InvalidInstructionData "Transfer requires 2 accounts")
  end.

(** [process_create_account] *)
Definition process_create_account (amount space : Z) (owner : bytes) (metas : list AccountMeta)
    (signer : bytes) (account_keys : list bytes) : VM unit :=
  consume 200 ;;;
  match metas with
  | payer_meta :: new_account_meta :: _ =>
      payer_pubkey <-- plift (require_signer payer_meta signer account_keys) ;;
      new_account_pubkey <-- plift (resolve_account_key (meta_index new_account_meta) account_keys) ;;
      fail_if (MAX_PERMITTED_DATA_LENGTH <? space)
        with (DataSizeTooLarge space MAX_PERMITTED_DATA_LENGTH) ;;;
      present <-- vm_exists new_account_pubkey ;;
      fail_if present with (ProgramError "Account already exists") ;;;
      payer <-- vm_load_or payer_pubkey AccountNotFound ;;
      new_lamports <-- plift (ok_or (checked_add amount MINIMUM_RENT_EXEMPT_BALANCE)
                                     ArithmeticOverflow) ;;
      fail_if (lamports payer <? new_lamports)
        with (InsufficientFunds new_lamports (lamports payer)) ;;;
      vm_store payer_pubkey (set_lamports payer (lamports payer - new_lamports)) ;;;
      vm_store new_account_pubkey
        (mkAccount new_lamports owner false 0 (Data (replicate (Z.to_nat space) 0))) ;;;
      vm_log ("CreateAccount: " +:+ hex8 new_account_pubkey +:+ " (" +:+ dec amount +:+
              " lamports, " +:+ dec space +:+ " bytes) owned by " +:+ hex8 owner)
  | _ => pfail (InvalidInstructionData "CreateAccount requires 2 accounts")
  end.

(** [process_assign] *)
Definition process_assign (new_owner : bytes) (metas : list AccountMeta) (signer : bytes)
    (account_keys : list bytes) : VM unit :=
  consume 100 ;;;
  match metas with
  | meta :: _ =>
      account_pubkey <-- plift (require_signer meta signer account_keys) ;;
      account <-- vm_load_or account_pubkey AccountNotFound ;;
      fail_if (bool_decide (owner account <> fill32 1)) with InvalidAccountOwner ;;;
      vm_store account_pubkey (set_owner account new_owner) ;;;
      vm_log ("Assign: " +:+ hex8 account_pubkey +:+ " to " +:+ hex8 new_owner)
  | [] => pfail (InvalidInstructionData "Assign requires 1 account")
  end.

(** [system_program::process_instruction] *)
Definition system_process_instruction (data : bytes) (metas : list AccountMeta) (signer : bytes)
    (account_keys : list bytes) : VM unit :=
  instruction <-- plift (SystemInstruction.from_data data) ;;
  match instruction with
  | SystemInstruction.Transfer lamports => process_transfer lamports metas signer account_keys
  | SystemInstruction.CreateAccount lamports space owner =>
      process_create_account lamports space owner metas signer account_keys
  | SystemInstruction.Assign owner => process_assign owner metas signer account_keys
  | SystemInstruction.NonceInitialize =>
      vm_log "NonceInitialize: durable nonce accounts are not implemented" ;;;
      pfail (InvalidInstructionData "nonce accounts are not implemented")
  end.
End System.

(** ** Abstract ledger rules

    What a successful system instruction does to the map of accounts. *)

Definition account_or_new (m : gmap bytes Account) (k : bytes) : Account :=
  default (new_system_account k 0) (m !! k).

Definition created_account (n space : Z) (o : bytes) : Account :=
  mkAccount (n + MINIMUM_RENT_EXEMPT_BALANCE) o false 0 (Data (replicate (Z.to_nat space) 0)).

Inductive system_step (metas : list AccountMeta) (signer : bytes) (keys : list bytes)
    (m : gmap bytes Account) : SystemInstruction.t -> gmap bytes Account -> Prop :=
  | step_transfer n from_meta to_meta rest to from_account :
      metas = from_meta :: to_meta :: rest ->
      keys !! meta_index from_meta = Some signer ->
      keys !! meta_index to_meta = Some to ->
      m !! signer = Some from_account ->
      n <= lamports from_account ->
      lamports (account_or_new m to) + n <= U64_MAX ->
      system_step metas signer keys m (SystemInstruction.Transfer n)
        (<[to := set_lamports (account_or_new m to) (lamports (account_or_new m to) + n)]>
         (<[signer := set_lamports from_account (lamports from_account - n)]> m))
  | step_create n space o payer_meta new_meta rest new_key payer :
      metas = payer_meta :: new_meta :: rest ->
      keys !! meta_index payer_meta = Some signer ->
      keys !! meta_index new_meta = Some new_key ->
      space <= MAX_PERMITTED_DATA_LENGTH ->
      m !! new_key = None ->
      m !! signer = Some payer ->
      n + MINIMUM_RENT_EXEMPT_BALANCE <= lamports payer ->
      system_step metas signer keys m (SystemInstruction.CreateAccount n space o)
        (<[new_key := created_account n space o]>
         (<[signer := set_lamports payer (lamports payer - (n + MINIMUM_RENT_EXEMPT_BALANCE))]> m))
  | step_assign o meta rest account :
      metas = meta :: rest ->
      keys !! meta_index meta = Some signer ->
      m !! signer = Some account ->
      owner account = system_program_id ->
      system_step metas signer keys m (SystemInstruction.Assign o)
        (<[signer := set_owner account o]> m).

Lemma system_step_det metas signer keys m i m1 m2 :
  system_step metas signer keys m i m1 -> system_step metas signer keys m i m2 -> m1 = m2.
Proof. intros H1 H2. inversion H1; inversion H2; by simplify_eq. Qed.

Section SystemCorrect.
Context {DB : Type} `{Laws : AccountsStoreLaws DB}.
Implicit Types (s : VmState DB) (metas : list AccountMeta) (keys : list bytes).

(** A failing handler has not touched the accounts. *)
Lemma system_fail_unchanged data metas signer keys s s' e :
  system_process_instruction data metas signer keys s = (s', Err e) -> vm_db s' = vm_db s.
Proof.
  unfold system_process_instruction, process_transfer, process_create_account, process_assign.
  intros Hrun. by prog_inv Hrun.
Qed.

Definition system_cost (i : SystemInstruction.t) : Z :=
  match i with
  | SystemInstruction.Transfer _ => 150
  | SystemInstruction.CreateAccount _ _ _ => 200
  | SystemInstruction.Assign _ => 100
  | SystemInstruction.NonceInitialize => 0
  end.

Lemma created_account_ok n space o :
  is_u64 n -> is_u64 (n + MINIMUM_RENT_EXEMPT_BALANCE) -> arr32 o ->
  account_ok (created_account n space o).
Proof.
  intros Hn Hr Ho. unfold account_ok. simpl. split_and?; auto with trust.
  apply Forall_replicate. u64_unfold. lia.
Qed.

Lemma account_or_new_ok db k : db_wf db -> account_ok (account_or_new (db_view db) k).
Proof.
  intros Hwf. unfold account_or_new. destruct (db_view db !! k) eqn:E; simpl; eauto with trust.
Qed.

Lemma transfer_refines n metas signer keys s s' :
  db_wf (vm_db s) -> is_u64 n ->
  process_transfer n metas signer keys s = (s', Ok tt) ->
  db_wf (vm_db s') /\
  system_step metas signer keys (db_view (vm_db s)) (SystemInstruction.Transfer n) (db_view (vm_db s')).
Proof.
  intros Hwf Hn Hrun. unfold process_transfer in Hrun. prog_inv Hrun. prog_clean.
  rewrite db_load_view in * by done.
  match goal with
  | Hf : db_view _ !! signer = Some ?fa, Hto : keys !! _ = Some ?to |- _ =>
      pose proof (account_or_new_ok (vm_db s) to Hwf) as Hto_ok;
      pose proof (db_view_ok _ _ _ Hwf Hf) as Hf_ok
  end.
  unfold account_or_new in Hto_ok.
  assert (Hok1 : forall fa, account_ok fa -> n <= lamports fa ->
    account_ok (set_lamports fa (lamports fa - n))).
  { intros fa Hfa Hle. apply set_lamports_ok; [done|].
    apply is_u64_sub; [apply Hfa | u64_unfold; lia]. }
  assert (Hok2 : forall ta, account_ok ta -> lamports ta + n <= U64_MAX ->
    account_ok (set_lamports ta (lamports ta + n))).
  { intros ta Hta Hle. apply set_lamports_ok; [done|]. destruct Hta as (?&_). u64_unfold. lia. }
  rewrite !db_store_view by eauto with trust. split; [eauto with trust|].
  by eapply step_transfer.
Qed.

Lemma create_refines n space o metas signer keys s s' :
  db_wf (vm_db s) -> is_u64 n -> arr32 o ->
  process_create_account n space o metas signer keys s = (s', Ok tt) ->
  db_wf (vm_db s') /\
  system_step metas signer keys (db_view (vm_db s)) (SystemInstruction.CreateAccount n space o)
              (db_view (vm_db s')).
Proof.
  intros Hwf Hn Ho Hrun. unfold process_create_account in Hrun. prog_inv Hrun. prog_clean.
  match goal with
  | Hf : db_view _ !! signer = Some ?fa |- _ => pose proof (db_view_ok _ _ _ Hwf Hf) as Hf_ok
  end.
  match goal with
  | |- context [set_lamports ?fa ?x] =>
      assert (account_ok (set_lamports fa x));
      [apply set_lamports_ok; [done|]; apply is_u64_sub; [apply Hf_ok|];
       unfold MINIMUM_RENT_EXEMPT_BALANCE in *; u64_unfold; lia|]
  end.
  assert (account_ok (created_account n space o)).
  { apply created_account_ok; [done| |done].
    unfold MINIMUM_RENT_EXEMPT_BALANCE in *. u64_unfold. lia. }
  change (mkAccount (n + MINIMUM_RENT_EXEMPT_BALANCE) o false 0 _) with (created_account n space o).
  rewrite !db_store_view by eauto with trust. split; [eauto with trust|].
  by eapply step_create.
Qed.

Lemma assign_refines o metas signer keys s s' :
  db_wf (vm_db s) -> arr32 o ->
  process_assign o metas signer keys s = (s', Ok tt) ->
  db_wf (vm_db s') /\
  system_step metas signer keys (db_view (vm_db s)) (SystemInstruction.Assign o)
              (db_view (vm_db s')).
Proof.
  intros Hwf Ho Hrun. unfold process_assign in Hrun. prog_inv Hrun. prog_clean.
  match goal with
  | Hf : db_view _ !! signer = Some ?fa |- _ =>
      pose proof (set_owner_ok _ _ (db_view_ok _ _ _ Hwf Hf) Ho)
  end.
  rewrite !db_store_view by eauto with trust. split; [eauto with trust|].
  by eapply step_assign.
Qed.

Lemma system_refines data metas signer keys s s' :
  db_wf (vm_db s) -> bytes_ok data ->
  system_process_instruction data metas signer keys s = (s', Ok tt) ->
  db_wf (vm_db s') /\ exists i,
    SystemInstruction.from_data data = Ok i /\
    system_step metas signer keys (db_view (vm_db s)) i (db_view (vm_db s')).
Proof.
  intros Hwf Hd. unfold system_process_instruction. rewrite pbind_Ok.
  intros (s1 & i & Hi & Hrun). unfold plift in Hi. injection Hi as <- Hi.
  apply system_from_inv in Hi as Hok; [|done]. destruct Hok as [Hok _].
  destruct i as [n|n sp o|o|]; simpl in Hok.
  - apply transfer_refines in Hrun; naive_solver.
  - apply create_refines in Hrun; naive_solver.
  - apply assign_refines in Hrun; naive_solver.
  - by prog_inv Hrun.
Qed.

(** Conversely, an instruction whose rule applies succeeds. *)
Lemma step_system_runs data metas signer keys s i m' :
  db_wf (vm_db s) -> bytes_ok data -> SystemInstruction.from_data data = Ok i ->
  budget_covers (vm_budget s) (system_cost i) ->
  system_step metas signer keys (db_view (vm_db s)) i m' ->
  exists s', system_process_instruction data metas signer keys s = (s', Ok tt).
Proof.
  intros Hwf Hd Hi Hb Hstep. apply system_from_inv in Hi as Hok; [|done].
  destruct Hok as [Hok _].
  unfold system_process_instruction. rewrite Hi. unfold pbind at 1. cbn [plift].
  destruct Hstep; subst metas; simpl in Hok.
  - unfold process_transfer. repeat run_step. eexists. reflexivity.
  - unfold process_create_account.
    assert (n + MINIMUM_RENT_EXEMPT_BALANCE <= U64_MAX).
    { pose proof (db_view_ok _ _ _ Hwf H5) as (Hl & _). u64_unfold. lia. }
    repeat run_step.
    eexists. reflexivity.
  - unfold process_assign. repeat run_step.
    rewrite run_guard by (apply bool_decide_eq_false_2; naive_solver).
    eexists. reflexivity.
Qed.

(** The system program implements its ledger rules: on any database that
    keeps the store's promise, and with budget for the instruction, an
    instruction succeeds exactly when a rule applies, and then the accounts
    afterwards are the ones the rule gives. *)
Theorem system_program_refines data metas signer keys s m' :
  db_wf (vm_db s) -> bytes_ok data ->
  (forall i, SystemInstruction.from_data data = Ok i -> budget_covers (vm_budget s) (system_cost i)) ->
  (exists s', system_process_instruction data metas signer keys s = (s', Ok tt) /\
              db_view (vm_db s') = m') <->
  (exists i, SystemInstruction.from_data data = Ok i /\
             system_step metas signer keys (db_view (vm_db s)) i m').
Proof.
  intros Hwf Hd Hb. split.
  - intros (s' & Hrun & <-). apply system_refines in Hrun; naive_solver.
  - intros (i & Hi & Hstep).
    destruct (step_system_runs _ _ _ _ s i m' Hwf Hd Hi (Hb i Hi) Hstep) as [s' Hrun].
    exists s'. split; [done|].
    apply system_refines in Hrun as (_ & i' & Hi' & Hstep'); [|done|done].
    rewrite Hi in Hi'. injection Hi' as <-.
    by apply (system_step_det _ _ _ _ _ _ _ Hstep' Hstep).
Qed.
End SystemCorrect.

(** ** Consequences of the rules *)

(** A transfer whose source and destination metas resolve to the same key. *)
Definition self_transfer (metas : list AccountMeta) (signer : bytes) (keys : list bytes)
    (i : SystemInstruction.t) : bool :=
  match i, metas with
  | SystemInstruction.Transfer _, _ :: to_meta :: _ =>
      bool_decide (keys !! meta_index to_meta = Some signer)
  | _, _ => false
  end.

Lemma balance_insert m k k' a :
  balance (<[k:=a]> m) k' = if decide (k = k') then lamports a else balance m k'.
Proof. unfold balance. rewrite lookup_insert. by case_decide. Qed.

Lemma balance_account_or_new m k : lamports (account_or_new m k) = balance m k.
Proof. unfold account_or_new, balance. by destruct (m !! k). Qed.

Lemma balance_Some m k a : m !! k = Some a -> balance m k = lamports a.
Proof. unfold balance. by intros ->. Qed.

(** Rules conserve lamports, except a transfer to oneself. *)
Lemma system_step_supply metas signer keys m i m' :
  system_step metas signer keys m i m' ->
  supply m' = supply m +
    (if self_transfer metas signer keys i
     then match i with SystemInstruction.Transfer n => n | _ => 0 end else 0).
Proof.
  intros Hstep. destruct Hstep as [n fm tm rest to fa -> Hfrom Hto Hf Hle Hmax
    |n sp o pm nm rest nk p -> Hp Hn Hsp Hnone Hsome Hle|o meta rest a -> Hk Hm Ho]; simpl.
  - rewrite !supply_insert', balance_insert. simpl. rewrite (balance_Some m signer fa) by done.
    rewrite balance_account_or_new, Hto.
    case_decide; case_bool_decide; simplify_eq.
    + rewrite (balance_Some m to fa) by done. lia.
    + lia.
  - rewrite !supply_insert', balance_insert. simpl. rewrite (balance_Some m signer p) by done.
    case_decide; [congruence|]. unfold balance at 1. rewrite Hnone. simpl. lia.
  - rewrite supply_insert'. rewrite (balance_Some m signer a) by done. simpl. lia.
Qed.

(** Only the signer can lose lamports; every other existing account keeps
    its owner and payload. *)
Lemma system_step_authority metas signer keys m i m' k :
  system_step metas signer keys m i m' -> SystemInstruction.ok i -> k <> signer ->
  balance m k <= balance m' k /\
  (forall a, m !! k = Some a -> exists a', m' !! k = Some a' /\ owner a' = owner a /\ data a' = data a).
Proof.
  intros Hstep Hok Hk. destruct Hstep as [n fm tm rest to fa -> Hfrom Hto Hf Hle Hmax
    |n sp o pm nm rest nk p -> Hp Hn Hsp Hnone Hsome Hle|o meta rest a0 -> Hk' Hm Ho]; simpl in Hok.
  - split.
    + rewrite balance_insert. case_decide.
      * simpl. rewrite balance_account_or_new. subst. u64_unfold. lia.
      * rewrite balance_insert, decide_False by done. lia.
    + intros a Ha. rewrite lookup_insert. case_decide.
      * subst. eexists. split; [done|]. unfold account_or_new. by rewrite Ha.
      * rewrite lookup_insert_ne by done. eauto.
  - split.
    + rewrite balance_insert. case_decide.
      * subst. unfold balance. rewrite Hnone. simpl.
        unfold MINIMUM_RENT_EXEMPT_BALANCE. u64_unfold. lia.
      * rewrite balance_insert, decide_False by done. lia.
    + intros a Ha. rewrite lookup_insert. case_decide; [congruence|].
      rewrite lookup_insert_ne by done. eauto.
  - rewrite balance_insert, lookup_insert_ne, decide_False by done. split; [lia | eauto].
Qed.

Section SystemProperties.
Context {DB : Type} `{Laws : AccountsStoreLaws DB}.
Implicit Types (s : VmState DB).

(** Lamports are conserved by every successful system instruction
    (transfer, account creation with its rent reserve, assignment) that is not
    a transfer of an account to itself. *)
Theorem system_conserves_supply data i metas signer keys s s' :
  db_wf (vm_db s) -> bytes_ok data ->
  SystemInstruction.from_data data = Ok i -> self_transfer metas signer keys i = false ->
  system_process_instruction data metas signer keys s = (s', Ok tt) ->
  supply (db_view (vm_db s')) = supply (db_view (vm_db s)).
Proof.
  intros Hwf Hd Hi Hself Hrun.
  apply system_refines in Hrun as (_ & i' & Hi' & Hstep); [|done|done].
  rewrite Hi in Hi'. injection Hi' as <-.
  apply system_step_supply in Hstep. rewrite Hself in Hstep. lia.
Qed.

(** A transfer to oneself creates money: both sides are loaded before
    either is stored, the credited copy overwrites the debited one, and the
    total supply grows by the transferred amount. *)
Theorem self_transfer_mints data n metas signer keys s s' :
  db_wf (vm_db s) -> bytes_ok data ->
  SystemInstruction.from_data data = Ok (SystemInstruction.Transfer n) ->
  self_transfer metas signer keys (SystemInstruction.Transfer n) = true ->
  system_process_instruction data metas signer keys s = (s', Ok tt) ->
  supply (db_view (vm_db s')) = supply (db_view (vm_db s)) + n /\
  balance (db_view (vm_db s')) signer = balance (db_view (vm_db s)) signer + n.
Proof.
  intros Hwf Hd Hi Hself Hrun.
  apply system_refines in Hrun as (_ & i' & Hi' & Hstep); [|done|done].
  rewrite Hi in Hi'. injection Hi' as <-.
  pose proof (system_step_supply _ _ _ _ _ _ Hstep) as Hsup. rewrite Hself in Hsup.
  split; [done|]. inversion Hstep; subst. simpl in Hself.
  apply bool_decide_eq_true in Hself. simplify_eq.
  rewrite balance_insert, decide_True by done. simpl. by rewrite balance_account_or_new.
Qed.

(** Authorization: whatever the metas claim, a successful system
    instruction never lowers the balance of an account other than the
    transaction's signer, nor changes its owner or data. *)
Theorem system_only_debits_signer ixd metas signer keys s s' k :
  db_wf (vm_db s) -> bytes_ok ixd -> k <> signer ->
  system_process_instruction ixd metas signer keys s = (s', Ok tt) ->
  balance (db_view (vm_db s)) k <= balance (db_view (vm_db s')) k /\
  (forall a, db_view (vm_db s) !! k = Some a ->
     exists a', db_view (vm_db s') !! k = Some a' /\ owner a' = owner a /\ data a' = data a).
Proof.
  intros Hwf Hd Hk Hrun.
  apply system_refines in Hrun as (_ & i & Hi & Hstep); [|done|done].
  apply system_from_inv in Hi as [Hok _]; [|done].
  by apply (system_step_authority _ _ _ _ _ _ _ Hstep).
Qed.
End SystemProperties.
