(* ===== verification/TokenProgram.v ===== *)
(** * The token program ([crates/program-executor/src/programs/token_program.rs]) *)

From S2P Require Import Prelude Crypto Account Store Instruction Vm.
Import InstructionError.
Open Scope Z_scope.
Open Scope trust_scope.

(** [if let AccountData::Token { amount: ref mut balance, .. } = d { *balance = n }] *)
Definition set_token_amount (a : Account) (n : Z) : Account :=
  match data a with
  | Token mint authority _ => set_data a (Token mint authority n)
  | _ => a
  end.

(** [if let AccountData::Mint { supply: ref mut s, .. } = d { *s = n }] *)
Definition set_mint_supply (a : Account) (n : Z) : Account :=
  match data a with
  | Mint authority _ => set_data a (Mint authority n)
  | _ => a
  end.

Section TokenProgram.
Context {DB : Type} `{Store : AccountsStore DB}.

(** [load_owned] *)
Definition load_owned (key : bytes) : VM Account :=
  account <-- vm_load_or key AccountNotFound ;;
  fail_if (bool_decide (owner account <> token_program_id)) with InvalidAccountOwner ;;;
  pret account.

(** [process_initialize_mint] *)
Definition process_initialize_mint (metas : list AccountMeta) (signer : bytes)
    (account_keys : list bytes) : VM unit :=
  consume 300 ;;;
  mint_key <-- plift (match head metas with
                      | None => Err (InvalidInstructionData "InitializeMint requires 1 account")
                      | Some m => resolve_account_key (meta_index m) account_keys
                      end) ;;
  fail_if (bool_decide (mint_key <> signer)) with IncorrectAuthority ;;;
  present <-- vm_exists mint_key ;;
  fail_if present with (ProgramError "Mint already exists") ;;;
  vm_store mint_key (new_mint mint_key signer) ;;;
  vm_log ("Token: InitializeMint " +:+ hex8 mint_key +:+ " authority " +:+ hex8 signer).

(** [process_initialize_account] *)
Definition process_initialize_account (mint : bytes) (metas : list AccountMeta) (signer : bytes)
    (account_keys : list bytes) : VM unit :=
  consume 300 ;;;
  match metas with
  | meta0 :: meta1 :: meta2 :: _ =>
      mint_key <-- plift (resolve_account_key (meta_index meta0) account_keys) ;;
      new_key <-- plift (resolve_account_key (meta_index meta1) account_keys) ;;
      owner_key <-- plift (resolve_account_key (meta_index meta2) account_keys) ;;
      fail_if (bool_decide (mint_key <> mint)) with MintMismatch ;;;
      fail_if (bool_decide (owner_key <> signer)) with IncorrectAuthority ;;;
      mint_account <-- load_owned mint_key ;;
      match data mint_account with
      | Mint _ _ =>
          present <-- vm_exists new_key ;;
          fail_if present with (ProgramError "Token account already exists") ;;;
          vm_store new_key (new_token_account new_key mint_key owner_key 0) ;;;
          vm_log ("Token: InitializeAccount " +:+ hex8 new_key +:+ " for mint " +:+
                  hex8 mint_key +:+ " owner " +:+ hex8 owner_key)
      | _ => pfail MintMismatch
      end
  | _ => pfail (InvalidInstructionData
                  "InitializeAccount requires 3 accounts (mint, account, owner)")
  end.

(** [process_token_transfer] *)
Definition process_token_transfer (amount : Z) (metas : list AccountMeta) (signer : bytes)
    (account_keys : list bytes) : VM unit :=
  consume 200 ;;;
  match metas with
  | meta0 :: meta1 :: _ =>
      from_key <-- plift (resolve_account_key (meta_index meta0) account_keys) ;;
      to_key <-- plift (resolve_account_key (meta_index meta1) account_keys) ;;
      fail_if (bool_decide (from_key = to_key))
        with (InvalidInstructionData "Source and destination must differ") ;;;
      from_account <-- load_owned from_key ;;
      to_account <-- load_owned to_key ;;
      match data from_account with
      | Token from_mint from_authority from_balance =>
          fail_if (bool_decide (from_authority <> signer)) with IncorrectAuthority ;;;
          match data to_account with
          | Token to_mint _ to_balance =>
              fail_if (bool_decide (from_mint <> to_mint)) with MintMismatch ;;;
              fail_if (from_balance <? amount) with (InsufficientFunds amount from_balance) ;;;
              new_from <-- plift (ok_or (checked_sub from_balance amount)
                                         (InsufficientFunds amount from_balance)) ;;
              new_to <-- plift (ok_or (checked_add to_balance amount) ArithmeticOverflow) ;;
              vm_store from_key (set_token_amount from_account new_from) ;;;
              vm_store to_key (set_token_amount to_account new_to) ;;;
              vm_log ("Token: Transfer " +:+ dec amount +:+ " tokens from " +:+ hex8 from_key +:+
                      " to " +:+ hex8 to_key)
          | _ => pfail MintMismatch
          end
      | _ => pfail MintMismatch
      end
  | _ => pfail (InvalidInstructionData "Transfer requires 2 accounts")
  end.

(** [process_mint_to] *)
Definition process_mint_to (amount : Z) (metas : list AccountMeta) (signer : bytes)
    (account_keys : list bytes) : VM unit :=
  consume 200 ;;;
  match metas with
  | meta0 :: meta1 :: _ =>
      mint_key <-- plift (resolve_account_key (meta_index meta0) account_keys) ;;
      dest_key <-- plift (resolve_account_key (meta_index meta1) account_keys) ;;
      mint_account <-- load_owned mint_key ;;
      match data mint_account with
      | Mint mint_authority supply =>
          fail_if (bool_decide (mint_authority <> signer)) with IncorrectAuthority ;;;
          dest_account <-- load_owned dest_key ;;
          match data dest_account with
          | Token dest_mint _ dest_balance =>
              fail_if (bool_decide (dest_mint <> mint_key)) with MintMismatch ;;;
              new_supply <-- plift (ok_or (checked_add supply amount) ArithmeticOverflow) ;;
              new_balance <-- plift (ok_or (checked_add dest_balance amount) ArithmeticOverflow) ;;
              vm_store mint_key (set_mint_supply mint_account new_supply) ;;;
              vm_store dest_key (set_token_amount dest_account new_balance) ;;;
              vm_log ("Token: Mint " +:+ dec amount +:+ " tokens to " +:+ hex8 dest_key +:+
                      " (supply " +:+ dec new_supply +:+ ")")
          | _ => pfail MintMismatch
          end
      | _ => pfail MintMismatch
      end
  | _ => pfail (InvalidInstructionData "MintTo requires 2 accounts (mint, destination)")
  end.

(** [process_burn] *)
Definition process_burn (amount : Z) (metas : list AccountMeta) (signer : bytes)
    (account_keys : list bytes) : VM unit :=
  consume 200 ;;;
  match metas with
  | meta0 :: meta1 :: _ =>
      mint_key <-- plift (resolve_account_key (meta_index meta0) account_keys) ;;
      token_key <-- plift (resolve_account_key (meta_index meta1) account_keys) ;;
      mint_account <-- load_owned mint_key ;;
      match data mint_account with
      | Mint _ supply =>
          token_account <-- load_owned token_key ;;
          match data token_account with
          | Token token_mint token_authority balance =>
              fail_if (bool_decide (token_authority <> signer)) with IncorrectAuthority ;;;
              fail_if (bool_decide (token_mint <> mint_key)) with MintMismatch ;;;
              fail_if (balance <? amount) with (InsufficientFunds amount balance) ;;;
              fail_if (supply <? amount) with (InsufficientFunds amount supply) ;;;
              vm_store mint_key (set_mint_supply mint_account (supply - amount)) ;;;
              vm_store token_key (set_token_amount token_account (balance - amount)) ;;;
              vm_log ("Token: Burn " +:+ dec amount +:+ " tokens from " +:+ hex8 token_key +:+
                      " (supply " +:+ dec (supply - amount) +:+ ")")
          | _ => pfail MintMismatch
          end
      | _ => pfail MintMismatch
      end
  | _ => pfail (InvalidInstructionData "Burn requires 2 accounts (mint, token account)")
  end.

(** [token_program::process_instruction] *)
Definition token_process_instruction (data : bytes) (metas : list AccountMeta) (signer : bytes)
    (account_keys : list bytes) : VM unit :=
  instruction <-- plift (TokenInstruction.from_data data) ;;
  match instruction with
  | TokenInstruction.InitializeMint => process_initialize_mint metas signer account_keys
  | TokenInstruction.InitializeAccount mint =>
      process_initialize_account mint metas signer account_keys
  | TokenInstruction.Transfer amount => process_token_transfer amount metas signer account_keys
  | TokenInstruction.MintTo amount => process_mint_to amount metas signer account_keys
  | TokenInstruction.Burn amount => process_burn amount metas signer account_keys
  end.
End TokenProgram.

(** ** Abstract token rules *)

(** [a] is a token account / a mint, owned by the token program. *)
Definition is_token (a : Account) (mint authority : bytes) (amount : Z) : Prop :=
  owner a = token_program_id /\ data a = Token mint authority amount.
Definition is_mint (a : Account) (authority : bytes) (supply : Z) : Prop :=
  owner a = token_program_id /\ data a = Mint authority supply.

Inductive token_step (metas : list AccountMeta) (signer : bytes) (keys : list bytes)
    (m : gmap bytes Account) : TokenInstruction.t -> gmap bytes Account -> Prop :=
  | step_initialize_mint meta rest :
      metas = meta :: rest -> keys !! meta_index meta = Some signer -> m !! signer = None ->
      token_step metas signer keys m TokenInstruction.InitializeMint
        (<[signer := new_mint signer signer]> m)
  | step_initialize_account mint meta0 meta1 meta2 rest new_key ma au su :
      metas = meta0 :: meta1 :: meta2 :: rest ->
      keys !! meta_index meta0 = Some mint ->
      keys !! meta_index meta1 = Some new_key ->
      keys !! meta_index meta2 = Some signer ->
      m !! mint = Some ma -> is_mint ma au su -> m !! new_key = None ->
      token_step metas signer keys m (TokenInstruction.InitializeAccount mint)
        (<[new_key := new_token_account new_key mint signer 0]> m)
  | step_token_transfer n meta0 meta1 rest from to fa ta mint ta_au fb tb :
      metas = meta0 :: meta1 :: rest ->
      keys !! meta_index meta0 = Some from -> keys !! meta_index meta1 = Some to ->
      from <> to ->
      m !! from = Some fa -> m !! to = Some ta ->
      is_token fa mint signer fb -> is_token ta mint ta_au tb ->
      n <= fb -> tb + n <= U64_MAX ->
      token_step metas signer keys m (TokenInstruction.Transfer n)
        (<[to := set_token_amount ta (tb + n)]> (<[from := set_token_amount fa (fb - n)]> m))
  | step_mint_to n meta0 meta1 rest mint dest ma da su da_au db :
      metas = meta0 :: meta1 :: rest ->
      keys !! meta_index meta0 = Some mint -> keys !! meta_index meta1 = Some dest ->
      m !! mint = Some ma -> m !! dest = Some da ->
      is_mint ma signer su -> is_token da mint da_au db ->
      su + n <= U64_MAX -> db + n <= U64_MAX ->
      token_step metas signer keys m (TokenInstruction.MintTo n)
        (<[dest := set_token_amount da (db + n)]> (<[mint := set_mint_supply ma (su + n)]> m))
  | step_burn n meta0 meta1 rest mint tok ma ta ma_au su tb :
      metas = meta0 :: meta1 :: rest ->
      keys !! meta_index meta0 = Some mint -> keys !! meta_index meta1 = Some tok ->
      m !! mint = Some ma -> m !! tok = Some ta ->
      is_mint ma ma_au su -> is_token ta mint signer tb ->
      n <= tb -> n <= su ->
      token_step metas signer keys m (TokenInstruction.Burn n)
        (<[tok := set_token_amount ta (tb - n)]> (<[mint := set_mint_supply ma (su - n)]> m)).

Lemma token_step_det metas signer keys m i m1 m2 :
  token_step metas signer keys m i m1 -> token_step metas signer keys m i m2 -> m1 = m2.
Proof.
  intros H1 H2. inversion H1; inversion H2; clear H1 H2; unfold is_token, is_mint in *;
    destruct_and?; simplify_eq; congruence.
Qed.

(** The data of token accounts and mints, which has a fixed size. *)
Definition token_data (d : AccountData) : Prop :=
  match d with Token _ _ _ | Mint _ _ => True | _ => False end.

Section TokenCorrect.
Context {DB : Type} `{Laws : AccountsStoreLaws DB}.
Implicit Types (s : VmState DB) (metas : list AccountMeta) (keys : list bytes).

Lemma load_owned_state k s s' r : load_owned k s = (s', r) -> s' = s.
Proof.
  unfold load_owned, pbind, vm_load_or, vm_load, pbind, pget, plift.
  destruct (db_load (vm_db s) k) as [a|]; simpl; [|congruence].
  destruct (bool_decide _); unfold pfail, pret; congruence.
Qed.

Lemma load_owned_Ok k s s' a :
  db_wf (vm_db s) ->
  load_owned k s = (s', Ok a) <->
  s' = s /\ db_view (vm_db s) !! k = Some a /\ owner a = token_program_id.
Proof.
  intros Hwf. unfold load_owned, pbind, vm_load_or, vm_load, pbind, pget, plift.
  rewrite db_load_view by done. destruct (db_view (vm_db s) !! k) as [a'|]; simpl.
  - case_bool_decide as E; unfold pfail, pret; split; intros; destruct_and?; simplify_eq; done.
  - split; [congruence|]. intros (_ & ? & _). congruence.
Qed.

Lemma run_load_owned {A} k s a (f : Account -> VM A) :
  db_wf (vm_db s) -> db_view (vm_db s) !! k = Some a -> owner a = token_program_id ->
  pbind (load_owned k) f s = f a s.
Proof. intros Hwf Hk Ho. unfold pbind. by rewrite (proj2 (load_owned_Ok k s s a Hwf)). Qed.

(** A failing handler has not touched the accounts. *)
Lemma token_fail_unchanged ixd metas signer keys s s' e :
  token_process_instruction ixd metas signer keys s = (s', Err e) -> vm_db s' = vm_db s.
Proof.
  unfold token_process_instruction, process_initialize_mint, process_initialize_account,
    process_token_transfer, process_mint_to, process_burn.
  intros Hrun. prog_inv Hrun;
    repeat match goal with
    | Hl : load_owned _ _ = _ |- _ => apply load_owned_state in Hl; subst
    end; done.
Qed.

Definition token_cost (i : TokenInstruction.t) : Z :=
  match i with
  | TokenInstruction.InitializeMint | TokenInstruction.InitializeAccount _ => 300
  | _ => 200
  end.

(** The stored versions of accounts stay well-typed. *)
Lemma set_token_amount_ok a n mint au x :
  is_token a mint au x -> account_ok a -> is_u64 n -> account_ok (set_token_amount a n).
Proof.
  intros [_ Hd] Ha Hn. unfold set_token_amount. rewrite Hd. apply set_data_ok; [done|].
  destruct Ha as (_ & _ & _ & Hda). rewrite Hd in Hda. simpl in *. tauto.
Qed.

Lemma set_mint_supply_ok a n au x :
  is_mint a au x -> account_ok a -> is_u64 n -> account_ok (set_mint_supply a n).
Proof.
  intros [_ Hd] Ha Hn. unfold set_mint_supply. rewrite Hd. apply set_data_ok; [done|].
  destruct Ha as (_ & _ & _ & Hda). rewrite Hd in Hda. simpl in *. tauto.
Qed.

Lemma token_amount_u64 a mint au x : account_ok a -> is_token a mint au x -> is_u64 x.
Proof. intros (_ & _ & _ & Hd) [_ E]. rewrite E in Hd. simpl in Hd. tauto. Qed.
Lemma mint_supply_u64 a au x : account_ok a -> is_mint a au x -> is_u64 x.
Proof. intros (_ & _ & _ & Hd) [_ E]. rewrite E in Hd. simpl in Hd. tauto. Qed.

(** Close a goal [account_ok a] for an account a rule writes. *)
Ltac token_ok Hget :=
  simpl; repeat match goal with
  | Hk : db_view _ !! _ = Some ?a |- _ => pose proof (Hget _ _ Hk); clear Hk
  end;
  first [ by auto with trust
        | first [ eapply set_token_amount_ok; [by split|done|]
                | eapply set_mint_supply_ok; [by split|done|] ];
          repeat match goal with
          | Ho : owner ?a = token_program_id, Hd : data ?a = Token ?m ?au ?x |- _ =>
              pose proof (token_amount_u64 a m au x ltac:(assumption) (conj Ho Hd)); clear Hd
          | Ho : owner ?a = token_program_id, Hd : data ?a = Mint ?au ?x |- _ =>
              pose proof (mint_supply_u64 a au x ltac:(assumption) (conj Ho Hd)); clear Hd
          end; u64_unfold; lia ].

Ltac token_clean :=
  repeat (prog_clean;
    match goal with
    | Hl : load_owned _ _ = (_, Ok _) |- _ =>
        apply load_owned_Ok in Hl as (-> & ? & ?); [|done]; simpl in *
    | Hm : match head ?l with _ => _ end = Ok _ |- _ => destruct l; simpl in Hm; [done|]
    | Hc : checked_sub _ _ = Some _ |- _ =>
        unfold checked_sub in Hc; case_match; simplify_eq/=
    end); prog_clean.

(** Close a goal about the key and the kind of an account a rule writes. *)
Ltac token_shape :=
  split; [by eapply list_elem_of_lookup_2|];
  unfold set_token_amount, set_mint_supply, token_data;
  repeat match goal with Hd : data ?a = _ |- _ => rewrite Hd; clear Hd end; done.

(** Handlers whose checks pass take the matching rule, storing well-typed
    token accounts and mints only, under keys of the transaction. *)
Lemma token_handler_step ixd i metas signer keys s s' :
  db_wf (vm_db s) -> arr32 signer -> bytes_ok ixd -> TokenInstruction.from_data ixd = Ok i ->
  token_process_instruction ixd metas signer keys s = (s', Ok tt) ->
  exists writes,
    vm_db s' = foldl (fun db '(k, a) => db_store db k a) (vm_db s) writes /\
    token_step metas signer keys (db_view (vm_db s)) i
      (foldl (fun m '(k, a) => <[k:=a]> m) (db_view (vm_db s)) writes) /\
    Forall (fun '(_, a) => account_ok a) writes /\
    Forall (fun '(k, a) => k ∈ keys /\ token_data (data a)) writes.
Proof.
  intros Hwf Hs Hd Hi. apply token_from_inv in Hi as Hok; [|done]. destruct Hok as [Hok _].
  assert (Hget : forall k a, db_view (vm_db s) !! k = Some a -> account_ok a)
    by (intros; by eapply db_view_ok).
  unfold token_process_instruction. rewrite Hi. unfold pbind at 1. cbn [plift].
  unfold process_initialize_mint, process_initialize_account,
    process_token_transfer, process_mint_to, process_burn.
  destruct i as [|mint|n|n|n]; simpl in Hok; intros Hrun; prog_inv Hrun; token_clean; subst.
  - eexists [(_, _)]. split_and!; [done|by eapply step_initialize_mint|..].
    all: constructor; [|constructor]; [token_ok Hget || token_shape..].
  - eexists [(_, _)]. split_and!; [done|by eapply step_initialize_account|..].
    all: constructor; [|constructor]; [token_ok Hget || token_shape..].
  - eexists [(_, _); (_, _)]. split_and!; [done|by eapply step_token_transfer|..].
    all: constructor; [|constructor; [|constructor]]; token_ok Hget || token_shape.
  - eexists [(_, _); (_, _)]. split_and!; [done|by eapply step_mint_to|..].
    all: constructor; [|constructor; [|constructor]]; token_ok Hget || token_shape.
  - eexists [(_, _); (_, _)]. split_and!; [done|by eapply step_burn|..].
    all: constructor; [|constructor; [|constructor]]; token_ok Hget || token_shape.
Qed.

Lemma db_writes db writes :
  db_wf db -> Forall (fun '(_, a) => account_ok a) writes ->
  db_wf (foldl (fun db '(k, a) => db_store db k a) db writes) /\
  db_view (foldl (fun db '(k, a) => db_store db k a) db writes) =
    foldl (fun m '(k, a) => <[k:=a]> m) (db_view db) writes.
Proof.
  intros Hwf Hw. revert db Hwf. induction Hw as [|[k a] writes Ha _ IH]; intros db Hwf; [done|].
  simpl. rewrite <- db_store_view by done. apply IH. eauto with trust.
Qed.

Lemma token_refines ixd metas signer keys s s' :
  db_wf (vm_db s) -> arr32 signer -> bytes_ok ixd ->
  token_process_instruction ixd metas signer keys s = (s', Ok tt) ->
  db_wf (vm_db s') /\ exists i,
    TokenInstruction.from_data ixd = Ok i /\
    token_step metas signer keys (db_view (vm_db s)) i (db_view (vm_db s')).
Proof.
  intros Hwf Hs Hd Hrun.
  destruct (TokenInstruction.from_data ixd) as [i|e] eqn:Hi.
  - destruct (token_handler_step _ _ _ _ _ _ _ Hwf Hs Hd Hi Hrun) as (ws & E & Hstep & Hok & _).
    destruct (db_writes (vm_db s) ws Hwf Hok) as [Hwf' Hv].
    rewrite E, Hv. eauto.
  - unfold token_process_instruction, pbind, plift in Hrun. by rewrite Hi in Hrun.
Qed.

(** Conversely, an instruction whose rule applies succeeds. *)
Lemma step_token_runs ixd metas signer keys s i m' :
  db_wf (vm_db s) -> bytes_ok ixd -> TokenInstruction.from_data ixd = Ok i ->
  budget_covers (vm_budget s) (token_cost i) ->
  token_step metas signer keys (db_view (vm_db s)) i m' ->
  exists s', token_process_instruction ixd metas signer keys s = (s', Ok tt).
Proof.
  intros Hwf Hd Hi Hb Hstep.
  unfold token_process_instruction. rewrite Hi. unfold pbind at 1. cbn [plift].
  destruct Hstep; subst metas; unfold is_token, is_mint in *; destruct_and?;
    unfold process_initialize_mint, process_initialize_account,
      process_token_transfer, process_mint_to, process_burn; cbn [head];
    repeat first
      [ run_step
      | erewrite run_load_owned by eassumption
      | rewrite run_guard by (apply bool_decide_eq_false_2; naive_solver)
      | match goal with Hda : data ?a = _ |- context [data ?a] => rewrite Hda end ];
    eexists; reflexivity.
Qed.

(** The token program implements its rules: with budget for the
    instruction, it succeeds exactly when a rule applies, and the accounts
    afterwards are the ones the rule gives. *)
Theorem token_program_refines ixd metas signer keys s m' :
  db_wf (vm_db s) -> arr32 signer -> bytes_ok ixd ->
  (forall i, TokenInstruction.from_data ixd = Ok i -> budget_covers (vm_budget s) (token_cost i)) ->
  (exists s', token_process_instruction ixd metas signer keys s = (s', Ok tt) /\
              db_view (vm_db s') = m') <->
  (exists i, TokenInstruction.from_data ixd = Ok i /\
             token_step metas signer keys (db_view (vm_db s)) i m').
Proof.
  intros Hwf Hs Hd Hb. split.
  - intros (s' & Hrun & <-). apply token_refines in Hrun; naive_solver.
  - intros (i & Hi & Hstep).
    destruct (step_token_runs _ _ _ _ s i m' Hwf Hd Hi (Hb i Hi) Hstep) as [s' Hrun].
    exists s'. split; [done|].
    apply token_refines in Hrun as (_ & i' & Hi' & Hstep'); [|done|done|done].
    rewrite Hi in Hi'. injection Hi' as <-.
    by apply (token_step_det _ _ _ _ _ _ _ Hstep' Hstep).
Qed.
End TokenCorrect.

(** ** Conservation of tokens *)

(** Tokens of a mint held by one account, and by all accounts. *)
Definition held (mint : bytes) (a : Account) : Z :=
  match data a with
  | Token mint' _ n => if decide (mint' = mint) then n else 0
  | _ => 0
  end.
Definition circulating (m : gmap bytes Account) (mint : bytes) : Z := map_sum (held mint) m.

(** Mints and token accounts belong to the token program, every token account
    names an existing mint, and a mint's recorded supply is what circulates. *)
Record token_inv (m : gmap bytes Account) : Prop := {
  inv_owner k a : m !! k = Some a ->
    match data a with Token _ _ _ | Mint _ _ => owner a = token_program_id | _ => True end;
  inv_mint k a mint au n : m !! k = Some a -> data a = Token mint au n ->
    exists ma mau su, m !! mint = Some ma /\ data ma = Mint mau su;
  inv_supply mint a au su : m !! mint = Some a -> data a = Mint au su ->
    circulating m mint = su
}.

Lemma circulating_insert m mint k a :
  circulating (<[k:=a]> m) mint =
  circulating m mint - from_option (held mint) 0 (m !! k) + held mint a.
Proof. apply map_sum_insert. Qed.

Lemma held_set_amount mint a n mint' au x :
  data a = Token mint' au x ->
  held mint (set_token_amount a n) = if decide (mint' = mint) then n else 0.
Proof. intros E. unfold held, set_token_amount. by rewrite E. Qed.

Lemma held_token mint a mint' au x :
  data a = Token mint' au x -> held mint a = if decide (mint' = mint) then x else 0.
Proof. intros E. unfold held. by rewrite E. Qed.

Lemma held_mint mint a au x : data a = Mint au x -> held mint a = 0.
Proof. intros E. unfold held. by rewrite E. Qed.

Lemma held_set_supply mint a n au x : data a = Mint au x -> held mint (set_mint_supply a n) = 0.
Proof. intros E. unfold held, set_mint_supply. by rewrite E. Qed.

Lemma held_other mint a : (forall m au n, data a <> Token m au n) -> held mint a = 0.
Proof. intros Hd. unfold held. destruct (data a); naive_solver. Qed.

(** Nothing circulates of a mint that no token account names. *)
Lemma circulating_zero m mint :
  (forall k a au n, m !! k = Some a -> data a <> Token mint au n) -> circulating m mint = 0.
Proof.
  intros Hno. unfold circulating. induction m as [|k a m Hk IH] using map_ind.
  - apply map_sum_empty.
  - rewrite map_sum_insert_None by done. rewrite IH.
    + assert (held mint a = 0); [|lia]. unfold held. destruct (data a) eqn:E; try done.
      case_decide; [|done]. subst. exfalso. by apply (Hno k a authority amount); [rewrite lookup_insert_eq|].
    + intros k' a' au n Hk'. apply (Hno k'). rewrite lookup_insert_ne; [done|]. congruence.
Qed.

Lemma data_set_amount a n mint au x :
  data a = Token mint au x -> data (set_token_amount a n) = Token mint au n.
Proof. intros E. unfold set_token_amount. by rewrite E. Qed.
Lemma data_set_supply a n au x :
  data a = Mint au x -> data (set_mint_supply a n) = Mint au n.
Proof. intros E. unfold set_mint_supply. by rewrite E. Qed.
Lemma owner_set_amount a n : owner (set_token_amount a n) = owner a.
Proof. unfold set_token_amount. by destruct (data a). Qed.
Lemma owner_set_supply a n : owner (set_mint_supply a n) = owner a.
Proof. unfold set_mint_supply. by destruct (data a). Qed.

(** Replacing an account by one of the same kind (same mint and authority for
    token accounts, same authority for mints, same owner) keeps the shape part
    of the invariant. *)
Definition same_kind (a b : Account) : Prop :=
  owner a = owner b /\
  match data a, data b with
  | Token m1 a1 _, Token m2 a2 _ => m1 = m2 /\ a1 = a2
  | Mint a1 _, Mint a2 _ => a1 = a2
  | Token _ _ _, _ | Mint _ _, _ | _, Token _ _ _ | _, Mint _ _ => False
  | _, _ => True
  end.

Lemma same_kind_amount a n mint au x : data a = Token mint au x -> same_kind a (set_token_amount a n).
Proof. intros E. split; [by rewrite owner_set_amount|]. by rewrite E, (data_set_amount _ _ _ _ _ E). Qed.
Lemma same_kind_supply a n au x : data a = Mint au x -> same_kind a (set_mint_supply a n).
Proof. intros E. split; [by rewrite owner_set_supply|]. by rewrite E, (data_set_supply _ _ _ _ E). Qed.

Lemma shape_owner_insert m k b :
  token_inv m ->
  match data b with Token _ _ _ | Mint _ _ => owner b = token_program_id | _ => True end ->
  forall k' a', <[k:=b]> m !! k' = Some a' ->
    match data a' with Token _ _ _ | Mint _ _ => owner a' = token_program_id | _ => True end.
Proof.
  intros Hinv Hb k' a'. rewrite lookup_insert. case_decide; [by intros [= <-]|]. apply Hinv.
Qed.

(** Writes that keep every mint a mint keep token accounts attached. *)
Lemma shape_mint_insert m k b :
  token_inv m ->
  (forall a au su, m !! k = Some a -> data a = Mint au su -> exists au' su', data b = Mint au' su') ->
  (forall mint au n, data b = Token mint au n ->
     mint <> k /\ exists ma mau su, m !! mint = Some ma /\ data ma = Mint mau su) ->
  forall k' a' mint au n, <[k:=b]> m !! k' = Some a' -> data a' = Token mint au n ->
    exists ma mau su, <[k:=b]> m !! mint = Some ma /\ data ma = Mint mau su.
Proof.
  intros Hinv Hkeep Hnew k' a' mint au n Hk' Hd.
  assert (Hm : exists ma mau su, m !! mint = Some ma /\ data ma = Mint mau su).
  { rewrite lookup_insert in Hk'. case_decide.
    - simplify_eq. by apply (Hnew mint au n).
    - by eapply inv_mint. }
  destruct Hm as (ma & mau & su & Hma & Hmd).
  destruct (decide (k = mint)) as [->|Hne].
  - rewrite lookup_insert_eq. destruct (Hkeep _ _ _ Hma Hmd) as (au' & su' & E). eauto.
  - rewrite lookup_insert_ne by done. eauto.
Qed.

(** An account replaced by one with the same payload. *)
Lemma token_inv_same_data m k a b :
  token_inv m -> m !! k = Some a -> data b = data a ->
  match data a with Token _ _ _ | Mint _ _ => owner b = owner a | _ => True end ->
  token_inv (<[k:=b]> m).
Proof.
  intros Hinv Hk Hd Ho. pose proof (inv_owner _ Hinv _ _ Hk) as Hown.
  assert (Hc : forall mint, circulating (<[k:=b]> m) mint = circulating m mint).
  { intros mint. rewrite circulating_insert, Hk. simpl. unfold held. rewrite Hd. lia. }
  constructor.
  - apply shape_owner_insert; [done|]. rewrite Hd. destruct (data a); congruence || done.
  - apply shape_mint_insert; [done| |].
    + intros a0 au su Ha0 Hd0. simplify_eq. rewrite Hd, Hd0. eauto.
    + intros mint au n Hb. rewrite Hd in Hb.
      destruct (inv_mint _ Hinv _ _ _ _ _ Hk Hb) as (ma & mau & su & Hma & Hmd).
      split; [|eauto]. intros ->. congruence.
  - intros mint a' au su. rewrite Hc, lookup_insert. case_decide.
    + intros [= <-] Hd'. subst. apply (inv_supply _ Hinv mint a au su); congruence.
    + apply Hinv.
Qed.

(** A fresh account with another kind of payload. *)
Lemma token_inv_fresh m k b :
  token_inv m -> m !! k = None ->
  match data b with Token _ _ _ | Mint _ _ => False | _ => True end ->
  token_inv (<[k:=b]> m).
Proof.
  intros Hinv Hk Hb.
  assert (Hc : forall mint, circulating (<[k:=b]> m) mint = circulating m mint).
  { intros mint. rewrite circulating_insert, Hk. simpl. rewrite held_other; [lia|].
    intros ??? E. by rewrite E in Hb. }
  constructor.
  - apply shape_owner_insert; [done|]. by destruct (data b).
  - apply shape_mint_insert; [done|naive_solver|]. intros mint au n E. by rewrite E in Hb.
  - intros mint a' au su. rewrite Hc, lookup_insert. case_decide.
    + intros [= <-] E. by rewrite E in Hb.
    + apply Hinv.
Qed.

Lemma token_inv_empty : token_inv ∅.
Proof. constructor; intros; simplify_map_eq. Qed.

(** Token accounts of the same mint: moving an amount keeps what circulates. *)
Lemma circulating_two m k1 k2 a1 a2 b1 b2 mint :
  k1 <> k2 -> m !! k1 = Some a1 -> m !! k2 = Some a2 ->
  circulating (<[k2:=b2]> (<[k1:=b1]> m)) mint =
  circulating m mint - held mint a1 + held mint b1 - held mint a2 + held mint b2.
Proof.
  intros Hne H1 H2. rewrite !circulating_insert, lookup_insert_ne, H1, H2 by done. simpl. lia.
Qed.

Lemma token_inv_two m k1 k2 a1 a2 b1 b2 :
  token_inv m -> k1 <> k2 -> m !! k1 = Some a1 -> m !! k2 = Some a2 ->
  same_kind a1 b1 -> same_kind a2 b2 ->
  (forall mint a au su, <[k2:=b2]> (<[k1:=b1]> m) !! mint = Some a -> data a = Mint au su ->
     circulating m mint - held mint a1 + held mint b1 - held mint a2 + held mint b2 = su) ->
  token_inv (<[k2:=b2]> (<[k1:=b1]> m)).
Proof.
  intros Hinv Hne H1 H2 [Ho1 Hk1] [Ho2 Hk2] Hsup.
  pose proof (inv_owner _ Hinv _ _ H1) as Hw1. pose proof (inv_owner _ Hinv _ _ H2) as Hw2.
  constructor.
  - intros k a. rewrite !lookup_insert. repeat case_decide; [intros [= <-]..|by apply Hinv].
    + revert Hw2 Hk2. generalize (data a2), (data b2). intros [] [] ? ?; try done; congruence.
    + revert Hw1 Hk1. generalize (data a1), (data b1). intros [] [] ? ?; try done; congruence.
  - intros k a mint au n Hk Hd.
    assert (Hm : exists ma mau su, m !! mint = Some ma /\ data ma = Mint mau su).
    { rewrite !lookup_insert in Hk. repeat case_decide; simplify_eq.
      - destruct (data a2) eqn:E2; rewrite Hd in Hk2; try done. destruct Hk2; subst.
        by apply (inv_mint _ Hinv _ _ _ _ _ H2 E2).
      - destruct (data a1) eqn:E1; rewrite Hd in Hk1; try done. destruct Hk1; subst.
        by apply (inv_mint _ Hinv _ _ _ _ _ H1 E1).
      - by apply (inv_mint _ Hinv _ _ _ _ _ Hk Hd). }
    destruct Hm as (ma & mau & su & Hma & Hmd). rewrite !lookup_insert.
    repeat case_decide; simplify_eq; [..|eauto].
    + rewrite Hmd in Hk2. destruct (data b2) eqn:?; try done. eauto.
    + rewrite Hmd in Hk1. destruct (data b1) eqn:?; try done. eauto.
  - intros mint a au su Hm Hd. rewrite (circulating_two m k1 k2 a1 a2) by done. eauto.
Qed.

(** Every token rule preserves the invariant. *)
Lemma token_step_inv metas signer keys m i m' :
  token_inv m -> token_step metas signer keys m i m' -> token_inv m'.
Proof.
  intros Hinv Hstep. destruct Hstep as
    [meta rest -> Hk Hnone
    |mint meta0 meta1 meta2 rest nk ma au su -> H0 H1 H2 Hma [Hmo Hmd] Hnone
    |n meta0 meta1 rest from to fa ta mint ta_au fb tb -> H0 H1 Hne Hf Ht [Hfo Hfd] [Hto Htd] Hle Hmax
    |n meta0 meta1 rest mint dest ma da su da_au db -> H0 H1 Hma Hda [Hmo Hmd] [Hdo Hdd] Hs Hd
    |n meta0 meta1 rest mint tok ma ta ma_au su tb -> H0 H1 Hma Hta [Hmo Hmd] [Hto Htd] Hle Hs].
  - assert (Hno : forall k a au n, m !! k = Some a -> data a <> Token signer au n).
    { intros k a au n Hka Hd. destruct (inv_mint _ Hinv _ _ _ _ _ Hka Hd) as (?&?&?&?&_). congruence. }
    constructor.
    + by apply shape_owner_insert.
    + apply shape_mint_insert; [done|naive_solver|done].
    + intros mint a au su. rewrite circulating_insert, Hnone, lookup_insert. simpl.
      unfold held at 1. simpl. case_decide.
      * intros [= <-] [= <- <-]. subst. rewrite circulating_zero by done. lia.
      * intros Ha Hd. rewrite (inv_supply _ Hinv _ _ _ _ Ha Hd). lia.
  - constructor.
    + by apply shape_owner_insert.
    + apply shape_mint_insert; [done|naive_solver|].
      intros mint' au' n' [= <- <- <-]. split; [congruence|eauto].
    + intros mint' a' au' su'. rewrite circulating_insert, Hnone, lookup_insert. simpl.
      assert (held mint' (new_token_account nk mint signer 0) = 0) as ->
        by (unfold held; simpl; by case_decide).
      case_decide; [by intros [= <-]|]. intros Ha Hd.
      rewrite (inv_supply _ Hinv _ _ _ _ Ha Hd). lia.
  - eapply token_inv_two; [done|done|done|done|by eapply same_kind_amount|by eapply same_kind_amount|].
    intros mint' a au su Hm' Hd'.
    rewrite (held_token _ fa _ _ _ Hfd), (held_token _ ta _ _ _ Htd).
    rewrite (held_set_amount _ fa _ _ _ _ Hfd), (held_set_amount _ ta _ _ _ _ Htd).
    rewrite !lookup_insert in Hm'. repeat case_decide; simplify_eq;
      try (rewrite ?(data_set_amount _ _ _ _ _ Hfd), ?(data_set_amount _ _ _ _ _ Htd) in Hd'; done);
      rewrite (inv_supply _ Hinv _ _ _ _ Hm' Hd'); lia.
  - assert (Hne : mint <> dest) by congruence.
    eapply token_inv_two; [done|done|done|done|by eapply same_kind_supply|by eapply same_kind_amount|].
    intros mint' a au' su' Hm' Hd'.
    rewrite (held_mint _ ma _ _ Hmd), (held_set_supply _ ma _ _ _ Hmd).
    rewrite (held_token _ da _ _ _ Hdd), (held_set_amount _ da _ _ _ _ Hdd).
    rewrite !lookup_insert in Hm'. repeat case_decide; simplify_eq;
      rewrite ?(data_set_amount _ _ _ _ _ Hdd), ?(data_set_supply _ _ _ _ Hmd) in Hd'; simplify_eq.
    + rewrite (inv_supply _ Hinv _ _ _ _ Hma Hmd). lia.
    + rewrite (inv_supply _ Hinv _ _ _ _ Hm' Hd'). lia.
  - assert (Hne : mint <> tok) by congruence.
    eapply token_inv_two; [done|done|done|done|by eapply same_kind_supply|by eapply same_kind_amount|].
    intros mint' a au' su' Hm' Hd'.
    rewrite (held_mint _ ma _ _ Hmd), (held_set_supply _ ma _ _ _ Hmd).
    rewrite (held_token _ ta _ _ _ Htd), (held_set_amount _ ta _ _ _ _ Htd).
    rewrite !lookup_insert in Hm'. repeat case_decide; simplify_eq;
      rewrite ?(data_set_amount _ _ _ _ _ Htd), ?(data_set_supply _ _ _ _ Hmd) in Hd'; simplify_eq.
    + rewrite (inv_supply _ Hinv _ _ _ _ Hma Hmd). lia.
    + rewrite (inv_supply _ Hinv _ _ _ _ Hm' Hd'). lia.
Qed.

(** Lamports the token rules create: [InitializeMint] writes an account with a
    rent reserve that nobody paid. *)
Definition token_minted_lamports (i : TokenInstruction.t) : Z :=
  match i with
  | TokenInstruction.InitializeMint => MINIMUM_RENT_EXEMPT_BALANCE
  | _ => 0
  end.

Lemma lamports_set_amount a n : lamports (set_token_amount a n) = lamports a.
Proof. unfold set_token_amount. by destruct (data a). Qed.
Lemma lamports_set_supply a n : lamports (set_mint_supply a n) = lamports a.
Proof. unfold set_mint_supply. by destruct (data a). Qed.

Lemma supply_insert_same m k a b :
  m !! k = Some a -> lamports b = lamports a -> supply (<[k:=b]> m) = supply m.
Proof. intros Hk Hl. rewrite supply_insert', Hl. unfold balance. rewrite Hk. simpl. lia. Qed.

Lemma supply_insert_new m k b : m !! k = None -> supply (<[k:=b]> m) = supply m + lamports b.
Proof. intros Hk. rewrite supply_insert'. unfold balance. rewrite Hk. simpl. lia. Qed.

Lemma token_step_supply metas signer keys m i m' :
  token_step metas signer keys m i m' -> supply m' = supply m + token_minted_lamports i.
Proof.
  intros Hstep. destruct Hstep as
    [meta rest -> Hk Hnone
    |mint meta0 meta1 meta2 rest nk ma au su -> H0 H1 H2 Hma [Hmo Hmd] Hnone
    |n meta0 meta1 rest from to fa ta mint ta_au fb tb -> H0 H1 Hne Hf Ht [Hfo Hfd] [Hto Htd] Hle Hmax
    |n meta0 meta1 rest mint dest ma da su da_au db -> H0 H1 Hma Hda [Hmo Hmd] [Hdo Hdd] Hs Hd
    |n meta0 meta1 rest mint tok ma ta ma_au su tb -> H0 H1 Hma Hta [Hmo Hmd] [Hto Htd] Hle Hs];
    simpl token_minted_lamports.
  1,2: by rewrite supply_insert_new.
  all: rewrite Z.add_0_r; erewrite supply_insert_same;
    [eapply supply_insert_same; [eassumption | apply lamports_set_amount || apply lamports_set_supply]
    |rewrite lookup_insert_ne; [eassumption|congruence]
    |apply lamports_set_amount].
Qed.





Section TokenProperties.
Context {DB : Type} `{Laws : AccountsStoreLaws DB}.
Implicit Types (s : VmState DB).

(** C16. Token conservation: every token instruction, successful or failed,
    preserves that token accounts name existing mints, that mints and token
    accounts belong to the token program, and that each mint's recorded supply
    is exactly the sum of the balances held in its token accounts. *)
Theorem token_conservation ixd metas signer keys s s' r :
  db_wf (vm_db s) -> arr32 signer -> bytes_ok ixd ->
  token_process_instruction ixd metas signer keys s = (s', r) ->
  token_inv (db_view (vm_db s)) -> token_inv (db_view (vm_db s')).
Proof.
  intros Hwf Hs Hd Hrun Hinv. destruct r as [[]|e].
  - apply token_refines in Hrun as (_ & i & _ & Hstep); [|done|done|done].
    by eapply token_step_inv.
  - apply token_fail_unchanged in Hrun. by rewrite Hrun.
Qed.

End TokenProperties.
