(* ===== verification/Processor.v ===== *)
(** * The instruction processor ([crates/program-executor/src/processor.rs])

    Dispatch of an instruction to the system program, the token program or a
    deployed program account, with its compute budget and log lines, and what
    one instruction can do to the ledger as a whole. *)

From S2P Require Import Prelude Crypto Account Store Instruction Vm SystemProgram TokenProgram.
Import InstructionError.
Open Scope Z_scope.
Open Scope trust_scope.

Section Processor.
Context {DB : Type} `{Store : AccountsStore DB}.

(** The [match instruction.program_id { .. }] of [process_instruction]; the
    boolean tells a budget failure of the dispatcher itself, which returns
    before the closing log line, from the outcome of the program. *)
Definition dispatch (instruction : Instruction) (signer : bytes) (account_keys : list bytes)
    : Prog (VmState DB) (bool * InstructionError.t) unit := fun s =>
  let early '(s', r) := (s', match r with Ok u => Ok u | Err e => Err (true, e) end) in
  let late '(s', r) := (s', match r with Ok u => Ok u | Err e => Err (false, e) end) in
  if bool_decide (program_id instruction = fill32 1) then
    (pbind (fun s => early (consume 150 s)) (fun _ s =>
       late (system_process_instruction (ix_data instruction) (account_metas instruction)
               signer account_keys s))) s
  else if bool_decide (program_id instruction = fill32 2) then
    (pbind (fun s => early (consume 150 s)) (fun _ s =>
       late (token_process_instruction (ix_data instruction) (account_metas instruction)
               signer account_keys s))) s
  else
    match db_load (vm_db s) (program_id instruction) with
    | Some account =>
        if executable account then
          (pbind (fun s => early (consume 500 s)) (fun _ =>
             pfail (false, ProgramError "program is deployed but no SBF runtime is linked"))) s
        else (s, Err (false, InvalidAccountOwner))
    | None => (s, Err (false, AccountNotFound))
    end.

(** [InstructionProcessor::process_instruction] *)
Definition process_instruction (accounts : DB) (instruction : Instruction) (signer : bytes)
    (account_keys : list bytes) : DB * InstructionResult :=
  let s := mkVm accounts (budget_new DEFAULT_COMPUTE_UNITS)
                ["Program " +:+ hex_encode (take 4 (program_id instruction))] in
  match dispatch instruction signer account_keys s with
  | (s', Ok _) =>
      let units := budget_consumed (vm_budget s') in
      (vm_db s',
       with_logs true units None
         (vm_logs s' ++ ["Program success (" +:+ dec units +:+ " compute units)"]))
  | (s', Err (true, e)) =>
      (vm_db s', with_logs false (budget_consumed (vm_budget s')) (Some e) (vm_logs s'))
  | (s', Err (false, e)) =>
      (vm_db s',
       with_logs false (budget_consumed (vm_budget s')) (Some e)
         (vm_logs s' ++ ["Program failed: " +:+ display e]))
  end.
End Processor.

(** ** Abstract ledger rule of one instruction *)

Inductive ledger_step (ix : Instruction) (signer : bytes) (keys : list bytes)
    (m m' : gmap bytes Account) : Prop :=
  | ledger_system i :
      program_id ix = system_program_id -> SystemInstruction.from_data (ix_data ix) = Ok i ->
      system_step (account_metas ix) signer keys m i m' -> ledger_step ix signer keys m m'
  | ledger_token i :
      program_id ix = token_program_id -> TokenInstruction.from_data (ix_data ix) = Ok i ->
      token_step (account_metas ix) signer keys m i m' -> ledger_step ix signer keys m m'.

(** The dispatcher charges 150 before the program's own cost, so the default
    budget of 150000 always covers an instruction. *)
Lemma default_budget_covers_system {DB} (db : DB) l i :
  budget_covers (vm_budget (charged (mkVm db (budget_new DEFAULT_COMPUTE_UNITS) l) 150))
                (system_cost i).
Proof. destruct i; unfold budget_covers, DEFAULT_COMPUTE_UNITS; simpl; u64_unfold; lia. Qed.
Lemma default_budget_covers_token {DB} (db : DB) l i :
  budget_covers (vm_budget (charged (mkVm db (budget_new DEFAULT_COMPUTE_UNITS) l) 150))
                (token_cost i).
Proof. destruct i; unfold budget_covers, DEFAULT_COMPUTE_UNITS; simpl; u64_unfold; lia. Qed.

Section ProcessorCorrect.
Context {DB : Type} `{Laws : AccountsStoreLaws DB}.
Implicit Types (db : DB).

(** The dispatcher's own charge never fails under the default budget. *)
Lemma dispatch_charge db l n :
  0 <= n <= 500 ->
  consume n (mkVm db (budget_new DEFAULT_COMPUTE_UNITS) l) =
    (charged (mkVm db (budget_new DEFAULT_COMPUTE_UNITS) l) n, Ok tt).
Proof.
  intros Hn. rewrite consume_ok; [done|].
  unfold budget_covers, DEFAULT_COMPUTE_UNITS. simpl. u64_unfold. lia.
Qed.

(** The three outcomes of an instruction. *)
Lemma process_instruction_cases db ix signer keys db' res :
  process_instruction db ix signer keys = (db', res) ->
  (res_success res = true /\ exists s s',
     vm_db s = db /\ vm_db s' = db' /\
     (program_id ix = system_program_id /\
      system_process_instruction (ix_data ix) (account_metas ix) signer keys s = (s', Ok tt) \/
      program_id ix = token_program_id /\
      token_process_instruction (ix_data ix) (account_metas ix) signer keys s = (s', Ok tt))) \/
  (res_success res = false /\ db' = db /\ is_Some (res_error res)).
Proof.
  unfold process_instruction, dispatch. cbv beta zeta.
  case_bool_decide as E1; [|case_bool_decide as E2]; cbv [pbind]; rewrite ?dispatch_charge by lia.
  - destruct (system_process_instruction _ _ _ _ _) as [s' [[]|e]] eqn:Hrun; intros [= <- <-].
    + left. split; [reflexivity|]. eexists _, s'. split_and!; [| |left; split; [exact E1|exact Hrun]]; reflexivity.
    + right. apply system_fail_unchanged in Hrun. split_and!; [reflexivity|exact Hrun|by eexists].
  - destruct (token_process_instruction _ _ _ _ _) as [s' [[]|e]] eqn:Hrun; intros [= <- <-].
    + left. split; [reflexivity|]. eexists _, s'. split_and!; [| |right; split; [exact E2|exact Hrun]]; reflexivity.
    + right. apply token_fail_unchanged in Hrun. split_and!; [reflexivity|exact Hrun|by eexists].
  - destruct (db_load _ _) as [a|]; [destruct (executable a)|]; intros [= <- <-];
      right; (split_and!; [reflexivity|reflexivity|by eexists]).
Qed.

(** A failing instruction leaves the accounts as they were and reports why. *)
Lemma process_instruction_fail db ix signer keys db' res :
  process_instruction db ix signer keys = (db', res) -> res_success res = false ->
  db' = db /\ is_Some (res_error res).
Proof. intros Hrun Hf. apply process_instruction_cases in Hrun as [[? _]|(_&?&?)]; [congruence|done]. Qed.

(** A successful one took a rule. *)
Lemma process_instruction_ok db ix signer keys db' res :
  db_wf db -> arr32 signer -> bytes_ok (ix_data ix) ->
  process_instruction db ix signer keys = (db', res) -> res_success res = true ->
  db_wf db' /\ ledger_step ix signer keys (db_view db) (db_view db').
Proof.
  intros Hwf Hs Hd Hrun Hok.
  apply process_instruction_cases in Hrun as [(_ & s & s' & <- & <- & [[Hp Hrun]|[Hp Hrun]])|[? _]];
    [| |congruence].
  - apply system_refines in Hrun as (Hwf' & i & Hi & Hstep); [|done|done].
    split; [done|]. by eapply ledger_system.
  - apply token_refines in Hrun as (Hwf' & i & Hi & Hstep); [|done|done|done].
    split; [done|]. by eapply ledger_token.
Qed.

(** A rule that applies is taken: the default budget is always enough. *)
Lemma process_instruction_complete db ix signer keys m' :
  db_wf db -> arr32 signer -> bytes_ok (ix_data ix) ->
  ledger_step ix signer keys (db_view db) m' ->
  exists db' res, process_instruction db ix signer keys = (db', res) /\
    res_success res = true /\ db_view db' = m'.
Proof.
  intros Hwf Hs Hd Hstep. destruct Hstep as [i Hp Hi Hstep|i Hp Hi Hstep].
  - set (s := charged (mkVm db (budget_new DEFAULT_COMPUTE_UNITS)
       ["Program " +:+ hex_encode (take 4 (program_id ix))]) 150).
    destruct (step_system_runs (ix_data ix) (account_metas ix) signer keys s i m' Hwf Hd Hi) as [s' Hrun];
      [apply default_budget_covers_system|done|].
    pose proof (system_refines _ _ _ _ s s' Hwf Hd Hrun) as (_ & i' & Hi' & Hstep').
    rewrite Hi in Hi'. injection Hi' as <-.
    eexists _, _. split; [|split; [|by apply (system_step_det _ _ _ _ _ _ _ Hstep' Hstep)]].
    + unfold process_instruction, dispatch. cbv beta zeta. rewrite bool_decide_eq_true_2 by done.
      cbv [pbind]. rewrite dispatch_charge by lia. fold s. by rewrite Hrun.
    + done.
  - set (s := charged (mkVm db (budget_new DEFAULT_COMPUTE_UNITS)
       ["Program " +:+ hex_encode (take 4 (program_id ix))]) 150).
    destruct (step_token_runs (ix_data ix) (account_metas ix) signer keys s i m' Hwf Hd Hi) as [s' Hrun];
      [apply default_budget_covers_token|done|].
    pose proof (token_refines _ _ _ _ s s' Hwf Hs Hd Hrun) as (_ & i' & Hi' & Hstep').
    rewrite Hi in Hi'. injection Hi' as <-.
    eexists _, _. split; [|split; [|by apply (token_step_det _ _ _ _ _ _ _ Hstep' Hstep)]].
    + unfold process_instruction, dispatch. cbv beta zeta.
      rewrite bool_decide_eq_false_2 by (rewrite Hp; by intros [=]).
      rewrite bool_decide_eq_true_2 by done.
      cbv [pbind]. rewrite dispatch_charge by lia. fold s. by rewrite Hrun.
    + done.
Qed.
End ProcessorCorrect.

(** ** What one instruction can do to the ledger *)

(** The system rules keep the token invariant: they change balances and the
    owner of system-owned accounts only, or create accounts with plain data. *)
Lemma system_step_token_inv metas signer keys m i m' :
  token_inv m -> system_step metas signer keys m i m' -> token_inv m'.
Proof.
  intros Hinv Hstep. destruct Hstep as [n fm tm rest to fa -> Hfrom Hto Hf Hle Hmax
    |n sp o pm nm rest nk p -> Hp Hn Hsp Hnone Hsome Hle|o meta rest a -> Hk Hm Ho].
  - assert (H1 : token_inv (<[signer:=set_lamports fa (lamports fa - n)]> m))
      by (apply (token_inv_same_data m signer fa); try done; by destruct (data fa)).
    unfold account_or_new. destruct (m !! to) as [ta|] eqn:Eto; simpl.
    + destruct (decide (signer = to)) as [->|Hne].
      * rewrite insert_insert_eq. simplify_eq.
        apply (token_inv_same_data m to fa); try done. by destruct (data fa).
      * apply (token_inv_same_data _ to ta); try done; [by rewrite lookup_insert_ne|].
        by destruct (data ta).
    + apply token_inv_fresh; [done| |done]. rewrite lookup_insert_ne; congruence.
  - apply token_inv_fresh; [|rewrite lookup_insert_ne; congruence|done].
    apply (token_inv_same_data m signer p); try done. by destruct (data p).
  - apply (token_inv_same_data m signer a); try done.
    pose proof (inv_owner _ Hinv _ _ Hm) as Hown. rewrite Ho in Hown.
    by destruct (data a).
Qed.

Lemma ledger_step_token_inv ix signer keys m m' :
  token_inv m -> ledger_step ix signer keys m m' -> token_inv m'.
Proof. intros Hinv []; eauto using system_step_token_inv, token_step_inv. Qed.

(** The metas whose accounts a program writes, and the keys they resolve to. *)
Definition written_metas (ix : Instruction) : list AccountMeta :=
  if bool_decide (program_id ix = system_program_id) then
    match SystemInstruction.from_data (ix_data ix) with
    | Ok (SystemInstruction.Assign _) => take 1 (account_metas ix)
    | _ => take 2 (account_metas ix)
    end
  else
    match TokenInstruction.from_data (ix_data ix) with
    | Ok TokenInstruction.InitializeMint => take 1 (account_metas ix)
    | Ok (TokenInstruction.InitializeAccount _) => take 1 (drop 1 (account_metas ix))
    | _ => take 2 (account_metas ix)
    end.
Definition written_keys (ix : Instruction) (keys : list bytes) : list bytes :=
  omap (fun meta => keys !! meta_index meta) (written_metas ix).

Lemma ledger_step_frame ix signer keys m m' k :
  ledger_step ix signer keys m m' -> k ∉ written_keys ix keys -> m' !! k = m !! k.
Proof.
  intros Hstep Hk.
  assert (Hne : forall meta j, meta ∈ written_metas ix -> keys !! meta_index meta = Some j -> j <> k).
  { intros meta j Hin Hj ->. apply Hk, list_elem_of_omap. eauto. }
  unfold written_metas in Hne.
  destruct Hstep as [i Hp Hi Hstep|i Hp Hi Hstep].
  - rewrite bool_decide_eq_true_2, Hi in Hne by done. destruct Hstep;
      match goal with E : account_metas ix = _ |- _ => rewrite E in Hne end;
      rewrite !lookup_insert_ne; try done; (eapply Hne; [|eassumption]; set_solver).
  - rewrite bool_decide_eq_false_2, Hi in Hne by (rewrite Hp; by intros [=]). destruct Hstep;
      match goal with E : account_metas ix = _ |- _ => rewrite E in Hne end;
      rewrite !lookup_insert_ne; try done; (eapply Hne; [|eassumption]; set_solver).
Qed.

(** No rule removes an account. *)
Lemma ledger_step_keeps ix signer keys m m' k :
  ledger_step ix signer keys m m' -> is_Some (m !! k) -> is_Some (m' !! k).
Proof.
  intros [i _ _ Hstep|i _ _ Hstep] Hk; destruct Hstep; rewrite !lookup_insert;
    repeat case_decide; eauto.
Qed.

(** Lamports the token program's [InitializeMint] and a transfer to oneself
    add to the supply; everything else is neutral. *)
Definition ledger_minted (ix : Instruction) (signer : bytes) (keys : list bytes) : Z :=
  if bool_decide (program_id ix = system_program_id) then
    match SystemInstruction.from_data (ix_data ix) with
    | Ok (SystemInstruction.Transfer n) =>
        if self_transfer (account_metas ix) signer keys (SystemInstruction.Transfer n) then n else 0
    | _ => 0
    end
  else match TokenInstruction.from_data (ix_data ix) with
       | Ok i => token_minted_lamports i
       | Err _ => 0
       end.

Lemma ledger_step_supply ix signer keys m m' :
  ledger_step ix signer keys m m' -> supply m' = supply m + ledger_minted ix signer keys.
Proof.
  unfold ledger_minted. intros [i Hp Hi Hstep|i Hp Hi Hstep].
  - rewrite bool_decide_eq_true_2, Hi by done. rewrite (system_step_supply _ _ _ _ _ _ Hstep).
    by destruct i; simpl; try case_match.
  - rewrite bool_decide_eq_false_2, Hi by (rewrite Hp; by intros [=]).
    apply (token_step_supply _ _ _ _ _ _ Hstep).
Qed.

Section ProcessorProperties.
Context {DB : Type} `{Laws : AccountsStoreLaws DB}.
Implicit Types (db : DB).

(** C12. The instruction processor decides the ledger rules: an instruction
    reports success exactly when some rule of the program it names applies and
    then leaves the accounts that rule gives; otherwise (unknown or undeployed
    program, bad data, missing authority or funds, ...) it reports an error and
    the database is untouched. *)
Theorem process_instruction_decides db ix signer keys :
  db_wf db -> arr32 signer -> bytes_ok (ix_data ix) ->
  let '(db', res) := process_instruction db ix signer keys in
  db_wf db' /\
  if res_success res then ledger_step ix signer keys (db_view db) (db_view db')
  else db' = db /\ is_Some (res_error res) /\ forall m', ~ ledger_step ix signer keys (db_view db) m'.
Proof.
  intros Hwf Hs Hd. destruct (process_instruction db ix signer keys) as [db' res] eqn:Hrun.
  destruct (res_success res) eqn:Hok.
  - by apply (process_instruction_ok _ _ _ _ _ res).
  - pose proof (process_instruction_fail _ _ _ _ _ _ Hrun Hok) as [-> He].
    split_and!; [done|done|done|]. intros m' Hstep.
    apply process_instruction_complete in Hstep as (db' & res' & Hrun' & Hok' & _); [|done|done|done].
    congruence.
Qed.

(** One instruction of any program keeps the whole ledger consistent:
    the token invariant holds afterwards, accounts other than the ones
    its written metas resolve to are untouched, and the lamport supply changes only
    by the two sources [ledger_minted] names. *)
Theorem process_instruction_safe db ix signer keys :
  db_wf db -> arr32 signer -> bytes_ok (ix_data ix) -> token_inv (db_view db) ->
  let '(db', res) := process_instruction db ix signer keys in
  token_inv (db_view db') /\
  (forall k, k ∉ written_keys ix keys -> db_view db' !! k = db_view db !! k) /\
  supply (db_view db') =
    supply (db_view db) + (if res_success res then ledger_minted ix signer keys else 0).
Proof.
  intros Hwf Hs Hd Hinv. destruct (process_instruction db ix signer keys) as [db' res] eqn:Hrun.
  destruct (res_success res) eqn:Hok.
  - apply process_instruction_ok in Hrun as [_ Hstep]; [|done..].
    split_and!; [by eapply ledger_step_token_inv|by intros; eapply ledger_step_frame|
                 by apply ledger_step_supply].
  - pose proof (process_instruction_fail _ _ _ _ _ _ Hrun Hok) as [-> _].
    split_and!; [done|done|lia].
Qed.
End ProcessorProperties.
