(* ===== verification/Transaction.v ===== *)
(** * Transactions ([crates/tx-processor/src/transaction.rs])

    The transaction record, the byte string its signature covers, the accounts
    it reads and writes, conflicts between transactions and validation. *)

From S2P Require Import Prelude Crypto Account Store Instruction.
Open Scope Z_scope.

(** [struct AccountMeta] of the transaction processor (a [u8] index) *)
Record TxMeta := mkTxMeta {
  tm_index : Z;
  tm_is_signer : bool;
  tm_is_writable : bool
}.

(** [struct Instruction] of the transaction processor *)
Record TxInstruction := mkTxIx {
  ti_program_id : bytes;
  ti_accounts : list TxMeta;
  ti_data : bytes
}.

(** [struct Transaction] *)
Record Transaction := mkTx {
  tx_signature : bytes;
  tx_signer : bytes;
  tx_account_keys : list bytes;
  tx_instructions : list TxInstruction;
  tx_recent_blockhash : bytes;
  tx_compute_budget : Z;
  tx_fee : Z
}.

#[export] Instance TxMeta_eq_dec : EqDecision TxMeta.
Proof. solve_decision. Defined.
#[export] Instance TxInstruction_eq_dec : EqDecision TxInstruction.
Proof. solve_decision. Defined.
#[export] Instance Transaction_eq_dec : EqDecision Transaction.
Proof. solve_decision. Defined.

#[export] Instance TxMeta_countable : Countable TxMeta.
Proof.
  apply (inj_countable' (fun m => (tm_index m, tm_is_signer m, tm_is_writable m))
    (fun '(i, s, w) => mkTxMeta i s w)). by intros [].
Defined.
#[export] Instance TxInstruction_countable : Countable TxInstruction.
Proof.
  apply (inj_countable (fun x => [encode (ti_program_id x); encode (ti_accounts x); encode (ti_data x)])
    (fun l => match l with
              | [a; b; c] => va ← decode a; vb ← decode b; vc ← decode c; Some (mkTxIx va vb vc)
              | _ => None
              end)).
  intros []. cbn. by rewrite !decode_encode.
Defined.
#[export] Instance Transaction_countable : Countable Transaction.
Proof.
  apply (inj_countable (fun x => [encode (tx_signature x); encode (tx_signer x); encode (tx_account_keys x); encode (tx_instructions x); encode (tx_recent_blockhash x); encode (tx_compute_budget x); encode (tx_fee x)])
    (fun l => match l with
              | [a; b; c; d; e; f; g] => va ← decode a; vb ← decode b; vc ← decode c; vd ← decode d; ve ← decode e; vf ← decode f; vg ← decode g; Some (mkTx va vb vc vd ve vf vg)
              | _ => None
              end)).
  intros []. cbn. by rewrite !decode_encode.
Defined.

(** Values of the Rust types whose vectors have fewer than 2^32 elements. *)
Definition meta_ok (m : TxMeta) : Prop := is_byte (tm_index m).
Definition len32 {A} (l : list A) : Prop := Z.of_nat (length l) < 4294967296.
Definition ix_ok (i : TxInstruction) : Prop :=
  arr32 (ti_program_id i) /\ Forall meta_ok (ti_accounts i) /\ bytes_ok (ti_data i) /\
  len32 (ti_accounts i) /\ len32 (ti_data i).
Definition tx_ok (t : Transaction) : Prop :=
  bytes_ok (tx_signature t) /\ arr32 (tx_signer t) /\ Forall arr32 (tx_account_keys t) /\
  len32 (tx_account_keys t) /\ Forall ix_ok (tx_instructions t) /\
  arr32 (tx_recent_blockhash t) /\ is_u64 (tx_compute_budget t) /\ is_u64 (tx_fee t).

#[export] Instance meta_ok_dec m : Decision (meta_ok m).
Proof. unfold meta_ok. apply _. Defined.
#[export] Instance len32_dec {A} (l : list A) : Decision (len32 l).
Proof. unfold len32. apply _. Defined.
#[export] Instance ix_ok_dec i : Decision (ix_ok i).
Proof. unfold ix_ok. apply _. Defined.
#[export] Instance tx_ok_dec t : Decision (tx_ok t).
Proof. unfold tx_ok. apply _. Defined.

(** [Transaction::new] *)
Definition transaction_new (signer : bytes) (instructions : list TxInstruction)
    (recent_blockhash : bytes) : Transaction :=
  mkTx [] signer [signer] instructions recent_blockhash 200000 5000.

(** [(n as u32).to_le_bytes()] *)
Definition len_prefix {A} (l : list A) : bytes := le_bytes 4 (wrap32 (Z.of_nat (length l))).

Definition meta_message (m : TxMeta) : bytes :=
  [tm_index m; b2z (tm_is_signer m); b2z (tm_is_writable m)].

Definition instruction_message (ix : TxInstruction) : bytes :=
  ti_program_id ix ++ len_prefix (ti_accounts ix) ++ mjoin (meta_message <$> ti_accounts ix) ++
  len_prefix (ti_data ix) ++ ti_data ix.

(** The bytes fed to the hasher by [Transaction::hash]. *)
Definition tx_message (t : Transaction) : bytes :=
  tx_signer t ++ tx_recent_blockhash t ++ le_bytes 8 (tx_fee t) ++
  le_bytes 8 (tx_compute_budget t) ++ len_prefix (tx_account_keys t) ++
  mjoin (tx_account_keys t) ++ mjoin (instruction_message <$> tx_instructions t).

(** [Transaction::hash] *)
Definition tx_hash `{Sha256} (t : Transaction) : bytes := sha256 (tx_message t).

Definition set_signature (t : Transaction) (pk s : bytes) : Transaction :=
  mkTx s pk (tx_account_keys t) (tx_instructions t) (tx_recent_blockhash t)
       (tx_compute_budget t) (tx_fee t).

(** [Transaction::sign] *)
Definition tx_sign `{Sha256, Ed25519} (t : Transaction) (key : SigningKey) : Transaction :=
  let t1 := set_signature t (verifying_key key) (tx_signature t) in
  set_signature t1 (tx_signer t1) (ed_sign key (tx_hash t1)).

(** [Transaction::resolve] *)
Definition resolve (t : Transaction) (index : Z) : option bytes :=
  tx_account_keys t !! Z.to_nat index.

(** [Transaction::read_accounts], [Transaction::write_accounts] *)
Definition accounts_where (f : TxMeta -> bool) (t : Transaction) : list bytes :=
  mjoin ((fun ix => omap (fun a => if f a then resolve t (tm_index a) else None) (ti_accounts ix))
         <$> tx_instructions t).
Definition read_accounts : Transaction -> list bytes := accounts_where (fun a => negb (tm_is_writable a)).
Definition write_accounts : Transaction -> list bytes := accounts_where tm_is_writable.

Definition contains (l : list bytes) (k : bytes) : bool := bool_decide (k ∈ l).

(** [Transaction::conflicts_with] *)
Definition conflicts_with (t other : Transaction) : bool :=
  existsb (fun w => contains (write_accounts other) w || contains (read_accounts other) w)
          (write_accounts t) ||
  existsb (fun w => contains (write_accounts t) w || contains (read_accounts t) w)
          (write_accounts other).

(** [enum TransactionError] *)
Module TransactionError.
Inductive t :=
  | NoInstructions
  | ZeroComputeBudget
  | InsufficientFee
  | InvalidSignature
  | AccountNotFound (index : Z)
  | InsufficientLamports (needed available : Z)
  | ProgramError (msg : string)
  | ComputeBudgetExceeded
  | BlockhashNotFound
  | DuplicateTransaction.

(** [impl Display for TransactionError] *)
Definition display (e : t) : string :=
  match e with
  | NoInstructions => "No instructions"
  | ZeroComputeBudget => "Zero compute budget"
  | InsufficientFee => "Insufficient fee"
  | InvalidSignature => "Invalid signature"
  | AccountNotFound idx => "Account " +:+ dec idx +:+ " not found"
  | InsufficientLamports needed available =>
      "Insufficient lamports: need " +:+ dec needed +:+ ", have " +:+ dec available
  | ProgramError msg => "Program error: " +:+ msg
  | ComputeBudgetExceeded => "Compute budget exceeded"
  | BlockhashNotFound => "Blockhash not found"
  | DuplicateTransaction => "Duplicate transaction"
  end.

(** [{:?}] of a string of ASCII characters: quotes, with escapes. *)
Definition quote : ascii := ascii_of_nat 34.
Definition escape (c : ascii) : string :=
  let n := nat_of_ascii c in
  if (n =? 34)%nat then String (ascii_of_nat 92) (String quote "")
  else if (n =? 92)%nat then String (ascii_of_nat 92) (String (ascii_of_nat 92) "")
  else if (n =? 0)%nat then "\0"
  else if (n =? 9)%nat then "\t"
  else if (n =? 10)%nat then "\n"
  else if (n =? 13)%nat then "\r"
  else if ((n <? 32) || (n =? 127))%nat then
    "\u{" +:+ (if (n <? 16)%nat then String (hex_digit (Z.of_nat n)) ""
               else hex_encode [Z.of_nat n]) +:+ "}"
  else String c "".
Fixpoint escape_all (s : string) : string :=
  match s with EmptyString => "" | String c s => escape c +:+ escape_all s end.
Definition debug_string (s : string) : string :=
  String quote (escape_all s +:+ String quote "").

(** [#[derive(Debug)]] *)
Definition debug (e : t) : string :=
  match e with
  | NoInstructions => "NoInstructions"
  | ZeroComputeBudget => "ZeroComputeBudget"
  | InsufficientFee => "InsufficientFee"
  | InvalidSignature => "InvalidSignature"
  | AccountNotFound idx => "AccountNotFound(" +:+ dec idx +:+ ")"
  | InsufficientLamports needed available =>
      "InsufficientLamports { needed: " +:+ dec needed +:+ ", available: " +:+ dec available +:+ " }"
  | ProgramError msg => "ProgramError(" +:+ debug_string msg +:+ ")"
  | ComputeBudgetExceeded => "ComputeBudgetExceeded"
  | BlockhashNotFound => "BlockhashNotFound"
  | DuplicateTransaction => "DuplicateTransaction"
  end.
End TransactionError.

(** [Transaction::validate] *)
Definition validate (t : Transaction) : result unit TransactionError.t :=
  match tx_instructions t with
  | [] => Err TransactionError.NoInstructions
  | _ =>
    if tx_compute_budget t =? 0 then Err TransactionError.ZeroComputeBudget
    else if tx_fee t <? 5000 then Err TransactionError.InsufficientFee
    else Ok tt
  end.

(** [Transaction::verify_signature] *)
Definition verify_signature `{Sha256, Ed25519} (t : Transaction) : bool :=
  ed_verify (tx_signer t) (tx_hash t) (tx_signature t).

(** [struct TransactionResult] *)
Record TransactionResult := mkTxResult {
  tr_success : bool;
  tr_compute_units_consumed : Z;
  tr_fee_paid : Z;
  tr_error : option TransactionError.t;
  tr_logs : list string
}.

(** [TransactionResult::success], [TransactionResult::failure] *)
Definition result_success (compute_units fee : Z) : TransactionResult :=
  mkTxResult true compute_units fee None ["Transaction executed successfully"].
Definition result_failure (error : TransactionError.t) (compute_units : Z) : TransactionResult :=
  mkTxResult false compute_units 0 (Some error)
    ["Transaction failed: " +:+ TransactionError.debug error].

(** ** The signed message is injective *)

Lemma length_len_prefix {A} (l : list A) : length (len_prefix l) = 4%nat.
Proof. apply length_le_bytes. Qed.
#[export] Hint Rewrite @length_len_prefix : trust_len.

Lemma len_prefix_inj {A} (l1 l2 : list A) :
  len32 l1 -> len32 l2 -> len_prefix l1 = len_prefix l2 -> length l1 = length l2.
Proof.
  unfold len32, len_prefix, wrap32. intros H1 H2 E.
  rewrite !Z.mod_small in E by lia.
  apply le_bytes_inj in E; [lia|change (256 ^ Z.of_nat 4) with 4294967296; lia..].
Qed.

(** Concatenations of pieces of one fixed length. *)
Lemma mjoin_fixed_inj {A} (n : nat) (xs ys : list (list A)) r1 r2 :
  Forall (fun x => length x = n) xs -> Forall (fun x => length x = n) ys ->
  length xs = length ys -> mjoin xs ++ r1 = mjoin ys ++ r2 -> xs = ys /\ r1 = r2.
Proof.
  intros Hx. revert ys. induction Hx as [|x xs Hx _ IH]; intros ys Hy Hl E.
  - by destruct ys.
  - destruct Hy as [|y ys Hy Hys]; [done|]. rewrite !mjoin_cons, <- !app_assoc in E.
    apply app_split in E as [-> E]; [|congruence].
    apply IH in E as [-> ->]; [done|done|]. simpl in Hl. lia.
Qed.

Lemma meta_message_inj (ms1 ms2 : list TxMeta) :
  meta_message <$> ms1 = meta_message <$> ms2 -> ms1 = ms2.
Proof.
  revert ms2. induction ms1 as [|[i s w] ms1 IH]; intros [|[i' s' w'] ms2]; try done.
  cbn. intros [= -> Hs Hw E]. f_equal; [|by apply IH].
  destruct s, s', w, w'; done.
Qed.

Lemma meta_message_len (ms : list TxMeta) : Forall (fun x : bytes => length x = 3%nat) (meta_message <$> ms).
Proof. apply Forall_fmap. by apply Forall_true. Qed.

(** One instruction's encoding is self-delimiting. *)
Lemma instruction_message_inj i1 i2 r1 r2 :
  ix_ok i1 -> ix_ok i2 ->
  instruction_message i1 ++ r1 = instruction_message i2 ++ r2 -> i1 = i2 /\ r1 = r2.
Proof.
  destruct i1 as [p1 a1 d1], i2 as [p2 a2 d2]. unfold ix_ok, instruction_message.
  cbn [ti_program_id ti_accounts ti_data].
  intros ([Hp1 _] & _ & _ & Ha1 & Hd1) ([Hp2 _] & _ & _ & Ha2 & Hd2) E.
  rewrite <- !app_assoc in E. split_app E. split_app E.
  apply len_prefix_inj in E1; [|done|done].
  apply (mjoin_fixed_inj 3) in E as [Em E]; [|apply meta_message_len..|by rewrite !length_fmap].
  apply meta_message_inj in Em. split_app E. apply len_prefix_inj in E2; [|done|done].
  split_app E. by subst.
Qed.

Lemma instruction_message_nonempty i : ix_ok i -> instruction_message i <> [].
Proof.
  intros ([Hp _] & _) E%(f_equal length). unfold instruction_message in E.
  rewrite length_app, Hp in E. done.
Qed.

Lemma instructions_message_inj is1 is2 :
  Forall ix_ok is1 -> Forall ix_ok is2 ->
  mjoin (instruction_message <$> is1) = mjoin (instruction_message <$> is2) -> is1 = is2.
Proof.
  intros H1. revert is2. induction H1 as [|i1 is1 Hi1 _ IH]; intros is2 H2 E.
  - destruct H2 as [|i2 is2 Hi2 _]; [done|]. rewrite fmap_cons, mjoin_cons in E.
    symmetry in E. apply app_eq_nil in E as [E _].
    by apply instruction_message_nonempty in Hi2.
  - destruct H2 as [|i2 is2 Hi2 H2]; rewrite !fmap_cons, !mjoin_cons in E.
    + apply app_eq_nil in E as [E _]. by apply instruction_message_nonempty in Hi1.
    + apply instruction_message_inj in E as [-> E]; [|done|done]. f_equal. by apply IH.
Qed.

(** C30. The message a signature covers determines everything a transaction
    does: two well-formed transactions with the same hash input have the same
    signer, blockhash, fee, compute budget, account keys and instructions. *)
Theorem tx_message_inj t1 t2 :
  tx_ok t1 -> tx_ok t2 -> tx_message t1 = tx_message t2 ->
  t1 = set_signature t2 (tx_signer t2) (tx_signature t1).
Proof.
  destruct t1 as [s1 k1 ks1 is1 b1 c1 f1], t2 as [s2 k2 ks2 is2 b2 c2 f2].
  unfold tx_ok, tx_message, set_signature.
  cbn [tx_signature tx_signer tx_account_keys tx_instructions tx_recent_blockhash
       tx_compute_budget tx_fee].
  intros (_ & [Hk1 _] & Hks1 & Hl1 & Hi1 & [Hb1 _] & Hc1 & Hf1)
         (_ & [Hk2 _] & Hks2 & Hl2 & Hi2 & [Hb2 _] & Hc2 & Hf2) E.
  do 5 split_app E.
  apply len_prefix_inj in E4; [|done|done]. apply (mjoin_fixed_inj 32) in E as [-> E]; [|..|done].
  - apply instructions_message_inj in E; [|done|done].
    apply le8_inj in E2; [|done|done]. apply le8_inj in E3; [|done|done]. by subst.
  - eapply Forall_impl; [|exact Hks1]. by intros ? [].
  - eapply Forall_impl; [|exact Hks2]. by intros ? [].
Qed.

(** A transaction signed by a key verifies, under the key's own public
    key and whatever signature it carried before; without a signature it
    never verifies. *)
Theorem sign_verifies `{Sha256, Ed25519} t key :
  verify_signature (tx_sign t key) = true /\
  tx_signer (tx_sign t key) = verifying_key key /\
  verify_signature (set_signature t (tx_signer t) []) = false.
Proof.
  split_and!; [|done|apply ed_verify_nonempty].
  unfold verify_signature, tx_sign, tx_hash, tx_message. simpl. apply ed_verify_sign.
Qed.

(** ** Conflicts *)

(** Somebody writes an account the other reads or writes. *)
Definition conflict (t1 t2 : Transaction) : Prop :=
  exists k, (k ∈ write_accounts t1 /\ (k ∈ write_accounts t2 \/ k ∈ read_accounts t2)) \/
            (k ∈ write_accounts t2 /\ (k ∈ write_accounts t1 \/ k ∈ read_accounts t1)).

Lemma contains_spec l k : contains l k = true <-> k ∈ l.
Proof. apply bool_decide_eq_true. Qed.

Lemma conflicts_with_spec t1 t2 : conflicts_with t1 t2 = true <-> conflict t1 t2.
Proof.
  unfold conflicts_with, conflict. rewrite orb_true_iff, !existsb_exists.
  setoid_rewrite orb_true_iff. setoid_rewrite contains_spec.
  setoid_rewrite <- list_elem_of_In. naive_solver.
Qed.

Lemma conflict_sym t1 t2 : conflict t1 t2 -> conflict t2 t1.
Proof. unfold conflict. naive_solver. Qed.

Lemma conflicts_with_sym t1 t2 : conflicts_with t1 t2 = conflicts_with t2 t1.
Proof.
  apply eq_true_iff_eq. rewrite !conflicts_with_spec. split; apply conflict_sym.
Qed.

(** An account a transaction writes or reads is one of its account keys. *)
Lemma accounts_where_keys f t k : k ∈ accounts_where f t -> k ∈ tx_account_keys t.
Proof.
  unfold accounts_where. rewrite list_elem_of_join. intros (l & Hk & Hl).
  apply list_elem_of_fmap in Hl as (ix & -> & _).
  apply list_elem_of_omap in Hk as (a & _ & Hk). case_match; [|done].
  by eapply list_elem_of_lookup_2.
Qed.

Lemma accounts_where_intro f t ix a k :
  ix ∈ tx_instructions t -> a ∈ ti_accounts ix -> f a = true -> resolve t (tm_index a) = Some k ->
  k ∈ accounts_where f t.
Proof.
  intros Hix Ha Hf Hk. apply list_elem_of_join. eexists. split; [|by apply list_elem_of_fmap_2].
  apply list_elem_of_omap. exists a. by rewrite Hf.
Qed.
