(* ===== verification/Scheduler.v ===== *)
(** * The transaction scheduler ([crates/tx-processor/src/scheduler.rs])

    Greedy grouping of pending transactions into batches whose transactions do
    not conflict. *)

From S2P Require Import Prelude Crypto Account Store Instruction Transaction.
Open Scope Z_scope.

(** [struct ExecutionBatch] *)
Record ExecutionBatch := mkBatch {
  batch_index : Z;
  batch_transactions : list Transaction;
  batch_total_compute : Z
}.

(** [struct Scheduler] *)
Record Scheduler := mkScheduler {
  pending : list Transaction;
  batches : list ExecutionBatch;
  total_scheduled : Z;
  max_batch_size : nat;
  max_batch_compute : Z
}.

(** [Scheduler::new], [Scheduler::default_solana] *)
Definition scheduler_new (max_batch_size : nat) (max_batch_compute : Z) : Scheduler :=
  mkScheduler [] [] 0 max_batch_size max_batch_compute.
Definition default_solana : Scheduler := scheduler_new 128 (200000 * 128).

(** [Scheduler::enqueue], [Scheduler::enqueue_batch] *)
Definition enqueue (s : Scheduler) (tx : Transaction) : Scheduler :=
  mkScheduler (pending s ++ [tx]) (batches s) (total_scheduled s)
              (max_batch_size s) (max_batch_compute s).
Definition enqueue_batch (s : Scheduler) (txs : list Transaction) : Scheduler :=
  foldl enqueue s txs.

(** The local variables of one pass of the batching loop. *)
Record Packing := mkPacking {
  pk_transactions : list Transaction;
  pk_total : Z;
  pk_writes : list bytes;
  pk_reads : list bytes;
  pk_still_remaining : list Transaction
}.

Definition packing_empty : Packing := mkPacking [] 0 [] [] [].

(** [batch.transactions.push(tx); ...] and [still_remaining.push(tx)] *)
Definition accept (p : Packing) (tx : Transaction) : Packing :=
  mkPacking (pk_transactions p ++ [tx]) (wrap64 (pk_total p + tx_compute_budget tx))
            (pk_writes p ++ write_accounts tx) (pk_reads p ++ read_accounts tx)
            (pk_still_remaining p).
Definition defer (p : Packing) (tx : Transaction) : Packing :=
  mkPacking (pk_transactions p) (pk_total p) (pk_writes p) (pk_reads p)
            (pk_still_remaining p ++ [tx]).

(** The conflict check against the accounts of the current batch. *)
Definition batch_conflicts (p : Packing) (tx : Transaction) : bool :=
  existsb (fun w => contains (pk_writes p) w || contains (pk_reads p) w) (write_accounts tx) ||
  existsb (contains (pk_writes p)) (read_accounts tx).

(** The body of [for tx in remaining.drain(..)]. *)
Definition place (max_size : nat) (max_compute : Z) (p : Packing) (tx : Transaction) : Packing :=
  if (max_size <=? length (pk_transactions p))%nat then defer p tx
  else if max_compute <? wrap64 (pk_total p + tx_compute_budget tx) then
    match pk_transactions p with [] => accept p tx | _ => defer p tx end
  else if batch_conflicts p tx then defer p tx
  else accept p tx.

Definition pack (max_size : nat) (max_compute : Z) (remaining : list Transaction) : Packing :=
  foldl (place max_size max_compute) packing_empty remaining.

(** The [while !remaining.is_empty()] loop: every batch takes at least one
    transaction or ends the loop, so the number of remaining transactions
    bounds the number of passes. *)
Fixpoint schedule_loop (fuel : nat) (batch_index : Z) (remaining : list Transaction) (s : Scheduler)
    : Scheduler :=
  match fuel, remaining with
  | _, [] => s
  | O, _ => s
  | S fuel, _ =>
      let p := pack (max_batch_size s) (max_batch_compute s) remaining in
      match pk_transactions p with
      | [] => mkScheduler (pending s ++ pk_still_remaining p) (batches s) (total_scheduled s)
                          (max_batch_size s) (max_batch_compute s)
      | txs =>
          schedule_loop fuel (wrap64 (batch_index + 1)) (pk_still_remaining p)
            (mkScheduler (pending s)
               (batches s ++ [mkBatch batch_index txs (pk_total p)])
               (wrap64 (total_scheduled s + Z.of_nat (length txs)))
               (max_batch_size s) (max_batch_compute s))
      end
  end.

(** [Scheduler::schedule] *)
Definition schedule (s : Scheduler) : Scheduler :=
  schedule_loop (length (pending s)) (Z.of_nat (length (batches s))) (pending s)
    (mkScheduler [] (batches s) (total_scheduled s) (max_batch_size s) (max_batch_compute s)).

(** [Scheduler::next_batch] *)
Definition next_batch (s : Scheduler) : Scheduler * option ExecutionBatch :=
  match batches s with
  | [] => (s, None)
  | b :: bs =>
      (mkScheduler (pending s) bs (total_scheduled s) (max_batch_size s) (max_batch_compute s),
       Some b)
  end.

(** [Scheduler::peek_batch], [pending_count], [batch_count], [is_idle] *)
Definition peek_batch (s : Scheduler) : option ExecutionBatch := head (batches s).
Definition pending_count (s : Scheduler) : nat := length (pending s).
Definition batch_count (s : Scheduler) : nat := length (batches s).
Definition is_idle (s : Scheduler) : bool :=
  match pending s, batches s with [], [] => true | _, _ => false end.

(** [Scheduler::drain_remaining] *)
Definition drain_remaining (s : Scheduler) : Scheduler * list Transaction :=
  (mkScheduler [] (batches s) (total_scheduled s) (max_batch_size s) (max_batch_compute s),
   pending s).

(** [SchedulerStats], [Scheduler::stats] *)
Record SchedulerStats := mkSchedulerStats {
  stats_pending : nat; stats_batches : nat; stats_total_scheduled : Z
}.
Definition scheduler_stats (s : Scheduler) : SchedulerStats :=
  mkSchedulerStats (length (pending s)) (length (batches s)) (total_scheduled s).

(** ** One pass *)

(** No two transactions of a list, at different positions, conflict. *)
Definition parallel (txs : list Transaction) : Prop :=
  forall i j t1 t2, i <> j -> txs !! i = Some t1 -> txs !! j = Some t2 ->
    conflicts_with t1 t2 = false.

Lemma parallel_snoc txs tx :
  parallel txs -> (forall t, t ∈ txs -> conflicts_with t tx = false) -> parallel (txs ++ [tx]).
Proof.
  intros Hp Ht i j t1 t2 Hij Hi Hj.
  apply lookup_snoc_Some in Hi as [[Hi1 Hi]|[-> <-]];
    apply lookup_snoc_Some in Hj as [[Hj1 Hj]|[-> <-]].
  - by apply (Hp i j).
  - by eapply Ht, list_elem_of_lookup_2.
  - rewrite conflicts_with_sym. by eapply Ht, list_elem_of_lookup_2.
  - done.
Qed.

(** Sum of the compute budgets of a list. *)
Definition compute_of (txs : list Transaction) : Z := foldr (fun t acc => tx_compute_budget t + acc) 0 txs.

Lemma compute_of_app l1 l2 : compute_of (l1 ++ l2) = compute_of l1 + compute_of l2.
Proof. induction l1 as [|t l1 IH]; simpl; lia. Qed.

(** What holds at every point of a pass that has seen the transactions [seen]. *)
Record packing_ok (max_size : nat) (seen : list Transaction) (p : Packing) : Prop := {
  pok_perm : pk_transactions p ++ pk_still_remaining p ≡ₚ seen;
  pok_writes : pk_writes p = mjoin (write_accounts <$> pk_transactions p);
  pok_reads : pk_reads p = mjoin (read_accounts <$> pk_transactions p);
  pok_parallel : parallel (pk_transactions p);
  pok_size : (length (pk_transactions p) <= max_size)%nat;
  pok_total : pk_total p = wrap64 (compute_of (pk_transactions p));
  pok_head : (0 < max_size)%nat -> head (pk_transactions p) = head seen
}.

Lemma batch_conflicts_sound max_size seen p tx :
  packing_ok max_size seen p -> batch_conflicts p tx = false ->
  forall t, t ∈ pk_transactions p -> conflicts_with t tx = false.
Proof.
  intros Hp Hc t Ht. apply not_true_iff_false. intros Hcon%conflicts_with_spec.
  assert (Hw : forall k, k ∈ write_accounts t -> k ∈ pk_writes p).
  { intros k Hk. rewrite (pok_writes _ _ _ Hp). apply list_elem_of_join. eexists.
    split; [done|]. by apply list_elem_of_fmap_2. }
  assert (Hr : forall k, k ∈ read_accounts t -> k ∈ pk_reads p).
  { intros k Hk. rewrite (pok_reads _ _ _ Hp). apply list_elem_of_join. eexists.
    split; [done|]. by apply list_elem_of_fmap_2. }
  apply not_true_iff_false in Hc. apply Hc. unfold batch_conflicts.
  rewrite orb_true_iff, !existsb_exists.
  setoid_rewrite orb_true_iff. setoid_rewrite contains_spec. setoid_rewrite <- list_elem_of_In.
  destruct Hcon as [k [[H1 [H2|H2]]|[H1 [H2|H2]]]]; eauto 10.
Qed.

Lemma defer_ok max_size seen p tx :
  ((0 < max_size)%nat -> pk_transactions p <> []) ->
  packing_ok max_size seen p -> packing_ok max_size (seen ++ [tx]) (defer p tx).
Proof.
  intros Hne Hp. destruct Hp as [Hperm Hw Hr Hpar Hs Ht Hh]. constructor; simpl; try done.
  - rewrite <- Hperm. by rewrite app_assoc.
  - intros Hpos. specialize (Hne Hpos). specialize (Hh Hpos).
    destruct (pk_transactions p); [done|]. by destruct seen; simplify_eq/=.
Qed.

Lemma accept_ok max_size seen p tx :
  (length (pk_transactions p) < max_size)%nat ->
  (forall t, t ∈ pk_transactions p -> conflicts_with t tx = false) ->
  packing_ok max_size seen p -> packing_ok max_size (seen ++ [tx]) (accept p tx).
Proof.
  intros Hlt Hc Hp. destruct Hp as [Hperm Hw Hr Hpar Hs Ht Hh]. constructor; simpl.
  - rewrite <- Hperm, <- !app_assoc. apply Permutation_app_head. by rewrite Permutation_app_comm.
  - rewrite fmap_app, join_app, Hw. simpl. by rewrite app_nil_r.
  - rewrite fmap_app, join_app, Hr. simpl. by rewrite app_nil_r.
  - by apply parallel_snoc.
  - rewrite length_app. simpl. lia.
  - rewrite Ht, compute_of_app. simpl. rewrite Z.add_0_r. unfold wrap64.
    by rewrite Zplus_mod_idemp_l.
  - intros Hpos. specialize (Hh Hpos). destruct (pk_transactions p) as [|t txs]; simpl in *.
    + destruct seen; [done|]. simplify_eq/=.
    + destruct seen; [done|]. by simplify_eq/=.
Qed.

Lemma place_ok max_size max_compute seen p tx :
  packing_ok max_size seen p ->
  packing_ok max_size (seen ++ [tx]) (place max_size max_compute p tx).
Proof.
  intros Hp. unfold place. destruct (Nat.leb_spec max_size (length (pk_transactions p))) as [Hle|Hlt].
  { apply defer_ok; [|done]. intros ? E. rewrite E in Hle. simpl in Hle. lia. }
  destruct (max_compute <? _).
  { destruct (pk_transactions p) as [|t txs] eqn:E.
    - apply accept_ok; rewrite ?E; [done|set_solver|done].
    - apply defer_ok; rewrite ?E; done. }
  destruct (batch_conflicts p tx) eqn:Hc.
  - apply defer_ok; [|done]. intros _ E. unfold batch_conflicts in Hc.
    rewrite (pok_writes _ _ _ Hp), (pok_reads _ _ _ Hp), E in Hc. simpl in Hc.
    rewrite orb_true_iff, !existsb_exists in Hc.
    destruct Hc as [(k&_&Hk)|(k&_&Hk)]; rewrite ?orb_true_iff, !contains_spec in Hk; set_solver.
  - apply accept_ok; [done| |done]. by eapply batch_conflicts_sound.
Qed.

Lemma foldl_place_ok max_size max_compute l seen p :
  packing_ok max_size seen p ->
  packing_ok max_size (seen ++ l) (foldl (place max_size max_compute) p l).
Proof.
  revert seen p. induction l as [|tx l IH]; intros seen p Hp; simpl; [by rewrite app_nil_r|].
  rewrite cons_middle, app_assoc. by apply IH, place_ok.
Qed.

Lemma pack_ok max_size max_compute l : packing_ok max_size l (pack max_size max_compute l).
Proof.
  apply (foldl_place_ok max_size max_compute l []). constructor; simpl; try done; try lia.
Qed.

(** The oldest transaction is always placed. *)
Lemma pack_progress max_size max_compute tx l :
  (0 < max_size)%nat -> exists rest, pk_transactions (pack max_size max_compute (tx :: l)) = tx :: rest.
Proof.
  intros Hpos. pose proof (pok_head _ _ _ (pack_ok max_size max_compute (tx :: l)) Hpos) as Hh.
  destruct (pk_transactions _); simplify_eq/=. eauto.
Qed.

(** The compute cap, as the code checks it. *)
Definition within_cap (max_compute : Z) (txs : list Transaction) : Prop :=
  compute_of txs <= max_compute \/ (length txs <= 1)%nat.

Definition small_budget (t : Transaction) : Prop := 0 <= tx_compute_budget t < 9223372036854775808.

Lemma compute_of_single txs :
  Forall small_budget txs -> (length txs <= 1)%nat -> 0 <= compute_of txs < 9223372036854775808.
Proof.
  intros Hall Hl. destruct txs as [|t [|? ?]]; simpl in *; try lia.
  inversion Hall as [|?? Hs _]; subst. unfold small_budget in Hs. lia.
Qed.

Lemma compute_of_nonneg txs : Forall small_budget txs -> 0 <= compute_of txs.
Proof. induction 1 as [|t txs Ht _ IH]; simpl; unfold small_budget in *; lia. Qed.

Lemma place_cap max_size max_compute p tx :
  max_compute < 9223372036854775808 -> small_budget tx ->
  Forall small_budget (pk_transactions p) -> within_cap max_compute (pk_transactions p) ->
  pk_total p = wrap64 (compute_of (pk_transactions p)) ->
  let p' := place max_size max_compute p tx in
  Forall small_budget (pk_transactions p') /\ within_cap max_compute (pk_transactions p') /\
  pk_total p' = wrap64 (compute_of (pk_transactions p')).
Proof.
  intros Hmax Htx Hall Hcap Htot.
  assert (Hr : 0 <= compute_of (pk_transactions p) < 9223372036854775808).
  { destruct Hcap as [Hc|Hc]; [|by apply compute_of_single].
    pose proof (compute_of_nonneg _ Hall). lia. }
  assert (Htot' : wrap64 (pk_total p + tx_compute_budget tx) =
                  compute_of (pk_transactions p) + tx_compute_budget tx).
  { unfold small_budget in Htx. rewrite Htot, (wrap64_id (compute_of _)), wrap64_id; u64_unfold; lia. }
  assert (Hacc : within_cap max_compute (pk_transactions p ++ [tx]) ->
    let p' := accept p tx in
    Forall small_budget (pk_transactions p') /\ within_cap max_compute (pk_transactions p') /\
    pk_total p' = wrap64 (compute_of (pk_transactions p'))).
  { intros Hc. simpl. split_and!; [apply Forall_app; split; [done|]; constructor; [done|constructor]|done|].
    rewrite Htot', compute_of_app. simpl. unfold small_budget in Htx.
    rewrite Z.add_0_r, wrap64_id; u64_unfold; lia. }
  unfold place. destruct (max_size <=? _)%nat; [done|].
  destruct (Z.ltb_spec max_compute (wrap64 (pk_total p + tx_compute_budget tx))) as [Hgt|Hle].
  - destruct (pk_transactions p) eqn:E; [|by rewrite <- E in *].
    rewrite <- E in *. apply Hacc. right. by rewrite E.
  - destruct (batch_conflicts p tx); [done|]. apply Hacc. left.
    rewrite Htot' in Hle. rewrite compute_of_app. simpl. lia.
Qed.

Lemma pack_cap max_size max_compute l :
  max_compute < 9223372036854775808 -> 0 <= max_compute -> Forall small_budget l ->
  within_cap max_compute (pk_transactions (pack max_size max_compute l)).
Proof.
  intros Hmax Hpos Hl. unfold pack.
  cut (forall p, Forall small_budget (pk_transactions p) ->
         within_cap max_compute (pk_transactions p) ->
         pk_total p = wrap64 (compute_of (pk_transactions p)) ->
         within_cap max_compute (pk_transactions (foldl (place max_size max_compute) p l))).
  { intros Hgen. apply Hgen; [constructor|left; simpl; lia|done]. }
  induction Hl as [|tx l Htx _ IH]; intros p Hall Hcap Htot; [done|].
  destruct (place_cap max_size max_compute p tx) as (?&?&?); [done..|]. by apply IH.
Qed.

(** ** The loop *)

(** A batch the scheduler may emit: at least one and at most [max_batch_size]
    transactions, none conflicting with another. *)
Definition batch_ok (s : Scheduler) (b : ExecutionBatch) : Prop :=
  (0 < length (batch_transactions b) <= max_batch_size s)%nat /\ parallel (batch_transactions b).

Lemma schedule_loop_spec fuel bi rem s :
  (length rem <= fuel)%nat ->
  let s' := schedule_loop fuel bi rem s in
  exists new,
    batches s' = batches s ++ new /\
    pending s' ++ mjoin (batch_transactions <$> new) ≡ₚ pending s ++ rem /\
    Forall (batch_ok s) new /\
    ((0 < max_batch_size s)%nat -> pending s' = pending s) /\
    (forall tx rem', rem = tx :: rem' -> (0 < max_batch_size s)%nat ->
       exists b new' rest, new = b :: new' /\ batch_transactions b = tx :: rest) /\
    (Forall small_budget rem -> 0 <= max_batch_compute s < 9223372036854775808 ->
       Forall (fun b => within_cap (max_batch_compute s) (batch_transactions b)) new).
Proof.
  revert bi rem s. induction fuel as [|fuel IH]; intros bi rem s Hf.
  { destruct rem; [|simpl in Hf; lia]. exists []. simpl. rewrite !app_nil_r. split_and!; try done. }
  destruct rem as [|tx rem].
  { exists []. simpl. rewrite !app_nil_r. split_and!; try done. }
  cbn [schedule_loop]. set (l := tx :: rem) in *.
  pose proof (pack_ok (max_batch_size s) (max_batch_compute s) l) as Hp.
  pose proof (pack_progress (max_batch_size s) (max_batch_compute s) tx rem) as Hprog.
  pose proof (pack_cap (max_batch_size s) (max_batch_compute s) l) as Hcap. fold l in Hprog.
  set (p := pack _ _ l) in *.
  destruct Hp as [Hperm _ _ Hpar Hsize _ _].
  destruct (pk_transactions p) as [|t txs] eqn:Ep.
  { exists []. simpl. rewrite !app_nil_r. simpl in Hperm. split_and!; try done.
    - by rewrite Hperm.
    - intros Hpos. by destruct (Hprog Hpos).
    - intros ?? _ Hpos. by destruct (Hprog Hpos). }
  assert (Hlen : (length (pk_still_remaining p) <= fuel)%nat).
  { apply Permutation_length in Hperm. rewrite length_app in Hperm. simpl in *. lia. }
  match goal with |- context [schedule_loop fuel ?bi' ?rem' ?s'] =>
    destruct (IH bi' rem' s' Hlen) as (new & Hb & Hpm & Hok & Hpe & _ & Hc);
    set (sf := schedule_loop fuel bi' rem' s') in * end.
  cbv zeta. exists (mkBatch bi (t :: txs) (pk_total p) :: new).
  simpl in Hb, Hpm, Hpe. rewrite Hb, <- app_assoc. split_and!; try done.
  - rewrite fmap_cons, mjoin_cons. simpl batch_transactions.
    rewrite Permutation_app_swap_app, Hpm, Permutation_app_swap_app. by rewrite <- Hperm.
  - constructor; [|done]. split; [simpl in *; lia|done].
  - intros ?? [= <- <-] Hpos. destruct (Hprog Hpos) as [rest E]. eauto 10.
  - intros Hsm Hmax. assert (Hsm' : Forall small_budget (pk_still_remaining p)).
    { rewrite <- Hperm, Forall_app in Hsm. tauto. }
    constructor; [apply Hcap; (done || lia)|]. by apply Hc.
Qed.

(** C20. Scheduling loses nothing and parallelizes only what is safe: after
    [schedule], the queued batches are the old ones followed by new ones whose
    transactions, together with what stays pending, are exactly the pending
    transactions (each once); every new batch has between 1 and
    [max_batch_size] transactions, no two of which conflict; and unless the
    batch size is zero nothing stays pending and the oldest transaction is in
    the first new batch. *)
Theorem schedule_partitions s :
  exists new,
    batches (schedule s) = batches s ++ new /\
    pending (schedule s) ++ mjoin (batch_transactions <$> new) ≡ₚ pending s /\
    Forall (batch_ok s) new /\
    ((0 < max_batch_size s)%nat -> pending (schedule s) = []) /\
    (forall tx rest, pending s = tx :: rest -> (0 < max_batch_size s)%nat ->
       exists b new' txs, new = b :: new' /\ batch_transactions b = tx :: txs).
Proof.
  destruct (schedule_loop_spec (length (pending s)) (Z.of_nat (length (batches s))) (pending s)
    (mkScheduler [] (batches s) (total_scheduled s) (max_batch_size s) (max_batch_compute s)))
    as (new & ?&?&?&?&?&_); [done|]. exists new. split_and!; done.
Qed.

(** The compute cap: when budgets and the cap are below 2^63, every new
    batch stays within [max_batch_compute] or holds a single transaction. *)
Theorem schedule_compute_cap s new :
  Forall small_budget (pending s) -> 0 <= max_batch_compute s < 9223372036854775808 ->
  batches (schedule s) = batches s ++ new ->
  Forall (fun b => within_cap (max_batch_compute s) (batch_transactions b)) new.
Proof.
  intros Hsm Hmax Hnew.
  destruct (schedule_loop_spec (length (pending s)) (Z.of_nat (length (batches s))) (pending s)
    (mkScheduler [] (batches s) (total_scheduled s) (max_batch_size s) (max_batch_compute s)))
    as (new' & Hb & _ &_&_&_&Hc); [done|].
  fold (schedule s) in Hb. simpl in Hb. rewrite Hnew in Hb. apply app_inv_head in Hb as ->.
  by apply Hc.
Qed.

(** A transaction of a given compute budget that touches nothing. *)
Definition budget_tx (n : Z) : Transaction :=
  mkTx [] (fill32 9) [] [mkTxIx (fill32 1) [] []] (fill32 0) n 5000.

Lemma schedule_compute_cap_witness :
  Forall (fun b => within_cap 100 (batch_transactions b))
    (batches (schedule (enqueue_batch (scheduler_new 8 100) [budget_tx 60; budget_tx 50; budget_tx 30]))).
Proof.
  apply (schedule_compute_cap
    (enqueue_batch (scheduler_new 8 100) [budget_tx 60; budget_tx 50; budget_tx 30])).
  - repeat constructor; simpl; lia.
  - simpl. lia.
  - reflexivity.
Defined.

(** The bound on the budgets is needed: the check adds with wrap-around, so a
    budget near 2^64 passes it and overfills the batch. *)
Lemma schedule_cap_overflows :
  batch_transactions <$>
    batches (schedule (enqueue_batch (scheduler_new 8 100) [budget_tx 60; budget_tx U64_MAX])) =
  [[budget_tx 60; budget_tx U64_MAX]].
Proof. reflexivity. Qed.
