(* ===== verification/Executor.v ===== *)
(** * The transaction executor ([crates/tx-processor/src/executor.rs])

    Validation, signature check, account locks, fee payment, instruction
    execution through the processor, and rollback.  A batch runs on one thread
    per transaction; the per-account locks are modelled as a lock table with
    its acquisition steps (section [Locks]), and the effect of a batch as the
    transactions executed one after the other in the order the threads win
    their locks. *)

From S2P Require Import Prelude Crypto Account Store Instruction Vm SystemProgram TokenProgram Processor Transaction Scheduler.
Import TransactionError.
Open Scope Z_scope.
Open Scope trust_scope.

(** [struct ExecutionContext] *)
Record ExecutionContext := mkCtx {
  ctx_compute_units : Z;
  ctx_max_compute_units : Z;
  ctx_logs : list string
}.

(** [ExecutionContext::new] *)
Definition ctx_new (max_compute : Z) : ExecutionContext := mkCtx 0 max_compute [].

(** The database and the context, both [&mut] in the executor's methods. *)
Record ExecState (DB : Type) := mkExec { es_db : DB; es_ctx : ExecutionContext }.
Arguments mkExec {DB}.
Arguments es_db {DB}.
Arguments es_ctx {DB}.

(** [Vec::dedup_by] on the key: of consecutive equal elements the first stays. *)
Fixpoint dedup_from {A} (eqb : A -> A -> bool) (last : A) (l : list A) : list A :=
  match l with
  | [] => []
  | x :: l => if eqb x last then dedup_from eqb last l else x :: dedup_from eqb x l
  end.
Definition dedup_by {A} (eqb : A -> A -> bool) (l : list A) : list A :=
  match l with [] => [] | x :: l => x :: dedup_from eqb x l end.

Definition bytes_eqb (a b : bytes) : bool := bool_decide (a = b).

(** The sorted, deduplicated lock list of [Executor::lock_accounts]. *)
Definition lock_list (tx : Transaction) : list (bytes * bool) :=
  let combined := ((fun k => (k, true)) <$> write_accounts tx) ++ [(tx_signer tx, true)] ++
                  ((fun k => (k, false)) <$> read_accounts tx) in
  dedup_by (fun a b => bytes_eqb a.1 b.1) (sort_by (fun a b => bytes_le a.1 b.1) combined).

(** [Executor::mutable_accounts] *)
Definition mutable_accounts (tx : Transaction) : list bytes :=
  dedup_by bytes_eqb (sort_by bytes_le ([tx_signer tx] ++ write_accounts tx)).

Section Executor.
Context {DB : Type} `{Store : AccountsStore DB} `{Sha : Sha256} `{Ed : Ed25519}.

Definition EX (A : Type) : Type := Prog (ExecState DB) TransactionError.t A.

(** [struct Executor]; the lock table is the set of keys with an entry. *)
Record Executor := mkExecutor {
  ex_db : DB;
  ex_account_locks : gset bytes;
  ex_total_executed : Z;
  ex_total_compute : Z
}.

(** [Executor::new] *)
Definition executor_new (db : DB) : Executor := mkExecutor db ∅ 0 0.

(** [ExecutionContext::consume_compute], [ExecutionContext::log] *)
Definition consume_compute (units : Z) : EX unit := fun s =>
  let units' := wrap64 (ctx_compute_units (es_ctx s) + units) in
  let s' := mkExec (es_db s) (mkCtx units' (ctx_max_compute_units (es_ctx s)) (ctx_logs (es_ctx s))) in
  (s', if ctx_max_compute_units (es_ctx s) <? units' then Err ComputeBudgetExceeded else Ok tt).
Definition ctx_log (msg : string) : EX unit :=
  pmod (fun s => mkExec (es_db s)
    (mkCtx (ctx_compute_units (es_ctx s)) (ctx_max_compute_units (es_ctx s))
           (ctx_logs (es_ctx s) ++ [msg]))).

(** [Executor::lock_accounts]: the lock list, and the lock table with an entry
    for each of its keys. *)
Definition lock_accounts (e : Executor) (tx : Transaction) : Executor * list (bytes * bool) :=
  let l := lock_list tx in
  (mkExecutor (ex_db e) (ex_account_locks e ∪ list_to_set l.*1)
              (ex_total_executed e) (ex_total_compute e), l).

(** [Executor::snapshot_transaction] *)
Definition snapshot_transaction (db : DB) (tx : Transaction) : list (bytes * option Account) :=
  (fun key => (key, db_load db key)) <$> mutable_accounts tx.

(** [Executor::rollback_transaction] *)
Definition rollback_transaction (db : DB) (snapshot : list (bytes * option Account)) : DB :=
  foldl (fun db '(key, prev) =>
           match prev with
           | Some account => db_store db key account
           | None => (db_remove db key).1
           end) db snapshot.

(** [Executor::execute_fee_payment] *)
Definition execute_fee_payment (tx : Transaction) : EX unit :=
  consume_compute 150 ;;;
  loaded <-- pget (fun s => db_load (es_db s) (tx_signer tx)) ;;
  account <-- plift (ok_or loaded (InsufficientLamports (tx_fee tx) 0)) ;;
  fail_if (lamports account <? tx_fee tx)
    with (InsufficientLamports (tx_fee tx) (lamports account)) ;;;
  pmod (fun s => mkExec (db_store (es_db s) (tx_signer tx)
                           (set_lamports account (lamports account - tx_fee tx))) (es_ctx s)) ;;;
  ctx_log ("Fee paid: " +:+ dec (tx_fee tx) +:+ " lamports").

(** The signer check over an instruction's metas. *)
Definition signer_metas_ok (tx : Transaction) (ix : TxInstruction) : bool :=
  forallb (fun meta =>
    if tm_is_signer meta then
      match tx_account_keys tx !! Z.to_nat (tm_index meta) with
      | Some key => bytes_eqb key (tx_signer tx)
      | None => false
      end
    else true) (ti_accounts ix).

(** The [ProgramInstruction] built from a transaction instruction. *)
Definition program_ix (ix : TxInstruction) : Instruction :=
  mkIx (ti_program_id ix)
       ((fun m => mkMeta (Z.to_nat (tm_index m)) (tm_is_signer m) (tm_is_writable m))
          <$> ti_accounts ix)
       (ti_data ix).

(** [Executor::execute_instruction] *)
Definition execute_instruction (tx : Transaction) (ix : TxInstruction) : EX unit :=
  ctx_log ("Executing program: " +:+ debug_bytes (ti_program_id ix)) ;;;
  fail_if (negb (signer_metas_ok tx ix)) with InvalidSignature ;;;
  result <-- (fun s =>
    let '(db', res) :=
      process_instruction (es_db s) (program_ix ix) (tx_signer tx) (tx_account_keys tx) in
    (mkExec db' (es_ctx s), Ok res)) ;;
  foldr (fun log k => ctx_log log ;;; k) (pret tt) (res_logs result) ;;;
  consume_compute (res_compute_units result) ;;;
  fail_if (negb (res_success result))
    with (ProgramError (match res_error result with
                        | Some e => InstructionError.display e
                        | None => "program failed"
                        end)) ;;;
  pret tt.

(** [for ix in &tx.instructions { .. }], stopping at the first error. *)
Fixpoint execute_instructions (tx : Transaction) (ixs : list TxInstruction) : EX unit :=
  match ixs with
  | [] => pret tt
  | ix :: ixs => execute_instruction tx ix ;;; execute_instructions tx ixs
  end.

Definition set_db (e : Executor) (db : DB) : Executor :=
  mkExecutor db (ex_account_locks e) (ex_total_executed e) (ex_total_compute e).

(** [Executor::execute_transaction] *)
Definition execute_transaction (e : Executor) (tx : Transaction) : Executor * TransactionResult :=
  let ctx := ctx_new (tx_compute_budget tx) in
  match validate tx with
  | Err err => (e, result_failure err 0)
  | Ok _ =>
    if negb (verify_signature tx) then (e, result_failure InvalidSignature (ctx_compute_units ctx))
    else
      let '(e, _) := lock_accounts e tx in
      match execute_fee_payment tx (mkExec (ex_db e) ctx) with
      | (s, Err err) =>
          (set_db e (es_db s), result_failure err (ctx_compute_units (es_ctx s)))
      | (s, Ok _) =>
        let snapshot := snapshot_transaction (es_db s) tx in
        match execute_instructions tx (tx_instructions tx) s with
        | (s, Err err) =>
            (set_db e (rollback_transaction (es_db s) snapshot),
             result_failure err (ctx_compute_units (es_ctx s)))
        | (s, Ok _) =>
            let s := (consume_compute 150 s).1 in
            let units := ctx_compute_units (es_ctx s) in
            (mkExecutor (es_db s) (ex_account_locks e)
               (wrap64 (ex_total_executed e + 1)) (wrap64 (ex_total_compute e + units)),
             result_success units (tx_fee tx))
        end
      end
  end.

(** Transactions executed in a given order, each with its result. *)
Fixpoint execute_sequence (e : Executor) (txs : list Transaction)
    : Executor * list TransactionResult :=
  match txs with
  | [] => (e, [])
  | tx :: txs =>
      let '(e, r) := execute_transaction e tx in
      let '(e, rs) := execute_sequence e txs in
      (e, r :: rs)
  end.

(** [ExecutorStats], [Executor::stats] *)
Record ExecutorStats := mkExecutorStats { es_total_executed : Z; es_total_compute : Z }.
Definition executor_stats (e : Executor) : ExecutorStats :=
  mkExecutorStats (ex_total_executed e) (ex_total_compute e).
End Executor.
Arguments Executor DB : clear implicits.

(** ** Sorting and deduplication by key *)

Section Dedup.
Context {A : Type} (key : A -> bytes).
Let eqb (a b : A) := bytes_eqb (key a) (key b).
Let leb (a b : A) := bytes_le (key a) (key b).
Let lt (a b : A) : Prop := bytes_le (key a) (key b) = true /\ key a <> key b.

(** First element with a given key. *)
Definition first_with (k : bytes) (l : list A) : option A :=
  head (filter (fun a => key a = k) l).

Lemma first_with_cons k a l :
  first_with k (a :: l) = if decide (key a = k) then Some a else first_with k l.
Proof. unfold first_with. rewrite filter_cons. by case_decide. Qed.

Lemma first_with_app k l1 l2 :
  first_with k (l1 ++ l2) = match first_with k l1 with Some a => Some a | None => first_with k l2 end.
Proof.
  induction l1 as [|a l1 IH]; [done|]. simpl. rewrite !first_with_cons. by case_decide.
Qed.

Lemma first_with_Some k l a : first_with k l = Some a -> a ∈ l /\ key a = k.
Proof.
  induction l as [|b l IH]; [done|]. rewrite first_with_cons. case_decide; set_solver.
Qed.

Lemma first_with_None k l : first_with k l = None <-> k ∉ key <$> l.
Proof.
  induction l as [|b l IH]; [set_solver|]. rewrite first_with_cons, fmap_cons, not_elem_of_cons.
  case_decide; [naive_solver|]. rewrite IH. naive_solver.
Qed.

Lemma bytes_le_refl a : bytes_le a a = true.
Proof. by destruct (bytes_le_total a a). Qed.

(** Stability: sorting keeps the first element of each key. *)
Lemma first_with_sort k l : first_with k (sort_by leb l) = first_with k l.
Proof.
  assert (Hins : forall x l, first_with k (insert_by leb x l) = first_with k (x :: l)).
  { intros x l'. induction l' as [|y l' IH]; [done|]. simpl. destruct (leb x y) eqn:E; [done|].
    rewrite !first_with_cons, IH, first_with_cons. repeat case_decide; try done.
    unfold leb in E. subst. rewrite H0, bytes_le_refl in E. done. }
  induction l as [|x l IH]; [done|]. simpl. by rewrite Hins, !first_with_cons, IH.
Qed.

(** Deduplication too. *)
Lemma first_with_dedup k l : first_with k (dedup_by eqb l) = first_with k l.
Proof.
  assert (Hd : forall l x, key x <> k -> first_with k (dedup_from eqb x l) = first_with k l).
  { clear l. induction l as [|y l IH]; intros x Hx; [done|]. simpl.
    unfold eqb at 1, bytes_eqb. case_bool_decide as E; rewrite !first_with_cons.
    - rewrite decide_False by congruence. by apply IH.
    - case_decide; [done|]. by apply IH. }
  destruct l as [|x l]; [done|]. simpl. rewrite !first_with_cons. case_decide; [done|]. by apply Hd.
Qed.

(** After sorting, keys ascend strictly. *)
Lemma dedup_from_sorted x l :
  StronglySorted (fun a b => leb a b = true) (x :: l) -> StronglySorted lt (x :: dedup_from eqb x l).
Proof.
  revert x. induction l as [|y l IH]; intros x Hs; [repeat constructor|].
  inversion Hs as [|?? Hyl Hx]; subst. inversion Hx as [|?? Hxy Hxl]; subst.
  inversion Hyl as [|?? Hl Hy]; subst.
  simpl. unfold eqb at 1, bytes_eqb. case_bool_decide as E.
  - apply IH. by constructor.
  - specialize (IH y Hyl). constructor; [done|].
    assert (Hlt : lt x y) by (split; [done|congruence]).
    inversion IH as [|?? _ Hyd]; subst. constructor; [done|].
    eapply Forall_impl; [|exact Hyd]. intros z [Hyz Hne]. split.
    + by eapply bytes_le_trans.
    + intros Exz. destruct Hlt as [Hlt Hne']. apply Hne. apply bytes_le_antisym; [done|].
      by rewrite <- Exz.
Qed.

Lemma sort_dedup_sorted l : StronglySorted lt (dedup_by eqb (sort_by leb l)).
Proof.
  assert (Hs : StronglySorted (fun a b => leb a b = true) (sort_by leb l)).
  { apply sort_by_sorted.
    - intros x y. apply bytes_le_total.
    - intros x y z. apply bytes_le_trans. }
  destruct (sort_by leb l) as [|x l']; [constructor|]. by apply dedup_from_sorted.
Qed.

(** In a strictly ascending list an element is the first of its key. *)
Lemma strictly_sorted_first l a : StronglySorted lt l -> a ∈ l -> first_with (key a) l = Some a.
Proof.
  induction 1 as [|b l Hs IH Hb]; [set_solver|]. rewrite first_with_cons, elem_of_cons.
  intros [->|Ha]; [by rewrite decide_True|]. rewrite decide_False; [by apply IH|].
  rewrite Forall_forall in Hb. apply list_elem_of_In, Hb in Ha as [_ Hne]. done.
Qed.

Lemma elem_of_sort_dedup l a :
  a ∈ dedup_by eqb (sort_by leb l) <-> first_with (key a) l = Some a.
Proof.
  split.
  - intros Ha%strictly_sorted_first; [|apply sort_dedup_sorted].
    by rewrite first_with_dedup, first_with_sort in Ha.
  - rewrite <- first_with_sort, <- first_with_dedup. by intros [? _]%first_with_Some.
Qed.
End Dedup.

Lemma first_with_id k (l : list bytes) : first_with (fun x => x) k l = Some k <-> k ∈ l.
Proof.
  destruct (first_with _ k l) as [a|] eqn:E.
  - apply first_with_Some in E as [Ha <-]. done.
  - apply first_with_None in E. rewrite list_fmap_id in E. naive_solver.
Qed.

Lemma elem_of_mutable_accounts tx k :
  k ∈ mutable_accounts tx <-> k = tx_signer tx \/ k ∈ write_accounts tx.
Proof.
  unfold mutable_accounts.
  pose proof (elem_of_sort_dedup (fun x : bytes => x) ([tx_signer tx] ++ write_accounts tx) k) as Hiff.
  etransitivity; [exact Hiff|]. rewrite first_with_id. set_solver.
Qed.

Lemma first_with_tagged k b (l : list bytes) :
  first_with (@fst bytes bool) k ((fun k => (k, b)) <$> l) = if decide (k ∈ l) then Some (k, b) else None.
Proof.
  induction l as [|x l IH]; [done|]. rewrite fmap_cons, first_with_cons, IH. simpl.
  repeat case_decide; subst; try done; set_solver.
Qed.

(** ** Locks *)

(** The lock list of a transaction: keys strictly ascending in the global
    byte order (so none is taken twice), an exclusive lock for exactly the fee
    payer and the writable accounts, a shared lock for exactly the accounts
    that are only read; a key that is both read and written stays exclusive. *)
Theorem lock_list_spec tx :
  StronglySorted (fun a b => bytes_le a.1 b.1 = true /\ a.1 <> b.1) (lock_list tx) /\
  forall k b, (k, b) ∈ lock_list tx <->
    (b = true /\ (k = tx_signer tx \/ k ∈ write_accounts tx)) \/
    (b = false /\ k ∈ read_accounts tx /\ k <> tx_signer tx /\ k ∉ write_accounts tx).
Proof.
  split; [apply (sort_dedup_sorted (@fst bytes bool))|]. intros k b.
  etransitivity; [apply (elem_of_sort_dedup (@fst bytes bool))|]. cbn [fst].
  rewrite !first_with_app, !first_with_tagged, first_with_cons. cbn [fst].
  repeat case_decide; naive_solver.
Qed.

(** The threads of a batch acquire their lock lists front to back, holding
    what they have, and release everything when the transaction is done. *)
Record LockThread := mkThread { lt_held : list (bytes * bool); lt_wanted : list (bytes * bool) }.

Definition compatible (l1 l2 : bytes * bool) : Prop := l1.1 = l2.1 -> l1.2 = false /\ l2.2 = false.

Inductive lock_step (ts : gmap nat LockThread) : gmap nat LockThread -> Prop :=
  | step_acquire i held l wanted :
      ts !! i = Some (mkThread held (l :: wanted)) ->
      (forall j t, j <> i -> ts !! j = Some t -> forall l', l' ∈ lt_held t -> compatible l l') ->
      lock_step ts (<[i := mkThread (held ++ [l]) wanted]> ts)
  | step_finish i held :
      ts !! i = Some (mkThread held []) ->
      lock_step ts (delete i ts).

(** One thread per transaction of the batch, nothing held yet. *)
Definition batch_threads (txs : list Transaction) : gmap nat LockThread :=
  map_seq 0 ((fun tx => mkThread [] (lock_list tx)) <$> txs).

Definition key_lt (a b : bytes * bool) : Prop := bytes_le a.1 b.1 = true /\ a.1 <> b.1.

(** Threads hold a prefix of an ascending list, and never incompatible locks. *)
Record locks_ok (ts : gmap nat LockThread) : Prop := {
  locks_sorted i t : ts !! i = Some t -> StronglySorted key_lt (lt_held t ++ lt_wanted t);
  locks_exclusive i j ti tj li lj :
    i <> j -> ts !! i = Some ti -> ts !! j = Some tj ->
    li ∈ lt_held ti -> lj ∈ lt_held tj -> compatible li lj
}.

Lemma compatible_sym a b : compatible a b -> compatible b a.
Proof. unfold compatible. naive_solver. Qed.

Lemma batch_threads_ok txs : locks_ok (batch_threads txs).
Proof.
  assert (Hl : forall i t, batch_threads txs !! i = Some t -> exists tx, t = mkThread [] (lock_list tx)).
  { intros i t. unfold batch_threads. rewrite lookup_map_seq_0, list_lookup_fmap.
    destruct (txs !! i); naive_solver. }
  constructor.
  - intros i t [tx ->]%Hl. apply (sort_dedup_sorted (@fst bytes bool)).
  - intros i j ti tj li lj _ [tx ->]%Hl _ Hin. simpl in Hin. set_solver.
Qed.

Lemma lock_step_ok ts ts' : locks_ok ts -> lock_step ts ts' -> locks_ok ts'.
Proof.
  intros [Hsort Hex] Hstep. destruct Hstep as [i held l wanted Hi Hc|i held Hi]; constructor.
  - intros j t. rewrite lookup_insert. case_decide; [|apply Hsort]. intros [= <-]. simpl.
    rewrite <- app_assoc. apply (Hsort i _ Hi).
  - intros j1 j2 t1 t2 l1 l2 Hne. rewrite !lookup_insert. repeat case_decide; subst; [done|..].
    + intros [= <-] H2. simpl. rewrite elem_of_app, list_elem_of_singleton.
      intros [H1| ->] Hin; [by apply (Hex j1 j2 _ _ _ _ Hne Hi H2)|by eapply Hc].
    + intros H1 [= <-] Hin. simpl. rewrite elem_of_app, list_elem_of_singleton.
      intros [H2| ->]; [by apply (Hex j1 j2 _ _ _ _ Hne H1 Hi)|].
      apply compatible_sym. by eapply (Hc j1).
    + by apply Hex.
  - intros j t. rewrite lookup_delete_Some. intros [_ ?]. by eapply Hsort.
  - intros j1 j2 t1 t2 l1 l2 Hne. rewrite !lookup_delete_Some. intros [_ H1] [_ H2].
    by apply (Hex j1 j2 _ _ _ _ Hne H1 H2).
Qed.

(** A thread whose wanted key is maximal. *)
Lemma max_wanted (ts : gmap nat LockThread) :
  (forall i t, ts !! i = Some t -> lt_wanted t <> []) -> ts <> ∅ ->
  exists i held l wanted, ts !! i = Some (mkThread held (l :: wanted)) /\
    forall j held' l' wanted', ts !! j = Some (mkThread held' (l' :: wanted')) ->
      bytes_le l'.1 l.1 = true.
Proof.
  intros Hw. induction ts as [|i [held w] ts Hi IH] using map_ind; [done|]. intros _.
  destruct w as [|l w]; [exfalso; by apply (Hw i (mkThread held [])); [rewrite lookup_insert_eq|]|].
  destruct (decide (ts = ∅)) as [->|Hne].
  - exists i, held, l, w. rewrite lookup_insert_eq. split; [done|].
    intros j h' l' w'. rewrite lookup_insert. case_decide; [|done]. intros [= <- <- <-].
    apply bytes_le_refl.
  - destruct IH as (i0 & h0 & l0 & w0 & H0 & Hmax); [|done|].
    { intros j t Hj. apply (Hw j). rewrite lookup_insert_ne; [done|congruence]. }
    destruct (bytes_le_total l.1 l0.1) as [Hle|Hle].
    + exists i0, h0, l0, w0. rewrite lookup_insert_ne by congruence. split; [done|].
      intros j h' l' w'. rewrite lookup_insert. case_decide; [by intros [= <- <- <-]|]. apply Hmax.
    + exists i, held, l, w. rewrite lookup_insert_eq. split; [done|].
      intros j h' l' w'. rewrite lookup_insert. case_decide.
      * intros [= <- <- <-]. apply bytes_le_refl.
      * intros Hj. by eapply bytes_le_trans; [eapply Hmax|].
Qed.

Lemma locks_progress ts : locks_ok ts -> ts <> ∅ -> exists ts', lock_step ts ts'.
Proof.
  intros [Hsort Hex] Hne.
  destruct (decide (map_Forall (fun _ t => lt_wanted t <> []) ts)) as [Hall|Hnot].
  - destruct (max_wanted ts) as (i & held & l & wanted & Hi & Hmax); [by apply Hall|done|].
    eexists. eapply step_acquire; [done|]. intros j t Hj Ht l' Hl' Heq. exfalso.
    destruct t as [h' [|l2 w']]; [by apply (Hall _ _ Ht)|].
    pose proof (Hsort _ _ Ht) as Hs. simpl in Hs, Hl'.
    apply StronglySorted_app in Hs as (Hs & _ & _).
    destruct (Hs l' l2 Hl') as [Hle Hne2]; [set_solver|].
    apply Hne2. apply bytes_le_antisym; [done|]. rewrite <- Heq. by eapply Hmax.
  - apply map_not_Forall in Hnot as (i & [held wanted] & Hi & Hnot); [|apply _].
    simpl in Hnot. apply dec_stable in Hnot. subst. eexists. by eapply step_finish.
Qed.

(** C21. The threads of a batch cannot deadlock or race: in every state they
    can reach by acquiring their lock lists in order, no two threads hold
    incompatible locks on an account, and as long as a thread is left some
    thread can take its next lock or finish. *)
Theorem batch_locks_deadlock_free txs ts :
  rtc lock_step (batch_threads txs) ts ->
  locks_ok ts /\ (ts <> ∅ -> exists ts', lock_step ts ts').
Proof.
  intros Hsteps.
  assert (Hok : locks_ok ts).
  { revert Hsteps. generalize (batch_threads_ok txs). generalize (batch_threads txs).
    intros ts0 Hok Hs. induction Hs; eauto using lock_step_ok. }
  split; [done|]. by apply locks_progress.
Qed.

(** ** What a transaction does *)

(** The instructions of a transaction, as a sequence of ledger rules. *)
Inductive ledger_steps (tx : Transaction) :
    list TxInstruction -> gmap bytes Account -> gmap bytes Account -> Prop :=
  | steps_nil m : ledger_steps tx [] m m
  | steps_cons ix ixs m m1 m2 :
      ledger_step (program_ix ix) (tx_signer tx) (tx_account_keys tx) m m1 ->
      ledger_steps tx ixs m1 m2 -> ledger_steps tx (ix :: ixs) m m2.

(** The ledger after a fee payment that the checks admit. *)
Definition fee_charged `{Sha256, Ed25519} (m : gmap bytes Account) (tx : Transaction)
    : option (gmap bytes Account) :=
  match validate tx with
  | Err _ => None
  | Ok _ =>
    if verify_signature tx && (150 <=? tx_compute_budget tx) then
      match m !! tx_signer tx with
      | Some a =>
          if tx_fee tx <=? lamports a
          then Some (<[tx_signer tx := set_lamports a (lamports a - tx_fee tx)]> m) else None
      | None => None
      end
    else None
  end.

(** Every account the programs of the transaction write is declared writable
    or is the fee payer. *)
Definition declares_writes (tx : Transaction) : Prop :=
  forall ix k, ix ∈ tx_instructions tx -> k ∈ written_keys (program_ix ix) (tx_account_keys tx) ->
    k ∈ mutable_accounts tx.

(** An executable sufficient check. *)
Lemma declares_writes_check tx :
  bool_decide (Forall (fun ix => Forall (fun k => k ∈ mutable_accounts tx)
    (written_keys (program_ix ix) (tx_account_keys tx))) (tx_instructions tx)) = true ->
  declares_writes tx.
Proof.
  intros Hall%bool_decide_eq_true ix k Hix Hk.
  rewrite List.Forall_forall in Hall. specialize (Hall ix). rewrite <- list_elem_of_In in Hall.
  specialize (Hall Hix). rewrite List.Forall_forall in Hall. apply Hall. by apply list_elem_of_In.
Qed.

Section ExecutorCorrect.
Context {DB : Type} `{Laws : AccountsStoreLaws DB} `{Sha : Sha256} `{Ed : Ed25519}.
Implicit Types (s : ExecState DB) (e : Executor DB) (tx : Transaction).

Lemma consume_compute_db units s : es_db (consume_compute units s).1 = es_db s.
Proof. done. Qed.

Lemma log_all_run {A} logs (k : EX A) s :
  exists s1, es_db s1 = es_db s /\ ctx_compute_units (es_ctx s1) = ctx_compute_units (es_ctx s) /\
    ctx_max_compute_units (es_ctx s1) = ctx_max_compute_units (es_ctx s) /\
    pbind (foldr (fun log m => ctx_log log ;;; m) (pret tt) logs) (fun _ => k) s = k s1.
Proof.
  revert s. induction logs as [|l logs IH]; intros s; [by exists s|].
  destruct (IH (ctx_log l s).1) as (s1 & H1 & H2 & H3 & Hk). exists s1.
  split; [exact H1|]. split; [exact H2|]. split; [exact H3|exact Hk].
Qed.

(** One instruction: it took a rule, or it failed leaving the database as it
    was or (when only the compute budget ran out) as the rule left it. *)
Lemma execute_instruction_spec tx ix s s' r :
  db_wf (es_db s) -> arr32 (tx_signer tx) -> bytes_ok (ti_data ix) ->
  execute_instruction tx ix s = (s', r) ->
  db_wf (es_db s') /\
  let step := ledger_step (program_ix ix) (tx_signer tx) (tx_account_keys tx)
                (db_view (es_db s)) (db_view (es_db s')) in
  match r with
  | Ok _ => step
  | Err _ => es_db s' = es_db s \/ step
  end.
Proof.
  intros Hwf Hs Hd. unfold execute_instruction. unfold pbind at 1. cbn [ctx_log pmod].
  destruct (signer_metas_ok tx ix); cbn [negb]; [|intros [= <- <-]; simpl; eauto].
  unfold pbind at 1. cbn [es_db].
  destruct (process_instruction (es_db s) (program_ix ix) (tx_signer tx) (tx_account_keys tx))
    as [db' res] eqn:Hrun.
  pose proof (process_instruction_ok _ (program_ix ix) _ _ _ res Hwf Hs Hd Hrun) as Hok.
  pose proof (process_instruction_fail _ _ _ _ _ _ Hrun) as Hfail.
  match goal with |- pbind _ (fun _ => ?k) ?s1 = _ -> _ =>
    destruct (log_all_run (res_logs res) k s1) as (s2 & Hs2 & _ & _ & ->) end.
  cbn [es_db] in Hs2. unfold pbind, consume_compute.
  destruct (res_success res); cbn [negb]; case_match; intros [= <- <-]; simpl; rewrite ?Hs2; simpl in *.
  - destruct Hok; [done|]. auto.
  - destruct Hok; auto.
  - destruct Hfail as [-> _]; [done|]. auto.
  - destruct Hfail as [-> _]; [done|]. auto.
Qed.

Lemma execute_instructions_spec tx ixs s s' r :
  db_wf (es_db s) -> arr32 (tx_signer tx) -> Forall (fun ix => bytes_ok (ti_data ix)) ixs ->
  execute_instructions tx ixs s = (s', r) ->
  db_wf (es_db s') /\
  match r with
  | Ok _ => ledger_steps tx ixs (db_view (es_db s)) (db_view (es_db s'))
  | Err _ => forall k,
      (forall ix, ix ∈ ixs -> k ∉ written_keys (program_ix ix) (tx_account_keys tx)) ->
      db_view (es_db s') !! k = db_view (es_db s) !! k
  end.
Proof.
  intros Hwf Hs Hd. revert s Hwf. induction Hd as [|ix ixs Hix _ IH]; intros s Hwf.
  - intros [= <- <-]. split; [done|constructor].
  - simpl. unfold pbind. destruct (execute_instruction tx ix s) as [s1 [[]|err]] eqn:Hrun;
      apply execute_instruction_spec in Hrun as [Hwf1 Hstep]; try done.
    + intros Hrest. apply IH in Hrest as [Hwf' Hrest]; [|done]. split; [done|].
      destruct r as [[]|err].
      * by econstructor.
      * intros k Hk. rewrite Hrest by set_solver. eapply ledger_step_frame; [done|]. set_solver.
    + intros [= <- <-]. split; [done|]. intros k Hk. destruct Hstep as [->|Hstep]; [done|].
      eapply ledger_step_frame; [done|]. set_solver.
Qed.

Lemma rollback_view db0 db keys :
  db_wf db0 -> db_wf db ->
  let db' := rollback_transaction db ((fun key => (key, db_load db0 key)) <$> keys) in
  db_wf db' /\
  forall k, db_view db' !! k = if decide (k ∈ keys) then db_view db0 !! k else db_view db !! k.
Proof.
  intros Hwf0. revert db. induction keys as [|key keys IH]; intros db Hwf.
  { split; [done|]. intros k. by rewrite decide_False by set_solver. }
  simpl. rewrite db_load_view by done.
  assert (Hstep : exists db1, db_wf db1 /\
    (match db_view db0 !! key with
     | Some account => db_store db key account
     | None => (db_remove db key).1 end) = db1 /\
    forall k, db_view db1 !! k = if decide (k = key) then db_view db0 !! k else db_view db !! k).
  { eexists. split; [|split; [reflexivity|]].
    - destruct (db_view db0 !! key) eqn:E; eauto with trust.
    - intros k. destruct (db_view db0 !! key) eqn:E.
      + rewrite db_store_view by eauto with trust. rewrite lookup_insert.
        repeat case_decide; congruence.
      + rewrite db_remove_view by done. rewrite lookup_delete. repeat case_decide; congruence. }
  destruct Hstep as (db1 & Hwf1 & -> & Hv1). destruct (IH db1 Hwf1) as [Hwf' Hv'].
  split; [done|]. intros k. rewrite Hv', Hv1. repeat case_decide; set_solver.
Qed.

(** The fee is charged exactly when the checks admit it. *)
Lemma fee_payment_spec db tx s r :
  db_wf db -> tx_ok tx -> validate tx = Ok tt -> verify_signature tx = true ->
  execute_fee_payment tx (mkExec db (ctx_new (tx_compute_budget tx))) = (s, r) ->
  match r with
  | Ok _ => db_wf (es_db s) /\ fee_charged (db_view db) tx = Some (db_view (es_db s))
  | Err _ => es_db s = db /\ fee_charged (db_view db) tx = None
  end.
Proof.
  intros Hwf (_ & _ & _ & _ & _ & _ & _ & Hfee) Hval Hsig. unfold fee_charged. rewrite Hval, Hsig.
  unfold execute_fee_payment, consume_compute, ctx_log, pbind, pget, plift, pmod. simpl.
  change (wrap64 (0 + 150)) with 150. rewrite Z.ltb_antisym, db_load_view by done.
  destruct (150 <=? tx_compute_budget tx); simpl; [|by intros [= <- <-]].
  destruct (db_view db !! tx_signer tx) as [a|] eqn:Ha; simpl; [|by intros [= <- <-]].
  rewrite Z.ltb_antisym. destruct (Z.leb_spec (tx_fee tx) (lamports a)) as [Hle|Hgt]; simpl;
    [|by intros [= <- <-]].
  intros [= <- <-]. simpl. pose proof (db_view_ok _ _ _ Hwf Ha) as Hok.
  assert (account_ok (set_lamports a (lamports a - tx_fee tx))).
  { apply set_lamports_ok; [done|]. apply is_u64_sub; [apply Hok|u64_unfold; lia]. }
  by rewrite db_store_view by done; split; [apply db_store_wf|].
Qed.

Lemma tx_ok_data tx : tx_ok tx -> Forall (fun ix => bytes_ok (ti_data ix)) (tx_instructions tx).
Proof.
  intros (_ & _ & _ & _ & Hixs & _). eapply Forall_impl; [|exact Hixs]. unfold ix_ok. tauto.
Qed.

(** All outcomes of a transaction. *)
Lemma execute_transaction_cases e tx e' r :
  db_wf (ex_db e) -> tx_ok tx -> execute_transaction e tx = (e', r) ->
  db_wf (ex_db e') /\
  match fee_charged (db_view (ex_db e)) tx with
  | None => tr_success r = false /\ ex_db e' = ex_db e /\ tr_fee_paid r = 0
  | Some m1 =>
      if tr_success r
      then ledger_steps tx (tx_instructions tx) m1 (db_view (ex_db e')) /\ tr_fee_paid r = tx_fee tx
      else (declares_writes tx -> db_view (ex_db e') = m1) /\ tr_fee_paid r = 0
  end.
Proof.
  intros Hwf Htx. unfold execute_transaction.
  destruct (validate tx) as [[]|err] eqn:Hval.
  2: { intros [= <- <-]. split; [done|]. unfold fee_charged. by rewrite Hval. }
  destruct (verify_signature tx) eqn:Hsig; cbn [negb].
  2: { intros [= <- <-]. split; [done|]. unfold fee_charged. by rewrite Hval, Hsig. }
  cbn [lock_accounts ex_db].
  destruct (execute_fee_payment _ _) as [s r0] eqn:Hfee.
  apply fee_payment_spec in Hfee; [|done..]. destruct r0 as [[]|err].
  2: { intros [= <- <-]. destruct Hfee as [-> ->]. done. }
  destruct Hfee as [Hwf1 ->].
  destruct (execute_instructions tx (tx_instructions tx) s) as [s' r1] eqn:Hixs.
  apply execute_instructions_spec in Hixs as [Hwf2 Hixs]; [|done|apply Htx|by apply tx_ok_data].
  destruct r1 as [[]|err]; intros [= <- <-]; [by split|].
  cbn [set_db ex_db result_failure tr_success tr_fee_paid]. unfold snapshot_transaction.
  destruct (rollback_view (es_db s) (es_db s') (mutable_accounts tx) Hwf1 Hwf2) as [Hwf3 Hv].
  split; [done|]. split; [|done]. intros Hdecl. apply map_eq. intros k. rewrite Hv.
  case_decide; [done|]. apply Hixs. intros ix Hix Hk. by eapply Hdecl in Hk.
Qed.

(** C1. Executing a transaction implements its specification.  When
    validation, the Ed25519 check, the compute budget or the fee payer's
    balance rule it out, the database is untouched.  Otherwise the fee is
    charged first; a successful transaction then applies each instruction's
    ledger rule in order, and a failed one is atomic: the accounts are exactly
    those after the fee payment, provided the transaction declares as writable
    every account its programs write. *)
Theorem execute_transaction_refines e tx :
  db_wf (ex_db e) -> tx_ok tx ->
  let '(e', r) := execute_transaction e tx in
  db_wf (ex_db e') /\
  match fee_charged (db_view (ex_db e)) tx with
  | None => tr_success r = false /\ ex_db e' = ex_db e /\ tr_fee_paid r = 0
  | Some m1 =>
      if tr_success r
      then ledger_steps tx (tx_instructions tx) m1 (db_view (ex_db e')) /\ tr_fee_paid r = tx_fee tx
      else (declares_writes tx -> db_view (ex_db e') = m1) /\ tr_fee_paid r = 0
  end.
Proof.
  intros Hwf Htx. destruct (execute_transaction e tx) as [e' r] eqn:Hrun.
  by eapply execute_transaction_cases.
Qed.
End ExecutorCorrect.

(** ** Ledger-wide consequences *)

Fixpoint minted_by (tx : Transaction) (ixs : list TxInstruction) : Z :=
  match ixs with
  | [] => 0
  | ix :: ixs =>
      ledger_minted (program_ix ix) (tx_signer tx) (tx_account_keys tx) + minted_by tx ixs
  end.

Lemma ledger_steps_supply tx ixs m m' :
  ledger_steps tx ixs m m' -> supply m' = supply m + minted_by tx ixs.
Proof.
  induction 1 as [|ix ixs m m1 m2 Hstep _ IH]; simpl; [lia|].
  apply ledger_step_supply in Hstep. lia.
Qed.

Lemma ledger_steps_token_inv tx ixs m m' : ledger_steps tx ixs m m' -> token_inv m -> token_inv m'.
Proof. induction 1; eauto using ledger_step_token_inv. Qed.

Lemma fee_charged_Some `{Sha256, Ed25519} m tx m1 :
  fee_charged m tx = Some m1 ->
  exists a, m !! tx_signer tx = Some a /\
    m1 = <[tx_signer tx := set_lamports a (lamports a - tx_fee tx)]> m.
Proof. unfold fee_charged. intros Hf. repeat case_match; simplify_eq. eauto. Qed.

Lemma fee_charged_supply `{Sha256, Ed25519} m tx m1 :
  fee_charged m tx = Some m1 -> supply m1 = supply m - tx_fee tx.
Proof.
  intros (a & Ha & ->)%fee_charged_Some. rewrite supply_insert', (balance_Some _ _ a) by done.
  simpl. lia.
Qed.

Lemma fee_charged_token_inv `{Sha256, Ed25519} m tx m1 :
  fee_charged m tx = Some m1 -> token_inv m -> token_inv m1.
Proof.
  intros (a & Ha & ->)%fee_charged_Some Hinv. apply (token_inv_same_data m _ a); try done.
  by destruct (data a).
Qed.

(** A mint can only be created under the signer's own key, which holds an
    account once the fee is paid. *)
Lemma initialize_mint_blocked tx ixs m m' ix :
  ledger_steps tx ixs m m' -> is_Some (m !! tx_signer tx) -> ix ∈ ixs ->
  ti_program_id ix = token_program_id ->
  TokenInstruction.from_data (ti_data ix) = Ok TokenInstruction.InitializeMint -> False.
Proof.
  intros Hsteps Hs Hin Hp Hd. induction Hsteps as [|ix' ixs m m1 m2 Hstep _ IH]; [set_solver|].
  apply elem_of_cons in Hin as [<-|Hin].
  - destruct Hstep as [i Hp' Hi _|i _ Hi Hstep]; simpl in *; [rewrite Hp in Hp'; discriminate Hp'|].
    rewrite Hd in Hi. injection Hi as <-. inversion Hstep; subst. destruct Hs. congruence.
  - apply IH; [|done]. by eapply ledger_step_keeps.
Qed.

Section ExecutorProperties.
Context {DB : Type} `{Laws : AccountsStoreLaws DB} `{Sha : Sha256} `{Ed : Ed25519}.
Implicit Types (e : Executor DB) (tx : Transaction).

(** The books of one transaction: fee out, mints in, token invariant kept. *)
Lemma execute_transaction_books e tx e' r :
  db_wf (ex_db e) -> tx_ok tx -> declares_writes tx -> token_inv (db_view (ex_db e)) ->
  execute_transaction e tx = (e', r) ->
  token_inv (db_view (ex_db e')) /\
  supply (db_view (ex_db e')) =
    supply (db_view (ex_db e))
    - (match fee_charged (db_view (ex_db e)) tx with Some _ => tx_fee tx | None => 0 end)
    + (if tr_success r then minted_by tx (tx_instructions tx) else 0).
Proof.
  intros Hwf Htx Hdecl Hinv Hrun.
  apply execute_transaction_cases in Hrun as [_ Hcase]; [|done|done].
  destruct (fee_charged _ tx) as [m1|] eqn:Hfee.
  - pose proof (fee_charged_supply _ _ _ Hfee). pose proof (fee_charged_token_inv _ _ _ Hfee Hinv).
    destruct (tr_success r).
    + destruct Hcase as [Hsteps _]. split; [by eapply ledger_steps_token_inv|].
      apply ledger_steps_supply in Hsteps. lia.
    + destruct Hcase as [Hv _]. rewrite Hv by done. split; [done|lia].
  - destruct Hcase as (-> & -> & _). split; [done|lia].
Qed.

(** C18. The books balance across a whole transaction that declares as
    writable every account its programs write: the token invariant is
    preserved, and the lamport supply falls by the fee when it is charged
    (fees are credited to nobody) and changes otherwise only by what the
    instructions of a successful transaction mint. *)
Theorem execute_transaction_supply e tx :
  db_wf (ex_db e) -> tx_ok tx -> declares_writes tx -> token_inv (db_view (ex_db e)) ->
  let '(e', r) := execute_transaction e tx in
  token_inv (db_view (ex_db e')) /\
  supply (db_view (ex_db e')) =
    supply (db_view (ex_db e))
    - (match fee_charged (db_view (ex_db e)) tx with Some _ => tx_fee tx | None => 0 end)
    + (if tr_success r then minted_by tx (tx_instructions tx) else 0).
Proof.
  intros Hwf Htx Hdecl Hinv. destruct (execute_transaction e tx) as [e' r] eqn:Hrun.
  by eapply execute_transaction_books.
Qed.

(** C34. No transaction can create a mint: [InitializeMint] requires the
    signer's own key to hold no account, but the signer has paid the fee from
    that account, so every transaction with an [InitializeMint] fails. *)
Theorem initialize_mint_never_succeeds e tx ix :
  db_wf (ex_db e) -> tx_ok tx -> ix ∈ tx_instructions tx ->
  ti_program_id ix = token_program_id ->
  TokenInstruction.from_data (ti_data ix) = Ok TokenInstruction.InitializeMint ->
  tr_success (execute_transaction e tx).2 = false.
Proof.
  intros Hwf Htx Hin Hp Hd. destruct (execute_transaction e tx) as [e' r] eqn:Hrun. simpl.
  apply execute_transaction_cases in Hrun as [_ Hcase]; [|done|done].
  destruct (fee_charged _ tx) as [m1|] eqn:Hfee; [|tauto].
  destruct (tr_success r); [|done]. destruct Hcase as [Hsteps _]. exfalso.
  eapply initialize_mint_blocked; try eassumption.
  apply fee_charged_Some in Hfee as (a & _ & ->). rewrite lookup_insert_eq. eauto.
Qed.
End ExecutorProperties.

(** ** Concrete runs *)

Module Examples.
Import Toy.

Definition alice : bytes := toy_pk 7.
Definition bob : bytes := fill32 9.
Definition carol : bytes := fill32 11.

(** A system instruction over the keys [alice; bob; carol]. *)
Definition sys_ix (metas : list TxMeta) (i : SystemInstruction.t) : TxInstruction :=
  mkTxIx system_program_id metas (SystemInstruction.to_data i).

Definition tx_of (ixs : list TxInstruction) : Transaction :=
  tx_sign (mkTx [] alice [alice; bob; carol] ixs (fill32 0) 200000 5000) (7 : @SigningKey toy_ed25519).

Definition ledger (n : Z) : Executor (gmap bytes Account) :=
  executor_new {[ alice := new_system_account alice n ]}.

Definition payer : TxMeta := mkTxMeta 0 true true.

(** A transfer to an account the transaction marks read-only, followed by an
    instruction that fails. *)
Definition undeclared_write : Transaction :=
  tx_of [sys_ix [payer; mkTxMeta 1 false false] (SystemInstruction.Transfer 1000);
         sys_ix [] SystemInstruction.NonceInitialize].

(** Programs do not check [is_writable], and rollback restores writable
    accounts only: the failed transaction refunds the payer but leaves the
    credit, so 1000 lamports come from nowhere. *)
Lemma rollback_misses_undeclared_write :
  let '(e', r) := execute_transaction (ledger 1000000) undeclared_write in
  tr_success r = false /\ balance (ex_db e') alice = 995000 /\ balance (ex_db e') bob = 1000 /\
  supply (ex_db e') = supply (ex_db (ledger 1000000)) - 5000 + 1000.
Proof. vm_compute. repeat split. Qed.

(** Two transactions of one payer that write different accounts do not
    conflict, so the scheduler puts them in one batch; with funds for only
    one of them the batch's outcome depends on which thread runs first. *)
Definition pay (i : Z) : Transaction :=
  tx_of [sys_ix [mkTxMeta 0 true false; mkTxMeta i false true] (SystemInstruction.Transfer 1000)].

Lemma batch_order_matters :
  batch_transactions <$> batches (schedule (enqueue_batch default_solana [pay 1; pay 2])) =
    [[pay 1; pay 2]] /\
  balance (ex_db (execute_sequence (ledger 6000) [pay 1; pay 2]).1) bob = 1000 /\
  balance (ex_db (execute_sequence (ledger 6000) [pay 2; pay 1]).1) bob = 0.
Proof. vm_compute. repeat split. Qed.
End Examples.
