(* ===== verification/Serial.v ===== *)
(** * Parallel execution is serializable

    What a transaction does depends only on the accounts it names, and it
    changes only those it may write.  Transactions that do not conflict
    therefore commute, and a batch leaves the same accounts in whatever order
    its threads run ([Executor.execute_batch] of src/crates/tx-processor). *)

From S2P Require Import Prelude Crypto Account Store Instruction Vm SystemProgram TokenProgram Processor Transaction Scheduler Executor.
From stdpp Require Import list.
Open Scope Z_scope.

(** ** Locality of the ledger rules *)

(** The accounts an instruction names. *)
Definition named_keys (ix : Instruction) (keys : list bytes) : list bytes :=
  omap (fun meta => keys !! meta_index meta) (account_metas ix).

(** Two ledgers agree on a set of keys. *)
Definition agree_on (K : list bytes) (m1 m2 : gmap bytes Account) : Prop := forall k, k ∈ K -> m1 !! k = m2 !! k.

(** Going from [m1], [m2] to [m1'], [m2'] creates no new difference. *)
Definition no_new_difference (m1 m2 m1' m2' : gmap bytes Account) : Prop :=
  forall k, m1 !! k = m2 !! k -> m1' !! k = m2' !! k.

Lemma no_new_refl m1 m2 : no_new_difference m1 m2 m1 m2.
Proof. by intros k. Qed.

Lemma no_new_insert m1 m2 m1' m2' k a :
  no_new_difference m1 m2 m1' m2' -> no_new_difference m1 m2 (<[k:=a]> m1') (<[k:=a]> m2').
Proof. intros H j Hj. rewrite !lookup_insert. case_decide; [done|]. by apply H. Qed.

Lemma no_new_trans m1 m2 m1' m2' m1'' m2'' :
  no_new_difference m1 m2 m1' m2' -> no_new_difference m1' m2' m1'' m2'' -> no_new_difference m1 m2 m1'' m2''.
Proof. intros H1 H2 k Hk. by apply H2, H1. Qed.

Lemma agree_on_next K m1 m2 m1' m2' : agree_on K m1 m2 -> no_new_difference m1 m2 m1' m2' -> agree_on K m1' m2'.
Proof. intros Ha Hn k Hk. by apply Hn, Ha. Qed.

#[local] Hint Resolve no_new_refl no_new_insert : core.

Lemma ledger_step_local ix signer keys m1 m2 m1' :
  agree_on (signer :: named_keys ix keys) m1 m2 -> ledger_step ix signer keys m1 m1' ->
  exists m2', ledger_step ix signer keys m2 m2' /\ no_new_difference m1 m2 m1' m2'.
Proof.
  intros Ha Hstep. assert (Hsig : m1 !! signer = m2 !! signer) by (apply Ha; left).
  assert (Hk : forall meta j, meta ∈ account_metas ix -> keys !! meta_index meta = Some j -> m1 !! j = m2 !! j).
  { intros meta j Hin Hj. apply Ha. right. apply list_elem_of_omap. eauto. }
  destruct Hstep as [i Hp Hi Hstep|i Hp Hi Hstep].
  - destruct Hstep as [n fm tm rest to fa Hm H1 H2 H3 H4 H5|n sp o pm nm rest nk pa Hm H1 H2 H3 H4 H5 H6|o mt rest a Hm H1 H2 H3];
      rewrite Hm in Hk.
    + assert (E : account_or_new m1 to = account_or_new m2 to)
        by (unfold account_or_new; by rewrite (Hk tm to) by set_solver).
      rewrite E in *. eexists. split; [eapply ledger_system; [done..|]; eapply step_transfer; try done; by rewrite <- Hsig|auto].
    + eexists. split; [eapply ledger_system; [done..|]; eapply step_create; try done;
        [by rewrite <- (Hk nm nk) by set_solver|by rewrite <- Hsig]|auto].
    + eexists. split; [eapply ledger_system; [done..|]; eapply step_assign; try done; by rewrite <- Hsig|auto].
  - destruct Hstep as [mt rest Hm|mint mt0 mt1 mt2 rest nk ma au su Hm|n mt0 mt1 rest from to fa ta mint au fb tb Hm|
      n mt0 mt1 rest mint dest ma da su au db Hm|n mt0 mt1 rest mint tok ma ta au su tb Hm]; rewrite Hm in Hk;
      (eexists; split; [eapply ledger_token; [done..|]|]).
    + eapply step_initialize_mint; try done. by rewrite <- Hsig.
    + auto.
    + eapply step_initialize_account; try done; [by rewrite <- (Hk mt0 mint) by set_solver|by rewrite <- (Hk mt1 nk) by set_solver].
    + auto.
    + eapply step_token_transfer; try done; [by rewrite <- (Hk mt0 from) by set_solver|by rewrite <- (Hk mt1 to) by set_solver].
    + auto.
    + eapply step_mint_to; try done; [by rewrite <- (Hk mt0 mint) by set_solver|by rewrite <- (Hk mt1 dest) by set_solver].
    + auto.
    + eapply step_burn; try done; [by rewrite <- (Hk mt0 mint) by set_solver|by rewrite <- (Hk mt1 tok) by set_solver].
    + auto.
Qed.

(** ** Compute units *)

(** What a successful instruction reports. *)
Definition instruction_units (ix : Instruction) : Z :=
  if bool_decide (program_id ix = system_program_id) then
    match SystemInstruction.from_data (ix_data ix) with Ok i => wrap64 (150 + system_cost i) | Err _ => 0 end
  else
    match TokenInstruction.from_data (ix_data ix) with Ok i => wrap64 (150 + token_cost i) | Err _ => 0 end.

Section Units.
Context {DB : Type} `{Laws : AccountsStoreLaws DB}.
Implicit Types (db : DB) (s : VmState DB).

Lemma system_units ixd metas signer keys s s' i :
  SystemInstruction.from_data ixd = Ok i -> system_process_instruction ixd metas signer keys s = (s', Ok tt) ->
  budget_consumed (vm_budget s') = wrap64 (budget_consumed (vm_budget s) + system_cost i).
Proof.
  intros Hi. unfold system_process_instruction. rewrite Hi. unfold pbind at 1. cbn [plift].
  unfold process_transfer, process_create_account, process_assign.
  destruct i; intros Hrun; prog_inv Hrun; by prog_clean.
Qed.

Lemma token_units ixd metas signer keys s s' i :
  TokenInstruction.from_data ixd = Ok i -> token_process_instruction ixd metas signer keys s = (s', Ok tt) ->
  budget_consumed (vm_budget s') = wrap64 (budget_consumed (vm_budget s) + token_cost i).
Proof.
  intros Hi. unfold token_process_instruction. rewrite Hi. unfold pbind at 1. cbn [plift].
  unfold process_initialize_mint, process_initialize_account, process_token_transfer, process_mint_to, process_burn.
  destruct i; intros Hrun; prog_inv Hrun;
    repeat match goal with H : load_owned _ _ = _ |- _ => apply load_owned_state in H; subst end; by prog_clean.
Qed.

Lemma process_units db ix signer keys db' res :
  process_instruction db ix signer keys = (db', res) -> res_success res = true ->
  res_compute_units res = instruction_units ix.
Proof.
  unfold process_instruction, dispatch, instruction_units. cbv beta zeta.
  change (fill32 1) with system_program_id. change (fill32 2) with token_program_id.
  case_bool_decide as E1; [|case_bool_decide as E2]; cbv [pbind]; rewrite ?dispatch_charge by lia.
  - destruct (system_process_instruction _ _ _ _ _) as [s' [[]|e]] eqn:Hrun; intros [= <- <-] Hok; [|done].
    destruct (SystemInstruction.from_data (ix_data ix)) as [i|e] eqn:Hi.
    + apply (system_units _ _ _ _ _ _ i Hi) in Hrun. exact Hrun.
    + unfold system_process_instruction, pbind, plift in Hrun. by rewrite Hi in Hrun.
  - destruct (token_process_instruction _ _ _ _ _) as [s' [[]|e]] eqn:Hrun; intros [= <- <-] Hok; [|done].
    destruct (TokenInstruction.from_data (ix_data ix)) as [i|e] eqn:Hi.
    + apply (token_units _ _ _ _ _ _ i Hi) in Hrun. exact Hrun.
    + unfold token_process_instruction, pbind, plift in Hrun. by rewrite Hi in Hrun.
  - destruct (db_load _ _) as [a|]; [destruct (executable a)|]; by intros [= <- <-].
Qed.
End Units.

(** ** Locality of a transaction *)

(** The accounts a transaction names: its fee payer and those of its metas. *)
Definition touched (tx : Transaction) : list bytes := tx_signer tx :: read_accounts tx ++ write_accounts tx.

Lemma named_touched tx ix k : ix ∈ tx_instructions tx ->
  k ∈ tx_signer tx :: named_keys (program_ix ix) (tx_account_keys tx) -> k ∈ touched tx.
Proof.
  intros Hix [->|Hk]%elem_of_cons; [by left|]. right. unfold named_keys in Hk.
  apply list_elem_of_omap in Hk as (meta & Hm & Hk). cbn [program_ix account_metas] in Hm.
  apply list_elem_of_fmap in Hm as (t & -> & Ht). cbn [meta_index] in Hk. apply elem_of_app.
  assert (H : forall f : TxMeta -> bool, f t = true -> k ∈ accounts_where f tx).
  { intros f Hf. unfold accounts_where. apply list_elem_of_join.
    exists (omap (fun a => if f a then resolve tx (tm_index a) else None) (ti_accounts ix)). split.
    - apply list_elem_of_omap. exists t. split; [exact Ht|]. rewrite Hf. exact Hk.
    - apply list_elem_of_fmap. by exists ix. }
  unfold read_accounts, write_accounts. destruct (tm_is_writable t) eqn:Hw; [right|left]; apply H; by rewrite ?Hw.
Qed.

Section TxLocal.
Context {DB : Type} `{Laws : AccountsStoreLaws DB} `{Sha : Sha256} `{Ed : Ed25519}.
Implicit Types (s : ExecState DB) (e : Executor DB) (tx : Transaction).

(** Two runs of a transaction at the same point. *)
Record exec_rel (tx : Transaction) (s1 s2 : ExecState DB) : Prop := {
  er_wf1 : db_wf (es_db s1);
  er_wf2 : db_wf (es_db s2);
  er_units : ctx_compute_units (es_ctx s1) = ctx_compute_units (es_ctx s2);
  er_max : ctx_max_compute_units (es_ctx s1) = ctx_max_compute_units (es_ctx s2);
  er_agree : agree_on (touched tx) (db_view (es_db s1)) (db_view (es_db s2))
}.

(** An instruction that succeeds ran its program and paid for it. *)
Definition instruction_ran (tx : Transaction) (ix : TxInstruction) (s s' : ExecState DB) : Prop :=
  signer_metas_ok tx ix = true /\ exists res,
    process_instruction (es_db s) (program_ix ix) (tx_signer tx) (tx_account_keys tx) = (es_db s', res) /\
    res_success res = true /\
    ctx_compute_units (es_ctx s') = wrap64 (ctx_compute_units (es_ctx s) + res_compute_units res) /\
    ctx_max_compute_units (es_ctx s') = ctx_max_compute_units (es_ctx s) /\
    ctx_compute_units (es_ctx s') <= ctx_max_compute_units (es_ctx s).

Lemma instruction_ran_intro tx ix s s' : instruction_ran tx ix s s' ->
  exists s2, execute_instruction tx ix s = (s2, Ok tt) /\ es_db s2 = es_db s' /\
    ctx_compute_units (es_ctx s2) = ctx_compute_units (es_ctx s') /\
    ctx_max_compute_units (es_ctx s2) = ctx_max_compute_units (es_ctx s').
Proof.
  intros (Hsm & res & Hr & Hok & Hu & Hm & Hle).
  unfold execute_instruction. unfold pbind at 1. cbn [ctx_log pmod]. rewrite Hsm. cbn [negb].
  unfold pbind at 1. cbn [es_db]. rewrite Hr.
  match goal with |- context [pbind _ (fun _ => ?k) ?s] =>
    destruct (log_all_run (res_logs res) k s) as (t & Hd & Hut & Hmt & ->) end.
  cbn [es_db es_ctx ctx_compute_units ctx_max_compute_units] in *. unfold pbind, consume_compute.
  rewrite Hut, Hmt, <- Hu, (proj2 (Z.ltb_ge _ _) Hle), Hok. eexists. split; [reflexivity|]. cbn. by rewrite Hd, Hm.
Qed.

Lemma instruction_ran_elim tx ix s s' : execute_instruction tx ix s = (s', Ok tt) -> instruction_ran tx ix s s'.
Proof.
  unfold execute_instruction. unfold pbind at 1. cbn [ctx_log pmod].
  destruct (signer_metas_ok tx ix) eqn:Hsm; cbn [negb]; [|done]. unfold pbind at 1. cbn [es_db].
  destruct (process_instruction _ _ _ _) as [db res] eqn:Hr.
  match goal with |- pbind _ (fun _ => ?k) ?s = _ -> _ =>
    destruct (log_all_run (res_logs res) k s) as (t & Hd & Hut & Hmt & ->) end.
  cbn [es_db es_ctx ctx_compute_units ctx_max_compute_units] in *. unfold pbind, consume_compute.
  destruct (Z.ltb_spec (ctx_max_compute_units (es_ctx t)) (wrap64 (ctx_compute_units (es_ctx t) + res_compute_units res)));
    [done|]. destruct (res_success res) eqn:Hok; cbn [negb]; [|done]. intros [= <-].
  split; [done|]. exists res. cbn. rewrite Hd, <- Hut, <- Hmt. by split_and!.
Qed.

Lemma execute_instruction_local tx ix s1 s2 s1' :
  ix ∈ tx_instructions tx -> tx_ok tx -> exec_rel tx s1 s2 ->
  execute_instruction tx ix s1 = (s1', Ok tt) ->
  exists s2', execute_instruction tx ix s2 = (s2', Ok tt) /\ exec_rel tx s1' s2' /\
    no_new_difference (db_view (es_db s1)) (db_view (es_db s2)) (db_view (es_db s1')) (db_view (es_db s2')).
Proof.
  intros Hix Htx [Hw1 Hw2 Hu Hm Ha] (Hsm & res1 & Hr1 & Hok1 & Hu1 & Hm1 & Hle)%instruction_ran_elim.
  assert (Hs : arr32 (tx_signer tx)) by apply Htx.
  assert (Hd : bytes_ok (ti_data ix)).
  { pose proof (tx_ok_data tx Htx) as Hall. rewrite Forall_forall in Hall. by apply Hall. }
  destruct (process_instruction_ok _ (program_ix ix) _ _ _ res1 Hw1 Hs Hd Hr1 Hok1) as [Hw1' Hstep].
  destruct (ledger_step_local _ _ _ _ (db_view (es_db s2)) _ (fun k Hk => Ha k (named_touched tx ix k Hix Hk)) Hstep)
    as (m2' & Hstep2 & Hno).
  destruct (process_instruction_complete _ (program_ix ix) _ _ m2' Hw2 Hs Hd Hstep2) as (db2 & res2 & Hr2 & Hok2 & <-).
  destruct (process_instruction_ok _ (program_ix ix) _ _ _ res2 Hw2 Hs Hd Hr2 Hok2) as [Hw2' _].
  assert (Hunits : res_compute_units res2 = res_compute_units res1)
    by (by rewrite (process_units _ _ _ _ _ _ Hr1 Hok1), (process_units _ _ _ _ _ _ Hr2 Hok2)).
  destruct (instruction_ran_intro tx ix s2 (mkExec db2 (es_ctx s1'))) as (s2' & Hrun & Hdb & Hu2 & Hm2).
  { split; [done|]. exists res2. cbn [es_db es_ctx]. rewrite Hunits, <- Hu, <- Hm. by split_and!. }
  exists s2'. cbn [es_db es_ctx] in *. split; [done|]. rewrite Hdb. split; [|done].
  constructor; rewrite ?Hdb; [done..|by eapply agree_on_next].
Qed.

Lemma execute_instructions_local tx ixs s1 s2 s1' :
  (forall ix, ix ∈ ixs -> ix ∈ tx_instructions tx) -> tx_ok tx -> exec_rel tx s1 s2 ->
  execute_instructions tx ixs s1 = (s1', Ok tt) ->
  exists s2', execute_instructions tx ixs s2 = (s2', Ok tt) /\ exec_rel tx s1' s2' /\
    no_new_difference (db_view (es_db s1)) (db_view (es_db s2)) (db_view (es_db s1')) (db_view (es_db s2')).
Proof.
  intros Hin Htx. revert s1 s2. induction ixs as [|ix ixs IH]; intros s1 s2 Hrel.
  { intros [= <-]. exists s2. by split_and!. }
  cbn [execute_instructions]. rewrite pbind_Ok. intros (t1 & [] & Hix & Hrest).
  destruct (execute_instruction_local tx ix s1 s2 t1) as (t2 & Hix2 & Hrel2 & Hno); [by apply Hin; left|done..|].
  destruct (IH (fun i Hi => Hin i (list_elem_of_further _ _ _ Hi)) t1 t2 Hrel2 Hrest) as (s2' & Hrest2 & Hrel' & Hno').
  exists s2'. split_and!; [|done|by eapply no_new_trans]. rewrite pbind_Ok. by exists t2, tt.
Qed.

Lemma fee_ctx tx (db : DB) ctx s : execute_fee_payment tx (mkExec db ctx) = (s, Ok tt) ->
  ctx_compute_units (es_ctx s) = wrap64 (ctx_compute_units ctx + 150) /\
  ctx_max_compute_units (es_ctx s) = ctx_max_compute_units ctx.
Proof.
  unfold execute_fee_payment, consume_compute, ctx_log, pbind, pget, plift, pmod, pfail. cbn [es_db es_ctx].
  destruct (_ <? _); [done|]. destruct (db_load db (tx_signer tx)) as [a|]; cbn [ok_or]; [|done].
  destruct (_ <? _); [done|]. by intros [= <-].
Qed.

Lemma fee_charged_local m1 m2 tx m1' : m1 !! tx_signer tx = m2 !! tx_signer tx -> fee_charged m1 tx = Some m1' ->
  exists m2', fee_charged m2 tx = Some m2' /\ no_new_difference m1 m2 m1' m2'.
Proof.
  intros E. unfold fee_charged. rewrite E. destruct (validate tx) as [u|]; [|done]. destruct (_ && _); [|done].
  destruct (m2 !! tx_signer tx) as [a|]; [|done]. destruct (_ <=? _); [|done]. intros [= <-]. eauto.
Qed.

(** A transaction that succeeds on one ledger succeeds on every ledger that
    agrees on what it names. *)
Lemma success_local e1 e2 tx :
  db_wf (ex_db e1) -> db_wf (ex_db e2) -> tx_ok tx -> agree_on (touched tx) (db_view (ex_db e1)) (db_view (ex_db e2)) ->
  tr_success (execute_transaction e1 tx).2 = true ->
  tr_success (execute_transaction e2 tx).2 = true /\
  no_new_difference (db_view (ex_db e1)) (db_view (ex_db e2))
    (db_view (ex_db (execute_transaction e1 tx).1)) (db_view (ex_db (execute_transaction e2 tx).1)).
Proof.
  intros Hw1 Hw2 Htx Ha. assert (Hsig : db_view (ex_db e1) !! tx_signer tx = db_view (ex_db e2) !! tx_signer tx) by (apply Ha; left).
  unfold execute_transaction. destruct (validate tx) as [[]|] eqn:Hval; [|done].
  destruct (verify_signature tx) eqn:Hver; cbn [negb]; [|done]. cbn [lock_accounts ex_db].
  destruct (execute_fee_payment tx (mkExec (ex_db e1) _)) as [s1 [[]|]] eqn:F1; [|done].
  destruct (execute_fee_payment tx (mkExec (ex_db e2) _)) as [s2 r2] eqn:F2.
  pose proof (fee_payment_spec _ _ _ _ Hw1 Htx Hval Hver F1) as [Hw1' C1].
  pose proof (fee_payment_spec _ _ _ _ Hw2 Htx Hval Hver F2) as C2.
  destruct (fee_charged_local _ _ _ _ Hsig C1) as (m2 & E2 & Hno). destruct r2 as [[]|]; [|naive_solver].
  destruct C2 as [Hw2' C2]. rewrite C2 in E2. injection E2 as <-.
  assert (Hrel : exec_rel tx s1 s2).
  { destruct (fee_ctx _ _ _ _ F1) as [U1 M1], (fee_ctx _ _ _ _ F2) as [U2 M2].
    constructor; [done..|congruence|congruence|by eapply agree_on_next]. }
  destruct (execute_instructions tx (tx_instructions tx) s1) as [s1' [[]|]] eqn:X1; [|done].
  destruct (execute_instructions_local tx _ s1 s2 s1' (fun _ Hin => Hin) Htx Hrel X1) as (s2' & -> & _ & Hno').
  intros _. split; [done|]. cbn. by eapply no_new_trans.
Qed.

Lemma agree_on_sym K m1 m2 : agree_on K m1 m2 -> agree_on K m2 m1.
Proof. intros Hag k Hk. symmetry. by apply Hag. Qed.

(** A transaction that declares its writes does the same on two ledgers that
    agree on what it names. *)
Lemma execute_transaction_local e1 e2 tx :
  db_wf (ex_db e1) -> db_wf (ex_db e2) -> tx_ok tx -> declares_writes tx ->
  agree_on (touched tx) (db_view (ex_db e1)) (db_view (ex_db e2)) ->
  tr_success (execute_transaction e1 tx).2 = tr_success (execute_transaction e2 tx).2 /\
  no_new_difference (db_view (ex_db e1)) (db_view (ex_db e2))
    (db_view (ex_db (execute_transaction e1 tx).1)) (db_view (ex_db (execute_transaction e2 tx).1)).
Proof.
  intros Hw1 Hw2 Htx Hd Ha.
  pose proof (success_local e1 e2 tx Hw1 Hw2 Htx Ha) as S12.
  pose proof (success_local e2 e1 tx Hw2 Hw1 Htx (agree_on_sym _ _ _ Ha)) as S21.
  destruct (execute_transaction e1 tx) as [e1' r1] eqn:E1, (execute_transaction e2 tx) as [e2' r2] eqn:E2.
  cbn [fst snd] in *. destruct (tr_success r1) eqn:R1.
  { destruct S12 as [-> Hno]; [done|]. by split. }
  destruct (tr_success r2) eqn:R2; [destruct S21; [done|congruence]|]. split; [done|].
  apply execute_transaction_cases in E1 as [_ C1]; [|done..]. apply execute_transaction_cases in E2 as [_ C2]; [|done..].
  rewrite R1 in C1. rewrite R2 in C2.
  assert (Hsig : db_view (ex_db e1) !! tx_signer tx = db_view (ex_db e2) !! tx_signer tx) by (apply Ha; left).
  destruct (fee_charged (db_view (ex_db e1)) tx) as [m1|] eqn:F1.
  - destruct (fee_charged_local _ _ _ _ Hsig F1) as (m2 & F2 & Hno). rewrite F2 in C2.
    destruct C1 as [C1 _], C2 as [C2 _]. by rewrite C1, C2.
  - destruct (fee_charged (db_view (ex_db e2)) tx) as [m2|] eqn:F2.
    + destruct (fee_charged_local _ _ _ _ (eq_sym Hsig) F2) as (m1 & F1' & _). congruence.
    + destruct C1 as (_ & -> & _), C2 as (_ & -> & _). apply no_new_refl.
Qed.

(** It changes only accounts it may write. *)
Lemma ledger_steps_frame tx ixs m m' k :
  (forall ix, ix ∈ ixs -> k ∉ written_keys (program_ix ix) (tx_account_keys tx)) ->
  ledger_steps tx ixs m m' -> m' !! k = m !! k.
Proof.
  intros Hk Hs. induction Hs as [m|ix ixs m m1 m2 Hstep _ IH]; [done|].
  rewrite IH by (intros i Hi; apply Hk; by right). eapply ledger_step_frame; [done|]. apply Hk. by left.
Qed.

Lemma execute_transaction_frame e tx k :
  db_wf (ex_db e) -> tx_ok tx -> declares_writes tx -> k ∉ mutable_accounts tx ->
  db_wf (ex_db (execute_transaction e tx).1) /\
  db_view (ex_db (execute_transaction e tx).1) !! k = db_view (ex_db e) !! k.
Proof.
  intros Hw Htx Hd Hk. destruct (execute_transaction e tx) as [e' r] eqn:E.
  apply execute_transaction_cases in E as [Hw' C]; [|done..]. split; [done|]. cbn [fst].
  assert (Hsig : k <> tx_signer tx) by (intros ->; apply Hk, elem_of_mutable_accounts; by left).
  destruct (fee_charged (db_view (ex_db e)) tx) as [m1|] eqn:F; [|by destruct C as (_ & -> & _)].
  assert (E1 : m1 !! k = db_view (ex_db e) !! k).
  { revert F. unfold fee_charged. destruct (validate tx); [|done]. destruct (_ && _); [|done].
    destruct (_ !! tx_signer tx); [|done]. destruct (_ <=? _); [|done]. intros [= <-]. by rewrite lookup_insert_ne. }
  rewrite <- E1. destruct (tr_success r).
  - destruct C as [C _]. eapply ledger_steps_frame; [|exact C]. intros ix Hix Hin. by apply Hk, (Hd ix k).
  - destruct C as [C _]. by rewrite C.
Qed.
End TxLocal.

(** ** Commutation *)

(** Neither transaction may write what the other names. *)
Definition independent (a b : Transaction) : Prop :=
  (forall k, k ∈ mutable_accounts a -> k ∉ touched b) /\ (forall k, k ∈ mutable_accounts b -> k ∉ touched a).

#[export] Instance independent_sym : Symmetric independent.
Proof. by intros a b [H1 H2]. Qed.

Lemma mutable_touched tx k : k ∈ mutable_accounts tx -> k ∈ touched tx.
Proof. rewrite elem_of_mutable_accounts. unfold touched. set_solver. Qed.

(** What the scheduler relies on: transactions whose writes, the fee payment
    included, are all declared. *)
Definition fully_declared (tx : Transaction) : Prop :=
  tx_ok tx /\ declares_writes tx /\ tx_signer tx ∈ write_accounts tx.

Lemma no_conflict_independent a b :
  fully_declared a -> fully_declared b -> conflicts_with a b = false -> independent a b.
Proof.
  intros (_ & _ & Ha) (_ & _ & Hb) Hc.
  assert (Hn : ~ conflict a b) by (rewrite <- conflicts_with_spec; congruence).
  unfold independent, touched. setoid_rewrite elem_of_mutable_accounts.
  assert (Hw : forall k, k ∈ write_accounts a -> k ∉ read_accounts b /\ k ∉ write_accounts b).
  { intros k Hk. split; intros Hk'; apply Hn; exists k; auto. }
  assert (Hw' : forall k, k ∈ write_accounts b -> k ∉ read_accounts a /\ k ∉ write_accounts a).
  { intros k Hk. split; intros Hk'; apply Hn; exists k; auto. }
  split; intros k Hk Hin; (assert (Hk' : k ∈ write_accounts _) by (destruct Hk as [->|Hk]; [eassumption|exact Hk]));
    first [destruct (Hw k Hk') as [H1 H2] | destruct (Hw' k Hk') as [H1 H2]];
    apply elem_of_cons in Hin as [->|[Hin|Hin]%elem_of_app]; done.
Qed.

Section Commute.
Context {DB : Type} `{Laws : AccountsStoreLaws DB} `{Sha : Sha256} `{Ed : Ed25519}.
Implicit Types (e : Executor DB) (tx a b : Transaction).

(** The same accounts, however stored. *)
Definition same_accounts (e1 e2 : Executor DB) : Prop :=
  db_wf (ex_db e1) /\ db_wf (ex_db e2) /\ db_view (ex_db e1) = db_view (ex_db e2).

Definition run_tx (e : Executor DB) (tx : Transaction) : Executor DB := (execute_transaction e tx).1.
Definition verdict (e : Executor DB) (tx : Transaction) : bool := tr_success (execute_transaction e tx).2.

Definition writes_declared (tx : Transaction) : Prop := tx_ok tx /\ declares_writes tx.

Lemma run_tx_wf e tx : db_wf (ex_db e) -> tx_ok tx -> db_wf (ex_db (run_tx e tx)).
Proof.
  intros Hw Htx. unfold run_tx. destruct (execute_transaction e tx) as [e' r] eqn:E.
  by apply execute_transaction_cases in E as [Hw' _].
Qed.

Lemma run_tx_same e1 e2 tx : same_accounts e1 e2 -> writes_declared tx ->
  same_accounts (run_tx e1 tx) (run_tx e2 tx) /\ verdict e1 tx = verdict e2 tx.
Proof.
  intros (Hw1 & Hw2 & Hv) [Htx Hd].
  destruct (execute_transaction_local e1 e2 tx Hw1 Hw2 Htx Hd) as [Hs Hno]; [by intros k _; rewrite Hv|].
  split; [|done]. split_and!; [by apply run_tx_wf..|]. apply map_eq. intros k. apply Hno. by rewrite Hv.
Qed.

(** The ledger a transaction sees is the same before and after an independent one. *)
Lemma run_tx_unseen e a b : db_wf (ex_db e) -> writes_declared a -> writes_declared b -> independent a b ->
  verdict (run_tx e a) b = verdict e b /\
  no_new_difference (db_view (ex_db (run_tx e a))) (db_view (ex_db e))
    (db_view (ex_db (run_tx (run_tx e a) b))) (db_view (ex_db (run_tx e b))).
Proof.
  intros Hw [Ha Hda] [Hb Hdb] [Hi _]. apply execute_transaction_local; [by apply run_tx_wf|done..|].
  intros k Hk. apply execute_transaction_frame; [done..|]. intros Hm. by apply (Hi k).
Qed.

Lemma run_tx_frame e tx k : db_wf (ex_db e) -> writes_declared tx -> k ∉ mutable_accounts tx ->
  db_view (ex_db (run_tx e tx)) !! k = db_view (ex_db e) !! k.
Proof. intros Hw [Htx Hd] Hk. by apply execute_transaction_frame. Qed.

Lemma run_tx_commute e a b : db_wf (ex_db e) -> writes_declared a -> writes_declared b -> independent a b ->
  same_accounts (run_tx (run_tx e a) b) (run_tx (run_tx e b) a) /\
  verdict (run_tx e a) b = verdict e b /\ verdict (run_tx e b) a = verdict e a.
Proof.
  intros Hw Ha Hb Hi. pose proof Ha as [Hoka _]. pose proof Hb as [Hokb _].
  destruct (run_tx_unseen e a b Hw Ha Hb Hi) as [V1 N1].
  destruct (run_tx_unseen e b a Hw Hb Ha (symmetry Hi)) as [V2 N2].
  split; [|done]. split_and!; [by repeat apply run_tx_wf..|]. apply map_eq. intros k.
  destruct (decide (k ∈ mutable_accounts b)) as [Hkb|Hkb].
  - assert (Hka : k ∉ mutable_accounts a) by (intros Hka; by apply (proj1 Hi k Hka), mutable_touched).
    rewrite (run_tx_frame (run_tx e b) a k) by (by auto using run_tx_wf). apply N1. by apply run_tx_frame.
  - rewrite (run_tx_frame (run_tx e a) b k) by (by auto using run_tx_wf). symmetry. apply N2. by apply run_tx_frame.
Qed.

(** ** Batches *)

(** Each transaction with its verdict. *)
Fixpoint verdicts (e : Executor DB) (txs : list Transaction) : list (Transaction * bool) :=
  match txs with [] => [] | tx :: txs => (tx, verdict e tx) :: verdicts (run_tx e tx) txs end.

Lemma sequence_cons e tx txs : (execute_sequence e (tx :: txs)).1 = (execute_sequence (run_tx e tx) txs).1.
Proof.
  unfold run_tx. cbn [execute_sequence]. destruct (execute_transaction e tx) as [e' r].
  cbn [fst]. by destruct (execute_sequence e' txs).
Qed.

Lemma verdicts_sequence e txs : verdicts e txs = zip txs (tr_success <$> (execute_sequence e txs).2).
Proof.
  revert e. induction txs as [|tx txs IH]; intros e; [done|]. cbn [verdicts execute_sequence]. rewrite IH.
  unfold verdict, run_tx. destruct (execute_transaction e tx) as [e' r]. cbn [fst]. by destruct (execute_sequence e' txs).
Qed.

Lemma sequence_same e1 e2 txs : same_accounts e1 e2 -> Forall writes_declared txs ->
  same_accounts (execute_sequence e1 txs).1 (execute_sequence e2 txs).1 /\ verdicts e1 txs = verdicts e2 txs.
Proof.
  intros Hs Hd. revert e1 e2 Hs. induction Hd as [|tx txs Htx _ IH]; intros e1 e2 Hs; [done|].
  destruct (run_tx_same e1 e2 tx Hs Htx) as [Hs' Hv]. rewrite !sequence_cons. cbn [verdicts].
  destruct (IH _ _ Hs') as [? ->]. by rewrite Hv.
Qed.

(** Transactions pairwise independent. *)
Definition all_independent (txs : list Transaction) : Prop := StronglySorted independent txs.

Lemma all_independent_perm l1 l2 : l1 ≡ₚ l2 -> all_independent l1 -> all_independent l2.
Proof.
  unfold all_independent. induction 1 as [|x l1 l2 Hp IH|x y l|l1 l2 l3 _ IH1 _ IH2]; [done| | |by auto].
  - intros [Hs Hf]%StronglySorted_inv. constructor; [by apply IH|]. by rewrite <- Hp.
  - intros [[Hs Hf]%StronglySorted_inv [Hxy Hf2]%Forall_cons]%StronglySorted_inv.
    constructor; [by constructor|]. constructor; [by apply independent_sym|done].
Qed.

Lemma sequence_perm l1 l2 : l1 ≡ₚ l2 -> forall e, db_wf (ex_db e) -> Forall writes_declared l1 -> all_independent l1 ->
  same_accounts (execute_sequence e l1).1 (execute_sequence e l2).1 /\ verdicts e l1 ≡ₚ verdicts e l2.
Proof.
  induction 1 as [|x l1 l2 Hp IH|x y l|l1 l2 l3 H12 IH1 H23 IH2]; intros e Hw Hd Hi.
  - done.
  - apply Forall_cons in Hd as [Hx Hd]. apply StronglySorted_inv in Hi as [Hi _]. rewrite !sequence_cons. cbn [verdicts].
    destruct (IH (run_tx e x)) as [Hs Hv]; [by apply run_tx_wf, Hx|done..|]. by rewrite Hv.
  - apply Forall_cons in Hd as [Hy Hd]. apply Forall_cons in Hd as [Hx Hd].
    apply StronglySorted_inv in Hi as [_ Hi]. apply Forall_cons in Hi as [Hyx _].
    destruct (run_tx_commute e y x Hw Hy Hx Hyx) as (Hs & V1 & V2).
    destruct (sequence_same _ _ l Hs Hd) as [Hs' Hv]. rewrite !sequence_cons. cbn [verdicts].
    rewrite V1, V2, Hv. split; [done|]. apply Permutation_swap.
  - destruct (IH1 e Hw Hd Hi) as [(W1 & W2 & S1) V1].
    destruct (IH2 e Hw) as [(_ & W3 & S2) V2]; [by rewrite <- H12|by eapply all_independent_perm|].
    split; [|by etrans]. split_and!; [done|done|congruence].
Qed.

Lemma parallel_independent txs : Forall fully_declared txs -> parallel txs -> all_independent txs.
Proof.
  intros Hd. induction Hd as [|tx txs Htx Hd IH]; intros Hp; [constructor|]. constructor.
  - apply IH. intros i j a b Hij Ha Hb. apply (Hp (S i) (S j)); [lia|done..].
  - apply Forall_forall. intros b Hb. apply no_conflict_independent; [done|rewrite Forall_forall in Hd; by apply Hd|].
    apply list_elem_of_lookup in Hb as [j Hj]. by apply (Hp 0%nat (S j)).
Qed.

Lemma fully_declared_writes txs : Forall fully_declared txs -> Forall writes_declared txs.
Proof. intros Hd. eapply Forall_impl; [exact Hd|]. intros tx (? & ? & _). by split. Qed.

(** C2. Parallel execution is serializable.  The transactions of a batch the
    scheduler builds, when each declares as writable every account its programs
    write and its fee payer, leave exactly the same accounts and the same
    verdicts in whatever order their threads run. *)
Theorem batch_serializable e batch order :
  db_wf (ex_db e) -> Forall fully_declared (batch_transactions batch) -> parallel (batch_transactions batch) ->
  order ≡ₚ batch_transactions batch ->
  let '(e1, results1) := execute_sequence e (batch_transactions batch) in
  let '(e2, results2) := execute_sequence e order in
  db_view (ex_db e1) = db_view (ex_db e2) /\
  zip (batch_transactions batch) (tr_success <$> results1) ≡ₚ zip order (tr_success <$> results2).
Proof.
  intros Hw Hd Hp Ho.
  destruct (sequence_perm _ _ (symmetry Ho) e Hw (fully_declared_writes _ Hd) (parallel_independent _ Hd Hp)) as [(_ & _ & Hs) Hv].
  rewrite !verdicts_sequence in Hv. destruct (execute_sequence e (batch_transactions batch)), (execute_sequence e order).
  by split.
Qed.
End Commute.
