(* ===== verification/Mempool.v ===== *)
(** * The mempool ([crates/mempool/src/lib.rs])

    A bounded, deduplicating pool of signed transactions, drained by fee.
    [by_hash] is a hash map, [by_seq] a [BTreeMap] keyed by insertion sequence;
    iteration over it is in ascending key order.  The clock is a parameter of
    the operations that read it. *)

From S2P Require Import Prelude Crypto Account Store Instruction Transaction.
From stdpp Require Import list.
Open Scope Z_scope.

(** [struct MempoolConfig] *)
Record MempoolConfig := mkMempoolConfig {
  max_size : nat;
  max_age_ms : Z;
  min_fee : Z
}.

(** [MempoolConfig::default] *)
Definition mempool_config_default : MempoolConfig := mkMempoolConfig (Z.to_nat 10000) 60000 5000.

(** [enum MempoolError] *)
Inductive MempoolError := InvalidSignature | FeeTooLow | Duplicate | Full.

(** [impl Display for MempoolError] *)
Definition mempool_error_display (e : MempoolError) : string :=
  match e with
  | InvalidSignature => "invalid transaction signature"
  | FeeTooLow => "fee below mempool minimum"
  | Duplicate => "duplicate transaction"
  | Full => "mempool full"
  end.

(** [struct MempoolEntry] *)
Record MempoolEntry := mkEntry {
  me_hash : bytes;
  me_tx : Transaction;
  me_fee : Z;
  me_received_at : Z
}.

(** [MempoolEntry::age_ms] *)
Definition age_ms (e : MempoolEntry) (now : Z) : Z := saturating_sub now (me_received_at e).

(** [struct Inner] *)
Record Inner := mkInner {
  by_hash : gmap bytes Z;
  by_seq : gmap Z MempoolEntry;
  next_seq : Z
}.

(** [Inner::new] *)
Definition inner_new : Inner := mkInner ∅ ∅ 0.

(** [Inner::remove_seq] *)
Definition remove_seq (i : Inner) (seq : Z) : Inner * option MempoolEntry :=
  match by_seq i !! seq with
  | None => (i, None)
  | Some entry =>
      (mkInner (delete (me_hash entry) (by_hash i)) (delete seq (by_seq i)) (next_seq i), Some entry)
  end.

(** [by_seq.iter()]: ascending keys. *)
Definition seq_le (a b : Z * MempoolEntry) : bool := a.1 <=? b.1.
Definition seq_iter (i : Inner) : list (Z * MempoolEntry) := sort_by seq_le (map_to_list (by_seq i)).

(** [Iterator::min_by]: the first least element. *)
Definition min_by {A} (leb : A -> A -> bool) (l : list A) : option A :=
  match l with
  | [] => None
  | x :: l => Some (foldl (fun acc y => if leb acc y then acc else y) x l)
  end.

(** [a.fee.cmp(&b.fee).then(a.seq.cmp(&b.seq))], ascending, and the drain
    order: fee descending, then sequence ascending. *)
Definition cheaper (a b : Z * MempoolEntry) : bool :=
  (me_fee a.2 <? me_fee b.2) || ((me_fee a.2 =? me_fee b.2) && (a.1 <=? b.1)).
Definition drain_le (a b : Z * Z) : bool :=
  (b.1 <? a.1) || ((a.1 =? b.1) && (a.2 <=? b.2)).

(** [struct Mempool] *)
Record Mempool := mkMempool {
  inner : Inner;
  config : MempoolConfig;
  total_accepted : Z;
  total_rejected : Z;
  total_evicted : Z;
  total_expired : Z
}.

(** [Mempool::new] *)
Definition mempool_new (config : MempoolConfig) : Mempool := mkMempool inner_new config 0 0 0 0.
Definition default_pool : Mempool := mempool_new mempool_config_default.

(** [fetch_add] on the counters *)
Definition count_rejected (p : Mempool) : Mempool :=
  mkMempool (inner p) (config p) (total_accepted p) (wrap64 (total_rejected p + 1))
            (total_evicted p) (total_expired p).
Definition count_evicted (p : Mempool) : Mempool :=
  mkMempool (inner p) (config p) (total_accepted p) (total_rejected p)
            (wrap64 (total_evicted p + 1)) (total_expired p).
Definition set_inner (p : Mempool) (i : Inner) : Mempool :=
  mkMempool i (config p) (total_accepted p) (total_rejected p) (total_evicted p) (total_expired p).

(** [Mempool::expire_locked] *)
Definition expire_locked (p : Mempool) (now : Z) : Mempool * nat :=
  let stale := filter (fun '(_, e) => max_age_ms (config p) < age_ms e now) (seq_iter (inner p)) in
  let n := length stale in
  let i := foldl (fun i '(seq, _) => (remove_seq i seq).1) (inner p) stale in
  (mkMempool i (config p) (total_accepted p) (total_rejected p) (total_evicted p)
     (if (0 <? n)%nat then wrap64 (total_expired p + Z.of_nat n) else total_expired p), n).

(** [Mempool::expire] *)
Definition expire (p : Mempool) (now : Z) : Mempool * nat := expire_locked p now.

(** The tail of [insert]: give the transaction the next sequence number. *)
Definition admit_tx `{Sha256} (p : Mempool) (tx : Transaction) (now : Z) : Mempool :=
  let i := inner p in
  let hash := tx_hash tx in
  mkMempool
    (mkInner (<[hash := next_seq i]> (by_hash i))
             (<[next_seq i := mkEntry hash tx (tx_fee tx) now]> (by_seq i))
             (wrap64 (next_seq i + 1)))
    (config p) (wrap64 (total_accepted p + 1)) (total_rejected p) (total_evicted p) (total_expired p).

(** [Mempool::insert] *)
Definition insert `{Sha256, Ed25519} (p : Mempool) (tx : Transaction) (now : Z)
    : Mempool * result bytes MempoolError :=
  if negb (verify_signature tx) then (count_rejected p, Err InvalidSignature)
  else if tx_fee tx <? min_fee (config p) then (count_rejected p, Err FeeTooLow)
  else
    let hash := tx_hash tx in
    if bool_decide (is_Some (by_hash (inner p) !! hash)) then (count_rejected p, Err Duplicate)
    else
      let '(p, _) := expire_locked p now in
      if (max_size (config p) <=? size (by_seq (inner p)))%nat then
        match min_by cheaper (seq_iter (inner p)) with
        | Some (seq, victim) =>
            if me_fee victim <? tx_fee tx then
              let p := count_evicted (set_inner p (remove_seq (inner p) seq).1) in
              (admit_tx p tx now, Ok hash)
            else (count_rejected p, Err Full)
        | None => (count_rejected p, Err Full)
        end
      else (admit_tx p tx now, Ok hash).

(** The removal loop of [drain]. *)
Fixpoint drain_seqs (i : Inner) (seqs : list Z) : Inner * list Transaction :=
  match seqs with
  | [] => (i, [])
  | seq :: seqs =>
      let '(i, o) := remove_seq i seq in
      let '(i, out) := drain_seqs i seqs in
      (i, match o with Some entry => me_tx entry :: out | None => out end)
  end.

(** [Mempool::drain] *)
Definition drain (p : Mempool) (limit : nat) : Mempool * list Transaction :=
  if (limit =? 0)%nat || (size (by_seq (inner p)) =? 0)%nat then (p, [])
  else
    let ordered := sort_by drain_le ((fun '(seq, e) => (me_fee e, seq)) <$> seq_iter (inner p)) in
    let n := Nat.min limit (length ordered) in
    let '(i, out) := drain_seqs (inner p) (take n ordered).*2 in
    (set_inner p i, out).

(** [Mempool::remove] *)
Definition remove (p : Mempool) (hash : bytes) : Mempool * option Transaction :=
  match by_hash (inner p) !! hash with
  | None => (p, None)
  | Some seq =>
      let '(i, o) := remove_seq (inner p) seq in
      (set_inner p i, me_tx <$> o)
  end.

(** [Mempool::contains], [Mempool::len], [Mempool::is_empty] *)
Definition pool_contains (p : Mempool) (hash : bytes) : bool :=
  bool_decide (is_Some (by_hash (inner p) !! hash)).
Definition pool_len (p : Mempool) : nat := size (by_seq (inner p)).
Definition pool_is_empty (p : Mempool) : bool := (pool_len p =? 0)%nat.

(** [Mempool::entries] *)
Definition entry_le (a b : MempoolEntry) : bool :=
  (me_fee b <? me_fee a) || ((me_fee a =? me_fee b) && (me_received_at a <=? me_received_at b)).
Definition entries (p : Mempool) : list MempoolEntry := sort_by entry_le (seq_iter (inner p)).*2.

(** [MempoolStats], [Mempool::stats] *)
Record MempoolStats := mkMempoolStats {
  ms_len : nat; ms_max_size : nat; ms_accepted : Z; ms_rejected : Z; ms_evicted : Z; ms_expired : Z
}.
Definition mempool_stats (p : Mempool) : MempoolStats :=
  mkMempoolStats (pool_len p) (max_size (config p)) (total_accepted p) (total_rejected p)
                 (total_evicted p) (total_expired p).

(** ** Invariant *)

Section MempoolInv.
Context `{Sha : Sha256} `{Ed : Ed25519}.

Record inner_ok (i : Inner) : Prop := {
  ok_index h seq :
    by_hash i !! h = Some seq <-> exists e, by_seq i !! seq = Some e /\ me_hash e = h;
  ok_entry seq e :
    by_seq i !! seq = Some e ->
    0 <= seq < next_seq i /\ me_hash e = tx_hash (me_tx e) /\ me_fee e = tx_fee (me_tx e) /\
    verify_signature (me_tx e) = true
}.

Lemma inner_new_ok : inner_ok inner_new.
Proof. constructor; [|done]. intros h seq. split; [done|]. by intros (e & ? & _). Qed.

(** No two parked transactions have the same hash. *)
Lemma hash_unique i s1 s2 e1 e2 :
  inner_ok i -> by_seq i !! s1 = Some e1 -> by_seq i !! s2 = Some e2 ->
  me_hash e1 = me_hash e2 -> s1 = s2.
Proof.
  intros Hok H1 H2 Heq. assert (by_hash i !! me_hash e1 = Some s1) by (apply Hok; eauto).
  assert (by_hash i !! me_hash e1 = Some s2) by (apply Hok; rewrite Heq; eauto). congruence.
Qed.

Lemma remove_seq_spec i seq :
  inner_ok i ->
  inner_ok (remove_seq i seq).1 /\ by_seq (remove_seq i seq).1 = delete seq (by_seq i) /\
  next_seq (remove_seq i seq).1 = next_seq i /\ (remove_seq i seq).2 = by_seq i !! seq.
Proof.
  intros Hok. unfold remove_seq. destruct (by_seq i !! seq) as [e|] eqn:E; simpl.
  - split_and!; try done. constructor; simpl.
    + intros h s. rewrite lookup_delete_Some, (ok_index _ Hok). split.
      * intros [Hne (e' & He' & <-)]. exists e'. split; [|done].
        rewrite lookup_delete_ne; [done|]. intros ->. congruence.
      * intros (e' & [Hne He']%lookup_delete_Some & <-). split; [|eauto].
        intros Heq. apply Hne. by eapply hash_unique.
    + intros s e' [_ He']%lookup_delete_Some. by apply Hok.
  - split_and!; try done. by rewrite delete_id.
Qed.

Lemma remove_seqs_spec i (seqs : list Z) :
  inner_ok i ->
  let i' := foldl (fun i seq => (remove_seq i seq).1) i seqs in
  inner_ok i' /\ next_seq i' = next_seq i /\
  forall s, by_seq i' !! s = if decide (s ∈ seqs) then None else by_seq i !! s.
Proof.
  revert i. induction seqs as [|seq seqs IH]; intros i Hok; simpl.
  - by split_and!.
  - destruct (remove_seq_spec i seq Hok) as (Hok1 & Hs1 & Hn1 & _).
    destruct (IH _ Hok1) as (Hok2 & Hn2 & Hs2). split_and!; [done|congruence|].
    intros s. rewrite Hs2, Hs1, lookup_delete. repeat case_decide; set_solver.
Qed.

Lemma elem_of_seq_iter i s e : (s, e) ∈ seq_iter i <-> by_seq i !! s = Some e.
Proof. unfold seq_iter. rewrite sort_by_perm. apply elem_of_map_to_list. Qed.

(** The stale entries, and what expiry leaves. *)
Definition stale (p : Mempool) (now : Z) (e : MempoolEntry) : Prop :=
  max_age_ms (config p) < age_ms e now.

Lemma expire_locked_spec p now :
  inner_ok (inner p) ->
  let p' := (expire_locked p now).1 in
  inner_ok (inner p') /\ config p' = config p /\ next_seq (inner p') = next_seq (inner p) /\
  forall s e, by_seq (inner p') !! s = Some e <-> by_seq (inner p) !! s = Some e /\ ~ stale p now e.
Proof.
  intros Hok. unfold expire_locked. simpl.
  set (l := filter _ _).
  assert (Hl : forall s, s ∈ l.*1 <-> exists e, by_seq (inner p) !! s = Some e /\ stale p now e).
  { intros s. rewrite list_elem_of_fmap. unfold l, stale. split.
    - intros ([s' e] & -> & [Hst Hin]%list_elem_of_filter). apply elem_of_seq_iter in Hin. eauto.
    - intros (e & He & Hst). exists (s, e). split; [done|]. apply list_elem_of_filter.
      split; [done|]. by apply elem_of_seq_iter. }
  replace (foldl (fun i '(seq, _) => (remove_seq i seq).1) (inner p) l)
    with (foldl (fun i seq => (remove_seq i seq).1) (inner p) l.*1).
  2: { clear. generalize (inner p). induction l as [|[s e] l IH]; intros i; [done|]. apply IH. }
  destruct (remove_seqs_spec (inner p) l.*1 Hok) as (Hok' & Hn & Hs).
  split_and!; try done. intros s e. rewrite Hs. case_decide as Hd.
  - apply Hl in Hd as (e' & He' & Hst). split; [done|]. intros [He Hn']. congruence.
  - split; [|tauto]. intros He. split; [done|]. intros Hst. apply Hd, Hl. eauto.
Qed.

(** A pool is consistent when the two maps mirror each other, entries carry
    the data of their (verified, sufficiently paying) transaction, and the
    capacity is respected. *)
Record pool_ok (p : Mempool) : Prop := {
  pool_inner : inner_ok (inner p);
  pool_fees seq e : by_seq (inner p) !! seq = Some e -> min_fee (config p) <= me_fee e;
  pool_bound : (size (by_seq (inner p)) <= max_size (config p))%nat
}.

Lemma pool_ok_sub p p' :
  pool_ok p -> config p' = config p -> inner_ok (inner p') ->
  (forall s e, by_seq (inner p') !! s = Some e -> by_seq (inner p) !! s = Some e) -> pool_ok p'.
Proof.
  intros [Hi Hf Hb] Hc Hi' Hsub. constructor; [done| |].
  - intros seq e He. rewrite Hc. eauto.
  - rewrite Hc. etrans; [|exact Hb]. apply map_subseteq_size. by apply map_subseteq_spec.
Qed.

Lemma expire_ok p now : pool_ok p -> pool_ok (expire_locked p now).1.
Proof.
  intros Hp. destruct (expire_locked_spec p now) as (Hi & Hc & _ & Hs); [apply Hp|].
  apply (pool_ok_sub p); try done. intros s e. rewrite Hs. tauto.
Qed.

Lemma remove_seq_ok p seq : pool_ok p -> pool_ok (set_inner p (remove_seq (inner p) seq).1).
Proof.
  intros Hp. destruct (remove_seq_spec (inner p) seq) as (Hi & Hs & _ & _); [apply Hp|].
  apply (pool_ok_sub p); try done. intros s e. simpl. rewrite Hs, lookup_delete_Some. tauto.
Qed.

Lemma admit_ok p tx now :
  pool_ok p -> verify_signature tx = true -> min_fee (config p) <= tx_fee tx ->
  by_hash (inner p) !! tx_hash tx = None -> (size (by_seq (inner p)) < max_size (config p))%nat ->
  0 <= next_seq (inner p) < U64_MAX -> pool_ok (admit_tx p tx now).
Proof.
  intros [Hi Hf Hb] Hsig Hfee Hnew Hlt Hseq.
  assert (Hfresh : by_seq (inner p) !! next_seq (inner p) = None).
  { destruct (by_seq (inner p) !! next_seq (inner p)) eqn:E; [|done]. apply Hi in E. lia. }
  constructor; simpl.
  - constructor; simpl.
    + intros h s. rewrite lookup_insert. case_decide as Hh.
      * subst h. split.
        -- intros [= <-]. eexists. by rewrite lookup_insert_eq.
        -- intros (e & He & Heq). rewrite lookup_insert in He. case_decide; [congruence|].
           assert (by_hash (inner p) !! tx_hash tx = Some s) by (apply Hi; eauto). congruence.
      * rewrite (ok_index _ Hi). split; intros (e & He & Heq).
        -- exists e. rewrite lookup_insert_ne; [done|]. congruence.
        -- rewrite lookup_insert in He. case_decide; simplify_eq/=; eauto.
    + intros s e. unfold wrap64. rewrite Z.mod_small by (u64_unfold; lia). rewrite lookup_insert.
      case_decide; [intros [= <-]; simpl; split_and!; (done || lia)|].
      intros He. apply Hi in He. naive_solver lia.
  - intros s e. rewrite lookup_insert. case_decide; [by intros [= <-]|]. apply Hf.
  - rewrite map_size_insert_None by done. lia.
Qed.

(** [min_by] returns a least element of a non-empty list. *)
Lemma foldl_min {A} (leb : A -> A -> bool) (l : list A) x :
  (forall a b, leb a b = true \/ leb b a = true) ->
  (forall a b c, leb a b = true -> leb b c = true -> leb a c = true) ->
  let y := foldl (fun acc y => if leb acc y then acc else y) x l in
  y ∈ x :: l /\ forall z, z ∈ x :: l -> leb y z = true.
Proof.
  intros Htot Htr. revert x. induction l as [|a l IH]; intros x; simpl.
  - split; [set_solver|]. intros z Hz%list_elem_of_singleton. subst. by destruct (Htot x x).
  - destruct (leb x a) eqn:E.
    + destruct (IH x) as [Hin Hle]. split; [set_solver|].
      intros z Hz. apply elem_of_cons in Hz as [->|Hz]; [apply Hle; set_solver|].
      apply elem_of_cons in Hz as [->|Hz]; [|apply Hle; set_solver].
      eapply Htr; [|exact E]. apply Hle. set_solver.
    + destruct (IH a) as [Hin Hle]. split; [set_solver|].
      intros z Hz. apply elem_of_cons in Hz as [->|Hz]; [|apply Hle; set_solver].
      apply (Htr _ a); [apply Hle; set_solver|]. destruct (Htot x a); congruence.
Qed.

Lemma cheaper_total a b : cheaper a b = true \/ cheaper b a = true.
Proof. unfold cheaper. rewrite !orb_true_iff, !andb_true_iff, !Z.ltb_lt, !Z.eqb_eq, !Z.leb_le. lia. Qed.
Lemma cheaper_trans a b c : cheaper a b = true -> cheaper b c = true -> cheaper a c = true.
Proof. unfold cheaper. rewrite !orb_true_iff, !andb_true_iff, !Z.ltb_lt, !Z.eqb_eq, !Z.leb_le. lia. Qed.

Lemma victim_spec i s e :
  min_by cheaper (seq_iter i) = Some (s, e) ->
  by_seq i !! s = Some e /\ forall s' e', by_seq i !! s' = Some e' -> cheaper (s, e) (s', e') = true.
Proof.
  unfold min_by. intros Hm.
  assert (Hl : forall x, x ∈ seq_iter i <-> by_seq i !! x.1 = Some x.2)
    by (intros []; apply elem_of_seq_iter).
  destruct (seq_iter i) as [|x l] eqn:E; [done|]. injection Hm as Hm.
  destruct (foldl_min cheaper l x cheaper_total cheaper_trans) as [Hin Hle]. rewrite Hm in *.
  split; [by apply (Hl (s, e))|]. intros s' e' He'. apply Hle. by apply (Hl (s', e')).
Qed.

(** Draining a list of parked entries returns exactly them. *)
Lemma drain_seqs_spec i (es : list (Z * MempoolEntry)) :
  inner_ok i -> NoDup es.*1 -> (forall s e, (s, e) ∈ es -> by_seq i !! s = Some e) ->
  let '(i', out) := drain_seqs i es.*1 in
  inner_ok i' /\ out = me_tx <$> es.*2 /\
  forall s e, by_seq i' !! s = Some e <-> by_seq i !! s = Some e /\ s ∉ es.*1.
Proof.
  revert i. induction es as [|[s e] es IH]; intros i Hok Hnd Hin.
  { simpl. split_and!; try done. set_solver. }
  rewrite fmap_cons in *. cbn [fst] in *. apply NoDup_cons in Hnd as [Hs Hnd]. simpl drain_seqs.
  destruct (remove_seq_spec i s Hok) as (Hok1 & Hs1 & _ & Ho).
  destruct (remove_seq i s) as [i1 o]. cbn [fst snd] in *.
  specialize (IH i1 Hok1 Hnd). destruct (drain_seqs i1 es.*1) as [i2 out].
  destruct IH as (Hok2 & -> & Hs2).
  { intros s' e' Hin'. rewrite Hs1, lookup_delete_ne; [apply Hin; set_solver|].
    intros ->. apply Hs. apply list_elem_of_fmap. by exists (s', e'). }
  split_and!; [done| |].
  - rewrite Ho, (Hin s e) by set_solver. done.
  - intros s' e'. rewrite Hs2, Hs1, lookup_delete_Some. set_solver.
Qed.

(** The order in which a block producer receives transactions. *)
Definition drain_order (a b : Z * MempoolEntry) : bool :=
  drain_le (me_fee a.2, a.1) (me_fee b.2, b.1).

Lemma drain_order_total a b : drain_order a b = true \/ drain_order b a = true.
Proof.
  unfold drain_order, drain_le. simpl.
  rewrite !orb_true_iff, !andb_true_iff, !Z.ltb_lt, !Z.eqb_eq, !Z.leb_le. lia.
Qed.
Lemma drain_order_trans a b c : drain_order a b = true -> drain_order b c = true -> drain_order a c = true.
Proof.
  unfold drain_order, drain_le. simpl.
  rewrite !orb_true_iff, !andb_true_iff, !Z.ltb_lt, !Z.eqb_eq, !Z.leb_le. lia.
Qed.

(** Which of two pending entries goes first: the higher fee, then the earlier
    arrival. *)
Definition goes_first (a b : Z * MempoolEntry) : Prop :=
  me_fee b.2 < me_fee a.2 \/ me_fee a.2 = me_fee b.2 /\ a.1 <= b.1.

Lemma drain_order_first a b : drain_order a b = true -> goes_first a b.
Proof.
  unfold drain_order, drain_le, goes_first. simpl.
  rewrite !orb_true_iff, !andb_true_iff, !Z.ltb_lt, !Z.eqb_eq, !Z.leb_le. lia.
Qed.

(** The entries [drain] takes. *)
Definition drained (p : Mempool) (limit : nat) : list (Z * MempoolEntry) :=
  take limit (sort_by drain_order (seq_iter (inner p))).

Lemma sorted_entries_perm i : sort_by drain_order (seq_iter i) ≡ₚ map_to_list (by_seq i).
Proof. by rewrite sort_by_perm; unfold seq_iter; rewrite sort_by_perm. Qed.

Lemma sorted_entries_nodup i : NoDup (sort_by drain_order (seq_iter i)).*1.
Proof. rewrite sorted_entries_perm. apply NoDup_fst_map_to_list. Qed.

Lemma drain_unfold p limit :
  inner_ok (inner p) ->
  let '(p', out) := drain p limit in
  inner_ok (inner p') /\ config p' = config p /\ out = me_tx <$> (drained p limit).*2 /\
  map_to_list (by_seq (inner p')) ≡ₚ drop limit (sort_by drain_order (seq_iter (inner p))).
Proof.
  intros Hok. unfold drain, drained.
  pose proof (sorted_entries_perm (inner p)) as Hperm.
  pose proof (sorted_entries_nodup (inner p)) as Hnd.
  destruct (Nat.eqb_spec limit 0) as [->|Hl]; simpl orb.
  { rewrite take_0, drop_0. split_and!; try done. }
  destruct (Nat.eqb_spec (size (by_seq (inner p))) 0) as [Hz|Hz].
  { apply map_size_empty_inv in Hz. rewrite Hz, map_to_list_empty in Hperm.
    apply Permutation_nil_r in Hperm. rewrite Hperm, take_nil, drop_nil, Hz, map_to_list_empty. done. }
  rewrite (sort_by_fmap (fun '(seq, e) => (me_fee e, seq)) drain_order) by (by intros [] []).
  set (l := sort_by drain_order (seq_iter (inner p))) in *.
  rewrite length_fmap. rewrite <- fmap_take, <- list_fmap_compose.
  replace (take (limit `min` length l) l) with (take limit l).
  2: { destruct (Nat.min_spec limit (length l)) as [[? ->]|[? ->]]; [done|].
       by rewrite (take_ge l limit), (take_ge l (length l)). }
  rewrite (list_fmap_ext _ fst (take limit l)) by (by intros ? [] _).
  pose proof (drain_seqs_spec (inner p) (take limit l) Hok) as Hspec.
  destruct (drain_seqs (inner p) (take limit l).*1) as [i out].
  destruct Hspec as (Hok' & -> & Hs).
  { rewrite fmap_take. eapply sublist_NoDup; [exact Hnd|apply sublist_take]. }
  { intros s e Hin. apply elem_of_map_to_list. rewrite <- Hperm.
    rewrite <- (take_drop limit l), elem_of_app. by left. }
  split_and!; try done. simpl. apply NoDup_Permutation.
  - apply NoDup_map_to_list.
  - eapply NoDup_fmap_1. rewrite fmap_drop. eapply sublist_NoDup; [exact Hnd|apply sublist_drop].
  - intros [s e]. rewrite elem_of_map_to_list, Hs.
    rewrite <- elem_of_map_to_list, <- Hperm.
    rewrite <- (take_drop limit l) in Hnd |- * at 1. rewrite fmap_app in Hnd.
    apply NoDup_app in Hnd as (_ & Hdisj & _). rewrite elem_of_app. split.
    + intros [[Hin|Hin] Hno]; [|done]. exfalso. apply Hno. apply list_elem_of_fmap. by exists (s, e).
    + intros Hin. split; [by right|]. intros Hk. apply (Hdisj s Hk).
      apply list_elem_of_fmap. by exists (s, e).
Qed.
End MempoolInv.

(** ** Properties *)

Section MempoolProperties.
Context `{Sha : Sha256} `{Ed : Ed25519}.

(** A transaction is parked under its sequence number. *)
Definition parked (p : Mempool) (seq : Z) (e : MempoolEntry) : Prop :=
  by_seq (inner p) !! seq = Some e.

(** What a successful insertion may drop besides stale entries: nothing, or
    one victim that no other entry undercuts and that pays less. *)
Definition evicts (p : Mempool) (now : Z) (fee : Z) (victim : option Z) : Prop :=
  match victim with
  | None => True
  | Some s => exists e, parked p s e /\ ~ stale p now e /\ me_fee e < fee /\
      forall s' e', parked p s' e' -> ~ stale p now e' -> cheaper (s, e) (s', e') = true
  end.

(** The pool after a successful insertion of [tx]. *)
Definition inserted (p : Mempool) (tx : Transaction) (now : Z) (p' : Mempool) : Prop :=
  exists victim, evicts p now (tx_fee tx) victim /\
    forall s e, parked p' s e <->
      (s = next_seq (inner p) /\ e = mkEntry (tx_hash tx) tx (tx_fee tx) now) \/
      (parked p s e /\ ~ stale p now e /\ victim <> Some s).

Definition next_seq_grows (p p' : Mempool) : Prop :=
  next_seq (inner p) <= next_seq (inner p') <= next_seq (inner p) + 1.

Lemma no_hash_sub i i' h :
  inner_ok i -> inner_ok i' -> (forall s e, by_seq i' !! s = Some e -> by_seq i !! s = Some e) ->
  by_hash i !! h = None -> by_hash i' !! h = None.
Proof.
  intros Hi Hi' Hsub Hn. destruct (by_hash i' !! h) as [s|] eqn:E; [|done].
  apply Hi' in E as (e & He%Hsub & Hh).
  assert (by_hash i !! h = Some s) by (apply Hi; eauto). congruence.
Qed.

(** Admission into a pool [q] that differs from [p] by stale entries and the
    victim. *)
Lemma admit_inserted p q tx now victim :
  pool_ok q -> config q = config p -> next_seq (inner q) = next_seq (inner p) ->
  0 <= next_seq (inner p) < U64_MAX ->
  verify_signature tx = true -> min_fee (config p) <= tx_fee tx ->
  by_hash (inner q) !! tx_hash tx = None ->
  (size (by_seq (inner q)) < max_size (config q))%nat ->
  evicts p now (tx_fee tx) victim ->
  (forall s e, parked q s e <-> parked p s e /\ ~ stale p now e /\ victim <> Some s) ->
  pool_ok (admit_tx q tx now) /\ config (admit_tx q tx now) = config p /\
  next_seq_grows p (admit_tx q tx now) /\ inserted p tx now (admit_tx q tx now).
Proof.
  intros Hq Hcq Hnq Hseq Hsig Hfee Hhq Hlt Hev Hpk.
  assert (Hnone : forall e, ~ parked q (next_seq (inner p)) e).
  { intros e E. apply (ok_entry _ (pool_inner _ Hq)) in E. lia. }
  split_and!.
  - apply admit_ok; auto; [by rewrite Hcq|lia].
  - done.
  - unfold next_seq_grows. simpl. rewrite Hnq, wrap64_id by (u64_unfold; lia). lia.
  - exists victim. split; [done|]. intros s e. rewrite <- Hpk. unfold parked in *. simpl.
    rewrite Hnq, lookup_insert. case_decide as Hs.
    + subst. split; [intros [= <-]; auto|]. intros [[_ ->]|He]; [done|]. by apply Hnone in He.
    + naive_solver.
Qed.

Definition rejected (p : Mempool) (tx : Transaction) (now : Z) (p' : Mempool) (err : MempoolError)
    : Prop :=
  (forall s e, parked p' s e -> parked p s e) /\
  (forall s e, parked p s e -> ~ stale p now e -> parked p' s e) /\
  match err with
  | InvalidSignature => verify_signature tx = false
  | FeeTooLow => tx_fee tx < min_fee (config p)
  | Duplicate => is_Some (by_hash (inner p) !! tx_hash tx)
  | Full => (max_size (config p) <= size (by_seq (inner p')))%nat /\
            forall s e, parked p' s e -> tx_fee tx <= me_fee e
  end.

Lemma count_rejected_ok p : pool_ok p -> pool_ok (count_rejected p).
Proof. intros []. by constructor. Qed.

Lemma reject_now p tx now err :
  pool_ok p ->
  match err with
  | InvalidSignature => verify_signature tx = false
  | FeeTooLow => tx_fee tx < min_fee (config p)
  | Duplicate => is_Some (by_hash (inner p) !! tx_hash tx)
  | Full => False
  end ->
  pool_ok (count_rejected p) /\ config (count_rejected p) = config p /\
  next_seq_grows p (count_rejected p) /\ rejected p tx now (count_rejected p) err.
Proof.
  intros Hp Herr. split_and!; [by apply count_rejected_ok|done|unfold next_seq_grows; simpl; lia|].
  split_and!; [done|done|]. by destruct err.
Qed.

(** Insertion into a full pool, after expiry. *)
Lemma insert_full p q tx now :
  pool_ok q -> config q = config p -> next_seq (inner q) = next_seq (inner p) ->
  0 <= next_seq (inner p) < U64_MAX ->
  verify_signature tx = true -> min_fee (config p) <= tx_fee tx ->
  by_hash (inner q) !! tx_hash tx = None ->
  (max_size (config q) <= size (by_seq (inner q)))%nat ->
  (forall s e, parked q s e <-> parked p s e /\ ~ stale p now e) ->
  match min_by cheaper (seq_iter (inner q)) with
  | Some (seq, victim) =>
      if me_fee victim <? tx_fee tx then
        let p' := admit_tx (count_evicted (set_inner q (remove_seq (inner q) seq).1)) tx now in
        pool_ok p' /\ config p' = config p /\ next_seq_grows p p' /\ inserted p tx now p'
      else rejected p tx now (count_rejected q) Full
  | None => rejected p tx now (count_rejected q) Full
  end.
Proof.
  intros Hq Hc Hn Hseq Hsig Hfee Hh Hfull Hpk. pose proof (pool_inner _ Hq) as Hi.
  assert (Hrej : (forall s e, parked q s e -> tx_fee tx <= me_fee e) ->
                 rejected p tx now (count_rejected q) Full).
  { intros Hdear. split; [intros s e He; apply (Hpk s e), He|].
    split; [intros s e ? ?; by apply (Hpk s e)|]. rewrite <- Hc. split; [exact Hfull|exact Hdear]. }
  destruct (min_by cheaper (seq_iter (inner q))) as [[seq victim]|] eqn:Hmin.
  - destruct (victim_spec _ _ _ Hmin) as [Hv Hle].
    destruct (Z.ltb_spec (me_fee victim) (tx_fee tx)) as [Hcheap|Hdear].
    + destruct (remove_seq_spec (inner q) seq Hi) as (Hi2 & Hs2 & Hn2 & _).
      apply (admit_inserted p _ tx now (Some seq)); try done.
      * apply (remove_seq_ok q seq) in Hq as [? ? ?]. by constructor.
      * simpl. congruence.
      * apply (no_hash_sub (inner q)); try done.
        intros s e. simpl. rewrite Hs2, lookup_delete_Some. tauto.
      * simpl. rewrite Hs2, map_size_delete_Some by eauto. pose proof (pool_bound _ Hq).
        assert (size (by_seq (inner q)) <> 0%nat); [|lia].
        intros Hz%map_size_empty_inv. by rewrite Hz, lookup_empty in Hv.
      * apply Hpk in Hv as [Hv Hst]. exists victim. split_and!; auto.
        intros s' e' He' Hst'. by apply Hle, Hpk.
      * intros s e. unfold parked in *. simpl. rewrite Hs2, lookup_delete_Some, Hpk. naive_solver.
    + apply Hrej. intros s e He. specialize (Hle s e He). unfold cheaper in Hle. simpl in Hle.
      rewrite orb_true_iff, andb_true_iff, Z.ltb_lt, Z.eqb_eq in Hle. lia.
  - apply Hrej. intros s e He%elem_of_seq_iter. destruct (seq_iter (inner q)); [set_solver|done].
Qed.

Lemma insert_cases p tx now p' r :
  pool_ok p -> 0 <= next_seq (inner p) < U64_MAX -> insert p tx now = (p', r) ->
  pool_ok p' /\ config p' = config p /\ next_seq_grows p p' /\
  match r with
  | Ok h => h = tx_hash tx /\ verify_signature tx = true /\ min_fee (config p) <= tx_fee tx /\
            by_hash (inner p) !! h = None /\ inserted p tx now p'
  | Err err => rejected p tx now p' err
  end.
Proof.
  intros Hp Hseq. unfold insert.
  destruct (verify_signature tx) eqn:Hsig; cbn [negb]; [|intros [= <- <-]; by apply reject_now].
  destruct (Z.ltb_spec (tx_fee tx) (min_fee (config p))) as [Hf|Hf];
    [intros [= <- <-]; by apply reject_now|].
  case_bool_decide as Hdup; [intros [= <- <-]; by apply reject_now|].
  apply eq_None_not_Some in Hdup.
  destruct (expire_locked_spec p now) as (Hi1 & Hc1 & Hn1 & Hs1); [apply Hp|].
  pose proof (expire_ok p now Hp) as Hq.
  destruct (expire_locked p now) as [q n]. cbn [fst] in *.
  assert (Hh : by_hash (inner q) !! tx_hash tx = None)
    by (apply (no_hash_sub (inner p)); [apply Hp|done|intros s e; rewrite Hs1; tauto|done]).
  assert (Hrej : forall e, rejected p tx now (count_rejected q) e ->
    pool_ok (count_rejected q) /\ config (count_rejected q) = config p /\
    next_seq_grows p (count_rejected q) /\ rejected p tx now (count_rejected q) e).
  { intros e He. split_and!; [by apply count_rejected_ok|done| |done].
    unfold next_seq_grows. simpl. lia. }
  destruct (Nat.leb_spec (max_size (config q)) (size (by_seq (inner q)))) as [Hfull|Hroom].
  - pose proof (insert_full p q tx now Hq Hc1 Hn1 Hseq Hsig Hf Hh Hfull Hs1) as Hcase.
    destruct (min_by cheaper (seq_iter (inner q))) as [[seq victim]|];
      [destruct (me_fee victim <? tx_fee tx)|]; intros [= <- <-]; [|by apply Hrej..].
    destruct Hcase as (? & ? & ? & ?). split_and!; done.
  - intros [= <- <-].
    destruct (admit_inserted p q tx now None) as (? & ? & ? & ?); try done.
    unfold parked in *. naive_solver.
Qed.

(** C22. Insertion does what the pool promises, on every branch.  An accepted
    transaction is verified, pays the minimum and was not parked; it joins
    under the next sequence number, all other entries stay except expired ones
    and at most one victim, which is the cheapest (oldest among equals) and
    pays strictly less.  A refused one (bad signature, low fee, duplicate, or a
    full pool in which nothing is cheaper) changes nothing but expiry. *)
Theorem mempool_insert_spec p tx now :
  pool_ok p -> 0 <= next_seq (inner p) < U64_MAX ->
  let '(p', r) := insert p tx now in
  pool_ok p' /\
  match r with
  | Ok h => h = tx_hash tx /\ verify_signature tx = true /\ min_fee (config p) <= tx_fee tx /\
            by_hash (inner p) !! h = None /\ inserted p tx now p'
  | Err err => rejected p tx now p' err
  end.
Proof.
  intros Hp Hseq. destruct (insert p tx now) as [p' r] eqn:E.
  apply insert_cases in E as (? & _ & _ & ?); auto.
Qed.

Lemma drain_seqs_next_seq i l : inner_ok i -> next_seq (drain_seqs i l).1 = next_seq i.
Proof.
  revert i. induction l as [|s l IH]; intros i Hi; [done|]. simpl.
  destruct (remove_seq_spec i s Hi) as (Hi1 & _ & Hn1 & _).
  destruct (remove_seq i s) as [i1 o]. specialize (IH i1 Hi1).
  destruct (drain_seqs i1 l) as [i2 out]. simpl in *. congruence.
Qed.

Lemma drain_next_seq p limit :
  inner_ok (inner p) -> next_seq (inner (drain p limit).1) = next_seq (inner p).
Proof.
  intros Hi. unfold drain. destruct (_ || _); [done|].
  match goal with |- context [drain_seqs (inner p) ?l] =>
    pose proof (drain_seqs_next_seq (inner p) l Hi); by destruct (drain_seqs (inner p) l) end.
Qed.

Lemma drain_cases p limit :
  pool_ok p ->
  let '(p', out) := drain p limit in
  pool_ok p' /\ config p' = config p /\ next_seq (inner p') = next_seq (inner p) /\
  length out = Nat.min limit (pool_len p) /\
  exists es : list (Z * MempoolEntry),
    out = me_tx <$> es.*2 /\
    es ++ map_to_list (by_seq (inner p')) ≡ₚ map_to_list (by_seq (inner p)) /\
    StronglySorted goes_first es /\
    (forall a b, a ∈ es -> b ∈ map_to_list (by_seq (inner p')) -> goes_first a b).
Proof.
  intros Hp. pose proof (drain_unfold p limit (pool_inner _ Hp)) as Hd.
  pose proof (drain_next_seq p limit (pool_inner _ Hp)) as Hnext.
  destruct (drain p limit) as [p' out]. destruct Hd as (Hi & Hc & -> & Hperm).
  pose proof (sorted_entries_perm (inner p)) as Hall.
  assert (Hsort : StronglySorted goes_first (sort_by drain_order (seq_iter (inner p)))).
  { eapply sorted_impl; [apply drain_order_first|].
    apply sort_by_sorted; [apply drain_order_total|apply drain_order_trans]. }
  unfold drained. set (l := sort_by drain_order (seq_iter (inner p))) in *.
  split_and!; [| exact Hc | exact Hnext | | ].
  - apply (pool_ok_sub p); try done. intros s e He.
    apply elem_of_map_to_list in He. rewrite Hperm in He. apply elem_of_map_to_list.
    rewrite <- Hall, <- (take_drop limit l). apply elem_of_app. by right.
  - rewrite !length_fmap, length_take, Hall, length_map_to_list. done.
  - exists (take limit l). split_and!; [done| | |].
    + by rewrite Hperm, take_drop.
    + rewrite <- (take_drop limit l) in Hsort. by apply StronglySorted_app in Hsort as (_ & ? & _).
    + intros a b Ha Hb. rewrite Hperm in Hb. exact (sorted_take_drop _ l limit a b Hsort Ha Hb).
Qed.

(** C14. Draining packs the most valuable transactions: from a consistent pool it
    returns [min limit len] transactions, highest fee first and in insertion order
    among equal fees, removes exactly those, keeps the pool consistent, and every
    transaction left behind comes later in that order. *)
Theorem mempool_drain_spec p limit :
  pool_ok p ->
  let '(p', out) := drain p limit in
  pool_ok p' /\ config p' = config p /\ next_seq (inner p') = next_seq (inner p) /\
  length out = Nat.min limit (pool_len p) /\
  exists es : list (Z * MempoolEntry),
    out = me_tx <$> es.*2 /\
    es ++ map_to_list (by_seq (inner p')) ≡ₚ map_to_list (by_seq (inner p)) /\
    StronglySorted goes_first es /\
    (forall a b, a ∈ es -> b ∈ map_to_list (by_seq (inner p')) -> goes_first a b).
Proof.
  intros Hp. pose proof (drain_cases p limit Hp) as Hd.
  by destruct (drain p limit) as [p' out].
Qed.

(** The pool's operations, with the clock reading each one sees. *)
Inductive PoolOp :=
  | PInsert (tx : Transaction) (now : Z)
  | PDrain (limit : nat)
  | PRemove (hash : bytes)
  | PExpire (now : Z).

Definition run_pool_op (p : Mempool) (op : PoolOp) : Mempool :=
  match op with
  | PInsert tx now => (insert p tx now).1
  | PDrain limit => (drain p limit).1
  | PRemove hash => (remove p hash).1
  | PExpire now => (expire p now).1
  end.

Lemma run_pool_op_ok p op :
  pool_ok p -> 0 <= next_seq (inner p) < U64_MAX ->
  pool_ok (run_pool_op p op) /\ config (run_pool_op p op) = config p /\
  next_seq_grows p (run_pool_op p op).
Proof.
  intros Hp Hseq. destruct op as [tx now|limit|hash|now]; cbn [run_pool_op].
  - destruct (insert p tx now) as [p' r] eqn:E. apply insert_cases in E; naive_solver.
  - pose proof (drain_cases p limit Hp) as Hd. destruct (drain p limit) as [p' out].
    destruct Hd as (? & ? & Hn & _). unfold next_seq_grows. simpl. split_and!; (done || lia).
  - unfold remove. destruct (by_hash (inner p) !! hash) as [seq|]; [|unfold next_seq_grows; naive_solver lia].
    destruct (remove_seq_spec (inner p) seq) as (_ & _ & Hn & _); [apply Hp|].
    pose proof (remove_seq_ok p seq Hp) as Hok.
    destruct (remove_seq (inner p) seq) as [i o]. simpl in *. unfold next_seq_grows. simpl.
    split_and!; [done|done|lia|lia].
  - destruct (expire_locked_spec p now) as (_ & Hc & Hn & _); [apply Hp|].
    unfold expire. split_and!; [by apply expire_ok|exact Hc|unfold next_seq_grows; lia..].
Qed.

Lemma mempool_new_ok c : pool_ok (mempool_new c).
Proof. constructor; [apply inner_new_ok|done|]. simpl. rewrite map_size_empty. lia. Qed.

(** Every history of the pool keeps it consistent: after any sequence of
    insertions, drains, removals and expiries (fewer than 2^64 - 1 of them)
    the hash index and the entry table mirror each other, so no transaction is
    parked twice; every parked transaction verifies and pays the minimum fee;
    and the pool never exceeds its configured size. *)
Theorem mempool_invariant c ops :
  Z.of_nat (length ops) < U64_MAX -> pool_ok (foldl run_pool_op (mempool_new c) ops).
Proof.
  cut (forall p n, pool_ok p -> 0 <= next_seq (inner p) <= n -> n + Z.of_nat (length ops) < U64_MAX ->
         pool_ok (foldl run_pool_op p ops)).
  { intros Hgen Hlen. apply (Hgen _ 0); [apply mempool_new_ok|simpl; lia|lia]. }
  induction ops as [|op ops IH]; intros p n Hp Hn Hlen; [done|]. simpl in *.
  destruct (run_pool_op_ok p op Hp) as (Hp' & _ & Hg); [lia|]. unfold next_seq_grows in Hg.
  apply (IH _ (n + 1)); [done|lia|lia].
Qed.
End MempoolProperties.
