(* ===== verification/Poh.v ===== *)
(** * Proof of History ([crates/poh/src/{hasher,entry,recorder,verifier}.rs])

    The hash chain, entries and blocks, the recorder that extends the chain and
    the verifier that re-executes it. *)

From S2P Require Import Prelude Crypto.
From stdpp Require Import list.
Open Scope Z_scope.

(** [struct PohConfig] *)
Record PohConfig := mkPohConfig {
  hashes_per_tick : Z; target_tick_rate : Z; max_hashes_per_tick : Z
}.
Definition poh_config_default : PohConfig := mkPohConfig 6000 160 12000.

(** [enum EntryData], [struct TransactionEntry] *)
Record TransactionEntry := mkTxEntry { te_transaction : bytes; te_signature : bytes }.
Inductive EntryData :=
  | Tick
  | Transactions (txs : list TransactionEntry).

(** [struct PohEntry] *)
Record PohEntry := mkPohEntry {
  pe_hash : bytes;
  pe_prev_hash : bytes;
  pe_num_hashes : Z;
  pe_slot : Z;
  pe_index : Z;
  pe_data : EntryData
}.

(** [struct Entry]: a block *)
Record Entry := mkBlock {
  bl_hash : bytes;
  bl_slot : Z;
  bl_parent_hash : bytes;
  bl_entries : list PohEntry;
  bl_height : Z;
  bl_timestamp : Z
}.

#[export] Instance TransactionEntry_eq_dec : EqDecision TransactionEntry.
Proof. solve_decision. Defined.
#[export] Instance EntryData_eq_dec : EqDecision EntryData.
Proof. solve_decision. Defined.
#[export] Instance PohEntry_eq_dec : EqDecision PohEntry.
Proof. solve_decision. Defined.

(** [PohHash::zero] *)
Definition poh_zero : bytes := fill32 0.

Section Poh.
Context `{Sha : Sha256}.

(** [PohHash::from_seed] *)
Definition from_seed (seed : string) : bytes := sha256 (str_bytes seed).

(** [struct PohHasher] *)
Record PohHasher := mkHasher { current_hash : bytes; hash_count : Z; hasher_slot : Z }.

Definition hasher_new (seed : bytes) (slot : Z) : PohHasher := mkHasher seed 0 slot.
Definition hasher_genesis : PohHasher := hasher_new poh_zero 0.

(** [PohHasher::hash], [PohHasher::hash_n], [PohHasher::hash_with] *)
Definition hash_once (h : PohHasher) : PohHasher :=
  mkHasher (sha256 (current_hash h)) (wrap64 (hash_count h + 1)) (hasher_slot h).
Definition hash_n (h : PohHasher) (n : Z) : PohHasher := Nat.iter (Z.to_nat n) hash_once h.
Definition hash_with (h : PohHasher) (d : bytes) : PohHasher :=
  mkHasher (sha256 (current_hash h ++ d)) (wrap64 (hash_count h + 1)) (hasher_slot h).

(** [PohHasher::new_slot] *)
Definition hasher_new_slot (h : PohHasher) (slot : Z) : PohHasher := mkHasher (current_hash h) 0 slot.

(** [PohHasher::hash_chain], [PohHasher::verify] *)
Definition hash_chain (start : bytes) (steps : Z) : bytes :=
  current_hash (hash_n (hasher_new start 0) steps).
Definition hasher_verify (start_hash : bytes) (steps : Z) (end_hash : bytes) : bool :=
  bool_decide (hash_chain start_hash steps = end_hash).

(** The payload bytes of an entry. *)
Definition payload (d : EntryData) : bytes :=
  match d with
  | Tick => str_bytes "tick"
  | Transactions txs => mjoin ((fun tx => te_transaction tx ++ te_signature tx) <$> txs)
  end.

(** [PohEntry::compute_hash] *)
Definition compute_entry_hash (e : PohEntry) : bytes :=
  sha256 (hash_chain (pe_prev_hash e) (pe_num_hashes e) ++
          le_bytes 8 (pe_slot e) ++ le_bytes 8 (pe_index e) ++ payload (pe_data e)).

(** [PohEntry::verify] *)
Definition verify_entry (e : PohEntry) : bool := bool_decide (pe_hash e = compute_entry_hash e).

Definition set_hash (e : PohEntry) (h : bytes) : PohEntry :=
  mkPohEntry h (pe_prev_hash e) (pe_num_hashes e) (pe_slot e) (pe_index e) (pe_data e).

(** [PohEntry::tick], [PohEntry::transaction]: the hash is computed last. *)
Definition entry_of (prev_hash : bytes) (num_hashes slot index : Z) (d : EntryData) : PohEntry :=
  let entry := mkPohEntry poh_zero prev_hash num_hashes slot index d in
  set_hash entry (compute_entry_hash entry).
Definition entry_tick (prev_hash : bytes) (num_hashes slot index : Z) : PohEntry :=
  entry_of prev_hash num_hashes slot index Tick.
Definition entry_transaction (prev_hash : bytes) (num_hashes slot index : Z)
    (transaction signature : bytes) : PohEntry :=
  entry_of prev_hash num_hashes slot index (Transactions [mkTxEntry transaction signature]).

(** [Entry::verify_poh_chain]: hashes, links between neighbours, and the link
    of the first entry to the parent block. *)
Fixpoint verify_links (prev : option bytes) (entries : list PohEntry) : bool :=
  match entries with
  | [] => true
  | e :: entries =>
      if negb (verify_entry e) then false
      else if (match prev with Some h => negb (bool_decide (pe_prev_hash e = h)) | None => false end)
           then false
      else verify_links (Some (pe_hash e)) entries
  end.
Definition verify_poh_chain (b : Entry) : bool :=
  match bl_entries b with
  | [] => false
  | first :: _ =>
      if negb (verify_links None (bl_entries b)) then false
      else bool_decide (pe_prev_hash first = bl_parent_hash b)
  end.

(** [Entry::transactions] *)
Definition block_transactions (b : Entry) : list TransactionEntry :=
  mjoin (omap (fun e => match pe_data e with Transactions txs => Some txs | Tick => None end)
              (bl_entries b)).

(** [Entry::compute_hash] *)
Definition compute_block_hash (b : Entry) : bytes :=
  sha256 (bl_parent_hash b ++ le_bytes 8 (bl_slot b) ++ le_bytes 8 (bl_height b) ++
          mjoin (pe_hash <$> bl_entries b)).

(** ** The recorder *)

(** [struct RecordedEntry] *)
Record RecordedEntry := mkRecorded { rec_entry : PohEntry; rec_tick_height : Z }.

(** [struct PohRecorder]; the channel is the list of entries sent on it. *)
Record PohRecorder := mkRecorder {
  rc_config : PohConfig;
  rc_slot : Z;
  rc_tick_height : Z;
  rc_hash_count : Z;
  rc_current_entries : list PohEntry;
  rc_entry_index : Z;
  rc_sent : list RecordedEntry;
  rc_pending_transactions : list TransactionEntry;
  rc_prev_hash : bytes
}.

(** [PohRecorder::new] *)
Definition recorder_new (config : PohConfig) (genesis_hash : bytes) : PohRecorder :=
  mkRecorder config 0 0 0 [] 0 [] [] genesis_hash.

(** The common tail of the three recording methods. *)
Definition push_entry (r : PohRecorder) (tick_height hashes : Z) (pending : list TransactionEntry)
    (entry : PohEntry) : PohRecorder :=
  mkRecorder (rc_config r) (rc_slot r) tick_height (wrap64 (rc_hash_count r + hashes))
    (rc_current_entries r ++ [entry]) (wrap64 (rc_entry_index r + 1))
    (rc_sent r ++ [mkRecorded entry tick_height]) pending (pe_hash entry).

(** [PohRecorder::record_transaction] *)
Definition record_transaction (r : PohRecorder) (transaction signature : bytes) : PohRecorder :=
  push_entry r (rc_tick_height r) 1 (rc_pending_transactions r)
    (entry_transaction (rc_prev_hash r) 1 (rc_slot r) (rc_entry_index r) transaction signature).

(** [PohRecorder::record_tick] *)
Definition record_tick (r : PohRecorder) : PohRecorder :=
  push_entry r (wrap64 (rc_tick_height r + 1)) (hashes_per_tick (rc_config r))
    (rc_pending_transactions r)
    (entry_tick (rc_prev_hash r) (hashes_per_tick (rc_config r)) (rc_slot r) (rc_entry_index r)).

(** [PohRecorder::flush_transactions] *)
Definition flush_transactions (r : PohRecorder) : PohRecorder :=
  match rc_pending_transactions r with
  | [] => r
  | txs =>
      let num_txs := Z.of_nat (length txs) in
      push_entry r (rc_tick_height r) num_txs []
        (entry_of (rc_prev_hash r) num_txs (rc_slot r) (rc_entry_index r) (Transactions txs))
  end.

(** [PohRecorder::new_slot] *)
Definition recorder_new_slot (r : PohRecorder) (slot : Z) : PohRecorder * list PohEntry :=
  (mkRecorder (rc_config r) slot (rc_tick_height r) (rc_hash_count r) [] 0 (rc_sent r)
     (rc_pending_transactions r) (rc_prev_hash r), rc_current_entries r).

(** ** The verifier *)

(** [struct VerificationResult] *)
Record VerificationResult := mkVerification {
  vr_valid : bool; vr_errors : list string; vr_entries : Z; vr_hashes : Z
}.
Definition verification_ok (entries hashes : Z) : VerificationResult :=
  mkVerification true [] entries hashes.
Definition verification_fail (error : string) : VerificationResult :=
  mkVerification false [error] 0 0.
Definition add_error (r : VerificationResult) (error : string) : VerificationResult :=
  mkVerification false (vr_errors r ++ [error]) (vr_entries r) (vr_hashes r).

(** [{:?}] of a [PohHash] *)
Definition debug_hash (h : bytes) : string := "PohHash(" +:+ debug_bytes h +:+ ")".

(** The first loop of [verify_slot_entries]: every hash, and the total work. *)
Fixpoint check_hashes (i : nat) (total : Z) (entries : list PohEntry) : result Z string :=
  match entries with
  | [] => Ok total
  | e :: entries =>
      if negb (verify_entry e)
      then Err ("Entry " +:+ dec (Z.of_nat i) +:+ " hash verification failed")
      else check_hashes (S i) (wrap64 (total + pe_num_hashes e)) entries
  end.

(** The second loop, over [entries.windows(2)]. *)
Fixpoint check_windows (entries : list PohEntry) : option string :=
  match entries with
  | current :: ((next :: _) as rest) =>
      if negb (bool_decide (pe_prev_hash next = pe_hash current))
      then Some ("Chain break: next.prev_hash " +:+ debug_hash (pe_prev_hash next) +:+
                 " != current.hash " +:+ debug_hash (pe_hash current))
      else check_windows rest
  | _ => None
  end.

(** [PohVerifier::verify_slot_entries] *)
Definition verify_slot_entries (entries : list PohEntry) : VerificationResult :=
  match entries with
  | [] => verification_fail "Empty entries"
  | _ =>
    match check_hashes 0 0 entries with
    | Err e => verification_fail e
    | Ok total =>
      match check_windows entries with
      | Some e => verification_fail e
      | None => verification_ok (Z.of_nat (length entries)) total
      end
    end
  end.

(** [PohVerifier::verify_block] *)
Definition verify_block (b : Entry) : VerificationResult :=
  let result := verify_slot_entries (bl_entries b) in
  if negb (vr_valid result) then result
  else match last (bl_entries b) with
       | Some last_entry =>
           if negb (bool_decide (pe_hash last_entry = bl_hash b))
           then add_error result ("Block hash mismatch: expected " +:+ debug_hash (bl_hash b) +:+
                                  ", got " +:+ debug_hash (pe_hash last_entry))
           else result
       | None => result
       end.

(** [PohVerifier::verify_chain_link] *)
Definition verify_chain_link (parent child : Entry) : VerificationResult :=
  if negb (bool_decide (bl_hash parent = bl_parent_hash child)) then
    verification_fail ("Chain link broken: parent hash " +:+ debug_hash (bl_hash parent) +:+
                       " != child parent_hash " +:+ debug_hash (bl_parent_hash child))
  else if negb (bl_slot child =? wrap64 (bl_slot parent + 1)) then
    verification_fail ("Slot discontinuity: parent=" +:+ dec (bl_slot parent) +:+
                       ", child=" +:+ dec (bl_slot child))
  else if negb (bl_height child =? wrap64 (bl_height parent + 1)) then
    verification_fail ("Height discontinuity: parent=" +:+ dec (bl_height parent) +:+
                       ", child=" +:+ dec (bl_height child))
  else verification_ok 0 0.

(** ** Chains *)

(** [entries] extend the chain from head [h] to head [h']. *)
Inductive chain : bytes -> list PohEntry -> bytes -> Prop :=
  | chain_nil h : chain h [] h
  | chain_cons h e es h' :
      pe_prev_hash e = h -> verify_entry e = true -> chain (pe_hash e) es h' -> chain h (e :: es) h'.

Lemma chain_snoc h es h' e :
  chain h es h' -> pe_prev_hash e = h' -> verify_entry e = true -> chain h (es ++ [e]) (pe_hash e).
Proof. induction 1; intros; simpl; repeat constructor; eauto. Qed.

Lemma chain_app h1 es1 h2 es2 h3 : chain h1 es1 h2 -> chain h2 es2 h3 -> chain h1 (es1 ++ es2) h3.
Proof. induction 1; intros; simpl; [done|]. constructor; eauto. Qed.

Lemma chain_last h e es h' : chain h (e :: es) h' -> exists l, last (e :: es) = Some l /\ pe_hash l = h'.
Proof.
  revert h e. induction es as [|e2 es IH]; intros h e Hc; inversion Hc as [|???? Hp Hv Hc']; subst.
  - inversion Hc'; subst. exists e. done.
  - destruct (IH _ _ Hc') as (l & Hl & <-). exists l. split; [|done]. exact Hl.
Qed.

(** Total sequential work of a list of entries, as the verifier counts it. *)
Definition total_work (es : list PohEntry) : Z := foldl (fun t e => wrap64 (t + pe_num_hashes e)) 0 es.

Lemma check_hashes_Ok i t es :
  Forall (fun e => verify_entry e = true) es ->
  check_hashes i t es = Ok (foldl (fun t e => wrap64 (t + pe_num_hashes e)) t es).
Proof.
  intros Hall. revert i t. induction Hall as [|e es He _ IH]; intros i t; [done|].
  simpl. rewrite He. simpl. apply IH.
Qed.

Lemma check_hashes_inv i t es t' :
  check_hashes i t es = Ok t' -> Forall (fun e => verify_entry e = true) es.
Proof.
  revert i t. induction es as [|e es IH]; intros i t; simpl; [constructor|].
  destruct (verify_entry e) eqn:He; simpl; [|done]. intros Hc. constructor; [done|]. by eapply IH.
Qed.

Lemma windows_chain e es :
  Forall (fun e => verify_entry e = true) (e :: es) ->
  check_windows (e :: es) = None <-> exists h', chain (pe_prev_hash e) (e :: es) h'.
Proof.
  revert e. induction es as [|e2 es IH]; intros e Hall; inversion Hall as [|?? He Hes]; subst.
  - split; [|done]. intros _. eexists. repeat constructor; done.
  - change (check_windows (e :: e2 :: es)) with
      (if negb (bool_decide (pe_prev_hash e2 = pe_hash e))
       then Some ("Chain break: next.prev_hash " +:+ debug_hash (pe_prev_hash e2) +:+
                  " != current.hash " +:+ debug_hash (pe_hash e))
       else check_windows (e2 :: es)).
    case_bool_decide as Hb; simpl negb; cbv iota.
    + rewrite IH by done. rewrite Hb. split; intros [h' Hc]; exists h'.
      * by constructor.
      * by inversion Hc.
    + split; [done|]. intros [h' Hc]. inversion Hc as [|???? _ _ Hc']; subst.
      inversion Hc'; subst. done.
Qed.

Lemma chain_verified h es h' : chain h es h' -> Forall (fun e => verify_entry e = true) es.
Proof. induction 1; constructor; done. Qed.

(** Every accepted list of entries is one chain, and every chain is accepted. *)
Lemma verify_slot_entries_iff es :
  vr_valid (verify_slot_entries es) = true <-> es <> [] /\ exists h h', chain h es h'.
Proof.
  unfold verify_slot_entries. destruct es as [|e es]; [naive_solver|].
  destruct (check_hashes 0 0 (e :: es)) as [t|err] eqn:Ec.
  - apply check_hashes_inv in Ec. pose proof (windows_chain e es Ec) as Hw.
    destruct (check_windows (e :: es)) eqn:Ew.
    + split; [done|]. intros [_ (h & h' & Hc)]. assert (h = pe_prev_hash e) as -> by (by inversion Hc).
      destruct Hw as [_ Hw]. discriminate Hw. eauto.
    + split; [|done]. intros _. split; [done|]. destruct Hw as [Hw _]. destruct Hw; eauto.
  - split; [done|]. intros [_ (h & h' & Hc)]. exfalso.
    rewrite check_hashes_Ok in Ec; [done|]. by eapply chain_verified.
Qed.

Lemma verify_slot_entries_chain e es h h' :
  chain h (e :: es) h' ->
  verify_slot_entries (e :: es) = verification_ok (Z.of_nat (length (e :: es))) (total_work (e :: es)).
Proof.
  intros Hc. pose proof (chain_verified _ _ _ Hc) as Hall. unfold verify_slot_entries.
  rewrite (check_hashes_Ok 0 0 (e :: es) Hall). rewrite (proj2 (windows_chain e es Hall)); [done|].
  exists h'. by inversion Hc; subst.
Qed.

Lemma verify_links_chain prev es :
  verify_links prev es = true <->
  es = [] \/ exists h h', chain h es h' /\ match prev with Some p => p = h | None => True end.
Proof.
  revert prev. induction es as [|e es IH]; intros prev; simpl; [naive_solver|].
  destruct (verify_entry e) eqn:He; simpl.
  2: { split; [done|]. intros [?|(h & h' & Hc & _)]; [done|]. inversion Hc; congruence. }
  assert (Hrest : verify_links (Some (pe_hash e)) es = true <-> exists h', chain (pe_hash e) es h').
  { rewrite IH. split.
    - intros [->|(h & h' & Hc & <-)]; eauto using chain_nil.
    - intros [h' Hc]. right. eauto. }
  assert (Hcons : (exists h h', chain h (e :: es) h' /\ match prev with Some p => p = h | None => True end)
    <-> match prev with Some p => p = pe_prev_hash e | None => True end /\ exists h', chain (pe_hash e) es h').
  { split.
    - intros (h & h' & Hc & Hp). inversion Hc; subst. split; [by destruct prev|]. eauto.
    - intros [Hp [h' Hc]]. exists (pe_prev_hash e), h'. split; [by constructor|done]. }
  rewrite Hcons, <- Hrest. destruct prev as [p|]; [|naive_solver].
  case_bool_decide; simpl; naive_solver.
Qed.

(** The entries determine both ends of a chain. *)
Lemma chain_ends e es h1 h1' h2 h2' :
  chain h1 (e :: es) h1' -> chain h2 (e :: es) h2' -> h1 = h2 /\ h1' = h2'.
Proof.
  intros H1 H2. destruct (chain_last _ _ _ _ H1) as (l1 & E1 & <-).
  destruct (chain_last _ _ _ _ H2) as (l2 & E2 & <-). inversion H1; inversion H2; subst. split; congruence.
Qed.

Lemma verify_block_iff b :
  vr_valid (verify_block b) = true <->
  bl_entries b <> [] /\ exists h, chain h (bl_entries b) (bl_hash b).
Proof.
  unfold verify_block. pose proof (verify_slot_entries_iff (bl_entries b)) as Hiff.
  set (v := verify_slot_entries (bl_entries b)) in *.
  destruct (vr_valid v) eqn:Ev; simpl.
  - destruct Hiff as [[Hne (h & h' & Hc)] _]; [done|].
    destruct (bl_entries b) as [|e es]; [done|]. destruct (chain_last _ _ _ _ Hc) as (l & -> & Hl).
    case_bool_decide as Eh; simpl.
    + rewrite Ev. split; [|done]. intros _. split; [done|]. exists h. by rewrite <- Eh, Hl.
    + split; [done|]. intros (_ & h2 & Hc2). destruct Eh.
      destruct (chain_ends _ _ _ _ _ _ Hc Hc2). congruence.
  - rewrite Ev. split; [done|]. intros (Hne & h & Hc). apply Hiff. eauto.
Qed.

Lemma verify_poh_chain_iff b :
  verify_poh_chain b = true <->
  bl_entries b <> [] /\ exists h, chain (bl_parent_hash b) (bl_entries b) h.
Proof.
  unfold verify_poh_chain. pose proof (verify_links_chain None (bl_entries b)) as Hiff.
  destruct (bl_entries b) as [|e es]; [naive_solver|].
  destruct (verify_links None (e :: es)); simpl.
  - destruct Hiff as [[?|(h & h' & Hc & _)] _]; [done|done|].
    rewrite bool_decide_eq_true. split.
    + intros <-. split; [done|]. exists h'. by inversion Hc; subst.
    + intros (_ & h2 & Hc2). by inversion Hc2.
  - split; [done|]. intros (_ & h & Hc). destruct Hiff as [_ Hiff]. discriminate Hiff. eauto.
Qed.

Lemma verify_chain_link_iff parent child :
  vr_valid (verify_chain_link parent child) = true <->
  bl_hash parent = bl_parent_hash child /\ bl_slot child = wrap64 (bl_slot parent + 1) /\
  bl_height child = wrap64 (bl_height parent + 1).
Proof.
  unfold verify_chain_link. case_bool_decide; simpl; [|naive_solver].
  destruct (Z.eqb_spec (bl_slot child) (wrap64 (bl_slot parent + 1))); simpl; [|naive_solver].
  destruct (Z.eqb_spec (bl_height child) (wrap64 (bl_height parent + 1))); simpl; naive_solver.
Qed.

(** C23. What block verification accepts: [verify_block] succeeds exactly on
    the non-empty lists of entries that form one hash chain, re-executed entry
    by entry, ending in the block's hash; [verify_poh_chain] exactly on those
    that start from the parent's hash.  So two blocks that pass both, and
    [verify_chain_link] between them, form one unbroken chain from the first
    parent's hash to the second block's hash. *)
Theorem verified_blocks_chain parent child :
  (vr_valid (verify_block child) = true <->
     bl_entries child <> [] /\ exists h, chain h (bl_entries child) (bl_hash child)) /\
  (verify_poh_chain child = true <->
     bl_entries child <> [] /\ exists h, chain (bl_parent_hash child) (bl_entries child) h) /\
  (vr_valid (verify_block parent) && verify_poh_chain parent && vr_valid (verify_block child) &&
     verify_poh_chain child && vr_valid (verify_chain_link parent child) = true ->
   chain (bl_parent_hash parent) (bl_entries parent ++ bl_entries child) (bl_hash child)).
Proof.
  split_and!; [apply verify_block_iff|apply verify_poh_chain_iff|].
  assert (Hboth : forall b, vr_valid (verify_block b) = true -> verify_poh_chain b = true ->
    chain (bl_parent_hash b) (bl_entries b) (bl_hash b)).
  { intros b [Hne [h1 H1]]%verify_block_iff [_ [h2 H2]]%verify_poh_chain_iff.
    destruct (bl_entries b) as [|e es]; [done|].
    by destruct (chain_ends _ _ _ _ _ _ H1 H2) as [-> ->]. }
  rewrite !andb_true_iff. intros ((((?&?)&?)&?)&(E&_)%verify_chain_link_iff).
  eapply chain_app; [by apply Hboth|]. rewrite E. by apply Hboth.
Qed.

(** ** Recording *)

Inductive RecordOp := RTick | RTransaction (transaction signature : bytes) | RFlush.

Definition run_record (r : PohRecorder) (op : RecordOp) : PohRecorder :=
  match op with
  | RTick => record_tick r
  | RTransaction tx sig => record_transaction r tx sig
  | RFlush => flush_transactions r
  end.

Lemma entry_of_verifies p n s i d : verify_entry (entry_of p n s i d) = true.
Proof. unfold verify_entry. by apply bool_decide_eq_true. Qed.

(** A recorder within a slot that started at chain head [h0]. *)
Record recorder_ok (h0 : bytes) (r : PohRecorder) : Prop := {
  ro_chain : chain h0 (rc_current_entries r) (rc_prev_hash r);
  ro_index : rc_entry_index r = wrap64 (Z.of_nat (length (rc_current_entries r)));
  ro_position i e : rc_current_entries r !! i = Some e ->
    pe_slot e = rc_slot r /\ pe_index e = wrap64 (Z.of_nat i)
}.

Lemma push_entry_ok h0 r t n pend d hashes :
  recorder_ok h0 r ->
  recorder_ok h0 (push_entry r t hashes pend (entry_of (rc_prev_hash r) n (rc_slot r) (rc_entry_index r) d)).
Proof.
  intros [Hc Hi Hp]. constructor; cbn [push_entry rc_current_entries rc_prev_hash rc_entry_index rc_slot].
  - eapply chain_snoc; [exact Hc|done|apply entry_of_verifies].
  - rewrite Hi, length_app. simpl. unfold wrap64. rewrite Zplus_mod_idemp_l. f_equal. lia.
  - intros i e [[Hl He]|[-> <-]]%lookup_snoc_Some; [by apply Hp|]. split; [done|]. apply Hi.
Qed.

Lemma run_record_ok h0 r op : recorder_ok h0 r -> recorder_ok h0 (run_record r op).
Proof.
  intros Hr. destruct op; [by apply push_entry_ok..|]. simpl. unfold flush_transactions.
  destruct (rc_pending_transactions r); [done|]. by apply push_entry_ok.
Qed.

Lemma run_record_slot r op : rc_slot (run_record r op) = rc_slot r.
Proof. destruct op; try done. simpl. unfold flush_transactions. by destruct (rc_pending_transactions r). Qed.

(** Blocks cut from the recorder always verify: whatever ticks and
    transactions are recorded in a slot, the entries taken at the end of it,
    wrapped in a block with the chain heads at the start and the end of the
    slot as parent hash and hash, pass [verify_poh_chain] and [verify_block],
    which reports exactly their total work; every entry carries the slot and
    its position; and the next slot starts a fresh entry list on the block's
    hash. *)
Theorem recorder_blocks_verify r ops next height timestamp :
  rc_current_entries r = [] -> rc_entry_index r = 0 ->
  let '(r', entries) := recorder_new_slot (foldl run_record r ops) next in
  let b := mkBlock (rc_prev_hash r') (rc_slot r) (rc_prev_hash r) entries height timestamp in
  rc_current_entries r' = [] /\ rc_entry_index r' = 0 /\
  (forall i e, entries !! i = Some e -> pe_slot e = rc_slot r /\ pe_index e = wrap64 (Z.of_nat i)) /\
  (entries <> [] ->
     verify_poh_chain b = true /\
     verify_block b = verification_ok (Z.of_nat (length entries)) (total_work entries)).
Proof.
  intros He Hi. cbn [recorder_new_slot].
  assert (Hok : recorder_ok (rc_prev_hash r) (foldl run_record r ops) /\
                rc_slot (foldl run_record r ops) = rc_slot r).
  { assert (Hr : recorder_ok (rc_prev_hash r) r)
      by (constructor; rewrite ?He, ?Hi; [constructor|done|done]).
    revert Hr. generalize (rc_prev_hash r). intros h0. revert r He Hi.
    cut (forall r, recorder_ok h0 r -> recorder_ok h0 (foldl run_record r ops) /\
      rc_slot (foldl run_record r ops) = rc_slot r); [eauto|].
    induction ops as [|op ops IH]; intros r Hr; [done|]. simpl.
    destruct (IH (run_record r op)) as [? ->]; [by apply run_record_ok|]. by rewrite run_record_slot. }
  destruct Hok as [[Hc _ Hpos] Hslot]. set (r1 := foldl run_record r ops) in *.
  cbn [rc_current_entries rc_entry_index rc_prev_hash].
  split_and!; [done|done|by rewrite <- Hslot|]. intros Hne. split.
  - apply verify_poh_chain_iff. simpl. eauto.
  - unfold verify_block. simpl bl_entries. simpl bl_hash.
    destruct (rc_current_entries r1) as [|e es]; [done|].
    rewrite (verify_slot_entries_chain _ _ _ _ Hc). simpl negb. cbv iota.
    destruct (chain_last _ _ _ _ Hc) as (l & -> & ->). by rewrite bool_decide_eq_true_2.
Qed.

(** ** What the hashes commit to *)

Lemma hash_chain_iter start n : hash_chain start n = Nat.iter (Z.to_nat n) sha256 start.
Proof.
  unfold hash_chain, hash_n. change start with (current_hash (hasher_new start 0)) at 2.
  generalize (hasher_new start 0). induction (Z.to_nat n) as [|k IH]; intros h; [done|].
  simpl. by rewrite IH.
Qed.

(** The inputs hashed when an entry is verified. *)
Definition chain_inputs (start : bytes) (n : Z) : list bytes :=
  (fun i => Nat.iter i sha256 start) <$> seq 0 (Z.to_nat n).
Definition entry_message (e : PohEntry) : bytes :=
  hash_chain (pe_prev_hash e) (pe_num_hashes e) ++
  le_bytes 8 (pe_slot e) ++ le_bytes 8 (pe_index e) ++ payload (pe_data e).
Definition entry_inputs (e : PohEntry) : list bytes :=
  entry_message e :: chain_inputs (pe_prev_hash e) (pe_num_hashes e).

Lemma iter_inj n a b :
  (forall i j, (i < n)%nat -> (j < n)%nat -> sha256 (Nat.iter i sha256 a) = sha256 (Nat.iter j sha256 b) ->
     Nat.iter i sha256 a = Nat.iter j sha256 b) ->
  Nat.iter n sha256 a = Nat.iter n sha256 b -> a = b.
Proof.
  induction n as [|n IH]; intros Hinj E; [done|]. apply IH.
  - intros i j ? ?. apply Hinj; lia.
  - apply (Hinj n n); [lia..|exact E].
Qed.

Lemma chain_arr32 start n : arr32 start -> arr32 (hash_chain start n).
Proof.
  intros Hs. rewrite hash_chain_iter. destruct (Z.to_nat n); simpl; [done|]. apply sha256_arr32.
Qed.

Definition entry_ok (e : PohEntry) : Prop :=
  arr32 (pe_prev_hash e) /\ is_u64 (pe_slot e) /\ is_u64 (pe_index e).

(** Two verified entries with the same hash and the same declared work agree
    on the previous hash, the position and the payload bytes. *)
Lemma entry_binding e1 e2 :
  entry_ok e1 -> entry_ok e2 -> verify_entry e1 = true -> verify_entry e2 = true ->
  pe_hash e1 = pe_hash e2 -> pe_num_hashes e1 = pe_num_hashes e2 ->
  no_collision (entry_inputs e1) (entry_inputs e2) ->
  pe_prev_hash e1 = pe_prev_hash e2 /\ pe_slot e1 = pe_slot e2 /\ pe_index e1 = pe_index e2 /\
  payload (pe_data e1) = payload (pe_data e2).
Proof.
  intros (Hp1 & Hs1 & Hi1) (Hp2 & Hs2 & Hi2) V1%bool_decide_eq_true V2%bool_decide_eq_true Hh Hn Hnc.
  rewrite V1, V2 in Hh. unfold compute_entry_hash in Hh.
  apply Hnc in Hh; [|by left..].
  pose proof (chain_arr32 _ (pe_num_hashes e1) Hp1) as [L1 _].
  pose proof (chain_arr32 _ (pe_num_hashes e2) Hp2) as [L2 _].
  do 3 split_app Hh. apply le_bytes_inj in E0; [|exact Hs1|exact Hs2].
  apply le_bytes_inj in E1; [|exact Hi1|exact Hi2].
  split_and!; [|exact E0|exact E1|exact Hh]. rewrite !hash_chain_iter, Hn in E. apply (iter_inj (Z.to_nat (pe_num_hashes e2))); [|done].
  intros i j Hi Hj. apply Hnc; right; apply list_elem_of_fmap; [exists i|exists j];
    (split; [done|apply elem_of_seq; rewrite ?Hn; lia]).
Qed.

(** C32. A chain head pins down the history behind it: two verified chains of
    the same length and the same work per entry that end in the same hash start
    from the same hash and agree, entry by entry, on hash, previous hash, slot,
    index and payload bytes, unless two different inputs hashed on the way
    collide under SHA-256.  The work itself, the kind of an entry and the split
    of its payload into transactions are not pinned ([tick_forgeable],
    [payload_ambiguous]). *)
Theorem history_binding h1 h2 h es1 es2 :
  chain h1 es1 h -> chain h2 es2 h ->
  Forall entry_ok es1 -> Forall entry_ok es2 ->
  pe_num_hashes <$> es1 = pe_num_hashes <$> es2 ->
  no_collision (mjoin (entry_inputs <$> es1)) (mjoin (entry_inputs <$> es2)) ->
  (es1 <> [] -> h1 = h2) /\
  Forall2 (fun e1 e2 => pe_hash e1 = pe_hash e2 /\ pe_prev_hash e1 = pe_prev_hash e2 /\
    pe_slot e1 = pe_slot e2 /\ pe_index e1 = pe_index e2 /\
    payload (pe_data e1) = payload (pe_data e2)) es1 es2.
Proof.
  intros Hc1. revert h2 es2. induction Hc1 as [h0|h0 e1 es1 h' Hp1 V1 Hc1 IH];
    intros h2 es2 Hc2 Ho1 Ho2 Hn Hnc.
  - destruct es2; [|done]. by split; [|constructor].
  - destruct Hc2 as [|h0' e2 es2 h' Hp2 V2 Hc2]; [done|]. rewrite !fmap_cons in Hn. injection Hn as Hn1 Hn.
    inversion Ho1; inversion Ho2; subst.
    rewrite !fmap_cons, !mjoin_cons in Hnc.
    assert (Hsub : no_collision (mjoin (entry_inputs <$> es1)) (mjoin (entry_inputs <$> es2)))
      by (intros x y Hx Hy; apply Hnc; apply elem_of_app; by right).
    destruct (IH _ _ Hc2) as [Hh Hrest]; [done..|].
    assert (Heq : pe_hash e1 = pe_hash e2).
    { destruct es1 as [|e es1]; [|by apply Hh]. destruct es2; [|done].
      inversion Hc1; inversion Hc2; congruence. }
    destruct (entry_binding e1 e2) as (?&?&?&?); try done.
    { intros x y Hx Hy. apply Hnc; apply elem_of_app; by left. }
    split; [done|]. constructor; done.
Qed.

(** ** Gaps *)

(** An entry whose declared work is moved into its previous hash. *)
Definition shift_work (e : PohEntry) : PohEntry :=
  mkPohEntry (pe_hash e) (sha256 (pe_prev_hash e)) (pe_num_hashes e - 1) (pe_slot e) (pe_index e)
             (pe_data e).

Lemma shift_work_verifies e :
  1 <= pe_num_hashes e -> verify_entry e = true -> verify_entry (shift_work e) = true.
Proof.
  intros Hn. unfold verify_entry. rewrite !bool_decide_eq_true. intros E.
  cbn [shift_work pe_hash]. rewrite E.
  unfold compute_entry_hash. simpl. rewrite !hash_chain_iter.
  replace (Z.to_nat (pe_num_hashes e)) with (S (Z.to_nat (pe_num_hashes e - 1))) by lia.
  by rewrite Nat.iter_succ_r.
Qed.

(** [verify_block] does not compare the first entry with the parent hash, so
    the work a block claims can be changed without touching its hash: moving a
    step of the first entry into its previous hash still verifies. *)
Lemma verify_block_work_malleable b e es :
  bl_entries b = e :: es -> 1 <= pe_num_hashes e -> vr_valid (verify_block b) = true ->
  vr_valid (verify_block (mkBlock (bl_hash b) (bl_slot b) (bl_parent_hash b) (shift_work e :: es)
                            (bl_height b) (bl_timestamp b))) = true.
Proof.
  intros Eb Hn [_ [h Hc]]%verify_block_iff. apply verify_block_iff. simpl. split; [done|].
  rewrite Eb in Hc. inversion Hc; subst. eexists. constructor; [done|by apply shift_work_verifies|done].
Qed.

(** Payloads are hashed without lengths or tags: bytes may move between a
    transaction and its signature or between transactions, and a transaction
    whose bytes spell "tick" passes for a tick. *)
Lemma payload_ambiguous prev n slot index (txs1 txs2 : list TransactionEntry) :
  payload (Transactions txs1) = payload (Transactions txs2) ->
  pe_hash (entry_of prev n slot index (Transactions txs1)) =
  pe_hash (entry_of prev n slot index (Transactions txs2)).
Proof. 
  intros E. unfold entry_of, compute_entry_hash, set_hash.
  cbn [pe_hash pe_prev_hash pe_num_hashes pe_slot pe_index pe_data]. by rewrite E.
Qed.

Lemma tick_forgeable prev n slot index :
  pe_hash (entry_transaction prev n slot index (str_bytes "ti") (str_bytes "ck")) =
  pe_hash (entry_tick prev n slot index).
Proof. reflexivity. Qed.
End Poh.
