(* ===== verification/PohService.v ===== *)
(** * Running the PoH recorder

    src/crates/poh: the task that ticks the recorder (recorder.rs, [run_loop] and
    the accessors), the verifier object (verifier.rs) and the text of hashes
    (hasher.rs).  The recorder sends every entry on a channel; the file shows that
    what arrives there is one verifiable history, whatever the mix of ticks,
    transactions and new slots. *)

From S2P Require Import Prelude Crypto Poh.
From stdpp Require Import list.
Open Scope Z_scope.

(** [PohHash::to_hex], [Display for PohHash] *)
Definition poh_to_hex (h : bytes) : string := hex_encode h.
Definition poh_display (h : bytes) : string := hex_encode (take 8 h).

(** [PohHasher::current], [count], [slot]; [Entry::new] *)
Definition hasher_current (h : PohHasher) : bytes := current_hash h.
Definition hasher_count (h : PohHasher) : Z := hash_count h.
Definition hasher_current_slot (h : PohHasher) : Z := hasher_slot h.
Definition block_new (hash : bytes) (slot : Z) (parent_hash : bytes) (entries : list PohEntry) (height timestamp : Z) : Entry :=
  mkBlock hash slot parent_hash entries height timestamp.

(** [PohRecorder::current_hash], [tick_height], [slot], [hash_count] *)
Definition recorder_current_hash (r : PohRecorder) : bytes := rc_prev_hash r.
Definition recorder_tick_height (r : PohRecorder) : Z := rc_tick_height r.
Definition recorder_slot (r : PohRecorder) : Z := rc_slot r.
Definition recorder_hash_count (r : PohRecorder) : Z := rc_hash_count r.

(** [create_shared_recorder]: a recorder behind a lock *)
Definition create_shared_recorder (config : PohConfig) (genesis_hash : bytes) : PohRecorder :=
  recorder_new config genesis_hash.

(** [1000 / self.config.target_tick_rate] milliseconds; [None] is the division
    by zero. *)
Definition tick_interval (config : PohConfig) : option Z :=
  if target_tick_rate config =? 0 then None else Some (1000 / target_tick_rate config).

(** [struct PohVerifier] *)
Record PohVerifier := mkVerifier {
  pv_last_valid_hash : option bytes;
  pv_entries_verified : Z;
  pv_hashes_verified : Z
}.

(** [PohVerifier::new], [new_with_state], and the accessors of its counters *)
Definition verifier_new : PohVerifier := mkVerifier None 0 0.
Definition verifier_new_with_state (last_valid_hash : bytes) : PohVerifier := mkVerifier (Some last_valid_hash) 0 0.
Definition verifier_entries_verified (v : PohVerifier) : Z := pv_entries_verified v.
Definition verifier_hashes_verified (v : PohVerifier) : Z := pv_hashes_verified v.

Section Service.
Context `{Sha : Sha256}.

(** [PohVerifier::verify_entry] *)
Definition verifier_verify_entry (_ : PohVerifier) (entry : PohEntry) : bool := verify_entry entry.

(** [n] rounds of the loop of [PohRecorder::run_loop] *)
Fixpoint run_loop (n : nat) (r : PohRecorder) : PohRecorder :=
  match n with
  | O => r
  | S n => run_loop n (record_tick r)
  end.

(** [PohRecorder::run_loop] for [n] rounds; [None] is the panic before the loop. *)
Definition recorder_run (n : nat) (r : PohRecorder) : option PohRecorder :=
  match tick_interval (rc_config r) with
  | None => None
  | Some _ => Some (run_loop n r)
  end.

(** ** The channel *)

(** What the owner of a recorder can do. *)
Inductive recorder_step : PohRecorder -> PohRecorder -> Prop :=
| RecRecord r op : recorder_step r (run_record r op)
| RecNewSlot r slot : recorder_step r (recorder_new_slot r slot).1
| RecLoop r n : recorder_step r (run_loop n r).

(** Everything sent, and the totals the accessors report. *)
Record sent_ok (genesis : bytes) (r : PohRecorder) : Prop := {
  so_chain : chain genesis (rec_entry <$> rc_sent r) (rc_prev_hash r);
  so_hashes : rc_hash_count r = total_work (rec_entry <$> rc_sent r);
  so_pending : rc_pending_transactions r = [];
  so_ticks : rc_tick_height r = wrap64 (Z.of_nat (length (filter (fun e => pe_data (rec_entry e) = Tick) (rc_sent r))))
}.

Lemma total_work_snoc es e : total_work (es ++ [e]) = wrap64 (total_work es + pe_num_hashes e).
Proof. unfold total_work. by rewrite foldl_snoc. Qed.

Lemma push_sent genesis r t n d : sent_ok genesis r ->
  t = (if decide (d = Tick) then wrap64 (rc_tick_height r + 1) else rc_tick_height r) ->
  sent_ok genesis (push_entry r t n (rc_pending_transactions r)
    (entry_of (rc_prev_hash r) n (rc_slot r) (rc_entry_index r) d)).
Proof.
  intros [Hc Hh Hp Ht] ->.
  constructor; cbn [push_entry rc_sent rc_prev_hash rc_hash_count rc_pending_transactions rc_tick_height];
    rewrite ?fmap_app; cbn [fmap list_fmap rec_entry].
  - eapply chain_snoc; [exact Hc|done|apply entry_of_verifies].
  - by rewrite total_work_snoc, Hh.
  - done.
  - rewrite filter_app, length_app, filter_cons, filter_nil. cbn [rec_entry entry_of set_hash pe_data].
    case_decide; cbn [length]; rewrite Ht, ?Nat.add_0_r; [|done]. unfold wrap64. rewrite Zplus_mod_idemp_l. f_equal. lia.
Qed.

Lemma record_sent genesis r op : sent_ok genesis r -> sent_ok genesis (run_record r op).
Proof.
  intros Hr. destruct op; cbn [run_record].
  - by apply push_sent; [|rewrite decide_True].
  - by apply push_sent; [|rewrite decide_False].
  - unfold flush_transactions. by rewrite (so_pending _ _ Hr).
Qed.

Lemma run_loop_sent genesis n r : sent_ok genesis r -> sent_ok genesis (run_loop n r).
Proof. revert r. induction n as [|n IH]; intros r Hr; cbn [run_loop]; [done|]. by apply IH, (record_sent _ _ RTick). Qed.

(** C31. What the recorder sends is one verifiable history: however ticks,
    transactions, flushes, new slots and rounds of the tick loop follow each
    other, the entries on the channel form one hash chain from the genesis hash to the current
    hash, every entry verifies, the reported hash count is
    their total work and the reported tick height the number of ticks among
    them (both modulo 2^64); nothing is ever pending, so a flush never emits an entry. *)
Theorem recorder_history config genesis r : rtc recorder_step (create_shared_recorder config genesis) r ->
  chain genesis (rec_entry <$> rc_sent r) (recorder_current_hash r) /\
  Forall (fun e => verifier_verify_entry verifier_new (rec_entry e) = true) (rc_sent r) /\
  recorder_hash_count r = total_work (rec_entry <$> rc_sent r) /\
  recorder_tick_height r = wrap64 (Z.of_nat (length (filter (fun e => pe_data (rec_entry e) = Tick) (rc_sent r)))) /\
  flush_transactions r = r.
Proof.
  intros Hsteps. assert (Hr : sent_ok genesis r).
  { assert (H0 : sent_ok genesis (create_shared_recorder config genesis)) by (constructor; [constructor|done..]).
    revert H0. induction Hsteps as [|r1 r2 r3 Hstep _ IH]; [done|]. intros H1. apply IH.
    destruct Hstep as [r op|r slot|r n]; [by apply record_sent|by destruct H1|by apply run_loop_sent]. }
  destruct Hr as [Hc Hh Hp Ht]. split; [exact Hc|]. split.
  - by apply chain_verified, Forall_fmap in Hc.
  - split; [exact Hh|]. split; [exact Ht|]. unfold flush_transactions. by rewrite Hp.
Qed.

(** The loop ticks once a round; a rate that does not divide 1000 gives a
    shorter interval than asked for, and one above 1000 none at all. *)
Lemma tick_interval_spec config : 0 < target_tick_rate config ->
  exists ms, tick_interval config = Some ms /\ ms * target_tick_rate config <= 1000 /\
    (1000 < target_tick_rate config -> ms = 0).
Proof.
  intros Hr. unfold tick_interval. rewrite (proj2 (Z.eqb_neq _ _)) by lia. eexists. split; [done|].
  split; [rewrite Z.mul_comm; apply Z.mul_div_le; lia|]. intros Hgt. by apply Z.div_small.
Qed.
End Service.
