(* ===== verification/Vote.v ===== *)
(** * Votes and vote states ([crates/consensus/src/vote.rs]) *)

From S2P Require Import Prelude Crypto.
From stdpp Require Import list.
Open Scope Z_scope.

(** [struct Vote] *)
Record Vote := mkVote {
  v_validator : bytes;
  v_slot : Z;
  v_block_hash : bytes;
  v_parent_slot : option Z;
  v_timestamp : Z;
  v_signature : bytes;
  v_state_hash : bytes
}.

(** [struct VoteHistoryEntry] *)
Record VoteHistoryEntry := mkHistory { vh_slot : Z; vh_block_hash : bytes; vh_timestamp : Z }.

(** [struct VoteState] *)
Record VoteState := mkVoteState {
  vs_validator : bytes;
  vs_root_slot : Z;
  last_vote_slot : Z;
  last_vote_hash : bytes;
  consecutive_votes : Z;
  lockout_multiplier : Z;
  vs_total_votes : Z;
  history : list VoteHistoryEntry
}.

Section Vote.
Context `{Sha : Sha256} `{Ed : Ed25519}.

(** [Vote::compute_state_hash] *)
Definition compute_state_hash (validator : bytes) (slot : Z) (block_hash : bytes) : bytes :=
  sha256 (validator ++ le_bytes 8 slot ++ block_hash).

(** [Vote::new], at a clock reading *)
Definition vote_new (validator : bytes) (slot : Z) (block_hash : bytes) (parent_slot : option Z)
    (timestamp : Z) : Vote :=
  mkVote validator slot block_hash parent_slot timestamp []
         (compute_state_hash validator slot block_hash).

(** [Vote::signable_data] *)
Definition signable_data (v : Vote) : bytes :=
  v_validator v ++ le_bytes 8 (v_slot v) ++ v_block_hash v ++
  (match v_parent_slot v with Some parent => [1] ++ le_bytes 8 parent | None => [0] end) ++
  le_bytes 8 (v_timestamp v) ++ v_state_hash v.

(** [Vote::sign] *)
Definition vote_sign (v : Vote) (key : SigningKey) : Vote :=
  let validator := verifying_key key in
  let v' := mkVote validator (v_slot v) (v_block_hash v) (v_parent_slot v) (v_timestamp v)
                   (v_signature v) (compute_state_hash validator (v_slot v) (v_block_hash v)) in
  mkVote validator (v_slot v') (v_block_hash v') (v_parent_slot v') (v_timestamp v')
         (ed_sign key (signable_data v')) (v_state_hash v').

(** [Vote::verify_signature] *)
Definition vote_verify_signature (v : Vote) : bool :=
  ed_verify (v_validator v) (signable_data v) (v_signature v).

(** [VoteState::new] *)
Definition vote_state_new (validator : bytes) (genesis_slot : Z) : VoteState :=
  mkVoteState validator genesis_slot 0 (fill32 0) 0 1 0 [].

(** [VoteState::process_vote] *)
Definition state_process_vote (s : VoteState) (v : Vote) : VoteState :=
  let h := history s ++ [mkHistory (v_slot v) (v_block_hash v) (v_timestamp v)] in
  mkVoteState (vs_validator s) (vs_root_slot s) (v_slot v) (v_block_hash v)
    (wrap64 (consecutive_votes s + 1)) (lockout_multiplier s) (wrap64 (vs_total_votes s + 1))
    (if (32 <? length h)%nat then drop 1 h else h).

(** [VoteState::lockout_slots] *)
Definition lockout_slots (s : VoteState) : Z := 2 ^ Z.min (consecutive_votes s) 31.

(** [VoteState::can_switch_fork] *)
Definition can_switch_fork (s : VoteState) (current_slot : Z) : bool :=
  wrap64 (last_vote_slot s + lockout_slots s) <=? current_slot.

(** [VoteState::switch_fork], [VoteState::reset_lockout] *)
Definition switch_fork (s : VoteState) : VoteState :=
  mkVoteState (vs_validator s) (vs_root_slot s) (last_vote_slot s) (last_vote_hash s)
    0 (saturating_mul (lockout_multiplier s) 2) (vs_total_votes s) (history s).
Definition reset_lockout (s : VoteState) : VoteState :=
  mkVoteState (vs_validator s) (vs_root_slot s) (last_vote_slot s) (last_vote_hash s)
    0 1 (vs_total_votes s) (history s).

(** [VoteState::update_root] *)
Definition update_root (s : VoteState) (new_root : Z) : VoteState :=
  mkVoteState (vs_validator s) new_root (last_vote_slot s) (last_vote_hash s)
    (consecutive_votes s) (lockout_multiplier s) (vs_total_votes s)
    (filter (fun e => new_root <= vh_slot e) (history s)).

(** [VoteState::tower_hash] *)
Definition tower_hash (s : VoteState) : bytes :=
  sha256 (vs_validator s ++ le_bytes 8 (last_vote_slot s) ++ last_vote_hash s ++
          le_bytes 8 (consecutive_votes s)).

(** ** The signed bytes determine the vote *)

Definition vote_ok (v : Vote) : Prop :=
  arr32 (v_validator v) /\ is_u64 (v_slot v) /\ arr32 (v_block_hash v) /\
  (match v_parent_slot v with Some p => is_u64 p | None => True end) /\
  is_u64 (v_timestamp v) /\ arr32 (v_state_hash v).

Lemma signable_data_inj v1 v2 :
  vote_ok v1 -> vote_ok v2 -> signable_data v1 = signable_data v2 ->
  v_validator v1 = v_validator v2 /\ v_slot v1 = v_slot v2 /\ v_block_hash v1 = v_block_hash v2 /\
  v_parent_slot v1 = v_parent_slot v2 /\ v_timestamp v1 = v_timestamp v2.
Proof.
  destruct v1 as [k1 s1 b1 p1 t1 g1 h1], v2 as [k2 s2 b2 p2 t2 g2 h2]. unfold vote_ok, signable_data.
  cbn [v_validator v_slot v_block_hash v_parent_slot v_timestamp v_state_hash].
  intros ([Hk1 _] & Hs1 & [Hb1 _] & Hp1 & Ht1 & [Hh1 _]) ([Hk2 _] & Hs2 & [Hb2 _] & Hp2 & Ht2 & [Hh2 _]) E.
  do 3 split_app E. apply le_bytes_inj in E1; [|exact Hs1|exact Hs2].
  destruct p1 as [p1|], p2 as [p2|]; [|discriminate E|discriminate E|].
  - rewrite <- !app_assoc in E. do 3 split_app E. apply le_bytes_inj in E4; [|exact Hp1|exact Hp2].
    apply le_bytes_inj in E5; [|exact Ht1|exact Ht2]. by subst.
  - do 2 split_app E. apply le_bytes_inj in E4; [|exact Ht1|exact Ht2]. by subst.
Qed.

Lemma vote_sign_verifies v key : vote_verify_signature (vote_sign v key) = true.
Proof. unfold vote_verify_signature, vote_sign. simpl. apply ed_verify_sign. Qed.

(** The history keeps at most the 32 latest votes, whatever is processed. *)
Lemma history_bounded s v :
  (length (history s) <= 32)%nat -> (length (history (state_process_vote s v)) <= 32)%nat.
Proof.
  intros Hl. simpl. case_match; rewrite ?length_drop, length_app in *; simpl in *; [lia|].
  apply Nat.ltb_ge in H. lia.
Qed.
End Vote.
