(* ===== verification/Tower.v ===== *)
(** * The tower ([crates/consensus/src/tower.rs])

    Stake-weighted votes per block, lockouts per validator, supermajority
    confirmation and the heaviest-chain head.  The concurrent hash maps are
    finite maps; the order in which they iterate is the parameter [order]. *)

From S2P Require Import Prelude Crypto Vote.
From stdpp Require Import list.
Open Scope Z_scope.

Definition DEFAULT_STAKE : Z := 1.

(** [struct TowerNode] *)
Record TowerNode := mkNode {
  n_block_hash : bytes;
  n_slot : Z;
  n_parent_slot : option Z;
  n_parent_hash : option bytes;
  n_weight : Z;
  n_voters : list bytes;
  n_children : list bytes
}.

(** [struct Tower] *)
Record Tower := mkTower {
  nodes : gmap bytes TowerNode;
  validator_states : gmap bytes VoteState;
  stakes : gmap bytes Z;
  slot_to_hash : gmap Z bytes;
  root_slot : Z;
  best_head : option bytes;
  t_total_votes : Z;
  total_switches : Z
}.

(** [Tower::new] *)
Definition tower_new (genesis_slot : Z) : Tower := mkTower ∅ ∅ ∅ ∅ genesis_slot None 0 0.

Definition set_states (t : Tower) (vs : gmap bytes VoteState) : Tower :=
  mkTower (nodes t) vs (stakes t) (slot_to_hash t) (root_slot t) (best_head t) (t_total_votes t)
          (total_switches t).

(** [Tower::register_validator] *)
Definition register_validator (t : Tower) (validator : bytes) (stake : Z) : Tower :=
  mkTower (nodes t)
    (match validator_states t !! validator with
     | Some _ => validator_states t
     | None => <[validator := vote_state_new validator (root_slot t)]> (validator_states t)
     end)
    (<[validator := stake]> (stakes t)) (slot_to_hash t) (root_slot t) (best_head t)
    (t_total_votes t) (total_switches t).

(** [Tower::stake_of] *)
Definition stake_of (t : Tower) (validator : bytes) : Z := default DEFAULT_STAKE (stakes t !! validator).

(** [Tower::total_stake]: registered stakes, then a default credit for every
    other validator with a vote state. *)
Definition total_stake (t : Tower) : Z :=
  let registered := foldl (fun total '(_, s) => saturating_add total s) 0 (map_to_list (stakes t)) in
  foldl (fun total '(v, _) =>
           if bool_decide (is_Some (stakes t !! v)) then total else saturating_add total DEFAULT_STAKE)
        registered (map_to_list (validator_states t)).

(** [Tower::chain_weight], with its memo table.  The recursion follows parent
    links; [None] when the fuel runs out. *)
Fixpoint chain_weight (fuel : nat) (ns : gmap bytes TowerNode) (hash : bytes) (memo : gmap bytes Z)
    : option (Z * gmap bytes Z) :=
  match fuel with
  | O => None
  | S fuel =>
    match memo !! hash with
    | Some weight => Some (weight, memo)
    | None =>
      match ns !! hash with
      | None => Some (0, memo)
      | Some node =>
        match n_parent_hash node with
        | Some parent_hash =>
            '(w, memo) ← chain_weight fuel ns parent_hash memo;
            let total := saturating_add (n_weight node) w in
            Some (total, <[hash := total]> memo)
        | None => Some (n_weight node, <[hash := n_weight node]> memo)
        end
      end
    end
  end.

(** [entry.value().weight.saturating_mul(3) > total_stake.saturating_mul(2)] *)
Definition supermajority (total : Z) (n : TowerNode) : bool :=
  saturating_mul total 2 <? saturating_mul (n_weight n) 3.

Section Tower.
Context `{Sha : Sha256} `{Ed : Ed25519}.
(** Iteration order of [nodes]. *)
Context (order : gmap bytes TowerNode -> list (bytes * TowerNode)).

(** [if better { best = Some((leaf, weight, slot)) }] *)
Definition pick_best (best : option (bytes * Z * Z)) (leaf : bytes) (weight slot : Z)
    : option (bytes * Z * Z) :=
  let better := match best with
                | None => true
                | Some (_, best_weight, best_slot) =>
                    (best_weight <? weight) || ((weight =? best_weight) && (best_slot <? slot))
                end in
  if better then Some (leaf, weight, slot) else best.

(** The loop of [update_best_head] over the fork tips. *)
Fixpoint best_leaf (fuel : nat) (ns : gmap bytes TowerNode) (memo : gmap bytes Z)
    (best : option (bytes * Z * Z)) (leaves : list bytes) : option (option (bytes * Z * Z)) :=
  match leaves with
  | [] => Some best
  | leaf :: leaves =>
      '(weight, memo) ← chain_weight fuel ns leaf memo;
      let slot := from_option n_slot 0 (ns !! leaf) in
      best_leaf fuel ns memo (pick_best best leaf weight slot) leaves
  end.

Definition leaves_of (ns : gmap bytes TowerNode) (root : Z) : list bytes :=
  omap (fun '(k, n) => if (root <=? n_slot n) && (match n_children n with [] => true | _ => false end)
                       then Some k else None) (order ns).

(** [Tower::update_best_head]; a chain of parents visits at most every node
    once when it ends, so the number of nodes plus one is enough fuel. *)
Definition update_best_head (t : Tower) : option Tower :=
  best ← best_leaf (S (size (nodes t))) (nodes t) ∅ None (leaves_of (nodes t) (root_slot t));
  Some (mkTower (nodes t) (validator_states t) (stakes t) (slot_to_hash t) (root_slot t)
          (match best with Some (hash, _, _) => Some hash | None => best_head t end)
          (t_total_votes t) (total_switches t)).

(** Add the vote's stake to its block's node, creating the node. *)
Definition count_vote (t : Tower) (v : Vote) : gmap bytes TowerNode :=
  let stake := stake_of t (v_validator v) in
  let parent_hash := ps ← v_parent_slot v; slot_to_hash t !! ps in
  let node := default (mkNode (v_block_hash v) (v_slot v) (v_parent_slot v) parent_hash 0 [] [])
                      (nodes t !! v_block_hash v) in
  let node := if bool_decide (v_validator v ∈ n_voters node) then node
              else mkNode (n_block_hash node) (n_slot node) (n_parent_slot node) (n_parent_hash node)
                     (saturating_add (n_weight node) stake) (n_voters node ++ [v_validator v])
                     (n_children node) in
  <[v_block_hash v := node]> (nodes t).

(** Link the block as a child of its parent, if the parent is known. *)
Definition link_child (ns : gmap bytes TowerNode) (s2h : gmap Z bytes) (v : Vote)
    : gmap bytes TowerNode :=
  match v_parent_slot v with
  | None => ns
  | Some parent_slot =>
    match s2h !! parent_slot with
    | None => ns
    | Some parent_hash =>
      match ns !! parent_hash with
      | None => ns
      | Some parent =>
          if bool_decide (v_block_hash v ∈ n_children parent) then ns
          else <[parent_hash := mkNode (n_block_hash parent) (n_slot parent) (n_parent_slot parent)
                   (n_parent_hash parent) (n_weight parent) (n_voters parent)
                   (n_children parent ++ [v_block_hash v])]> ns
      end
    end
  end.

(** The validator's state when its vote is examined: created on first sight,
    lockout reset when the vote builds on the root. *)
Definition examined_state (t : Tower) (v : Vote) : VoteState :=
  let st := default (vote_state_new (v_validator v) (root_slot t))
                    (validator_states t !! v_validator v) in
  if bool_decide (v_parent_slot v = Some (root_slot t)) && (root_slot t <? v_slot v)
  then reset_lockout st else st.

(** [Tower::process_vote]; [None] when finding the best head does not end. *)
Definition process_vote (t : Tower) (v : Vote) : option (Tower * bool) :=
  if negb (vote_verify_signature v) then Some (t, false)
  else
    let st := examined_state t v in
    let t := set_states t (<[v_validator v := st]> (validator_states t)) in
    if v_slot v <=? last_vote_slot st then Some (t, false)
    else
      let is_fork_switch := negb (bool_decide (v_parent_slot v = Some (last_vote_slot st))) in
      if is_fork_switch && negb (can_switch_fork st (v_slot v)) then Some (t, false)
      else
        let st := if is_fork_switch then switch_fork st else st in
        let switches := if is_fork_switch then wrap64 (total_switches t + 1) else total_switches t in
        let s2h := <[v_slot v := v_block_hash v]> (slot_to_hash t) in
        let t := mkTower (link_child (count_vote t v) s2h v)
                   (<[v_validator v := state_process_vote st v]> (validator_states t))
                   (stakes t) s2h (root_slot t) (best_head t) (t_total_votes t) switches in
        t ← update_best_head t;
        Some (mkTower (nodes t) (validator_states t) (stakes t) (slot_to_hash t) (root_slot t)
                (best_head t) (wrap64 (t_total_votes t + 1)) (total_switches t), true).


(** [Tower::advance_root] *)
Definition advance_root (t : Tower) (new_root : Z) : Tower :=
  mkTower (filter (fun '(_, n) => new_root <= n_slot n) (nodes t))
    ((fun st => let st := update_root st new_root in
                if last_vote_slot st <=? new_root then reset_lockout st else st) <$> validator_states t)
    (stakes t)
    (filter (fun '(slot, _) => new_root <= slot) (slot_to_hash t))
    new_root (best_head t) (t_total_votes t) (total_switches t).

(** [TowerStats], [Tower::stats] *)
Record TowerStats := mkTowerStats {
  ts_nodes : nat; ts_validators : nat; ts_votes : Z; ts_switches : Z; ts_root : Z; ts_best : option bytes
}.
Definition tower_stats (t : Tower) : TowerStats :=
  mkTowerStats (size (nodes t)) (size (validator_states t)) (t_total_votes t) (total_switches t)
    (root_slot t) (best_head t).
End Tower.

(** ** Stake sums *)
















(** ** Invariant *)

Section TowerInv.
Context `{Sha : Sha256} `{Ed : Ed25519}.
Context (order : gmap bytes TowerNode -> list (bytes * TowerNode)).
Context (order_perm : forall ns, order ns ≡ₚ map_to_list ns).
(** The slot each block belongs to: what honest votes agree on. *)
Context (slot_of : bytes -> Z).




Lemma link_child_same ns s2h v h n :
  link_child ns s2h v !! h = Some n ->
  exists n0, ns !! h = Some n0 /\ n_slot n = n_slot n0 /\ n_voters n = n_voters n0 /\
    n_weight n = n_weight n0 /\ n_parent_hash n = n_parent_hash n0.
Proof.
  unfold link_child. destruct (v_parent_slot v) as [ps|]; [|eauto 10].
  destruct (s2h !! ps) as [ph|]; [|eauto 10]. destruct (ns !! ph) as [p|] eqn:Ep; [|eauto 10].
  case_bool_decide; [eauto 10|]. rewrite lookup_insert. case_decide; [|eauto 10].
  intros [= <-]. subst. exists p. done.
Qed.


(** ** Votes *)

Lemma update_best_head_same t t' :
  update_best_head order t = Some t' ->
  nodes t' = nodes t /\ validator_states t' = validator_states t /\ stakes t' = stakes t /\
  slot_to_hash t' = slot_to_hash t /\ root_slot t' = root_slot t.
Proof.
  unfold update_best_head. destruct (best_leaf _ _ _ _ _) as [best|]; [|done].
  simpl. by intros [= <-].
Qed.

(** An accepted vote. *)
Lemma process_vote_accepted t v t' :
  process_vote order t v = Some (t', true) ->
  let st := examined_state t v in
  vote_verify_signature v = true /\ last_vote_slot st < v_slot v /\
  (v_parent_slot v = Some (last_vote_slot st) \/ can_switch_fork st (v_slot v) = true) /\
  nodes t' = link_child (count_vote t v) (<[v_slot v := v_block_hash v]> (slot_to_hash t)) v /\
  (exists st', last_vote_slot st' = v_slot v /\
     validator_states t' = <[v_validator v := st']> (<[v_validator v := st]> (validator_states t))) /\
  stakes t' = stakes t /\ slot_to_hash t' = <[v_slot v := v_block_hash v]> (slot_to_hash t) /\
  root_slot t' = root_slot t.
Proof.
  unfold process_vote. destruct (vote_verify_signature v); [|done]. cbn [negb].
  set (st := examined_state t v).
  destruct (Z.leb_spec (v_slot v) (last_vote_slot st)) as [|Hlt]; [done|].
  destruct (negb (bool_decide _) && _) eqn:Hfork; [done|].
  match goal with |- context [update_best_head order ?t1] =>
    destruct (update_best_head order t1) as [t2|] eqn:Hu; [|done] end.
  apply update_best_head_same in Hu as (Hn & Hv & Hs & H2 & Hr). simpl in Hn, Hv, Hs, H2, Hr.
  intros [= <-]. simpl. rewrite Hn, Hv, Hs, H2, Hr. split_and!; try done.
  - case_bool_decide; [by left|right]. simpl in Hfork. by destruct (can_switch_fork st (v_slot v)).
  - eexists. split; [|reflexivity]. done.
Qed.

(** A refused vote leaves the votes, stakes and roots alone; it may create the
    validator's state or reset its lockout, never move its last vote. *)
Lemma process_vote_refused t v t' :
  process_vote order t v = Some (t', false) ->
  t' = t \/ t' = set_states t (<[v_validator v := examined_state t v]> (validator_states t)).
Proof.
  unfold process_vote. destruct (vote_verify_signature v); cbn [negb]; [|intros [= <-]; auto].
  destruct (_ <=? _); [intros [= <-]; auto|]. destruct (_ && _); [intros [= <-]; auto|].
  match goal with |- context [update_best_head order ?t1] =>
    by destruct (update_best_head order t1) end.
Qed.

(** The voter's state after an accepted vote. *)
Lemma process_vote_state t v t' :
  process_vote order t v = Some (t', true) ->
  let st := examined_state t v in
  (forall x, x <> v_validator v -> validator_states t' !! x = validator_states t !! x) /\
  validator_states t' !! v_validator v =
    Some (state_process_vote (if negb (bool_decide (v_parent_slot v = Some (last_vote_slot st))) then switch_fork st else st) v).
Proof.
  unfold process_vote. destruct (vote_verify_signature v); [|done]. cbn [negb].
  set (st := examined_state t v). destruct (_ <=? _); [done|]. destruct (negb (bool_decide _) && _); [done|].
  match goal with |- context [update_best_head order ?t1] =>
    destruct (update_best_head order t1) as [t2|] eqn:Hu; [|done] end.
  apply update_best_head_same in Hu as (_ & Hv & _). cbn [validator_states set_states] in Hv.
  intros [= <-]. cbn [validator_states]. rewrite Hv. split; [intros x Hx; by rewrite !lookup_insert_ne|].
  by rewrite lookup_insert_eq.
Qed.

(** A signed vote for a later slot that may be cast is accepted. *)
Lemma process_vote_decides t v t' b :
  process_vote order t v = Some (t', b) -> vote_verify_signature v = true ->
  last_vote_slot (examined_state t v) < v_slot v ->
  v_parent_slot v = Some (last_vote_slot (examined_state t v)) \/ can_switch_fork (examined_state t v) (v_slot v) = true ->
  b = true.
Proof.
  intros Hp Hsig Hlt Hf. revert Hp. unfold process_vote. rewrite Hsig. cbn [negb].
  rewrite (proj2 (Z.leb_gt _ _)) by done.
  destruct (negb (bool_decide _) && _) eqn:Hfork.
  { apply andb_true_iff in Hfork as [H1 H2]. apply negb_true_iff, bool_decide_eq_false in H1.
    apply negb_true_iff in H2. destruct Hf; congruence. }
  match goal with |- context [update_best_head order ?t1] =>
    destruct (update_best_head order t1) as [t2|]; [|done] end. by intros [= _ <-].
Qed.

Lemma examined_last_vote t v :
  last_vote_slot (examined_state t v) =
  last_vote_slot (default (vote_state_new (v_validator v) (root_slot t)) (validator_states t !! v_validator v)).
Proof. unfold examined_state. by case_match. Qed.













(** C24. Lockout is enforced.  With [st] the validator's recorded state (a fresh
    one on first sight) and slots below 2^63, a vote is accepted exactly when it
    is signed by its validator, is for a later slot than the validator's last
    vote, and extends that vote, builds directly on the root, or comes at
    least [2^consecutive_votes] (capped at [2^31]) slots after it.  An accepted
    vote becomes the last vote; it counts one more consecutive vote, doubling
    the lockout, when it extends the last vote and does not build on the root, and
    restarts the count otherwise.  A refused vote changes neither
    blocks, weights, stakes nor anyone's last vote; no vote changes the
    state of another validator. *)
Theorem vote_lockout_enforced t v t' b :
  process_vote order t v = Some (t', b) ->
  let st := default (vote_state_new (v_validator v) (root_slot t)) (validator_states t !! v_validator v) in
  let extends := v_parent_slot v = Some (last_vote_slot st) in
  let on_root := v_parent_slot v = Some (root_slot t) /\ root_slot t < v_slot v in
  0 <= last_vote_slot st < 9223372036854775808 -> 0 <= consecutive_votes st < U64_MAX ->
  (b = true <-> vote_verify_signature v = true /\ last_vote_slot st < v_slot v /\
     (extends \/ on_root \/ last_vote_slot st + 2 ^ Z.min (consecutive_votes st) 31 <= v_slot v)) /\
  (forall x, x <> v_validator v -> validator_states t' !! x = validator_states t !! x) /\
  if b then
    exists st', validator_states t' !! v_validator v = Some st' /\ last_vote_slot st' = v_slot v /\
      consecutive_votes st' = if decide (extends /\ ~ on_root) then consecutive_votes st + 1 else 1
  else
    nodes t' = nodes t /\ stakes t' = stakes t /\ slot_to_hash t' = slot_to_hash t /\
    last_vote_slot (default (vote_state_new (v_validator v) (root_slot t)) (validator_states t' !! v_validator v)) =
      last_vote_slot st.
Proof.
  intros Hp st extends on_root Hlast Hcv.
  set (resets := bool_decide (v_parent_slot v = Some (root_slot t)) && (root_slot t <? v_slot v)).
  assert (Hroot : resets = true <-> on_root) by (unfold resets; by rewrite andb_true_iff, bool_decide_eq_true, Z.ltb_lt).
  assert (Hx : last_vote_slot (examined_state t v) = last_vote_slot st) by apply examined_last_vote.
  assert (Hc : consecutive_votes (examined_state t v) = if resets then 0 else consecutive_votes st)
    by (unfold examined_state; fold st; fold resets; by destruct resets).
  assert (Hsw : can_switch_fork (examined_state t v) (v_slot v) = true <->
    last_vote_slot st + 2 ^ Z.min (if resets then 0 else consecutive_votes st) 31 <= v_slot v).
  { unfold can_switch_fork, lockout_slots. rewrite Hx, Hc, Z.leb_le, wrap64_id; [done|].
    assert (0 <= 2 ^ Z.min (if resets then 0 else consecutive_votes st) 31 <= 2 ^ 31).
    { split; [apply Z.pow_nonneg; lia|]. apply Z.pow_le_mono_r; lia. }
    change (2 ^ 31) with 2147483648 in *. u64_unfold. lia. }
  assert (Hcond : last_vote_slot st < v_slot v -> (extends \/ can_switch_fork (examined_state t v) (v_slot v) = true) <->
    (extends \/ on_root \/ last_vote_slot st + 2 ^ Z.min (consecutive_votes st) 31 <= v_slot v)).
  { intros Hlt. rewrite Hsw, <- Hroot. destruct resets; [|naive_solver]. change (2 ^ Z.min 0 31) with 1. naive_solver lia. }
  clear Hsw. destruct b.
  - pose proof Hp as (Hsig & Hlt & Hfork & _)%process_vote_accepted. rewrite Hx in Hlt, Hfork.
    apply process_vote_state in Hp as [Hv Hst]. split; [|split; [exact Hv|]].
    + split; [|done]. intros _. split; [done|]. split; [done|]. by apply Hcond.
    + eexists. split; [exact Hst|]. split; [done|]. rewrite Hx. fold extends.
      destruct (decide (extends /\ ~ on_root)) as [[He Hr]|Hn].
      * rewrite bool_decide_eq_true_2 by done. cbn [negb state_process_vote consecutive_votes]. rewrite Hc.
        destruct resets; [by destruct Hr; apply Hroot|]. apply wrap64_id. u64_unfold. lia.
      * clear Hst Hv; case_bool_decide as He; cbn [negb state_process_vote switch_fork consecutive_votes]; [|reflexivity].
        rewrite Hc. destruct resets; [reflexivity|]. destruct Hn. split; [done|]. intros Hr. by apply Hroot in Hr.
  - pose proof Hp as Href. split; [split; [done|]|].
    + intros (Hsig & Hlt & Hf). apply Hcond in Hf; [|done]. exfalso. clear Href.
      rewrite <- Hx in Hlt. assert (E : false = true); [|done].
      eapply process_vote_decides; [exact Hp|done|done|]. rewrite Hx. exact Hf.
    + apply process_vote_refused in Href as [-> | ->]; [done|]. cbn [set_states validator_states nodes stakes slot_to_hash].
      split; [intros x Hne; by rewrite lookup_insert_ne|]. rewrite lookup_insert_eq. split_and!; done.
Qed.

(** ** The best head *)

(** Reference: the stake along a chain, without the memo table. *)
Fixpoint chain_sum (fuel : nat) (ns : gmap bytes TowerNode) (hash : bytes) : option Z :=
  match fuel with
  | O => None
  | S fuel =>
    match ns !! hash with
    | None => Some 0
    | Some node =>
      match n_parent_hash node with
      | Some p => w ← chain_sum fuel ns p; Some (saturating_add (n_weight node) w)
      | None => Some (n_weight node)
      end
    end
  end.

Lemma chain_sum_mono ns fuel fuel' hash w :
  chain_sum fuel ns hash = Some w -> (fuel <= fuel')%nat -> chain_sum fuel' ns hash = Some w.
Proof.
  revert fuel' hash w. induction fuel as [|fuel IH]; intros fuel' hash w Hw Hle; [done|].
  destruct fuel' as [|fuel']; [lia|]. simpl in *. destruct (ns !! hash) as [n|]; [|done].
  destruct (n_parent_hash n) as [p|]; [|done].
  destruct (chain_sum fuel ns p) as [w'|] eqn:E; [|done]. rewrite (IH fuel' p w'); [done|done|lia].
Qed.

Lemma chain_sum_det ns f1 f2 hash w1 w2 :
  chain_sum f1 ns hash = Some w1 -> chain_sum f2 ns hash = Some w2 -> w1 = w2.
Proof.
  intros H1 H2. apply (chain_sum_mono _ _ (Nat.max f1 f2)) in H1; [|lia].
  apply (chain_sum_mono _ _ (Nat.max f1 f2)) in H2; [|lia]. congruence.
Qed.

(** The weight of a chain, whatever the depth. *)
Definition chain_is (ns : gmap bytes TowerNode) (hash : bytes) (w : Z) : Prop :=
  exists fuel, chain_sum fuel ns hash = Some w.

Definition memo_ok (ns : gmap bytes TowerNode) (memo : gmap bytes Z) : Prop :=
  forall h w, memo !! h = Some w -> chain_is ns h w.

(** Memoization computes the reference. *)
Lemma chain_weight_memo fuel ns hash memo w memo' :
  memo_ok ns memo -> chain_weight fuel ns hash memo = Some (w, memo') ->
  chain_is ns hash w /\ memo_ok ns memo'.
Proof.
  revert hash memo w memo'. induction fuel as [|fuel IH]; intros hash memo w memo' Hm; [done|]. simpl.
  destruct (memo !! hash) as [w0|] eqn:E; [intros [= <- <-]; auto|].
  destruct (ns !! hash) as [n|] eqn:En.
  2: { intros [= <- <-]. split; [|done]. exists 1%nat. simpl. by rewrite En. }
  assert (Hins : forall total m, memo_ok ns m -> chain_is ns hash total -> memo_ok ns (<[hash:=total]> m)).
  { intros total m Hm' Ht h w0. rewrite lookup_insert. case_decide; [intros [= <-]; by subst|apply Hm']. }
  destruct (n_parent_hash n) as [p|] eqn:Ep.
  - destruct (chain_weight fuel ns p memo) as [[wp m1]|] eqn:Ec; [|done].
    apply IH in Ec as [[f Hf] Hm1]; [|done]. intros [= <- <-].
    assert (Hc : chain_is ns hash (saturating_add (n_weight n) wp)).
    { exists (S f). simpl. by rewrite En, Ep, Hf. }
    auto.
  - intros [= <- <-]. assert (Hc : chain_is ns hash (n_weight n)) by (exists 1%nat; simpl; by rewrite En, Ep).
    auto.
Qed.

(** [a] is at least as good a head as [b]: heavier, or as heavy and later. *)
Definition better_or_equal (a b : Z * Z) : Prop := b.1 < a.1 \/ (b.1 = a.1 /\ b.2 <= a.2).

Lemma better_trans a b c : better_or_equal a b -> better_or_equal b c -> better_or_equal a c.
Proof. unfold better_or_equal. lia. Qed.
Lemma better_refl a : better_or_equal a a.
Proof. unfold better_or_equal. lia. Qed.

Lemma pick_best_spec best leaf w s :
  exists h w1 s1, pick_best best leaf w s = Some (h, w1, s1) /\
    better_or_equal (w1, s1) (w, s) /\
    (forall h0 w0 s0, best = Some (h0, w0, s0) -> better_or_equal (w1, s1) (w0, s0)) /\
    ((h, w1, s1) = (leaf, w, s) \/ best = Some (h, w1, s1)).
Proof.
  unfold pick_best. destruct best as [[[h0 w0] s0]|].
  2: { exists leaf, w, s. split_and!; auto using better_refl. done. }
  destruct ((w0 <? w) || ((w =? w0) && (s0 <? s))) eqn:E.
  - exists leaf, w, s. split_and!; auto using better_refl. intros ??? [= <- <- <-].
    unfold better_or_equal. simpl. rewrite orb_true_iff, andb_true_iff, !Z.ltb_lt, Z.eqb_eq in E. lia.
  - exists h0, w0, s0. split_and!; auto.
    + unfold better_or_equal. simpl.
      rewrite orb_false_iff, andb_false_iff, !Z.ltb_ge, Z.eqb_neq in E. lia.
    + intros ??? [= <- <- <-]. apply better_refl.
Qed.

(** What is known of a candidate head. *)
Definition candidate (ns : gmap bytes TowerNode) (b : bytes * Z * Z) : Prop :=
  chain_is ns b.1.1 b.1.2 /\ b.2 = from_option n_slot 0 (ns !! b.1.1).

Lemma best_leaf_spec fuel ns leaves memo best res :
  memo_ok ns memo -> (forall b, best = Some b -> candidate ns b) ->
  best_leaf fuel ns memo best leaves = Some res ->
  match res with
  | None => best = None /\ leaves = []
  | Some (h, w, s) =>
      (h ∈ leaves \/ best = Some (h, w, s)) /\ candidate ns (h, w, s) /\
      (forall l wl, l ∈ leaves -> chain_is ns l wl ->
         better_or_equal (w, s) (wl, from_option n_slot 0 (ns !! l))) /\
      (forall h0 w0 s0, best = Some (h0, w0, s0) -> better_or_equal (w, s) (w0, s0))
  end.
Proof.
  revert memo best. induction leaves as [|leaf leaves IH]; intros memo best Hm Hb.
  { intros [= <-]. destruct best as [[[h w] s]|]; [|done].
    split_and!; [by right|by apply Hb|set_solver|]. intros ??? [= <- <- <-]. apply better_refl. }
  simpl. destruct (chain_weight fuel ns leaf memo) as [[w m1]|] eqn:Ec; [|done].
  apply chain_weight_memo in Ec as [Hc Hm1]; [|done]. simpl.
  destruct (pick_best_spec best leaf w (from_option n_slot 0 (ns !! leaf)))
    as (h1 & w1 & s1 & -> & Hbl & Hbo & Hsrc).
  intros Hres. apply IH in Hres; [|done|].
  2: { intros b [= <-]. destruct Hsrc as [[= -> -> ->]|Hsrc]; [by split|by apply Hb]. }
  destruct res as [[[h wr] sr]|]; [|naive_solver].
  destruct Hres as (Hin & Hcand & Hall & Hold). specialize (Hold _ _ _ eq_refl).
  split_and!; [|done| |].
  - destruct Hin as [?|[= -> -> ->]]; [left; by right|].
    destruct Hsrc as [[= -> -> ->]|Hsrc]; [left; by left|by right].
  - intros l wl [->|Hl]%elem_of_cons Hwl; [|by apply Hall].
    assert (wl = w) as -> by (destruct Hwl as [f1 ?], Hc as [f2 ?]; by eapply chain_sum_det).
    by eapply better_trans.
  - intros h0 w0 s0 Hb0. eapply better_trans; [done|]. by eapply Hbo.
Qed.

(** ** Termination *)

(** Parents belong to earlier slots. *)
Definition parents_below (ns : gmap bytes TowerNode) : Prop :=
  forall h n p, ns !! h = Some n -> n_parent_hash n = Some p -> slot_of p < slot_of h.

Lemma chain_weight_ends ns fuel hash memo :
  parents_below ns ->
  (size (filter (fun '(h, _) => (slot_of h <= slot_of hash)%Z) ns) < fuel)%nat ->
  is_Some (chain_weight fuel ns hash memo).
Proof.
  intros Hp. revert hash memo. induction fuel as [|fuel IH]; intros hash memo Hsz; [lia|]. simpl.
  destruct (memo !! hash); [by eexists|]. destruct (ns !! hash) as [n|] eqn:En; [|by eexists].
  destruct (n_parent_hash n) as [p|] eqn:Ep; [|by eexists].
  pose proof (Hp _ _ _ En Ep) as Hlt. destruct (IH p memo) as [[w m] ->]; [|by eexists].
  eapply Nat.lt_le_trans; [|apply Nat.lt_succ_r, Hsz].
  apply map_subset_size. apply map_subset_alt. split.
  - apply map_filter_subseteq_ext. intros h x _ Hle. lia.
  - exists hash. rewrite map_lookup_filter_None, map_lookup_filter, En. simpl.
    split; [right; intros ? [= <-]; lia|]. case_guard; [by eexists|lia].
Qed.

Lemma best_leaf_ends ns leaves memo best :
  parents_below ns -> is_Some (best_leaf (S (size ns)) ns memo best leaves).
Proof.
  intros Hp. revert memo best. induction leaves as [|leaf leaves IH]; intros memo best; [by eexists|].
  cbn [best_leaf]. destruct (chain_weight_ends ns (S (size ns)) leaf memo) as [[w m] ->]; [done| |apply IH].
  apply Nat.lt_succ_r, map_subseteq_size, map_filter_subseteq.
Qed.

(** A tower whose links and slot index respect the blocks' slots. *)
Record links_ok (t : Tower) : Prop := {
  lok_parents : parents_below (nodes t);
  lok_slots s h : slot_to_hash t !! s = Some h -> slot_of h = s
}.

(** A vote for a block at its slot, on a parent at an earlier slot. *)
Definition vote_wf (v : Vote) : Prop :=
  v_slot v = slot_of (v_block_hash v) /\ forall ps, v_parent_slot v = Some ps -> ps < v_slot v.

Lemma count_vote_links t v : links_ok t -> vote_wf v -> parents_below (count_vote t v).
Proof.
  intros [Hp Hs] [Hslot Hps] h n p. unfold count_vote.
  set (n0 := default _ _). set (n1 := if bool_decide _ then n0 else _).
  assert (Hn1 : n_parent_hash n1 = n_parent_hash n0) by (unfold n1; by case_bool_decide).
  rewrite lookup_insert. case_decide; [|apply Hp]. intros [= <-]. subst h. rewrite Hn1. unfold n0.
  destruct (nodes t !! v_block_hash v) as [n|] eqn:En; simpl; [by apply Hp|].
  destruct (v_parent_slot v) as [ps|]; simpl; [|done]. intros Hph%Hs. specialize (Hps ps eq_refl). lia.
Qed.

Lemma process_vote_links t v t' b :
  links_ok t -> vote_wf v -> process_vote order t v = Some (t', b) -> links_ok t'.
Proof.
  intros Hl Hv Hp. destruct b.
  - apply process_vote_accepted in Hp as (_ & _ & _ & Hn & _ & _ & H2 & _). constructor.
    + rewrite Hn. intros h n p Hh Hph. apply link_child_same in Hh as (n0 & H0 & _ & _ & _ & Hpar).
      rewrite Hpar in Hph. by eapply (count_vote_links t v).
    + intros s h. rewrite H2, lookup_insert. case_decide; [intros [= <-]; subst; symmetry; apply Hv|apply Hl].
  - destruct Hl. apply process_vote_refused in Hp as [-> | ->]; by constructor.
Qed.

Inductive honest_step (t : Tower) : Tower -> Prop :=
  | honest_vote v t' b : vote_wf v -> process_vote order t v = Some (t', b) -> honest_step t t'
  | honest_root new_root : honest_step t (advance_root t new_root)
  | honest_register validator stake : honest_step t (register_validator t validator stake).

Lemma honest_step_links t t' : links_ok t -> honest_step t t' -> links_ok t'.
Proof.
  intros Hl [v t1 b Hv Hp|r|x s]; [by eapply process_vote_links| |by destruct Hl].
  destruct Hl as [Hp Hs]. constructor; simpl.
  - intros h n p [Hn _]%map_lookup_filter_Some. by apply Hp.
  - intros s h [Hh _]%map_lookup_filter_Some. by apply Hs.
Qed.

Lemma links_reachable g t : rtc honest_step (tower_new g) t -> links_ok t.
Proof.
  intros Hs. assert (H0 : links_ok (tower_new g)) by (constructor; done). revert H0.
  induction Hs; eauto using honest_step_links.
Qed.

(** C25. Fork choice follows the heaviest chain and always answers: on a tower
    built from votes that name blocks at their slots and parents at earlier
    slots, processing another such vote returns, and after an accepted vote
    the best head is a fork tip whose chain (its stake plus its ancestors',
    computed without the memo table) no other tip's chain outweighs, ties
    going to the higher slot. *)
Theorem vote_processing_picks_heaviest g t v :
  rtc honest_step (tower_new g) t -> vote_wf v ->
  exists t' b, process_vote order t v = Some (t', b) /\
    (b = true -> forall l, l ∈ leaves_of order (nodes t') (root_slot t') ->
       exists h w, best_head t' = Some h /\ h ∈ leaves_of order (nodes t') (root_slot t') /\
         chain_is (nodes t') h w /\
         forall wl, chain_is (nodes t') l wl ->
           better_or_equal (w, from_option n_slot 0 (nodes t' !! h))
                           (wl, from_option n_slot 0 (nodes t' !! l))).
Proof.
  intros Hl%links_reachable Hv. unfold process_vote.
  destruct (vote_verify_signature v); cbn [negb]; [|by eexists _, _]. set (st := examined_state t v).
  destruct (_ <=? _); [by eexists _, _|]. destruct (_ && _); [by eexists _, _|].
  set (t1 := mkTower (link_child _ _ _) _ _ _ _ _ _ _).
  assert (Hp : parents_below (nodes t1)).
  { intros h n p Hh Hph. apply link_child_same in Hh as (n0 & H0 & _ & _ & _ & Hpar).
    rewrite Hpar in Hph. by eapply (count_vote_links t v). }
  unfold update_best_head.
  destruct (best_leaf_ends (nodes t1) (leaves_of order (nodes t1) (root_slot t1)) ∅ None Hp) as [best Hbest].
  rewrite Hbest. eexists _, _. split; [reflexivity|]. intros _ l Hin. simpl in Hin |- *.
  apply best_leaf_spec in Hbest; [|by intros ??|done].
  destruct best as [[[h w] s]|]; [|destruct Hbest as [_ E]; simpl in E; rewrite E in Hin; set_solver].
  destruct Hbest as (Hh & [Hc Hs] & Hall & _). destruct Hh as [Hh|]; [|done]. simpl in Hs.
  exists h, w. split_and!; try done. intros wl Hwl. rewrite <- Hs. by apply Hall.
Qed.
End TowerInv.

(** ** A vote history that never returns *)

Module Cycle.
Import Toy.

Definition block (i : Z) : bytes := fill32 i.
Definition vote (b slot parent : Z) : Vote :=
  vote_sign (vote_new [] slot (block b) (Some parent) 0) (5 : @SigningKey toy_ed25519).

Definition step (t : option Tower) (v : Vote) : option Tower :=
  t ← t; fst <$> process_vote map_to_list t v.

(** One validator votes for block 1 at slots 3 and 9; the root advances past
    slot 3, which drops the block's node but keeps slot 9 pointing at it; a
    third vote for the block, on parent slot 9, makes it its own parent. *)
Definition looped : option Tower :=
  step (flip advance_root 5 <$> step (step (Some (tower_new 0)) (vote 1 3 0)) (vote 1 9 3)) (vote 1 10 9).

Lemma looped_parent :
  (t ← looped; n ← nodes t !! block 1; n_parent_hash n) = Some (block 1).
Proof. vm_compute. reflexivity. Qed.

(** Following parents from it never ends, *)
Lemma self_parent_diverges fuel ns h n memo :
  ns !! h = Some n -> n_parent_hash n = Some h -> memo !! h = None ->
  chain_weight fuel ns h memo = None.
Proof.
  intros Hn Hp Hm. induction fuel as [|fuel IH]; [done|]. simpl. by rewrite Hm, Hn, Hp, IH.
Qed.

(** so the next vote that builds on it hangs the tower. *)
Lemma next_vote_diverges : step looped (vote 2 11 10) = None.
Proof. vm_compute. reflexivity. Qed.

(** A vote that is refused as stale has already reset its validator's
    lockout, when it claims to build on the root. *)
Lemma refused_vote_resets_lockout :
  (t ← step (Some (tower_new 0)) (vote 1 3 0);
   '(t', b) ← process_vote map_to_list t (vote 1 2 0);
   Some (b, consecutive_votes <$> validator_states t !! toy_pk 5,
            consecutive_votes <$> validator_states t' !! toy_pk 5)) =
  Some (false, Some 1, Some 0).
Proof. vm_compute. reflexivity. Qed.

(** Weights are counted once, with the stake of that moment: three validators
    with 10 each vote, two of them for different blocks of one slot; when all
    are registered again with 1, both blocks exceed two thirds. *)
Definition signed_vote (key b slot parent : Z) : Vote :=
  vote_sign (vote_new [] slot (block b) (Some parent) 0) (key : @SigningKey toy_ed25519).
Definition register_all (t : Tower) (stake : Z) : Tower :=
  foldl (fun t k => register_validator t (toy_pk k) stake) t [5; 6; 7].
Definition lowered : option Tower :=
  flip register_all 1 <$> step (step (Some (register_all (tower_new 0) 10)) (signed_vote 5 1 3 0)) (signed_vote 6 2 3 0).

Lemma lowered_stakes_confirm_two :
  (t ← lowered; n1 ← nodes t !! block 1; n2 ← nodes t !! block 2;
   Some (n_slot n1, n_slot n2, supermajority (total_stake t) n1, supermajority (total_stake t) n2)) =
  Some (3, 3, true, true).
Proof. vm_compute. reflexivity. Qed.
End Cycle.
