(* ===== verification/ForkChoice.v ===== *)
(** * Fork choice

    src/crates/consensus/src/fork_choice.rs: the block tree with its per-slot
    index, the best head kept on insertion, the walk from a block to the root.
    The walk follows parents without a guard against cycles: it carries the
    number of known blocks as fuel and returns [None] when that runs out. *)

From S2P Require Import Prelude.
From stdpp Require Import list.
Open Scope Z_scope.

(** [struct ForkBlock] *)
Record ForkBlock := mkForkBlock {
  fb_hash : bytes;
  fb_slot : Z;
  fb_parent_hash : option bytes;
  fb_timestamp : Z;
  fb_height : Z;
  fb_voting_power : Z
}.

#[export] Instance ForkBlock_eq_dec : EqDecision ForkBlock.
Proof. solve_decision. Defined.

(** [struct ForkChoice] *)
Record ForkChoice := mkForkChoice {
  fc_blocks : gmap bytes ForkBlock;
  fc_root : option ForkBlock;
  fc_best_head : option ForkBlock;
  fc_slot_blocks : gmap Z (list bytes)
}.

(** [slot_blocks.entry(slot).or_default().push(hash)] *)
Definition push_slot (m : gmap Z (list bytes)) (slot : Z) (hash : bytes) : gmap Z (list bytes) :=
  <[slot := default [] (m !! slot) ++ [hash]]> m.

(** [ForkChoice::new] *)
Definition fork_choice_new (genesis : ForkBlock) : ForkChoice :=
  mkForkChoice {[ fb_hash genesis := genesis ]} (Some genesis) (Some genesis)
    (push_slot ∅ (fb_slot genesis) (fb_hash genesis)).

(** The comparison of [add_block]. *)
Definition outweighs (block current_best : ForkBlock) : bool :=
  (fb_voting_power current_best <? fb_voting_power block) ||
  ((fb_voting_power block =? fb_voting_power current_best) &&
   (fb_timestamp current_best <? fb_timestamp block)).

(** [ForkChoice::add_block] *)
Definition add_block (fc : ForkChoice) (block : ForkBlock) : ForkChoice :=
  mkForkChoice (<[fb_hash block := block]> (fc_blocks fc)) (fc_root fc)
    (match fc_best_head fc with
     | Some current_best => if outweighs block current_best then Some block else Some current_best
     | None => None
     end)
    (push_slot (fc_slot_blocks fc) (fb_slot block) (fb_hash block)).

(** [ForkChoice::blocks_at_slot] *)
Definition blocks_at_slot (fc : ForkChoice) (slot : Z) : list ForkBlock :=
  match fc_slot_blocks fc !! slot with
  | Some hashes => omap (fun h => fc_blocks fc !! h) hashes
  | None => []
  end.

(** [Iterator::max_by_key]: the last of the maximal elements. *)
Definition max_by_key {A} (key : A -> Z) (l : list A) : option A :=
  foldl (fun best x => match best with
                       | Some b => if key x <? key b then Some b else Some x
                       | None => Some x
                       end) None l.

(** [ForkChoice::heaviest_at_slot] *)
Definition heaviest_at_slot (fc : ForkChoice) (slot : Z) : option ForkBlock :=
  max_by_key fb_voting_power (blocks_at_slot fc slot).

(** The loop of [chain_from]; [None]: out of fuel. *)
Fixpoint walk (fuel : nat) (blocks : gmap bytes ForkBlock) (current : option bytes) : option (list ForkBlock) :=
  match current with
  | None => Some []
  | Some hash =>
      match blocks !! hash with
      | None => Some []
      | Some block =>
          match fuel with
          | O => None
          | S fuel => cons block <$> walk fuel blocks (fb_parent_hash block)
          end
      end
  end.

(** [ForkChoice::chain_from] *)
Definition chain_from (fc : ForkChoice) (block_hash : bytes) : option (list ForkBlock) :=
  reverse <$> walk (size (fc_blocks fc)) (fc_blocks fc) (Some block_hash).

(** [.sum()] of [u64] values, which wraps in the release profile. *)
Definition power_sum (chain : list ForkBlock) : Z :=
  foldl (fun acc b => wrap64 (acc + fb_voting_power b)) 0 chain.

(** [ForkChoice::fork_weight] *)
Definition fork_weight (fc : ForkChoice) (tip_hash : bytes) : option Z :=
  power_sum <$> chain_from fc tip_hash.

(** [ForkChoice::prune] *)
Definition prune (fc : ForkChoice) (before_slot : Z) : ForkChoice :=
  mkForkChoice (filter (fun kv => before_slot <= fb_slot kv.2) (fc_blocks fc)) (fc_root fc)
    (fc_best_head fc) (fc_slot_blocks fc).

(** [struct ForkChoiceStats], [ForkChoice::stats] *)
Record ForkChoiceStats := mkForkStats { fs_total_blocks : nat; fs_total_slots : nat }.
Definition fork_stats (fc : ForkChoice) : ForkChoiceStats :=
  mkForkStats (size (fc_blocks fc)) (size (fc_slot_blocks fc)).

(** ** Histories *)

Inductive fork_op := AddBlock (b : ForkBlock) | Prune (before_slot : Z).

Definition fork_step (fc : ForkChoice) (o : fork_op) : ForkChoice :=
  match o with AddBlock b => add_block fc b | Prune s => prune fc s end.

(** The state after a history. *)
Definition fork_run (genesis : ForkBlock) (ops : list fork_op) : ForkChoice :=
  foldl fork_step (fork_choice_new genesis) ops.

(** Every block given to the structure, oldest first. *)
Definition given (genesis : ForkBlock) (ops : list fork_op) : list ForkBlock :=
  genesis :: omap (fun o => match o with AddBlock b => Some b | Prune _ => None end) ops.

Lemma given_snoc g ops o :
  given g (ops ++ [o]) = given g ops ++ match o with AddBlock b => [b] | Prune _ => [] end.
Proof. unfold given. rewrite omap_app. by destruct o. Qed.

Lemma fork_run_snoc g ops o : fork_run g (ops ++ [o]) = fork_step (fork_run g ops) o.
Proof. unfold fork_run. by rewrite foldl_app. Qed.

(** Block hashes identify blocks. *)
Definition hashes_identify (bs : list ForkBlock) : Prop :=
  forall a b, a ∈ bs -> b ∈ bs -> fb_hash a = fb_hash b -> a = b.

(** A parent belongs to an earlier slot. *)
Definition parents_precede (bs : list ForkBlock) : Prop :=
  forall a b, a ∈ bs -> b ∈ bs -> fb_parent_hash b = Some (fb_hash a) -> fb_slot a < fb_slot b.

(** ** The best head *)

(** More voting power, or as much and a later timestamp. *)
Definition heavier (a b : ForkBlock) : Prop :=
  fb_voting_power b < fb_voting_power a \/
  (fb_voting_power b = fb_voting_power a /\ fb_timestamp b < fb_timestamp a).

(** [b] is heavier than all blocks before it, and none after it is heavier. *)
Definition first_heaviest (b : ForkBlock) (bs : list ForkBlock) : Prop :=
  exists before after, bs = before ++ b :: after /\
    Forall (fun x => heavier b x) before /\ Forall (fun x => ~ heavier x b) after.

Lemma outweighs_spec a b : outweighs a b = true <-> heavier a b.
Proof. unfold outweighs, heavier. rewrite orb_true_iff, andb_true_iff, !Z.ltb_lt, Z.eqb_eq. naive_solver lia. Qed.

Lemma first_heaviest_snoc b bs x : first_heaviest b bs ->
  first_heaviest (if outweighs x b then x else b) (bs ++ [x]).
Proof.
  intros (before & after & -> & Hb & Ha). destruct (outweighs x b) eqn:E.
  - apply outweighs_spec in E. exists (before ++ b :: after), []. split; [done|]. split; [|constructor].
    apply Forall_app. split; [|constructor; [done|]].
    + eapply Forall_impl; [exact Hb|]. intros y Hy. unfold heavier in *. lia.
    + eapply Forall_impl; [exact Ha|]. intros y Hy. cbn beta in Hy. unfold heavier in *. lia.
  - apply not_true_iff_false in E. rewrite outweighs_spec in E.
    exists before, (after ++ [x]). split; [by rewrite <- app_assoc|]. split; [done|].
    apply Forall_app. by repeat constructor.
Qed.

(** C40. Fork choice picks the heaviest block: after every history of insertions
    and prunings the best head is the first of the blocks given so far with
    the greatest voting power, and among those the latest timestamp. *)
Theorem fork_choice_best_head g ops : exists b,
  fc_best_head (fork_run g ops) = Some b /\ first_heaviest b (given g ops).
Proof.
  induction ops as [|o ops (b & Hb & Hf)] using rev_ind.
  - exists g. split; [done|]. exists [], []. by repeat constructor.
  - rewrite fork_run_snoc, given_snoc. destruct o as [x|s]; cbn [fork_step].
    + exists (if outweighs x b then x else b). split; [|by apply first_heaviest_snoc].
      unfold add_block. cbn [fc_best_head]. rewrite Hb. by destruct (outweighs x b).
    + exists b. split; [exact Hb|]. by rewrite app_nil_r.
Qed.

(** ** The tree and its slot index *)

(** Blocks are filed under their hash, listed under their slot, and were given. *)
Record fork_inv (bs : list ForkBlock) (fc : ForkChoice) : Prop := {
  inv_given : forall h b, fc_blocks fc !! h = Some b -> b ∈ bs /\ fb_hash b = h;
  inv_listed : forall h b, fc_blocks fc !! h = Some b -> h ∈ default [] (fc_slot_blocks fc !! fb_slot b);
  inv_slot : forall s h, h ∈ default [] (fc_slot_blocks fc !! s) ->
    exists b, b ∈ bs /\ fb_hash b = h /\ fb_slot b = s
}.

Lemma push_slot_elem m s h s' h' :
  h' ∈ default [] (push_slot m s h !! s') <-> h' ∈ default [] (m !! s') \/ (s' = s /\ h' = h).
Proof.
  unfold push_slot. destruct (decide (s = s')) as [<-|Hne].
  - rewrite lookup_insert_eq. simpl. rewrite elem_of_app, list_elem_of_singleton. naive_solver.
  - rewrite lookup_insert_ne by done. naive_solver.
Qed.

Lemma fork_run_inv g ops : fork_inv (given g ops) (fork_run g ops).
Proof.
  induction ops as [|o ops IH] using rev_ind.
  - split; cbn [fork_run foldl fork_choice_new fc_blocks fc_slot_blocks].
    + intros h b [<- <-]%lookup_singleton_Some. split; [apply list_elem_of_here|done].
    + intros h b [<- <-]%lookup_singleton_Some. apply push_slot_elem. by right.
    + intros s h [H|[-> ->]]%push_slot_elem; [by apply not_elem_of_nil in H|].
      exists g. split; [apply list_elem_of_here|done].
  - rewrite fork_run_snoc, given_snoc. destruct IH as [H1 H2 H3].
    destruct o as [x|s0]; cbn [fork_step]; split; cbn [add_block prune fc_blocks fc_slot_blocks].
    + intros h b [[<- <-]|[_ Hb]]%lookup_insert_Some; [set_solver|]. apply H1 in Hb. set_solver.
    + intros h b [[<- <-]|[_ Hb]]%lookup_insert_Some; apply push_slot_elem; auto.
    + intros s h [H|[-> ->]]%push_slot_elem; [|exists x; set_solver].
      destruct (H3 s h H) as (b & ? & ? & ?). exists b. set_solver.
    + intros h b [Hb _]%map_lookup_filter_Some. rewrite app_nil_r. by apply H1.
    + intros h b [Hb _]%map_lookup_filter_Some. by apply H2.
    + rewrite app_nil_r. exact H3.
Qed.

Lemma max_by_key_spec {A} (key : A -> Z) l :
  match max_by_key key l with
  | Some b => b ∈ l /\ forall x, x ∈ l -> key x <= key b
  | None => l = []
  end.
Proof.
  unfold max_by_key. induction l as [|x l IH] using rev_ind; [done|].
  rewrite foldl_app. cbn [foldl]. destruct (foldl _ None l) as [b|].
  - destruct IH as [Hb Hmax]. destruct (Z.ltb_spec (key x) (key b)).
    + split; [set_solver|]. intros y [Hy| ->%list_elem_of_singleton]%elem_of_app; [auto|lia].
    + split; [set_solver|]. intros y [Hy%Hmax| ->%list_elem_of_singleton]%elem_of_app; lia.
  - subst l. split; [set_solver|]. intros y Hy. apply list_elem_of_singleton in Hy as ->. lia.
Qed.

(** When hashes identify blocks, [blocks_at_slot] lists exactly the known
    blocks of the slot and [heaviest_at_slot] is one of them with the greatest
    voting power, or nothing when the slot has no block. *)
Theorem fork_choice_slots g ops slot : hashes_identify (given g ops) ->
  let fc := fork_run g ops in
  (forall b, b ∈ blocks_at_slot fc slot <-> fc_blocks fc !! fb_hash b = Some b /\ fb_slot b = slot) /\
  match heaviest_at_slot fc slot with
  | Some b => fc_blocks fc !! fb_hash b = Some b /\ fb_slot b = slot /\
      (forall h x, fc_blocks fc !! h = Some x -> fb_slot x = slot -> fb_voting_power x <= fb_voting_power b)
  | None => forall h x, fc_blocks fc !! h = Some x -> fb_slot x <> slot
  end.
Proof.
  intros Hid fc. destruct (fork_run_inv g ops) as [H1 H2 H3]. fold fc in H1, H2, H3.
  assert (Hat : forall b, b ∈ blocks_at_slot fc slot <-> fc_blocks fc !! fb_hash b = Some b /\ fb_slot b = slot).
  { intros b. transitivity (exists h, h ∈ default [] (fc_slot_blocks fc !! slot) /\ fc_blocks fc !! h = Some b).
    { unfold blocks_at_slot. destruct (fc_slot_blocks fc !! slot); simpl; [apply list_elem_of_omap|].
      split; [by intros ?%not_elem_of_nil|]. by intros (h & ?%not_elem_of_nil & _). }
    split.
    - intros (h & Hh & Hb). destruct (H1 h b Hb) as [Hg <-]. split; [done|].
      destruct (H3 slot _ Hh) as (b' & Hg' & Hh' & <-). by rewrite (Hid b b').
    - intros [Hb <-]. exists (fb_hash b). split; [by apply H2|done]. }
  split; [exact Hat|]. unfold heaviest_at_slot.
  pose proof (max_by_key_spec fb_voting_power (blocks_at_slot fc slot)) as Hm.
  assert (Hin : forall h x, fc_blocks fc !! h = Some x -> fb_slot x = slot -> x ∈ blocks_at_slot fc slot).
  { intros h x Hx Hs. apply Hat. split; [|done]. by destruct (H1 h x Hx) as [_ ->]. }
  destruct (max_by_key _ _) as [b|].
  - destruct Hm as [Hb Hmax]. apply Hat in Hb as [??]. split_and!; eauto.
  - intros h x Hx Hs. specialize (Hin h x Hx Hs). rewrite Hm in Hin. by apply not_elem_of_nil in Hin.
Qed.

(** ** The walk to the root *)

(** [l] is the line of known ancestors, tip first, up to a block whose parent
    is unknown or missing. *)
Fixpoint ancestry (blocks : gmap bytes ForkBlock) (current : option bytes) (l : list ForkBlock) : Prop :=
  match l with
  | [] => match current with None => True | Some h => blocks !! h = None end
  | b :: l => exists h, current = Some h /\ blocks !! h = Some b /\ ancestry blocks (fb_parent_hash b) l
  end.

Lemma walk_ancestry fuel blocks current l :
  walk fuel blocks current = Some l -> ancestry blocks current l.
Proof.
  revert current l. induction fuel as [|fuel IH]; intros [h|] l Hw; cbn [walk] in Hw; simplify_eq; try done;
    destruct (blocks !! h) as [b|] eqn:E; simplify_eq; try done.
  apply fmap_Some in Hw as (l' & Hl' & ->). exists h. auto.
Qed.

Lemma walk_returns (fuel : nat) (blocks : gmap bytes ForkBlock) (current : option bytes) (bound : Z) :
  (forall h b p pb, blocks !! h = Some b -> fb_parent_hash b = Some p -> blocks !! p = Some pb ->
     fb_slot pb < fb_slot b) ->
  (forall h b, current = Some h -> blocks !! h = Some b -> fb_slot b < bound) ->
  (size (filter (fun kv => (fb_slot kv.2 < bound)%Z) blocks) <= fuel)%nat ->
  is_Some (walk fuel blocks current).
Proof.
  intros Hp. revert current bound. induction fuel as [|fuel IH]; intros [h|] bound Hb Hs; cbn [walk]; eauto;
    destruct (blocks !! h) as [b|] eqn:E; eauto; pose proof (Hb h b eq_refl E) as Hlt;
    assert (Hin : filter (fun kv => fb_slot kv.2 < bound) blocks !! h = Some b) by (by apply map_lookup_filter_Some).
  - apply Nat.le_0_r, map_size_empty_inv in Hs. rewrite Hs in Hin. by rewrite lookup_empty in Hin.
  - apply fmap_is_Some. apply (IH _ (fb_slot b)); [by intros p pb ??; eapply Hp|].
    apply Nat.lt_succ_r. eapply Nat.lt_le_trans; [|exact Hs]. apply map_subset_size. split.
    + apply map_subseteq_spec. intros k x [Hx ?]%map_lookup_filter_Some.
      apply map_lookup_filter_Some. simpl in *. split; [done|lia].
    + intros Hsub. eapply lookup_weaken in Hin; [|exact Hsub].
      apply map_lookup_filter_Some in Hin as [_ Hin]. simpl in Hin. lia.
Qed.

(** On block trees whose blocks come after their parents, the walk to the
    root always ends: it returns the line of known ancestors of the block,
    root side first, and the fork weight is the sum of their voting powers. *)
Theorem fork_chain g ops h : parents_precede (given g ops) ->
  let fc := fork_run g ops in
  exists chain, chain_from fc h = Some chain /\ ancestry (fc_blocks fc) (Some h) (reverse chain) /\
    fork_weight fc h = Some (power_sum chain).
Proof.
  intros Hp fc. destruct (fork_run_inv g ops) as [H1 _ _]. fold fc in H1.
  assert (Hw : is_Some (walk (size (fc_blocks fc)) (fc_blocks fc) (Some h))).
  { destruct (fc_blocks fc !! h) as [b|] eqn:E.
    - apply (walk_returns _ _ _ (fb_slot b + 1)).
      + intros k x p px Hx Hpx Hpx'. destruct (H1 _ _ Hx) as [? _], (H1 _ _ Hpx') as [? <-]. by apply Hp.
      + intros k x [= <-] Hx. replace x with b by congruence. lia.
      + apply map_subseteq_size, map_filter_subseteq.
    - destruct (size (fc_blocks fc)); cbn [walk]; rewrite E; eauto. }
  destruct Hw as [l Hl]. exists (reverse l). unfold fork_weight, chain_from. rewrite Hl.
  split_and!; [done| |done]. rewrite reverse_involutive. by eapply walk_ancestry.
Qed.

(** Without that, a block that is its own parent makes the walk endless. *)
Lemma self_parent_walk_diverges fuel blocks h b :
  blocks !! h = Some b -> fb_parent_hash b = Some h -> walk fuel blocks (Some h) = None.
Proof.
  intros Hb Hp. induction fuel as [|fuel IH]; cbn [walk]; rewrite Hb; [done|]. by rewrite Hp, IH.
Qed.
