(* ===== verification/Leader.v ===== *)
(** * Leader schedule

    src/crates/consensus/src/leader.rs: slots are shared out in proportion to
    stake, computed in [f64], the rest goes round robin.  The floating-point
    operations are IEEE 754 binary64 with round-to-nearest-even (the standard
    library's executable [SpecFloat]); [as u64] truncates and saturates. *)

From Stdlib Require Import Floats.SpecFloat.
From S2P Require Import Prelude.
From stdpp Require Import list.
Open Scope Z_scope.

(** ** binary64 *)

Definition f64_of_u64 (n : Z) : spec_float := binary_normalize 53 1024 n 0 false.
Definition f64_div : spec_float -> spec_float -> spec_float := SFdiv 53 1024.
Definition f64_mul : spec_float -> spec_float -> spec_float := SFmul 53 1024.

(** [x as u64] *)
Definition u64_of_f64 (x : spec_float) : Z :=
  match x with
  | S754_zero _ | S754_nan | S754_infinity true | S754_finite true _ _ => 0
  | S754_infinity false => U64_MAX
  | S754_finite false m e => Z.min (Z.shiftl (Zpos m) e) U64_MAX
  end.

(** ** The schedule *)

(** [struct ValidatorStake] *)
Record ValidatorStake := mkStake { vs_validator : bytes; vs_lamports : Z; vs_name : string }.

#[export] Instance ValidatorStake_eq_dec : EqDecision ValidatorStake.
Proof. solve_decision. Defined.

(** [struct LeaderSchedule] *)
Record LeaderSchedule := mkSchedule {
  ls_validators : list ValidatorStake;
  ls_slots_per_leader : Z;
  ls_epoch_length : Z;
  ls_current_epoch : Z;
  ls_schedule : list nat
}.

(** [iter().map(|v| v.lamports).sum()], wrapping in a release build *)
Definition stake_sum (vs : list ValidatorStake) : Z :=
  foldl (fun acc v => wrap64 (acc + vs_lamports v)) 0 vs.

(** [(lamports as f64 / total_stake as f64 * total_slots as f64) as u64] *)
Definition num_slots (lamports total_stake total_slots : Z) : Z :=
  let proportion := f64_div (f64_of_u64 lamports) (f64_of_u64 total_stake) in
  u64_of_f64 (f64_mul proportion (f64_of_u64 total_slots)).

(** The proportional part. *)
Definition proportional (vs : list ValidatorStake) (total_slots : Z) : list nat :=
  let total_stake := stake_sum vs in
  mjoin (imap (fun idx v => replicate (Z.to_nat (num_slots (vs_lamports v) total_stake total_slots)) idx) vs).

(** The round-robin part: [while schedule.len() < total_slots]. *)
Fixpoint fill_round_robin (n idx count : nat) : list nat :=
  match count with
  | O => []
  | S count => (idx mod n)%nat :: fill_round_robin n (S idx) count
  end.

(** [LeaderSchedule::compute_schedule] *)
Definition compute_schedule (s : LeaderSchedule) : LeaderSchedule :=
  let shares := proportional (ls_validators s) (ls_epoch_length s) in
  let missing := (Z.to_nat (ls_epoch_length s) - length shares)%nat in
  mkSchedule (ls_validators s) (ls_slots_per_leader s) (ls_epoch_length s) (ls_current_epoch s)
    (shares ++ fill_round_robin (length (ls_validators s)) 0 missing).

(** [LeaderSchedule::new]; [None] is the assertion failing on no validators. *)
Definition leader_new (validators : list ValidatorStake) (slots_per_leader epoch_length : Z)
    : option LeaderSchedule :=
  match validators with
  | [] => None
  | _ => Some (compute_schedule
           (mkSchedule (sort_by (fun a b => vs_lamports b <=? vs_lamports a) validators)
              slots_per_leader epoch_length 0 []))
  end.

(** [leader_index_for_slot]; [None] is the remainder by zero of an empty schedule. *)
Definition leader_index_for_slot (s : LeaderSchedule) (slot : Z) : option nat :=
  if (length (ls_schedule s) =? 0)%nat then None
  else ls_schedule s !! (Z.to_nat (slot mod Z.of_nat (length (ls_schedule s)))).

(** [leader_for_slot] *)
Definition leader_for_slot (s : LeaderSchedule) (slot : Z) : option ValidatorStake :=
  idx ← leader_index_for_slot s slot; ls_validators s !! idx.

(** [is_leader] *)
Definition is_leader (s : LeaderSchedule) (validator : bytes) (slot : Z) : bool :=
  match leader_for_slot s slot with
  | Some v => bool_decide (vs_validator v = validator)
  | None => false
  end.

(** [slots_for_leader] *)
Definition slots_for_leader (s : LeaderSchedule) (validator : bytes) : list Z :=
  omap (fun '(slot, idx) =>
          match ls_validators s !! idx with
          | Some v => if bool_decide (vs_validator v = validator) then Some (Z.of_nat slot) else None
          | None => None
          end) (imap pair (ls_schedule s)).

(** [next_leader] *)
Definition next_leader (s : LeaderSchedule) (after_slot : Z) : option ValidatorStake :=
  leader_for_slot s (wrap64 (after_slot + 1)).

(** [advance_epoch] *)
Definition advance_epoch (s : LeaderSchedule) : LeaderSchedule :=
  compute_schedule (mkSchedule (ls_validators s) (ls_slots_per_leader s) (ls_epoch_length s)
    (wrap64 (ls_current_epoch s + 1)) (ls_schedule s)).

(** [current_epoch], [total_validators], [epoch_length] are the record's fields;
    [debug_schedule] *)
Definition debug_schedule (s : LeaderSchedule) : list (Z * string) :=
  omap (fun '(slot, idx) => v ← ls_validators s !! idx; Some (Z.of_nat slot, vs_name v))
       (imap pair (ls_schedule s)).

(** ** Properties *)

Lemma length_fill n idx count : length (fill_round_robin n idx count) = count.
Proof. revert idx. induction count; intros idx; simpl; congruence. Qed.

Lemma fill_lt n idx count : (0 < n)%nat -> Forall (fun i => (i < n)%nat) (fill_round_robin n idx count).
Proof.
  intros Hn. revert idx. induction count as [|count IH]; intros idx; simpl; constructor; [|apply IH].
  apply Nat.mod_upper_bound. lia.
Qed.

Lemma proportional_lt vs slots : Forall (fun i => (i < length vs)%nat) (proportional vs slots).
Proof.
  unfold proportional. apply Forall_join. apply Forall_lookup. intros i l Hl.
  apply list_lookup_imap_Some in Hl as (v & Hv & ->).
  apply Forall_replicate. by eapply lookup_lt_Some.
Qed.

(** The indices of the schedule, and its length. *)
Definition schedule_ok (s : LeaderSchedule) : Prop :=
  Forall (fun i => (i < length (ls_validators s))%nat) (ls_schedule s) /\
  (Z.to_nat (ls_epoch_length s) <= length (ls_schedule s))%nat.

Lemma compute_schedule_ok s : ls_validators s <> [] -> schedule_ok (compute_schedule s).
Proof.
  intros Hne. unfold schedule_ok, compute_schedule. cbn [ls_schedule ls_validators ls_epoch_length].
  split; [|rewrite length_app, length_fill; lia].
  apply Forall_app. split; [apply proportional_lt|]. apply fill_lt.
  destruct (ls_validators s); [done|simpl; lia].
Qed.

Lemma leader_new_ok vs k e s : leader_new vs k e = Some s ->
  schedule_ok s /\ ls_validators s ≡ₚ vs /\ ls_validators s <> [] /\ ls_epoch_length s = e.
Proof.
  unfold leader_new. destruct vs as [|v vs]; [done|]. intros [= <-].
  assert (Hp : sort_by (fun a b => vs_lamports b <=? vs_lamports a) (v :: vs) ≡ₚ v :: vs)
    by apply sort_by_perm.
  assert (Hne : sort_by (fun a b => vs_lamports b <=? vs_lamports a) (v :: vs) <> []).
  { intros E. rewrite E in Hp. by apply Permutation_nil_cons in Hp. }
  split; [by apply compute_schedule_ok|]. done.
Qed.

Lemma leader_index_total s slot : schedule_ok s -> 0 < ls_epoch_length s -> 0 <= slot ->
  exists i, leader_index_for_slot s slot = Some i /\ (i < length (ls_validators s))%nat.
Proof.
  intros [Hi Hl] He Hs. unfold leader_index_for_slot.
  destruct (Nat.eqb_spec (length (ls_schedule s)) 0); [lia|].
  pose proof (Z.mod_pos_bound slot (Z.of_nat (length (ls_schedule s)))).
  destruct (lookup_lt_is_Some_2 (ls_schedule s) (Z.to_nat (slot mod Z.of_nat (length (ls_schedule s)))))
    as [i Hlk]; [lia|].
  exists i. split; [done|]. rewrite Forall_lookup in Hi. by eapply Hi.
Qed.

(** C39. The leader schedule always answers, with exactly one leader, taken from
    the configured validators: for any validators and any positive epoch length,
    every slot of every epoch has one leader, it is a validator of the set, the
    schedule repeats with its length, and [slots_for_leader] lists exactly the
    slots of one period that [is_leader] grants. *)
Theorem leader_schedule_total vs slots_per_leader epoch_length s :
  leader_new vs slots_per_leader epoch_length = Some s -> 0 < epoch_length ->
  (epoch_length <= Z.of_nat (length (ls_schedule s))) /\
  (forall slot, 0 <= slot -> exists v, leader_for_slot s slot = Some v /\ v ∈ vs /\
     is_leader s (vs_validator v) slot = true /\
     (forall w, is_leader s w slot = true -> w = vs_validator v) /\
     leader_for_slot s (slot + Z.of_nat (length (ls_schedule s))) = Some v) /\
  (forall w slot, slot ∈ slots_for_leader s w <->
     0 <= slot < Z.of_nat (length (ls_schedule s)) /\ is_leader s w slot = true).
Proof.
  intros Hnew He. apply leader_new_ok in Hnew as (Hok & Hperm & _ & Hep). subst epoch_length.
  pose proof Hok as [Hidx Hlen]. split; [lia|].
  assert (Htot : forall slot, 0 <= slot -> exists v, leader_for_slot s slot = Some v /\ v ∈ vs).
  { intros slot Hs. destruct (leader_index_total s slot Hok He Hs) as (i & Hi & Hlt).
    unfold leader_for_slot. rewrite Hi. cbn [mbind option_bind].
    destruct (lookup_lt_is_Some_2 (ls_validators s) i Hlt) as [v Hv]. exists v. split; [done|].
    rewrite <- Hperm. by eapply list_elem_of_lookup_2. }
  split.
  - intros slot Hs. destruct (Htot slot Hs) as (v & Hv & Hin). exists v. unfold is_leader. rewrite Hv.
    split_and!; [done|done|by apply bool_decide_eq_true_2|by intros w <-%bool_decide_eq_true|].
    rewrite <- Hv. unfold leader_for_slot, leader_index_for_slot. case_match; [done|].
    by rewrite <- (Z.mul_1_l (Z.of_nat (length (ls_schedule s)))) at 1; rewrite Z_mod_plus_full.
  - intros w slot. unfold slots_for_leader. rewrite list_elem_of_omap. split.
    + intros ([n idx] & Hin & Hsome). apply list_elem_of_lookup in Hin as [n' Hn].
      apply list_lookup_imap_Some in Hn as (i & Hi & [= -> ->]).
      destruct (ls_validators s !! i) as [v|] eqn:Hv; [|done].
      destruct (bool_decide (vs_validator v = w)) eqn:Hb; [|done]. injection Hsome as <-.
      pose proof (lookup_lt_Some _ _ _ Hi). split; [lia|].
      unfold is_leader, leader_for_slot, leader_index_for_slot.
      rewrite (proj2 (Nat.eqb_neq _ 0)) by lia. rewrite Z.mod_small, Nat2Z.id by lia.
      rewrite Hi. cbn [mbind option_bind]. by rewrite Hv.
    + intros [Hs Hl]. unfold is_leader, leader_for_slot, leader_index_for_slot in Hl.
      rewrite (proj2 (Nat.eqb_neq _ 0)) in Hl by lia. rewrite Z.mod_small in Hl by lia.
      destruct (ls_schedule s !! Z.to_nat slot) as [i|] eqn:Hi; [|done]. cbn [mbind option_bind] in Hl.
      destruct (ls_validators s !! i) as [v|] eqn:Hv; [|done].
      exists (Z.to_nat slot, i). split.
      * apply list_elem_of_lookup. exists (Z.to_nat slot). rewrite list_lookup_imap, Hi. done.
      * cbn. rewrite Hv, Hl. by rewrite Z2Nat.id by lia.
Qed.

(** The stake sum wraps: two stakes of [2^63] make a total of zero, so the
    shares come from a division by zero and every leader gets an unbounded
    share instead of one half. *)
Lemma stake_sum_wraps :
  stake_sum [mkStake [] 9223372036854775808 EmptyString; mkStake [] 9223372036854775808 EmptyString] = 0 /\
  num_slots 9223372036854775808 0 100 = U64_MAX.
Proof. split; vm_compute; reflexivity. Qed.
