(* ===== verification/Blockstore.v ===== *)
(** * The block ledger

    src/crates/blockstore: block records chained by hash (record.rs), and the
    framed, checksummed append-only log they are persisted in (store.rs): open
    with replay and truncation, append.  The log file is its bytes; serde_json
    and SHA-256 are parameters; the clock and the outcome of a write are
    arguments. *)

From S2P Require Import Prelude Crypto Transaction.
From stdpp Require Import list.
Open Scope Z_scope.

(** [struct BlockRecord] *)
Record BlockRecord := mkRecord {
  br_slot : Z;
  br_height : Z;
  br_parent_hash : bytes;
  br_block_hash : bytes;
  br_poh_hash : bytes;
  br_state_root : bytes;
  br_entry_count : Z;
  br_tx_count : Z;
  br_transactions : list Transaction;
  br_timestamp_ms : Z
}.

#[export] Instance BlockRecord_eq_dec : EqDecision BlockRecord.
Proof. solve_decision. Defined.

#[export] Instance BlockRecord_countable : Countable BlockRecord.
Proof.
  apply (inj_countable (fun x => [encode (br_slot x); encode (br_height x); encode (br_parent_hash x); encode (br_block_hash x); encode (br_poh_hash x); encode (br_state_root x); encode (br_entry_count x); encode (br_tx_count x); encode (br_transactions x); encode (br_timestamp_ms x)])
    (fun l => match l with
              | [a; b; c; d; e; f; g; h; i; j] => va ← decode a; vb ← decode b; vc ← decode c; vd ← decode d; ve ← decode e; vf ← decode f; vg ← decode g; vh ← decode h; vi ← decode i; vj ← decode j; Some (mkRecord va vb vc vd ve vf vg vh vi vj)
              | _ => None
              end)).
  intros []. cbn. by rewrite !decode_encode.
Defined.

(** Values of the Rust type. *)
Definition record_ok (r : BlockRecord) : Prop :=
  is_u64 (br_slot r) /\ is_u64 (br_height r) /\ arr32 (br_parent_hash r) /\ arr32 (br_block_hash r) /\
  arr32 (br_poh_hash r) /\ arr32 (br_state_root r) /\ is_u64 (br_entry_count r) /\
  is_u64 (br_tx_count r) /\ Forall tx_ok (br_transactions r) /\ is_u64 (br_timestamp_ms r).

#[export] Instance record_ok_dec r : Decision (record_ok r).
Proof. unfold record_ok. apply _. Defined.

Definition GENESIS_PARENT : bytes := fill32 0.

(** [MAGIC], [MAX_FRAME_PAYLOAD], [HASH_LEN], [HEADER_LEN] *)
Definition MAGIC : bytes := [84; 78; 66; 76].
Definition MAX_FRAME_PAYLOAD : Z := 16 * 1024 * 1024.
Definition HASH_LEN : nat := 32.
Definition HEADER_LEN : nat := 8.

(** [enum Chunk], with the bytes read and the rest of the file. *)
Inductive Chunk := ChunkOk (buf rest : bytes) | CleanEof | Torn.

(** [fill]: read exactly [n] bytes. *)
Definition fill (file : bytes) (n : nat) : Chunk :=
  if (n <=? length file)%nat then ChunkOk (take n file) (drop n file)
  else if (length file =? 0)%nat then CleanEof else Torn.

(** [struct Blockstore] *)
Record Blockstore := mkStore { bs_file : bytes; bs_records : list BlockRecord }.

(** [records.last().map(|r| r.block_hash).unwrap_or(GENESIS_PARENT)] *)
Definition head_hash (records : list BlockRecord) : bytes :=
  default GENESIS_PARENT (br_block_hash <$> last records).

(** The errors of [append_record]. *)
Inductive AppendError :=
| ParentMismatch (got expected : bytes) | HashMismatch | EncodeFailed | IoFailed.

(** [hex16] and the messages *)
Definition hex16 (b : bytes) : string := hex_encode (take 8 b).
Definition append_error_display (e : AppendError) : string :=
  match e with
  | ParentMismatch got expected =>
      "record parent mismatch: got " +:+ hex16 got +:+ ", expected " +:+ hex16 expected
  | HashMismatch => "record block_hash does not verify"
  | EncodeFailed => "failed to encode block record"
  | IoFailed => "io error"
  end.

(** What [write_all] and [sync_data] do: both succeed, the write stops after
    [n] bytes, or the bytes are written but the sync fails. *)
Inductive WriteOutcome := Written | WriteStops (n : nat) | SyncFails.

Section Blockstore.
Context `{Sha : Sha256} `{Json : !Serde BlockRecord record_ok}.

(** [BlockRecord::compute_hash]: the bytes hashed, and the hash. *)
Definition block_message (parent_hash : bytes) (slot height : Z) (poh_hash : bytes)
    (entry_count tx_count : Z) (state_root : bytes) (transactions : list Transaction) : bytes :=
  parent_hash ++ le_bytes 8 slot ++ le_bytes 8 height ++ poh_hash ++ le_bytes 8 entry_count ++
  le_bytes 8 tx_count ++ state_root ++ mjoin (tx_hash <$> transactions).

Definition record_message (r : BlockRecord) : bytes :=
  block_message (br_parent_hash r) (br_slot r) (br_height r) (br_poh_hash r) (br_entry_count r)
    (br_tx_count r) (br_state_root r) (br_transactions r).

Definition compute_record_hash (parent_hash : bytes) (slot height : Z) (poh_hash : bytes)
    (entry_count tx_count : Z) (state_root : bytes) (transactions : list Transaction) : bytes :=
  sha256 (block_message parent_hash slot height poh_hash entry_count tx_count state_root transactions).

(** [BlockRecord::new] at time [now_ms] *)
Definition record_new (parent_hash : bytes) (slot height : Z) (poh_hash : bytes) (entry_count : Z)
    (state_root : bytes) (transactions : list Transaction) (now_ms : Z) : BlockRecord :=
  let tx_count := Z.of_nat (length transactions) in
  mkRecord slot height parent_hash
    (compute_record_hash parent_hash slot height poh_hash entry_count tx_count state_root transactions)
    poh_hash state_root entry_count tx_count transactions now_ms.

(** [BlockRecord::verify_hash] *)
Definition verify_hash (r : BlockRecord) : bool :=
  bool_decide (br_block_hash r =
    compute_record_hash (br_parent_hash r) (br_slot r) (br_height r) (br_poh_hash r)
      (br_entry_count r) (br_tx_count r) (br_state_root r) (br_transactions r)).

(** One pass of the loop of [Blockstore::replay]: the record of the next frame,
    the frame's length and the rest of the file, or the end of the scan (clean
    end, torn, corrupt or foreign frame, broken chain). *)
Definition read_frame (expected_parent file : bytes) : option (BlockRecord * nat * bytes) :=
  match fill file 4 with
  | CleanEof | Torn => None
  | ChunkOk magic file =>
    if negb (bool_decide (magic = MAGIC)) then None else
    match fill file 4 with
    | CleanEof | Torn => None
    | ChunkOk len_buf file =>
      let payload_len := from_le len_buf in
      if (payload_len =? 0) || (MAX_FRAME_PAYLOAD <? payload_len) then None else
      match fill file (Z.to_nat payload_len) with
      | CleanEof | Torn => None
      | ChunkOk payload file =>
        match fill file HASH_LEN with
        | CleanEof | Torn => None
        | ChunkOk expected_sum file =>
          if negb (bool_decide (sha256 payload = expected_sum)) then None else
          match from_slice payload with
          | None => None
          | Some record =>
            if negb (bool_decide (br_parent_hash record = expected_parent)) || negb (verify_hash record)
            then None
            else Some (record, (HEADER_LEN + length payload + HASH_LEN)%nat, file)
          end
        end
      end
    end
  end.

(** The loop; every pass consumes a frame, so the length of the file bounds
    the number of passes. *)
Fixpoint replay_blocks (fuel : nat) (records : list BlockRecord) (valid_len : nat) (file : bytes)
    : list BlockRecord * nat :=
  match fuel with
  | O => (records, valid_len)
  | S fuel =>
      match read_frame (head_hash records) file with
      | None => (records, valid_len)
      | Some (record, frame_len, file) =>
          replay_blocks fuel (records ++ [record]) (valid_len + frame_len) file
      end
  end.

Definition replay_ledger (log : bytes) : list BlockRecord * nat := replay_blocks (length log) [] 0 log.

(** [Blockstore::open] on a directory whose log holds [log]: the tail that
    does not replay is truncated. *)
Definition open_ledger (log : bytes) : Blockstore :=
  let '(records, valid_len) := replay_ledger log in
  mkStore (take valid_len log) records.

(** The frame of a payload. *)
Definition frame_of (payload : bytes) : bytes :=
  MAGIC ++ le_bytes 4 (wrap32 (Z.of_nat (length payload))) ++ payload ++ sha256 payload.

(** [Blockstore::append_record] *)
Definition append_record (st : Blockstore) (record : BlockRecord) (io : WriteOutcome)
    : Blockstore * result unit AppendError :=
  let expected_parent := head_hash (bs_records st) in
  if negb (bool_decide (br_parent_hash record = expected_parent))
  then (st, Err (ParentMismatch (br_parent_hash record) expected_parent))
  else if negb (verify_hash record) then (st, Err HashMismatch)
  else
    match to_vec record with
    | None => (st, Err EncodeFailed)
    | Some payload =>
        let frame := frame_of payload in
        match io with
        | WriteStops n => (mkStore (bs_file st ++ take n frame) (bs_records st), Err IoFailed)
        | SyncFails => (mkStore (bs_file st ++ frame) (bs_records st), Err IoFailed)
        | Written => (mkStore (bs_file st ++ frame) (bs_records st ++ [record]), Ok tt)
        end
    end.

(** [Blockstore::append] *)
Definition append_block (st : Blockstore) (slot height entry_count : Z) (poh_hash state_root : bytes)
    (transactions : list Transaction) (now_ms : Z) (io : WriteOutcome)
    : Blockstore * result BlockRecord AppendError :=
  let parent_hash := head_hash (bs_records st) in
  let record := record_new parent_hash slot height poh_hash entry_count state_root transactions now_ms in
  match append_record st record io with
  | (st, Ok _) => (st, Ok (default record (last (bs_records st))))
  | (st, Err e) => (st, Err e)
  end.

(** [Blockstore::last], [len], [is_empty] *)
Definition last_block (st : Blockstore) : option BlockRecord := last (bs_records st).
Definition ledger_len (st : Blockstore) : nat := length (bs_records st).
Definition ledger_is_empty (st : Blockstore) : bool := (length (bs_records st) =? 0)%nat.

(** ** Hash chains *)

(** [rs] continues the chain from [parent]. *)
Fixpoint chained (parent : bytes) (rs : list BlockRecord) : Prop :=
  match rs with
  | [] => True
  | r :: rs => br_parent_hash r = parent /\ verify_hash r = true /\ chained (br_block_hash r) rs
  end.

Definition tip (parent : bytes) (rs : list BlockRecord) : bytes :=
  default parent (br_block_hash <$> last rs).

Lemma tip_snoc p rs r : tip p (rs ++ [r]) = br_block_hash r.
Proof. unfold tip. by rewrite last_snoc. Qed.

Lemma head_tip rs : head_hash rs = tip GENESIS_PARENT rs.
Proof. done. Qed.

Lemma tip_cons p r rs : tip p (r :: rs) = tip (br_block_hash r) rs.
Proof. unfold tip. rewrite last_cons. by destruct (last rs). Qed.

Lemma chained_app p rs1 rs2 : chained p (rs1 ++ rs2) <-> chained p rs1 /\ chained (tip p rs1) rs2.
Proof.
  revert p. induction rs1 as [|r rs1 IH]; intros p; [by split; [|intros []]|].
  cbn [app chained]. rewrite IH, tip_cons. tauto.
Qed.

Lemma chained_snoc p rs r :
  chained p (rs ++ [r]) <-> chained p rs /\ br_parent_hash r = tip p rs /\ verify_hash r = true.
Proof. rewrite chained_app. cbn [chained]. tauto. Qed.

(** ** Replay *)

Lemma fill_ok file n : (n <= length file)%nat -> fill file n = ChunkOk (take n file) (drop n file).
Proof. intros H. unfold fill. by rewrite (proj2 (Nat.leb_le _ _) H). Qed.

Lemma fill_app a b : fill (a ++ b) (length a) = ChunkOk a b.
Proof. rewrite fill_ok by (rewrite length_app; lia). by rewrite take_app_length, drop_app_length. Qed.

Lemma fill_Some file n buf rest : fill file n = ChunkOk buf rest ->
  file = buf ++ rest /\ length buf = n.
Proof.
  unfold fill. destruct (Nat.leb_spec n (length file)); [|by case_match].
  intros [= <- <-]. rewrite take_drop, length_take. split; [done|lia].
Qed.

(** A frame that reads consumes its own bytes and extends the chain. *)
Lemma read_frame_Some parent file r n rest : read_frame parent file = Some (r, n, rest) ->
  exists frame, file = frame ++ rest /\ length frame = n /\ (40 <= n)%nat /\
    br_parent_hash r = parent /\ verify_hash r = true /\
    forall rest', read_frame parent (frame ++ rest') = Some (r, n, rest').
Proof.
  unfold read_frame. intros H.
  destruct (fill file 4) as [magic f1| |] eqn:E1; [|done..].
  destruct (bool_decide (magic = MAGIC)) eqn:Em; [|done]. cbn [negb] in H.
  destruct (fill f1 4) as [len_buf f2| |] eqn:E2; [|done..]. cbv zeta in H.
  destruct ((from_le len_buf =? 0) || _) eqn:El; [done|].
  destruct (fill f2 _) as [payload f3| |] eqn:E3; [|done..].
  destruct (fill f3 HASH_LEN) as [sum f4| |] eqn:E4; [|done..].
  destruct (bool_decide (sha256 payload = sum)) eqn:Es; [|done]. cbn [negb] in H.
  destruct (from_slice payload) as [record|] eqn:Ej; [|done].
  destruct (bool_decide (br_parent_hash record = parent)) eqn:Ep; [|done].
  destruct (verify_hash record) eqn:Ev; [|done]. cbn [negb orb] in H. injection H as <- <- <-.
  apply fill_Some in E1 as [-> L1], E2 as [-> L2], E3 as [-> L3], E4 as [-> L4].
  exists (magic ++ len_buf ++ payload ++ sum). rewrite <- !app_assoc. split; [done|].
  split; [rewrite !length_app; unfold HEADER_LEN, HASH_LEN in *; lia|].
  apply orb_false_iff in El as [El0 El1]. apply Z.eqb_neq in El0.
  split; [|split; [by apply bool_decide_eq_true in Ep|split; [done|]]].
  { unfold HEADER_LEN, HASH_LEN. lia. }
  intros rest'. rewrite <- L1 at 1. rewrite <- !app_assoc, fill_app, Em. cbn [negb].
  rewrite <- L2 at 1. rewrite fill_app, (proj2 (Z.eqb_neq _ _) El0), El1. cbn [orb].
  rewrite <- L3, fill_app. rewrite <- L4, fill_app, Es, Ej, Ep, Ev. done.
Qed.

Lemma read_frame_nil parent : read_frame parent [] = None.
Proof. done. Qed.

Lemma replay_blocks_nil fuel acc n : replay_blocks fuel acc n [] = (acc, n).
Proof. by destruct fuel. Qed.

Lemma head_hash_app acc rs : head_hash (acc ++ rs) = tip (head_hash acc) rs.
Proof.
  unfold head_hash, tip. rewrite last_app. by destruct (last rs).
Qed.

(** What replay makes of any file: a chain of records read from a prefix of
    the file that reads the same whatever follows it. *)
Lemma replay_spec fuel acc vl file : (length file <= fuel)%nat ->
  exists rs n, replay_blocks fuel acc vl file = (acc ++ rs, (vl + n)%nat) /\
    (n <= length file)%nat /\ (length rs <= n)%nat /\ chained (head_hash acc) rs /\
    forall fuel' vl' tail, replay_blocks (length rs + fuel') acc vl' (take n file ++ tail) =
      replay_blocks fuel' (acc ++ rs) (vl' + n) tail.
Proof.
  revert acc vl file. induction fuel as [|fuel IH]; intros acc vl file Hf; cbn [replay_blocks].
  - exists [], 0%nat. rewrite app_nil_r, Nat.add_0_r. split_and!; [done|lia|done|done|].
    intros fuel' vl' tail. by rewrite ?app_nil_r, ?Nat.add_0_r.
  - destruct (read_frame (head_hash acc) file) as [[[r n] rest]|] eqn:E.
    + apply read_frame_Some in E as (frame & -> & Hl & Hn & Hp & Hv & Hr).
      rewrite length_app in Hf.
      destruct (IH (acc ++ [r]) (vl + n)%nat rest) as (rs & n' & E & Hn' & Hlr & Hc & Hread); [lia|].
      rewrite head_hash_app in Hc.
      assert (Ea : (acc ++ [r]) ++ rs = acc ++ r :: rs) by (by rewrite <- app_assoc).
      exists (r :: rs), (n + n')%nat. rewrite E, length_app, Ea in *. cbn [length chained].
      split_and!; [by rewrite Nat.add_assoc|lia|lia|done|done|exact Hc|].
      intros fuel' vl' tail. rewrite <- Hl at 1. rewrite take_app_add', <- app_assoc by done.
      cbn [Nat.add replay_blocks]. rewrite Hr, Hread. f_equal. lia.
    + exists [], 0%nat. rewrite app_nil_r, Nat.add_0_r. split_and!; [done|lia|simpl; lia|done|].
      intros fuel' vl' tail. by rewrite ?app_nil_r, ?Nat.add_0_r.
Qed.

(** A longer file replays to a longer ledger. *)
Lemma replay_prefix fuel fuel' acc vl vl' a tail :
  (length (a ++ tail) <= fuel')%nat ->
  (replay_blocks fuel acc vl a).1 `prefix_of` (replay_blocks fuel' acc vl' (a ++ tail)).1.
Proof.
  revert fuel' acc vl vl' a. induction fuel as [|fuel IH]; intros fuel' acc vl vl' a Hf;
    destruct (replay_spec fuel' acc vl' (a ++ tail) Hf) as (rs & n & E & _); cbn [replay_blocks].
  - rewrite E. by apply prefix_app_r.
  - destruct (read_frame (head_hash acc) a) as [[[r m] rest]|] eqn:Er; [|rewrite E; by apply prefix_app_r].
    apply read_frame_Some in Er as (frame & -> & Hl & Hn & _ & _ & Hr). clear E.
    rewrite !length_app in Hf. destruct fuel' as [|fuel']; [lia|].
    rewrite <- app_assoc. cbn [replay_blocks]. rewrite Hr. apply IH. rewrite length_app. lia.
Qed.

(** The state of a store: its file replays to its records, and goes on with
    whatever is appended. *)
Definition ledger_ok (st : Blockstore) : Prop :=
  chained GENESIS_PARENT (bs_records st) /\ (length (bs_records st) <= length (bs_file st))%nat /\
  forall fuel vl tail, replay_blocks (length (bs_records st) + fuel) [] vl (bs_file st ++ tail) =
    replay_blocks fuel (bs_records st) (vl + length (bs_file st)) tail.

Lemma open_ledger_ok log : ledger_ok (open_ledger log) /\ bs_file (open_ledger log) `prefix_of` log.
Proof.
  unfold open_ledger, replay_ledger.
  destruct (replay_spec (length log) [] 0 log) as (rs & n & E & Hn & Hl & Hc & Hr); [done|].
  rewrite E. cbn [app]. unfold ledger_ok. cbn [bs_records bs_file]. rewrite Nat.add_0_l.
  assert (Hlt : length (take n log) = n) by (rewrite length_take; lia).
  split; [|exists (drop n log); by rewrite take_drop].
  split; [exact Hc|]. split; [by rewrite Hlt|].
  intros fuel vl tail. rewrite Hr, Hlt. done.
Qed.

Lemma replay_ok_tail st tail : ledger_ok st ->
  replay_ledger (bs_file st ++ tail) =
  replay_blocks (length (bs_file st ++ tail) - length (bs_records st)) (bs_records st)
    (length (bs_file st)) tail.
Proof.
  intros (_ & Hl & Hr). unfold replay_ledger.
  rewrite <- (Nat.add_0_l (length (bs_file st))) at 1. rewrite <- Hr. f_equal.
  rewrite length_app. lia.
Qed.

Lemma reopen_ok st : ledger_ok st -> open_ledger (bs_file st) = st.
Proof.
  intros Hok. pose proof (replay_ok_tail st [] Hok) as E. rewrite app_nil_r in E.
  unfold open_ledger. rewrite E, replay_blocks_nil. rewrite take_ge by done. by destruct st.
Qed.

(** A record that replay can read back. *)
Definition frame_fits (r : BlockRecord) : Prop :=
  record_ok r /\ match to_vec r with
                 | Some payload => 0 < Z.of_nat (length payload) <= MAX_FRAME_PAYLOAD
                 | None => False
                 end.

Lemma length_sha m : length (sha256 m) = 32%nat.
Proof. apply sha256_arr32. Qed.

Lemma read_frame_of parent r payload tail :
  record_ok r -> to_vec r = Some payload -> 0 < Z.of_nat (length payload) <= MAX_FRAME_PAYLOAD ->
  br_parent_hash r = parent -> verify_hash r = true ->
  read_frame parent (frame_of payload ++ tail) = Some (r, length (frame_of payload), tail).
Proof.
  intros Hok Hj Hl Hp Hv. unfold read_frame, frame_of. rewrite <- !app_assoc.
  change 4%nat with (length MAGIC) at 1. rewrite fill_app, bool_decide_eq_true_2 by done. cbn [negb].
  rewrite <- (length_le_bytes 4 (wrap32 (Z.of_nat (length payload)))) at 1. rewrite fill_app.
  unfold MAX_FRAME_PAYLOAD in *.
  assert (E : from_le (le_bytes 4 (wrap32 (Z.of_nat (length payload)))) = Z.of_nat (length payload)).
  { unfold wrap32. rewrite Z.mod_small by lia. apply from_le_bytes. lia. }
  cbv zeta. rewrite E. rewrite (proj2 (Z.eqb_neq _ _)), (proj2 (Z.ltb_ge _ _)) by lia. cbn [orb].
  rewrite Nat2Z.id, fill_app. unfold HASH_LEN at 1. rewrite <- (length_sha payload) at 1.
  rewrite fill_app, bool_decide_eq_true_2 by done. cbn [negb].
  destruct (serde_roundtrip r Hok) as (b & Hb & Hs).
  assert (b = payload) as -> by congruence. rewrite Hs, bool_decide_eq_true_2, Hv by done. cbn [negb orb].
  do 2 f_equal. rewrite !length_app, length_le_bytes, length_sha. done.
Qed.

Lemma append_record_ok st r st' res : ledger_ok st -> frame_fits r ->
  append_record st r Written = (st', res) -> ledger_ok st'.
Proof.
  intros Hok [Hr Hfit]. unfold append_record.
  destruct (bool_decide _) eqn:Hp; [|by intros [= <- <-]]. apply bool_decide_eq_true in Hp.
  destruct (verify_hash r) eqn:Hv; [|by intros [= <- <-]]. cbn [negb].
  destruct (to_vec r) as [payload|] eqn:Hj; [|by intros [= <- <-]]. intros [= <- _].
  destruct Hok as (Hc & Hl & Hread). unfold ledger_ok. cbn [bs_records bs_file].
  split; [by apply chained_snoc|]. split.
  { rewrite !length_app. unfold frame_of. rewrite length_app. simpl. lia. }
  intros fuel vl tail. rewrite length_app, <- Nat.add_assoc, <- app_assoc, Hread.
  cbn [length Nat.add replay_blocks].
  rewrite (read_frame_of _ r) by done. f_equal. rewrite length_app. lia.
Qed.

Lemma appends_ok st rs : ledger_ok st -> Forall frame_fits rs ->
  ledger_ok (foldl (fun st r => (append_record st r Written).1) st rs).
Proof.
  intros Hok Hrs. revert st Hok. induction Hrs as [|r rs Hr _ IH]; intros st Hok; [done|].
  cbn [foldl]. apply IH. destruct (append_record st r Written) as [st' res] eqn:E.
  by eapply append_record_ok.
Qed.

Lemma records_open l : bs_records (open_ledger l) = (replay_ledger l).1.
Proof. unfold open_ledger. by destruct (replay_ledger l). Qed.

(** A file cut at any byte reopens to a prefix of the blocks. *)
Lemma cut_ledger_prefix st n : ledger_ok st ->
  bs_records (open_ledger (take n (bs_file st))) `prefix_of` bs_records st.
Proof.
  intros Hok. pose proof (reopen_ok st Hok) as Hre. rewrite <- Hre at 2.
  rewrite !records_open. rewrite <- (take_drop n (bs_file st)) at 2.
  apply replay_prefix. by rewrite take_drop.
Qed.

(** Whatever bytes the ledger file holds, opening it yields a valid ledger:
    the records form one hash chain from the genesis parent, every record's hash
    verifies, the file is cut to a prefix of what was there, and opening again
    changes nothing. *)
Theorem ledger_open_valid log :
  let st := open_ledger log in
  chained GENESIS_PARENT (bs_records st) /\ bs_file st `prefix_of` log /\
  open_ledger (bs_file st) = st.
Proof.
  destruct (open_ledger_ok log) as [Hok Hp]. split; [apply Hok|]. split; [done|]. by apply reopen_ok.
Qed.

(** Replay that reads no record consumes nothing. *)
Lemma replay_same fuel acc vl file vl' : replay_blocks fuel acc vl file = (acc, vl') -> vl' = vl.
Proof.
  destruct fuel as [|fuel]; cbn [replay_blocks]; [by intros [= <-]|].
  destruct (read_frame (head_hash acc) file) as [[[r m] rest]|]; [|by intros [= <-]].
  intros E. exfalso.
  enough (H : (length (acc ++ [r]) <= length (replay_blocks fuel (acc ++ [r]) (vl + m) rest).1)%nat).
  { rewrite E, length_app in H. cbn in H. lia. }
  clear. generalize (acc ++ [r]) as l. generalize (vl + m)%nat as v. revert rest.
  induction fuel as [|fuel IH]; intros rest v l; cbn [replay_blocks]; [done|].
  destruct (read_frame (head_hash l) rest) as [[[x k] f]|]; [|done].
  etrans; [|apply IH]. rewrite length_app. lia.
Qed.

Lemma ledger_ok_prefix st1 st2 : ledger_ok st1 -> ledger_ok st2 -> bs_file st1 `prefix_of` bs_file st2 ->
  bs_records st1 `prefix_of` bs_records st2.
Proof.
  intros H1 H2 [tail Ht]. rewrite <- (reopen_ok st1 H1), <- (reopen_ok st2 H2), Ht, !records_open. by apply replay_prefix.
Qed.

(** Two stores with the same records over one file have the same file. *)
Lemma ledger_ok_same st1 st2 : ledger_ok st1 -> ledger_ok st2 -> bs_file st1 `prefix_of` bs_file st2 ->
  bs_records st1 = bs_records st2 -> length (bs_file st1) = length (bs_file st2).
Proof.
  intros H1 H2 [tail Ht] Hr. pose proof (replay_ok_tail st1 tail H1) as E1. pose proof (replay_ok_tail st2 [] H2) as E2.
  rewrite app_nil_r, replay_blocks_nil, Ht, E1, <- Hr in E2. apply replay_same in E2. by rewrite Ht, E2.
Qed.

(** Cutting a file keeps exactly the states of the store that lie within the cut. *)
Lemma cut_ledger st0 st n : ledger_ok st0 -> ledger_ok st -> bs_file st0 `prefix_of` bs_file st ->
  (length (bs_file st0) <= n)%nat <-> bs_records st0 `prefix_of` bs_records (open_ledger (take n (bs_file st))).
Proof.
  intros H0 H Hpre. destruct (open_ledger_ok (take n (bs_file st))) as [Hc Hcp].
  set (cut := open_ledger (take n (bs_file st))) in *.
  assert (Hlen : (length (bs_file cut) <= n)%nat) by (apply prefix_length in Hcp; rewrite length_take in Hcp; lia).
  destruct Hpre as [tail Ht]. split.
  - intros Hn. unfold cut. rewrite Ht, take_app_ge by done. rewrite <- (reopen_ok st0 H0) at 1. rewrite !records_open.
    by apply replay_prefix.
  - intros Hr. destruct (decide (length (bs_file st0) <= n)%nat) as [|Hgt]; [done|exfalso].
    assert (Hcp' : bs_file cut `prefix_of` bs_file st0).
    { etrans; [exact Hcp|]. rewrite Ht, take_app_le by lia. exists (drop n (bs_file st0)). by rewrite take_drop. }
    pose proof (ledger_ok_prefix _ _ Hc H0 Hcp') as Hr'.
    assert (E : bs_records cut = bs_records st0) by (by apply (anti_symm (prefix (A:=BlockRecord)))).
    pose proof (ledger_ok_same _ _ Hc H0 Hcp' E). lia.
Qed.

Lemma ledger_open_self st : open_ledger (bs_file st) = st -> ledger_ok st.
Proof. intros <-. apply open_ledger_ok. Qed.

(** The store after appending records, every write succeeding. *)
Definition append_all (st : Blockstore) (rs : list BlockRecord) : Blockstore :=
  foldl (fun st r => (append_record st r Written).1) st rs.

Lemma append_all_file st rs : bs_file st `prefix_of` bs_file (append_all st rs).
Proof.
  revert st. induction rs as [|r rs IH]; intros st; [done|]. cbn [append_all foldl]. etrans; [|apply IH].
  unfold append_record. do 2 (destruct (negb _); [done|]). destruct (to_vec r); [by apply prefix_app_r|done].
Qed.

Lemma append_all_chained st rs : Forall frame_fits rs -> chained (head_hash (bs_records st)) rs ->
  bs_records (append_all st rs) = bs_records st ++ rs.
Proof.
  intros Hrs. revert st. induction Hrs as [|r rs [_ Hr] _ IH]; intros st; [by rewrite app_nil_r|].
  cbn [chained append_all foldl]. intros (Hp & Hv & Hc). unfold append_record. rewrite bool_decide_eq_true_2, Hv by done.
  cbn [negb]. destruct (to_vec r) as [payload|]; [|done]. cbn [fst].
  fold (append_all (mkStore (bs_file st ++ frame_of payload) (bs_records st ++ [r])) rs). rewrite IH; cbn [bs_records].
  - by rewrite <- app_assoc.
  - by rewrite head_tip, tip_snoc.
Qed.

(** C17. Acknowledged blocks are durable: start from any ledger file and
    append records whose encoding fits a frame, every write succeeding.
    Records that continue the chain are all added (the store refuses the
    others); reopening the file gives back exactly the store; garbage after
    its frames loses none of them; and a crash that cuts the file at byte [n]
    leaves a prefix of the blocks, namely exactly those appended when the file
    was at most [n] bytes long. *)
Theorem ledger_durable log rs :
  Forall frame_fits rs ->
  let st := append_all (open_ledger log) rs in
  (chained (head_hash (bs_records (open_ledger log))) rs -> bs_records st = bs_records (open_ledger log) ++ rs) /\
  open_ledger (bs_file st) = st /\
  (forall junk, bs_records st `prefix_of` bs_records (open_ledger (bs_file st ++ junk))) /\
  forall n, let cut := bs_records (open_ledger (take n (bs_file st))) in
    cut `prefix_of` bs_records st /\
    forall pre, pre `prefix_of` rs ->
      (length (bs_file (append_all (open_ledger log) pre)) <= n)%nat <->
      bs_records (append_all (open_ledger log) pre) `prefix_of` cut.
Proof.
  intros Hrs st. assert (Hok : ledger_ok st) by (apply appends_ok; [apply open_ledger_ok|done]).
  split; [by apply append_all_chained|]. split; [by apply reopen_ok|]. split.
  - intros junk. rewrite <- (reopen_ok st Hok) at 1. rewrite !records_open. by apply replay_prefix.
  - intros n cut. split; [by apply cut_ledger_prefix|]. intros pre [suf Hp]. rewrite Hp in Hrs. apply Forall_app in Hrs as [Hpre _].
    apply cut_ledger; [by apply appends_ok; [apply open_ledger_ok|]|done|].
    unfold st. rewrite Hp. unfold append_all. rewrite foldl_app. apply append_all_file.
Qed.

(** ** What a block hash pins down *)

(** Same block up to wall-clock time and transaction signatures. *)
Definition same_block (a b : BlockRecord) : Prop :=
  br_block_hash a = br_block_hash b /\ br_parent_hash a = br_parent_hash b /\
  br_slot a = br_slot b /\ br_height a = br_height b /\ br_poh_hash a = br_poh_hash b /\
  br_state_root a = br_state_root b /\ br_entry_count a = br_entry_count b /\
  br_tx_count a = br_tx_count b /\
  Forall2 (fun t u => tx_message t = tx_message u) (br_transactions a) (br_transactions b).

(** The inputs hashed for a record. *)
Definition record_inputs (r : BlockRecord) : list bytes :=
  record_message r :: (tx_message <$> br_transactions r).

Lemma length_mjoin_fixed n (xs : list bytes) :
  Forall (fun x => length x = n) xs -> length (mjoin xs) = (length xs * n)%nat.
Proof. induction 1 as [|x xs Hx _ IH]; [done|]. rewrite mjoin_cons, length_app, IH. simpl. lia. Qed.

Lemma tx_hashes_len ts : Forall (fun x => length x = 32%nat) (tx_hash <$> ts).
Proof. apply Forall_fmap, Forall_forall. intros t _. apply length_sha. Qed.

Lemma record_binding a b : record_ok a -> record_ok b ->
  verify_hash a = true -> verify_hash b = true -> no_collision (record_inputs a) (record_inputs b) ->
  br_block_hash a = br_block_hash b -> same_block a b.
Proof.
  intros Ha Hb Hva Hvb Hnc Hh. apply bool_decide_eq_true in Hva, Hvb.
  assert (E : record_message a = record_message b).
  { apply Hnc; [apply list_elem_of_here..|]. change (br_block_hash a = sha256 (record_message a)) in Hva.
    change (br_block_hash b = sha256 (record_message b)) in Hvb. congruence. }
  destruct Ha as (Hs & Hht & [Hp _] & _ & [Hq _] & [Hr _] & He & Hn & _).
  destruct Hb as (Hs' & Hht' & [Hp' _] & _ & [Hq' _] & [Hr' _] & He' & Hn' & _).
  unfold record_message, block_message in E. do 7 split_app E.
  apply le_bytes_inj in E1; [|exact Hs|exact Hs']. apply le_bytes_inj in E2; [|exact Hht|exact Hht'].
  apply le_bytes_inj in E4; [|exact He|exact He']. apply le_bytes_inj in E5; [|exact Hn|exact Hn'].
  unfold same_block. split_and!; [done..|].
  assert (Hl : length (br_transactions a) = length (br_transactions b)).
  { apply (f_equal length) in E. rewrite !(length_mjoin_fixed 32) in E by apply tx_hashes_len.
    rewrite !length_fmap in E. lia. }
  rewrite <- (app_nil_r (mjoin _)), <- (app_nil_r (mjoin (tx_hash <$> br_transactions b))) in E.
  apply (mjoin_fixed_inj 32) in E as [E _]; [|apply tx_hashes_len..|by rewrite !length_fmap].
  apply Forall2_same_length_lookup_2; [done|]. intros i t u Ht Hu.
  apply Hnc; [apply list_elem_of_further, list_elem_of_fmap; eexists; split; [done|];
              by eapply list_elem_of_lookup_2..|].
  apply (f_equal (lookup i)) in E. rewrite !list_lookup_fmap, Ht, Hu in E. by injection E.
Qed.

(** C28. A block hash pins down the whole history behind it: two ledgers of the
    same length whose last block hashes agree hold the same blocks (links,
    slots, heights, PoH hashes, state roots, counts and signed transaction
    messages), unless two different hashed inputs collide under SHA-256. *)
Theorem ledger_binding rs1 rs2 :
  Forall record_ok rs1 -> Forall record_ok rs2 ->
  chained GENESIS_PARENT rs1 -> chained GENESIS_PARENT rs2 ->
  length rs1 = length rs2 -> head_hash rs1 = head_hash rs2 ->
  no_collision (mjoin (record_inputs <$> rs1)) (mjoin (record_inputs <$> rs2)) ->
  Forall2 same_block rs1 rs2.
Proof.
  revert rs2. induction rs1 as [|a rs1 IH] using rev_ind; intros rs2 H1 H2 C1 C2 Hl Hh Hnc.
  - destruct rs2; [constructor|done].
  - destruct rs2 as [|b rs2 _] using rev_ind; [rewrite length_app in Hl; simpl in Hl; lia|].
    rewrite !length_app in Hl. simpl in Hl. rewrite (head_tip (rs1 ++ [a])), (head_tip (rs2 ++ [b])), !tip_snoc in Hh.
    apply chained_snoc in C1 as (C1 & P1 & V1), C2 as (C2 & P2 & V2).
    apply Forall_app in H1 as [H1 Ha], H2 as [H2 Hb]. apply Forall_cons in Ha as [Ha _], Hb as [Hb _].
    rewrite !fmap_app, !join_app in Hnc.
    assert (Hab : same_block a b).
    { apply record_binding; [exact Ha|exact Hb|exact V1|exact V2| |exact Hh]. intros x y Hx Hy. apply Hnc; apply elem_of_app; right;
        cbn [fmap list_fmap]; rewrite mjoin_cons; apply elem_of_app; by left. }
    apply Forall2_app; [|by constructor].
    apply IH; [done..|lia| |].
    + change (tip GENESIS_PARENT rs1 = tip GENESIS_PARENT rs2). rewrite <- P1, <- P2. apply Hab.
    + intros x y Hx Hy. apply Hnc; apply elem_of_app; by left.
Qed.

(** ** Limits of the durability promise *)

(** A block whose encoding exceeds the frame limit is accepted and
    acknowledged, but replay refuses its frame: it is lost on restart. *)
Lemma oversized_block_lost st r payload st' :
  ledger_ok st -> to_vec r = Some payload ->
  MAX_FRAME_PAYLOAD < Z.of_nat (length payload) < 4294967296 ->
  append_record st r Written = (st', Ok tt) ->
  bs_records st' = bs_records st ++ [r] /\ bs_records (open_ledger (bs_file st')) = bs_records st.
Proof.
  intros Hok Hj Hl. unfold append_record. rewrite Hj.
  destruct (bool_decide _); [|done]. destruct (verify_hash r); [|done]. cbn [negb]. intros [= <-].
  cbn [bs_records bs_file]. split; [done|].
  unfold open_ledger. rewrite replay_ok_tail by done.
  assert (E : read_frame (head_hash (bs_records st)) (frame_of payload) = None).
  { unfold read_frame, frame_of. change 4%nat with (length MAGIC) at 1.
    rewrite fill_app, bool_decide_eq_true_2 by done. cbn [negb].
    rewrite <- (length_le_bytes 4 (wrap32 (Z.of_nat (length payload)))) at 1. rewrite fill_app. cbv zeta.
    unfold MAX_FRAME_PAYLOAD, wrap32 in *. rewrite Z.mod_small, from_le_bytes by lia.
    rewrite (proj2 (Z.ltb_lt _ (Z.of_nat (length payload)))) by lia. by rewrite orb_true_r. }
  destruct (_ - _)%nat; cbn [replay_blocks]; [done|]. by rewrite E.
Qed.

(** A write that fails after one to three bytes leaves them in the file; every
    block appended (and acknowledged) after that is lost on restart. *)
Lemma failed_write_loses_later_blocks st r1 n st1 e r2 st2 :
  ledger_ok st -> (0 < n < 4)%nat ->
  append_record st r1 (WriteStops n) = (st1, Err e) -> st1 <> st ->
  append_record st1 r2 Written = (st2, Ok tt) ->
  bs_records st2 = bs_records st ++ [r2] /\ bs_records (open_ledger (bs_file st2)) = bs_records st.
Proof.
  intros Hok Hn. unfold append_record.
  destruct (bool_decide _); [|by intros [= <- _]]. destruct (verify_hash r1); [|by intros [= <- _]].
  cbn [negb]. destruct (to_vec r1) as [p1|]; [|by intros [= <- _]]. intros [= <- _] _.
  cbn [bs_records bs_file]. destruct (bool_decide _); [|done]. destruct (verify_hash r2); [|done].
  cbn [negb]. destruct (to_vec r2) as [p2|]; [|done]. intros [= <-].
  cbn [bs_records bs_file]. split; [done|].
  unfold open_ledger. rewrite <- app_assoc, replay_ok_tail by done.
  assert (E : forall h, read_frame h (take n (frame_of p1) ++ frame_of p2) = None).
  { intros h. assert (n = 1 \/ n = 2 \/ n = 3)%nat as [->|[->| ->]] by lia; done. }
  destruct (_ - _)%nat; cbn [replay_blocks]; [done|]. by rewrite E.
Qed.
End Blockstore.
