(* ===== verification/Validator.v ===== *)
(** * The validator

    src/validator/src/main.rs and genesis.rs: the node's state, genesis, the
    slot clock, and block production, which composes the mempool, the scheduler,
    the executor, the state root and the ledger.  The accounts database is one
    object shared by the executor and the validator: the model keeps it in the
    executor.  The order in which the threads of a batch run ([threads]), the
    iteration order of the account index ([keys_of]), the clock and the outcome
    of the ledger write are arguments. *)

From S2P Require Import Prelude Crypto Account Store AccountsDB Merkle Instruction TokenProgram Processor Transaction Scheduler Executor Mempool Poh Tower Leader Blockstore.
From stdpp Require Import list.
Open Scope Z_scope.

(** [HASHES_PER_TICK], [TICKS_PER_SLOT], [MAX_TXS_PER_BLOCK] *)
Definition HASHES_PER_TICK : Z := 6000.
Definition TICKS_PER_SLOT : Z := 1.
Definition MAX_TXS_PER_BLOCK : nat := 128.

(** ** Genesis *)

Record GenesisAccount := mkGenesisAccount { ga_pubkey : bytes; ga_lamports : Z }.
Record GenesisValidator := mkGenesisValidator { gv_identity : bytes; gv_stake : Z; gv_name : string }.
Record GenesisConfig := mkGenesis {
  gc_cluster : string;
  gc_accounts : list GenesisAccount;
  gc_validators : list GenesisValidator
}.

(** [GenesisConfig::single] *)
Definition genesis_single (identity : bytes) : GenesisConfig :=
  mkGenesis "trustnode-devnet"
    [mkGenesisAccount (fill32 1) 0; mkGenesisAccount (fill32 2) 0;
     mkGenesisAccount (fill32 3) 1000000000000]
    [mkGenesisValidator identity 10000000 "self"].

(** The leader stakes [main] derives from the genesis validators. *)
Definition genesis_stakes (cfg : GenesisConfig) : list ValidatorStake :=
  (fun v => mkStake (gv_identity v) (gv_stake v) (gv_name v)) <$> gc_validators cfg.

(** [bytes.get(..32)] of [load_identity] and [parse_peer] *)
Definition first32 (b : bytes) : option bytes := if (32 <=? length b)%nat then Some (take 32 b) else None.

Section Genesis.
Context {DB : Type} `{Store : AccountsStore DB}.

(** [apply_genesis] *)
Definition apply_genesis (db : DB) (cfg : GenesisConfig) : DB :=
  foldl (fun db a =>
           if db_exists db (ga_pubkey a) then db
           else db_store db (ga_pubkey a) (new_system_account (ga_pubkey a) (ga_lamports a)))
        db (gc_accounts cfg).
End Genesis.

(** ** State *)

(** [struct ValidatorState] *)
Record ValidatorState := mkValidator {
  v_poh : PohHasher;
  v_executor : Executor AccountsDB;
  v_mempool : Mempool;
  v_tower : Tower;
  v_leader_schedule : LeaderSchedule;
  v_current_slot : Z;
  v_tick_height : Z;
  v_block_height : Z;
  v_identity : bytes;
  v_last_produced_slot : option Z;
  v_ledger : Blockstore
}.

Section Validator.
Context `{Sha : Sha256} `{Ed : Ed25519} `{Ser : !Serde Account account_ok}
  `{Json : !Serde BlockRecord record_ok}.

(** [ValidatorState::new] over the ledger file [log] *)
Definition validator_new (identity log : bytes) (accounts : AccountsDB) (mempool : Mempool)
    (validators : list ValidatorStake) : option ValidatorState :=
  let validators := match validators with
                    | [] => [mkStake identity 10000000 "self"]
                    | _ => validators
                    end in
  leader_schedule ← leader_new validators 4 432000;
  let ledger := open_ledger log in
  let '(current_slot, block_height, poh_seed) :=
    match last_block ledger with
    | Some last => (wrap64 (br_slot last + 1), wrap64 (br_height last + 1), br_poh_hash last)
    | None => (0, 0, from_seed "genesis")
    end in
  Some (mkValidator (hasher_new poh_seed current_slot) (executor_new accounts) mempool (tower_new 0)
          leader_schedule current_slot 0 block_height identity None ledger).

(** [ValidatorState::advance_slot] *)
Definition advance_slot (s : ValidatorState) : ValidatorState :=
  let slot := wrap64 (v_current_slot s + 1) in
  mkValidator (hasher_new_slot (v_poh s) slot) (v_executor s) (v_mempool s) (v_tower s)
    (v_leader_schedule s) slot (v_tick_height s) (v_block_height s) (v_identity s)
    (v_last_produced_slot s) (v_ledger s).

(** [ValidatorState::process_tick] *)
Definition process_tick (s : ValidatorState) : ValidatorState :=
  let poh := hash_n (v_poh s) HASHES_PER_TICK in
  let tick_height := wrap64 (v_tick_height s + 1) in
  let ticked t := mkValidator poh (v_executor s) (v_mempool s) (v_tower s) (v_leader_schedule s)
    (v_current_slot s) t (v_block_height s) (v_identity s) (v_last_produced_slot s) (v_ledger s) in
  if TICKS_PER_SLOT <=? tick_height then advance_slot (ticked 0) else ticked tick_height.

(** [ValidatorState::process_transaction] *)
Definition process_transaction (s : ValidatorState) (tx : Transaction) : ValidatorState * TransactionResult :=
  let '(e, r) := execute_transaction (v_executor s) tx in
  (mkValidator (v_poh s) e (v_mempool s) (v_tower s) (v_leader_schedule s) (v_current_slot s)
     (v_tick_height s) (v_block_height s) (v_identity s) (v_last_produced_slot s) (v_ledger s), r).

(** [ValidatorState::is_leader] *)
Definition v_is_leader (s : ValidatorState) : bool :=
  is_leader (v_leader_schedule s) (v_identity s) (v_current_slot s).

Section Produce.
(** The order in which the threads of a batch run, and the iteration order of
    the account index. *)
Context (threads : ExecutionBatch -> list Transaction) (keys_of : AccountsDB -> list bytes).

(** [while let Some(batch) = scheduler.next_batch() { .. }]: entries,
    successes and the executor afterwards. *)
Fixpoint run_batches (fuel : nat) (sched : Scheduler) (e : Executor AccountsDB) (entry_count succeeded : Z)
    : Executor AccountsDB * Z * Z :=
  match fuel, next_batch sched with
  | S fuel, (sched, Some batch) =>
      let '(e, results) := execute_sequence e (threads batch) in
      run_batches fuel sched e (wrap64 (entry_count + 1))
        (wrap64 (succeeded + Z.of_nat (length (filter (fun r => tr_success r = true) results))))
  | _, _ => (e, entry_count, succeeded)
  end.

(** [produce_block] *)
Definition produce_block (s : ValidatorState) (now_ms : Z) (io : WriteOutcome)
    : ValidatorState * option (Z * bytes) :=
  let poh_hash := current_hash (v_poh s) in
  let slot := v_current_slot s in
  let height := v_block_height s in
  if bool_decide (v_last_produced_slot s = Some slot) then (s, None) else
  let '(mempool, transactions) := drain (v_mempool s) MAX_TXS_PER_BLOCK in
  let scheduler := schedule (enqueue_batch default_solana transactions) in
  let '(e, entry_count, _) := run_batches (length (batches scheduler)) scheduler (v_executor s) 0 0 in
  let state_root := compute_state_root (ex_db e) (keys_of (ex_db e)) in
  let '(ledger, appended) :=
    append_block (v_ledger s) slot height entry_count poh_hash state_root transactions now_ms io in
  let result := match appended with
                | Ok record => (fun bytes => (br_slot record, bytes)) <$> to_vec record
                | Err _ => None
                end in
  (mkValidator (v_poh s) e mempool (v_tower s) (v_leader_schedule s) slot (v_tick_height s)
     (wrap64 (height + 1)) (v_identity s) (Some slot) ledger, result).
End Produce.
End Validator.

(** ** Genesis is applied once *)

Section GenesisProperties.
Context {DB : Type} `{Laws : AccountsStoreLaws DB}.

(** The genesis accounts as a map: the first entry of a key counts. *)
Definition genesis_map (l : list GenesisAccount) : gmap bytes Account :=
  foldr (fun a m => <[ga_pubkey a := new_system_account (ga_pubkey a) (ga_lamports a)]> m) ∅ l.

Definition genesis_ok (cfg : GenesisConfig) : Prop :=
  Forall (fun a => arr32 (ga_pubkey a) /\ is_u64 (ga_lamports a)) (gc_accounts cfg).

Lemma apply_genesis_view db cfg : db_wf db -> genesis_ok cfg ->
  db_wf (apply_genesis db cfg) /\
  db_view (apply_genesis db cfg) = db_view db ∪ genesis_map (gc_accounts cfg).
Proof.
  unfold genesis_ok, apply_genesis. intros Hwf Hok. revert db Hwf.
  induction Hok as [|a l [Hk Hl] _ IH]; intros db Hwf; cbn [foldl genesis_map foldr].
  - split; [done|]. by rewrite map_union_empty.
  - fold (genesis_map l). rewrite db_exists_view by done.
    assert (Ha : account_ok (new_system_account (ga_pubkey a) (ga_lamports a)))
      by (by apply new_system_account_ok).
    case_bool_decide as Hex.
    + destruct (IH db Hwf) as [Hwf' ->]. split; [done|]. destruct Hex as [b Hb].
      apply map_eq. intros k. rewrite !lookup_union.
      destruct (decide (k = ga_pubkey a)) as [->|Hne]; [|by rewrite lookup_insert_ne].
      rewrite Hb, lookup_insert_eq. by destruct (genesis_map l !! ga_pubkey a).
    + destruct (IH (db_store db (ga_pubkey a) (new_system_account (ga_pubkey a) (ga_lamports a))))
        as [Hwf' ->]; [by apply db_store_wf|]. split; [done|]. rewrite db_store_view by done.
      rewrite <- insert_union_l. apply insert_union_r. by apply eq_None_not_Some.
Qed.
End GenesisProperties.

(** ** Block production *)

Section Production.
Context `{Sha : Sha256} `{Ed : Ed25519} `{Ser : !Serde Account account_ok}
  `{Json : !Serde BlockRecord record_ok}.
Context (threads : ExecutionBatch -> list Transaction) (keys_of : AccountsDB -> list bytes).
Context (threads_perm : forall b, threads b ≡ₚ batch_transactions b).
Context (keys_iterate : forall db, iteration_of db (keys_of db)).

Lemma execute_sequence_app (e : Executor AccountsDB) l1 l2 :
  (execute_sequence e (l1 ++ l2)).1 = (execute_sequence (execute_sequence e l1).1 l2).1.
Proof.
  revert e. induction l1 as [|tx l1 IH]; intros e; [done|]. cbn [app execute_sequence].
  destruct (execute_transaction e tx) as [e1 r1]. specialize (IH e1).
  destruct (execute_sequence e1 l1) as [e2 rs2] eqn:E2, (execute_sequence e1 (l1 ++ l2)) as [e3 rs3] eqn:E3.
  done.
Qed.

Lemma next_batch_batches s b bs : batches s = b :: bs ->
  exists s', next_batch s = (s', Some b) /\ batches s' = bs.
Proof. intros E. unfold next_batch. rewrite E. by eexists. Qed.

(** The batch loop executes every transaction of every batch, once. *)
Lemma run_batches_sequence fuel sched e ec ok : (length (batches sched) <= fuel)%nat ->
  exists order, order ≡ₚ mjoin (batch_transactions <$> batches sched) /\
    (run_batches threads fuel sched e ec ok).1.1 = (execute_sequence e order).1.
Proof.
  revert sched e ec ok. induction fuel as [|fuel IH]; intros sched e ec ok Hf.
  - destruct (batches sched) eqn:E; [|simpl in Hf; lia]. exists []. done.
  - destruct (batches sched) as [|b bs] eqn:E.
    + exists []. split; [done|]. cbn [run_batches]. unfold next_batch. by rewrite E.
    + destruct (next_batch_batches sched b bs E) as (s' & Hn & Hb). cbn [run_batches]. rewrite Hn.
      destruct (execute_sequence e (threads b)) as [e1 rs] eqn:E1.
      edestruct (IH s' e1) as (order & Ho & Hr); [rewrite Hb; simpl in Hf; lia|].
      exists (threads b ++ order). split.
      * rewrite Hb in Ho. rewrite fmap_cons, mjoin_cons, Ho, threads_perm. done.
      * rewrite Hr, execute_sequence_app. by rewrite E1.
Qed.

Lemma enqueue_all s txs :
  enqueue_batch s txs =
  mkScheduler (pending s ++ txs) (batches s) (total_scheduled s) (max_batch_size s) (max_batch_compute s).
Proof.
  unfold enqueue_batch. revert s. induction txs as [|tx txs IH]; intros s; cbn [foldl].
  - rewrite app_nil_r. by destruct s.
  - rewrite IH. unfold enqueue. simpl. by rewrite <- app_assoc.
Qed.

(** The scheduler hands every enqueued transaction to some batch. *)
Lemma schedule_all txs :
  mjoin (batch_transactions <$> batches (schedule (enqueue_batch default_solana txs))) ≡ₚ txs.
Proof.
  rewrite enqueue_all. unfold schedule. cbn [pending batches default_solana scheduler_new app].
  edestruct (schedule_loop_spec (length txs)) as (new & Hb & Hp & _ & Hz & _); [done|].
  cbv zeta in *. rewrite Hb. cbn [batches app]. rewrite Hz in Hp by (cbn; lia). exact Hp.
Qed.

(** Transactions executed one after the other keep the books. *)
Lemma execute_sequence_books (e : Executor AccountsDB) txs :
  db_wf (ex_db e) -> Forall tx_ok txs ->
  let e' := (execute_sequence e txs).1 in
  db_wf (ex_db e') /\
  (Forall declares_writes txs -> token_inv (db_view (ex_db e)) -> token_inv (db_view (ex_db e'))).
Proof.
  intros Hwf Hok. revert e Hwf. induction Hok as [|tx txs Htx _ IH]; intros e Hwf; [done|].
  cbn [execute_sequence]. destruct (execute_transaction e tx) as [e1 r1] eqn:E1.
  destruct (execute_transaction_cases _ _ _ _ Hwf Htx E1) as [Hwf1 _].
  destruct (IH e1 Hwf1) as [Hwf2 Hinv]. destruct (execute_sequence e1 txs) as [e2 rs]. split; [done|].
  intros [Hd Hds]%Forall_cons Ht. apply Hinv; [done|].
  by destruct (execute_transaction_books _ _ _ _ Hwf Htx Hd Ht E1).
Qed.

(** What [append_block] does to a ledger. *)
Lemma append_block_cases st slot height ec poh root txs now io st' res :
  append_block st slot height ec poh root txs now io = (st', res) ->
  let r := record_new (head_hash (bs_records st)) slot height poh ec root txs now in
  match res with
  | Ok r' => r' = r /\ bs_records st' = bs_records st ++ [r] /\ verify_hash r = true /\
             is_Some (to_vec r) /\ append_record st r Written = (st', Ok tt)
  | Err _ => bs_records st' = bs_records st /\ (io = Written -> st' = st)
  end.
Proof.
  unfold append_block, append_record. cbv zeta. set (r := record_new _ _ _ _ _ _ _ _).
  assert (Hv : verify_hash r = true) by (by apply bool_decide_eq_true_2).
  rewrite Hv, bool_decide_eq_true_2 by done. cbn [negb].
  destruct (to_vec r) as [payload|] eqn:Hj; [|by intros [= <- <-]].
  destruct io; intros [= <- <-]; cbn [bs_records]; [|by split..].
  rewrite last_snoc. cbn [default from_option]. split_and!; [done|done|done|by eexists|done].
Qed.

(** The record [produce_block] appends. *)
Definition next_record (s : ValidatorState) (now_ms : Z) : BlockRecord :=
  let txs := (drain (v_mempool s) MAX_TXS_PER_BLOCK).2 in
  let sched := schedule (enqueue_batch default_solana txs) in
  let '(e, ec, _) := run_batches threads (length (batches sched)) sched (v_executor s) 0 0 in
  record_new (head_hash (bs_records (v_ledger s))) (v_current_slot s) (v_block_height s)
    (current_hash (v_poh s)) ec (compute_state_root (ex_db e) (keys_of (ex_db e))) txs now_ms.

(** When that record fits a frame and the write succeeds, the block is handed
    out. *)
Lemma produce_block_out s now : v_last_produced_slot s <> Some (v_current_slot s) ->
  frame_fits (next_record s now) ->
  let '(s', out) := produce_block threads keys_of s now Written in
  exists block, out = Some (v_current_slot s, block) /\ to_vec (next_record s now) = Some block /\
    bs_records (v_ledger s') = bs_records (v_ledger s) ++ [next_record s now] /\
    append_record (v_ledger s) (next_record s now) Written = (v_ledger s', Ok tt).
Proof.
  intros Hd [_ Hfit]. unfold produce_block. rewrite bool_decide_eq_false_2 by done. unfold next_record in *.
  destruct (drain (v_mempool s) MAX_TXS_PER_BLOCK) as [pool txs]. cbn [snd] in *.
  destruct (run_batches _ _ _ _ _ _) as [[e ec] ok].
  destruct (append_block _ _ _ _ _ _ _ _ _) as [ledger appended] eqn:Happ. pose proof Happ as Hcases.
  apply append_block_cases in Hcases. cbv zeta in Hcases. set (r := record_new _ _ _ _ _ _ _ _) in *.
  destruct (to_vec r) as [block|] eqn:Hb; [|done]. exists block. destruct appended as [r'|err].
  - destruct Hcases as (-> & Hrec & _ & _ & Ha). cbn [v_ledger]. rewrite Hb. by split_and!.
  - exfalso. revert Happ. unfold append_block, append_record. cbv zeta. fold r.
    assert (Hv : verify_hash r = true) by (by apply bool_decide_eq_true_2).
    rewrite Hv, bool_decide_eq_true_2, Hb by done. cbn [negb]. by intros [=].
Qed.

Lemma produce_executor s now io : v_last_produced_slot s <> Some (v_current_slot s) ->
  let sched := schedule (enqueue_batch default_solana (drain (v_mempool s) MAX_TXS_PER_BLOCK).2) in
  v_executor (produce_block threads keys_of s now io).1 =
    (run_batches threads (length (batches sched)) sched (v_executor s) 0 0).1.1.
Proof.
  intros Hd. cbv zeta. unfold produce_block. rewrite bool_decide_eq_false_2 by done.
  destruct (drain _ _) as [pool txs]. cbn [snd].
  destruct (run_batches _ _ _ _ _ _) as [[e ec] ok]. by destruct (append_block _ _ _ _ _ _ _ _ _).
Qed.

(** What the record of the next block holds. *)
Lemma next_record_fields s now : db_wf (ex_db (v_executor s)) ->
  Forall tx_ok (drain (v_mempool s) MAX_TXS_PER_BLOCK).2 ->
  let txs := (drain (v_mempool s) MAX_TXS_PER_BLOCK).2 in
  let sched := schedule (enqueue_batch default_solana txs) in
  let e := (run_batches threads (length (batches sched)) sched (v_executor s) 0 0).1.1 in
  let r := next_record s now in
  br_parent_hash r = head_hash (bs_records (v_ledger s)) /\ verify_hash r = true /\
  br_slot r = v_current_slot s /\ br_height r = v_block_height s /\ br_poh_hash r = current_hash (v_poh s) /\
  br_transactions r = txs /\ br_state_root r = root_of (view (ex_db e)).
Proof.
  intros Hwf Htxs. cbv zeta. unfold next_record. set (txs := (drain (v_mempool s) MAX_TXS_PER_BLOCK).2) in *.
  set (sched := schedule (enqueue_batch default_solana txs)).
  destruct (run_batches_sequence (length (batches sched)) sched (v_executor s) 0 0) as (order & Ho & Hrun); [done|].
  pose proof (schedule_all txs) as Hall. fold sched in Hall. rewrite Hall in Ho.
  destruct (run_batches threads _ sched (v_executor s) 0 0) as [[e ec] ok]. cbn [fst] in *.
  destruct (execute_sequence_books (v_executor s) order Hwf) as [Hwf' _]; [by rewrite Ho|]. rewrite <- Hrun in Hwf'.
  split_and!; try done; [by apply bool_decide_eq_true_2|]. cbn [record_new br_state_root]. by apply state_root_view.
Qed.

(** What producing a block in a fresh slot does. *)
Lemma produce_fresh s now io :
  db_wf (ex_db (v_executor s)) -> pool_ok (v_mempool s) ->
  Forall tx_ok (drain (v_mempool s) MAX_TXS_PER_BLOCK).2 ->
  v_last_produced_slot s <> Some (v_current_slot s) ->
  let '(s', out) := produce_block threads keys_of s now io in
  let txs := (drain (v_mempool s) MAX_TXS_PER_BLOCK).2 in
  db_wf (ex_db (v_executor s')) /\ pool_ok (v_mempool s') /\
  (length txs <= 128)%nat /\ length txs = Nat.min 128 (pool_len (v_mempool s)) /\
  (exists order, order ≡ₚ txs /\ v_executor s' = (execute_sequence (v_executor s) order).1) /\
  (Forall declares_writes txs -> token_inv (view (ex_db (v_executor s))) ->
     token_inv (view (ex_db (v_executor s')))) /\
  v_current_slot s' = v_current_slot s /\ v_poh s' = v_poh s /\
  v_block_height s' = wrap64 (v_block_height s + 1) /\
  v_last_produced_slot s' = Some (v_current_slot s) /\
  match out with
  | Some (slot, block) =>
      exists r, slot = v_current_slot s /\ to_vec r = Some block /\
        bs_records (v_ledger s') = bs_records (v_ledger s) ++ [r] /\
        br_parent_hash r = head_hash (bs_records (v_ledger s)) /\ verify_hash r = true /\
        br_slot r = v_current_slot s /\ br_height r = v_block_height s /\
        br_transactions r = txs /\ br_state_root r = root_of (view (ex_db (v_executor s')))
  | None => bs_records (v_ledger s') = bs_records (v_ledger s)
  end.
Proof.
  intros Hwf Hpool Htxs Hd. unfold produce_block. rewrite bool_decide_eq_false_2 by done. clear Hd.
  pose proof (drain_cases (v_mempool s) MAX_TXS_PER_BLOCK Hpool) as Hd.
  destruct (drain (v_mempool s) MAX_TXS_PER_BLOCK) as [pool txs]. cbn [snd] in *.
  destruct Hd as (Hpool' & _ & _ & Hlen & _). unfold MAX_TXS_PER_BLOCK in Hlen.
  set (sched := schedule (enqueue_batch default_solana txs)).
  destruct (run_batches_sequence (length (batches sched)) sched (v_executor s) 0 0) as (order & Ho & Hrun);
    [done|]. pose proof (schedule_all txs) as Hall. fold sched in Hall. rewrite Hall in Ho.
  destruct (run_batches threads _ sched (v_executor s) 0 0) as [[e ec] ok]. cbn [fst] in Hrun.
  destruct (append_block _ _ _ _ _ _ _ _ _) as [ledger appended] eqn:Happ.
  apply append_block_cases in Happ. cbv zeta in Happ.
  destruct (execute_sequence_books (v_executor s) order Hwf) as [Hwf' Hinv]; [by rewrite Ho|].
  rewrite <- Hrun in *. cbn [v_executor v_mempool v_current_slot v_poh v_block_height v_last_produced_slot v_ledger].
  split_and!; [done|done|lia|done|by exists order| |done..|].
  { intros Hdecl Ht. apply Hinv; [by rewrite Ho|done]. }
  destruct appended as [r|err]; [|apply Happ].
  destruct Happ as (-> & Hrec & Hv & [block Hb] & _). rewrite Hb. cbn [fmap option_fmap option_map].
  eexists. split_and!; [done|exact Hb|exact Hrec|done|exact Hv|done..|].
  cbn [record_new br_state_root]. by apply state_root_view.
Qed.

(** What becomes of the record. *)
Lemma produce_outcome s now io : v_last_produced_slot s <> Some (v_current_slot s) ->
  let '(s', out) := produce_block threads keys_of s now io in
  v_mempool s' = (drain (v_mempool s) MAX_TXS_PER_BLOCK).1 /\
  match io, to_vec (next_record s now) with
  | Written, Some block => out = Some (v_current_slot s, block) /\
      bs_records (v_ledger s') = bs_records (v_ledger s) ++ [next_record s now]
  | _, _ => out = None /\ bs_records (v_ledger s') = bs_records (v_ledger s)
  end.
Proof.
  intros Hd. unfold produce_block. rewrite bool_decide_eq_false_2 by done. unfold next_record.
  destruct (drain (v_mempool s) MAX_TXS_PER_BLOCK) as [pool txs]. cbn [fst snd].
  destruct (run_batches _ _ _ _ _ _) as [[e ec] ok]. unfold append_block, append_record. cbv zeta.
  set (r := record_new _ _ _ _ _ _ _ _).
  assert (Hv : verify_hash r = true) by (by apply bool_decide_eq_true_2).
  rewrite Hv, bool_decide_eq_true_2 by done. cbn [negb].
  destruct (to_vec r) as [block|] eqn:Hb; destruct io; cbn [v_mempool v_ledger bs_records]; try done.
  rewrite last_snoc. cbn [default from_option]. unfold id. by rewrite Hb.
Qed.

(** C9. Producing a block.  A second call in a slot does nothing.  Otherwise
    the at most 128 most valuable pending transactions (highest fee first,
    then arrival) leave the mempool and nothing else does; each of them is
    executed exactly once, batch by batch in whatever order the threads of a
    batch run; the token invariant survives if they declare what they write;
    clock and slot stay, the height advances and the slot is marked.  The
    record of the block extends the chain, lists the drained transactions in
    drain order and commits to the root of exactly the accounts the execution
    left; it is appended and handed out for propagation exactly when it can be
    encoded and the write succeeds, and otherwise the ledger's blocks are
    unchanged and nothing is handed out. *)
Theorem produce_block_spec s now io :
  db_wf (ex_db (v_executor s)) -> pool_ok (v_mempool s) ->
  Forall tx_ok (drain (v_mempool s) MAX_TXS_PER_BLOCK).2 ->
  let '(s', out) := produce_block threads keys_of s now io in
  if bool_decide (v_last_produced_slot s = Some (v_current_slot s)) then s' = s /\ out = None
  else exists (taken : list (Z * MempoolEntry)) order r,
    let left_behind := map_to_list (by_seq (inner (v_mempool s'))) in
    let txs := me_tx <$> taken.*2 in
    length taken = Nat.min 128 (pool_len (v_mempool s)) /\
    taken ++ left_behind ≡ₚ map_to_list (by_seq (inner (v_mempool s))) /\
    StronglySorted goes_first taken /\ (forall a b, a ∈ taken -> b ∈ left_behind -> goes_first a b) /\
    pool_ok (v_mempool s') /\
    order ≡ₚ txs /\ v_executor s' = (execute_sequence (v_executor s) order).1 /\ db_wf (ex_db (v_executor s')) /\
    (Forall declares_writes txs -> token_inv (view (ex_db (v_executor s))) ->
       token_inv (view (ex_db (v_executor s')))) /\
    v_current_slot s' = v_current_slot s /\ v_poh s' = v_poh s /\
    v_block_height s' = wrap64 (v_block_height s + 1) /\
    v_last_produced_slot s' = Some (v_current_slot s) /\
    br_parent_hash r = head_hash (bs_records (v_ledger s)) /\ verify_hash r = true /\
    br_slot r = v_current_slot s /\ br_height r = v_block_height s /\ br_poh_hash r = current_hash (v_poh s) /\
    br_transactions r = txs /\ br_state_root r = root_of (view (ex_db (v_executor s'))) /\
    match io, to_vec r with
    | Written, Some block =>
        out = Some (v_current_slot s, block) /\ bs_records (v_ledger s') = bs_records (v_ledger s) ++ [r]
    | _, _ => out = None /\ bs_records (v_ledger s') = bs_records (v_ledger s)
    end.
Proof.
  intros Hwf Hpool Htxs. pose proof (produce_fresh s now io Hwf Hpool Htxs) as Hf.
  pose proof (produce_outcome s now io) as Ho. pose proof (drain_cases _ MAX_TXS_PER_BLOCK Hpool) as Hdr.
  destruct (decide (v_last_produced_slot s = Some (v_current_slot s))) as [Hd|Hd].
  { unfold produce_block. by rewrite !bool_decide_eq_true_2. }
  specialize (Hf Hd). specialize (Ho Hd). pose proof (next_record_fields s now Hwf Htxs) as Hr.
  pose proof (produce_executor s now io Hd) as He.
  destruct (produce_block threads keys_of s now io) as [s' out]. rewrite bool_decide_eq_false_2 by done. cbn [fst] in He.
  destruct Ho as [Hm Ho], Hf as (F1 & F2 & _ & F4 & (order & F5 & F6) & F7 & F8 & F9 & F10 & F11 & _).
  destruct (drain (v_mempool s) MAX_TXS_PER_BLOCK) as [pool txs]. cbn [fst snd] in *. subst pool.
  destruct Hdr as (_ & _ & _ & _ & es & -> & D1 & D2 & D3). rewrite !length_fmap in F4. rewrite <- He in Hr.
  exists es, order, (next_record s now). cbv zeta. destruct_and! Hr. split_and!; done.
Qed.

(** ** The life of a node *)

Definition set_mempool (s : ValidatorState) (p : Mempool) : ValidatorState :=
  mkValidator (v_poh s) (v_executor s) p (v_tower s) (v_leader_schedule s) (v_current_slot s)
    (v_tick_height s) (v_block_height s) (v_identity s) (v_last_produced_slot s) (v_ledger s).

(** Ticks of the clock, transactions arriving, blocks produced (whose encoding
    fits a frame), and restarts: the process dies at any point, its ledger file
    possibly cut inside the last write, and starts again with whatever accounts
    and validator set it finds. *)
Inductive vstep : ValidatorState -> ValidatorState -> Prop :=
| VTick s : v_current_slot s < U64_MAX -> vstep s (process_tick s)
| VSubmit s tx now : vstep s (set_mempool s (Mempool.insert (v_mempool s) tx now).1)
| VProduce s now s' out :
    v_current_slot s < U64_MAX -> produce_block threads keys_of s now Written = (s', out) ->
    (forall r, last_block (v_ledger s') = Some r -> frame_fits r) -> vstep s s'
| VRestart s n identity accounts pool validators s' :
    v_current_slot s < U64_MAX ->
    validator_new identity (take n (bs_file (v_ledger s))) accounts pool validators = Some s' ->
    vstep s s'.

(** Slots and heights of a ledger, oldest first. *)
Definition ascending (f : BlockRecord -> Z) (rs : list BlockRecord) : Prop :=
  StronglySorted Z.lt (f <$> rs).

Record vinv (s : ValidatorState) : Prop := {
  vi_ledger : ledger_ok (v_ledger s);
  vi_slots : ascending br_slot (bs_records (v_ledger s));
  vi_heights : ascending br_height (bs_records (v_ledger s));
  vi_slot : 0 <= v_current_slot s <= U64_MAX;
  vi_height : 0 <= v_block_height s <= v_current_slot s +
                (if bool_decide (v_last_produced_slot s = Some (v_current_slot s)) then 1 else 0);
  vi_bounds : Forall (fun r => 0 <= br_height r <= br_slot r /\ br_height r < v_block_height s /\
    (br_slot r < v_current_slot s \/
     br_slot r = v_current_slot s /\ v_last_produced_slot s = Some (v_current_slot s)))
    (bs_records (v_ledger s))
}.

Lemma ascending_snoc f rs r :
  ascending f rs -> Forall (fun x => f x < f r) rs -> ascending f (rs ++ [r]).
Proof.
  unfold ascending. intros Hs Hall. rewrite fmap_app. apply StronglySorted_app_2; [|done|repeat constructor].
  intros x y (a & -> & Ha)%list_elem_of_fmap Hy. apply list_elem_of_singleton in Hy as ->.
  rewrite Forall_forall in Hall. by apply Hall.
Qed.

Lemma ascending_prefix f rs rs' : rs `prefix_of` rs' -> ascending f rs' -> ascending f rs.
Proof. intros [k ->]. unfold ascending. rewrite fmap_app. apply StronglySorted_app_1_l. Qed.

Lemma ascending_last f rs r : ascending f (rs ++ [r]) -> Forall (fun x => f x < f r) rs.
Proof.
  unfold ascending. rewrite fmap_app. intros Hs. apply Forall_forall. intros x Hx.
  eapply StronglySorted_app_1_elem_of; [exact Hs|apply list_elem_of_fmap; by eexists|].
  by apply list_elem_of_singleton.
Qed.

Lemma vinv_tick s : vinv s -> v_current_slot s < U64_MAX -> vinv (process_tick s).
Proof.
  intros [Hl Hs Hh Hslot Hheight Hb] Hlt. unfold process_tick.
  destruct (TICKS_PER_SLOT <=? _); [|by constructor].
  unfold advance_slot. cbn [v_current_slot].
  assert (E : wrap64 (v_current_slot s + 1) = v_current_slot s + 1)
    by (apply wrap64_id; u64_unfold; lia).
  constructor; cbn [v_ledger v_current_slot v_block_height v_last_produced_slot]; rewrite ?E;
    [done..|lia| |].
  - repeat case_bool_decide; lia.
  - eapply Forall_impl; [exact Hb|]. intros r (? & ? & Hr). split; [done|]. split; [done|]. left. lia.
Qed.

Lemma vinv_produce s now s' out : vinv s -> v_current_slot s < U64_MAX ->
  produce_block threads keys_of s now Written = (s', out) ->
  (forall r, last_block (v_ledger s') = Some r -> frame_fits r) -> vinv s'.
Proof.
  intros [Hl Hs Hh Hslot Hheight Hb] Hlt Hp Hfit. unfold produce_block in Hp.
  case_bool_decide as Hdup.
  { injection Hp as <- _. constructor; [done..| |done]. by rewrite bool_decide_eq_true_2. }
  destruct (drain _ _) as [pool txs]. destruct (run_batches _ _ _ _ _ _) as [[e ec] ok].
  destruct (append_block _ _ _ _ _ _ _ _ _) as [ledger appended] eqn:Happ.
  injection Hp as <- _. cbn [v_ledger] in Hfit. apply append_block_cases in Happ. cbv zeta in Happ.
  set (r := record_new _ _ _ _ _ _ _ _) in *.
  assert (E : wrap64 (v_block_height s + 1) = v_block_height s + 1).
  { apply wrap64_id. u64_unfold. lia. }
  assert (Hb' : Forall (fun x => 0 <= br_height x <= br_slot x /\ br_height x < v_block_height s /\
                                 br_slot x < v_current_slot s) (bs_records (v_ledger s))).
  { eapply Forall_impl; [exact Hb|]. intros x (? & ? & [?|[? ?]]); [done|by destruct Hdup]. }
  assert (Hcase : ledger_ok ledger /\ (bs_records ledger = bs_records (v_ledger s) ++ [r] \/
                    bs_records ledger = bs_records (v_ledger s))).
  { destruct appended as [r'|err].
    - destruct Happ as (_ & Hrec & _ & _ & Happ). split; [|by left].
      eapply append_record_ok; [exact Hl| |exact Happ]. apply Hfit. unfold last_block.
      by rewrite Hrec, last_snoc.
    - destruct Happ as [_ ->]; [|done]. split; [done|by right]. }
  destruct Hcase as [Hok Hrec].
  assert (Hkeep : Forall (fun x => 0 <= br_height x <= br_slot x /\ br_height x < v_block_height s + 1 /\
    (br_slot x < v_current_slot s \/ br_slot x = v_current_slot s /\ Some (v_current_slot s) = Some (v_current_slot s)))
    (bs_records (v_ledger s))).
  { eapply Forall_impl; [exact Hb'|]. simpl. intros x (? & ? & ?). split; [done|]. split; [lia|by left]. }
  constructor; cbn [v_ledger v_current_slot v_block_height v_last_produced_slot]; rewrite ?E;
    [done| | |done|rewrite bool_decide_eq_true_2 by done; lia|].
  - destruct Hrec as [-> | ->]; [|done]. apply ascending_snoc; [done|].
    eapply Forall_impl; [exact Hb'|]. simpl. tauto.
  - destruct Hrec as [-> | ->]; [|done]. apply ascending_snoc; [done|].
    eapply Forall_impl; [exact Hb'|]. simpl. tauto.
  - destruct Hrec as [-> | ->]; [|done]. apply Forall_app. split; [done|]. constructor; [|constructor].
    cbn [r record_new br_height br_slot]. split; [lia|]. split; [lia|by right].
Qed.

Lemma vinv_restart s n identity accounts pool validators s' : vinv s -> v_current_slot s < U64_MAX ->
  validator_new identity (take n (bs_file (v_ledger s))) accounts pool validators = Some s' -> vinv s'.
Proof.
  intros [Hl Hs Hh Hslot Hheight Hb] Hlt. unfold validator_new.
  destruct (leader_new _ _ _) as [ls|]; [|done]. cbn [mbind option_bind].
  set (led := open_ledger (take n (bs_file (v_ledger s)))).
  assert (Hpre : bs_records led `prefix_of` bs_records (v_ledger s)) by (by apply cut_ledger_prefix).
  assert (Hok : ledger_ok led) by apply open_ledger_ok.
  pose proof (ascending_prefix _ _ _ Hpre Hs) as Hs'. pose proof (ascending_prefix _ _ _ Hpre Hh) as Hh'.
  assert (Hb' : Forall (fun r => 0 <= br_height r /\ br_height r <= br_slot r < U64_MAX) (bs_records led)).
  { destruct Hpre as [k Hk]. rewrite Hk in Hb. apply Forall_app in Hb as [Hb _].
    eapply Forall_impl; [exact Hb|]. simpl. intros r (? & ? & ?). lia. }
  unfold last_block. destruct (last (bs_records led)) as [r|] eqn:Hlast.
  - apply last_Some in Hlast as [rs Hrs]. rewrite Hrs in *.
    pose proof (ascending_last _ _ _ Hs') as Hs1. pose proof (ascending_last _ _ _ Hh') as Hh1.
    apply Forall_app in Hb' as [Hb1 Hr]. apply Forall_cons in Hr as [[Hr0 [Hr1 Hr2]] _].
    rewrite !wrap64_id by (u64_unfold; lia). intros [= <-].
    constructor; cbn [v_ledger v_current_slot v_block_height v_last_produced_slot]; rewrite ?Hrs;
      [done..|lia|rewrite bool_decide_eq_false_2 by done; lia|].
    apply Forall_app. split.
    + rewrite Forall_forall in *. intros x Hx. specialize (Hb1 x Hx). specialize (Hs1 x Hx).
      specialize (Hh1 x Hx). simpl in *. split; [lia|]. split; [lia|left; lia].
    + constructor; [|constructor]. split; [lia|]. split; [lia|left; lia].
  - apply last_None in Hlast. intros [= <-].
    constructor; cbn [v_ledger v_current_slot v_block_height v_last_produced_slot]; rewrite ?Hlast;
      [done|constructor|constructor|u64_unfold; lia|rewrite bool_decide_eq_false_2 by done; lia|constructor].
Qed.

Lemma vinv_step s s' : vinv s -> vstep s s' -> vinv s'.
Proof.
  intros Hinv Hstep. destruct Hstep.
  - by apply vinv_tick.
  - destruct Hinv. by constructor.
  - by eapply vinv_produce.
  - by eapply vinv_restart.
Qed.

Lemma vinv_new identity accounts pool validators s :
  validator_new identity [] accounts pool validators = Some s -> vinv s.
Proof.
  unfold validator_new. destruct (leader_new _ _ _); [|done]. cbn [mbind option_bind]. intros [= <-].
  constructor; cbn [v_ledger v_current_slot v_block_height v_last_produced_slot].
  - apply open_ledger_ok.
  - constructor.
  - constructor.
  - u64_unfold. lia.
  - rewrite bool_decide_eq_false_2 by done. lia.
  - constructor.
Qed.

(** C13. At most one block per slot, for ever: however ticks, submissions,
    block production and restarts (with the ledger file cut at any byte by the
    crash) interleave from a fresh ledger, as long as the ledger writes
    succeed, the blocks fit a frame and the slot counter stays below its
    64-bit limit, the ledger of the node is one hash chain from the genesis
    parent whose slots and heights strictly increase, and its file reopens to
    exactly that ledger. *)
Theorem one_block_per_slot identity accounts pool validators s0 s :
  validator_new identity [] accounts pool validators = Some s0 -> rtc vstep s0 s ->
  let records := bs_records (v_ledger s) in
  ascending br_slot records /\ ascending br_height records /\ chained GENESIS_PARENT records /\
  open_ledger (bs_file (v_ledger s)) = v_ledger s.
Proof.
  intros Hnew Hsteps. assert (Hinv : vinv s).
  { apply vinv_new in Hnew. induction Hsteps as [|s1 s2 s3 Hstep _ IH]; [done|].
    apply IH. by eapply vinv_step. }
  destruct Hinv as [Hl Hs Hh _ _ _]. split_and!; [done|done|apply Hl|by apply reopen_ok].
Qed.
End Production.

(** ** Recorded order and execution order *)

Module Reorder.
Import Toy Examples.

Definition eve : bytes := toy_pk 8.
Definition dave : bytes := fill32 12.

Definition transfer (key : Z) (src dst : bytes) (n : Z) : Transaction :=
  tx_sign (mkTx [] src [src; dst] [sys_ix [payer; mkTxMeta 1 false true] (SystemInstruction.Transfer n)]
             (fill32 0) 200000 5000) (key : @SigningKey toy_ed25519).

(** alice pays bob, alice pays eve, eve passes it on to dave. *)
Definition block_txs : list Transaction :=
  [transfer 7 alice bob 1000; transfer 7 alice eve 1000; transfer 8 eve dave 1000].

Definition funds : Executor (gmap bytes Account) :=
  executor_new {[ alice := new_system_account alice 100000; eve := new_system_account eve 5000 ]}.

(** The scheduler defers the second transaction (it conflicts with the first)
    but not the third, which conflicts with the second only: conflicting
    transactions are executed in the opposite of the order the block records,
    with a different outcome. *)
Lemma scheduler_reorders_conflicts :
  let order := mjoin (batch_transactions <$> batches (schedule (enqueue_batch default_solana block_txs))) in
  order = [transfer 7 alice bob 1000; transfer 8 eve dave 1000; transfer 7 alice eve 1000] /\
  balance (ex_db (execute_sequence funds order).1) dave = 0 /\
  balance (ex_db (execute_sequence funds block_txs).1) dave = 1000.
Proof. vm_compute. repeat split. Qed.
End Reorder.
