(* ===== verification/Replica.v ===== *)
(** * Replicas agree

    src/validator/src/genesis.rs promises that two validators booted from the
    same genesis and fed the same transactions derive the same state roots and
    block hashes.  The two may differ in how their databases store the
    accounts, in the order their threads run, in the iteration order of their
    hash maps and in their clocks, as long as the same pending transactions have
    expired on both when one arrives. *)

From S2P Require Import Prelude Crypto Account Store AccountsDB Merkle Instruction Processor Transaction Scheduler Executor Serial Mempool Poh Leader Blockstore Validator.
From stdpp Require Import list.
Open Scope Z_scope.

(** ** Pools up to arrival times *)

Section PoolClocks.
Context `{Sha : Sha256} `{Ed : Ed25519}.

Definition untime (e : MempoolEntry) : MempoolEntry := mkEntry (me_hash e) (me_tx e) (me_fee e) 0.
Definition untimed_inner (i : Inner) : Inner := mkInner (by_hash i) (untime <$> by_seq i) (next_seq i).
(** A pool without the clock readings of its entries. *)
Definition untimed_pool (p : Mempool) : Mempool :=
  mkMempool (untimed_inner (inner p)) (config p) (total_accepted p) (total_rejected p) (total_evicted p) (total_expired p).

(** The sequence numbers of the entries that have expired. *)
Definition stale_seqs (p : Mempool) (now : Z) : list Z :=
  (filter (fun '(_, e) => max_age_ms (config p) < age_ms e now) (seq_iter (inner p))).*1.

Lemma untimed_idem p : untimed_pool (untimed_pool p) = untimed_pool p.
Proof.
  destruct p as [[bh bs ns] c a r e x]. unfold untimed_pool, untimed_inner. cbn. do 2 f_equal.
  rewrite <- map_fmap_compose. by apply map_fmap_ext.
Qed.

Lemma seq_iter_untimed i : seq_iter (untimed_inner i) = prod_map id untime <$> seq_iter i.
Proof. unfold seq_iter. cbn [untimed_inner by_seq]. rewrite map_to_list_fmap. by apply sort_by_fmap. Qed.

Lemma remove_seq_untimed i seq :
  remove_seq (untimed_inner i) seq = (untimed_inner (remove_seq i seq).1, untime <$> (remove_seq i seq).2).
Proof.
  unfold remove_seq. cbn [untimed_inner by_seq]. rewrite lookup_fmap. destruct (by_seq i !! seq) as [e|]; [|done].
  cbn. unfold untimed_inner. cbn. by rewrite fmap_delete.
Qed.

Lemma drain_seqs_untimed i seqs :
  drain_seqs (untimed_inner i) seqs = (untimed_inner (drain_seqs i seqs).1, (drain_seqs i seqs).2).
Proof.
  revert i. induction seqs as [|seq seqs IH]; intros i; [done|]. cbn [drain_seqs]. rewrite remove_seq_untimed.
  destruct (remove_seq i seq) as [i1 o]. cbn [fst snd]. rewrite IH. destruct (drain_seqs i1 seqs) as [i2 out]. by destruct o.
Qed.

(** Draining does not read the clock. *)
Lemma drain_untimed p limit : drain (untimed_pool p) limit = (untimed_pool (drain p limit).1, (drain p limit).2).
Proof.
  unfold drain. cbn [untimed_pool inner]. rewrite seq_iter_untimed. cbn [untimed_inner by_seq]. rewrite map_size_fmap.
  destruct (_ || _); [done|]. rewrite <- list_fmap_compose.
  assert (E : ((fun '(seq, e) => (me_fee e, seq)) ∘ prod_map id untime) <$> seq_iter (inner p) =
    (fun '(seq, e) => (me_fee e, seq)) <$> seq_iter (inner p)) by (apply list_fmap_ext; by intros ? [seq e]).
  rewrite E. set (l := sort_by drain_le _). rewrite drain_seqs_untimed. by destruct (drain_seqs (inner p) _).
Qed.

Lemma min_by_fmap {A B} (f : A -> B) (leA : A -> A -> bool) (leB : B -> B -> bool) l :
  (forall x y, leB (f x) (f y) = leA x y) -> min_by leB (f <$> l) = f <$> min_by leA l.
Proof.
  intros Hf. destruct l as [|x l]; [done|]. cbn. f_equal. revert x.
  induction l as [|y l IH]; intros x; [done|]. cbn. rewrite Hf. destruct (leA x y); apply IH.
Qed.

(** The part of [insert] after the expiry. *)
Definition insert_rest (p : Mempool) (tx : Transaction) (now : Z) : Mempool :=
  if (max_size (config p) <=? size (by_seq (inner p)))%nat then
    match min_by cheaper (seq_iter (inner p)) with
    | Some (seq, victim) =>
        if me_fee victim <? tx_fee tx
        then admit_tx (count_evicted (set_inner p (remove_seq (inner p) seq).1)) tx now
        else count_rejected p
    | None => count_rejected p
    end
  else admit_tx p tx now.

Lemma insert_split p tx now : (Mempool.insert p tx now).1 =
  if negb (verify_signature tx) || (tx_fee tx <? min_fee (config p)) || bool_decide (is_Some (by_hash (inner p) !! tx_hash tx))
  then count_rejected p else insert_rest (expire_locked p now).1 tx now.
Proof.
  unfold Mempool.insert, insert_rest. destruct (negb (verify_signature tx)); [done|]. destruct (_ <? _); [done|].
  destruct (bool_decide _); [done|]. cbn [orb]. destruct (expire_locked p now) as [q n]. cbn [fst].
  destruct (_ <=? _)%nat; [|done]. destruct (min_by _ _) as [[seq victim]|]; [|done]. by destruct (_ <? _).
Qed.

Lemma admit_untimed p tx now : untimed_pool (admit_tx p tx now) = untimed_pool (admit_tx (untimed_pool p) tx 0).
Proof.
  unfold admit_tx, untimed_pool, untimed_inner. cbn. rewrite !fmap_insert. do 3 f_equal.
  rewrite <- map_fmap_compose. by apply map_fmap_ext.
Qed.

Lemma insert_rest_untimed p tx now : untimed_pool (insert_rest p tx now) = untimed_pool (insert_rest (untimed_pool p) tx 0).
Proof.
  unfold insert_rest. cbn [untimed_pool config inner untimed_inner by_seq]. rewrite map_size_fmap.
  destruct (_ <=? _)%nat; [|apply admit_untimed].
  fold (untimed_inner (inner p)). rewrite seq_iter_untimed, (min_by_fmap _ cheaper) by (by intros [] []).
  destruct (min_by cheaper _) as [[seq victim]|]; cbn [fmap option_fmap option_map prod_map fst snd].
  2: { unfold count_rejected. symmetry. exact (untimed_idem (count_rejected p)). }
  cbn [untime me_fee id]. destruct (_ <? _); [|symmetry; exact (untimed_idem (count_rejected p))].
  rewrite admit_untimed. f_equal. f_equal. unfold count_evicted, set_inner, untimed_pool. cbn.
  by rewrite remove_seq_untimed.
Qed.

Lemma expire_untimed p1 p2 now1 now2 : untimed_pool p1 = untimed_pool p2 -> stale_seqs p1 now1 = stale_seqs p2 now2 ->
  untimed_pool (expire_locked p1 now1).1 = untimed_pool (expire_locked p2 now2).1.
Proof.
  intros E Hs.
  assert (H : forall p now, untimed_pool (expire_locked p now).1 =
    mkMempool (foldl (fun i seq => (remove_seq i seq).1) (untimed_inner (inner p)) (stale_seqs p now)) (config p)
      (total_accepted p) (total_rejected p) (total_evicted p)
      (if (0 <? length (stale_seqs p now))%nat then wrap64 (total_expired p + Z.of_nat (length (stale_seqs p now)))
       else total_expired p)).
  { intros p now. unfold expire_locked, stale_seqs, untimed_pool. cbn. rewrite length_fmap. f_equal.
    generalize (inner p) at 1 3 as i. induction (filter _ _) as [|[seq e] l IH]; intros i; [done|]. cbn.
    rewrite remove_seq_untimed. apply IH. }
  rewrite !H, Hs. unfold untimed_pool in E. injection E as E1 E2 E3 E4 E5 E6 E7 E8.
  unfold untimed_inner. by rewrite E1, E2, E3, E4, E5, E6, E7, E8.
Qed.

(** Nor does admitting a transaction, once the same entries have expired. *)
Lemma insert_untimed p1 p2 tx now1 now2 : untimed_pool p1 = untimed_pool p2 -> stale_seqs p1 now1 = stale_seqs p2 now2 ->
  untimed_pool (Mempool.insert p1 tx now1).1 = untimed_pool (Mempool.insert p2 tx now2).1.
Proof.
  intros E Hs. pose proof (expire_untimed p1 p2 now1 now2 E Hs) as He. rewrite !insert_split.
  assert (Ec : config p1 = config p2) by exact (f_equal config E).
  assert (Eh : by_hash (inner p1) = by_hash (inner p2)) by exact (f_equal (fun p => by_hash (inner p)) E).
  rewrite Ec, Eh. destruct (_ || _).
  - pose proof (f_equal count_rejected E) as Er. exact Er.
  - by rewrite (insert_rest_untimed _ tx now1), He, <- (insert_rest_untimed _ tx now2).
Qed.
End PoolClocks.

(** ** The replicas *)

Section Replica.
Context `{Sha : Sha256} `{Ed : Ed25519} `{Ser : !Serde Account account_ok}
  `{Json : !Serde BlockRecord record_ok}.
Context (threads1 threads2 : ExecutionBatch -> list Transaction) (keys1 keys2 : AccountsDB -> list bytes).
Context (threads1_perm : forall b, threads1 b ≡ₚ batch_transactions b)
        (threads2_perm : forall b, threads2 b ≡ₚ batch_transactions b)
        (keys1_iterate : forall db, iteration_of db (keys1 db))
        (keys2_iterate : forall db, iteration_of db (keys2 db)).

(** The batch loop, on two executors with the same accounts. *)
Lemma run_batches_same fuel sched e1 e2 ec1 ok1 ok2 :
  same_accounts e1 e2 ->
  Forall (fun b => Forall fully_declared (batch_transactions b) /\ parallel (batch_transactions b)) (batches sched) ->
  let '(e1', c1, _) := run_batches threads1 fuel sched e1 ec1 ok1 in
  let '(e2', c2, _) := run_batches threads2 fuel sched e2 ec1 ok2 in
  same_accounts e1' e2' /\ c1 = c2.
Proof.
  revert sched e1 e2 ec1 ok1 ok2. induction fuel as [|fuel IH]; intros sched e1 e2 ec ok1 ok2 Hs Hb; [done|].
  cbn [run_batches]. destruct (batches sched) as [|b bs] eqn:E.
  { unfold next_batch. by rewrite E. }
  destruct (next_batch_batches sched b bs E) as (sched' & Hn & Hbs). rewrite Hn.
  apply Forall_cons in Hb as [[Hd Hp] Hb]. rewrite <- Hbs in Hb.
  assert (Hd1 : Forall fully_declared (threads1 b)) by (by rewrite threads1_perm).
  assert (Hi : all_independent (threads1 b)).
  { eapply all_independent_perm; [symmetry; apply threads1_perm|]. by apply parallel_independent. }
  assert (Hperm : threads1 b ≡ₚ threads2 b) by (by rewrite threads1_perm, threads2_perm).
  destruct (sequence_perm _ _ Hperm e1 (proj1 Hs) (fully_declared_writes _ Hd1) Hi) as [(_ & W1 & V1) _].
  destruct (sequence_same e1 e2 (threads2 b) Hs) as [(W2 & W3 & V2) _];
    [apply fully_declared_writes; by rewrite threads2_perm|].
  assert (W0 : db_wf (ex_db (execute_sequence e1 (threads1 b)).1)).
  { apply execute_sequence_books; [apply Hs|]. eapply Forall_impl; [exact Hd1|]. by intros tx (? & _). }
  destruct (execute_sequence e1 (threads1 b)) as [e1' r1], (execute_sequence e1 (threads2 b)) as [ex rx],
    (execute_sequence e2 (threads2 b)) as [e2' r2]. cbn [fst] in *.
  apply IH; [|done]. split_and!; [done..|congruence].
Qed.

(** Every batch of a schedule is conflict free. *)
Lemma schedule_batches_parallel txs : Forall fully_declared txs ->
  Forall (fun b => Forall fully_declared (batch_transactions b) /\ parallel (batch_transactions b))
    (batches (schedule (enqueue_batch default_solana txs))).
Proof.
  intros Hd. pose proof (schedule_all txs) as Hall. rewrite <- Hall in Hd. rewrite enqueue_all in *.
  unfold schedule in *. cbn [pending batches default_solana scheduler_new app] in *.
  edestruct (schedule_loop_spec (length txs)) as (new & Hb & _ & Hok & _); [done|]. cbv zeta in *.
  rewrite Hb in *. cbn [batches app] in *. clear Hall Hb.
  induction Hok as [|b bs [_ Hp] _ IH]; [constructor|]. rewrite fmap_cons, mjoin_cons, Forall_app in Hd.
  destruct Hd as [Hd1 Hd2]. constructor; [done|]. by apply IH.
Qed.

(** A record without its wall-clock time. *)
Definition untimed (r : BlockRecord) : BlockRecord :=
  mkRecord (br_slot r) (br_height r) (br_parent_hash r) (br_block_hash r) (br_poh_hash r) (br_state_root r)
    (br_entry_count r) (br_tx_count r) (br_transactions r) 0.

(** Two validators that may produce the same block next. *)
Record twins (s1 s2 : ValidatorState) : Prop := {
  tw_accounts : same_accounts (v_executor s1) (v_executor s2);
  tw_mempool : untimed_pool (v_mempool s1) = untimed_pool (v_mempool s2);
  tw_poh : v_poh s1 = v_poh s2;
  tw_slot : v_current_slot s1 = v_current_slot s2;
  tw_tick : v_tick_height s1 = v_tick_height s2;
  tw_height : v_block_height s1 = v_block_height s2;
  tw_produced : v_last_produced_slot s1 = v_last_produced_slot s2;
  tw_ledger : untimed <$> bs_records (v_ledger s1) = untimed <$> bs_records (v_ledger s2)
}.

Lemma head_hash_untimed rs1 rs2 : untimed <$> rs1 = untimed <$> rs2 -> head_hash rs1 = head_hash rs2.
Proof.
  intros E. unfold head_hash. apply (f_equal last) in E. rewrite !fmap_last in E.
  destruct (last rs1), (last rs2); [|done..]. unfold untimed in E. cbn in *. congruence.
Qed.

Lemma twins_drain s1 s2 : twins s1 s2 ->
  (drain (v_mempool s1) MAX_TXS_PER_BLOCK).2 = (drain (v_mempool s2) MAX_TXS_PER_BLOCK).2 /\
  untimed_pool (drain (v_mempool s1) MAX_TXS_PER_BLOCK).1 = untimed_pool (drain (v_mempool s2) MAX_TXS_PER_BLOCK).1.
Proof.
  intros Ht. pose proof (f_equal (fun p => drain p MAX_TXS_PER_BLOCK) (tw_mempool _ _ Ht)) as E. cbn beta in E.
  rewrite !drain_untimed in E. split; [exact (f_equal snd E)|exact (f_equal fst E)].
Qed.

Lemma twins_record s1 s2 now1 now2 : twins s1 s2 ->
  Forall fully_declared (drain (v_mempool s1) MAX_TXS_PER_BLOCK).2 ->
  untimed (next_record threads1 keys1 s1 now1) = untimed (next_record threads2 keys2 s2 now2).
Proof.
  intros Ht Hd. destruct (twins_drain _ _ Ht) as [Hm _]. destruct Ht as [Ha _ Hp Hs _ Hh _ Hl].
  unfold next_record. rewrite <- Hm, <- Hp, <- Hs, <- Hh.
  rewrite (head_hash_untimed _ _ Hl). pose proof (schedule_batches_parallel _ Hd) as Hb.
  set (txs := (drain (v_mempool s1) MAX_TXS_PER_BLOCK).2) in *.
  set (sched := schedule (enqueue_batch default_solana txs)) in *.
  pose proof (run_batches_same (length (batches sched)) sched _ _ 0 0 0 Ha Hb) as Hr.
  destruct (run_batches threads1 _ sched (v_executor s1) 0 0) as [[e1 c1] o1],
    (run_batches threads2 _ sched (v_executor s2) 0 0) as [[e2 c2] o2].
  destruct Hr as [(W1 & W2 & Hv) ->]. cbn [untimed record_new].
  rewrite (state_root_view _ _ W1 (keys1_iterate _)), (state_root_view _ _ W2 (keys2_iterate _)).
  change (view (ex_db e1) = view (ex_db e2)) in Hv. by rewrite Hv.
Qed.

(** What [produce_block] leaves besides the ledger. *)
Lemma produce_state threads keys s now io : v_last_produced_slot s <> Some (v_current_slot s) ->
  let s' := (produce_block threads keys s now io).1 in
  let sched := schedule (enqueue_batch default_solana (drain (v_mempool s) MAX_TXS_PER_BLOCK).2) in
  v_executor s' = (run_batches threads (length (batches sched)) sched (v_executor s) 0 0).1.1 /\
  v_mempool s' = (drain (v_mempool s) MAX_TXS_PER_BLOCK).1 /\ v_poh s' = v_poh s /\
  v_current_slot s' = v_current_slot s /\ v_tick_height s' = v_tick_height s /\
  v_block_height s' = wrap64 (v_block_height s + 1) /\ v_last_produced_slot s' = Some (v_current_slot s).
Proof.
  intros Hd. cbv zeta. unfold produce_block. rewrite bool_decide_eq_false_2 by done.
  destruct (drain _ _) as [pool txs]. cbn [snd].
  destruct (run_batches _ _ _ _ _ _) as [[e ec] ok]. by destruct (append_block _ _ _ _ _ _ _ _ _).
Qed.

Lemma twins_produce s1 s2 now1 now2 : twins s1 s2 ->
  Forall fully_declared (drain (v_mempool s1) MAX_TXS_PER_BLOCK).2 ->
  frame_fits (next_record threads1 keys1 s1 now1) -> frame_fits (next_record threads2 keys2 s2 now2) ->
  twins (produce_block threads1 keys1 s1 now1 Written).1 (produce_block threads2 keys2 s2 now2 Written).1.
Proof.
  intros Ht Hd F1 F2. destruct (twins_drain _ _ Ht) as [Hm Hm']. pose proof Ht as [Ha _ Hp Hs Htk Hh Hlp Hl].
  destruct (decide (v_last_produced_slot s1 = Some (v_current_slot s1))) as [E|E].
  { unfold produce_block. rewrite (bool_decide_eq_true_2 _ E), bool_decide_eq_true_2 by congruence. done. }
  assert (E2 : v_last_produced_slot s2 <> Some (v_current_slot s2)) by congruence.
  pose proof (twins_record s1 s2 now1 now2 Ht Hd) as Hr.
  pose proof (produce_block_out threads1 keys1 s1 now1 E F1) as O1.
  pose proof (produce_block_out threads2 keys2 s2 now2 E2 F2) as O2.
  destruct (produce_state threads1 keys1 s1 now1 Written E) as (A1 & A2 & A3 & A4 & A5 & A6 & A7).
  destruct (produce_state threads2 keys2 s2 now2 Written E2) as (B1 & B2 & B3 & B4 & B5 & B6 & B7).
  destruct (produce_block threads1 keys1 s1 now1 Written) as [s1' out1],
    (produce_block threads2 keys2 s2 now2 Written) as [s2' out2]. cbn [fst] in *.
  destruct O1 as (b1 & _ & _ & L1 & _), O2 as (b2 & _ & _ & L2 & _).
  constructor; [|congruence..|rewrite L1, L2, !fmap_app; cbn [fmap list_fmap]; by rewrite Hl, Hr].
  rewrite A1, B1, <- Hm. pose proof (schedule_batches_parallel _ Hd) as Hb.
  set (sched := schedule (enqueue_batch default_solana (drain (v_mempool s1) MAX_TXS_PER_BLOCK).2)) in *.
  pose proof (run_batches_same (length (batches sched)) sched _ _ 0 0 0 Ha Hb) as Hrun.
  destruct (run_batches threads1 _ sched (v_executor s1) 0 0) as [[e1 c1] o1],
    (run_batches threads2 _ sched (v_executor s2) 0 0) as [[e2 c2] o2]. apply Hrun.
Qed.

Lemma twins_tick s1 s2 : twins s1 s2 -> twins (process_tick s1) (process_tick s2).
Proof.
  intros [Ha Hm Hp Hs Htk Hh Hlp Hl]. unfold process_tick. rewrite <- Htk, <- Hp.
  destruct (TICKS_PER_SLOT <=? _); [unfold advance_slot|]; constructor; cbn; try done; by rewrite ?Hs.
Qed.

(** Both validators tick, receive the same transaction, or produce a block
    (whose encoding fits a frame and whose ledger write succeeds), each with its
    own clock.  When a transaction arrives the same pending ones have expired. *)
Inductive feed : ValidatorState * ValidatorState -> ValidatorState * ValidatorState -> Prop :=
| FeedTick s1 s2 : feed (s1, s2) (process_tick s1, process_tick s2)
| FeedSubmit s1 s2 tx now1 now2 :
    stale_seqs (v_mempool s1) now1 = stale_seqs (v_mempool s2) now2 ->
    feed (s1, s2) (set_mempool s1 (Mempool.insert (v_mempool s1) tx now1).1,
                   set_mempool s2 (Mempool.insert (v_mempool s2) tx now2).1)
| FeedProduce s1 s2 now1 now2 :
    Forall fully_declared (drain (v_mempool s1) MAX_TXS_PER_BLOCK).2 ->
    frame_fits (next_record threads1 keys1 s1 now1) -> frame_fits (next_record threads2 keys2 s2 now2) ->
    feed (s1, s2) ((produce_block threads1 keys1 s1 now1 Written).1, (produce_block threads2 keys2 s2 now2 Written).1).

Lemma twins_feed p q : twins p.1 p.2 -> feed p q -> twins q.1 q.2.
Proof.
  intros Ht Hf. destruct Hf; cbn [fst snd] in *; [by apply twins_tick| |by apply twins_produce].
  destruct Ht. constructor; cbn; try congruence. by apply insert_untimed.
Qed.

Lemma twins_new cfg id1 id2 db1 db2 s1 s2 :
  db_wf db1 -> db_wf db2 -> db_view db1 = db_view db2 -> genesis_ok cfg ->
  validator_new id1 [] (apply_genesis db1 cfg) default_pool (genesis_stakes cfg) = Some s1 ->
  validator_new id2 [] (apply_genesis db2 cfg) default_pool (genesis_stakes cfg) = Some s2 -> twins s1 s2.
Proof.
  intros W1 W2 Hv Hg. destruct (apply_genesis_view db1 cfg W1 Hg) as [G1 V1], (apply_genesis_view db2 cfg W2 Hg) as [G2 V2].
  unfold validator_new. destruct (leader_new _ _ _) as [l1|]; [|done]. destruct (leader_new _ _ _) as [l2|]; [|done].
  cbn [mbind option_bind]. intros [= <-] [= <-]. constructor; cbn [v_executor v_mempool v_poh v_current_slot
    v_tick_height v_block_height v_last_produced_slot v_ledger]; try done.
  split_and!; [done|done|]. cbn [executor_new ex_db]. rewrite V1, V2. by f_equal.
Qed.

(** C3. Replicas agree, as genesis.rs promises: two validators booted from the
    same genesis on databases with the same accounts and an empty ledger, that
    tick together, are given the same transactions and produce blocks together,
    hold the same accounts, the same chain (state roots and block hashes
    included) and the same pending transactions at every moment, whatever the
    order in which their threads run, their hash maps iterate and their clocks
    read.  Conditions: the transactions of a block declare as writable what they
    write and their fee payer; when a transaction arrives the same pending ones have
    expired on both; blocks fit a frame and ledger writes succeed on both. *)
Theorem replicas_agree cfg id1 id2 db1 db2 s1 s2 t1 t2 :
  db_wf db1 -> db_wf db2 -> db_view db1 = db_view db2 -> genesis_ok cfg ->
  validator_new id1 [] (apply_genesis db1 cfg) default_pool (genesis_stakes cfg) = Some s1 ->
  validator_new id2 [] (apply_genesis db2 cfg) default_pool (genesis_stakes cfg) = Some s2 ->
  rtc feed (s1, s2) (t1, t2) ->
  view (ex_db (v_executor t1)) = view (ex_db (v_executor t2)) /\
  br_state_root <$> bs_records (v_ledger t1) = br_state_root <$> bs_records (v_ledger t2) /\
  br_block_hash <$> bs_records (v_ledger t1) = br_block_hash <$> bs_records (v_ledger t2) /\
  untimed <$> bs_records (v_ledger t1) = untimed <$> bs_records (v_ledger t2) /\
  untimed_pool (v_mempool t1) = untimed_pool (v_mempool t2).
Proof.
  intros W1 W2 Hv Hg H1 H2 Hf. assert (Ht : twins t1 t2).
  { change (twins (t1, t2).1 (t1, t2).2). pose proof (twins_new _ _ _ _ _ _ _ W1 W2 Hv Hg H1 H2) as Ht.
    change (twins (s1, s2).1 (s1, s2).2) in Ht. clear -Hf Ht threads1_perm threads2_perm keys1_iterate keys2_iterate.
    induction Hf as [p|p q r Hpq _ IH]; [done|]. by eapply IH, twins_feed. }
  destruct Ht as [(_ & _ & Ha) Hm _ _ _ _ _ Hl]. split_and!; [exact Ha| | |exact Hl|exact Hm].
  - apply (f_equal (fmap br_state_root)) in Hl. by rewrite <- !list_fmap_compose in Hl.
  - apply (f_equal (fmap br_block_hash)) in Hl. by rewrite <- !list_fmap_compose in Hl.
Qed.
End Replica.
