(* ===== verification/Gossip.v ===== *)
(** * Gossip

    src/crates/gossip: signed messages (message.rs), the replicated data store
    CRDS (crds.rs) and the push/pull/prune/ping protocol (protocol.rs).  The
    iteration order of the concurrent maps, the random shuffle of peers, the
    random nonce and the clock are arguments; the outgoing channel is the list
    of messages sent on it. *)

From S2P Require Import Prelude Crypto.
From stdpp Require Import list.
Open Scope Z_scope.

(** ** Messages *)

Inductive MessageType := MtPush | MtPullRequest | MtPullResponse | MtPrune | MtPing | MtPong.

#[export] Instance MessageType_eq_dec : EqDecision MessageType.
Proof. solve_decision. Defined.

(** [message_type as u8] *)
Definition mt_code (t : MessageType) : Z :=
  match t with
  | MtPush => 0 | MtPullRequest => 1 | MtPullResponse => 2 | MtPrune => 3 | MtPing => 4 | MtPong => 5
  end.

#[export] Instance MessageType_countable : Countable MessageType.
Proof.
  apply (inj_countable' mt_code (fun z =>
    if z =? 0 then MtPush else if z =? 1 then MtPullRequest else if z =? 2 then MtPullResponse
    else if z =? 3 then MtPrune else if z =? 4 then MtPing else MtPong)). by intros [].
Defined.

(** [struct SocketAddr] *)
Record SocketAddr := mkAddr { sa_ip : bytes; sa_port : Z }.
Definition localhost (port : Z) : SocketAddr := mkAddr [127; 0; 0; 1] port.

(** [struct ContactInfo] *)
Record ContactInfo := mkContact {
  ci_pubkey : bytes;
  ci_gossip : SocketAddr;
  ci_tpu : SocketAddr;
  ci_rpc : SocketAddr;
  ci_tvu : SocketAddr;
  ci_stake : Z;
  ci_version : string;
  ci_wallclock : Z
}.

(** [struct PushData] *)
Record PushData := mkPush { pd_id : bytes; pd_content : bytes; pd_kind : string }.

(** [enum GossipPayload], with the fields of the payload structs. *)
Inductive GossipPayload :=
| PlPush (data : PushData)
| PlPullRequest (filters : list (string * Z)) (contact_info : ContactInfo)
| PlPullResponse (items : list PushData) (contact_info : ContactInfo)
| PlPrune (kinds : list string) (from : bytes)
| PlPing (nonce : Z)
| PlPong (nonce : Z).

#[export] Instance SocketAddr_eq_dec : EqDecision SocketAddr.
Proof. solve_decision. Defined.
#[export] Instance ContactInfo_eq_dec : EqDecision ContactInfo.
Proof. solve_decision. Defined.
#[export] Instance PushData_eq_dec : EqDecision PushData.
Proof. solve_decision. Defined.
#[export] Instance GossipPayload_eq_dec : EqDecision GossipPayload.
Proof. solve_decision. Defined.

#[export] Instance SocketAddr_countable : Countable SocketAddr.
Proof.
  apply (inj_countable (fun x => [encode (sa_ip x); encode (sa_port x)])
    (fun l => match l with
              | [a; b] => va ← decode a; vb ← decode b; Some (mkAddr va vb)
              | _ => None
              end)).
  intros []. cbn. by rewrite !decode_encode.
Defined.
#[export] Instance ContactInfo_countable : Countable ContactInfo.
Proof.
  apply (inj_countable (fun x => [encode (ci_pubkey x); encode (ci_gossip x); encode (ci_tpu x); encode (ci_rpc x); encode (ci_tvu x); encode (ci_stake x); encode (ci_version x); encode (ci_wallclock x)])
    (fun l => match l with
              | [a; b; c; d; e; f; g; h] => va ← decode a; vb ← decode b; vc ← decode c; vd ← decode d; ve ← decode e; vf ← decode f; vg ← decode g; vh ← decode h; Some (mkContact va vb vc vd ve vf vg vh)
              | _ => None
              end)).
  intros []. cbn. by rewrite !decode_encode.
Defined.
#[export] Instance PushData_countable : Countable PushData.
Proof.
  apply (inj_countable (fun x => [encode (pd_id x); encode (pd_content x); encode (pd_kind x)])
    (fun l => match l with
              | [a; b; c] => va ← decode a; vb ← decode b; vc ← decode c; Some (mkPush va vb vc)
              | _ => None
              end)).
  intros []. cbn. by rewrite !decode_encode.
Defined.
#[export] Instance GossipPayload_countable : Countable GossipPayload.
Proof.
  apply (inj_countable'
    (fun p => match p with
              | PlPush d => inl (inl (inl d))
              | PlPullRequest f c => inl (inl (inr (f, c)))
              | PlPullResponse i c => inl (inr (inl (i, c)))
              | PlPrune k f => inl (inr (inr (k, f)))
              | PlPing n => inr (inl n)
              | PlPong n => inr (inr n)
              end)
    (fun s => match s with
              | inl (inl (inl d)) => PlPush d
              | inl (inl (inr (f, c))) => PlPullRequest f c
              | inl (inr (inl (i, c))) => PlPullResponse i c
              | inl (inr (inr (k, f))) => PlPrune k f
              | inr (inl n) => PlPing n
              | inr (inr n) => PlPong n
              end)). by intros [].
Defined.

(** Values of the Rust types. *)
Definition addr_ok (a : SocketAddr) : Prop :=
  length (sa_ip a) = 4%nat /\ bytes_ok (sa_ip a) /\ 0 <= sa_port a < 65536.
Definition contact_ok (c : ContactInfo) : Prop :=
  arr32 (ci_pubkey c) /\ addr_ok (ci_gossip c) /\ addr_ok (ci_tpu c) /\ addr_ok (ci_rpc c) /\
  addr_ok (ci_tvu c) /\ is_u64 (ci_stake c) /\ is_u64 (ci_wallclock c).
Definition push_ok (d : PushData) : Prop := arr32 (pd_id d) /\ bytes_ok (pd_content d).
Definition payload_ok (p : GossipPayload) : Prop :=
  match p with
  | PlPush d => push_ok d
  | PlPullRequest f c => Forall (fun x => is_u64 x.2) f /\ contact_ok c
  | PlPullResponse i c => Forall push_ok i /\ contact_ok c
  | PlPrune _ k => arr32 k
  | PlPing n | PlPong n => is_u64 n
  end.

(** [struct GossipMessage] *)
Record GossipMessage := mkGossip {
  gm_from : bytes;
  gm_type : MessageType;
  gm_payload : GossipPayload;
  gm_timestamp : Z;
  gm_signature : bytes
}.

#[export] Instance GossipMessage_eq_dec : EqDecision GossipMessage.
Proof. solve_decision. Defined.

(** [GossipMessage::new] at time [now] *)
Definition gossip_new (from : bytes) (t : MessageType) (p : GossipPayload) (now : Z) : GossipMessage :=
  mkGossip from t p now [].

(** [GossipMessage::age_ms] *)
Definition gossip_age_ms (m : GossipMessage) (now : Z) : Z := saturating_sub now (gm_timestamp m).

Section Message.
Context `{Sha : Sha256} `{Ed : Ed25519} `{Json : !Serde GossipPayload payload_ok}.

(** [GossipMessage::signable_data]; the payload always serializes. *)
Definition gossip_signable (m : GossipMessage) : bytes :=
  gm_from m ++ [mt_code (gm_type m)] ++ le_bytes 8 (gm_timestamp m) ++
  default [] (to_vec (gm_payload m)).

(** [GossipMessage::hash], [sign], [verify_signature] *)
Definition gossip_hash (m : GossipMessage) : bytes := sha256 (gossip_signable m).
Definition gossip_sign (m : GossipMessage) (key : SigningKey) : GossipMessage :=
  let m := mkGossip (verifying_key key) (gm_type m) (gm_payload m) (gm_timestamp m) (gm_signature m) in
  mkGossip (gm_from m) (gm_type m) (gm_payload m) (gm_timestamp m) (ed_sign key (gossip_signable m)).
Definition gossip_verify (m : GossipMessage) : bool :=
  ed_verify (gm_from m) (gossip_signable m) (gm_signature m).

Definition message_ok (m : GossipMessage) : Prop :=
  arr32 (gm_from m) /\ payload_ok (gm_payload m) /\ is_u64 (gm_timestamp m).

(** The signed bytes determine the message. *)
Lemma gossip_signable_inj a b : message_ok a -> message_ok b -> gossip_signable a = gossip_signable b ->
  gm_from a = gm_from b /\ gm_type a = gm_type b /\ gm_timestamp a = gm_timestamp b /\
  gm_payload a = gm_payload b.
Proof.
  intros ([Ha _] & Hpa & Hta) ([Hb _] & Hpb & Htb) E. unfold gossip_signable in E.
  do 3 split_app E. apply le_bytes_inj in E2; [|exact Hta|exact Htb].
  destruct (serde_roundtrip _ Hpa) as (x & Hx & Rx), (serde_roundtrip _ Hpb) as (y & Hy & Ry).
  rewrite Hx, Hy in E. simpl in E. subst y.
  split; [done|]. split; [by destruct (gm_type a), (gm_type b)|]. split; congruence.
Qed.

Lemma gossip_sign_verifies m key : gossip_verify (gossip_sign m key) = true.
Proof. apply ed_verify_sign. Qed.
End Message.

(** ** The data store *)

(** [struct CrdsEntry] *)
Record CrdsEntry := mkCrdsEntry {
  ce_data : PushData;
  ce_inserted_at : Z;
  ce_from : bytes;
  ce_propagation_count : Z
}.

(** [struct Crds] *)
Record Crds := mkCrds {
  cr_entries : gmap bytes CrdsEntry;
  cr_contacts : gmap bytes ContactInfo;
  cr_self_info : option ContactInfo;
  cr_max_entries : nat;
  cr_total_inserted : Z;
  cr_total_pruned : Z
}.

Definition crds_new (max_entries : nat) : Crds := mkCrds ∅ ∅ None max_entries 0 0.
Definition default_store : Crds := crds_new (Z.to_nat 100000).

(** [Crds::insert_contact], [set_self_info], [get] *)
Definition insert_contact (c : Crds) (contact : ContactInfo) : Crds :=
  mkCrds (cr_entries c) (<[ci_pubkey contact := contact]> (cr_contacts c)) (cr_self_info c)
    (cr_max_entries c) (cr_total_inserted c) (cr_total_pruned c).
Definition set_self_info (c : Crds) (info : ContactInfo) : Crds :=
  mkCrds (cr_entries c) (cr_contacts c) (Some info) (cr_max_entries c) (cr_total_inserted c)
    (cr_total_pruned c).
Definition crds_get (c : Crds) (id : bytes) : option CrdsEntry := cr_entries c !! id.
Definition crds_len (c : Crds) : nat := size (cr_entries c).
Definition crds_is_empty (c : Crds) : bool := (size (cr_entries c) =? 0)%nat.

(** [CrdsStats], [Crds::stats] *)
Record CrdsStats := mkCrdsStats {
  cs_entries : nat; cs_contacts : nat; cs_total_inserted : Z; cs_total_pruned : Z
}.
Definition crds_stats (c : Crds) : CrdsStats :=
  mkCrdsStats (size (cr_entries c)) (size (cr_contacts c)) (cr_total_inserted c) (cr_total_pruned c).

Section Crds.
(** Iteration order of the entries. *)
Context (iter : gmap bytes CrdsEntry -> list (bytes * CrdsEntry)).

(** [Crds::entries_newer_than], [entries_by_kind] *)
Definition entries_newer_than (c : Crds) (timestamp : Z) : list CrdsEntry :=
  filter (fun e => timestamp < ce_inserted_at e) (iter (cr_entries c)).*2.
Definition entries_by_kind (c : Crds) (kind : string) : list CrdsEntry :=
  filter (fun e => pd_kind (ce_data e) = kind) (iter (cr_entries c)).*2.

(** [Crds::prune_old] *)
Definition prune_old (c : Crds) : Crds :=
  let sorted := sort_by (fun a b => a.2 <=? b.2)
                  ((fun '(id, e) => (id, ce_inserted_at e)) <$> iter (cr_entries c)) in
  let to_remove := (length sorted - cr_max_entries c * 9 / 10)%nat in
  foldl (fun c '(id, _) =>
           mkCrds (delete id (cr_entries c)) (cr_contacts c) (cr_self_info c) (cr_max_entries c)
             (cr_total_inserted c) (wrap64 (cr_total_pruned c + 1)))
        c (take to_remove sorted).

(** [Crds::insert_push] at time [now] *)
Definition insert_push (c : Crds) (from : bytes) (p : GossipPayload) (now : Z) : Crds * bool :=
  match p with
  | PlPush data =>
      let id := pd_id data in
      match cr_entries c !! id with
      | Some _ => (c, false)
      | None =>
          let c := mkCrds (<[id := mkCrdsEntry data now from 0]> (cr_entries c)) (cr_contacts c)
                     (cr_self_info c) (cr_max_entries c) (wrap64 (cr_total_inserted c + 1))
                     (cr_total_pruned c) in
          ((if (cr_max_entries c <? size (cr_entries c))%nat then prune_old c else c), true)
      end
  | _ => (c, false)
  end.
End Crds.

(** ** The protocol *)

(** [struct ProtocolStats] *)
Record ProtocolStats := mkProtocolStats {
  ps_messages_handled : Z; ps_invalid_messages : Z; ps_prunes_received : Z; ps_pongs_received : Z
}.

Section Protocol.
Context `{Sha : Sha256} `{Ed : Ed25519} `{Json : !Serde GossipPayload payload_ok}.
Context (iter : gmap bytes CrdsEntry -> list (bytes * CrdsEntry)).
(** [random_contacts]: the contacts in a random order. *)
Context (shuffle : gmap bytes ContactInfo -> list ContactInfo).

(** [struct GossipProtocol]; [g_sent] is what went into the channel. *)
Record GossipProtocol := mkProtocol {
  g_crds : Crds;
  g_validator_id : bytes;
  g_signer : SigningKey;
  g_sent : list GossipMessage;
  g_received_count : gmap MessageType Z;
  g_pending_pings : gmap Z bytes;
  g_pruned : gmap (bytes * string) Z;
  g_stats : ProtocolStats
}.

Definition protocol_new (signer : SigningKey) (crds : Crds) : GossipProtocol :=
  mkProtocol crds (verifying_key signer) signer [] ∅ ∅ ∅ (mkProtocolStats 0 0 0 0).

Definition set_crds (g : GossipProtocol) (c : Crds) : GossipProtocol :=
  mkProtocol c (g_validator_id g) (g_signer g) (g_sent g) (g_received_count g) (g_pending_pings g)
    (g_pruned g) (g_stats g).
(** [msg_sender.send(msg)] *)
Definition send (g : GossipProtocol) (m : GossipMessage) : GossipProtocol :=
  mkProtocol (g_crds g) (g_validator_id g) (g_signer g) (g_sent g ++ [m]) (g_received_count g)
    (g_pending_pings g) (g_pruned g) (g_stats g).
Definition set_stats (g : GossipProtocol) (s : ProtocolStats) : GossipProtocol :=
  mkProtocol (g_crds g) (g_validator_id g) (g_signer g) (g_sent g) (g_received_count g)
    (g_pending_pings g) (g_pruned g) s.

(** [signed] *)
Definition signed (g : GossipProtocol) (t : MessageType) (p : GossipPayload) (now : Z) : GossipMessage :=
  gossip_sign (gossip_new (g_validator_id g) t p now) (g_signer g).

(** [is_pruned], [pruned_count] *)
Definition is_pruned (g : GossipProtocol) (peer : bytes) (kind : string) : bool :=
  bool_decide (is_Some (g_pruned g !! (peer, kind))).
Definition pruned_count (g : GossipProtocol) : nat := size (g_pruned g).

(** The contact info sent along: our own, or the default. *)
Definition own_contact (g : GossipProtocol) : ContactInfo :=
  default (mkContact (g_validator_id g) (localhost 8000) (localhost 8001) (localhost 8002)
             (localhost 8003) 0 "0.1.0" 0) (cr_self_info (g_crds g)).

(** [forward_push] *)
Definition forward_push (g : GossipProtocol) (msg : GossipMessage) (now : Z) : GossipProtocol :=
  match gm_payload msg with
  | PlPush data =>
      foldl (fun g peer =>
               if bool_decide (ci_pubkey peer = g_validator_id g) || bool_decide (ci_pubkey peer = gm_from msg)
               then g
               else if is_pruned g (ci_pubkey peer) (pd_kind data) then g
               else send g (signed g MtPush (gm_payload msg) now))
            g (take 3 (shuffle (cr_contacts (g_crds g))))
  | _ => g
  end.

(** [handle_push] *)
Definition handle_push (g : GossipProtocol) (msg : GossipMessage) (now : Z) : GossipProtocol :=
  let '(c, inserted) := insert_push iter (g_crds g) (gm_from msg) (gm_payload msg) now in
  let g := set_crds g c in
  if inserted then forward_push g msg now else g.

(** The items of a pull response. *)
Definition pull_items (c : Crds) (filters : list (string * Z)) : list PushData :=
  mjoin ((fun '(kind, timestamp) =>
            ce_data <$> filter (fun e => pd_kind (ce_data e) = kind) (entries_newer_than iter c timestamp))
         <$> filters).

(** [handle_pull_request] *)
Definition handle_pull_request (g : GossipProtocol) (msg : GossipMessage) (now : Z) : GossipProtocol :=
  match gm_payload msg with
  | PlPullRequest filters _ =>
      send g (signed g MtPullResponse (PlPullResponse (pull_items (g_crds g) filters) (own_contact g)) now)
  | _ => g
  end.

(** [handle_pull_response] *)
Definition handle_pull_response (g : GossipProtocol) (msg : GossipMessage) (now : Z) : GossipProtocol :=
  match gm_payload msg with
  | PlPullResponse items contact =>
      let c := foldl (fun c item => (insert_push iter c (gm_from msg) (PlPush item) now).1)
                     (g_crds g) items in
      set_crds g (insert_contact c contact)
  | _ => g
  end.

(** [handle_prune] *)
Definition handle_prune (g : GossipProtocol) (msg : GossipMessage) (now : Z) : GossipProtocol :=
  let pruned := match gm_payload msg with
                | PlPrune kinds _ => foldl (fun m kind => <[(gm_from msg, kind) := now]> m) (g_pruned g) kinds
                | _ => g_pruned g
                end in
  mkProtocol (g_crds g) (g_validator_id g) (g_signer g) (g_sent g) (g_received_count g)
    (g_pending_pings g) pruned
    (mkProtocolStats (ps_messages_handled (g_stats g)) (ps_invalid_messages (g_stats g))
       (wrap64 (ps_prunes_received (g_stats g) + 1)) (ps_pongs_received (g_stats g))).

(** [handle_ping], [handle_pong] *)
Definition handle_ping (g : GossipProtocol) (msg : GossipMessage) (now : Z) : GossipProtocol :=
  match gm_payload msg with
  | PlPing nonce => send g (signed g MtPong (PlPong nonce) now)
  | _ => g
  end.
Definition handle_pong (g : GossipProtocol) (msg : GossipMessage) : GossipProtocol :=
  match gm_payload msg with
  | PlPong nonce =>
      mkProtocol (g_crds g) (g_validator_id g) (g_signer g) (g_sent g) (g_received_count g)
        (delete nonce (g_pending_pings g)) (g_pruned g)
        (mkProtocolStats (ps_messages_handled (g_stats g)) (ps_invalid_messages (g_stats g))
           (ps_prunes_received (g_stats g)) (wrap64 (ps_pongs_received (g_stats g) + 1)))
  | _ => g
  end.

(** [handle_message] *)
Definition handle_message (g : GossipProtocol) (msg : GossipMessage) (now : Z) : GossipProtocol :=
  if negb (gossip_verify msg) then
    set_stats g (mkProtocolStats (ps_messages_handled (g_stats g))
      (wrap64 (ps_invalid_messages (g_stats g) + 1)) (ps_prunes_received (g_stats g))
      (ps_pongs_received (g_stats g)))
  else
    let g := mkProtocol (g_crds g) (g_validator_id g) (g_signer g) (g_sent g)
               (<[gm_type msg := wrap64 (default 0 (g_received_count g !! gm_type msg) + 1)]>
                  (g_received_count g)) (g_pending_pings g) (g_pruned g) (g_stats g) in
    let g := match gm_type msg with
             | MtPush => handle_push g msg now
             | MtPullRequest => handle_pull_request g msg now
             | MtPullResponse => handle_pull_response g msg now
             | MtPrune => handle_prune g msg now
             | MtPing => handle_ping g msg now
             | MtPong => handle_pong g msg
             end in
    set_stats g (mkProtocolStats (wrap64 (ps_messages_handled (g_stats g) + 1))
      (ps_invalid_messages (g_stats g)) (ps_prunes_received (g_stats g)) (ps_pongs_received (g_stats g))).

(** [send_prune], [send_ping] (with the random nonce), [send_pull_request] *)
Definition send_prune (g : GossipProtocol) (kinds : list string) (now : Z) : GossipProtocol :=
  send g (signed g MtPrune (PlPrune kinds (g_validator_id g)) now).
Definition send_ping (g : GossipProtocol) (peer : ContactInfo) (nonce now : Z) : GossipProtocol :=
  let g := mkProtocol (g_crds g) (g_validator_id g) (g_signer g) (g_sent g) (g_received_count g)
             (<[nonce := ci_pubkey peer]> (g_pending_pings g)) (g_pruned g) (g_stats g) in
  send g (signed g MtPing (PlPing nonce) now).
Definition send_pull_request (g : GossipProtocol) (filters : list (string * Z)) (now : Z) : GossipProtocol :=
  send g (signed g MtPullRequest (PlPullRequest filters (own_contact g)) now).
End Protocol.

(** ** Properties of the store *)

Section CrdsProperties.
Context (iter : gmap bytes CrdsEntry -> list (bytes * CrdsEntry)).
Context (iter_perm : forall m, iter m ≡ₚ map_to_list m).

(** Entries are filed under their own id, and the store is within its bound. *)
Definition crds_ok (c : Crds) : Prop :=
  (forall id e, cr_entries c !! id = Some e -> pd_id (ce_data e) = id) /\
  (size (cr_entries c) <= cr_max_entries c)%nat.

Definition delete_ids (ids : list bytes) (m : gmap bytes CrdsEntry) : gmap bytes CrdsEntry :=
  foldl (fun m id => delete id m) m ids.

Lemma delete_ids_lookup ids m k :
  delete_ids ids m !! k = if decide (k ∈ ids) then None else m !! k.
Proof.
  unfold delete_ids. revert m. induction ids as [|id ids IH]; intros m; cbn [foldl].
  - by rewrite decide_False by apply not_elem_of_nil.
  - rewrite IH. destruct (decide (k ∈ ids)) as [Hin|Hni].
    + by rewrite decide_True by (by apply list_elem_of_further).
    + destruct (decide (k = id)) as [->|Hne].
      * rewrite decide_True by apply list_elem_of_here. apply lookup_delete_eq.
      * rewrite decide_False by (intros [?|?]%elem_of_cons; done). by apply lookup_delete_ne.
Qed.

Lemma size_delete_ids ids m : NoDup ids -> (forall id, id ∈ ids -> is_Some (m !! id)) ->
  size (delete_ids ids m) = (size m - length ids)%nat.
Proof.
  unfold delete_ids. intros Hnd. revert m. induction Hnd as [|id ids Hni Hnd IH]; intros m Hin; cbn [foldl].
  - simpl. lia.
  - rewrite IH.
    + rewrite map_size_delete. destruct (Hin id) as [e He]; [apply list_elem_of_here|]. rewrite He.
      simpl. lia.
    + intros id' Hid. rewrite lookup_delete_ne by (by intros ->). apply Hin. by apply list_elem_of_further.
Qed.

(** The ids in the order they are evicted. *)
Definition by_age (m : gmap bytes CrdsEntry) : list (bytes * Z) :=
  sort_by (fun a b => a.2 <=? b.2) ((fun '(id, e) => (id, ce_inserted_at e)) <$> iter m).

Lemma prune_old_eq c :
  let n := (size (cr_entries c) - cr_max_entries c * 9 / 10)%nat in
  let c' := prune_old iter c in
  cr_entries c' = delete_ids (take n (by_age (cr_entries c))).*1 (cr_entries c) /\
  cr_contacts c' = cr_contacts c /\ cr_self_info c' = cr_self_info c /\
  cr_max_entries c' = cr_max_entries c.
Proof.
  cbv zeta. unfold prune_old, by_age.
  assert (Hl : length (iter (cr_entries c)) = size (cr_entries c)).
  { rewrite iter_perm. apply length_map_to_list. }
  rewrite length_sort_by, length_fmap, Hl. clear Hl.
  generalize (take (size (cr_entries c) - cr_max_entries c * 9 / 10)
    (sort_by (fun a b : bytes * Z => a.2 <=? b.2) ((fun '(id, e) => (id, ce_inserted_at e)) <$> iter (cr_entries c)))).
  intros l. revert c. induction l as [|[id ts] l IH]; intros c; cbn [foldl]; [done|].
  match goal with |- context [foldl _ ?c0 l] => destruct (IH c0) as (-> & -> & -> & ->) end. done.
Qed.

Lemma by_age_spec m :
  NoDup (by_age m).*1 /\ length (by_age m) = size m /\
  (forall id ts, (id, ts) ∈ by_age m <-> exists e, m !! id = Some e /\ ts = ce_inserted_at e).
Proof.
  assert (Hp : by_age m ≡ₚ (fun '(id, e) => (id, ce_inserted_at e)) <$> map_to_list m).
  { unfold by_age. rewrite sort_by_perm. by rewrite iter_perm. }
  assert (Hf : ((fun '(id, e) => (id, ce_inserted_at e)) <$> map_to_list m).*1 = (map_to_list m).*1).
  { rewrite <- list_fmap_compose. apply list_fmap_ext. by intros ? [id e]. }
  split_and!.
  - rewrite Hp, Hf. apply NoDup_fst_map_to_list.
  - rewrite Hp, length_fmap. apply length_map_to_list.
  - intros id ts. rewrite Hp, list_elem_of_fmap. split.
    + intros ([id' e] & [= -> ->] & Hin). exists e. split; [by apply elem_of_map_to_list|done].
    + intros (e & He & ->). exists (id, e). split; [done|by apply elem_of_map_to_list].
Qed.

Lemma by_age_sorted m : StronglySorted (fun a b => a.2 <=? b.2 = true) (by_age m).
Proof. apply sort_by_sorted; [intros a b; lia|intros a b c; lia]. Qed.

(** Pruning keeps the newest nine tenths of the bound. *)
Lemma prune_old_spec c :
  let c' := prune_old iter c in
  cr_entries c' ⊆ cr_entries c /\
  size (cr_entries c') = Nat.min (size (cr_entries c)) (cr_max_entries c * 9 / 10) /\
  cr_max_entries c' = cr_max_entries c /\ cr_contacts c' = cr_contacts c /\
  cr_self_info c' = cr_self_info c /\
  (forall id e id' e', cr_entries c !! id = Some e -> cr_entries c' !! id = None ->
     cr_entries c' !! id' = Some e' -> ce_inserted_at e <= ce_inserted_at e').
Proof.
  cbv zeta. destruct (prune_old_eq c) as (He & Hc & Hs & Hm). rewrite He, Hc, Hs, Hm.
  set (m := cr_entries c). set (n := (size m - cr_max_entries c * 9 / 10)%nat).
  destruct (by_age_spec m) as (Hnd & Hl & Hin).
  split_and!; [| |done..|].
  - apply map_subseteq_spec. intros id e. rewrite delete_ids_lookup. by case_decide.
  - rewrite size_delete_ids.
    + rewrite length_fmap, length_take, Hl. lia.
    + rewrite fmap_take. apply (sublist_NoDup _ (by_age m).*1); [done|apply sublist_take].
    + intros id ([id' ts] & -> & (i & Hi & _)%elem_of_take)%list_elem_of_fmap. simpl.
      destruct (Hin id' ts) as [(e & ? & _) _]; [by eapply list_elem_of_lookup_2|]. by eexists.
  - intros id e id' e' Hid Hgone Hkept. rewrite delete_ids_lookup in Hgone, Hkept.
    revert Hgone Hkept. case_decide as Ht; [intros _|intros Hgone; congruence].
    case_decide as Hnt; [done|intros Hkept].
    apply list_elem_of_fmap in Ht as ([i1 ts] & -> & Ht). simpl in Hid.
    assert (ts = ce_inserted_at e) as ->.
    { destruct (Hin i1 ts) as [(e1 & He1 & ->) _]; [|simpl in *; congruence].
      apply elem_of_take in Ht as (i & Hi & _). by eapply list_elem_of_lookup_2. }
    assert (Hd : (id', ce_inserted_at e') ∈ drop n (by_age m)).
    { assert (Hall : (id', ce_inserted_at e') ∈ by_age m) by (apply Hin; by eexists).
      rewrite <- (take_drop n (by_age m)) in Hall. apply elem_of_app in Hall as [Hall|]; [|done].
      destruct Hnt. apply list_elem_of_fmap. by exists (id', ce_inserted_at e'). }
    pose proof (sorted_take_drop _ _ n _ _ (by_age_sorted m) Ht Hd) as Hle. simpl in Hle. lia.
Qed.

(** The store of gossip values: what arrives first under an id stays, nothing
    else is altered, the bound holds after every insertion, and when it is
    reached exactly the oldest entries go, down to nine tenths of it.  A
    duplicate id or a payload that is not a push changes nothing. *)
Lemma insert_push_cases c from p now :
  crds_ok c ->
  let '(c', inserted) := insert_push iter c from p now in
  crds_ok c' /\ cr_contacts c' = cr_contacts c /\
  if inserted then
    exists data, p = PlPush data /\ cr_entries c !! pd_id data = None /\
      let m := <[pd_id data := mkCrdsEntry data now from 0]> (cr_entries c) in
      cr_entries c' ⊆ m /\
      (if (size (cr_entries c) <? cr_max_entries c)%nat then cr_entries c' = m
       else size (cr_entries c') = (cr_max_entries c * 9 / 10)%nat) /\
      (forall id e id' e', m !! id = Some e -> cr_entries c' !! id = None ->
         cr_entries c' !! id' = Some e' -> ce_inserted_at e <= ce_inserted_at e')
  else c' = c /\ forall data, p = PlPush data -> is_Some (cr_entries c !! pd_id data).
Proof.
  intros [Hkey Hsize]. unfold insert_push. destruct p as [data| | | | |];
    [|by split; [done|split; [done|split; [done|by intros ?]]]..].
  destruct (cr_entries c !! pd_id data) as [e0|] eqn:Hid.
  { split; [done|]. split; [done|]. split; [done|]. intros d [= <-]. by rewrite Hid. }
  set (m := <[pd_id data := mkCrdsEntry data now from 0]> (cr_entries c)).
  cbn [cr_entries cr_max_entries].
  assert (Hm : size m = S (size (cr_entries c))) by (by apply map_size_insert_None).
  assert (Hkeym : forall id e, m !! id = Some e -> pd_id (ce_data e) = id).
  { intros id e [[<- <-]|[_ He]]%lookup_insert_Some; [done|by apply Hkey]. }
  destruct (Nat.ltb_spec (cr_max_entries c) (size m)) as [Hfull|Hroom].
  - set (c1 := mkCrds m _ _ _ _ _).
    destruct (prune_old_spec c1) as (Hsub & Hsz & Hmax & Hcon & _ & Hold).
    cbn [cr_entries cr_max_entries cr_contacts c1] in *.
    assert (Hle : (cr_max_entries c * 9 / 10 <= cr_max_entries c)%nat).
    { apply Nat.Div0.div_le_upper_bound. lia. }
    split; [split|].
    + intros id e He. apply Hkeym. by eapply lookup_weaken.
    + lia.
    + split; [done|]. exists data. rewrite (proj2 (Nat.ltb_ge _ _)) by lia.
      split_and!; [done|done|done|lia|done].
  - split; [split; [done|cbn [cr_entries cr_max_entries]; lia]|]. split; [done|]. exists data.
    rewrite (proj2 (Nat.ltb_lt _ _)) by lia. split_and!; [done..|].
    cbn [cr_entries]. intros id e id' e' He Hn. change (m !! id = Some e) in He. congruence.
Qed.
End CrdsProperties.

(** ** Properties of the protocol *)

Section ProtocolProperties.
Context `{Sha : Sha256} `{Ed : Ed25519} `{Json : !Serde GossipPayload payload_ok}.
Context (iter : gmap bytes CrdsEntry -> list (bytes * CrdsEntry)).
Context (iter_perm : forall m, iter m ≡ₚ map_to_list m).
Context (shuffle : gmap bytes ContactInfo -> list ContactInfo).

(** What a message carries. *)
Definition carried (p : GossipPayload) : list PushData :=
  match p with PlPush data => [data] | PlPullResponse items _ => items | _ => [] end.

(** Every entry of [c'] comes from [c], or is one of [items], filed under its own
    id and recorded as sent by [from] at [now]. *)
Definition entries_from (from : bytes) (now : Z) (items : list PushData) (c c' : Crds) : Prop :=
  forall id e, cr_entries c' !! id = Some e ->
    cr_entries c !! id = Some e \/ exists data, data ∈ items /\ id = pd_id data /\ e = mkCrdsEntry data now from 0.

Lemma insert_push_from c from data now :
  entries_from from now [data] c (insert_push iter c from (PlPush data) now).1 /\
  cr_contacts (insert_push iter c from (PlPush data) now).1 = cr_contacts c.
Proof.
  unfold insert_push. destruct (cr_entries c !! pd_id data); [split; [by left|done]|].
  cbn [fst cr_entries cr_max_entries]. set (c1 := mkCrds _ _ _ _ _ _).
  assert (H : forall c', cr_entries c' ⊆ cr_entries c1 -> entries_from from now [data] c c').
  { intros c' Hsub id e He. eapply lookup_weaken in He; [|exact Hsub]. cbn [c1 cr_entries] in He.
    apply lookup_insert_Some in He as [[<- <-]|[_ He]]; [right|by left].
    exists data. split; [apply list_elem_of_here|done]. }
  destruct (prune_old_spec iter iter_perm c1) as (Hsub & _ & _ & Hcon & _).
  case_match; (split; [by apply H|]); [exact Hcon|done].
Qed.

Lemma entries_from_trans from now i1 i2 c1 c2 c3 :
  entries_from from now i1 c1 c2 -> entries_from from now i2 c2 c3 -> entries_from from now (i1 ++ i2) c1 c3.
Proof.
  intros H1 H2 id e He. setoid_rewrite elem_of_app. destruct (H2 id e He) as [He2|]; [|naive_solver].
  destruct (H1 id e He2); naive_solver.
Qed.

Lemma pull_items_from from now items c :
  let c' := foldl (fun c item => (insert_push iter c from (PlPush item) now).1) c items in
  entries_from from now items c c' /\ cr_contacts c' = cr_contacts c.
Proof.
  revert c. induction items as [|item items IH]; intros c; cbn [foldl]; [split; [by intros id e ?; left|done]|].
  destruct (insert_push_from c from item now) as [H1 C1]. destruct (IH (insert_push iter c from (PlPush item) now).1) as [H2 C2].
  split; [|by rewrite C2]. exact (entries_from_trans _ _ [item] items _ _ _ H1 H2).
Qed.

(** Messages our own key signed. *)
Definition own_messages (g : GossipProtocol) (out : list GossipMessage) : Prop :=
  Forall (fun m => gossip_verify m = true /\ gm_from m = verifying_key (g_signer g)) out.

Lemma signed_own g t p now :
  gossip_verify (signed g t p now) = true /\ gm_from (signed g t p now) = verifying_key (g_signer g).
Proof. split; [apply gossip_sign_verifies|done]. Qed.

Lemma signed_verifies g t p now : gossip_verify (signed g t p now) = true.
Proof. apply signed_own. Qed.

(** What a handler may do besides touching the store and the prune table. *)
Definition sends_only (n : nat) (g g' : GossipProtocol) : Prop :=
  g_signer g' = g_signer g /\ g_validator_id g' = g_validator_id g /\
  exists out, g_sent g' = g_sent g ++ out /\ (length out <= n)%nat /\ own_messages g out.

Lemma sends_only_refl n g : sends_only n g g.
Proof. split; [done|]. split; [done|]. exists []. rewrite app_nil_r. split_and!; [done|simpl; lia|constructor]. Qed.

Lemma sends_only_send g t p now : sends_only 1 g (send g (signed g t p now)).
Proof.
  split; [done|]. split; [done|]. eexists [_]. split_and!; [done|done|].
  constructor; [apply signed_own|constructor].
Qed.

Lemma sends_only_trans n m g1 g2 g3 :
  sends_only n g1 g2 -> sends_only m g2 g3 -> sends_only (n + m) g1 g3.
Proof.
  intros (S1 & V1 & o1 & E1 & L1 & O1) (S2 & V2 & o2 & E2 & L2 & O2).
  split; [congruence|]. split; [congruence|]. exists (o1 ++ o2).
  rewrite E2, E1, app_assoc, length_app. split_and!; [done|lia|]. unfold own_messages in *.
  rewrite S1 in O2. by apply Forall_app.
Qed.

Lemma forward_push_frame g msg now :
  g_crds (forward_push shuffle g msg now) = g_crds g /\
  g_pruned (forward_push shuffle g msg now) = g_pruned g /\
  g_pending_pings (forward_push shuffle g msg now) = g_pending_pings g /\
  sends_only 3 g (forward_push shuffle g msg now).
Proof.
  unfold forward_push. destruct (gm_payload msg) as [data| | | | |] eqn:Hp;
    [|by split_and!; [..|apply sends_only_refl]..].
  assert (H : forall peers n, (length peers <= n)%nat -> forall g, let g' := foldl (fun g peer =>
      if bool_decide (ci_pubkey peer = g_validator_id g) || bool_decide (ci_pubkey peer = gm_from msg)
      then g
      else if is_pruned g (ci_pubkey peer) (pd_kind data) then g
      else send g (signed g MtPush (PlPush data) now)) g peers in
    g_crds g' = g_crds g /\ g_pruned g' = g_pruned g /\ g_pending_pings g' = g_pending_pings g /\ sends_only n g g').
  { clear g. intros peers. induction peers as [|peer peers IH]; intros n Hn g; cbn [foldl].
    - split_and!; [done|done|done|apply sends_only_refl].
    - destruct n as [|n]; [simpl in Hn; lia|].
      set (g1 := if _ || _ then g else _).
      assert (H1 : g_crds g1 = g_crds g /\ g_pruned g1 = g_pruned g /\ g_pending_pings g1 = g_pending_pings g /\ sends_only 1 g g1).
      { unfold g1. repeat case_match; split_and!; try done; try apply sends_only_refl.
        all: apply sends_only_send. }
      destruct H1 as (C1 & P1 & N1 & S1), (IH n ltac:(simpl in Hn; lia) g1) as (C2 & P2 & N2 & S2).
      split_and!; [congruence|congruence|congruence|]. change (S n) with (1 + n)%nat. by eapply sends_only_trans. }
  apply H. rewrite length_take. lia.
Qed.

(** What [handle_message] does, on both branches. *)
Lemma handle_message_cases g msg now :
  let g' := handle_message iter shuffle g msg now in
  if gossip_verify msg then
    entries_from (gm_from msg) now (carried (gm_payload msg)) (g_crds g) (g_crds g') /\
    (forall k, cr_contacts (g_crds g') !! k = cr_contacts (g_crds g) !! k \/
       exists items contact, gm_type msg = MtPullResponse /\ gm_payload msg = PlPullResponse items contact /\
         k = ci_pubkey contact /\ cr_contacts (g_crds g') !! k = Some contact) /\
    (forall peer kind, peer <> gm_from msg -> g_pruned g' !! (peer, kind) = g_pruned g !! (peer, kind)) /\
    (forall nonce, g_pending_pings g' !! nonce = g_pending_pings g !! nonce \/ gm_payload msg = PlPong nonce) /\
    sends_only 3 g g'
  else
    g_crds g' = g_crds g /\ g_sent g' = g_sent g /\ g_pruned g' = g_pruned g /\
    g_pending_pings g' = g_pending_pings g /\ g_received_count g' = g_received_count g /\
    ps_messages_handled (g_stats g') = ps_messages_handled (g_stats g) /\
    ps_invalid_messages (g_stats g') = wrap64 (ps_invalid_messages (g_stats g) + 1).
Proof.
  cbv zeta. unfold handle_message. destruct (gossip_verify msg) eqn:Hv; cbn [negb]; [|done].
  set (g1 := mkProtocol _ _ _ _ _ _ _ _).
  assert (Hself : forall items, entries_from (gm_from msg) now items (g_crds g) (g_crds g)) by (intros items id e He; by left).
  set (g2 := match gm_type msg with MtPush => _ | _ => _ end).
  assert (H : entries_from (gm_from msg) now (carried (gm_payload msg)) (g_crds g) (g_crds g2) /\
    (forall k, cr_contacts (g_crds g2) !! k = cr_contacts (g_crds g) !! k \/
       exists items contact, gm_type msg = MtPullResponse /\ gm_payload msg = PlPullResponse items contact /\
         k = ci_pubkey contact /\ cr_contacts (g_crds g2) !! k = Some contact) /\
    (forall peer kind, peer <> gm_from msg -> g_pruned g2 !! (peer, kind) = g_pruned g !! (peer, kind)) /\
    (forall nonce, g_pending_pings g2 !! nonce = g_pending_pings g !! nonce \/ gm_payload msg = PlPong nonce) /\
    sends_only 3 g1 g2); [|exact H].
  pose proof (sends_only_refl 3 g1) as Hrefl.
  assert (Hone : forall t p, sends_only 3 g1 (send g1 (signed g1 t p now)))
    by (intros t p; exact (sends_only_trans 1 2 _ _ _ (sends_only_send _ _ _ _) (sends_only_refl 2 _))).
  unfold g2. destruct (gm_type msg).
  - unfold handle_push. destruct (gm_payload msg) as [data| | | | |] eqn:Hp;
      [|cbn [insert_push]; split_and!; [apply Hself|by left|done|by left|exact Hrefl]..].
    destruct (insert_push_from (g_crds g1) (gm_from msg) data now) as [Hins Hcon].
    destruct (insert_push _ _ _ _ _) as [c inserted]. cbn [fst] in Hins, Hcon.
    destruct inserted; [|split_and!; [exact Hins|intros k; left; cbn; by rewrite Hcon|done|by left|exact Hrefl]].
    destruct (forward_push_frame (set_crds g1 c) msg now) as (-> & -> & Hpp & Hs).
    split_and!; [exact Hins|intros k; left; cbn; by rewrite Hcon|done|intros nonce; left; by rewrite Hpp|exact Hs].
  - unfold handle_pull_request. destruct (gm_payload msg); split_and!; try apply Hself; try done; try (by left); apply Hone.
  - unfold handle_pull_response. destruct (gm_payload msg) as [| |items contact| | |];
      try (split_and!; [apply Hself|by left|done|by left|exact Hrefl]).
    destruct (pull_items_from (gm_from msg) now items (g_crds g1)) as [Hins Hcon].
    split_and!; [exact Hins| |done|by left|exact Hrefl]. intros k. cbn [set_crds g_crds insert_contact cr_contacts].
    rewrite Hcon. destruct (decide (k = ci_pubkey contact)) as [->|Hne].
    + right. exists items, contact. by rewrite lookup_insert_eq.
    + left. by rewrite lookup_insert_ne.
  - unfold handle_prune. split_and!; [apply Hself|by left| |by left|exact Hrefl].
    intros peer kind Hne. cbn [g_pruned]. destruct (gm_payload msg) as [| | |kinds from'| |]; try done.
    cbn [g_pruned g1]. generalize (g_pruned g). induction kinds as [|k kinds IH]; intros m; cbn [foldl]; [done|].
    rewrite IH. by rewrite lookup_insert_ne by congruence.
  - unfold handle_ping. destruct (gm_payload msg); split_and!; try apply Hself; try done; try (by left); apply Hone.
  - unfold handle_pong. destruct (gm_payload msg) as [| | | | |nonce'];
      split_and!; try apply Hself; try done; try (by left).
    intros nonce. cbn [g_pending_pings g1]. destruct (decide (nonce' = nonce)) as [->|Hne]; [by right|left].
    by rewrite lookup_delete_ne.
Qed.

(** C26. Gossip acts on authenticated messages only.  A message whose signature
    does not verify changes nothing but the counter of invalid messages.  A
    verified one adds to the store only data it carries, filed under the data's
    own id and in its signer's name; it sets prune marks only for its signer; it
    clears a pending ping only as the pong of that nonce; it makes the node send
    at most three messages, each signed with the node's own key; and it changes no
    contact but the one a pull response names (which need not be its signer's:
    [contact_not_bound_to_sender]). *)
Theorem gossip_authenticated g msg now :
  let g' := handle_message iter shuffle g msg now in
  if gossip_verify msg then
    entries_from (gm_from msg) now (carried (gm_payload msg)) (g_crds g) (g_crds g') /\
    (forall k, cr_contacts (g_crds g') !! k = cr_contacts (g_crds g) !! k \/
       exists items contact, gm_type msg = MtPullResponse /\ gm_payload msg = PlPullResponse items contact /\
         k = ci_pubkey contact /\ cr_contacts (g_crds g') !! k = Some contact) /\
    (forall peer kind, peer <> gm_from msg -> g_pruned g' !! (peer, kind) = g_pruned g !! (peer, kind)) /\
    (forall nonce, g_pending_pings g' !! nonce = g_pending_pings g !! nonce \/ gm_payload msg = PlPong nonce) /\
    sends_only 3 g g'
  else
    g_crds g' = g_crds g /\ g_sent g' = g_sent g /\ g_pruned g' = g_pruned g /\
    g_pending_pings g' = g_pending_pings g /\ g_received_count g' = g_received_count g /\
    ps_messages_handled (g_stats g') = ps_messages_handled (g_stats g) /\
    ps_invalid_messages (g_stats g') = wrap64 (ps_invalid_messages (g_stats g) + 1).
Proof. apply handle_message_cases. Qed.

(** The store is consistent and everything queued for sending is signed with
    the node's own key. *)
Definition gossip_inv (g : GossipProtocol) : Prop := crds_ok (g_crds g) /\ own_messages g (g_sent g).

Lemma insert_push_ok c from p now : crds_ok c -> crds_ok (insert_push iter c from p now).1.
Proof.
  intros Hc. pose proof (insert_push_cases iter iter_perm c from p now Hc) as H.
  destruct (insert_push iter c from p now). apply H.
Qed.

Lemma handle_message_crds_ok g msg now : crds_ok (g_crds g) -> crds_ok (g_crds (handle_message iter shuffle g msg now)).
Proof.
  intros Hc. unfold handle_message. destruct (negb (gossip_verify msg)); [done|]. cbn [set_stats g_crds].
  set (g1 := mkProtocol _ _ _ _ _ _ _ _). assert (H1 : crds_ok (g_crds g1)) by done. clearbody g1.
  destruct (gm_type msg).
  - unfold handle_push. pose proof (insert_push_ok (g_crds g1) (gm_from msg) (gm_payload msg) now H1) as Hi.
    destruct (insert_push _ _ _ _ _) as [c []]; [|done].
    by destruct (forward_push_frame (set_crds g1 c) msg now) as (-> & _).
  - unfold handle_pull_request. by destruct (gm_payload msg).
  - unfold handle_pull_response. destruct (gm_payload msg) as [| |items contact| | |]; try done.
    cbn [set_crds g_crds]. revert H1. generalize (g_crds g1). clear -iter_perm.
    induction items as [|x items IH]; intros c Hc; cbn [foldl]; [done|]. by apply IH, insert_push_ok.
  - done.
  - unfold handle_ping. by destruct (gm_payload msg).
  - unfold handle_pong. by destruct (gm_payload msg).
Qed.

Lemma sends_only_inv n g g' : sends_only n g g' -> own_messages g (g_sent g) -> own_messages g' (g_sent g').
Proof.
  intros (S1 & _ & out & -> & _ & Ho) H. unfold own_messages in *. rewrite S1. by apply Forall_app.
Qed.

Lemma gossip_inv_message g msg now : gossip_inv g -> gossip_inv (handle_message iter shuffle g msg now).
Proof.
  intros [Hc Hs]. split; [by apply handle_message_crds_ok|].
  pose proof (handle_message_cases g msg now) as H. cbv zeta in H. destruct (gossip_verify msg) eqn:Hv.
  - by eapply sends_only_inv; [apply H|].
  - unfold handle_message. by rewrite Hv.
Qed.

Lemma gossip_inv_ping g peer nonce now : gossip_inv g -> gossip_inv (send_ping g peer nonce now).
Proof.
  intros [Hc Hs]. split; [done|]. set (g1 := mkProtocol (g_crds g) (g_validator_id g) (g_signer g) (g_sent g)
    (g_received_count g) (<[nonce := ci_pubkey peer]> (g_pending_pings g)) (g_pruned g) (g_stats g)).
  exact (sends_only_inv 1 g1 _ (sends_only_send g1 _ _ _) Hs).
Qed.

(** With room to spare, a list of items is stored whole, in order of arrival, and
    nothing else changes. *)
Lemma insert_items_room from now items c :
  (size (cr_entries c) + length items <= cr_max_entries c)%nat ->
  (forall x y, x ∈ items -> y ∈ items -> pd_id x = pd_id y -> x = y) ->
  let c' := foldl (fun c item => (insert_push iter c from (PlPush item) now).1) c items in
  (forall item, item ∈ items ->
     cr_entries c' !! pd_id item = Some (default (mkCrdsEntry item now from 0) (cr_entries c !! pd_id item))) /\
  forall id, id ∉ pd_id <$> items -> cr_entries c' !! id = cr_entries c !! id.
Proof.
  revert c. induction items as [|item items IH]; intros c Hroom Hinj; cbn [foldl].
  - split; [by intros ? ?%not_elem_of_nil|done].
  - set (c1 := (insert_push iter c from (PlPush item) now).1).
    assert (H1 : cr_entries c1 !! pd_id item = Some (default (mkCrdsEntry item now from 0) (cr_entries c !! pd_id item)) /\
                 (forall id, id <> pd_id item -> cr_entries c1 !! id = cr_entries c !! id) /\
                 (size (cr_entries c1) <= S (size (cr_entries c)))%nat /\ cr_max_entries c1 = cr_max_entries c).
    { unfold c1, insert_push. destruct (cr_entries c !! pd_id item) eqn:Hid.
      - cbn [fst]. rewrite Hid. split_and!; [done|done|lia|done].
      - cbn [fst cr_entries cr_max_entries]. rewrite map_size_insert_None by done. simpl in Hroom.
        rewrite (proj2 (Nat.ltb_ge _ _)) by lia. cbn [cr_entries cr_max_entries].
        rewrite map_size_insert_None, lookup_insert_eq by done.
        split_and!; [done|intros id Hne; by rewrite lookup_insert_ne|lia|done]. }
    destruct H1 as (Hid & Hoth & Hsz & Hmax). simpl in Hroom.
    destruct (IH c1) as [Hin Hout]; [lia|intros x y Hx Hy; apply Hinj; by right|].
    assert (Hx : forall x, x ∈ items -> pd_id x = pd_id item -> x = item)
      by (intros x Hx; apply Hinj; [by right|by left]).
    split.
    + intros x [->|Hx']%elem_of_cons.
      * destruct (decide (pd_id item ∈ pd_id <$> items)) as [(y & Ey & Hy)%list_elem_of_fmap|Hni]; [|by rewrite Hout].
        assert (y = item) as -> by (by apply Hx). by rewrite Hin, Hid.
      * rewrite Hin by done. destruct (decide (pd_id x = pd_id item)) as [E|Hne]; [|by rewrite Hoth].
        apply Hx in E as ->; [|done]. by rewrite Hid.
    + intros id Hni. rewrite fmap_cons, not_elem_of_cons in Hni. destruct Hni. by rewrite Hout, Hoth.
Qed.

(** Which entries of the store [c] a pull with [filters] asks for. *)
Definition requested (c : Crds) (filters : list (string * Z)) (id : bytes) (e : CrdsEntry) : Prop :=
  cr_entries c !! id = Some e /\ exists ts, (pd_kind (ce_data e), ts) ∈ filters /\ ts < ce_inserted_at e.

Lemma elem_of_pull_items c filters d :
  d ∈ pull_items iter c filters <-> exists id e, requested c filters id e /\ ce_data e = d.
Proof.
  unfold pull_items, requested. rewrite list_elem_of_join. split.
  - intros (l & Hd & ([kind ts] & -> & Hf)%list_elem_of_fmap).
    apply list_elem_of_fmap in Hd as (e & -> & [Hk He]%list_elem_of_filter).
    apply list_elem_of_filter in He as [Ht ([id e'] & -> & He)%list_elem_of_fmap]. rewrite iter_perm in He.
    apply elem_of_map_to_list in He. exists id, e'. split; [|done]. split; [done|]. exists ts. cbn in *. by subst kind.
  - intros (id & e & (He & ts & Hf & Ht) & <-).
    eexists. split; [|apply list_elem_of_fmap; eexists; split; [|exact Hf]; reflexivity].
    apply list_elem_of_fmap. exists e. split; [done|]. apply list_elem_of_filter. split; [done|].
    unfold entries_newer_than. apply list_elem_of_filter. split; [done|].
    apply list_elem_of_fmap. exists (id, e). split; [done|]. rewrite iter_perm. by apply elem_of_map_to_list.
Qed.

(** C27. Pulling synchronizes: a node sends a pull request, a peer (whose store
    files entries under their own ids) handles it, the node, whose store has room
    for the answer, handles the response.  Then for every entry the peer has of a
    requested kind that is newer than the requested time the node holds the same
    data under the same id, recorded as received from the peer, unless it had an
    entry of that id already, which stays; every other entry is as before, and
    the peer's contact is recorded. *)
Theorem gossip_pull_sync a b filters t1 t2 t3 req resp :
  last (g_sent (send_pull_request a filters t1)) = Some req ->
  last (g_sent (handle_message iter shuffle b req t2)) = Some resp ->
  (forall id e, cr_entries (g_crds b) !! id = Some e -> pd_id (ce_data e) = id) ->
  (size (cr_entries (g_crds a)) + length (pull_items iter (g_crds b) filters) <=
     cr_max_entries (g_crds a))%nat ->
  let a' := handle_message iter shuffle (send_pull_request a filters t1) resp t3 in
  (forall id e, requested (g_crds b) filters id e ->
     cr_entries (g_crds a') !! id =
       Some (default (mkCrdsEntry (ce_data e) t3 (verifying_key (g_signer b)) 0) (cr_entries (g_crds a) !! id))) /\
  (forall id, (forall e, ~ requested (g_crds b) filters id e) ->
     cr_entries (g_crds a') !! id = cr_entries (g_crds a) !! id) /\
  cr_contacts (g_crds a') !! ci_pubkey (own_contact b) = Some (own_contact b).
Proof.
  intros Hreq Hresp Hkey Hroom. unfold send_pull_request, send in Hreq. cbn [g_sent] in Hreq.
  rewrite last_snoc in Hreq. injection Hreq as <-.
  unfold handle_message in Hresp. rewrite signed_verifies in Hresp. cbn [negb] in Hresp.
  change (gm_type (signed a MtPullRequest (PlPullRequest filters (own_contact a)) t1)) with MtPullRequest
    in Hresp. cbv iota in Hresp. unfold handle_pull_request in Hresp.
  change (gm_payload (signed a MtPullRequest (PlPullRequest filters (own_contact a)) t1))
    with (PlPullRequest filters (own_contact a)) in Hresp.
  cbn [set_stats send g_sent] in Hresp. rewrite last_snoc in Hresp. injection Hresp as <-.
  cbv zeta. unfold handle_message. rewrite signed_verifies. cbn [negb].
  set (resp := signed _ MtPullResponse _ t2).
  change (gm_type resp) with MtPullResponse. cbv iota. unfold handle_pull_response.
  change (gm_payload resp) with (PlPullResponse (pull_items iter (g_crds b) filters) (own_contact b)).
  change (gm_from resp) with (verifying_key (g_signer b)).
  cbv iota. cbn [set_stats set_crds g_crds insert_contact cr_entries cr_contacts send_pull_request send].
  destruct (insert_items_room (verifying_key (g_signer b)) t3 (pull_items iter (g_crds b) filters) (g_crds a))
    as [Hin Hout]; [exact Hroom| |].
  { intros x y (i1 & e1 & [H1 _] & <-)%elem_of_pull_items (i2 & e2 & [H2 _] & <-)%elem_of_pull_items E.
    rewrite (Hkey _ _ H1), (Hkey _ _ H2) in E. congruence. }
  split_and!.
  - intros id e Hr. pose proof (Hkey _ _ (proj1 Hr)) as Hid. rewrite <- Hid. apply Hin, elem_of_pull_items. eauto.
  - intros id Hno. apply Hout. intros (d & -> & (i & e & Hr & <-)%elem_of_pull_items)%list_elem_of_fmap.
    pose proof (Hkey _ _ (proj1 Hr)) as Hid. apply (Hno e). by rewrite Hid.
  - apply lookup_insert_eq.
Qed.

(** A pull response may carry any contact: the recorded contact of a third
    validator is replaced by whatever the responder claims. *)
Lemma contact_not_bound_to_sender g msg items c now :
  gossip_verify msg = true -> gm_type msg = MtPullResponse -> gm_payload msg = PlPullResponse items c ->
  cr_contacts (g_crds (handle_message iter shuffle g msg now)) !! ci_pubkey c = Some c.
Proof.
  intros Hv Ht Hp. unfold handle_message. rewrite Hv, Ht. cbn [negb]. unfold handle_pull_response.
  rewrite Hp. apply lookup_insert_eq.
Qed.

(** A pong from anybody clears a pending ping of its nonce. *)
Lemma pong_not_bound_to_peer g msg nonce now :
  gossip_verify msg = true -> gm_type msg = MtPong -> gm_payload msg = PlPong nonce ->
  g_pending_pings (handle_message iter shuffle g msg now) !! nonce = None.
Proof.
  intros Hv Ht Hp. unfold handle_message. rewrite Hv, Ht. cbn [negb]. unfold handle_pong.
  rewrite Hp. apply lookup_delete_eq.
Qed.
End ProtocolProperties.
