(* ===== verification/Gf256.v ===== *)
(** * The field GF(256) of the erasure code

    Module [gf] of src/crates/turbine/src/erasure.rs: the exponential and
    logarithm tables of the primitive polynomial 0x11D, multiplication, inverse
    and power by table lookup.  The laws are derived from three facts about the
    tables that evaluation settles (every non-zero byte is a power of the
    generator, consecutive powers differ by one shift-and-reduce step, the table
    repeats after 255 entries): no law is checked case by case over triples. *)

From S2P Require Import Prelude.
From stdpp Require Import list.
Open Scope Z_scope.

(** [struct Tables] *)
Record Tables := mkTables { t_exp : list Z; t_log : list Z }.

(** One doubling of the [u16] accumulator: [x <<= 1; if x & 0x100 != 0 { x ^= 0x11d }]. *)
Definition gf_step (x : Z) : Z :=
  let x := Z.land (Z.shiftl x 1) 65535 in
  if Z.land x 256 =? 0 then x else Z.lxor x 285.

(** The loop over [exp[..255]]. *)
Fixpoint fill_tables (n i : nat) (x : Z) (t : Tables) : Tables :=
  match n with
  | O => t
  | S n => fill_tables n (S i) (gf_step x)
             (mkTables (<[i := Z.land x 255]> (t_exp t)) (<[Z.to_nat x := Z.of_nat i]> (t_log t)))
  end.

(** [exp.copy_within(0..255, 255)] *)
Definition duplicate (t : Tables) : Tables :=
  mkTables (take 255 (t_exp t) ++ take 255 (t_exp t) ++ drop 510 (t_exp t)) (t_log t).

(** [gf::tables], initialised once. *)
Definition tables : Tables :=
  Eval vm_compute in duplicate (fill_tables 255 0 1 (mkTables (replicate 512 0) (replicate 256 0))).

(** [t.exp[i]] and [t.log[a]]; every index the code uses is in range. *)
Definition gf_exp (i : nat) : Z := nth i (t_exp tables) 0.
Definition gf_log (a : Z) : nat := Z.to_nat (nth (Z.to_nat a) (t_log tables) 0).

Definition gf_mul (a b : Z) : Z :=
  if (a =? 0) || (b =? 0) then 0 else gf_exp (gf_log a + gf_log b).

(** [gf::inv]; the caller passes a non-zero pivot. *)
Definition gf_inv (a : Z) : Z := gf_exp (255 - gf_log a).

Fixpoint gf_pow_loop (n : nat) (out base : Z) : Z :=
  match n with O => out | S n => gf_pow_loop n (gf_mul out base) base end.
Definition gf_pow (base : Z) (e : nat) : Z := gf_pow_loop e 1 base.

Create HintDb gf.

(** ** Facts about the tables *)

Definition byte_range : list Z := Z.of_nat <$> seq 0 256.

Lemma all_bytes (P : Z -> bool) :
  forallb P byte_range = true -> forall a, is_byte a -> P a = true.
Proof.
  intros H a Ha. unfold byte_range in H. rewrite forallb_forall in H. apply H. apply list_elem_of_In, list_elem_of_fmap.
  exists (Z.to_nat a). unfold is_byte in Ha. split; [lia|]. apply elem_of_seq. lia.
Qed.

Lemma all_below n (P : nat -> bool) :
  forallb P (seq 0 n) = true -> forall i, (i < n)%nat -> P i = true.
Proof.
  intros H i Hi. rewrite forallb_forall in H. apply H, in_seq. lia.
Qed.

Lemma exp_log a : is_byte a -> a <> 0 -> gf_exp (gf_log a) = a /\ (gf_log a < 255)%nat.
Proof.
  intros Ha Hz.
  assert (H := all_bytes (fun a => (a =? 0) || ((gf_exp (gf_log a) =? a) && (gf_log a <? 255)%nat))
                 ltac:(vm_compute; reflexivity) a Ha).
  cbv beta in H. apply orb_true_iff in H as [H|H]; [lia|].
  apply andb_true_iff in H as [?%Z.eqb_eq ?%Nat.ltb_lt]. done.
Qed.

Lemma exp_facts i : (i < 255)%nat ->
  is_byte (gf_exp i) /\ gf_exp i <> 0 /\ gf_log (gf_exp i) = i /\
  gf_exp (i + 255) = gf_exp i /\ gf_exp (S i) = gf_step (gf_exp i).
Proof.
  intros Hi.
  assert (H := all_below 255 (fun i => (0 <=? gf_exp i) && (gf_exp i <? 256) && negb (gf_exp i =? 0) &&
    (gf_log (gf_exp i) =? i)%nat && (gf_exp (i + 255) =? gf_exp i) &&
    (gf_exp (S i) =? gf_step (gf_exp i))) ltac:(vm_compute; reflexivity) i Hi).
  cbv beta in H. rewrite !andb_true_iff in H. destruct H as [[[[[H1 H2] H3] H4] H5] H6].
  apply negb_true_iff in H3. unfold is_byte.
  apply Z.leb_le in H1. apply Z.ltb_lt in H2. apply Z.eqb_neq in H3. apply Nat.eqb_eq in H4.
  apply Z.eqb_eq in H5, H6. done.
Qed.

(** Powers of the generator, for every exponent. *)
Definition gf_gen (i : nat) : Z := gf_exp (i mod 255).

Lemma exp_gen i : (i < 510)%nat -> gf_exp i = gf_gen i.
Proof.
  intros Hi. unfold gf_gen. destruct (decide (i < 255)%nat) as [H|H].
  - by rewrite Nat.mod_small.
  - replace i with (i - 255 + 255)%nat at 1 by lia.
    destruct (exp_facts (i - 255)) as (_ & _ & _ & -> & _); [lia|].
    f_equal. replace i with (i - 255 + 1 * 255)%nat at 2 by lia.
    rewrite Nat.Div0.mod_add. by rewrite Nat.mod_small by lia.
Qed.

Lemma gen_small i : (i < 255)%nat -> gf_gen i = gf_exp i.
Proof. intros. unfold gf_gen. by rewrite Nat.mod_small. Qed.

Lemma gen_byte i : is_byte (gf_gen i).
Proof. apply (exp_facts (i mod 255)). apply Nat.mod_upper_bound. lia. Qed.

Lemma gen_nonzero i : gf_gen i <> 0.
Proof. apply (exp_facts (i mod 255)). apply Nat.mod_upper_bound. lia. Qed.

Lemma log_gen i : gf_log (gf_gen i) = (i mod 255)%nat.
Proof. apply (exp_facts (i mod 255)). apply Nat.mod_upper_bound. lia. Qed.

Lemma gen_mod i j : (i mod 255 = j mod 255)%nat -> gf_gen i = gf_gen j.
Proof. unfold gf_gen. by intros ->. Qed.

Lemma byte_gen a : is_byte a -> a <> 0 -> exists i, (i < 255)%nat /\ a = gf_gen i.
Proof.
  intros Ha Hz. destruct (exp_log a Ha Hz) as [E Hl]. exists (gf_log a). split; [done|].
  by rewrite gen_small.
Qed.

Lemma mul_gen i j : gf_mul (gf_gen i) (gf_gen j) = gf_gen (i + j).
Proof.
  unfold gf_mul. rewrite !(proj2 (Z.eqb_neq _ _) (gen_nonzero _)). simpl.
  rewrite !log_gen.
  assert (i mod 255 < 255 /\ j mod 255 < 255)%nat by (split; apply Nat.mod_upper_bound; lia).
  rewrite exp_gen by lia. apply gen_mod. symmetry. apply Nat.Div0.add_mod.
Qed.

Lemma gen_S i : gf_gen (S i) = gf_step (gf_gen i).
Proof.
  destruct (exp_facts (i mod 255)) as (_ & _ & _ & _ & E); [apply Nat.mod_upper_bound; lia|].
  unfold gf_gen at 2. rewrite <- E.
  assert (i mod 255 < 255)%nat by (apply Nat.mod_upper_bound; lia).
  rewrite exp_gen by lia. apply gen_mod.
  change (S i) with (1 + i)%nat. change (S (i mod 255)) with (1 + i mod 255)%nat.
  by rewrite Nat.Div0.add_mod_idemp_r.
Qed.

(** ** Field laws *)

Lemma gf_mul_0_l a : gf_mul 0 a = 0.
Proof. done. Qed.
Lemma gf_mul_0_r a : gf_mul a 0 = 0.
Proof. unfold gf_mul. by rewrite orb_comm. Qed.

Lemma gf_mul_comm a b : gf_mul a b = gf_mul b a.
Proof. unfold gf_mul. rewrite orb_comm. by rewrite Nat.add_comm. Qed.

Lemma gf_mul_byte a b : is_byte a -> is_byte b -> is_byte (gf_mul a b).
Proof.
  intros Ha Hb. destruct (decide (a = 0)) as [->|Hza]; [by rewrite gf_mul_0_l|].
  destruct (decide (b = 0)) as [->|Hzb]; [by rewrite gf_mul_0_r|].
  destruct (byte_gen a) as (i & _ & ->), (byte_gen b) as (j & _ & ->); [done..|].
  rewrite mul_gen. apply gen_byte.
Qed.

Lemma gf_mul_1_l a : is_byte a -> gf_mul 1 a = a.
Proof.
  intros Ha. destruct (decide (a = 0)) as [->|Hz]; [by rewrite gf_mul_0_r|].
  destruct (byte_gen a) as (i & _ & ->); [done..|].
  change 1 with (gf_gen 0). by rewrite mul_gen.
Qed.

Lemma gf_mul_assoc a b c : is_byte a -> is_byte b -> is_byte c ->
  gf_mul a (gf_mul b c) = gf_mul (gf_mul a b) c.
Proof.
  intros Ha Hb Hc.
  destruct (decide (a = 0)) as [->|Hza]; [by rewrite !gf_mul_0_l|].
  destruct (decide (b = 0)) as [->|Hzb]; [by rewrite gf_mul_0_l, gf_mul_0_r|].
  destruct (decide (c = 0)) as [->|Hzc]; [by rewrite !gf_mul_0_r|].
  destruct (byte_gen a) as (i & _ & ->), (byte_gen b) as (j & _ & ->),
    (byte_gen c) as (l & _ & ->); [done..|].
  by rewrite !mul_gen, Nat.add_assoc.
Qed.

Lemma gf_mul_inv a : is_byte a -> a <> 0 -> gf_mul a (gf_inv a) = 1.
Proof.
  intros Ha Hz. destruct (byte_gen a) as (i & Hi & ->); [done..|].
  unfold gf_inv. rewrite log_gen, Nat.mod_small by done. rewrite exp_gen by lia.
  rewrite mul_gen. change 1 with (gf_gen 0). apply gen_mod.
  replace (i + (255 - i))%nat with 255%nat by lia. done.
Qed.

Lemma gf_inv_byte a : is_byte a -> a <> 0 -> is_byte (gf_inv a).
Proof.
  intros Ha Hz. destruct (byte_gen a) as (i & Hi & ->); [done..|].
  unfold gf_inv. rewrite log_gen, Nat.mod_small by done. rewrite exp_gen by lia. apply gen_byte.
Qed.

Lemma gf_mul_zero a b : is_byte a -> is_byte b -> gf_mul a b = 0 -> a = 0 \/ b = 0.
Proof.
  intros Ha Hb H. destruct (decide (a = 0)) as [->|Hza]; [by left|].
  destruct (decide (b = 0)) as [->|Hzb]; [by right|].
  destruct (byte_gen a) as (i & _ & ->), (byte_gen b) as (j & _ & ->); [done..|].
  rewrite mul_gen in H. by apply gen_nonzero in H.
Qed.

Lemma gf_add_byte a b : is_byte a -> is_byte b -> is_byte (Z.lxor a b).
Proof.
  unfold is_byte. intros Ha Hb. split; [apply Z.lxor_nonneg; lia|].
  destruct (decide (Z.lxor a b = 0)) as [->|Hz]; [lia|].
  assert (0 <= Z.lxor a b) by (apply Z.lxor_nonneg; lia).
  apply (Z.log2_lt_pow2 _ 8); [lia|].
  eapply Z.le_lt_trans; [apply Z.log2_lxor; lia|].
  assert (Hlog : forall c, 0 <= c < 256 -> Z.log2 c < 8).
  { intros c Hc. destruct (decide (c = 0)) as [->|]; [done|]. apply Z.log2_lt_pow2; lia. }
  apply Z.max_lub_lt; auto.
Qed.

#[export] Hint Resolve gf_mul_byte gf_add_byte gf_inv_byte : gf.

(** Doubling is additive. *)
Lemma gf_step_add a b : is_byte a -> is_byte b ->
  gf_step (Z.lxor a b) = Z.lxor (gf_step a) (gf_step b).
Proof.
  intros Ha Hb.
  assert (H := all_bytes (fun a => forallb (fun b => gf_step (Z.lxor a b) =? Z.lxor (gf_step a) (gf_step b))
    byte_range) ltac:(vm_compute; reflexivity) a Ha).
  apply Z.eqb_eq. exact (all_bytes _ H b Hb).
Qed.

Lemma gf_step_byte a : is_byte a -> is_byte (gf_step a).
Proof.
  intros Ha.
  assert (H := all_bytes (fun a => (0 <=? gf_step a) && (gf_step a <? 256))
                 ltac:(vm_compute; reflexivity) a Ha).
  cbv beta in H. unfold is_byte. lia.
Qed.

(** Multiplying by a power of the generator is repeated doubling. *)
Lemma mul_gen_iter i a : is_byte a -> gf_mul (gf_gen i) a = Nat.iter i gf_step a.
Proof.
  intros Ha. induction i as [|i IH].
  - change (gf_gen 0) with 1. by apply gf_mul_1_l.
  - simpl. rewrite <- IH. destruct (decide (a = 0)) as [->|Hz]; [by rewrite !gf_mul_0_r|].
    destruct (byte_gen a) as (j & _ & ->); [done..|]. rewrite !mul_gen. apply gen_S.
Qed.

Lemma iter_step_add i a b : is_byte a -> is_byte b ->
  Nat.iter i gf_step (Z.lxor a b) = Z.lxor (Nat.iter i gf_step a) (Nat.iter i gf_step b).
Proof.
  intros Ha Hb. assert (Hi : forall c, is_byte c -> is_byte (Nat.iter i gf_step c)).
  { intros c Hc. clear Ha Hb. induction i; simpl; [done|]. by apply gf_step_byte. }
  revert Hi. induction i as [|i IH]; intros Hi; [done|]. simpl in *.
  assert (forall c, is_byte c -> is_byte (Nat.iter i gf_step c)).
  { intros c Hc. clear -Hc. induction i; simpl; [done|]. by apply gf_step_byte. }
  rewrite IH by done. apply gf_step_add; eauto.
Qed.

Lemma gf_mul_add_r a b c : is_byte a -> is_byte b -> is_byte c ->
  gf_mul a (Z.lxor b c) = Z.lxor (gf_mul a b) (gf_mul a c).
Proof.
  intros Ha Hb Hc. destruct (decide (a = 0)) as [->|Hz]; [by rewrite !gf_mul_0_l|].
  destruct (byte_gen a) as (i & _ & ->); [done..|].
  rewrite !mul_gen_iter by auto using gf_add_byte. by apply iter_step_add.
Qed.

Lemma gf_mul_add_l a b c : is_byte a -> is_byte b -> is_byte c ->
  gf_mul (Z.lxor a b) c = Z.lxor (gf_mul a c) (gf_mul b c).
Proof. intros. rewrite !(gf_mul_comm _ c). by apply gf_mul_add_r. Qed.

(** Powers. *)
Lemma gf_pow_byte b e : is_byte b -> is_byte (gf_pow b e).
Proof.
  intros Hb. unfold gf_pow. assert (Ho : is_byte 1) by done. revert Ho. generalize 1.
  induction e as [|e IH]; intros o Ho; simpl; eauto with gf.
Qed.

Lemma gf_pow_S b e : is_byte b -> gf_pow b (S e) = gf_mul b (gf_pow b e).
Proof.
  intros Hb. unfold gf_pow. simpl. rewrite gf_mul_1_l by done.
  assert (H : forall o, is_byte o -> gf_pow_loop e (gf_mul b o) b = gf_mul b (gf_pow_loop e o b)).
  { induction e as [|e IH]; intros o Ho; simpl; [done|].
    rewrite <- gf_mul_assoc by done. apply IH. eauto with gf. }
  rewrite <- H by done. by rewrite gf_mul_comm, gf_mul_1_l.
Qed.

#[export] Hint Resolve gf_pow_byte : gf.
