(* ===== verification/Matrix.v ===== *)
(** * Linear algebra of the erasure code

    Gauss-Jordan inversion ([mat_inv]) and the systematic generator matrix
    ([generator]) of src/crates/turbine/src/erasure.rs.  The correctness proof
    follows one invariant through the elimination: the set of vectors the rows
    of the augmented matrix annihilate never changes.  That set is the graph of
    the matrix as a linear map, so it gives both inverse laws and, when no pivot
    is found, a non-trivial kernel, which a Vandermonde matrix does not have. *)

From S2P Require Import Prelude Gf256.
From stdpp Require Import list.
Open Scope Z_scope.

(** ** Matrices as the code has them: vectors of rows *)

Abbreviation matrix := (list (list Z)).

(** [a[r][c]] *)
Definition cell (a : matrix) (r c : nat) : Z := nth c (nth r a []) 0.

(** [(col..n).find(|&r| a[r][col] != 0)] *)
Definition find_pivot (a : matrix) (col n : nat) : option nat :=
  List.find (fun r => negb (cell a r col =? 0)) (seq col (n - col)).

(** [a.swap(i, j)] *)
Definition swap_rows (a : matrix) (i j : nat) : matrix :=
  <[j := nth i a []]> (<[i := nth j a []]> a).

(** Normalize the pivot row. *)
Definition normalize_row (a : matrix) (col : nat) : matrix :=
  let piv_inv := gf_inv (cell a col col) in
  <[col := (fun v => gf_mul v piv_inv) <$> nth col a []]> a.

(** Eliminate the column from all other rows. *)
Definition clear_column (a : matrix) (col : nat) : matrix :=
  let pivot_row := nth col a [] in
  imap (fun r row =>
          let factor := nth col row 0 in
          if negb (r =? col)%nat && negb (factor =? 0)
          then zip_with (fun v p => Z.lxor v (gf_mul factor p)) row pivot_row
          else row) a.

(** One iteration of [for col in 0..n] of [mat_inv]. *)
Definition eliminate (n : nat) (a : matrix) (col : nat) : option matrix :=
  piv ← find_pivot a col n;
  Some (clear_column (normalize_row (swap_rows a col piv) col) col).

Fixpoint eliminate_all (n : nat) (cols : list nat) (a : matrix) : option matrix :=
  match cols with
  | [] => Some a
  | col :: cols => eliminate n a col ≫= eliminate_all n cols
  end.

(** [aug.extend((0..n).map(|c| u8::from(c == r)))] *)
Definition unit_row (n r : nat) : list Z := (fun c => if (c =? r)%nat then 1 else 0) <$> seq 0 n.
Definition augment (m : matrix) : matrix := imap (fun r row => row ++ unit_row (length m) r) m.

Definition mat_inv (m : matrix) : option matrix :=
  let n := length m in
  match eliminate_all n (seq 0 n) (augment m) with
  | Some a => Some (map (drop n) a)
  | None => None
  end.

(** [acc ^= gf::mul(..)] over two equally long vectors *)
Definition dot (u v : list Z) : Z :=
  foldl Z.lxor 0 (zip_with gf_mul u v).

(** [V[r][c] = pow(r as u8, c)] *)
Definition vandermonde_row (k r : nat) : list Z :=
  (fun c => gf_pow (Z.land (Z.of_nat r) 255) c) <$> seq 0 k.

Definition column (a : matrix) (k c : nat) : list Z := (fun t => cell a t c) <$> seq 0 k.

Definition generator (k m : nat) : option matrix :=
  let v := vandermonde_row k <$> seq 0 (k + m) in
  top_inv ← mat_inv (take k v);
  Some ((fun row => (fun c => dot row (column top_inv k c)) <$> seq 0 k) <$> v).

(** ** Dot products *)

(** Equality of sums of field elements: both sides have the same bits. *)
Ltac xor_solve :=
  apply Z.bits_inj'; intros ? _; rewrite ?Z.lxor_spec, ?Z.bits_0;
  repeat match goal with |- context [Z.testbit ?a ?n] => destruct (Z.testbit a n) end; reflexivity.

Definition vec_ok (n : nat) (v : list Z) : Prop := length v = n /\ bytes_ok v.
Definition mat_ok (w : nat) (a : matrix) : Prop := Forall (vec_ok w) a.

Lemma foldl_xor x l : foldl Z.lxor x l = Z.lxor x (foldl Z.lxor 0 l).
Proof.
  revert x. induction l as [|y l IH]; intros x; cbn [foldl]; [by rewrite Z.lxor_0_r|].
  by rewrite IH, (IH (Z.lxor 0 y)), Z.lxor_0_l, Z.lxor_assoc.
Qed.

Lemma dot_cons a u b v : dot (a :: u) (b :: v) = Z.lxor (gf_mul a b) (dot u v).
Proof. unfold dot. cbn [zip_with foldl]. by rewrite foldl_xor, Z.lxor_0_l. Qed.

Lemma dot_byte u v : bytes_ok u -> bytes_ok v -> is_byte (dot u v).
Proof.
  intros Hu. revert v. induction Hu as [|a u Ha Hu IH]; intros v Hv; [done|].
  destruct Hv as [|b v Hb Hv]; [done|]. rewrite dot_cons. auto with gf.
Qed.

Lemma dot_app u1 u2 v1 v2 : length u1 = length v1 ->
  dot (u1 ++ u2) (v1 ++ v2) = Z.lxor (dot u1 v1) (dot u2 v2).
Proof.
  revert v1. induction u1 as [|a u1 IH]; intros [|b v1] Hl; simplify_eq/=; [done|].
  rewrite !dot_cons, IH by done. by rewrite Z.lxor_assoc.
Qed.

Lemma dot_zeros_r u n : dot u (replicate n 0) = 0.
Proof.
  revert n. induction u as [|a u IH]; intros [|n]; [done..|]. simpl replicate.
  by rewrite dot_cons, gf_mul_0_r, IH.
Qed.

Lemma dot_comm u v : dot u v = dot v u.
Proof.
  revert v. induction u as [|a u IH]; intros [|b v]; [done..|].
  by rewrite !dot_cons, gf_mul_comm, IH.
Qed.

Lemma dot_scale u x c : bytes_ok u -> bytes_ok x -> is_byte c ->
  dot ((fun v => gf_mul v c) <$> u) x = gf_mul c (dot u x).
Proof.
  intros Hu Hx Hc. revert x Hx. induction Hu as [|a u Ha Hu IH]; intros x Hx; [by rewrite gf_mul_0_r|].
  destruct Hx as [|b x Hb Hx]; [by rewrite gf_mul_0_r|]. rewrite fmap_cons, !dot_cons.
  rewrite IH, gf_mul_add_r by auto using dot_byte with gf.
  rewrite (gf_mul_comm a c), gf_mul_assoc by done. done.
Qed.

Lemma dot_axpy u w x f : length u = length w -> bytes_ok u -> bytes_ok w -> bytes_ok x -> is_byte f ->
  dot (zip_with (fun v p => Z.lxor v (gf_mul f p)) u w) x = Z.lxor (dot u x) (gf_mul f (dot w x)).
Proof.
  intros Hl Hu. revert w x Hl. induction Hu as [|a u Ha Hu IH]; intros [|b w] x Hl Hw Hx Hf;
    simplify_eq/=; [by rewrite gf_mul_0_r|].
  inversion_clear Hw. destruct Hx as [|c x Hc Hx]; [by rewrite gf_mul_0_r|].
  rewrite !dot_cons, IH by done.
  rewrite (gf_mul_add_l a), (gf_mul_add_r f) by auto using dot_byte with gf.
  rewrite gf_mul_assoc by done. xor_solve.
Qed.

Lemma length_unit_row n r : length (unit_row n r) = n.
Proof. unfold unit_row. by rewrite length_fmap, length_seq. Qed.

Lemma unit_row_ok n r : vec_ok n (unit_row n r).
Proof.
  split; [apply length_unit_row|]. apply Forall_fmap, Forall_forall. intros c _. simpl.
  destruct (c =? r)%nat; done.
Qed.

Lemma dot_indicator s n r x : length x = n -> bytes_ok x ->
  dot ((fun c => if (c =? r)%nat then 1 else 0) <$> seq s n) x =
  if (s <=? r)%nat then nth (r - s) x 0 else 0.
Proof.
  intros Hl Hx. revert s n Hl. induction Hx as [|a x Ha Hx IH]; intros s n <-.
  - simpl. by destruct (s <=? r)%nat, (r - s)%nat.
  - simpl length. cbn [seq]. rewrite fmap_cons, dot_cons, IH by done.
    destruct (Nat.eqb_spec s r) as [->|Hne].
    + rewrite gf_mul_1_l by done. rewrite Nat.leb_refl, Nat.sub_diag.
      rewrite (proj2 (Nat.leb_gt (S r) r)) by lia. apply Z.lxor_0_r.
    + rewrite gf_mul_0_l, Z.lxor_0_l. destruct (Nat.leb_spec (S s) r) as [H|H].
      * rewrite (proj2 (Nat.leb_le s r)) by lia. by replace (r - s)%nat with (S (r - S s)) by lia.
      * by rewrite (proj2 (Nat.leb_gt s r)) by lia.
Qed.

Lemma dot_unit n r x : vec_ok n x -> dot (unit_row n r) x = nth r x 0.
Proof. intros [Hl Hx]. unfold unit_row. rewrite dot_indicator by done. by rewrite Nat.sub_0_r. Qed.

(** ** Gauss-Jordan elimination *)

(** The vectors every row annihilates. *)
Definition annihilates (a : matrix) (z : list Z) : Prop := Forall (fun row => dot row z = 0) a.

(** The first [c] columns are those of the identity. *)
Definition unit_cols (c : nat) (a : matrix) : Prop :=
  forall r j, (r < length a)%nat -> (j < c)%nat -> cell a r j = if (r =? j)%nat then 1 else 0.

Lemma mat_row w a r : mat_ok w a -> (r < length a)%nat -> vec_ok w (nth r a []).
Proof.
  intros Ha Hr. unfold mat_ok in Ha. rewrite Forall_forall in Ha. apply Ha, list_elem_of_In, nth_In, Hr.
Qed.

Lemma cell_byte w a r c : mat_ok w a -> is_byte (cell a r c).
Proof.
  intros Ha. unfold cell. destruct (decide (r < length a)%nat) as [Hr|Hr].
  - destruct (mat_row w a r Ha Hr) as [_ Hb].
    destruct (nth_in_or_default c (nth r a []) 0) as [Hin| ->]; [|done].
    unfold bytes_ok in Hb. rewrite Forall_forall in Hb. by apply Hb, list_elem_of_In.
  - rewrite (nth_overflow a) by lia. by destruct c.
Qed.

Lemma nth_insert {A} (l : list A) i j x d :
  nth j (<[i := x]> l) d = if (j =? i)%nat && (i <? length l)%nat then x else nth j l d.
Proof.
  rewrite !nth_lookup. destruct (Nat.eqb_spec j i) as [->|Hne]; simpl.
  - destruct (Nat.ltb_spec i (length l)).
    + by rewrite list_lookup_insert_eq by done.
    + by rewrite list_insert_ge by done.
  - by rewrite list_lookup_insert_ne by done.
Qed.

Lemma length_swap_rows a i j : length (swap_rows a i j) = length a.
Proof. unfold swap_rows. by rewrite !length_insert. Qed.

Lemma swap_rows_nth a i j r : (i < length a)%nat -> (j < length a)%nat ->
  nth r (swap_rows a i j) [] =
  if (r =? j)%nat then nth i a [] else if (r =? i)%nat then nth j a [] else nth r a [].
Proof.
  intros Hi Hj. unfold swap_rows. rewrite !nth_insert, length_insert.
  rewrite (proj2 (Nat.ltb_lt j _)) by done. rewrite (proj2 (Nat.ltb_lt i _)) by done.
  by rewrite !andb_true_r.
Qed.

Lemma annihilates_nth a z :
  annihilates a z <-> forall r, (r < length a)%nat -> dot (nth r a []) z = 0.
Proof.
  unfold annihilates. rewrite Forall_lookup. split.
  - intros H r Hr. eapply H. rewrite nth_lookup.
    destruct (lookup_lt_is_Some_2 a r Hr) as [x Hx]. by rewrite Hx.
  - intros H r x Hx. specialize (H r (lookup_lt_Some _ _ _ Hx)). by rewrite nth_lookup, Hx in H.
Qed.

Lemma annihilates_swap a i j z : (i < length a)%nat -> (j < length a)%nat ->
  annihilates (swap_rows a i j) z <-> annihilates a z.
Proof.
  intros Hi Hj. rewrite !annihilates_nth, length_swap_rows. split; intros H r Hr.
  - destruct (decide (r = i)) as [->|Hri].
    + specialize (H j Hj). by rewrite swap_rows_nth, Nat.eqb_refl in H.
    + destruct (decide (r = j)) as [->|Hrj].
      * specialize (H i Hi). rewrite swap_rows_nth, Nat.eqb_refl in H by done.
        by destruct (i =? j)%nat eqn:E; [apply Nat.eqb_eq in E; subst|].
      * specialize (H r Hr). rewrite swap_rows_nth in H by done.
        by rewrite !(proj2 (Nat.eqb_neq _ _)) in H by done.
  - rewrite swap_rows_nth by done. repeat case_match; auto.
Qed.

Lemma nth_imap {A} (f : nat -> A -> A) l r d : (r < length l)%nat ->
  nth r (imap f l) d = f r (nth r l d).
Proof.
  intros Hr. rewrite !nth_lookup, list_lookup_imap.
  destruct (lookup_lt_is_Some_2 l r Hr) as [x Hx]. by rewrite Hx.
Qed.

Lemma nth_zip_with (f : Z -> Z -> Z) u w c : length u = length w -> f 0 0 = 0 ->
  nth c (zip_with f u w) 0 = f (nth c u 0) (nth c w 0).
Proof.
  intros Hl Hf. revert w c Hl. induction u as [|a u IH]; intros [|b w] [|c] Hl; simplify_eq/=; auto.
Qed.

Lemma zip_axpy_ok w u p f : vec_ok w u -> vec_ok w p -> is_byte f ->
  vec_ok w (zip_with (fun v q => Z.lxor v (gf_mul f q)) u p).
Proof.
  intros [Hlu Hu] [Hlp Hp] Hf. split; [rewrite length_zip_with_l_eq; congruence|].
  clear Hlu Hlp. revert p Hp. induction Hu as [|a u Ha Hu IH]; intros p Hp; [constructor|].
  destruct Hp; simpl; constructor; auto with gf. by apply IH.
Qed.

Lemma scale_ok w u c : vec_ok w u -> is_byte c -> vec_ok w ((fun v => gf_mul v c) <$> u).
Proof.
  intros [Hl Hu] Hc. split; [by rewrite length_fmap|]. apply Forall_fmap.
  eapply Forall_impl; [exact Hu|]. intros a Ha. simpl. auto with gf.
Qed.

Lemma find_pivot_Some a col n piv : find_pivot a col n = Some piv ->
  (col <= piv < n)%nat /\ cell a piv col <> 0.
Proof.
  unfold find_pivot. intros H. apply find_some in H as [Hin Hnz]. apply in_seq in Hin.
  split; [lia|]. apply negb_true_iff, Z.eqb_neq in Hnz. done.
Qed.

Lemma find_pivot_None a col n : find_pivot a col n = None ->
  forall r, (col <= r < n)%nat -> cell a r col = 0.
Proof.
  unfold find_pivot. intros H r Hr. eapply find_none in H; [|apply in_seq; instantiate (1 := r); lia].
  apply negb_false_iff, Z.eqb_eq in H. done.
Qed.

(** What the elimination keeps from its input [a0]: the shape, and the set of
    annihilated vectors. *)
Definition row_equiv (w : nat) (a0 a : matrix) : Prop :=
  length a = length a0 /\ mat_ok w a /\
  forall z, bytes_ok z -> annihilates a z <-> annihilates a0 z.

Lemma row_equiv_trans w a b c : row_equiv w a b -> row_equiv w b c -> row_equiv w a c.
Proof.
  intros (Hl1 & _ & H1) (Hl2 & Hm & H2). split; [congruence|]. split; [done|].
  intros z Hz. by rewrite H2, H1.
Qed.

Lemma swap_equiv w a i j : mat_ok w a -> (i < length a)%nat -> (j < length a)%nat ->
  row_equiv w a (swap_rows a i j).
Proof.
  intros Ha Hi Hj. split; [apply length_swap_rows|]. split.
  - unfold swap_rows. apply Forall_insert; [apply Forall_insert; [done|]|]; by apply mat_row.
  - intros z _. by apply annihilates_swap.
Qed.

Lemma normalize_equiv w a col : mat_ok w a -> (col < length a)%nat -> cell a col col <> 0 ->
  row_equiv w a (normalize_row a col).
Proof.
  intros Ha Hc Hnz. pose proof (cell_byte w a col col Ha) as Hb.
  pose proof (mat_row w a col Ha Hc) as Hrow. unfold normalize_row.
  split; [by rewrite length_insert|]. split.
  - apply Forall_insert; [done|]. apply scale_ok; auto with gf.
  - intros z Hz. rewrite !annihilates_nth, length_insert.
    assert (E : dot ((fun v => gf_mul v (gf_inv (cell a col col))) <$> nth col a []) z =
                gf_mul (gf_inv (cell a col col)) (dot (nth col a []) z)).
    { apply dot_scale; [apply Hrow|done|auto with gf]. }
    assert (Hnth : forall r x, nth r (<[col := x]> a) [] = if (r =? col)%nat then x else nth r a []).
    { intros r x. by rewrite nth_insert, (proj2 (Nat.ltb_lt _ _) Hc), andb_true_r. }
    split; intros H r Hr; specialize (H r Hr); [rewrite Hnth in H|rewrite Hnth].
    + destruct (Nat.eqb_spec r col) as [e|Hrc]; [subst r|done]. rewrite E in H.
      apply gf_mul_zero in H as [H|H]; [|done|auto with gf|apply dot_byte; [apply Hrow|done]].
      pose proof (gf_mul_inv _ Hb Hnz) as Hi. rewrite H, gf_mul_0_r in Hi. done.
    + destruct (Nat.eqb_spec r col) as [e|Hrc]; [subst r|done]. by rewrite E, H, gf_mul_0_r.
Qed.

Lemma clear_nth a col r : (r < length a)%nat ->
  nth r (clear_column a col) [] =
  if negb (r =? col)%nat && negb (cell a r col =? 0)
  then zip_with (fun v p => Z.lxor v (gf_mul (cell a r col) p)) (nth r a []) (nth col a [])
  else nth r a [].
Proof. intros Hr. unfold clear_column. by rewrite nth_imap by done. Qed.

Lemma clear_equiv w a col : mat_ok w a -> (col < length a)%nat -> row_equiv w a (clear_column a col).
Proof.
  intros Ha Hc. assert (Hl : length (clear_column a col) = length a) by apply length_imap.
  split; [done|]. split.
  - apply Forall_lookup. intros r row Hrow. pose proof (lookup_lt_Some _ _ _ Hrow) as Hr.
    rewrite Hl in Hr. apply (nth_lookup_Some _ _ []) in Hrow. subst row. rewrite clear_nth by done.
    case_match; [|by apply mat_row].
    apply zip_axpy_ok; [by apply mat_row..|by eapply cell_byte].
  - intros z Hz. rewrite !annihilates_nth, Hl.
    assert (E : forall r, (r < length a)%nat -> dot (nth col a []) z = 0 ->
      dot (nth r (clear_column a col) []) z = dot (nth r a []) z).
    { intros r Hr Hp. rewrite clear_nth by done. case_match; [|done].
      destruct (mat_row _ _ _ Ha Hr), (mat_row _ _ _ Ha Hc).
      rewrite dot_axpy, Hp, gf_mul_0_r, Z.lxor_0_r; [done|congruence|done..|by eapply cell_byte]. }
    split; intros H r Hr.
    + rewrite <- E; auto. specialize (H col Hc). by rewrite clear_nth, Nat.eqb_refl in H.
    + rewrite E; auto.
Qed.

Lemma cell_swap a i j r c : (i < length a)%nat -> (j < length a)%nat ->
  cell (swap_rows a i j) r c =
  if (r =? j)%nat then cell a i c else if (r =? i)%nat then cell a j c else cell a r c.
Proof. intros. unfold cell. rewrite swap_rows_nth by done. by repeat case_match. Qed.

Lemma cell_normalize a col r c : (col < length a)%nat ->
  cell (normalize_row a col) r c =
  if (r =? col)%nat then gf_mul (cell a col c) (gf_inv (cell a col col)) else cell a r c.
Proof.
  intros Hc. unfold cell at 1, normalize_row. rewrite nth_insert, (proj2 (Nat.ltb_lt _ _) Hc), andb_true_r.
  case_match; [|done].
  change 0 with ((fun v => gf_mul v (gf_inv (cell a col col))) 0) at 1. apply map_nth.
Qed.

Lemma cell_clear w a col r c : mat_ok w a -> (r < length a)%nat -> (col < length a)%nat ->
  cell (clear_column a col) r c =
  if (r =? col)%nat then cell a r c
  else Z.lxor (cell a r c) (gf_mul (cell a r col) (cell a col c)).
Proof.
  intros Ha Hr Hc. unfold cell at 1. rewrite clear_nth by done.
  destruct (r =? col)%nat; [done|]. simpl.
  destruct (Z.eqb_spec (cell a r col) 0) as [->|]; simpl.
  - by rewrite gf_mul_0_l, Z.lxor_0_r.
  - destruct (mat_row _ _ _ Ha Hr), (mat_row _ _ _ Ha Hc).
    rewrite nth_zip_with; [done|congruence|]. by rewrite gf_mul_0_r.
Qed.

(** One round: row equivalence, and one more unit column. *)
Lemma eliminate_ok w n a col a' :
  mat_ok w a -> length a = n -> (col < n)%nat -> unit_cols col a ->
  eliminate n a col = Some a' -> row_equiv w a a' /\ unit_cols (S col) a'.
Proof.
  intros Ha <- Hc Hu. unfold eliminate. destruct (find_pivot a col _) as [piv|] eqn:Hp; [|done].
  intros [= <-]. apply find_pivot_Some in Hp as [Hpiv Hnz].
  destruct (swap_equiv w a col piv) as (Hl1 & Hm1 & H1); [done|lia..|].
  set (b := swap_rows a col piv) in *.
  assert (Hbc : cell b col col = cell a piv col).
  { unfold b. rewrite cell_swap by lia. destruct (Nat.eqb_spec col piv) as [<-|]; [done|].
    by rewrite Nat.eqb_refl. }
  assert (Hbu : unit_cols col b).
  { intros r j Hr Hj. rewrite Hl1 in Hr. unfold b. rewrite cell_swap by lia.
    destruct (Nat.eqb_spec r piv) as [e|]; [subst r|destruct (Nat.eqb_spec r col) as [e|]; [subst r|]].
    - rewrite Hu, !(proj2 (Nat.eqb_neq _ _)) by lia. done.
    - rewrite Hu, !(proj2 (Nat.eqb_neq _ _)) by lia. done.
    - by apply Hu. }
  assert (Hnzb : cell b col col <> 0) by congruence.
  destruct (normalize_equiv w b col) as (Hl2 & Hm2 & H2); [done|lia|done|].
  destruct (clear_equiv w (normalize_row b col) col) as (Hl3 & Hm3 & H3); [done|lia|].
  split.
  - split; [congruence|]. split; [done|]. intros z Hz. by rewrite H3, H2, H1.
  - intros r j Hr Hj. rewrite Hl3, Hl2, Hl1 in Hr. rewrite (cell_clear w) by (done || lia).
    rewrite !cell_normalize by lia. rewrite Nat.eqb_refl.
    pose proof (cell_byte w b col col Hm1) as Hb1.
    destruct (decide (j = col)) as [->|Hjc].
    + rewrite gf_mul_inv by done.
      destruct (Nat.eqb_spec r col) as [->|Hrc]; [done|].
      rewrite gf_mul_comm, gf_mul_1_l by (by eapply cell_byte). apply Z.lxor_nilpotent.
    + rewrite (Hbu col j) by lia. rewrite (proj2 (Nat.eqb_neq col j)) by done.
      rewrite gf_mul_0_l. destruct (Nat.eqb_spec r col) as [->|Hrc].
      * by rewrite (proj2 (Nat.eqb_neq col j)).
      * rewrite gf_mul_0_r, Z.lxor_0_r. apply Hbu; lia.
Qed.

(** Either the elimination runs through all columns, or it stops at one whose
    cells on and below the diagonal are all zero. *)
Lemma eliminate_all_spec w n cols a c :
  mat_ok w a -> length a = n -> unit_cols c a -> cols = seq c (n - c) -> (c <= n)%nat ->
  match eliminate_all n cols a with
  | Some a' => row_equiv w a a' /\ unit_cols n a'
  | None => exists a' col, row_equiv w a a' /\ unit_cols col a' /\ (col < n)%nat /\
      forall r, (col <= r < n)%nat -> cell a' r col = 0
  end.
Proof.
  revert a c. induction cols as [|col cols IH]; intros a c Ha Hl Hu Hcols Hc; simpl.
  - assert (c = n) as ->. { destruct (n - c)%nat eqn:E; simplify_eq/=. lia. }
    split; [|done]. split; [done|]. by split.
  - destruct (n - c)%nat as [|d] eqn:E; simplify_eq/=.
    destruct (eliminate (length a) a c) as [a'|] eqn:He; simpl.
    + destruct (eliminate_ok w (length a) a c a') as [Heq Hu']; [done..|lia|done|done|].
      pose proof Heq as (Hl' & Hm' & _).
      specialize (IH a' (S c) Hm' Hl' Hu').
      assert (Hs : seq (S c) d = seq (S c) (length a - S c)) by (f_equal; lia).
      specialize (IH Hs). destruct (eliminate_all _ _ a') as [a''|]; simpl.
      * destruct IH as [Heq' Hu'']; [lia|]. split; [by eapply row_equiv_trans|done].
      * destruct IH as (b & col & Heq' & Hrest); [lia|]. exists b, col.
        split; [by eapply row_equiv_trans|done].
    + exists a, c. split; [split; [done|by split]|]. split; [done|]. split; [lia|].
      unfold eliminate in He. destruct (find_pivot a c _) eqn:Hp; [done|].
      by apply find_pivot_None.
Qed.

(** ** Inverse matrices *)

Definition mat_vec (a : matrix) (x : list Z) : list Z := (fun row => dot row x) <$> a.

Lemma mat_vec_ok w a x : mat_ok w a -> bytes_ok x -> vec_ok (length a) (mat_vec a x).
Proof.
  intros Ha Hx. split; [apply length_fmap|]. apply Forall_fmap.
  eapply Forall_impl; [exact Ha|]. intros row [_ Hrow]. by apply dot_byte.
Qed.

Lemma mat_vec_nth a x r : nth r (mat_vec a x) 0 = dot (nth r a []) x.
Proof. change 0 with (dot [] x) at 1. exact (map_nth (fun row => dot row x) a [] r). Qed.

(** Two vectors with the same cells are equal. *)
Lemma vec_ext n u v : length u = n -> length v = n ->
  (forall i, (i < n)%nat -> nth i u 0 = nth i v 0) -> u = v.
Proof. intros Hu Hv H. apply (nth_ext _ _ 0 0); [congruence|]. rewrite Hu. exact H. Qed.

Lemma augment_nth m r : (r < length m)%nat ->
  nth r (augment m) [] = nth r m [] ++ unit_row (length m) r.
Proof. intros Hr. unfold augment. by rewrite nth_imap. Qed.

Lemma augment_ok m : mat_ok (length m) m -> mat_ok (length m + length m) (augment m).
Proof.
  intros Hm. apply Forall_lookup. intros r row Hrow.
  pose proof (lookup_lt_Some _ _ _ Hrow) as Hr. unfold augment in Hr. rewrite length_imap in Hr.
  apply (nth_lookup_Some _ _ []) in Hrow. subst row. rewrite augment_nth by done.
  destruct (mat_row _ _ _ Hm Hr) as [Hl Hb], (unit_row_ok (length m) r) as [Hl' Hb'].
  split; [rewrite length_app; lia|]. by apply bytes_ok_app.
Qed.

(** The augmented matrix annihilates the graph of the linear map. *)
Lemma augment_graph m x y : mat_ok (length m) m -> vec_ok (length m) x -> vec_ok (length m) y ->
  annihilates (augment m) (x ++ y) <-> mat_vec m x = y.
Proof.
  intros Hm [Hlx Hx] [Hly Hy]. rewrite annihilates_nth.
  assert (Hl : length (augment m) = length m) by apply length_imap. rewrite Hl.
  assert (E : forall r, (r < length m)%nat ->
    dot (nth r (augment m) []) (x ++ y) = Z.lxor (nth r (mat_vec m x) 0) (nth r y 0)).
  { intros r Hr. rewrite augment_nth by done. destruct (mat_row _ _ _ Hm Hr) as [Hlr _].
    rewrite dot_app by congruence. by rewrite dot_unit, mat_vec_nth. }
  split.
  - intros H. apply (vec_ext (length m)); [apply length_fmap|done|].
    intros r Hr. apply Z.lxor_eq. rewrite <- E by done. auto.
  - intros <- r Hr. rewrite E by done. apply Z.lxor_nilpotent.
Qed.

(** With unit columns, a row starts with a row of the identity. *)
Lemma unit_cols_take c w a r : mat_ok w a -> (c <= w)%nat -> unit_cols c a -> (r < length a)%nat ->
  take c (nth r a []) = unit_row c r.
Proof.
  intros Ha Hc Hu Hr. destruct (mat_row _ _ _ Ha Hr) as [Hl _].
  apply (vec_ext c); [rewrite length_take; lia|apply length_unit_row|].
  intros j Hj. rewrite nth_lookup, lookup_take_lt, <- nth_lookup by done.
  change (nth j (nth r a []) 0) with (cell a r j). rewrite Hu by done.
  unfold unit_row. rewrite nth_lookup, list_lookup_fmap, lookup_seq_lt by done. simpl.
  by rewrite Nat.eqb_sym.
Qed.

Lemma augment_unit0 m : unit_cols 0 (augment m).
Proof. intros r j _ Hj. lia. Qed.

(** [mat_inv] returns a two-sided inverse, *)
Lemma mat_inv_Some m r : mat_ok (length m) m -> mat_inv m = Some r ->
  length r = length m /\ mat_ok (length m) r /\
  (forall y, vec_ok (length m) y -> mat_vec m (mat_vec r y) = y) /\
  (forall x, vec_ok (length m) x -> mat_vec r (mat_vec m x) = x).
Proof.
  intros Hm. unfold mat_inv. set (n := length m) in *.
  assert (Hal : length (augment m) = n) by apply length_imap.
  pose proof (eliminate_all_spec (n + n) n (seq 0 n) (augment m) 0 (augment_ok m Hm) Hal
    (augment_unit0 m)) as H. rewrite Nat.sub_0_r in H. specialize (H eq_refl (Nat.le_0_l n)).
  destruct (eliminate_all n (seq 0 n) (augment m)) as [a|]; [|done]. intros [= <-].
  destruct H as [(Hl & Ha & Hz) Hu]. rewrite Hal in Hl.
  assert (Hr : mat_ok n (map (drop n) a)).
  { apply Forall_fmap. eapply Forall_impl; [exact Ha|]. intros row [Hlr Hb]. simpl.
    split; [rewrite length_drop; lia|by apply Forall_drop]. }
  assert (Hlr : length (map (drop n) a) = n) by (by rewrite length_map).
  assert (E : forall x y, vec_ok n x -> vec_ok n y ->
    annihilates a (x ++ y) <-> mat_vec (map (drop n) a) y = x).
  { intros x y [Hlx Hx] [Hly Hy]. rewrite annihilates_nth, Hl.
    assert (Ed : forall i, (i < n)%nat ->
      dot (nth i a []) (x ++ y) = Z.lxor (nth i x 0) (nth i (mat_vec (map (drop n) a) y) 0)).
    { intros i Hi. rewrite <- (take_drop n (nth i a [])).
      rewrite (unit_cols_take n (n + n)) by (done || lia).
      rewrite dot_app by (rewrite length_unit_row; lia). rewrite dot_unit by done.
      rewrite mat_vec_nth. f_equal. f_equal. symmetry.
      rewrite (nth_indep _ [] (drop n [])) by (by rewrite Hlr). apply map_nth. }
    split.
    - intros H. apply (vec_ext n); [unfold mat_vec; by rewrite length_fmap|done|].
      intros i Hi. apply Z.lxor_eq. rewrite Z.lxor_comm, <- Ed by done. auto.
    - intros <- i Hi. rewrite Ed by done. apply Z.lxor_nilpotent. }
  assert (G : forall x y, vec_ok n x -> vec_ok n y ->
    mat_vec m x = y <-> mat_vec (map (drop n) a) y = x).
  { intros x y Hx Hy. rewrite <- E, <- augment_graph by done. symmetry. apply Hz.
    apply bytes_ok_app. split; [apply Hx|apply Hy]. }
  split; [done|]. split; [done|]. split.
  - intros y Hy. apply G; [|done..]. rewrite <- Hlr at 1. eapply mat_vec_ok; [exact Hr|apply Hy].
  - intros x Hx. apply G; [done| |done]. eapply mat_vec_ok; [exact Hm|apply Hx].
Qed.

Lemma nth_zeros i n : nth i (replicate n 0) 0 = 0.
Proof. revert i. induction n; intros [|i]; simpl; auto. Qed.

(** and fails only on a matrix with a non-trivial kernel. *)
Lemma mat_inv_None m : mat_ok (length m) m -> mat_inv m = None ->
  exists x, vec_ok (length m) x /\ mat_vec m x = replicate (length m) 0 /\ x <> replicate (length m) 0.
Proof.
  intros Hm. unfold mat_inv. set (n := length m) in *.
  assert (Hal : length (augment m) = n) by apply length_imap.
  pose proof (eliminate_all_spec (n + n) n (seq 0 n) (augment m) 0 (augment_ok m Hm) Hal
    (augment_unit0 m)) as H. rewrite Nat.sub_0_r in H. specialize (H eq_refl (Nat.le_0_l n)).
  destruct (eliminate_all n (seq 0 n) (augment m)) as [a|]; [done|]. intros _.
  destruct H as (a & col & (Hl & Ha & Hz) & Hu & Hc & Hzero). rewrite Hal in Hl.
  set (x1 := (fun j => cell a j col) <$> seq 0 col).
  assert (Hx1 : vec_ok col x1).
  { split; [unfold x1; by rewrite length_fmap, length_seq|]. apply Forall_fmap, Forall_forall.
    intros j _. by eapply cell_byte. }
  set (x := x1 ++ 1 :: replicate (n - S col) 0).
  assert (Hzs : forall k, bytes_ok (replicate k 0)) by (intros k; by apply Forall_replicate).
  assert (Hx : vec_ok n x).
  { destruct Hx1 as [Hl1 Hb1]. split.
    - unfold x. rewrite length_app. simpl. rewrite length_replicate. lia.
    - apply bytes_ok_app. split; [done|]. constructor; [done|apply Hzs]. }
  exists x. split; [done|]. split.
  - apply augment_graph; [done|done|split; [apply length_replicate|apply Hzs]|].
    apply Hz; [apply bytes_ok_app; split; [apply Hx|apply Hzs]|].
    apply annihilates_nth. intros r Hr. destruct (mat_row _ _ _ Ha Hr) as [Hlr Hbr].
    rewrite Hl in Hr. rewrite <- (take_drop col (nth r a [])).
    rewrite (unit_cols_take col (n + n)) by (done || lia).
    unfold x. rewrite <- app_assoc, dot_app by (rewrite length_unit_row; symmetry; apply Hx1).
    rewrite dot_unit by done.
    assert (Hd : drop col (nth r a []) = cell a r col :: drop (S col) (nth r a [])).
    { apply drop_S. unfold cell. rewrite (nth_lookup (nth r a []) col 0).
      destruct (lookup_lt_is_Some_2 (nth r a []) col) as [v Hv]; [lia|]. by rewrite Hv. }
    rewrite Hd. cbn [app]. rewrite dot_cons, <- replicate_add, dot_zeros_r, Z.lxor_0_r.
    rewrite gf_mul_comm, gf_mul_1_l by (by eapply cell_byte).
    assert (Hn : nth r x1 0 = cell a r col); [|rewrite Hn; apply Z.lxor_nilpotent].
    destruct (decide (r < col)%nat).
    + unfold x1. by rewrite nth_lookup, list_lookup_fmap, lookup_seq_lt by done.
    + rewrite nth_overflow by (destruct Hx1; lia). symmetry. apply Hzero. lia.
  - intros E. assert (H : nth col x 0 = 0) by (rewrite E; apply nth_zeros).
    unfold x in H. destruct Hx1 as [Hl1 _]. rewrite app_nth2 in H by lia.
    by rewrite Hl1, Nat.sub_diag in H.
Qed.

(** ** Vandermonde matrices *)

(** Evaluation of a polynomial, lowest coefficient first. *)
Fixpoint eval (p : list Z) (x : Z) : Z :=
  match p with
  | [] => 0
  | c :: p => Z.lxor c (gf_mul x (eval p x))
  end.

Lemma eval_byte p x : bytes_ok p -> is_byte x -> is_byte (eval p x).
Proof. intros Hp Hx. induction Hp; simpl; [done|]. auto with gf. Qed.

Lemma dot_powers s p x : bytes_ok p -> is_byte x ->
  dot ((fun c => gf_pow x c) <$> seq s (length p)) p = gf_mul (gf_pow x s) (eval p x).
Proof.
  intros Hp Hx. revert s. induction Hp as [|a p Ha Hp IH]; intros s; simpl length; cbn [seq eval].
  - by rewrite gf_mul_0_r.
  - rewrite fmap_cons, dot_cons, IH, gf_pow_S by done.
    rewrite gf_mul_add_r, gf_mul_assoc, (gf_mul_comm x) by auto using eval_byte with gf. done.
Qed.

Lemma vandermonde_eval k r p : vec_ok k p ->
  dot (vandermonde_row k r) p = eval p (Z.land (Z.of_nat r) 255).
Proof.
  intros [Hl Hp]. unfold vandermonde_row. subst k.
  assert (Hb : is_byte (Z.land (Z.of_nat r) 255)).
  { change 255 with (Z.ones 8). rewrite Z.land_ones by lia. apply Z.mod_pos_bound. lia. }
  rewrite dot_powers by done. apply gf_mul_1_l. by apply eval_byte.
Qed.

(** Synthetic division by [x - a]. *)
Fixpoint quotient (a : Z) (p : list Z) : list Z :=
  match p with
  | [] => []
  | _ :: p' => match p' with [] => [] | _ => eval p' a :: quotient a p' end
  end.

Lemma length_quotient a p : length (quotient a p) = pred (length p).
Proof.
  induction p as [|c [|d p] IH]; [done..|].
  change (quotient a (c :: d :: p)) with (eval (d :: p) a :: quotient a (d :: p)).
  cbn [length]. by rewrite IH.
Qed.

Lemma quotient_ok a p : bytes_ok p -> is_byte a -> bytes_ok (quotient a p).
Proof.
  intros Hp Ha. induction Hp as [|c [|d p] Hc Hp IH]; [constructor..|].
  constructor; [by apply eval_byte|apply IH].
Qed.

Lemma eval_quotient a p x : bytes_ok p -> is_byte a -> is_byte x ->
  eval p x = Z.lxor (eval p a) (gf_mul (Z.lxor x a) (eval (quotient a p) x)).
Proof.
  intros Hp Ha Hx. induction Hp as [|c [|d p] Hc Hp IH].
  - by rewrite gf_mul_0_r.
  - cbn [eval quotient]. rewrite !gf_mul_0_r. xor_solve.
  - set (p' := d :: p) in *. change (quotient a (c :: p')) with (eval p' a :: quotient a p').
    cbn [eval]. pose proof (eval_byte p' a Hp Ha). pose proof (eval_byte p' x Hp Hx).
    pose proof (eval_byte (quotient a p') x (quotient_ok a p' Hp Ha) Hx).
    rewrite IH at 1.
    assert (E : gf_mul x (gf_mul (Z.lxor x a) (eval (quotient a p') x)) =
                gf_mul (Z.lxor x a) (gf_mul x (eval (quotient a p') x))).
    { rewrite !gf_mul_assoc by auto with gf. by rewrite (gf_mul_comm x (Z.lxor x a)). }
    rewrite (gf_mul_add_r x), E, (gf_mul_add_r (Z.lxor x a)), (gf_mul_add_l x a (eval p' a)) by auto with gf.
    xor_solve.
Qed.

Lemma quotient_zero a p : bytes_ok p -> is_byte a ->
  Forall (eq 0) (quotient a p) -> eval p a = 0 -> Forall (eq 0) p.
Proof.
  intros Hp Ha. induction Hp as [|c [|d p] Hc Hp IH]; intros Hq He.
  - constructor.
  - cbn [eval] in He. rewrite gf_mul_0_r, Z.lxor_0_r in He. by repeat constructor.
  - set (p' := d :: p) in *. change (quotient a (c :: p')) with (eval p' a :: quotient a p') in Hq.
    apply Forall_cons in Hq as [Hz Hq']. change (Z.lxor c (gf_mul a (eval p' a)) = 0) in He.
    rewrite <- Hz, gf_mul_0_r, Z.lxor_0_r in He. constructor; [done|]. by apply IH.
Qed.

(** A polynomial with as many distinct roots as coefficients is zero. *)
Lemma roots_zero pts p : NoDup pts -> bytes_ok pts -> bytes_ok p ->
  (length p <= length pts)%nat -> Forall (fun x => eval p x = 0) pts -> Forall (eq 0) p.
Proof.
  revert p. induction pts as [|a pts IH]; intros p Hnd Hpts Hp Hl Hroots.
  - destruct p; simplify_eq/=; [constructor|lia].
  - apply NoDup_cons in Hnd as [Hna Hnd]. apply Forall_cons in Hpts as [Ha Hpts].
    apply Forall_cons in Hroots as [Hra Hroots].
    apply (quotient_zero a); [done..| |done].
    apply IH; [done|done|by apply quotient_ok|rewrite length_quotient; simpl in Hl; lia|].
    rewrite Forall_forall in Hroots. unfold bytes_ok in Hpts. rewrite Forall_forall in Hpts.
    apply Forall_forall. intros x Hx. specialize (Hroots x Hx). specialize (Hpts x Hx).
    rewrite (eval_quotient a), Hra, Z.lxor_0_l in Hroots by done.
    apply gf_mul_zero in Hroots as [E|E]; [|done|auto with gf|by apply eval_byte, Hpts; apply quotient_ok].
    apply Z.lxor_eq in E. by subst x.
Qed.

Lemma zeros_replicate p : Forall (eq 0) p -> p = replicate (length p) 0.
Proof. induction 1 as [|c p <- Hp IH]; simpl; congruence. Qed.

Lemma byte_of_nat r : (r < 256)%nat -> Z.land (Z.of_nat r) 255 = Z.of_nat r.
Proof. intros Hr. change 255 with (Z.ones 8). rewrite Z.land_ones by lia. apply Z.mod_small. lia. Qed.

(** Distinct rows of a Vandermonde matrix have no common non-trivial zero. *)
Lemma vandermonde_kernel k rows p : NoDup rows -> Forall (fun r => (r < 256)%nat) rows ->
  length rows = k -> vec_ok k p -> Forall (fun r => dot (vandermonde_row k r) p = 0) rows ->
  p = replicate k 0.
Proof.
  intros Hnd Hr Hl [Hlp Hp] Hz. rewrite <- Hlp. apply zeros_replicate.
  apply (roots_zero (Z.of_nat <$> rows)).
  - apply NoDup_fmap_2; [intros x y; lia|done].
  - apply Forall_fmap. eapply Forall_impl; [exact Hr|]. unfold is_byte. simpl. lia.
  - done.
  - rewrite length_fmap. lia.
  - apply Forall_fmap. rewrite Forall_forall in *. intros r Hin. simpl.
    specialize (Hz r Hin). rewrite vandermonde_eval in Hz by done.
    by rewrite byte_of_nat in Hz by auto.
Qed.

Lemma vandermonde_row_ok k r : vec_ok k (vandermonde_row k r).
Proof.
  split; [unfold vandermonde_row; by rewrite length_fmap, length_seq|].
  apply Forall_fmap, Forall_forall. intros c _. simpl. apply gf_pow_byte.
  change 255 with (Z.ones 8). rewrite Z.land_ones by lia. apply Z.mod_pos_bound. lia.
Qed.

(** ** The generator matrix *)

Lemma column_rows a c : column a (length a) c = (fun row => nth c row 0) <$> a.
Proof.
  unfold column, cell. apply (vec_ext (length a)); [by rewrite length_fmap, length_seq|apply length_fmap|].
  intros i Hi. rewrite !nth_lookup, !list_lookup_fmap, lookup_seq_lt by done. simpl.
  destruct (lookup_lt_is_Some_2 a i Hi) as [row Hrow]. rewrite (nth_lookup a), Hrow. simpl.
  by rewrite nth_lookup.
Qed.

Lemma nth_tabulate (f : nat -> Z) k c : (c < k)%nat -> nth c (f <$> seq 0 k) 0 = f c.
Proof. intros Hc. by rewrite nth_lookup, list_lookup_fmap, lookup_seq_lt by done. Qed.

Lemma tabulate_ok f k : (forall c, (c < k)%nat -> is_byte (f c)) -> vec_ok k (f <$> seq 0 k).
Proof.
  intros Hf. split; [by rewrite length_fmap, length_seq|]. apply Forall_fmap, Forall_forall.
  intros c Hc%elem_of_seq. apply Hf. lia.
Qed.

Lemma nth_row_byte w row c : vec_ok w row -> is_byte (nth c row 0).
Proof.
  intros [_ Hr]. destruct (nth_in_or_default c row 0) as [Hin| ->]; [|done].
  unfold bytes_ok in Hr. rewrite Forall_forall in Hr. by apply Hr, list_elem_of_In.
Qed.

(** The rows of a matrix product act like the factors one after the other. *)
Lemma dot_product k u a d : bytes_ok u -> mat_ok k a -> length u = length a -> vec_ok k d ->
  dot ((fun c => dot u ((fun row => nth c row 0) <$> a)) <$> seq 0 k) d = dot u (mat_vec a d).
Proof.
  intros Hu Ha Hl [Hld Hd]. revert a Ha Hl. induction Hu as [|x u Hx Hu IH]; intros a Ha Hl.
  - destruct a; [|done]. trans (dot (replicate k 0) d); [|rewrite dot_comm; apply dot_zeros_r]. f_equal.
    apply (vec_ext k); [by rewrite length_fmap, length_seq|apply length_replicate|].
    intros c Hc. rewrite nth_tabulate by done. symmetry. apply nth_zeros.
  - destruct Ha as [|row a Hrow Ha]; [done|]. injection Hl as Hl.
    unfold mat_vec. rewrite fmap_cons, dot_cons. fold (mat_vec a d).
    rewrite <- (IH a) by done.
    assert (Hg : vec_ok k ((fun c => dot u ((fun row => nth c row 0) <$> a)) <$> seq 0 k)).
    { apply tabulate_ok. intros c _. apply dot_byte; [done|]. apply Forall_fmap.
      eapply Forall_impl; [exact Ha|]. intros r Hr. by eapply nth_row_byte. }
    destruct Hg as [Hlg Hg]. pose proof Hrow as [Hlr Hr].
    rewrite Z.lxor_comm, <- dot_axpy by (done || congruence). f_equal.
    apply (vec_ext k); [by rewrite length_fmap, length_seq|rewrite length_zip_with_l_eq; congruence|].
    intros c Hc. rewrite nth_zip_with; [|congruence|by rewrite gf_mul_0_r].
    rewrite !nth_tabulate, fmap_cons, dot_cons by done. apply Z.lxor_comm.
Qed.

(** The generator exists for every configuration of at most 256 shards; its
    rows are those of a Vandermonde matrix after a change of basis in which the
    first [k] rows are the identity. *)
Lemma generator_spec k m : (k + m <= 256)%nat ->
  exists g t, generator k m = Some g /\ length g = (k + m)%nat /\ mat_ok k g /\
    length t = k /\ mat_ok k t /\
    (forall d r, vec_ok k d -> (r < k + m)%nat ->
       dot (nth r g []) d = dot (vandermonde_row k r) (mat_vec t d)) /\
    (forall d r, vec_ok k d -> (r < k)%nat -> dot (vandermonde_row k r) (mat_vec t d) = nth r d 0).
Proof.
  intros Hkm. unfold generator. set (v := vandermonde_row k <$> seq 0 (k + m)).
  assert (Hv : forall r, (r < k + m)%nat -> v !! r = Some (vandermonde_row k r)).
  { intros r Hr. unfold v. by rewrite list_lookup_fmap, lookup_seq_lt by done. }
  assert (Hlv : length v = (k + m)%nat) by (unfold v; by rewrite length_fmap, length_seq).
  assert (Hlt : length (take k v) = k) by (rewrite length_take; lia).
  assert (Htop : mat_ok k (take k v)).
  { apply Forall_take, Forall_fmap, Forall_forall. intros r _. apply vandermonde_row_ok. }
  assert (Hrow : forall r, (r < k)%nat -> nth r (take k v) [] = vandermonde_row k r).
  { intros r Hr. by rewrite nth_lookup, lookup_take_lt, Hv by lia. }
  rewrite <- Hlt in Htop at 1. destruct (mat_inv (take k v)) as [t|] eqn:Hinv.
  - apply mat_inv_Some in Hinv as (Hl & Ht & Hright & _); [|done]. rewrite Hlt in *.
    eexists _, t. split; [done|]. split; [by rewrite length_fmap|]. split.
    { apply Forall_fmap. unfold v. apply Forall_fmap, Forall_forall. intros r _. simpl.
      apply tabulate_ok. intros c _. apply dot_byte; [apply vandermonde_row_ok|].
      apply Forall_fmap, Forall_forall. intros i _. by eapply cell_byte. }
    split; [done|]. split; [done|]. split.
    + intros d r Hd Hr. destruct (vandermonde_row_ok k r) as [Hlr Hbr].
      rewrite <- (dot_product k) by (done || congruence).
      rewrite nth_lookup, list_lookup_fmap, Hv by done. simpl. f_equal.
      apply list_fmap_ext. intros _ c _. by rewrite <- column_rows, Hl.
    + intros d r Hd Hr. rewrite <- Hrow, <- mat_vec_nth by done. by rewrite Hright.
  - apply mat_inv_None in Hinv as (x & Hx & Hz & Hnz); [|done]. rewrite Hlt in *. destruct Hnz.
    apply (vandermonde_kernel k (seq 0 k)); [apply NoDup_seq| |apply length_seq|done|].
    + apply Forall_forall. intros r Hr%elem_of_seq. lia.
    + apply Forall_forall. intros r Hr%elem_of_seq. rewrite <- Hrow by lia.
      rewrite <- mat_vec_nth, Hz. apply nth_zeros.
Qed.

(** Any [k] distinct rows of it are invertible. *)
Lemma generator_submatrix k m g rows : (k + m <= 256)%nat -> generator k m = Some g ->
  NoDup rows -> length rows = k -> Forall (fun r => (r < k + m)%nat) rows ->
  exists s, mat_inv ((fun r => nth r g []) <$> rows) = Some s /\ length s = k /\ mat_ok k s /\
    forall d, vec_ok k d -> mat_vec s ((fun r => dot (nth r g []) d) <$> rows) = d.
Proof.
  intros Hkm Hg Hnd Hl Hr. destruct (generator_spec k m Hkm) as (g' & t & Hg' & Hlg & Hmg & Hlt & Hmt & Hrow & Htop).
  assert (g' = g) as -> by congruence. set (sub := (fun r => nth r g []) <$> rows).
  assert (Hls : length sub = k) by (unfold sub; by rewrite length_fmap).
  assert (Hsub : mat_ok (length sub) sub).
  { rewrite Hls. apply Forall_fmap. eapply Forall_impl; [exact Hr|]. intros r Hlr. cbv beta in Hlr.
    apply mat_row; [done|by rewrite Hlg]. }
  assert (Hmv : forall d, mat_vec sub d = (fun r => dot (nth r g []) d) <$> rows).
  { intros d. unfold sub, mat_vec. by rewrite <- list_fmap_compose. }
  destruct (mat_inv sub) as [s|] eqn:Hinv.
  - apply mat_inv_Some in Hinv as (Hl' & Hs & _ & Hleft); [|done]. rewrite Hls in *.
    exists s. split_and!; [done..|]. intros d Hd. rewrite <- Hmv. by apply Hleft.
  - apply mat_inv_None in Hinv as (x & Hx & Hz & Hnz); [|done]. rewrite Hls in *. destruct Hnz.
    assert (Htx : mat_vec t x = replicate k 0).
    { apply (vandermonde_kernel k rows); [done| |done| |].
      - eapply Forall_impl; [exact Hr|]. simpl. lia.
      - rewrite <- Hlt at 1. eapply mat_vec_ok; [done|apply Hx].
      - rewrite Forall_forall in Hr |- *. intros r Hin. rewrite <- Hrow by auto.
        rewrite Hmv in Hz. apply list_elem_of_lookup in Hin as [i Hi].
        pose proof (lookup_lt_Some _ _ _ Hi) as Hlt'. apply (f_equal (lookup i)) in Hz.
        rewrite list_lookup_fmap, Hi, lookup_replicate_2 in Hz by congruence. by injection Hz. }
    apply (vec_ext k); [apply Hx|apply length_replicate|]. intros r Hrk.
    by rewrite <- (Htop x r), Htx, dot_zeros_r, nth_zeros.
Qed.
