(* ===== verification/Shred.v ===== *)
(** * Shreds: the signed pieces of a block

    src/crates/turbine/src/shred.rs: the shred record, its integrity hash, the
    bytes its signature covers, signing and verification. *)

From S2P Require Import Prelude Crypto.
From stdpp Require Import list.
Open Scope Z_scope.

Inductive ShredType := ShredData | ShredCoding.

#[export] Instance ShredType_eq_dec : EqDecision ShredType.
Proof. solve_decision. Defined.

Record ShredId := mkShredId { id_slot : Z; id_index : Z; id_type : ShredType }.

#[export] Instance ShredId_eq_dec : EqDecision ShredId.
Proof. solve_decision. Defined.

Record Shred := mkShred {
  sh_id : ShredId;
  sh_slot : Z;
  sh_index : Z;
  sh_type : ShredType;
  sh_payload : bytes;
  sh_hash : bytes;
  sh_signer : bytes;
  sh_signature : bytes
}.

#[export] Instance Shred_eq_dec : EqDecision Shred.
Proof. solve_decision. Defined.

(** [ShredId::data] and [ShredId::coding] *)
Definition id_data (slot index : Z) : ShredId := mkShredId slot index ShredData.
Definition id_coding (slot index : Z) : ShredId := mkShredId slot index ShredCoding.

(** [Shred::max_payload_size] *)
Definition max_payload_size : nat := 1228.

(** [Shred::size]; a [ShredId] takes 24 bytes (two [u64] and a tag, aligned to 8). *)
Definition shred_size (s : Shred) : nat :=
  (24 + 8 + 8 + 1 + (4 + length (sh_payload s)) + 32 + 32 + (4 + length (sh_signature s)))%nat.

(** [Shred::signable_data] *)
Definition shred_signable (s : Shred) : bytes :=
  [match sh_type s with ShredData => 0 | ShredCoding => 1 end] ++
  le_bytes 8 (sh_slot s) ++ le_bytes 8 (sh_index s) ++
  le_bytes 4 (wrap32 (Z.of_nat (length (sh_payload s)))) ++ sh_payload s.

Section Shred.
Context `{Sha : Sha256}.

(** [Shred::compute_hash] *)
Definition shred_hash (payload : bytes) : bytes := sha256 payload.

(** [Shred::new_data] and [Shred::new_coding] *)
Definition new_data (slot index : Z) (payload : bytes) : Shred :=
  mkShred (id_data slot index) slot index ShredData payload (shred_hash payload) (fill32 0) [].
Definition new_coding (slot index : Z) (payload : bytes) : Shred :=
  mkShred (id_coding slot index) slot index ShredCoding payload (shred_hash payload) (fill32 0) [].

(** [Shred::verify] *)
Definition shred_verify (s : Shred) : bool := bool_decide (sh_hash s = shred_hash (sh_payload s)).

(** [Shred::sign] *)
Definition shred_sign `{Ed : Ed25519} (s : Shred) (key : SigningKey) : Shred :=
  let s := mkShred (sh_id s) (sh_slot s) (sh_index s) (sh_type s) (sh_payload s) (sh_hash s)
                   (verifying_key key) (sh_signature s) in
  mkShred (sh_id s) (sh_slot s) (sh_index s) (sh_type s) (sh_payload s) (sh_hash s)
          (sh_signer s) (ed_sign key (shred_signable s)).

(** [Shred::verify_signature] *)
Definition shred_verify_signature `{Ed : Ed25519} (s : Shred) : bool :=
  ed_verify (sh_signer s) (shred_signable s) (sh_signature s).

Definition shred_ok (s : Shred) : Prop := is_u64 (sh_slot s) /\ is_u64 (sh_index s).

(** The signed bytes determine type, slot, index and payload. *)
Lemma shred_signable_inj a b :
  shred_ok a -> shred_ok b -> shred_signable a = shred_signable b ->
  sh_type a = sh_type b /\ sh_slot a = sh_slot b /\ sh_index a = sh_index b /\
  sh_payload a = sh_payload b.
Proof.
  intros [Ha1 Ha2] [Hb1 Hb2] H. unfold shred_signable in H.
  do 4 split_app H. apply le_bytes_inj in E0; [|exact Ha1|exact Hb1].
  apply le_bytes_inj in E1; [|exact Ha2|exact Hb2].
  split_and!; [|exact E0|exact E1|exact H]. destruct (sh_type a), (sh_type b); congruence.
Qed.

Lemma shred_sign_verifies `{Ed : Ed25519} s key :
  shred_verify_signature (shred_sign s key) = true.
Proof. apply ed_verify_sign. Qed.
End Shred.
