(* ===== verification/Erasure.v ===== *)
(** * Reed-Solomon erasure coding

    The coder of src/crates/turbine/src/erasure.rs: encoding a block into [k]
    data and [m] parity shreds with the generator of [Matrix], decoding it from
    any [k] of them. *)

From S2P Require Import Prelude Crypto Gf256 Matrix Shred.
From stdpp Require Import list.
Open Scope Z_scope.

(** ** The coder *)

Record ErasureConfig := mkErasureConfig { data_shards : nat; parity_shards : nat }.

(** [ErasureConfig::default_solana], [total_shards], [min_shards] *)
Definition erasure_default : ErasureConfig := mkErasureConfig 16 4.
Definition total_shards (c : ErasureConfig) : nat := (data_shards c + parity_shards c)%nat.
Definition min_shards (c : ErasureConfig) : nat := data_shards c.

(** [(8 + data.len()).div_ceil(k).max(1)] *)
Definition shard_size (k : nat) (data : bytes) : nat :=
  Nat.max ((8 + length data + (k - 1)) / k) 1.

(** Length prefix, data, zero padding. *)
Definition padded (k : nat) (data : bytes) : bytes :=
  resize (shard_size k data * k) 0 (le_bytes 8 (Z.of_nat (length data)) ++ data).

(** [buf[i * shard_size..(i + 1) * shard_size]] *)
Definition shard_of (buf : bytes) (size i : nat) : bytes := slice buf (i * size) ((i + 1) * size).

(** The parity loop: one pass per data shard with a non-zero coefficient. *)
Definition parity_shard (buf : bytes) (size k : nat) (row : list Z) : bytes :=
  foldl (fun parity c =>
           let coeff := nth c row 0 in
           if coeff =? 0 then parity
           else imap (fun j byte => Z.lxor byte (gf_mul coeff (nth (c * size + j) buf 0))) parity)
        (replicate size 0) (seq 0 k).

(** What a call that can panic gives back. *)
Inductive outcome (A : Type) := Returns (a : A) | Panics.
Arguments Returns {A} a.
Arguments Panics {A}.

Section Coder.
Context `{Sha : Sha256}.

(** [ErasureCoder::encode]: panics on [k = 0] (division) and where the
    generator does not exist ([unreachable!]). *)
Definition encode (cfg : ErasureConfig) (data : bytes) (slot : Z) : outcome (list Shred) :=
  let k := data_shards cfg in
  let m := parity_shards cfg in
  if (k =? 0)%nat then Panics else
  let size := shard_size k data in
  let buf := padded k data in
  match generator k m with
  | None => Panics
  | Some g =>
      Returns
        (((fun i => new_data slot (Z.of_nat i) (shard_of buf size i)) <$> seq 0 k) ++
         ((fun p => new_coding slot (Z.of_nat (k + p)) (parity_shard buf size k (nth (k + p) g [])))
            <$> seq 0 m))
  end.
End Coder.

(** [by_index.entry(s.index).or_insert(s)], for an index in range. *)
Definition index_shred (total : nat) (by_index : gmap Z Shred) (s : Shred) : gmap Z Shred :=
  if sh_index s <? Z.of_nat total
  then match by_index !! sh_index s with
       | Some _ => by_index
       | None => <[sh_index s := s]> by_index
       end
  else by_index.

(** [by_index]: the first shred of every index in range. *)
Definition index_shreds (total : nat) (shreds : list Shred) : gmap Z Shred :=
  foldl (index_shred total) ∅ shreds.

(** [by_index.into_iter()]: a [BTreeMap] iterates by ascending key. *)
Definition btree_iter {V} (m : gmap Z V) : list (Z * V) :=
  sort_by (fun a b => a.1 <=? b.1) (map_to_list m).

(** [d = G_sub^{-1} . out], shard by shard, byte column by byte column. *)
Definition recover (k size : nat) (sub_inv : matrix) (selected : list (Z * Shred)) : bytes :=
  mjoin ((fun c => (fun j => dot (nth c sub_inv [])
                               ((fun s => nth j (sh_payload s.2) 0) <$> selected)) <$> seq 0 size)
           <$> seq 0 k).

(** [ErasureCoder::decode]: panics on [k = 0] ([selected[0]]) and on buffers
    shorter than the length prefix ([buf[..8]]). *)
Definition decode (cfg : ErasureConfig) (shreds : list Shred) : outcome (option bytes) :=
  let k := data_shards cfg in
  let m := parity_shards cfg in
  let by_index := index_shreds (k + m) shreds in
  if (size by_index <? k)%nat then Returns None else
  let selected := take k (btree_iter by_index) in
  match selected with
  | [] => Panics
  | (_, s0) :: _ =>
      let shard_size := length (sh_payload s0) in
      if (shard_size =? 0)%nat ||
         existsb (fun s => negb (length (sh_payload s.2) =? shard_size)%nat) selected
      then Returns None
      else
        match generator k m with
        | None => Returns None
        | Some g =>
            match mat_inv ((fun s => nth (Z.to_nat s.1) g []) <$> selected) with
            | None => Returns None
            | Some sub_inv =>
                let buf := recover k shard_size sub_inv selected in
                if (length buf <? 8)%nat then Panics else
                let original_len := from_le (take 8 buf) in
                if Z.of_nat (length buf - 8) <? original_len then Returns None
                else Returns (Some (slice buf 8 (8 + Z.to_nat original_len)))
            end
        end
  end.

(** ** The padded buffer *)

Lemma shard_size_enough k data : (0 < k)%nat ->
  (8 + length data <= shard_size k data * k)%nat /\ (0 < shard_size k data)%nat.
Proof.
  intros Hk. unfold shard_size. split; [|lia].
  pose proof (Nat.div_mod_eq (8 + length data + (k - 1)) k).
  pose proof (Nat.mod_upper_bound (8 + length data + (k - 1)) k ltac:(lia)).
  transitivity ((8 + length data + (k - 1)) / k * k)%nat; [|apply Nat.mul_le_mono_r; lia]. lia.
Qed.

Lemma padded_eq k data : (0 < k)%nat -> exists pad,
  padded k data = le_bytes 8 (Z.of_nat (length data)) ++ data ++ replicate pad 0 /\
  length (padded k data) = (shard_size k data * k)%nat.
Proof.
  intros Hk. destruct (shard_size_enough k data Hk) as [Hs _]. unfold padded.
  eexists. split; [|apply length_resize].
  rewrite resize_spec, take_ge; [by rewrite <- app_assoc|]. rewrite length_app, length_le_bytes. lia.
Qed.

Lemma padded_ok k data : (0 < k)%nat -> bytes_ok data -> bytes_ok (padded k data).
Proof.
  intros Hk Hd. destruct (padded_eq k data Hk) as (pad & -> & _).
  rewrite !bytes_ok_app. split_and!; [apply le_bytes_ok|done|by apply Forall_replicate].
Qed.

(** Byte column [j] of the data shards. *)
Definition data_column (buf : bytes) (size k j : nat) : list Z :=
  (fun c => nth (c * size + j) buf 0) <$> seq 0 k.

Lemma data_column_ok buf size k j : bytes_ok buf -> vec_ok k (data_column buf size k j).
Proof.
  intros Hb. apply tabulate_ok. intros c _.
  apply (nth_row_byte (length buf)). by split.
Qed.

Lemma chunks_join (buf : bytes) size k : length buf = (k * size)%nat ->
  mjoin ((fun c => (fun j => nth (c * size + j) buf 0) <$> seq 0 size) <$> seq 0 k) = buf.
Proof.
  assert (H : forall s b, length b = (k * size)%nat -> (forall i, nth i b 0 = nth (s * size + i) buf 0) ->
    mjoin ((fun c => (fun j => nth (c * size + j) buf 0) <$> seq 0 size) <$> seq s k) = b).
  { induction k as [|k IH]; intros s b Hl Hb.
    - by destruct b.
    - cbn [seq]. rewrite fmap_cons, mjoin_cons. rewrite <- (take_drop size b). f_equal.
      + apply (vec_ext size); [by rewrite length_fmap, length_seq|rewrite length_take; lia|].
        intros j Hj. rewrite nth_tabulate by done. rewrite <- Hb.
        by rewrite !nth_lookup, lookup_take_lt.
      + apply IH; [rewrite length_drop; lia|]. intros i.
        replace (S s * size + i)%nat with (s * size + (size + i))%nat by lia.
        by rewrite <- Hb, !nth_lookup, lookup_drop. }
  intros Hl. by apply H.
Qed.

(** ** Encoding multiplies by the generator *)

Lemma shard_of_nth buf size k i j : length buf = (size * k)%nat -> (i < k)%nat -> (j < size)%nat ->
  nth j (shard_of buf size i) 0 = nth (i * size + j) buf 0.
Proof.
  intros Hl Hi Hj. unfold shard_of, slice.
  rewrite !nth_lookup, lookup_take_lt, lookup_drop by lia. done.
Qed.

Lemma length_shard_of buf size k i : length buf = (size * k)%nat -> (i < k)%nat ->
  length (shard_of buf size i) = size.
Proof.
  intros Hl Hi. unfold shard_of, slice. rewrite length_take, length_drop.
  assert (i * size + size <= size * k)%nat by nia. lia.
Qed.

Lemma parity_fold buf size row cs parity j : (j < length parity)%nat ->
  nth j (foldl (fun parity c =>
           let coeff := nth c row 0 in
           if coeff =? 0 then parity
           else imap (fun j byte => Z.lxor byte (gf_mul coeff (nth (c * size + j) buf 0))) parity)
        parity cs) 0 =
  Z.lxor (nth j parity 0)
    (dot ((fun c => nth c row 0) <$> cs) ((fun c => nth (c * size + j) buf 0) <$> cs)).
Proof.
  revert parity. induction cs as [|c cs IH]; intros parity Hj; cbn [foldl].
  - change (dot _ _) with 0. by rewrite Z.lxor_0_r.
  - rewrite !fmap_cons, dot_cons. cbv zeta. destruct (Z.eqb_spec (nth c row 0) 0) as [->|Hnz].
    + rewrite IH, gf_mul_0_l by done. by rewrite Z.lxor_0_l.
    + rewrite IH by (by rewrite length_imap). rewrite nth_imap by done. apply Z.lxor_assoc.
Qed.

Lemma length_parity_fold buf size row cs parity :
  length (foldl (fun parity c =>
           let coeff := nth c row 0 in
           if coeff =? 0 then parity
           else imap (fun j byte => Z.lxor byte (gf_mul coeff (nth (c * size + j) buf 0))) parity)
        parity cs) = length parity.
Proof.
  revert parity. induction cs as [|c cs IH]; intros parity; cbn [foldl]; [done|].
  rewrite IH. cbv zeta. case_match; [done|]. apply length_imap.
Qed.

Lemma parity_nth buf size k row j : length row = k -> (j < size)%nat ->
  nth j (parity_shard buf size k row) 0 = dot row (data_column buf size k j).
Proof.
  intros Hl Hj. unfold parity_shard. rewrite parity_fold by (by rewrite length_replicate).
  rewrite nth_zeros, Z.lxor_0_l. unfold data_column. f_equal.
  apply (vec_ext k); [by rewrite length_fmap, length_seq|done|]. intros c Hc. by rewrite nth_tabulate.
Qed.

Section Correct.
Context `{Sha : Sha256}.

(** Shred [r] of the encoding carries row [r] of the generator applied to every
    byte column. *)
Definition carries (g : matrix) (buf : bytes) (size k : nat) (s : Shred) : Prop :=
  length (sh_payload s) = size /\
  forall j, (j < size)%nat ->
    nth j (sh_payload s) 0 = dot (nth (Z.to_nat (sh_index s)) g []) (data_column buf size k j).

Lemma encode_carries cfg data slot g :
  (0 < data_shards cfg)%nat -> (total_shards cfg <= 256)%nat -> bytes_ok data ->
  generator (data_shards cfg) (parity_shards cfg) = Some g ->
  exists shreds, encode cfg data slot = Returns shreds /\
    length shreds = total_shards cfg /\
    forall i s, shreds !! i = Some s -> sh_index s = Z.of_nat i /\
      carries g (padded (data_shards cfg) data) (shard_size (data_shards cfg) data) (data_shards cfg) s.
Proof.
  destruct cfg as [k m]. unfold total_shards. cbn [data_shards parity_shards].
  intros Hk Hkm Hd Hg. unfold encode. cbn [data_shards parity_shards].
  rewrite (proj2 (Nat.eqb_neq k 0)), Hg by lia. eexists. split; [done|].
  split; [by rewrite length_app, !length_fmap, !length_seq|].
  destruct (padded_eq k data Hk) as (pad & _ & Hlb). pose proof (padded_ok k data Hk Hd) as Hbb.
  destruct (generator_spec k m Hkm) as (g' & t & Hg' & Hlg & Hmg & _ & _ & Hrow & Htop).
  assert (g' = g) as -> by congruence.
  intros i s Hs. apply lookup_app_Some in Hs as [Hs|[Hge Hs]];
    apply list_lookup_fmap_Some in Hs as (x & -> & Hx); apply lookup_seq in Hx as [-> Hlt];
    (split; [cbn [new_data new_coding sh_index]|split; cbn [new_data new_coding sh_payload sh_index]]).
  - done.
  - by apply (length_shard_of _ _ k).
  - intros j Hj. rewrite (shard_of_nth _ _ k) by done. rewrite Nat2Z.id.
    rewrite Hrow, Htop by (by apply data_column_ok || lia).
    unfold data_column. by rewrite nth_tabulate by lia.
  - rewrite length_fmap, length_seq in *. lia.
  - unfold parity_shard. by rewrite length_parity_fold, length_replicate.
  - intros j Hj. rewrite Nat2Z.id. apply parity_nth; [|done].
    apply (mat_row k g _ Hmg). rewrite length_fmap, length_seq in *. lia.
Qed.

(** ** Decoding *)

Lemma index_shreds_spec total shreds :
  (forall i s, index_shreds total shreds !! i = Some s ->
     s ∈ shreds /\ sh_index s = i /\ i < Z.of_nat total) /\
  (forall s, s ∈ shreds -> sh_index s < Z.of_nat total ->
     is_Some (index_shreds total shreds !! sh_index s)).
Proof.
  unfold index_shreds. induction shreds as [|x shreds IH] using rev_ind.
  - split; [intros i s; cbn [foldl]; by rewrite lookup_empty|]. by intros s ?%not_elem_of_nil.
  - rewrite foldl_app. cbn [foldl]. destruct IH as [H1 H2].
    set (m := foldl (index_shred total) ∅ shreds) in *. unfold index_shred.
    assert (H1' : forall i s, m !! i = Some s -> s ∈ shreds ++ [x] /\ sh_index s = i /\ i < Z.of_nat total).
    { intros i s Hs. destruct (H1 i s Hs) as (? & ? & ?). split; [|done]. apply elem_of_app. by left. }
    destruct (Z.ltb_spec (sh_index x) (Z.of_nat total)) as [Hlt|Hge].
    + destruct (m !! sh_index x) as [y|] eqn:E.
      * split; [done|]. intros s [Hs| ->%list_elem_of_singleton]%elem_of_app Hi; [auto|]. by rewrite E.
      * split.
        -- intros i s [[<- <-]|[_ Hs]]%lookup_insert_Some; [|by apply H1'].
           split; [|done]. apply elem_of_app. right. by apply list_elem_of_singleton.
        -- intros s Hs Hi. destruct (decide (sh_index s = sh_index x)) as [->|Hne].
           { rewrite lookup_insert_eq. by eexists. }
           rewrite lookup_insert_ne by done. apply H2; [|done].
           apply elem_of_app in Hs as [Hs| ->%list_elem_of_singleton]; done.
    + split; [done|]. intros s [Hs| ->%list_elem_of_singleton]%elem_of_app Hi; [auto|lia].
Qed.

Lemma btree_iter_perm {V} (m : gmap Z V) : btree_iter m ≡ₚ map_to_list m.
Proof. apply sort_by_perm. Qed.

(** What the selection keeps: [k] distinct indices with their shreds. *)
Lemma selection_spec {V} (m : gmap Z V) k : (k <= size m)%nat ->
  length (take k (btree_iter m)) = k /\ NoDup (take k (btree_iter m)).*1 /\
  forall i v, (i, v) ∈ take k (btree_iter m) -> m !! i = Some v.
Proof.
  intros Hk. assert (Hl : length (btree_iter m) = size m).
  { rewrite btree_iter_perm. apply length_map_to_list. }
  split; [rewrite length_take; lia|]. split.
  - rewrite fmap_take. apply (sublist_NoDup _ (btree_iter m).*1); [|apply sublist_take].
    rewrite btree_iter_perm. apply NoDup_fst_map_to_list.
  - intros i v (n & Hn & _)%elem_of_take. apply elem_of_map_to_list. rewrite <- btree_iter_perm.
    by eapply list_elem_of_lookup_2.
Qed.

(** The indices in range among the received shreds. *)
Definition indices_in_range (total : nat) (received : list Shred) : gset Z :=
  list_to_set (filter (fun i => i < Z.of_nat total) (sh_index <$> received)).

Lemma size_index_shreds total received :
  size (index_shreds total received) = size (indices_in_range total received).
Proof.
  rewrite <- size_dom. f_equal. apply set_eq. intros i.
  destruct (index_shreds_spec total received) as [H1 H2]. unfold indices_in_range.
  rewrite elem_of_dom, elem_of_list_to_set, list_elem_of_filter, list_elem_of_fmap. split.
  - intros [s Hs]. destruct (H1 i s Hs) as (Hin & Hi & Hlt). split; [done|]. by exists s.
  - intros [Hlt (s & -> & Hs)]. by apply H2.
Qed.

(** Recovery inverts the generator on any [k] rows. *)
Lemma recover_buf k m g buf size selected :
  (k + m <= 256)%nat -> generator k m = Some g -> bytes_ok buf -> length buf = (size * k)%nat ->
  length selected = k -> NoDup selected.*1 ->
  (forall i s, (i, s) ∈ selected -> 0 <= i < Z.of_nat (k + m) /\ length (sh_payload s) = size /\
     forall j, (j < size)%nat -> nth j (sh_payload s) 0 = dot (nth (Z.to_nat i) g []) (data_column buf size k j)) ->
  exists inv, mat_inv ((fun s => nth (Z.to_nat s.1) g []) <$> selected) = Some inv /\
    recover k size inv selected = buf.
Proof.
  intros Hkm Hg Hb Hl Hls Hnd Hsel. set (rows := (fun s => Z.to_nat s.1) <$> selected).
  assert (Hrows : Forall (fun r => (r < k + m)%nat) rows).
  { apply Forall_fmap, Forall_forall. intros [i s] Hin. simpl. destruct (Hsel i s Hin) as [? _]. lia. }
  assert (Hndr : NoDup rows).
  { unfold rows. change (fun s : Z * Shred => Z.to_nat s.1) with (Z.to_nat ∘ (@fst Z Shred)).
    rewrite list_fmap_compose. apply NoDup_fmap_2_strong; [|done].
    intros x y (p & -> & Hp)%list_elem_of_fmap (q & -> & Hq)%list_elem_of_fmap.
    destruct p as [i s], q as [i' s']. simpl. destruct (Hsel _ _ Hp) as [? _], (Hsel _ _ Hq) as [? _]. lia. }
  destruct (generator_submatrix k m g rows) as (inv & Hinv & Hli & Hmi & Hback); [done..| |done|].
  { unfold rows. by rewrite length_fmap. }
  exists inv. split.
  { rewrite <- Hinv. f_equal. unfold rows. by rewrite <- list_fmap_compose. }
  unfold recover. rewrite <- (chunks_join buf size k) by lia. f_equal.
  apply list_fmap_ext. intros c ? [-> Hc]%lookup_seq. apply list_fmap_ext. intros j ? [-> Hj]%lookup_seq.
  simpl Nat.add.
  pose proof (Hback (data_column buf size k j) (data_column_ok _ _ _ _ Hb)) as E.
  apply (f_equal (fun v => nth c v 0)) in E. rewrite mat_vec_nth in E.
  unfold data_column in E at 2. rewrite nth_tabulate in E by done. rewrite <- E. f_equal.
  unfold rows. rewrite <- list_fmap_compose. apply list_fmap_ext.
  intros n [i s] Hn. simpl. apply (Hsel i s); [by eapply list_elem_of_lookup_2|done].
Qed.

(** The length prefix cuts the padding off. *)
Lemma unpad k data : (0 < k)%nat -> is_u64 (Z.of_nat (length data)) ->
  (let buf := padded k data in
   if (length buf <? 8)%nat then Panics else
   let original_len := from_le (take 8 buf) in
   if Z.of_nat (length buf - 8) <? original_len then Returns None
   else Returns (Some (slice buf 8 (8 + Z.to_nat original_len)))) = Returns (Some data).
Proof.
  intros Hk Hu. destruct (padded_eq k data Hk) as (pad & Hpad & Hlb).
  destruct (shard_size_enough k data Hk) as [Hsz _]. cbv zeta.
  rewrite (proj2 (Nat.ltb_ge _ _)) by lia.
  assert (Ht : take 8 (padded k data) = le_bytes 8 (Z.of_nat (length data))).
  { rewrite Hpad. by apply take_app_length'. }
  rewrite Ht, from_le_bytes_64 by done. rewrite (proj2 (Z.ltb_ge _ _)) by lia.
  do 2 f_equal. unfold slice. rewrite Hpad, drop_app_length' by done.
  rewrite Nat2Z.id. apply take_app_length'. lia.
Qed.

(** A received shred that carries the payload the encoder gave its index (it
    may have been signed since), or whose index is out of range. *)
Definition genuine (total : nat) (shreds : list Shred) (s : Shred) : Prop :=
  0 <= sh_index s /\
  (Z.of_nat total <= sh_index s \/
   exists s', s' ∈ shreds /\ sh_index s = sh_index s' /\ sh_payload s = sh_payload s').

(** Decoding any [k] genuine shreds gives the data back. *)
Lemma decode_encoded cfg data slot shreds received :
  (0 < data_shards cfg)%nat -> (total_shards cfg <= 256)%nat ->
  bytes_ok data -> is_u64 (Z.of_nat (length data)) ->
  encode cfg data slot = Returns shreds ->
  Forall (genuine (total_shards cfg) shreds) received ->
  (data_shards cfg <= size (indices_in_range (total_shards cfg) received))%nat ->
  decode cfg received = Returns (Some data).
Proof.
  intros Hk Hkm Hd Hu Henc Hgen Hcount. destruct cfg as [k m].
  unfold total_shards in *. cbn [data_shards parity_shards] in *.
  destruct (generator_spec k m Hkm) as (g & _ & Hg & _).
  destruct (encode_carries (mkErasureConfig k m) data slot g) as (shreds' & Henc' & Hlen & Hcar); [done..|].
  assert (shreds' = shreds) as -> by congruence.
  cbn [data_shards parity_shards] in *. rewrite <- size_index_shreds in Hcount.
  destruct (padded_eq k data Hk) as (pad & Hpad & Hlb).
  destruct (shard_size_enough k data Hk) as [Hsz Hsz0].
  destruct (selection_spec _ k Hcount) as (Hls & Hnd & Hsel).
  assert (Hsel' : forall i s, (i, s) ∈ take k (btree_iter (index_shreds (k + m) received)) ->
    0 <= i < Z.of_nat (k + m) /\ length (sh_payload s) = shard_size k data /\
    forall j, (j < shard_size k data)%nat -> nth j (sh_payload s) 0 =
      dot (nth (Z.to_nat i) g []) (data_column (padded k data) (shard_size k data) k j)).
  { intros i s Hin%Hsel. apply index_shreds_spec in Hin as (Hin & <- & Hlt).
    rewrite Forall_forall in Hgen. destruct (Hgen s Hin) as [H0 [Hge|(s' & Hin' & Hi & ->)]]; [lia|].
    apply list_elem_of_lookup in Hin' as [n Hn]. destruct (Hcar n s' Hn) as [_ [Hpl Hp]].
    rewrite Hi in *. by split_and!. }
  destruct (recover_buf k m g (padded k data) (shard_size k data)
    (take k (btree_iter (index_shreds (k + m) received)))) as (inv & Hinv & Hrec);
    [done|done|by apply padded_ok|done|done|done|done|].
  unfold decode. cbn [data_shards parity_shards].
  rewrite (proj2 (Nat.ltb_ge _ _) Hcount).
  set (selected := take k (btree_iter (index_shreds (k + m) received))) in *.
  destruct selected as [|[i0 s0] rest] eqn:Htake; [simpl in Hls; lia|]. rewrite <- Htake in *.
  assert (Hs0 : length (sh_payload s0) = shard_size k data).
  { apply (Hsel' i0). rewrite Htake. apply list_elem_of_here. }
  rewrite Hs0, (proj2 (Nat.eqb_neq _ 0)) by lia. cbn [orb].
  destruct (existsb _ selected) eqn:Hex.
  { apply existsb_exists in Hex as ([i s] & Hin & Hne). apply list_elem_of_In in Hin.
    destruct (Hsel' i s Hin) as (_ & Hl & _). cbn [snd] in Hne. by rewrite Hl, Nat.eqb_refl in Hne. }
  rewrite Hg, Hinv, Hrec. by apply unpad.
Qed.

(** C11. Erasure coding keeps its promise: for every configuration of at least one
    data shard and at most 256 shards, encoding always returns [k + m] shreds,
    and from any received shreds among which at least [k] distinct indices are
    present (in any order, duplicated, signed, mixed with shreds of foreign
    indices) decoding returns exactly the original bytes. *)
Theorem erasure_decode_encode cfg data slot :
  (0 < data_shards cfg)%nat -> (total_shards cfg <= 256)%nat ->
  bytes_ok data -> is_u64 (Z.of_nat (length data)) ->
  exists shreds, encode cfg data slot = Returns shreds /\ length shreds = total_shards cfg /\
    forall received, Forall (genuine (total_shards cfg) shreds) received ->
      (data_shards cfg <= size (indices_in_range (total_shards cfg) received))%nat ->
      decode cfg received = Returns (Some data).
Proof.
  intros Hk Hkm Hd Hu. destruct (generator_spec (data_shards cfg) (parity_shards cfg) Hkm) as (g & _ & Hg & _).
  destruct (encode_carries cfg data slot g) as (shreds & Henc & Hlen & _); [done..|].
  exists shreds. split_and!; [done..|]. intros received. by apply (decode_encoded _ _ slot).
Qed.
End Correct.
