(* ===== verification/Neighborhood.v ===== *)
(** * The propagation tree

    src/crates/turbine/src/neighborhoods.rs: validators arranged in a tree of
    fan-out three, and the queries on it.  Indexing out of bounds panics; the
    queue loop carries fuel and the termination lemma shows it is enough. *)

From S2P Require Import Prelude Shred Erasure.
From stdpp Require Import list.
Open Scope Z_scope.

(** [struct TurbineNode] *)
Record TurbineNode := mkNode {
  tn_validator : bytes;
  tn_stake : Z;
  tn_depth : Z;
  tn_index : nat;
  tn_parent : option nat;
  tn_children : list nat
}.

(** [struct Neighborhood] *)
Record Neighborhood := mkNeighborhood {
  nh_root : TurbineNode;
  nh_nodes : list TurbineNode;
  nh_depth : nat
}.

(** [validators.sort_by_key(|b| Reverse(b.1))]: stable, descending stake. *)
Definition by_stake (validators : list (bytes * Z)) : list (bytes * Z) :=
  sort_by (fun a b => b.2 <=? a.2) validators.

(** A new node for validator [(key, stake)]. *)
Definition node_of (v : bytes * Z) (depth : Z) (index : nat) (parent : option nat) : TurbineNode :=
  mkNode v.1 v.2 depth index parent [].

(** [parent.children.push(new_idx)] *)
Definition add_child (new_idx : nat) (n : TurbineNode) : TurbineNode :=
  mkNode (tn_validator n) (tn_stake n) (tn_depth n) (tn_index n) (tn_parent n) (tn_children n ++ [new_idx]).

(** The body of the loop over the children: [None] when [validators[child_idx]]
    is out of bounds. *)
Definition place_child (validators : list (bytes * Z)) (parent_idx : nat) (child_depth : Z)
    (nodes : list TurbineNode) (child_idx : nat) : option (list TurbineNode) :=
  v ← validators !! child_idx;
  let new_idx := length nodes in
  let nodes := nodes ++ [node_of v child_depth new_idx (Some parent_idx)] in
  Some (alter (add_child new_idx) parent_idx nodes).

Fixpoint place_children (validators : list (bytes * Z)) (parent_idx : nat) (child_depth : Z)
    (nodes : list TurbineNode) (children : list nat) : option (list TurbineNode) :=
  match children with
  | [] => Some nodes
  | c :: children =>
      nodes ← place_child validators parent_idx child_depth nodes c;
      place_children validators parent_idx child_depth nodes children
  end.

(** What the loop over [children.iter().enumerate()] pushes to the queue. *)
Definition distribute (children next_remaining : list nat) : list (nat * list nat) :=
  let len := length next_remaining in
  let per_child := ((len + (length children - 1)) / length children)%nat in
  if (len =? 0)%nat || (length children =? 0)%nat then []
  else omap (fun '(i, child_idx) =>
               let start := (i * per_child)%nat in
               let stop := Nat.min (start + per_child) len in
               if (start <? len)%nat then Some (child_idx, slice next_remaining start stop) else None)
            (imap pair children).

Definition FAN_OUT : nat := 3.

(** The queue loop; [None]: out of fuel. *)
Fixpoint tree_loop (fuel : nat) (validators : list (bytes * Z)) (max_depth : nat)
    (nodes : list TurbineNode) (depth : nat) (queue : list (nat * list nat))
    : option (outcome (list TurbineNode * nat)) :=
  match queue with
  | [] => Some (Returns (nodes, depth))
  | (parent_idx, remaining) :: queue =>
      match fuel with
      | O => None
      | S fuel =>
          if (length remaining =? 0)%nat then tree_loop fuel validators max_depth nodes depth queue else
          match nodes !! parent_idx with
          | None => Some Panics
          | Some parent =>
              if (max_depth <=? Z.to_nat (tn_depth parent))%nat
              then tree_loop fuel validators max_depth nodes depth queue
              else
                let child_depth := (tn_depth parent + 1) mod 256 in
                let depth := Nat.max depth (Z.to_nat child_depth) in
                let children := take FAN_OUT remaining in
                let next_remaining := drop FAN_OUT remaining in
                match place_children validators parent_idx child_depth nodes children with
                | None => Some Panics
                | Some nodes =>
                    tree_loop fuel validators max_depth nodes depth
                      (queue ++ distribute children next_remaining)
                end
          end
      end
  end.

(** [Neighborhood::build_tree] *)
Definition build_tree (validators : list (bytes * Z)) (max_depth : nat) : option (outcome Neighborhood) :=
  let validators := by_stake validators in
  let total := length validators in
  match validators with
  | [] => Some (Returns (mkNeighborhood (mkNode (fill32 0) 0 0 0 None []) [] 0))
  | v :: _ =>
      match tree_loop total validators max_depth [node_of v 0 0 None] 0 [(0%nat, seq 1 (total - 1))] with
      | None => None
      | Some Panics => Some Panics
      | Some (Returns (nodes, depth)) =>
          match nodes with
          | [] => Some Panics
          | root :: _ => Some (Returns (mkNeighborhood root nodes depth))
          end
      end
  end.

(** The loop of [path_to], from the target to the root; [None]: out of fuel. *)
Fixpoint path_loop (fuel : nat) (nodes : list TurbineNode) (current : option nat)
    : option (outcome (list TurbineNode)) :=
  match current with
  | None => Some (Returns [])
  | Some idx =>
      match fuel with
      | O => None
      | S fuel =>
          match nodes !! idx with
          | None => Some Panics
          | Some n =>
              match path_loop fuel nodes (tn_parent n) with
              | Some (Returns path) => Some (Returns (n :: path))
              | r => r
              end
          end
      end
  end.

(** [iter().position(..)] / [iter().find(..)] *)
Fixpoint position (nodes : list TurbineNode) (validator : bytes) : option nat :=
  match nodes with
  | [] => None
  | n :: nodes => if bool_decide (tn_validator n = validator) then Some 0%nat
                  else S <$> position nodes validator
  end.

(** [Neighborhood::path_to] *)
Definition path_to (t : Neighborhood) (validator : bytes) : option (outcome (option (list TurbineNode))) :=
  match position (nh_nodes t) validator with
  | None => Some (Returns None)
  | Some target_idx =>
      match path_loop (length (nh_nodes t)) (nh_nodes t) (Some target_idx) with
      | None => None
      | Some Panics => Some Panics
      | Some (Returns path) => Some (Returns (Some (reverse path)))
      end
  end.

(** [self.nodes[i]] for each [i]. *)
Fixpoint index_all (nodes : list TurbineNode) (l : list nat) : outcome (list TurbineNode) :=
  match l with
  | [] => Returns []
  | i :: l =>
      match nodes !! i, index_all nodes l with
      | Some n, Returns ns => Returns (n :: ns)
      | _, _ => Panics
      end
  end.

(** [iter().find(|n| n.validator == *validator)] *)
Definition find_node (nodes : list TurbineNode) (validator : bytes) : option TurbineNode :=
  i ← position nodes validator; nodes !! i.

(** [Neighborhood::neighbors] *)
Definition neighbors (t : Neighborhood) (validator : bytes) : outcome (list TurbineNode) :=
  match find_node (nh_nodes t) validator with
  | None => Returns []
  | Some n => index_all (nh_nodes t) (match tn_parent n with Some p => [p] | None => [] end ++ tn_children n)
  end.

(** [Neighborhood::at_depth] *)
Definition at_depth (t : Neighborhood) (depth : Z) : list TurbineNode :=
  filter (fun n => tn_depth n = depth) (nh_nodes t).

(** [Neighborhood::total_stake] *)
Definition tree_total_stake (t : Neighborhood) : Z :=
  foldl (fun acc n => wrap64 (acc + tn_stake n)) 0 (nh_nodes t).

(** ** Well-formed trees *)

Record tree_wf (max_depth : nat) (nodes : list TurbineNode) : Prop := {
  wf_index : forall i n, nodes !! i = Some n -> tn_index n = i;
  wf_root : forall n, nodes !! 0%nat = Some n -> tn_parent n = None /\ tn_depth n = 0;
  wf_parent : forall i n, nodes !! i = Some n -> i <> 0%nat ->
    exists p pn, tn_parent n = Some p /\ (p < i)%nat /\ nodes !! p = Some pn /\
      tn_depth n = tn_depth pn + 1 /\ i ∈ tn_children pn;
  wf_children : forall p pn c, nodes !! p = Some pn -> c ∈ tn_children pn ->
    exists cn, nodes !! c = Some cn /\ tn_parent cn = Some p;
  wf_depth : forall i n, nodes !! i = Some n -> 0 <= tn_depth n <= Z.of_nat max_depth
}.

(** What [add_child] leaves alone. *)
Lemma lookup_extend nodes x i p j n :
  alter (add_child j) p (nodes ++ [x]) !! i = Some n ->
  exists m, (nodes ++ [x]) !! i = Some m /\
    n = if decide (i = p) then add_child j m else m.
Proof.
  intros H. destruct (decide (i = p)) as [->|Hne].
  - rewrite list_lookup_alter_eq in H. apply fmap_Some in H as (m & Hm & ->). by exists m.
  - rewrite list_lookup_alter_ne in H by done. by exists n.
Qed.

Lemma extend_lookup nodes x i p j m :
  (nodes ++ [x]) !! i = Some m ->
  alter (add_child j) p (nodes ++ [x]) !! i = Some (if decide (i = p) then add_child j m else m).
Proof.
  intros H. destruct (decide (i = p)) as [->|Hne].
  - by rewrite list_lookup_alter_eq, H.
  - by rewrite list_lookup_alter_ne.
Qed.

Lemma place_child_wf d validators p pn child_depth nodes c nodes' :
  tree_wf d nodes -> nodes !! p = Some pn -> child_depth = tn_depth pn + 1 ->
  (Z.to_nat (tn_depth pn) < d)%nat ->
  place_child validators p child_depth nodes c = Some nodes' ->
  tree_wf d nodes' /\
  exists pn', nodes' !! p = Some pn' /\ tn_depth pn' = tn_depth pn.
Proof.
  intros [W1 W2 W3 W4 W5] Hp Hd Hlt. unfold place_child.
  destruct (validators !! c) as [v|]; [|done]. intros [= <-].
  set (new := node_of v child_depth (length nodes) (Some p)).
  pose proof (lookup_lt_Some _ _ _ Hp) as Hpl. pose proof (W5 _ _ Hp) as Hdp.
  split; [|eexists; split; [apply extend_lookup, lookup_app_l_Some, Hp|by rewrite decide_True]].
  assert (Hold : forall i m, (nodes ++ [new]) !! i = Some m -> nodes !! i = Some m \/ (i = length nodes /\ m = new)).
  { intros i m [H|[Hge H]]%lookup_app_Some; [by left|]. right. apply list_lookup_singleton_Some in H as [? <-]. split; [lia|done]. }
  split.
  - intros i n (m & Hm & ->)%lookup_extend. destruct (Hold i m Hm) as [H|[-> ->]]; case_decide; simpl; eauto.
  - intros n (m & Hm & ->)%lookup_extend. destruct (Hold _ m Hm) as [H|[? ->]]; [|lia].
    apply W2 in H as [??]. by case_decide.
  - intros i n (m & Hm & ->)%lookup_extend Hi. destruct (Hold i m Hm) as [H|[-> ->]].
    + destruct (W3 i m H Hi) as (q & qn & Hq & Hqi & Hqn & Hdq & Hin). exists q. eexists.
      split_and!; [by case_decide|done|by apply extend_lookup, lookup_app_l_Some|..].
      * by repeat case_decide.
      * case_decide; [|done]. simpl. apply elem_of_app. by left.
    + exists p. eexists. split_and!; [by case_decide|done|by apply extend_lookup, lookup_app_l_Some|..].
      * rewrite decide_False by lia. by rewrite decide_True.
      * rewrite decide_True by done. simpl. apply elem_of_app. right. by apply list_elem_of_singleton.
  - intros q qn c' (m & Hm & ->)%lookup_extend Hc.
    assert (Hc' : c' ∈ tn_children m \/ (q = p /\ c' = length nodes)).
    { case_decide; [|by left]. simpl in Hc. apply elem_of_app in Hc as [?|?%list_elem_of_singleton]; auto. }
    destruct Hc' as [Hc'|[-> ->]].
    + destruct (Hold q m Hm) as [H|[-> ->]]; [|by apply not_elem_of_nil in Hc'].
      clear Hc. destruct (W4 q m c' H Hc') as (cn & Hcn & Hpar). eexists.
      split; [by apply extend_lookup, lookup_app_l_Some|]. by case_decide.
    + exists new. split; [|done].
      rewrite (extend_lookup _ _ _ _ _ new) by (by apply list_lookup_middle). by rewrite decide_False by lia.
  - intros i n (m & Hm & ->)%lookup_extend. destruct (Hold i m Hm) as [H|[-> ->]].
    + apply W5 in H. by case_decide.
    + rewrite decide_False by lia. simpl. lia.
Qed.

Lemma place_children_wf d validators p child_depth nodes children nodes' pn :
  tree_wf d nodes -> nodes !! p = Some pn -> child_depth = tn_depth pn + 1 ->
  (Z.to_nat (tn_depth pn) < d)%nat ->
  place_children validators p child_depth nodes children = Some nodes' -> tree_wf d nodes'.
Proof.
  revert nodes pn. induction children as [|c children IH]; intros nodes pn W Hp Hd Hlt; cbn [place_children].
  - by intros [= <-].
  - destruct (place_child validators p child_depth nodes c) as [nodes1|] eqn:E; [|done]. cbn.
    destruct (place_child_wf _ _ _ _ _ _ _ _ W Hp Hd Hlt E) as (W1 & pn' & Hp' & Hd').
    apply (IH _ pn'); [done|done|lia|lia].
Qed.

Lemma tree_loop_wf fuel validators d nodes depth queue nodes' depth' :
  (d <= 255)%nat -> tree_wf d nodes ->
  tree_loop fuel validators d nodes depth queue = Some (Returns (nodes', depth')) -> tree_wf d nodes'.
Proof.
  intros Hd. revert nodes depth queue. induction fuel as [|fuel IH]; intros nodes depth [|[p rem] queue] W;
    cbn [tree_loop]; try (by intros [= <- <-]).
  case_match; [by apply IH|]. destruct (nodes !! p) as [pn|] eqn:Hp; [|done].
  destruct (Nat.leb_spec d (Z.to_nat (tn_depth pn))); [by apply IH|].
  destruct (place_children _ _ _ _ _) as [nodes1|] eqn:E; [|done]. apply IH.
  pose proof (wf_depth _ _ W _ _ Hp). eapply place_children_wf; [exact W|exact Hp| |done|exact E].
  rewrite Z.mod_small by lia. done.
Qed.

(** ** Termination *)

Lemma distribute_from (per : nat) (next : list nat) (s : nat) (children : list nat) :
  (length next <= (s + length children) * per)%nat ->
  mjoin (omap (fun '(i, child_idx) =>
           let start := (i * per)%nat in
           let stop := Nat.min (start + per) (length next) in
           if (start <? length next)%nat then Some (child_idx, slice next start stop) else None)
         (imap (fun i (c : nat) => ((s + i)%nat, c)) children)).*2 = drop (s * per) next.
Proof.
  revert s. induction children as [|c children IH]; intros s Hl; simpl in Hl.
  - cbn. rewrite drop_ge; [done|]. lia.
  - rewrite imap_cons. cbn [omap list_omap]. rewrite Nat.add_0_r. cbv zeta.
    assert (Htail : imap ((fun i (c : nat) => ((s + i)%nat, c)) ∘ S) children =
                    imap (fun i c => ((S s + i)%nat, c)) children).
    { apply imap_ext. intros i x _. simpl. f_equal. lia. }
    specialize (IH (S s)). destruct (Nat.ltb_spec (s * per) (length next)) as [Hlt|Hge].
    + rewrite fmap_cons, mjoin_cons. cbn [snd]. rewrite Htail. etransitivity; [apply f_equal, IH; simpl; lia|].
      unfold slice. rewrite <- (take_drop per (drop (s * per) next)) at 2. f_equal.
      * destruct (Nat.le_ge_cases (s * per + per) (length next)).
        -- by replace (Nat.min (s * per + per) (length next) - s * per)%nat with per by lia.
        -- rewrite !take_ge; [done|rewrite length_drop; lia|rewrite length_drop; lia].
      * rewrite drop_drop. f_equal. simpl. lia.
    + rewrite Htail. etransitivity; [apply IH; simpl; lia|]. rewrite !drop_ge; [done|lia|simpl; lia].
Qed.

(** The groups given to the children are exactly the remaining validators. *)
Lemma distribute_join children next : children <> [] ->
  mjoin (distribute children next).*2 = next /\ (length (distribute children next) <= length children)%nat.
Proof.
  intros Hc. assert (Hl : (0 < length children)%nat) by (destruct children; simpl; [done|lia]).
  unfold distribute. destruct (Nat.eqb_spec (length next) 0) as [Hn|Hn].
  { simpl. split; [|lia]. by apply nil_length_inv in Hn as ->. }
  rewrite (proj2 (Nat.eqb_neq (length children) 0)) by lia. cbn [orb]. split.
  - pose proof (distribute_from ((length next + (length children - 1)) / length children) next 0 children) as H.
    cbn [Nat.add Nat.mul] in H. rewrite drop_0 in H. apply H.
    pose proof (Nat.div_mod_eq (length next + (length children - 1)) (length children)).
    pose proof (Nat.mod_upper_bound (length next + (length children - 1)) (length children)). lia.
  - etransitivity; [apply length_omap_le|]. by rewrite length_imap.
Qed.

(** One unit for every queued group and one for every validator in it. *)
Definition queue_size (queue : list (nat * list nat)) : nat :=
  (length queue + length (mjoin queue.*2))%nat.

Lemma queue_step p rem queue : (0 < length rem)%nat ->
  (queue_size (queue ++ distribute (take FAN_OUT rem) (drop FAN_OUT rem)) < queue_size ((p, rem) :: queue))%nat.
Proof.
  intros Hr. destruct (distribute_join (take FAN_OUT rem) (drop FAN_OUT rem)) as [Hj Hl].
  { by destruct rem; [simpl in Hr; lia|]. }
  unfold queue_size. rewrite fmap_app, fmap_cons, mjoin_cons, join_app, !length_app, Hj.
  assert (length rem = length (take FAN_OUT rem) + length (drop FAN_OUT rem))%nat.
  { by rewrite <- length_app, take_drop. }
  cbn [length fst snd] in *. lia.
Qed.

Lemma tree_loop_terminates fuel validators d nodes depth queue :
  (queue_size queue <= fuel)%nat -> is_Some (tree_loop fuel validators d nodes depth queue).
Proof.
  revert nodes depth queue. induction fuel as [|fuel IH]; intros nodes depth [|[p rem] queue] Hq;
    cbn [tree_loop]; eauto; [unfold queue_size in Hq; simpl in Hq; lia|].
  assert (Hq' : (queue_size queue <= fuel)%nat).
  { unfold queue_size in *. rewrite fmap_cons, mjoin_cons, length_app in Hq. simpl in Hq. lia. }
  destruct (Nat.eqb_spec (length rem) 0); [by apply IH|]. destruct (nodes !! p); [|eauto].
  case_match; [by apply IH|]. cbv zeta. destruct (place_children _ _ _ _ _); [|eauto].
  apply IH. pose proof (queue_step p rem queue). lia.
Qed.

(** ** Every validator appears at most once *)

Definition label (n : TurbineNode) : bytes * Z := (tn_validator n, tn_stake n).

Lemma place_children_labels validators p child_depth nodes children nodes' :
  place_children validators p child_depth nodes children = Some nodes' ->
  exists ls, Forall2 (fun v l => validators !! v = Some l) children ls /\
    label <$> nodes' = (label <$> nodes) ++ ls.
Proof.
  revert nodes. induction children as [|c children IH]; intros nodes; cbn [place_children].
  - intros [= <-]. exists []. by rewrite app_nil_r.
  - unfold place_child. destruct (validators !! c) as [v|] eqn:Hv; [|done]. cbn.
    intros (ls & Hls & ->)%IH. exists (v :: ls). split; [by constructor|].
    rewrite (list_fmap_alter _ _ id) by (by apply Forall_true).
    rewrite list_alter_id by done. rewrite fmap_app, <- app_assoc. f_equal. by destruct v.
Qed.

(** The nodes are labelled by distinct positions of the validator list, none
    of which is still queued. *)
Definition placed_once (validators : list (bytes * Z)) (nodes : list TurbineNode)
    (queue : list (nat * list nat)) : Prop :=
  exists placed, Forall2 (fun v l => validators !! v = Some l) placed (label <$> nodes) /\
    NoDup (placed ++ mjoin queue.*2).

Lemma placed_once_drop validators nodes g queue :
  placed_once validators nodes (g :: queue) -> placed_once validators nodes queue.
Proof.
  intros (placed & Hf & Hnd). exists placed. split; [done|]. revert Hnd.
  rewrite fmap_cons, mjoin_cons, !NoDup_app. set_solver.
Qed.

Lemma tree_loop_placed fuel validators d nodes depth queue nodes' depth' :
  placed_once validators nodes queue ->
  tree_loop fuel validators d nodes depth queue = Some (Returns (nodes', depth')) ->
  placed_once validators nodes' [].
Proof.
  revert nodes depth queue. induction fuel as [|fuel IH]; intros nodes depth [|[p rem] queue] Hpl;
    cbn [tree_loop]; try (by intros [= <- <-]).
  destruct (Nat.eqb_spec (length rem) 0); [by apply IH; eapply placed_once_drop|].
  destruct (nodes !! p); [|done]. case_match; [by apply IH; eapply placed_once_drop|]. cbv zeta.
  destruct (place_children _ _ _ _ _) as [nodes1|] eqn:E; [|done]. apply IH.
  destruct Hpl as (placed & Hf & Hnd). apply place_children_labels in E as (ls & Hls & El).
  exists (placed ++ take FAN_OUT rem). rewrite El. split; [by apply Forall2_app|].
  destruct (distribute_join (take FAN_OUT rem) (drop FAN_OUT rem)) as [Hj _]; [by destruct rem|].
  rewrite fmap_app, join_app, Hj. rewrite fmap_cons, mjoin_cons in Hnd. cbn [snd] in Hnd.
  rewrite <- (take_drop FAN_OUT rem) in Hnd. rewrite <- !app_assoc in *.
  eapply NoDup_Permutation_proper; [|exact Hnd]. do 2 f_equiv. apply Permutation_app_comm.
Qed.

(** ** Queries on well-formed trees *)

Lemma position_Some nodes v i : position nodes v = Some i ->
  exists n, nodes !! i = Some n /\ tn_validator n = v.
Proof.
  revert i. induction nodes as [|n nodes IH]; intros i; cbn [position]; [done|].
  case_bool_decide as Hv; [intros [= <-]; by exists n|]. intros (j & Hj & ->)%fmap_Some. by apply IH.
Qed.

Lemma position_elem nodes v : v ∈ tn_validator <$> nodes -> is_Some (position nodes v).
Proof.
  induction nodes as [|n nodes IH]; [by intros ?%not_elem_of_nil|]. rewrite fmap_cons.
  cbn [position]. case_bool_decide; [eauto|]. intros [->|Hin%IH]%elem_of_cons; [done|]. by apply fmap_is_Some.
Qed.

(** [path] leads from the root to node [i], each node the parent of the next. *)
Inductive root_path (nodes : list TurbineNode) : nat -> list TurbineNode -> Prop :=
| path_root n : nodes !! 0%nat = Some n -> root_path nodes 0 [n]
| path_step i p n path : nodes !! i = Some n -> tn_parent n = Some p -> root_path nodes p path ->
    root_path nodes i (path ++ [n]).

Lemma path_loop_spec d nodes fuel i : tree_wf d nodes -> (i < length nodes)%nat -> (i < fuel)%nat ->
  exists path, path_loop fuel nodes (Some i) = Some (Returns path) /\ root_path nodes i (reverse path) /\
    exists n, nodes !! i = Some n /\ Z.of_nat (length path) = tn_depth n + 1.
Proof.
  intros W. revert i. induction fuel as [|fuel IH]; intros i Hi Hf; [lia|].
  destruct (lookup_lt_is_Some_2 nodes i Hi) as [n Hn]. cbn [path_loop]. rewrite Hn.
  destruct (decide (i = 0%nat)) as [->|Hne].
  - destruct (wf_root _ _ W n Hn) as [Hp Hd]. rewrite Hp.
    exists [n]. split; [by destruct fuel|]. split; [by constructor|]. exists n. split; [done|]. simpl. lia.
  - destruct (wf_parent _ _ W i n Hn Hne) as (p & pn & Hp & Hlt & Hpn & Hd & _).
    destruct (IH p) as (path & Hpath & Hr & n' & Hn' & Hlen); [lia|lia|]. rewrite Hp, Hpath.
    exists (n :: path). split; [done|]. rewrite reverse_cons. split; [by eapply path_step|].
    exists n. split; [done|]. simplify_eq. simpl. lia.
Qed.

Lemma index_all_returns nodes l : Forall (fun i => is_Some (nodes !! i)) l ->
  exists ns, index_all nodes l = Returns ns /\ Forall2 (fun i n => nodes !! i = Some n) l ns.
Proof.
  induction 1 as [|i l [n Hn] _ (ns & Hns & Hf)]; [by exists []|].
  exists (n :: ns). cbn [index_all]. rewrite Hn, Hns. split; [done|by constructor].
Qed.

(** In a well-formed tree the neighbors of a node are its parent and its
    children; the relation is symmetric. *)
Lemma neighbors_spec d t i n : tree_wf d (nh_nodes t) -> position (nh_nodes t) (tn_validator n) = Some i ->
  nh_nodes t !! i = Some n ->
  exists ns, neighbors t (tn_validator n) = Returns ns /\
    forall m, m ∈ ns <-> exists j, nh_nodes t !! j = Some m /\ (tn_parent n = Some j \/ tn_parent m = Some i).
Proof.
  intros W Hpos Hn. unfold neighbors, find_node. rewrite Hpos. cbn. rewrite Hn.
  assert (Hidx : forall j, j ∈ match tn_parent n with Some p => [p] | None => [] end ++ tn_children n <->
                 exists m, nh_nodes t !! j = Some m /\ (tn_parent n = Some j \/ tn_parent m = Some i)).
  { intros j. rewrite elem_of_app. split.
    - intros [Hj|Hj].
      + destruct (tn_parent n) as [p|] eqn:Hp; [|by apply not_elem_of_nil in Hj].
        apply list_elem_of_singleton in Hj as ->. destruct (decide (i = 0%nat)) as [->|Hne].
        * apply (wf_root _ _ W) in Hn as [??]. congruence.
        * destruct (wf_parent _ _ W _ _ Hn Hne) as (q & qn & ? & _ & Hq & _). simplify_eq. eauto.
      + destruct (wf_children _ _ W _ _ _ Hn Hj) as (cn & Hcn & Hpar). eauto.
    - intros (m & Hm & [Hp|Hp]); [left; rewrite Hp; by apply list_elem_of_singleton|].
      right. destruct (decide (j = 0%nat)) as [->|Hne].
      + apply (wf_root _ _ W) in Hm as [??]. congruence.
      + destruct (wf_parent _ _ W _ _ Hm Hne) as (q & qn & ? & _ & Hq & _ & Hin). by simplify_eq. }
  destruct (index_all_returns (nh_nodes t)
    (match tn_parent n with Some p => [p] | None => [] end ++ tn_children n)) as (ns & Hns & Hf).
  { apply Forall_forall. intros j Hj%Hidx. destruct Hj as (m & Hm & _). eauto. }
  exists ns. split; [done|]. intros m. split.
  - intros [k Hk]%list_elem_of_lookup. destruct (Forall2_lookup_r _ _ _ _ _ Hf Hk) as (j & Hj & Hm).
    apply list_elem_of_lookup_2, Hidx in Hj as (m' & Hm' & Hr). simplify_eq. eauto.
  - intros (j & Hm & Hr). assert (Hj : j ∈ match tn_parent n with Some p => [p] | None => [] end ++ tn_children n)
      by (apply Hidx; eauto).
    apply list_elem_of_lookup in Hj as [k Hk]. destruct (Forall2_lookup_l _ _ _ _ _ Hf Hk) as (m' & Hm' & ?).
    simplify_eq. by eapply list_elem_of_lookup_2.
Qed.

(** ** The tree that is built *)

Lemma tree_wf_single d v : tree_wf d [node_of v 0 0 None].
Proof.
  assert (Hl : forall i n, [node_of v 0 0 None] !! i = Some n -> i = 0%nat /\ n = node_of v 0 0 None).
  { intros i n H. by apply list_lookup_singleton_Some in H as [-> <-]. }
  split.
  - by intros i n [-> ->]%Hl.
  - by intros n [_ ->]%Hl.
  - by intros i n [-> ->]%Hl.
  - intros p n c [-> ->]%Hl Hc. by apply not_elem_of_nil in Hc.
  - intros i n [-> ->]%Hl. simpl. lia.
Qed.

Lemma tree_loop_root fuel validators d nodes depth queue nodes' depth' :
  tree_loop fuel validators d nodes depth queue = Some (Returns (nodes', depth')) ->
  exists more, label <$> nodes' = (label <$> nodes) ++ more.
Proof.
  revert nodes depth queue. induction fuel as [|fuel IH]; intros nodes depth [|[p rem] queue];
    cbn [tree_loop]; try (intros [= <- <-]; exists []; by rewrite app_nil_r).
  case_match; [by apply IH|]. destruct (nodes !! p); [|done]. case_match; [by apply IH|]. cbv zeta.
  destruct (place_children _ _ _ _ _) as [nodes1|] eqn:E; [|done].
  apply place_children_labels in E as (ls & _ & El). intros (more & ->)%IH.
  exists (ls ++ more). by rewrite El, app_assoc.
Qed.

Lemma by_stake_sorted validators :
  StronglySorted (fun a b : bytes * Z => (b.2 <=? a.2) = true) (by_stake validators).
Proof. apply sort_by_sorted; intros; rewrite !Z.leb_le in *; lia. Qed.

(** No validator appears more often than it was given. *)
Lemma build_tree_labels validators d t :
  build_tree validators d = Some (Returns t) -> label <$> nh_nodes t ⊆+ validators.
Proof.
  unfold build_tree. pose proof (sort_by_perm (fun a b : bytes * Z => b.2 <=? a.2) validators) as Hp.
  fold (by_stake validators) in Hp. destruct (by_stake validators) as [|v vs].
  { intros [= <-]. apply submseteq_nil_l. }
  destruct (tree_loop _ _ _ _ _ _) as [[[nodes depth]|]|] eqn:Hr; [|done..].
  apply tree_loop_placed in Hr as (placed & Hf & Hnd).
  - destruct nodes as [|root nodes]; [done|]. intros [= <-]. rewrite app_nil_r in Hnd. rewrite <- Hp.
    by apply (lookups_submseteq ([], 0) _ placed).
  - exists [0%nat]. split; [repeat constructor; by destruct v|].
    cbn. rewrite app_nil_r. change (NoDup (seq 0 1 ++ seq 1 (length vs - 0))).
    rewrite <- seq_app. apply NoDup_seq.
Qed.

(** C35. Building the propagation tree always ends, and a tree that is returned is
    a tree: node [0] is the root and is a validator of greatest stake, every
    other node hangs under an earlier node that lists it as child, one level
    deeper and within the depth limit, and no validator of the input appears
    more often than it was given.  Each validator in it has a path from the root with
    one node per level. *)
Theorem turbine_tree_wellformed validators max_depth : (max_depth <= 255)%nat ->
  is_Some (build_tree validators max_depth) /\
  forall t, build_tree validators max_depth = Some (Returns t) ->
    tree_wf max_depth (nh_nodes t) /\ label <$> nh_nodes t ⊆+ validators /\
    (forall v, v ∈ validators -> nh_nodes t !! 0%nat = Some (nh_root t) /\ v.2 <= tn_stake (nh_root t)) /\
    (forall v, v ∈ tn_validator <$> nh_nodes t ->
       exists i n path, nh_nodes t !! i = Some n /\ tn_validator n = v /\
         path_to t v = Some (Returns (Some path)) /\ root_path (nh_nodes t) i path /\
         Z.of_nat (length path) = tn_depth n + 1).
Proof.
  intros Hd. pose proof (build_tree_labels validators max_depth) as Hlab. unfold build_tree in *.
  pose proof (by_stake_sorted validators) as Hs.
  pose proof (sort_by_perm (fun a b : bytes * Z => b.2 <=? a.2) validators) as Hp. fold (by_stake validators) in Hp.
  destruct (by_stake validators) as [|v vs] eqn:Evs.
  { split; [eauto|]. intros t [= <-]. apply Permutation_nil_l in Hp as <-. cbn [nh_nodes nh_root].
    split_and!; [split; by intros|done|by intros v ?%not_elem_of_nil|by intros v ?%not_elem_of_nil]. }
  set (start := [node_of v 0 0 None]) in *. set (queue := [(0%nat, seq 1 (length (v :: vs) - 1))]) in *.
  destruct (tree_loop_terminates (length (v :: vs)) (v :: vs) max_depth start 0 queue) as [r Hr].
  { unfold queue, queue_size. cbn. rewrite app_nil_r, length_seq. lia. }
  rewrite Hr. setoid_rewrite Hr in Hlab. destruct r as [[nodes depth]|]; [|by eauto].
  pose proof (tree_loop_wf _ _ _ _ _ _ _ _ Hd (tree_wf_single _ v) Hr) as W.
  destruct (tree_loop_root _ _ _ _ _ _ _ _ Hr) as (more & Hroot).
  destruct nodes as [|root nodes]; [done|]. split; [eauto|]. intros t Ht. specialize (Hlab t Ht).
  injection Ht as <-. cbn [nh_nodes nh_root] in *. split; [done|]. split; [done|]. split.
  - intros x Hx. split; [done|]. rewrite <- Hp in Hx. injection Hroot as Hv Hst _. rewrite Hst.
    apply StronglySorted_inv in Hs as [_ Hs]. rewrite Forall_forall in Hs.
    apply elem_of_cons in Hx as [->|Hx]; [done|by apply Z.leb_le, Hs].
  - intros x [i Hi]%position_elem. destruct (position_Some _ _ _ Hi) as (n & Hn & Hx).
    destruct (path_loop_spec _ _ (length (root :: nodes)) i W) as (path & Hpath & Hrp & n' & Hn' & Hlen);
      [by eapply lookup_lt_Some..|]. exists i, n, (reverse path). unfold path_to. cbn [nh_nodes].
    rewrite Hi, Hpath. split_and!; [done..|]. rewrite length_reverse. congruence.
Qed.

(** ** How many validators the tree can take

    The shape of the tree depends on the number of validators only. *)

Definition relabel (f : bytes * Z -> bytes * Z) (n : TurbineNode) : TurbineNode :=
  let v := f (label n) in
  mkNode v.1 v.2 (tn_depth n) (tn_index n) (tn_parent n) (tn_children n).

Lemma place_children_relabel f (validators : list (bytes * Z)) p cd (nodes : list TurbineNode) children :
  place_children (f <$> validators) p cd (relabel f <$> nodes) children =
  (fmap (relabel f) : list TurbineNode -> list TurbineNode) <$> place_children validators p cd nodes children.
Proof.
  revert nodes. induction children as [|c children IH]; intros nodes; cbn [place_children]; [done|].
  unfold place_child. rewrite list_lookup_fmap. destruct (validators !! c) as [v|]; [|done].
  cbn -[fmap alter app length]. rewrite <- IH. f_equal.
  rewrite (list_fmap_alter _ _ (add_child (length nodes))) by (by apply Forall_true).
  rewrite fmap_app, length_fmap. do 3 f_equal. unfold relabel, label, node_of. cbn. by destruct v.
Qed.

Definition relabel_result (f : bytes * Z -> bytes * Z) (r : outcome (list TurbineNode * nat))
    : outcome (list TurbineNode * nat) :=
  match r with Panics => Panics | Returns (nodes, depth) => Returns (relabel f <$> nodes, depth) end.

Lemma tree_loop_relabel f fuel (validators : list (bytes * Z)) d (nodes : list TurbineNode) depth queue :
  tree_loop fuel (f <$> validators) d (relabel f <$> nodes) depth queue =
  relabel_result f <$> tree_loop fuel validators d nodes depth queue.
Proof.
  revert nodes depth queue. induction fuel as [|fuel IH]; intros nodes depth [|[p rem] queue];
    cbn [tree_loop]; [done..|]. case_match; [by apply IH|].
  rewrite list_lookup_fmap. destruct (nodes !! p) as [pn|]; [|done]. cbn [fmap option_fmap option_map].
  change (tn_depth (relabel f pn)) with (tn_depth pn). case_match; [by apply IH|]. cbv zeta.
  rewrite place_children_relabel. destruct (place_children _ _ _ _ _); [|done]. apply IH.
Qed.

(** Validator [i] of [n], named by its number. *)
Definition numbered (n : nat) : list (bytes * Z) := (fun i => ([], Z.of_nat i)) <$> seq 0 n.

Definition shape (n max_depth : nat) : option (outcome (list TurbineNode * nat)) :=
  tree_loop n (numbered n) max_depth [node_of ([], 0) 0 0 None] 0 [(0%nat, seq 1 (n - 1))].

Lemma build_tree_shape validators d v vs : by_stake validators = v :: vs ->
  let f := fun x => default ([], 0) ((v :: vs) !! Z.to_nat x.2) in
  build_tree validators d =
  match shape (length validators) d with
  | None => None
  | Some Panics => Some Panics
  | Some (Returns (nodes, depth)) =>
      match relabel f <$> nodes with
      | [] => Some Panics
      | root :: rest => Some (Returns (mkNeighborhood root (root :: rest) depth))
      end
  end.
Proof.
  intros E f. unfold build_tree, shape. rewrite <- (length_sort_by (fun a b : bytes * Z => b.2 <=? a.2) validators).
  fold (by_stake validators). rewrite E.
  assert (Hvs : v :: vs = f <$> numbered (length (v :: vs))).
  { apply list_eq. intros i. unfold numbered. rewrite <- list_fmap_compose, list_lookup_fmap.
    destruct (decide (i < length (v :: vs))%nat) as [Hlt|Hge].
    - rewrite lookup_seq_lt by done. destruct (lookup_lt_is_Some_2 _ _ Hlt) as [x Hx].
      unfold f. cbn [compose fmap option_fmap option_map snd Nat.add]. by rewrite Nat2Z.id, Hx.
    - by rewrite lookup_seq_ge, lookup_ge_None_2 by lia. }
  pose proof (tree_loop_relabel f (length (v :: vs)) (numbered (length (v :: vs))) d
    [node_of ([], 0) 0 0 None] 0 [(0%nat, seq 1 (length (v :: vs) - 1))]) as H.
  rewrite <- Hvs in H. change (relabel f <$> [node_of ([], 0) 0 0 None]) with [node_of v 0 0 None] in H.
  rewrite H. generalize (tree_loop (length (v :: vs)) (numbered (length (v :: vs))) d
    [node_of ([], 0) 0 0 None] 0 [(0%nat, seq 1 (length (v :: vs) - 1))]). clear.
  intros [[[nodes depth]|]|]; cbn [fmap option_fmap option_map relabel_result]; [|done..]. by destruct (relabel f <$> nodes).
Qed.

(** All [n] validators get a node. *)
Definition holds_all (n max_depth : nat) : bool :=
  match shape n max_depth with
  | Some (Returns (nodes, _)) => (0 <? length nodes)%nat && (length nodes =? n)%nat
  | _ => false
  end.

Definition panics (n max_depth : nat) : bool :=
  match shape n max_depth with Some Panics => true | _ => false end.

Lemma shapes_hold : forallb (fun n => holds_all n 5) (seq 1 40) = true.
Proof. vm_compute. reflexivity. Qed.

Lemma shapes_panic : forallb (fun n => panics n 5) (seq 41 160) = true.
Proof. vm_compute. reflexivity. Qed.

(** C36. The tree takes up to 40 validators and no more: with the depth limit 5 it
    holds every one of up to 40 validators, each exactly once, but on 41 to
    200 validators building it indexes the node vector by a validator's
    position and panics. *)
Theorem turbine_tree_capacity validators : (0 < length validators)%nat ->
  ((length validators <= 40)%nat ->
     exists t, build_tree validators 5 = Some (Returns t) /\ label <$> nh_nodes t ≡ₚ validators) /\
  ((40 < length validators <= 200)%nat -> build_tree validators 5 = Some Panics).
Proof.
  intros H0. destruct (by_stake validators) as [|v vs] eqn:E.
  { apply (f_equal length) in E. unfold by_stake in E. rewrite length_sort_by in E. simpl in E. lia. }
  pose proof (build_tree_shape validators 5 v vs E) as Hb. cbv zeta in Hb.
  pose proof shapes_hold as Hh. pose proof shapes_panic as Hp. rewrite forallb_forall in Hh, Hp. split; intros Hn.
  - specialize (Hh (length validators) ltac:(apply in_seq; lia)). unfold holds_all in Hh.
    destruct (shape (length validators) 5) as [[[nodes depth]|]|]; [|done..].
    apply andb_true_iff in Hh as [Hpos Hlen]. apply Nat.ltb_lt in Hpos. apply Nat.eqb_eq in Hlen.
    destruct (relabel _ <$> nodes) as [|root rest] eqn:En.
    { apply fmap_nil_inv in En as ->. simpl in Hpos. lia. }
    eexists. split; [exact Hb|]. pose proof (build_tree_labels _ _ _ Hb) as Hl.
    apply submseteq_length_Permutation; [done|]. cbn [nh_nodes]. rewrite length_fmap, <- En, length_fmap. lia.
  - specialize (Hp (length validators) ltac:(apply in_seq; lia)). unfold panics in Hp.
    by destruct (shape (length validators) 5) as [[|]|].
Qed.

(** Stake does not order the levels: of 14 validators the eighth by stake ends
    up one level below the ninth. *)
Lemma stake_order_not_depth_order :
  match build_tree ((fun i => ([Z.of_nat i], 100 - Z.of_nat i)) <$> seq 0 14) 5 with
  | Some (Returns t) =>
      (fun n => (tn_stake n, tn_depth n)) <$> find_node (nh_nodes t) [7] = Some (93, 3) /\
      (fun n => (tn_stake n, tn_depth n)) <$> find_node (nh_nodes t) [8] = Some (92, 2)
  | _ => False
  end.
Proof. vm_compute. split; reflexivity. Qed.
