(* ===== verification/Propagate.v ===== *)
(** * Block propagation

    src/crates/turbine/src/propagate.rs: encoding and signing a block into
    shreds for the neighbors, receiving, buffering and pruning shreds,
    reassembling and forwarding.  The outgoing channel is the list of what was
    sent on it, or closed; the clock is an argument. *)

From S2P Require Import Prelude Crypto Matrix Shred Erasure Neighborhood.
From stdpp Require Import list.
Open Scope Z_scope.

(** [struct ReceivedShred] *)
Record ReceivedShred := mkReceived { rs_shred : Shred; rs_from : bytes; rs_at : Z }.

(** [struct PropagationStats] *)
Record PropagationStats := mkPropStats {
  st_blocks_propagated : Z;
  st_shreds_sent : Z;
  st_shreds_received : Z;
  st_blocks_reassembled : Z;
  st_propagation_errors : Z;
  st_invalid_shreds : Z;
  st_duplicate_shreds : Z;
  st_slots_pruned : Z
}.

Definition stats_zero : PropagationStats := mkPropStats 0 0 0 0 0 0 0 0.

(** [stats.<counter> += n] *)
Definition count_propagated (s : PropagationStats) (shreds : Z) : PropagationStats :=
  mkPropStats (wrap64 (st_blocks_propagated s + 1)) (wrap64 (st_shreds_sent s + shreds)) (st_shreds_received s)
    (st_blocks_reassembled s) (st_propagation_errors s) (st_invalid_shreds s) (st_duplicate_shreds s)
    (st_slots_pruned s).
Definition count_received (s : PropagationStats) : PropagationStats :=
  mkPropStats (st_blocks_propagated s) (st_shreds_sent s) (wrap64 (st_shreds_received s + 1))
    (st_blocks_reassembled s) (st_propagation_errors s) (st_invalid_shreds s) (st_duplicate_shreds s)
    (st_slots_pruned s).
Definition count_reassembled (s : PropagationStats) : PropagationStats :=
  mkPropStats (st_blocks_propagated s) (st_shreds_sent s) (st_shreds_received s)
    (wrap64 (st_blocks_reassembled s + 1)) (st_propagation_errors s) (st_invalid_shreds s)
    (st_duplicate_shreds s) (st_slots_pruned s).
Definition count_error (s : PropagationStats) : PropagationStats :=
  mkPropStats (st_blocks_propagated s) (st_shreds_sent s) (st_shreds_received s)
    (st_blocks_reassembled s) (wrap64 (st_propagation_errors s + 1)) (st_invalid_shreds s)
    (st_duplicate_shreds s) (st_slots_pruned s).
Definition count_invalid (s : PropagationStats) : PropagationStats :=
  mkPropStats (st_blocks_propagated s) (st_shreds_sent s) (st_shreds_received s)
    (st_blocks_reassembled s) (st_propagation_errors s) (wrap64 (st_invalid_shreds s + 1))
    (st_duplicate_shreds s) (st_slots_pruned s).
Definition count_duplicate (s : PropagationStats) : PropagationStats :=
  mkPropStats (st_blocks_propagated s) (st_shreds_sent s) (st_shreds_received s)
    (st_blocks_reassembled s) (st_propagation_errors s) (st_invalid_shreds s)
    (wrap64 (st_duplicate_shreds s + 1)) (st_slots_pruned s).
Definition count_pruned (s : PropagationStats) (slots : Z) : PropagationStats :=
  mkPropStats (st_blocks_propagated s) (st_shreds_sent s) (st_shreds_received s)
    (st_blocks_reassembled s) (st_propagation_errors s) (st_invalid_shreds s)
    (st_duplicate_shreds s) (wrap64 (st_slots_pruned s + slots)).

Section Propagator.
Context `{Sha : Sha256} `{Ed : Ed25519}.

(** [struct TurbinePropagator] *)
Record Propagator := mkPropagator {
  tp_coder : ErasureConfig;
  tp_neighborhood : Neighborhood;
  tp_validator_id : bytes;
  tp_received : gmap Z (list ReceivedShred);
  tp_channel : list (bytes * list Shred);
  tp_signer : option SigningKey;
  tp_stats : PropagationStats
}.

(** [TurbinePropagator::new], [with_signer] *)
Definition propagator_new (validator_id : bytes) (neighborhood : Neighborhood) : Propagator :=
  mkPropagator erasure_default neighborhood validator_id ∅ [] None stats_zero.
Definition with_signer (p : Propagator) (key : SigningKey) : Propagator :=
  mkPropagator (tp_coder p) (tp_neighborhood p) (tp_validator_id p) (tp_received p) (tp_channel p)
    (Some key) (tp_stats p).

Definition set_prop_stats (p : Propagator) (s : PropagationStats) : Propagator :=
  mkPropagator (tp_coder p) (tp_neighborhood p) (tp_validator_id p) (tp_received p) (tp_channel p)
    (tp_signer p) s.
Definition set_received (p : Propagator) (r : gmap Z (list ReceivedShred)) : Propagator :=
  mkPropagator (tp_coder p) (tp_neighborhood p) (tp_validator_id p) r (tp_channel p) (tp_signer p) (tp_stats p).

(** [shred_sender.send(..)], on a channel that is open. *)
Definition push_channel (p : Propagator) (key : bytes) (shreds : list Shred) : Propagator :=
  mkPropagator (tp_coder p) (tp_neighborhood p) (tp_validator_id p) (tp_received p)
    (tp_channel p ++ [(key, shreds)]) (tp_signer p) (tp_stats p).

(** The shreds of a block, signed when a key is configured. *)
Definition sign_all (signer : option SigningKey) (shreds : list Shred) : list Shred :=
  match signer with Some key => (fun s => shred_sign s key) <$> shreds | None => shreds end.

(** [TurbinePropagator::propagate_block]; [channel_open] says whether the
    receiving end of the channel still exists. *)
Definition propagate_block (p : Propagator) (block_data : bytes) (slot : Z) (channel_open : bool)
    : outcome Propagator :=
  match encode (tp_coder p) block_data slot with
  | Panics => Panics
  | Returns shreds =>
      let shreds := sign_all (tp_signer p) shreds in
      match neighbors (tp_neighborhood p) (tp_validator_id p) with
      | Panics => Panics
      | Returns ns =>
          let neighbor_keys := tn_validator <$> ns in
          let p := foldl (fun p key => if channel_open then push_channel p key shreds
                                       else set_prop_stats p (count_error (tp_stats p))) p neighbor_keys in
          Returns (set_prop_stats p (count_propagated (tp_stats p) (Z.of_nat (length shreds))))
      end
  end.

(** The checks of [receive_shred] before buffering. *)
Definition shred_acceptable (s : Shred) : bool :=
  shred_verify s && ((length (sh_signature s) =? 0)%nat || shred_verify_signature s).

(** [TurbinePropagator::receive_shred] at time [now] *)
Definition receive_shred (p : Propagator) (s : Shred) (from : bytes) (now : Z) : Propagator * bool :=
  if negb (shred_verify s) then (set_prop_stats p (count_invalid (tp_stats p)), false)
  else if negb (length (sh_signature s) =? 0)%nat && negb (shred_verify_signature s)
  then (set_prop_stats p (count_invalid (tp_stats p)), false)
  else
    let slot := sh_slot s in
    let slot_shreds := default [] (tp_received p !! slot) in
    if existsb (fun r => bool_decide (sh_id (rs_shred r) = sh_id s)) slot_shreds
    then (set_prop_stats (set_received p (<[slot := slot_shreds]> (tp_received p)))
            (count_duplicate (tp_stats p)), false)
    else (set_prop_stats (set_received p (<[slot := slot_shreds ++ [mkReceived s from now]]> (tp_received p)))
            (count_received (tp_stats p)), true).

(** [TurbinePropagator::prune_slots_below] *)
Definition prune_slots_below (p : Propagator) (slot : Z) : Propagator * nat :=
  let stale := filter (fun kv => kv.1 < slot) (tp_received p) in
  let p := set_received p (filter (fun kv => ~ kv.1 < slot) (tp_received p)) in
  (if (size stale =? 0)%nat then p
   else set_prop_stats p (count_pruned (tp_stats p) (Z.of_nat (size stale))), size stale).

(** [buffered_slots], [shreds_received_for_slot] *)
Definition buffered_slots (p : Propagator) : nat := size (tp_received p).
Definition shreds_received_for_slot (p : Propagator) (slot : Z) : nat :=
  length (default [] (tp_received p !! slot)).

(** [TurbinePropagator::try_reassemble] *)
Definition try_reassemble (p : Propagator) (slot : Z) : outcome (Propagator * option bytes) :=
  match tp_received p !! slot with
  | None => Returns (p, None)
  | Some shreds =>
      match decode (tp_coder p) (rs_shred <$> shreds) with
      | Panics => Panics
      | Returns None => Returns (p, None)
      | Returns (Some block) => Returns (set_prop_stats p (count_reassembled (tp_stats p)), Some block)
      end
  end.

(** [TurbinePropagator::forward_shreds] *)
Definition forward_shreds (p : Propagator) (shreds : list Shred) (channel_open : bool) : outcome Propagator :=
  match find_node (nh_nodes (tp_neighborhood p)) (tp_validator_id p) with
  | None => Returns p
  | Some node =>
      match index_all (nh_nodes (tp_neighborhood p)) (tn_children node) with
      | Panics => Panics
      | Returns children =>
          Returns (foldl (fun p c => if channel_open then push_channel p (tn_validator c) shreds else p)
                     p children)
      end
  end.

(** ** What the buffer holds *)

Record buffer_inv (received : gmap Z (list ReceivedShred)) : Prop := {
  buf_slot : forall slot rs r, received !! slot = Some rs -> r ∈ rs ->
    sh_slot (rs_shred r) = slot /\ shred_acceptable (rs_shred r) = true;
  buf_ids : forall slot rs, received !! slot = Some rs -> NoDup ((sh_id ∘ rs_shred) <$> rs);
  buf_nonempty : forall slot, received !! slot <> Some []
}.

Lemma acceptable_spec s : shred_acceptable s = true <->
  negb (shred_verify s) = false /\ negb (length (sh_signature s) =? 0)%nat && negb (shred_verify_signature s) = false.
Proof.
  unfold shred_acceptable. rewrite andb_true_iff, orb_true_iff, andb_false_iff, !negb_false_iff. done.
Qed.

(** The three outcomes of [receive_shred]. *)
Lemma receive_cases p s from now :
  let slot_shreds := default [] (tp_received p !! sh_slot s) in
  let seen := sh_id s ∈ (sh_id ∘ rs_shred) <$> slot_shreds in
  (shred_acceptable s = false /\
     receive_shred p s from now = (set_prop_stats p (count_invalid (tp_stats p)), false)) \/
  (shred_acceptable s = true /\ seen /\ receive_shred p s from now =
     (set_prop_stats (set_received p (<[sh_slot s := slot_shreds]> (tp_received p)))
            (count_duplicate (tp_stats p)), false)) \/
  (shred_acceptable s = true /\ ~ seen /\ receive_shred p s from now =
     (set_prop_stats (set_received p (<[sh_slot s := slot_shreds ++ [mkReceived s from now]]> (tp_received p)))
            (count_received (tp_stats p)), true)).
Proof.
  cbv zeta. unfold receive_shred. destruct (shred_acceptable s) eqn:Ha.
  - apply acceptable_spec in Ha as [-> ->]. right.
    destruct (existsb _ _) eqn:E; [left|right]; (split; [done|split; [|done]]).
    + apply existsb_exists in E as (r & Hr & Hid). apply bool_decide_eq_true in Hid.
      apply list_elem_of_fmap. exists r. split; [done|]. by apply list_elem_of_In.
    + intros (r & Hid & Hr)%list_elem_of_fmap. apply not_true_iff_false in E. apply E.
      apply existsb_exists. exists r. split; [by apply list_elem_of_In|]. by apply bool_decide_eq_true.
  - left. split; [done|]. unfold shred_acceptable in Ha. apply andb_false_iff in Ha as [->| [Hl Hv]%orb_false_iff]; [done|].
    rewrite Hl, Hv. by destruct (negb (shred_verify s)).
Qed.

Lemma receive_inv p s from now : buffer_inv (tp_received p) ->
  buffer_inv (tp_received (receive_shred p s from now).1).
Proof.
  intros I. pose proof I as [I1 I2 I3].
  destruct (receive_cases p s from now) as [[Ha ->]|[(Ha & Hseen & ->)|(Ha & Hseen & ->)]]; [done|..];
    cbn [fst set_prop_stats set_received tp_received].
  - destruct (tp_received p !! sh_slot s) as [rs|] eqn:E; [|by apply not_elem_of_nil in Hseen].
    simpl. by rewrite insert_id.
  - assert (Hold : forall r, r ∈ default [] (tp_received p !! sh_slot s) ->
      sh_slot (rs_shred r) = sh_slot s /\ shred_acceptable (rs_shred r) = true).
    { destruct (tp_received p !! sh_slot s) eqn:E; [eauto|]. by intros r ?%not_elem_of_nil. }
    split.
    + intros slot rs r [[<- <-]|[_ Hrs]]%lookup_insert_Some Hr; [|eauto].
      apply elem_of_app in Hr as [Hr| ->%list_elem_of_singleton]; [by apply Hold|done].
    + intros slot rs [[<- <-]|[_ Hrs]]%lookup_insert_Some; [|eauto].
      rewrite fmap_app. apply NoDup_app. split_and!.
      * destruct (tp_received p !! sh_slot s) eqn:E; [eauto|constructor].
      * intros i Hi ->%list_elem_of_singleton. done.
      * apply NoDup_singleton.
    + intros slot [[_ H]|[_ H]]%lookup_insert_Some; [by destruct (default [] _)|by eapply I3].
Qed.

(** What a history does to a propagator. *)
Inductive prop_op :=
| OpPropagate (block : bytes) (slot : Z) (open : bool)
| OpReceive (s : Shred) (from : bytes) (now : Z)
| OpPrune (slot : Z)
| OpReassemble (slot : Z)
| OpForward (shreds : list Shred) (open : bool).

Definition prop_step (p : Propagator) (o : prop_op) : outcome Propagator :=
  match o with
  | OpPropagate b slot open => propagate_block p b slot open
  | OpReceive s from now => Returns (receive_shred p s from now).1
  | OpPrune slot => Returns (prune_slots_below p slot).1
  | OpReassemble slot => match try_reassemble p slot with Returns (p, _) => Returns p | Panics => Panics end
  | OpForward shreds open => forward_shreds p shreds open
  end.

Inductive prop_reach (p0 : Propagator) : Propagator -> Prop :=
| reach_start : prop_reach p0 p0
| reach_step p o p' : prop_reach p0 p -> prop_step p o = Returns p' -> prop_reach p0 p'.

Lemma push_all_received keys shreds open p :
  tp_received (foldl (fun p key => if open : bool then push_channel p key shreds
                                   else set_prop_stats p (count_error (tp_stats p))) p keys) = tp_received p.
Proof. revert p. induction keys as [|k keys IH]; intros p; [done|]. cbn [foldl]. rewrite IH. by destruct open. Qed.

Lemma prune_received p slot :
  tp_received (prune_slots_below p slot).1 = filter (fun kv => ~ kv.1 < slot) (tp_received p).
Proof. unfold prune_slots_below. cbn [fst]. by case_match. Qed.

Lemma prop_step_inv p o p' : buffer_inv (tp_received p) -> prop_step p o = Returns p' ->
  buffer_inv (tp_received p').
Proof.
  intros I. destruct o; cbn [prop_step].
  - unfold propagate_block. destruct (encode _ _ _) as [sh|]; [|done]. destruct (neighbors _ _) as [ns|]; [|done].
    intros [= <-]. cbn [set_prop_stats tp_received]. by rewrite push_all_received.
  - intros Hp. assert (p' = (receive_shred p s from now).1) as -> by congruence. by apply receive_inv.
  - intros Hp. assert (p' = (prune_slots_below p slot).1) as -> by congruence.
    destruct I as [I1 I2 I3]. rewrite prune_received. split.
    + intros s rs r [Hrs _]%map_lookup_filter_Some. eauto.
    + intros s rs [Hrs _]%map_lookup_filter_Some. eauto.
    + intros s [Hrs _]%map_lookup_filter_Some. by eapply I3.
  - unfold try_reassemble. repeat case_match; intros [= <-]; simplify_eq; done.
  - unfold forward_shreds. destruct (find_node _ _); [|by intros [= <-]].
    destruct (index_all _ _) as [cs|]; [|done]. intros [= <-].
    revert p I. induction cs as [|c cs IH]; intros p I; [done|]. cbn [foldl]. apply IH. by destruct open.
Qed.

(** Whatever a propagator does, its buffer holds only shreds filed under
    their own slot whose payload hash matches and whose signature, when they
    carry one, verifies; within a slot no shred id occurs twice, and no empty
    slot is kept. *)
Theorem shred_buffer_invariant id nh p : prop_reach (propagator_new id nh) p -> buffer_inv (tp_received p).
Proof.
  induction 1 as [|p o p' _ IH Hs]; [|by eapply prop_step_inv].
  split; cbn [propagator_new tp_received]; intros *; by rewrite lookup_empty.
Qed.
(** ** Delivery *)

Lemma encode_shape cfg data slot shreds i s : encode cfg data slot = Returns shreds -> shreds !! i = Some s ->
  sh_index s = Z.of_nat i /\ sh_slot s = slot /\ shred_verify s = true /\ sh_signature s = [] /\
  id_index (sh_id s) = sh_index s.
Proof.
  unfold encode. case_match eqn:Hk; [done|]. destruct (generator _ _); [|done]. intros [= <-].
  intros [Hs|[Hge Hs]]%lookup_app_Some; apply list_lookup_fmap_Some in Hs as (x & -> & Hx);
    apply lookup_seq in Hx as [-> Hlt]; unfold shred_verify; cbn [new_data new_coding sh_index sh_slot sh_hash
      sh_payload sh_signature sh_id id_data id_coding id_index];
    (split_and!; [|done|by apply bool_decide_eq_true|done|done]).
  - done.
  - rewrite length_fmap, length_seq in *. f_equal. lia.
Qed.

(** A sent shred: the encoder's, possibly signed. *)
Lemma sign_all_signed signer shreds key : signer = Some key ->
  Forall (fun s => sh_signer s = verifying_key key /\ shred_verify_signature s = true) (sign_all signer shreds).
Proof. intros ->. cbn [sign_all]. apply Forall_fmap, Forall_true. intros s. split; [done|apply shred_sign_verifies]. Qed.

Lemma sign_all_lookup signer shreds i s' : sign_all signer shreds !! i = Some s' ->
  exists s, shreds !! i = Some s /\ sh_index s' = sh_index s /\ sh_slot s' = sh_slot s /\
    sh_payload s' = sh_payload s /\ sh_id s' = sh_id s /\
    (shred_verify s = true -> sh_signature s = [] -> shred_acceptable s' = true).
Proof.
  destruct signer as [key|]; cbn [sign_all].
  - intros (s & -> & Hs)%list_lookup_fmap_Some. exists s. split_and!; [done..|]. intros Hv _.
    unfold shred_acceptable. rewrite shred_sign_verifies, orb_true_r, andb_true_r. exact Hv.
  - intros Hs. exists s'. split_and!; [done..|]. intros Hv Hn. unfold shred_acceptable. by rewrite Hv, Hn.
Qed.

Lemma sent_shape cfg data slot encoded signer s : encode cfg data slot = Returns encoded ->
  s ∈ sign_all signer encoded ->
  sh_slot s = slot /\ shred_acceptable s = true /\ id_index (sh_id s) = sh_index s /\
  genuine (total_shards cfg) encoded s /\ exists i, sign_all signer encoded !! i = Some s /\ sh_index s = Z.of_nat i.
Proof.
  intros He [i Hi]%list_elem_of_lookup. destruct (sign_all_lookup _ _ _ _ Hi) as (s0 & Hs0 & Hx & Hsl & Hp & Hid & Ha).
  destruct (encode_shape _ _ _ _ _ _ He Hs0) as (H1 & H2 & H3 & H4 & H5).
  split_and!; [congruence|auto|congruence| |exists i; split; [done|congruence]].
  split; [rewrite Hx, H1; lia|]. right. exists s0. split_and!; [by eapply list_elem_of_lookup_2|done|done].
Qed.

(** Shreds received one after the other, each with its sender and time. *)
Definition receive_all (p : Propagator) (arrivals : list (Shred * bytes * Z)) : Propagator :=
  foldl (fun p '(s, from, now) => (receive_shred p s from now).1) p arrivals.

Definition buffered (p : Propagator) (slot : Z) : list Shred := rs_shred <$> default [] (tp_received p !! slot).

Lemma receive_buffered p s from now slot : let p' := (receive_shred p s from now).1 in
  tp_coder p' = tp_coder p /\
  (forall x, x ∈ buffered p' slot -> x ∈ buffered p slot \/ (x = s /\ shred_acceptable s = true /\ sh_slot s = slot)) /\
  (forall i, i ∈ sh_id <$> buffered p slot -> i ∈ sh_id <$> buffered p' slot) /\
  (shred_acceptable s = true -> sh_slot s = slot -> sh_id s ∈ sh_id <$> buffered p' slot).
Proof.
  cbv zeta. unfold buffered.
  destruct (receive_cases p s from now) as [[Ha ->]|[(Ha & Hseen & ->)|(Ha & Hseen & ->)]];
    cbn [fst set_prop_stats set_received tp_received tp_coder].
  - split_and!; [done|by left|done|congruence].
  - assert (E : default [] (<[sh_slot s := default [] (tp_received p !! sh_slot s)]> (tp_received p) !! slot) =
                default [] (tp_received p !! slot)).
    { destruct (decide (sh_slot s = slot)) as [->|?]; [by rewrite lookup_insert_eq|by rewrite lookup_insert_ne]. }
    rewrite E. split_and!; [done|by left|done|]. intros _ <-. by rewrite <- list_fmap_compose.
  - destruct (decide (sh_slot s = slot)) as [<-|Hne].
    + rewrite lookup_insert_eq. cbn [default from_option id]. rewrite !fmap_app. split_and!; [done|..].
      * intros x [Hx| ->%list_elem_of_singleton]%elem_of_app; [by left|by right].
      * intros i Hi. apply elem_of_app. by left.
      * intros _ _. apply elem_of_app. right. by apply list_elem_of_singleton.
    + rewrite lookup_insert_ne by done. split_and!; [done|by left|done|done].
Qed.

Lemma receive_all_buffered p arrivals slot :
  tp_coder (receive_all p arrivals) = tp_coder p /\
  (forall x, x ∈ buffered (receive_all p arrivals) slot ->
     x ∈ buffered p slot \/ (x ∈ arrivals.*1.*1 /\ shred_acceptable x = true /\ sh_slot x = slot)) /\
  (forall x, x ∈ arrivals.*1.*1 -> shred_acceptable x = true -> sh_slot x = slot ->
     sh_id x ∈ sh_id <$> buffered (receive_all p arrivals) slot).
Proof.
  unfold receive_all. induction arrivals as [|[[s from] now] arrivals (I1 & I2 & I3)] using rev_ind.
  { split_and!; [done|by left|by intros x ?%not_elem_of_nil]. }
  rewrite foldl_app, !fmap_app. cbn [foldl].
  destruct (receive_buffered (foldl (fun p '(s, from, now) => (receive_shred p s from now).1) p arrivals)
    s from now slot) as (H1 & H2 & H3 & H4). split_and!.
  - congruence.
  - intros x [Hx|(-> & Ha & Hs)]%H2.
    + destruct (I2 x Hx) as [?|(? & ? & ?)]; [by left|]. right. rewrite elem_of_app. auto.
    + right. rewrite elem_of_app. split_and!; [|done..]. right. by apply list_elem_of_singleton.
  - intros x [Hx| ->%list_elem_of_singleton]%elem_of_app Ha Hs; [by apply H3, I3|by apply H4].
Qed.

(** Sent shreds have distinct indices below the total. *)
Lemma sent_indices cfg data slot encoded signer l : encode cfg data slot = Returns encoded ->
  sublist l (sign_all signer encoded) -> (length encoded = total_shards cfg)%nat ->
  size (indices_in_range (total_shards cfg) l) = length l.
Proof.
  intros He Hsub Hlen. unfold indices_in_range.
  assert (Hsent : forall s, s ∈ l -> 0 <= sh_index s < Z.of_nat (total_shards cfg)).
  { intros s Hs. assert (Hin : s ∈ sign_all signer encoded) by (by eapply elem_of_submseteq; [exact Hs|apply sublist_submseteq]).
    destruct (sent_shape _ _ _ _ _ _ He Hin) as (_ & _ & _ & _ & i & Hi & ->).
    apply sign_all_lookup in Hi as (s0 & Hs0 & _). apply lookup_lt_Some in Hs0. lia. }
  assert (Hnd : NoDup (sh_index <$> l)).
  { eapply sublist_NoDup; [|apply fmap_sublist, Hsub]. apply NoDup_alt. intros i j x Hi Hj.
    apply list_lookup_fmap_Some in Hi as (a & -> & Ha). apply list_lookup_fmap_Some in Hj as (b & Eb & Hb).
    destruct (sign_all_lookup _ _ _ _ Ha) as (a0 & Ha0 & Ea0 & _), (sign_all_lookup _ _ _ _ Hb) as (b0 & Hb0 & Eb0 & _).
    apply (encode_shape _ _ _ _ _ _ He) in Ha0 as [Ea1 _]. apply (encode_shape _ _ _ _ _ _ He) in Hb0 as [Eb1 _]. lia. }
  assert (Hf : filter (fun i => i < Z.of_nat (total_shards cfg)) (sh_index <$> l) = sh_index <$> l).
  { apply filter_all. intros i (s & -> & Hs)%list_elem_of_fmap. by apply Hsent. }
  rewrite Hf, size_list_to_set by done. apply length_fmap.
Qed.

(** From any [k] of the sent shreds the receiver reassembles the block. *)
Lemma delivery cfg block slot encoded signer q arrivals :
  (0 < data_shards cfg)%nat -> (total_shards cfg <= 256)%nat ->
  bytes_ok block -> is_u64 (Z.of_nat (length block)) ->
  encode cfg block slot = Returns encoded -> tp_coder q = cfg -> tp_received q !! slot = None ->
  let shreds := sign_all signer encoded in
  (forall s, s ∈ arrivals.*1.*1 -> sh_slot s = slot -> shred_acceptable s = true -> s ∈ shreds) ->
  (data_shards cfg <= length (filter (fun s => s ∈ arrivals.*1.*1) shreds))%nat ->
  exists q', try_reassemble (receive_all q arrivals) slot = Returns (q', Some block).
Proof.
  intros Hk Hkm Hb Hu He Hc Hq shreds Hgen Hcount.
  destruct (receive_all_buffered q arrivals slot) as (H1 & H2 & H3).
  assert (Hbuf : forall x, x ∈ buffered (receive_all q arrivals) slot -> x ∈ shreds).
  { intros x [Hx|(Hx & Ha & Hs)]%H2; [|by apply Hgen].
    unfold buffered in Hx. rewrite Hq in Hx. by apply not_elem_of_nil in Hx. }
  assert (Hlen : length encoded = total_shards cfg).
  { destruct (generator_spec _ _ Hkm) as (g & _ & Hg & _).
    destruct (encode_carries cfg block slot g) as (e & He' & Hl & _); [done..|]. congruence. }
  assert (Hsize : (data_shards cfg <= size (indices_in_range (total_shards cfg) (buffered (receive_all q arrivals) slot)))%nat).
  { etransitivity; [exact Hcount|]. rewrite <- (sent_indices cfg block slot encoded signer) by
      (done || apply sublist_filter). apply subseteq_size. intros i. unfold indices_in_range.
    rewrite !elem_of_list_to_set, !list_elem_of_filter, !list_elem_of_fmap. intros (Hi & s & -> & Hs).
    split; [done|]. apply list_elem_of_filter in Hs as [Hs Hin].
    destruct (sent_shape _ _ _ _ _ _ He Hin) as (Hsl & Ha & Hid & _).
    apply (H3 s Hs Ha), list_elem_of_fmap in Hsl as (x & Hx & Hxb). exists x. split; [|done].
    destruct (sent_shape _ _ _ _ _ _ He (Hbuf x Hxb)) as (_ & _ & Hid' & _). congruence. }
  pose proof (decode_encoded cfg block slot encoded (buffered (receive_all q arrivals) slot) Hk Hkm Hb Hu He) as Hdec.
  unfold try_reassemble. rewrite H1, Hc. unfold buffered in *.
  destruct (tp_received (receive_all q arrivals) !! slot) as [rs|].
  - cbn [default from_option id] in *. rewrite Hdec; [by eexists| |done].
    apply Forall_forall. intros x Hx%Hbuf. eapply sent_shape; eauto.
  - change (indices_in_range _ _) with (∅ : gset Z) in Hsize. rewrite size_empty in Hsize. lia.
Qed.

(** A shred without a signature is accepted whatever signer it names, and then
    keeps the genuine shred of the same id out. *)
Lemma forged_shred_displaces p forged genuine from from' now now' :
  shred_verify forged = true -> sh_signature forged = [] -> sh_id forged = sh_id genuine ->
  sh_slot forged = sh_slot genuine -> shreds_received_for_slot p (sh_slot forged) = 0%nat ->
  let '(p1, accepted) := receive_shred p forged from now in
  accepted = true /\ (receive_shred p1 genuine from' now').2 = false.
Proof.
  intros Hv Hn Hid Hs H0. unfold shreds_received_for_slot in H0. apply nil_length_inv in H0.
  assert (Ha : shred_acceptable forged = true) by (unfold shred_acceptable; by rewrite Hv, Hn).
  destruct (receive_cases p forged from now) as [[? _]|[(_ & Hseen & _)|(_ & _ & ->)]]; [congruence| |].
  { rewrite H0 in Hseen. by apply not_elem_of_nil in Hseen. }
  split; [done|]. set (p1 := set_prop_stats _ _).
  destruct (receive_cases p1 genuine from' now') as [[_ ->]|[(_ & _ & ->)|(_ & Hseen & _)]]; [done..|].
  exfalso. apply Hseen. unfold p1. cbn [set_prop_stats set_received tp_received].
  rewrite Hs, lookup_insert_eq. cbn. rewrite fmap_app. apply elem_of_app. right.
  apply list_elem_of_singleton. by rewrite <- Hid.
Qed.
End Propagator.
