(* ===== verification/Net.v ===== *)
(** * Datagrams

    src/crates/net/src/lib.rs: the two kinds of message on the wire, their
    framing [magic | tag | json], and the send and receive paths of the UDP
    transport.  The socket is the sequence of results its calls give; the text
    of a serde_json error is a parameter. *)

From S2P Require Import Prelude Crypto Shred Gossip.
From stdpp Require Import list.
Open Scope Z_scope.

Definition MAX_DATAGRAM : nat := Z.to_nat (64 * 1024).
Definition NET_MAGIC : bytes := [0x54; 0x4E].
Definition TAG_SHRED : Z := 1.
Definition TAG_GOSSIP : Z := 2.

Inductive NetMessage := NetShred (s : Shred) | NetGossip (m : GossipMessage).

#[export] Instance NetMessage_eq_dec : EqDecision NetMessage.
Proof. solve_decision. Defined.

#[export] Instance ShredType_countable : Countable ShredType.
Proof.
  apply (inj_countable' (fun t => match t with ShredData => true | ShredCoding => false end)
           (fun b : bool => if b then ShredData else ShredCoding)). by intros [].
Defined.

#[export] Instance ShredId_countable : Countable ShredId.
Proof.
  apply (inj_countable (fun x => [encode (id_slot x); encode (id_index x); encode (id_type x)])
    (fun l => match l with
              | [a; b; c] => va ← decode a; vb ← decode b; vc ← decode c; Some (mkShredId va vb vc)
              | _ => None
              end)).
  intros []. cbn. by rewrite !decode_encode.
Defined.

#[export] Instance Shred_countable : Countable Shred.
Proof.
  apply (inj_countable (fun x => [encode (sh_id x); encode (sh_slot x); encode (sh_index x); encode (sh_type x); encode (sh_payload x); encode (sh_hash x); encode (sh_signer x); encode (sh_signature x)])
    (fun l => match l with
              | [a; b; c; d; e; f; g; h] => va ← decode a; vb ← decode b; vc ← decode c; vd ← decode d; ve ← decode e; vf ← decode f; vg ← decode g; vh ← decode h; Some (mkShred va vb vc vd ve vf vg vh)
              | _ => None
              end)).
  intros []. cbn. by rewrite !decode_encode.
Defined.

#[export] Instance GossipMessage_countable : Countable GossipMessage.
Proof.
  apply (inj_countable (fun x => [encode (gm_from x); encode (gm_type x); encode (gm_payload x); encode (gm_timestamp x); encode (gm_signature x)])
    (fun l => match l with
              | [a; b; c; d; e] => va ← decode a; vb ← decode b; vc ← decode c; vd ← decode d; ve ← decode e; Some (mkGossip va vb vc vd ve)
              | _ => None
              end)).
  intros []. cbn. by rewrite !decode_encode.
Defined.

#[export] Instance NetMessage_countable : Countable NetMessage.
Proof.
  apply (inj_countable' (fun m => match m with NetShred s => inl s | NetGossip g => inr g end)
    (fun x => match x with inl s => NetShred s | inr g => NetGossip g end)). by intros [].
Defined.

(** Values of the Rust types. *)
Definition shred_id_ok (i : ShredId) : Prop := is_u64 (id_slot i) /\ is_u64 (id_index i).
Definition shred_wire_ok (s : Shred) : Prop :=
  shred_id_ok (sh_id s) /\ shred_ok s /\ bytes_ok (sh_payload s) /\ arr32 (sh_hash s) /\
  arr32 (sh_signer s) /\ bytes_ok (sh_signature s).
Definition net_ok (m : NetMessage) : Prop :=
  match m with
  | NetShred s => shred_wire_ok s
  | NetGossip g => message_ok g /\ bytes_ok (gm_signature g)
  end.

Inductive NetError :=
| NetEncode (e : string) | NetMalformed (e : string) | NetTooLarge (n : nat) | NetIo (e : string).

(** [impl Display for NetError] *)
Definition net_error_display (e : NetError) : string :=
  match e with
  | NetEncode e => "encode error: " +:+ e
  | NetMalformed e => "malformed datagram: " +:+ e
  | NetTooLarge n =>
      "datagram too large: " +:+ pretty n +:+ " > " +:+ pretty MAX_DATAGRAM +:+ " bytes"
  | NetIo e => "io error: " +:+ e
  end.

(** [NetMessage::kind] *)
Definition net_kind (m : NetMessage) : string :=
  match m with NetShred _ => "shred" | NetGossip _ => "gossip" end.

(** The tag [encode] writes. *)
Definition net_tag (m : NetMessage) : Z :=
  match m with NetShred _ => TAG_SHRED | NetGossip _ => TAG_GOSSIP end.

Section Net.
Context `{Json : !Serde NetMessage net_ok}.
(** The text of the serde_json errors. *)
Context (encode_error : string) (decode_error : bytes -> string).

(** [NetMessage::encode] *)
Definition net_encode (m : NetMessage) : result bytes NetError :=
  let tag := net_tag m in
  match to_vec m with
  | None => Err (NetEncode encode_error)
  | Some body =>
      let total := (length NET_MAGIC + 1 + length body)%nat in
      if (MAX_DATAGRAM <? total)%nat then Err (NetTooLarge total)
      else Ok (NET_MAGIC ++ [tag] ++ body)
  end.

(** [serde_json::from_slice(body)] with the error prefixed by the kind. *)
Definition parse_body (kind : string) (body : bytes) : result NetMessage NetError :=
  match from_slice body with
  | Some m => Ok m
  | None => Err (NetMalformed (kind +:+ ": " +:+ decode_error body))
  end.

(** [NetMessage::decode] *)
Definition net_decode (b : bytes) : result NetMessage NetError :=
  if (length b <? length NET_MAGIC + 1)%nat then Err (NetMalformed "datagram too short")
  else if negb (bool_decide (take (length NET_MAGIC) b = NET_MAGIC)) then Err (NetMalformed "bad magic")
  else
    let tag := nth (length NET_MAGIC) b 0 in
    let body := drop (length NET_MAGIC + 1) b in
    if tag =? TAG_SHRED then parse_body "shred" body
    else if tag =? TAG_GOSSIP then parse_body "gossip" body
    else Err (NetMalformed ("unknown tag " +:+ dec tag)).

(** [UdpTransport::send_raw]: what is handed to the socket, whose answer is
    [sent] (the bytes sent, or an I/O error). *)
Definition send_raw (b : bytes) (sent : bytes -> result nat string) : result nat NetError :=
  if (MAX_DATAGRAM <? length b)%nat then Err (NetTooLarge (length b))
  else match sent b with Ok n => Ok n | Err e => Err (NetIo e) end.

(** [UdpTransport::send_to] *)
Definition send_to (m : NetMessage) (sent : bytes -> result nat string) : result nat NetError :=
  match net_encode m with
  | Err e => Err e
  | Ok b => send_raw b sent
  end.

(** [UdpTransport::recv], over the results of [recv_from]: a datagram (its
    first [MAX_DATAGRAM] bytes fit the buffer) with its peer, or an error.
    [None]: every datagram so far was dropped, the call still waits.  With the
    result, what is left to receive. *)
Fixpoint recv {Peer : Type} (socket : list (result (bytes * Peer) string))
    : option (result (NetMessage * Peer) NetError * list (result (bytes * Peer) string)) :=
  match socket with
  | [] => None
  | Err e :: socket => Some (Err (NetIo e), socket)
  | Ok (datagram, peer) :: socket =>
      match net_decode (take MAX_DATAGRAM datagram) with
      | Ok m => Some (Ok (m, peer), socket)
      | Err _ => recv socket
      end
  end.

(** ** Framing *)

Lemma net_decode_frame tag body :
  net_decode (NET_MAGIC ++ [tag] ++ body) =
  if tag =? TAG_SHRED then parse_body "shred" body
  else if tag =? TAG_GOSSIP then parse_body "gossip" body
  else Err (NetMalformed ("unknown tag " +:+ dec tag)).
Proof. done. Qed.

Lemma net_encode_cases m : net_ok m ->
  exists body, to_vec m = Some body /\ from_slice body = Some m /\
    net_encode m = if (MAX_DATAGRAM <? length NET_MAGIC + 1 + length body)%nat
                   then Err (NetTooLarge (length NET_MAGIC + 1 + length body))
                   else Ok (NET_MAGIC ++ [net_tag m] ++ body).
Proof.
  intros Hm. destruct (serde_roundtrip m Hm) as (body & Hb & Hp).
  exists body. split_and!; [done..|]. unfold net_encode. by rewrite Hb.
Qed.

Lemma net_decode_encode m b : net_ok m -> net_encode m = Ok b ->
  net_decode b = Ok m /\ (length b <= MAX_DATAGRAM)%nat.
Proof.
  intros Hm E. destruct (net_encode_cases m Hm) as (body & _ & Hp & Hc). rewrite E in Hc.
  case_match eqn:Hle; [done|]. assert (b = NET_MAGIC ++ [net_tag m] ++ body) as -> by congruence.
  apply Nat.ltb_ge in Hle. split.
  - rewrite net_decode_frame. unfold parse_body. rewrite Hp. by destruct m.
  - autorewrite with trust_len. cbn [length NET_MAGIC] in *. lia.
Qed.

(** Malformed datagrams are skipped, whatever they hold. *)
Lemma recv_skips {Peer} (junk : list (bytes * Peer)) socket :
  Forall (fun d => is_ok (net_decode (take MAX_DATAGRAM d.1)) = false) junk ->
  recv ((Ok <$> junk) ++ socket) = recv socket.
Proof.
  induction 1 as [|[d p] junk Hd _ IH]; [done|]. rewrite fmap_cons, <- app_comm_cons.
  cbn [recv fst] in *. by destruct (net_decode _).
Qed.

(** C38. Sending and receiving compose.  The datagram of a message is the magic,
    the tag of its kind and its encoding.  When it is longer than
    [MAX_DATAGRAM] the sender is told its length and the socket is not called;
    otherwise exactly that datagram is handed to the socket, whose answer is
    returned, and a receiver that gets it after any number of malformed
    datagrams drops those and returns the message with its peer. *)
Theorem net_send_recv {Peer} m sent : net_ok m ->
  exists body, to_vec m = Some body /\
    let datagram := NET_MAGIC ++ [match m with NetShred _ => 1 | NetGossip _ => 2 end] ++ body in
    if decide (length datagram <= MAX_DATAGRAM)%nat then
      send_to m sent = (match sent datagram with Ok n => Ok n | Err e => Err (NetIo e) end) /\
      forall (peer : Peer) junk rest,
        Forall (fun d => is_ok (net_decode (take MAX_DATAGRAM d.1)) = false) junk ->
        recv ((Ok <$> junk) ++ Ok (datagram, peer) :: rest) = Some (Ok (m, peer), rest)
    else send_to m sent = Err (NetTooLarge (length datagram)).
Proof.
  intros Hm. destruct (net_encode_cases m Hm) as (body & Hb & _ & Hc). exists body. split; [done|]. cbv zeta.
  change (match m with NetShred _ => 1 | NetGossip _ => 2 end) with (net_tag m).
  assert (Hlen : length (NET_MAGIC ++ [net_tag m] ++ body) = (length NET_MAGIC + 1 + length body)%nat)
    by (rewrite !length_app; cbn [length]; lia).
  unfold send_to. case_decide as Hle; rewrite Hlen in Hle.
  - rewrite (proj2 (Nat.ltb_ge _ _)) in Hc by done. destruct (net_decode_encode m _ Hm Hc) as [Hd Hl].
    rewrite Hc. split; [unfold send_raw; by rewrite (proj2 (Nat.ltb_ge _ _) Hl)|].
    intros peer junk rest Hj. rewrite recv_skips by done. cbn [recv]. by rewrite take_ge, Hd.
  - rewrite (proj2 (Nat.ltb_lt _ _)) in Hc by lia. by rewrite Hc, Hlen.
Qed.

(** The tag is not compared with the message in the body: a shred framed as
    gossip decodes to the shred. *)
Lemma net_tag_unchecked s : net_ok (NetShred s) ->
  exists body, to_vec (NetShred s) = Some body /\
    net_decode (NET_MAGIC ++ [TAG_GOSSIP] ++ body) = Ok (NetShred s).
Proof.
  intros Hs. destruct (serde_roundtrip _ Hs) as (body & Hb & Hp). exists body. split; [done|].
  rewrite net_decode_frame. unfold parse_body. by rewrite Hp.
Qed.
End Net.
