(* ===== verification/Network.v ===== *)
(** * The validator's network tasks

    src/validator/src/network.rs: the contact a validator advertises, the task
    that fans gossip out, the tasks that send and receive shreds, and the
    delivery of a block from the leader's propagator to another validator's;
    from main.rs, the parsing of peers and identities and the slot clock task.
    A socket is the list of what its [recv_from] returns. *)

From S2P Require Import Prelude Crypto Matrix Shred Erasure Neighborhood Propagate Gossip Net Account Transaction Blockstore Validator.
From stdpp Require Import list.
Open Scope Z_scope.

Definition SHRED_RETENTION_SLOTS : Z := 128.

(** [self_contact] of [Network::start], from the bound addresses. *)
Definition self_contact (identity : bytes) (gossip_addr tpu_addr : SocketAddr) (rpc_port : Z)
    (version : string) (now : Z) : ContactInfo :=
  mkContact identity gossip_addr tpu_addr (mkAddr [127; 0; 0; 1] rpc_port) tpu_addr 1 version now.

(** The store [Network::start] hands to the gossip protocol. *)
Definition network_crds (crds : Crds) (me : ContactInfo) (peers : list ContactInfo) : Crds :=
  foldl insert_contact (insert_contact (set_self_info crds me) me) peers.

(** [addr.ip().is_unspecified()] *)
Definition is_unspecified (a : SocketAddr) : bool := bool_decide (sa_ip a = [0; 0; 0; 0]).

Section Network.
Context `{Sha : Sha256} `{Ed : Ed25519} `{Json : !Serde NetMessage net_ok}.
Context (encode_error : string) (decode_error : bytes -> string).

(** The gossip send task, for one message and the contacts in iteration order:
    the datagrams given to [send_raw]. *)
Definition gossip_fan_out (identity : bytes) (contacts : list ContactInfo) (msg : GossipMessage)
    : list (bytes * SocketAddr) :=
  match net_encode encode_error (NetGossip msg) with
  | Err _ => []
  | Ok b => (fun c => (b, ci_gossip c)) <$>
      filter (fun c => ci_pubkey c <> identity /\ is_unspecified (ci_gossip c) = false) contacts
  end.

(** The datagram [send_to] makes of a shred, when it fits. *)
Definition shred_datagram (s : Shred) : option bytes :=
  match net_encode encode_error (NetShred s) with Ok b => Some b | Err _ => None end.

(** The TPU send task, for one [(dest, shreds)] of the channel: the datagrams
    given to the socket. *)
Definition tpu_send (contacts : list ContactInfo) (dest : bytes) (shreds : list Shred)
    : list (bytes * SocketAddr) :=
  if negb (length dest =? 32)%nat then []
  else match list_find (fun c => ci_pubkey c = dest) contacts with
       | None => []
       | Some (_, contact) => (fun b => (b, ci_tpu contact)) <$> omap shred_datagram shreds
       end.

(** The TPU receive task: it calls [recv] until the socket has nothing left;
    [clock] gives the time when that many events are left. *)
Fixpoint tpu_receive {Peer} (fuel : nat) (clock : nat -> Z) (q : Propagator)
    (socket : list (result (bytes * Peer) string)) : Propagator :=
  match fuel with
  | O => q
  | S fuel =>
      match recv decode_error socket with
      | None => q
      | Some (Ok (NetShred s, _), socket) =>
          tpu_receive fuel clock (receive_shred q s (fill32 0) (clock (length socket))).1 socket
      | Some (Ok (NetGossip _, _), socket) => tpu_receive fuel clock q socket
      | Some (Err _, socket) => tpu_receive fuel clock q socket
      end
  end.

(** The gossip receive task, likewise. *)
Fixpoint gossip_receive `{Payload : !Serde GossipPayload payload_ok} {Peer : Type}
    (iter : gmap bytes CrdsEntry -> list (bytes * CrdsEntry)) (shuffle : gmap bytes ContactInfo -> list ContactInfo)
    (fuel : nat) (clock : nat -> Z) (g : GossipProtocol) (socket : list (result (bytes * Peer) string))
    : GossipProtocol :=
  match fuel with
  | O => g
  | S fuel =>
      match recv decode_error socket with
      | None => g
      | Some (Ok (NetGossip msg, _), socket) =>
          gossip_receive iter shuffle fuel clock (handle_message iter shuffle g msg (clock (length socket))) socket
      | Some (Ok (NetShred _, _), socket) => gossip_receive iter shuffle fuel clock g socket
      | Some (Err _, socket) => gossip_receive iter shuffle fuel clock g socket
      end
  end.

(** One round of the ping task over the bootstrap peers, with the nonce drawn
    for each. *)
Definition ping_round `{Payload : !Serde GossipPayload payload_ok} (g : GossipProtocol)
    (peers : list (ContactInfo * Z)) (now : Z) : GossipProtocol :=
  foldl (fun g '(peer, nonce) => send_ping g peer nonce now) g peers.

(** [Network::start]: the gossip protocol over the seeded store and the
    propagator of a tree that holds the validator alone. *)
Definition network_start (identity : bytes) (key : SigningKey) (gossip_addr tpu_addr : SocketAddr)
    (rpc_port : Z) (version : string) (now : Z) (peers : list ContactInfo)
    : option (outcome (GossipProtocol * Propagator)) :=
  let me := self_contact identity gossip_addr tpu_addr rpc_port version now in
  let g := protocol_new key (network_crds default_store me peers) in
  match build_tree [(identity, 1)] 1 with
  | None => None
  | Some Panics => Some Panics
  | Some (Returns tree) => Some (Returns (g, with_signer (propagator_new identity tree) key))
  end.

(** ** Receiving *)

(** The shred of one socket event, if it is one. *)
Definition event_shred {Peer} (e : result (bytes * Peer) string) : option Shred :=
  match e with
  | Err _ => None
  | Ok (d, _) =>
      match net_decode decode_error (take MAX_DATAGRAM d) with
      | Ok (NetShred s) => Some s
      | _ => None
      end
  end.

Lemma recv_events {Peer} (socket : list (result (bytes * Peer) string)) :
  match recv decode_error socket with
  | None => omap event_shred socket = []
  | Some (r, rest) => (length rest < length socket)%nat /\
      omap event_shred socket =
        match r with Ok (NetShred s, _) => [s] | _ => [] end ++ omap event_shred rest
  end.
Proof.
  induction socket as [|[[d peer]|e] socket IH]; cbn [recv]; [done| |split; [simpl; lia|done]].
  destruct (net_decode decode_error (take MAX_DATAGRAM d)) as [m|e] eqn:E.
  - split; [simpl; lia|]. cbn [omap list_omap event_shred]. rewrite E. by destruct m.
  - cbn [omap list_omap event_shred]. rewrite E. destruct (recv decode_error socket) as [[r rest]|]; [|exact IH].
    destruct IH as [Hl IH]. split; [simpl; lia|exact IH].
Qed.

(** The task hands the shreds of the socket to [receive_shred] in order. *)
Lemma tpu_receive_all {Peer} fuel clock q (socket : list (result (bytes * Peer) string)) :
  (length socket <= fuel)%nat ->
  exists arrivals, tpu_receive fuel clock q socket = receive_all q arrivals /\
    arrivals.*1.*1 = omap event_shred socket.
Proof.
  revert q socket. induction fuel as [|fuel IH]; intros q socket Hf.
  { exists []. destruct socket; [done|simpl in Hf; lia]. }
  cbn [tpu_receive]. pose proof (recv_events socket) as H.
  destruct (recv decode_error socket) as [[r rest]|]; [|by exists []]. destruct H as [Hl H].
  assert (Hskip : forall q, exists arrivals, tpu_receive fuel clock q rest = receive_all q arrivals /\
    arrivals.*1.*1 = omap event_shred rest) by (intros; apply IH; lia).
  destruct r as [[[s|g] peer]|e]; rewrite H; [|apply Hskip..].
  destruct (Hskip (receive_shred q s (fill32 0) (clock (length rest))).1) as (arrivals & -> & Ha).
  exists ((s, fill32 0, clock (length rest)) :: arrivals). split; [done|]. by rewrite !fmap_cons, Ha.
Qed.

Lemma tpu_receive_inv {Peer} fuel clock q (socket : list (result (bytes * Peer) string)) :
  buffer_inv (tp_received q) ->
  let q' := tpu_receive fuel clock q socket in
  buffer_inv (tp_received q') /\ tp_coder q' = tp_coder q /\ tp_neighborhood q' = tp_neighborhood q /\
  tp_validator_id q' = tp_validator_id q.
Proof.
  cbv zeta. revert q socket. induction fuel as [|fuel IH]; intros q socket Hq; [done|]. cbn [tpu_receive].
  destruct (recv decode_error socket) as [[[[[s|g] peer]|e] rest]|]; [|by apply IH..|done].
  destruct (IH (receive_shred q s (fill32 0) (clock (length rest))).1 rest) as (H1 & -> & -> & ->);
    [by apply receive_inv|]. split; [exact H1|].
  destruct (receive_cases q s (fill32 0) (clock (length rest))) as [[_ ->]|[(_ & _ & ->)|(_ & _ & ->)]]; done.
Qed.

Lemma gossip_receive_inv `{Payload : !Serde GossipPayload payload_ok} {Peer : Type} iter shuffle
    (iter_perm : forall m, iter m ≡ₚ map_to_list m) fuel clock g (socket : list (result (bytes * Peer) string)) :
  gossip_inv g -> gossip_inv (gossip_receive iter shuffle fuel clock g socket).
Proof.
  revert g socket. induction fuel as [|fuel IH]; intros g socket Hg; [done|]. cbn [gossip_receive].
  destruct (recv decode_error socket) as [[[[[s|m] peer]|e] rest]|]; [by apply IH| |by apply IH|done].
  by apply IH, gossip_inv_message.
Qed.

(** ** Sending *)

Lemma encoded_wire_ok cfg data slot encoded signer s :
  (0 < data_shards cfg)%nat -> (total_shards cfg <= 256)%nat -> bytes_ok data -> is_u64 slot ->
  encode cfg data slot = Returns encoded -> s ∈ sign_all signer encoded -> net_ok (NetShred s).
Proof.
  intros Hk Hkm Hd Hs He [i Hi]%list_elem_of_lookup.
  destruct (generator_spec _ _ Hkm) as (g & t & Hg & _ & Hmg & _).
  destruct (encode_carries cfg data slot g) as (e & He' & Hlen & Hcar); [done..|].
  assert (e = encoded) as -> by congruence.
  destruct (sign_all_lookup _ _ _ _ Hi) as (s0 & Hs0 & Hx & Hsl & Hp & Hid & _).
  destruct (Hcar i s0 Hs0) as [Hi0 [Hpl Hb]]. apply lookup_lt_Some in Hs0 as Hlt.
  assert (Hpay : bytes_ok (sh_payload s0)).
  { apply Forall_lookup. intros j b Hj. apply lookup_lt_Some in Hj as Hjl.
    replace b with (nth j (sh_payload s0) 0) by (rewrite nth_lookup, Hj; done).
    rewrite Hb by lia. apply dot_byte.
    - rewrite Hi0, Nat2Z.id. destruct (nth_in_or_default i g []) as [Hin| ->]; [|constructor].
      apply list_elem_of_In in Hin. eapply Forall_forall in Hmg; [|exact Hin]. by destruct Hmg.
    - apply data_column_ok. by apply padded_ok. }
  assert (Hu : is_u64 (Z.of_nat i)) by (u64_unfold; lia).
  assert (Hshape : sh_slot s0 = slot /\ shred_id_ok (sh_id s0) /\ arr32 (sh_hash s0) /\
                   arr32 (sh_signer s0) /\ sh_signature s0 = []).
  { revert He Hs0. unfold encode. case_match; [done|]. rewrite Hg. intros [= <-].
    intros [H0|[_ H0]]%lookup_app_Some; apply list_lookup_fmap_Some in H0 as (x & -> & Hx0);
      apply lookup_seq in Hx0 as [-> ?]; cbn [new_data new_coding sh_slot sh_id sh_hash sh_signer sh_signature];
      (split_and!; [done|split; [done|simpl; u64_unfold; unfold total_shards in *; lia]|
        apply sha256_arr32|by apply fill32_ok|done]). }
  destruct Hshape as (H1 & H2 & H3 & H4 & H5).
  assert (Hsig : sh_hash s = sh_hash s0 /\ arr32 (sh_signer s) /\ bytes_ok (sh_signature s)).
  { destruct signer as [key|]; cbn [sign_all] in Hi; simplify_eq.
    - apply list_lookup_fmap_Some in Hi as (s1 & -> & Hs1). simplify_eq.
      split; [done|]. split; [apply verifying_key_arr32|apply ed_sign_bytes].
    - split; [done|]. split; [done|]. rewrite H5. constructor. }
  destruct Hsig as (H6 & H7 & H8). cbn [net_ok]. unfold shred_wire_ok, shred_ok.
  rewrite Hid, Hx, Hsl, Hp, Hi0, H1, H6. by repeat (split; [done|]).
Qed.

(** ** Delivery of a block *)

(** The datagram of the shred is among the socket's events. *)
Definition delivered {Peer} (events : list (result (bytes * Peer) string)) (s : Shred) : bool :=
  match shred_datagram s with
  | None => false
  | Some d => bool_decide (d ∈ omap (fun e => match e with Ok (d, _) => Some d | Err _ => None end) events)
  end.

Lemma delivered_event {Peer} (events : list (result (bytes * Peer) string)) s :
  net_ok (NetShred s) -> delivered events s = true -> s ∈ omap event_shred events.
Proof.
  intros Hs. unfold delivered, shred_datagram.
  destruct (net_encode encode_error (NetShred s)) as [d|] eqn:E; [|done]. intros Hd%bool_decide_eq_true.
  apply list_elem_of_omap in Hd as (e & He & Hd). destruct e as [[d' peer]|]; simplify_eq.
  apply list_elem_of_omap. exists (Ok (d, peer)). split; [done|]. unfold event_shred.
  destruct (net_decode_encode encode_error decode_error _ _ Hs E) as [Hdec Hl]. by rewrite take_ge, Hdec.
Qed.

Lemma push_all_channel keys shreds p :
  tp_channel (foldl (fun p key => if true then push_channel p key shreds
                                  else set_prop_stats p (count_error (tp_stats p))) p keys) =
  tp_channel p ++ ((fun key => (key, shreds)) <$> keys).
Proof.
  revert p. induction keys as [|k keys IH]; intros p; [by rewrite app_nil_r|].
  cbn [foldl]. rewrite IH, fmap_cons. cbn [push_channel tp_channel]. by rewrite <- app_assoc.
Qed.

(** Propagating a block, and what any validator makes of the shreds. *)
Lemma propagation_delivers {Peer} p block slot ns :
  (0 < data_shards (tp_coder p))%nat -> (total_shards (tp_coder p) <= 256)%nat ->
  bytes_ok block -> is_u64 (Z.of_nat (length block)) -> is_u64 slot ->
  neighbors (tp_neighborhood p) (tp_validator_id p) = Returns ns ->
  exists encoded p', propagate_block p block slot true = Returns p' /\
    encode (tp_coder p) block slot = Returns encoded /\ length encoded = total_shards (tp_coder p) /\
    let shreds := sign_all (tp_signer p) encoded in
    (forall key, tp_signer p = Some key ->
       Forall (fun s => sh_signer s = verifying_key key /\ shred_verify_signature s = true) shreds) /\
    tp_channel p' = tp_channel p ++ ((fun n => (tn_validator n, shreds)) <$> ns) /\
    forall q clock (events : list (result (bytes * Peer) string)),
      tp_coder q = tp_coder p -> tp_received q !! slot = None ->
      (forall s, s ∈ omap event_shred events -> sh_slot s = slot -> shred_acceptable s = true -> s ∈ shreds) ->
      (data_shards (tp_coder p) <= length (filter (fun s => delivered events s = true) shreds))%nat ->
      exists q', try_reassemble (tpu_receive (length events) clock q events) slot = Returns (q', Some block).
Proof.
  intros Hk Hkm Hb Hu Hs Hns. destruct (generator_spec _ _ Hkm) as (g & _ & Hg & _).
  destruct (encode_carries (tp_coder p) block slot g) as (encoded & He & Hlen & _); [done..|].
  exists encoded. eexists. cbv zeta. split_and!.
  - unfold propagate_block. by rewrite He, Hns.
  - done.
  - done.
  - intros key. apply sign_all_signed.
  - cbn [set_prop_stats tp_channel]. rewrite push_all_channel. by rewrite <- list_fmap_compose.
  - intros q clock events Hc Hq Hgen Hcount.
    destruct (tpu_receive_all (length events) clock q events) as (arrivals & -> & Ha); [done|].
    eapply (delivery _ _ _ _ (tp_signer p)); [exact Hk|done|done|done|exact He|done|done|by rewrite Ha|].
    etransitivity; [exact Hcount|]. apply submseteq_length, sublist_submseteq.
    rewrite Ha. apply filter_weaken. intros s Hin Hd. eapply delivered_event; [|done].
    by apply (encoded_wire_ok (tp_coder p) block slot encoded (tp_signer p)).
Qed.

(** C8. A block reaches the other validators: while the channel is open,
    propagating it queues its [k + m] shreds, the same for every neighbor and
    signed by the propagator's key when it has one.  A propagator with the same
    [k] and [m] that holds no shred of the slot yet, and whose TPU socket
    delivers the datagrams of at least [k] of those shreds (in any order,
    repeated, between I/O errors, junk, gossip and shreds of other slots) but
    no other acceptable shred of that slot, reassembles exactly the block. *)
Theorem block_delivery {Peer} p block slot ns :
  (0 < data_shards (tp_coder p))%nat -> (total_shards (tp_coder p) <= 256)%nat ->
  bytes_ok block -> is_u64 (Z.of_nat (length block)) -> is_u64 slot ->
  neighbors (tp_neighborhood p) (tp_validator_id p) = Returns ns ->
  exists encoded p', propagate_block p block slot true = Returns p' /\
    encode (tp_coder p) block slot = Returns encoded /\ length encoded = total_shards (tp_coder p) /\
    let shreds := sign_all (tp_signer p) encoded in
    (forall key, tp_signer p = Some key ->
       Forall (fun s => sh_signer s = verifying_key key /\ shred_verify_signature s = true) shreds) /\
    tp_channel p' = tp_channel p ++ ((fun n => (tn_validator n, shreds)) <$> ns) /\
    forall q clock (events : list (result (bytes * Peer) string)),
      tp_coder q = tp_coder p -> tp_received q !! slot = None ->
      (forall s, s ∈ omap event_shred events -> sh_slot s = slot -> shred_acceptable s = true -> s ∈ shreds) ->
      (data_shards (tp_coder p) <= length (filter (fun s => delivered events s = true) shreds))%nat ->
      exists q', try_reassemble (tpu_receive (length events) clock q events) slot = Returns (q', Some block).
Proof. apply propagation_delivers. Qed.

(** A contact advertised with the wildcard address is never gossiped to. *)
Lemma wildcard_contact_unreachable identity contacts msg c :
  sa_ip (ci_gossip c) = [0; 0; 0; 0] ->
  forall b a, (b, a) ∈ gossip_fan_out identity contacts msg -> a <> ci_gossip c.
Proof.
  intros Hc b a. unfold gossip_fan_out. destruct (net_encode _ _); [|by intros ?%not_elem_of_nil].
  intros (x & [= -> ->] & [[_ Hx] _]%list_elem_of_filter)%list_elem_of_fmap E.
  unfold is_unspecified in Hx. rewrite E, Hc in Hx. done.
Qed.
End Network.

(** ** Startup: peers and identity *)

(** [std::net::IpAddr] *)
Inductive IpAddr := IpV4 (octets : bytes) | IpV6.

(** Why [parse_peer] refuses a spec. *)
Inductive PeerError := PeerNoAt | PeerBadHex | PeerShortKey | PeerBadAddress | PeerNotV4.

(** [str::split_once('@')] *)
Fixpoint split_at (s : string) : option (string * string) :=
  match s with
  | EmptyString => None
  | String c s =>
      if Ascii.eqb c "@" then Some (EmptyString, s)
      else '(a, b) ← split_at s; Some (String c a, b)
  end.

Section Startup.
(** [hex::decode], [str::parse::<SocketAddr>] and the identity file: [None]
    when there is no such file, [Some None] when it is not a JSON byte array. *)
Context (hex_decode : string -> option bytes) (parse_addr : string -> option (IpAddr * Z))
        (identity_file : string -> option (option bytes)).

(** [parse_peer] *)
Definition parse_peer (spec : string) : result ContactInfo PeerError :=
  match split_at spec with
  | None => Err PeerNoAt
  | Some (key_hex, addr_str) =>
      match hex_decode key_hex with
      | None => Err PeerBadHex
      | Some key_bytes =>
          match first32 key_bytes with
          | None => Err PeerShortKey
          | Some pubkey =>
              match parse_addr addr_str with
              | None => Err PeerBadAddress
              | Some (IpV6, _) => Err PeerNotV4
              | Some (IpV4 ip, port) =>
                  Ok (mkContact pubkey (mkAddr ip port) (mkAddr ip port) (mkAddr ip 0) (mkAddr ip port)
                        0 "peer" 0)
              end
          end
      end
  end.

(** [load_identity]: the seed of the signing key, [random] when the spec is empty. *)
Definition load_identity (spec : string) (random : bytes) : option bytes :=
  if String.eqb spec "" then Some random
  else match identity_file spec with
       | Some contents => b ← contents; first32 b
       | None => b ← hex_decode spec; first32 b
       end.

(** An accepted peer has a 32-byte key and the address of its spec. *)
Lemma parse_peer_ok spec c : (forall s b, hex_decode s = Some b -> bytes_ok b) ->
  parse_peer spec = Ok c -> arr32 (ci_pubkey c) /\
  exists key addr b ip port, split_at spec = Some (key, addr) /\ hex_decode key = Some b /\
    parse_addr addr = Some (IpV4 ip, port) /\ ci_pubkey c = take 32 b /\ ci_gossip c = mkAddr ip port.
Proof.
  intros Hhex. unfold parse_peer. destruct (split_at spec) as [[key addr]|]; [|done].
  destruct (hex_decode key) as [b|] eqn:Hb; [|done]. unfold first32. destruct (Nat.leb_spec 32 (length b)); [|done].
  destruct (parse_addr addr) as [[[ip|] port]|] eqn:Ha; [|done..]. intros [= <-]. cbn [ci_pubkey ci_gossip]. split.
  - split; [rewrite length_take; lia|]. by eapply Forall_take, Hhex.
  - by exists key, addr, b, ip, port.
Qed.

(** Longer keys and seeds are not refused: what follows byte 32 is ignored. *)
Lemma overlong_seed_truncated spec b random : spec <> "" -> identity_file spec = None ->
  hex_decode spec = Some b -> (32 < length b)%nat -> load_identity spec random = Some (take 32 b).
Proof.
  intros Hs Hf Hb Hl. unfold load_identity. rewrite (proj2 (String.eqb_neq _ _) Hs), Hf, Hb. cbn.
  unfold first32. by rewrite (proj2 (Nat.leb_le _ _)) by lia.
Qed.
End Startup.

(** ** The slot clock task *)

Section Clock.
Context `{Sha : Sha256} `{Ed : Ed25519} `{Ser : !Serde Account account_ok} `{Json : !Serde BlockRecord record_ok}.

(** One round of the PoH loop of [main]: tick, and every 64 slots prune the
    shreds of slots older than the retention. *)
Definition clock_round (s : ValidatorState) (p : Propagator) : ValidatorState * Propagator :=
  let s := process_tick s in
  let slot := v_current_slot s in
  (s, if slot mod 64 =? 0 then (prune_slots_below p (saturating_sub slot SHRED_RETENTION_SLOTS)).1 else p).

(** After a round that reaches a multiple of 64 no slot older than the
    retention is buffered, and nothing within it was dropped. *)
Lemma clock_retention s p : let '(s', p') := clock_round s p in
  v_current_slot s' mod 64 = 0 ->
  forall slot, tp_received p' !! slot =
    if decide (saturating_sub (v_current_slot s') SHRED_RETENTION_SLOTS <= slot) then tp_received p !! slot else None.
Proof.
  unfold clock_round. intros Hm slot. rewrite (proj2 (Z.eqb_eq _ _) Hm), prune_received.
  case_decide as Hs.
  - destruct (tp_received p !! slot) as [rs|] eqn:E.
    + apply map_lookup_filter_Some. split; [done|]. simpl. lia.
    + apply map_lookup_filter_None. by left.
  - apply map_lookup_filter_None. right. intros rs _. simpl. lia.
Qed.
End Clock.
