(* ===== verification/Base58.v ===== *)
(** * Base58 signatures

    [bs58_encode] of src/crates/rpc/src/handler.rs: the text under which the
    RPC layer files a transaction's status. *)

From S2P Require Import Prelude.
From stdpp Require Import list.
Open Scope Z_scope.

(** [ALPHABET] *)
Definition ALPHABET : list ascii :=
  String.list_ascii_of_string "123456789ABCDEFGHJKLMNPQRSTUVWXYZabcdefghijkmnopqrstuvwxyz".

(** [while carry > 0 { digits.push(carry % 58); carry /= 58 }]; a carry of
    [n] needs at most [n] rounds. *)
Fixpoint push_carry (fuel : nat) (carry : Z) : list Z :=
  match fuel with
  | O => []
  | S fuel => if 0 <? carry then carry mod 58 :: push_carry fuel (carry / 58) else []
  end.

(** One byte: the loop over the digits, then the rest of the carry. *)
Fixpoint add_byte (digits : list Z) (carry : Z) : list Z :=
  match digits with
  | [] => push_carry (Z.to_nat carry) carry
  | digit :: digits =>
      let carry := carry + 256 * digit in
      carry mod 58 :: add_byte digits (carry / 58)
  end.

(** [bytes.iter().take_while(|b| **b == 0).count()] *)
Fixpoint leading_zeros (l : bytes) : nat :=
  match l with
  | b :: l => if b =? 0 then S (leading_zeros l) else O
  | [] => O
  end.

(** The digits of [bytes[zeros..]], least significant first. *)
Definition base58_digits (l : bytes) : list Z := foldl add_byte [] l.

(** [bs58_encode], character by character. *)
Definition bs58_chars (l : bytes) : list ascii :=
  replicate (leading_zeros l) "1"%char ++
  ((fun d => nth (Z.to_nat d) ALPHABET "0"%char) <$> reverse (base58_digits (drop (leading_zeros l) l))).

Definition bs58_encode (l : bytes) : string :=
  if (length l =? 0)%nat then "" else String.string_of_list_ascii (bs58_chars l).

Example bs58_hello : bs58_encode (str_bytes "hello world") = "StV1DL6CwTryKyV".
Proof. vm_compute. reflexivity. Qed.
Example bs58_zeros : bs58_encode [0; 0] = "11".
Proof. vm_compute. reflexivity. Qed.

(** ** Positional notation *)

(** The value of digits in base [b], least significant first. *)
Fixpoint le_value (b : Z) (l : list Z) : Z :=
  match l with
  | [] => 0
  | d :: l => d + b * le_value b l
  end.

(** Digits below the base, the most significant not zero. *)
Definition canonical (b : Z) (l : list Z) : Prop := Forall (fun d => 0 <= d < b) l /\ last l <> Some 0.

Lemma le_value_nonneg b l : 1 < b -> Forall (fun d => 0 <= d < b) l -> 0 <= le_value b l.
Proof. intros Hb. induction 1; simpl; nia. Qed.

Lemma canonical_cons b d l : canonical b (d :: l) -> 0 <= d < b /\ canonical b l /\ (l = [] -> d <> 0).
Proof.
  intros [Hf Hl]. apply Forall_cons in Hf as [Hd Hf]. split; [done|].
  destruct l as [|e l]; (split; [split; [done|]|]); [done|by intros _ ->|exact Hl|done].
Qed.

Lemma canonical_zero b l : 1 < b -> canonical b l -> le_value b l = 0 -> l = [].
Proof.
  intros Hb. induction l as [|d l IH]; [done|]. intros (Hd & Hc & Hz)%canonical_cons Hv. simpl in Hv.
  pose proof (le_value_nonneg b l Hb (proj1 Hc)). assert (le_value b l = 0) by nia.
  exfalso. apply Hz; [by apply IH|nia].
Qed.

Lemma le_value_inj b l1 l2 : 1 < b -> canonical b l1 -> canonical b l2 ->
  le_value b l1 = le_value b l2 -> l1 = l2.
Proof.
  intros Hb. revert l2. induction l1 as [|d l1 IH]; intros l2 H1 H2 E.
  - symmetry. by apply (canonical_zero b).
  - destruct l2 as [|e l2]; [by apply (canonical_zero b)|].
    apply canonical_cons in H1 as (Hd & H1 & _). apply canonical_cons in H2 as (He & H2 & _). simpl in E.
    assert (d = e /\ le_value b l1 = le_value b l2) as [-> Hv].
    { destruct (Z.div_mod_unique b (le_value b l1) (le_value b l2) d e); [by left|by left|lia|done]. }
    f_equal. by apply IH.
Qed.

(** ** The encoder computes the base 58 digits *)

Lemma push_carry_spec fuel c : 0 <= c -> (Z.to_nat c <= fuel)%nat ->
  le_value 58 (push_carry fuel c) = c /\ canonical 58 (push_carry fuel c).
Proof.
  revert c. induction fuel as [|fuel IH]; intros c Hc Hf; cbn [push_carry].
  - split; [simpl; lia|]. split; [constructor|done].
  - destruct (Z.ltb_spec 0 c) as [Hpos|Hz]; [|split; [simpl; lia|split; [constructor|done]]].
    pose proof (Z.div_mod c 58). pose proof (Z.mod_pos_bound c 58).
    assert (Hdec : 0 <= c / 58 < c) by (split; [apply Z.div_pos; lia|apply Z.div_lt; lia]).
    destruct (IH (c / 58)) as [Hv [Hf' Hl]]; [lia|lia|]. cbn [le_value]. rewrite Hv.
    split; [lia|]. split; [constructor; [lia|done]|].
    destruct (push_carry fuel (c / 58)) as [|d ds] eqn:E; [|exact Hl].
    simpl in Hv |- *. intros [= Hm]. lia.
Qed.

Lemma add_byte_spec digits c : canonical 58 digits -> 0 <= c ->
  le_value 58 (add_byte digits c) = c + 256 * le_value 58 digits /\
  canonical 58 (add_byte digits c).
Proof.
  revert c. induction digits as [|d ds IH]; intros c Hcan Hc; cbn [add_byte le_value].
  - destruct (push_carry_spec (Z.to_nat c) c) as [-> ?]; [done..|]. split; [lia|done].
  - apply canonical_cons in Hcan as (Hd & Hcan & Hz).
    set (n := c + 256 * d). pose proof (Z.div_mod n 58). pose proof (Z.mod_pos_bound n 58).
    assert (Hq : 0 <= n / 58) by (apply Z.div_pos; lia).
    destruct (IH (n / 58) Hcan Hq) as [Hv [Hf Hl]]. split; [rewrite Hv; lia|].
    split; [constructor; [lia|done]|]. destruct (add_byte ds (n / 58)) as [|e es] eqn:E; [|exact Hl].
    simpl in Hv |- *. intros [= Hm]. pose proof (le_value_nonneg 58 ds ltac:(lia) (proj1 Hcan)).
    assert (ds = []) as -> by (apply (canonical_zero 58); [lia|done|lia]).
    specialize (Hz eq_refl). lia.
Qed.

Lemma base58_digits_spec l : bytes_ok l ->
  le_value 58 (base58_digits l) = le_value 256 (reverse l) /\ canonical 58 (base58_digits l).
Proof.
  unfold base58_digits. induction l as [|b l IH] using rev_ind.
  - split; [done|]. split; [constructor|done].
  - intros [Hl Hb]%Forall_app. apply Forall_cons in Hb as [Hb _]. rewrite foldl_app, reverse_app. cbn [foldl].
    destruct (IH Hl) as [Hv Hc]. destruct (add_byte_spec (foldl add_byte [] l) b) as [Hv' Hc']; [done|apply Hb|].
    split; [|done]. rewrite Hv', Hv. done.
Qed.

(** ** Distinct byte strings have distinct encodings *)

Lemma leading_zeros_split l : l = replicate (leading_zeros l) 0 ++ drop (leading_zeros l) l /\
  head (drop (leading_zeros l) l) <> Some 0.
Proof.
  induction l as [|b l IH]; [done|]. cbn [leading_zeros]. destruct (Z.eqb_spec b 0) as [->|Hb].
  - destruct IH as [IH1 IH2]. split; [|exact IH2]. cbn [replicate drop app]. by f_equal.
  - split; [done|]. by intros [= ->].
Qed.

Lemma rest_canonical l : bytes_ok l -> canonical 256 (reverse (drop (leading_zeros l) l)).
Proof.
  intros Hl. split.
  - apply Forall_reverse, Forall_drop, Hl.
  - rewrite last_reverse. apply leading_zeros_split.
Qed.

Lemma alphabet_inj d e : 0 <= d < 58 -> 0 <= e < 58 ->
  nth (Z.to_nat d) ALPHABET "0"%char = nth (Z.to_nat e) ALPHABET "0"%char -> d = e.
Proof.
  intros Hd He E. assert (Hnd : NoDup ALPHABET) by (apply (bool_decide_unpack _); vm_compute; exact I).
  assert (Hlk : forall x, 0 <= x < 58 -> ALPHABET !! Z.to_nat x = Some (nth (Z.to_nat x) ALPHABET "0"%char)).
  { intros x Hx. rewrite nth_lookup. destruct (lookup_lt_is_Some_2 ALPHABET (Z.to_nat x)) as [c ->]; [|done].
    change (length ALPHABET) with 58%nat. lia. }
  pose proof (Hlk d Hd) as H1. pose proof (Hlk e He) as H2. rewrite <- E in H2.
  pose proof (NoDup_lookup _ _ _ _ Hnd H1 H2). lia.
Qed.

(** The text splits into the leading ones and a part that starts otherwise. *)
Lemma ones_split (n1 n2 : nat) (l1 l2 : list ascii) :
  head l1 <> Some "1"%char -> head l2 <> Some "1"%char ->
  replicate n1 "1"%char ++ l1 = replicate n2 "1"%char ++ l2 -> n1 = n2 /\ l1 = l2.
Proof.
  revert n2. induction n1 as [|n1 IH]; intros [|n2] H1 H2 E; cbn [replicate app] in E.
  - done.
  - subst l1. by destruct H1.
  - subst l2. by destruct H2.
  - injection E as E. destruct (IH n2) as [-> ->]; done.
Qed.

Lemma digits_text l : bytes_ok l ->
  head ((fun d => nth (Z.to_nat d) ALPHABET "0"%char) <$> reverse (base58_digits (drop (leading_zeros l) l)))
    <> Some "1"%char.
Proof.
  intros Hl. destruct (base58_digits_spec (drop (leading_zeros l) l)) as [_ [Hf Hlast]]; [by apply Forall_drop|].
  rewrite <- head_reverse in Hlast. apply Forall_reverse in Hf.
  destruct (reverse _) as [|d ds]; [done|]. apply Forall_cons in Hf as [Hd _]. rewrite fmap_cons. cbn [head] in *.
  intros [= E]. apply Hlast. f_equal. apply (alphabet_inj d 0); [done|lia|exact E].
Qed.

Lemma bs58_chars_inj l1 l2 : bytes_ok l1 -> bytes_ok l2 -> bs58_chars l1 = bs58_chars l2 -> l1 = l2.
Proof.
  intros H1 H2 E. apply ones_split in E as [Ez Ed]; [|by apply digits_text..].
  assert (Hd : forall l, bytes_ok l -> bytes_ok (drop (leading_zeros l) l)) by (intros; by apply Forall_drop).
  destruct (base58_digits_spec _ (Hd _ H1)) as [V1 [F1 _]], (base58_digits_spec _ (Hd _ H2)) as [V2 [F2 _]].
  apply (fmap_inj_on (fun d => 0 <= d < 58)) in Ed; [|apply alphabet_inj|by apply Forall_reverse..].
  apply (f_equal reverse) in Ed. rewrite !reverse_involutive in Ed.
  assert (Er : reverse (drop (leading_zeros l1) l1) = reverse (drop (leading_zeros l2) l2)).
  { apply (le_value_inj 256); [lia|by apply rest_canonical..|]. congruence. }
  apply (f_equal reverse) in Er. rewrite !reverse_involutive in Er.
  rewrite (proj1 (leading_zeros_split l1)), (proj1 (leading_zeros_split l2)), Er. by rewrite Ez.
Qed.

Lemma bs58_encode_injective l1 l2 : bytes_ok l1 -> bytes_ok l2 -> bs58_encode l1 = bs58_encode l2 -> l1 = l2.
Proof.
  intros H1 H2 E. apply bs58_chars_inj; [done..|].
  assert (Hchars : forall l, String.list_ascii_of_string (bs58_encode l) = bs58_chars l).
  { intros l. unfold bs58_encode. destruct l; [done|]. apply String.list_ascii_of_string_of_list_ascii. }
  by rewrite <- !Hchars, E.
Qed.
