(* ===== verification/Rpc.v ===== *)
(** * The JSON-RPC handler

    src/crates/rpc/src/handler.rs and the body scan of server.rs: requests and
    responses, every method of [RpcHandler::handle], the status table.  The
    accounts database is any [AccountsStore]; serde_json's conversion of a
    value into a transaction, [hex::decode] and the clock are parameters. *)

From S2P Require Import Prelude Crypto Account Store Transaction Executor Mempool Base58.
From stdpp Require Import list.
Open Scope Z_scope.

(** [serde_json::Value], with the numbers the handler produces. *)
Inductive Value :=
| VNull
| VBool (b : bool)
| VNum (n : Z)
| VStr (s : string)
| VArr (l : list Value)
| VObj (fields : list (string * Value)).

(** [value.as_array()], [value.as_str()] *)
Definition as_array (v : Value) : option (list Value) := match v with VArr l => Some l | _ => None end.
Definition as_str (v : Value) : option string := match v with VStr s => Some s | _ => None end.

(** [value[key]]: [Null] when there is no such field. *)
Definition value_get (v : Value) (key : string) : Value :=
  match v with
  | VObj fields => match list_find (fun f => f.1 = key) fields with Some (_, f) => f.2 | None => VNull end
  | _ => VNull
  end.

(** [struct RpcRequest], [RpcError], [RpcResponse] *)
Record RpcRequest := mkRequest {
  rq_jsonrpc : string; rq_method : string; rq_params : option Value; rq_id : option Value
}.
Record RpcError := mkRpcError { re_code : Z; re_message : string; re_data : option Value }.
Record RpcResponse := mkResponse {
  rp_jsonrpc : string; rp_result : option Value; rp_error : option RpcError; rp_id : option Value
}.

(** The error constructors. *)
Definition method_not_found (method : string) : RpcError :=
  mkRpcError (-32601) ("Method not found: " +:+ method) None.
Definition invalid_params (msg : string) : RpcError := mkRpcError (-32602) msg None.
Definition internal_error (msg : string) : RpcError := mkRpcError (-32603) msg None.

(** [RpcResponse::success], [RpcResponse::error] *)
Definition rpc_success (id : option Value) (result : Value) : RpcResponse :=
  mkResponse "2.0" (Some result) None id.
Definition rpc_error (id : option Value) (error : RpcError) : RpcResponse :=
  mkResponse "2.0" None (Some error) id.

(** [find_json_body] of server.rs: past the first blank line, or the whole of a
    text that starts with a brace. *)
Definition CRLF2 : bytes := [13; 10; 13; 10].
Fixpoint find_blank_line (data : bytes) : option nat :=
  if (length data <? 4)%nat then None
  else if bool_decide (take 4 data = CRLF2) then Some 4%nat
  else match data with [] => None | _ :: data => S <$> find_blank_line data end.
Definition find_json_body (data : bytes) : option nat :=
  match find_blank_line data with
  | Some n => Some n
  | None => match data with 123 :: _ => Some 0%nat | _ => None end
  end.

Section Rpc.
Context {DB : Type} `{Store : AccountsStore DB} `{Sha : Sha256} `{Ed : Ed25519}.
(** [accounts.account_count()], [serde_json::from_value::<Transaction>] (a
    transaction or the error text), [hex::decode]. *)
Context (db_account_count : DB -> Z) (from_value : Value -> result Transaction string)
        (hex_decode : string -> option bytes).

(** [struct RpcHandler]; the executor holds the accounts database. *)
Record RpcHandler := mkHandler {
  h_executor : Executor DB;
  h_slot : Z;
  h_identity : bytes;
  h_mempool : option Mempool;
  h_transactions : gmap string Value
}.

(** [RpcHandler::new], [with_mempool], [build] *)
Definition handler_build (accounts : DB) (identity : bytes) (mempool : option Mempool) : RpcHandler :=
  mkHandler (executor_new accounts) 0 identity mempool ∅.
Definition handler_new (accounts : DB) (identity : bytes) : RpcHandler := handler_build accounts identity None.
Definition handler_with_mempool (accounts : DB) (identity : bytes) (mempool : Mempool) : RpcHandler :=
  handler_build accounts identity (Some mempool).

(** [RpcHandler::update_slot] *)
Definition update_slot (h : RpcHandler) (slot : Z) : RpcHandler :=
  mkHandler (h_executor h) slot (h_identity h) (h_mempool h) (h_transactions h).

(** The first parameter. *)
Definition first_param (req : RpcRequest) : option Value :=
  params ← rq_params req; l ← as_array params; head l.

(** The cluster queries. *)
Definition get_health (h : RpcHandler) (req : RpcRequest) : RpcResponse := rpc_success (rq_id req) (VStr "ok").
Definition get_version (h : RpcHandler) (req : RpcRequest) : RpcResponse :=
  rpc_success (rq_id req)
    (VObj [("solana-core", VStr "0.1.0-custom"); ("feature-set", VStr "custom-validator")]).
Definition get_identity (h : RpcHandler) (req : RpcRequest) : RpcResponse :=
  rpc_success (rq_id req) (VObj [("identity", VStr (hex_encode (h_identity h)))]).
Definition get_slot (h : RpcHandler) (req : RpcRequest) : RpcResponse :=
  rpc_success (rq_id req) (VNum (h_slot h)).
Definition get_cluster_nodes (h : RpcHandler) (req : RpcRequest) : RpcResponse :=
  rpc_success (rq_id req)
    (VArr [VObj [("pubkey", VStr (hex_encode (h_identity h))); ("gossip", VStr "127.0.0.1:8000");
                 ("tpu", VStr "127.0.0.1:8001"); ("rpc", VStr "127.0.0.1:8002");
                 ("version", VStr "0.1.0-custom"); ("featureSet", VNum 0); ("shredVersion", VNum 0)]]).
Definition get_block_height (h : RpcHandler) (req : RpcRequest) : RpcResponse :=
  rpc_success (rq_id req) (VNum (h_slot h)).
Definition get_epoch_info (h : RpcHandler) (req : RpcRequest) : RpcResponse :=
  let slot := h_slot h in
  rpc_success (rq_id req)
    (VObj [("slot", VNum slot); ("epoch", VNum (slot / 432000)); ("slotIndex", VNum (slot mod 432000));
           ("slotsInEpoch", VNum 432000); ("absoluteSlot", VNum slot); ("blockHeight", VNum slot);
           ("transactionCount", VNum 0)]).

(** The public key parameter of the account queries: the key, or the error. *)
Definition pubkey_param (req : RpcRequest) : result bytes RpcError :=
  match first_param req ≫= as_str with
  | None => Err (invalid_params "Missing pubkey parameter")
  | Some s =>
      match hex_decode s with
      | Some b => if (length b =? 32)%nat then Ok b else Err (invalid_params "Invalid pubkey")
      | None => Err (invalid_params "Invalid pubkey")
      end
  end.

(** [get_account_info], [get_balance], [get_account_count] *)
Definition get_account_info (h : RpcHandler) (req : RpcRequest) : RpcResponse :=
  match pubkey_param req with
  | Err e => rpc_error (rq_id req) e
  | Ok key =>
      match db_load (ex_db (h_executor h)) key with
      | Some account =>
          rpc_success (rq_id req)
            (VObj [("lamports", VNum (lamports account)); ("owner", VStr (hex_encode (owner account)));
                   ("executable", VBool (executable account)); ("rentEpoch", VNum (rent_epoch account))])
      | None => rpc_success (rq_id req) VNull
      end
  end.
Definition get_balance (h : RpcHandler) (req : RpcRequest) : RpcResponse :=
  match pubkey_param req with
  | Err e => rpc_error (rq_id req) e
  | Ok key =>
      let balance := from_option lamports 0 (db_load (ex_db (h_executor h)) key) in
      rpc_success (rq_id req) (VObj [("lamports", VNum balance)])
  end.
Definition get_account_count (h : RpcHandler) (req : RpcRequest) : RpcResponse :=
  rpc_success (rq_id req) (VNum (db_account_count (ex_db (h_executor h)))).

(** The status recorded for a parked and for an executed transaction. *)
Definition pending_status (tx : Transaction) : Value :=
  VObj [("slot", VNull); ("status", VStr "pending"); ("err", VNull); ("computeUnitsConsumed", VNum 0);
        ("fee", VNum (tx_fee tx)); ("logs", VArr [])].
Definition result_status (slot : Z) (r : TransactionResult) : Value :=
  VObj [("slot", VNum slot); ("status", VStr (if tr_success r then "finalized" else "failed"));
        ("err", match tr_error r with Some e => VStr (TransactionError.display e) | None => VNull end);
        ("computeUnitsConsumed", VNum (tr_compute_units_consumed r)); ("fee", VNum (tr_fee_paid r));
        ("logs", VArr (VStr <$> tr_logs r))].

(** [send_transaction] at time [now] *)
Definition send_transaction (h : RpcHandler) (req : RpcRequest) (now : Z) : RpcHandler * RpcResponse :=
  match first_param req with
  | None => (h, rpc_error (rq_id req) (invalid_params "Missing transaction parameter"))
  | Some v =>
      match from_value v with
      | Err e => (h, rpc_error (rq_id req) (invalid_params ("Invalid transaction: " +:+ e)))
      | Ok tx =>
          let signature := bs58_encode (tx_signature tx) in
          match h_mempool h with
          | Some mempool =>
              match Mempool.insert mempool tx now with
              | (mempool, Ok _) =>
                  (mkHandler (h_executor h) (h_slot h) (h_identity h) (Some mempool)
                     (<[signature := pending_status tx]> (h_transactions h)),
                   rpc_success (rq_id req) (VStr signature))
              | (mempool, Err e) =>
                  (mkHandler (h_executor h) (h_slot h) (h_identity h) (Some mempool) (h_transactions h),
                   rpc_error (rq_id req) (invalid_params (mempool_error_display e)))
              end
          | None =>
              let '(executor, r) := execute_transaction (h_executor h) tx in
              (mkHandler executor (h_slot h) (h_identity h) None
                 (<[signature := result_status (h_slot h) r]> (h_transactions h)),
               rpc_success (rq_id req) (VStr signature))
          end
      end
  end.

(** [get_transaction] *)
Definition get_transaction (h : RpcHandler) (req : RpcRequest) : RpcResponse :=
  match first_param req ≫= as_str with
  | None => rpc_error (rq_id req) (invalid_params "Missing signature parameter")
  | Some sig =>
      match h_transactions h !! sig with
      | Some status =>
          rpc_success (rq_id req)
            (VObj [("slot", value_get status "slot"); ("transaction", VObj [("signature", VStr sig)]);
                   ("meta", status)])
      | None => rpc_success (rq_id req) VNull
      end
  end.

(** The methods that only read. *)
Definition query (h : RpcHandler) (req : RpcRequest) : option RpcResponse :=
  if String.eqb (rq_method req) "getHealth" then Some (get_health h req)
  else if String.eqb (rq_method req) "getVersion" then Some (get_version h req)
  else if String.eqb (rq_method req) "getIdentity" then Some (get_identity h req)
  else if String.eqb (rq_method req) "getSlot" then Some (get_slot h req)
  else if String.eqb (rq_method req) "getClusterNodes" then Some (get_cluster_nodes h req)
  else if String.eqb (rq_method req) "getAccountInfo" then Some (get_account_info h req)
  else if String.eqb (rq_method req) "getBalance" then Some (get_balance h req)
  else if String.eqb (rq_method req) "getAccountCount" then Some (get_account_count h req)
  else if String.eqb (rq_method req) "getTransaction" then Some (get_transaction h req)
  else if String.eqb (rq_method req) "getBlockHeight" then Some (get_block_height h req)
  else if String.eqb (rq_method req) "getEpochInfo" then Some (get_epoch_info h req)
  else None.

(** [RpcHandler::handle] at time [now] *)
Definition handle (h : RpcHandler) (req : RpcRequest) (now : Z) : RpcHandler * RpcResponse :=
  if String.eqb (rq_method req) "sendTransaction" then send_transaction h req now
  else match query h req with
       | Some response => (h, response)
       | None => (h, rpc_error (rq_id req) (method_not_found (rq_method req)))
       end.
End Rpc.
Arguments RpcHandler DB : clear implicits.

(** ** Properties *)

Section RpcProperties.
Context {DB : Type} `{Store : AccountsStore DB} `{Sha : Sha256} `{Ed : Ed25519}.
Context (db_account_count : DB -> Z) (from_value : Value -> result Transaction string)
        (hex_decode : string -> option bytes).

Abbreviation handle := (handle db_account_count from_value hex_decode).

(** Every response is well formed: version 2.0, the id of the request, and
    exactly one of result and error. *)
Definition well_formed (req : RpcRequest) (r : RpcResponse) : Prop :=
  rp_jsonrpc r = "2.0" /\ rp_id r = rq_id req /\ (is_Some (rp_result r) <-> rp_error r = None).

Lemma success_wf req v : well_formed req (rpc_success (rq_id req) v).
Proof. split_and!; [done|done|]. split; [done|eauto]. Qed.
Lemma error_wf req e : well_formed req (rpc_error (rq_id req) e).
Proof. split_and!; [done|done|]. simpl. split; [by intros []|done]. Qed.

#[local] Hint Resolve success_wf error_wf : core.

Lemma query_wf h req r : query db_account_count hex_decode h req = Some r -> well_formed req r.
Proof.
  unfold query, get_account_info, get_balance, get_transaction.
  repeat case_match; intros; simplify_eq; unfold get_health, get_version, get_identity, get_slot,
    get_cluster_nodes, get_block_height, get_epoch_info, get_account_count; auto.
Qed.

Lemma send_transaction_wf h req now : well_formed req (send_transaction from_value h req now).2.
Proof. unfold send_transaction. repeat case_match; simplify_eq; simpl; auto. Qed.

Lemma handle_wf h req now : well_formed req (handle h req now).2.
Proof.
  unfold Rpc.handle. case_match; [apply send_transaction_wf|].
  case_match eqn:Hq; [by apply query_wf in Hq|]. simpl. auto.
Qed.

(** What one request may change. *)
Lemma handle_state h req now : let h' := (handle h req now).1 in
  h' = h \/
  (rq_method req = "sendTransaction" /\ h_slot h' = h_slot h /\ h_identity h' = h_identity h /\
   exists v tx, first_param req = Some v /\ from_value v = Ok tx /\
     match h_mempool h with
     | Some p => h_mempool h' = Some (Mempool.insert p tx now).1 /\ h_executor h' = h_executor h /\
         h_transactions h' = match (Mempool.insert p tx now).2 with
                             | Ok _ => <[bs58_encode (tx_signature tx) := pending_status tx]> (h_transactions h)
                             | Err _ => h_transactions h
                             end
     | None => h_mempool h' = None /\ h_executor h' = (execute_transaction (h_executor h) tx).1 /\
         h_transactions h' = <[bs58_encode (tx_signature tx) :=
             result_status (h_slot h) (execute_transaction (h_executor h) tx).2]> (h_transactions h)
     end).
Proof.
  cbv zeta. unfold Rpc.handle. destruct (String.eqb_spec (rq_method req) "sendTransaction") as [Hm|Hm].
  - unfold send_transaction. destruct (first_param req) as [v|] eqn:Hv; [|by left].
    destruct (from_value v) as [tx|e] eqn:Htx; [|by left]. right. destruct (h_mempool h) as [p|].
    + destruct (Mempool.insert p tx now) as [p' [hash|e]] eqn:Hi; simpl; (split_and!; [done..|]); exists v, tx; by rewrite Hi.
    + destruct (execute_transaction (h_executor h) tx) as [ex r] eqn:Hx. simpl. split_and!; [done..|].
      exists v, tx. by rewrite Hx.
  - left. by case_match.
Qed.

(** C37. Every request is answered with exactly one of a result and an error under
    its own id, and with a mempool attached no request ever writes the
    accounts: only [sendTransaction] changes anything, namely the mempool by
    one insertion, and on success the status of the transaction's own
    signature; the status of every other transaction stays as it was. *)
Theorem rpc_handle_safe h req now p : h_mempool h = Some p ->
  let '(h', response) := handle h req now in
  well_formed req response /\
  h_executor h' = h_executor h /\ h_slot h' = h_slot h /\ h_identity h' = h_identity h /\
  (h' = h \/
   exists v tx, rq_method req = "sendTransaction" /\ first_param req = Some v /\ from_value v = Ok tx /\
     h_mempool h' = Some (Mempool.insert p tx now).1 /\
     (forall sig, bytes_ok sig -> bytes_ok (tx_signature tx) -> sig <> tx_signature tx ->
        h_transactions h' !! bs58_encode sig = h_transactions h !! bs58_encode sig)).
Proof.
  intros Hp. pose proof (handle_wf h req now) as Hwf. pose proof (handle_state h req now) as Hs.
  destruct (handle h req now) as [h' response]. cbn [fst snd] in *. cbv zeta in Hs. split; [done|].
  destruct Hs as [->|(Hm & H1 & H2 & v & tx & Hv & Htx & Hs)]; [split_and!; [done..|by left]|].
  rewrite Hp in Hs. destruct Hs as (H3 & H4 & H5). split_and!; [done..|]. right. exists v, tx.
  split_and!; [done..|]. intros sig Hok Hok' Hne. rewrite H5. destruct (Mempool.insert p tx now).2; [|done].
  apply lookup_insert_ne. intros E. apply Hne. symmetry. by apply bs58_encode_injective.
Qed.

(** The request that asks for the status of a signature. *)
Definition get_transaction_request (id : option Value) (sig : string) : RpcRequest :=
  mkRequest "2.0" "getTransaction" (Some (VArr [VStr sig])) id.
Definition send_transaction_request (id : option Value) (v : Value) : RpcRequest :=
  mkRequest "2.0" "sendTransaction" (Some (VArr [v])) id.

(** A transaction sent and accepted can be looked up: the answer is the
    base58 signature, and asking for that signature afterwards reports the
    transaction as pending with its fee. *)
Theorem rpc_send_then_get h id id' v tx p p' hash now now' :
  h_mempool h = Some p -> from_value v = Ok tx -> Mempool.insert p tx now = (p', Ok hash) ->
  let sig := bs58_encode (tx_signature tx) in
  let '(h', sent) := handle h (send_transaction_request id v) now in
  sent = rpc_success id (VStr sig) /\ h_mempool h' = Some p' /\
  (handle h' (get_transaction_request id' sig) now').2 =
    rpc_success id' (VObj [("slot", VNull); ("transaction", VObj [("signature", VStr sig)]);
                           ("meta", pending_status tx)]).
Proof.
  intros Hp Hv Hi. cbv zeta. unfold Rpc.handle at 1. cbn [send_transaction_request rq_method String.eqb].
  cbn. unfold send_transaction. cbn [first_param rq_params mbind option_bind as_array head].
  rewrite Hv, Hp, Hi. split; [done|]. split; [done|].
  unfold Rpc.handle, query, get_transaction. cbn. by rewrite lookup_insert_eq.
Qed.

(** In the validator's configuration a status is never anything but pending:
    no request, and nothing else, ever updates it. *)
Definition all_pending (h : RpcHandler DB) : Prop :=
  is_Some (h_mempool h) /\
  map_Forall (fun _ status => value_get status "status" = VStr "pending") (h_transactions h).

Lemma statuses_stay_pending h req now : all_pending h -> all_pending (handle h req now).1.
Proof.
  intros [[p Hp] Hf]. destruct (handle_state h req now) as [->|(_ & _ & _ & v & tx & _ & _ & Hs)]; [by split; eauto|].
  rewrite Hp in Hs. destruct Hs as (H1 & _ & H3). split; [eauto|]. rewrite H3.
  destruct (Mempool.insert p tx now).2; [|done]. by apply map_Forall_insert_2.
Qed.

(** The slot the handler reports is the one it was built with. *)
Lemma slot_never_moves h reqs :
  h_slot (foldl (fun h '(req, now) => (handle h req now).1) h reqs) = h_slot h.
Proof.
  revert h. induction reqs as [|[req now] reqs IH]; intros h; [done|]. cbn [foldl]. rewrite IH.
  destruct (handle_state h req now) as [->|(_ & -> & _)]; done.
Qed.
End RpcProperties.

Section RpcAccounts.
Context {DB : Type} `{Laws : AccountsStoreLaws DB} `{Sha : Sha256} `{Ed : Ed25519}.
Context (db_account_count : DB -> Z) (from_value : Value -> result Transaction string)
        (hex_decode : string -> option bytes).
(** [hex::decode] inverts [hex::encode]. *)
Context (hex_roundtrip : forall b, bytes_ok b -> hex_decode (hex_encode b) = Some b).

(** [getBalance] and [getAccountInfo] answer from the ledger: for the hex text
    of a public key they report the lamports, owner and flags of the account
    the database holds under it, 0 and null when it holds none. *)
Theorem rpc_reads_ledger h key id now : db_wf (ex_db (h_executor h)) -> arr32 key ->
  let view := db_view (ex_db (h_executor h)) in
  let ask method := (handle db_account_count from_value hex_decode h
                       (mkRequest "2.0" method (Some (VArr [VStr (hex_encode key)])) id) now).2 in
  ask "getBalance" = rpc_success id (VObj [("lamports", VNum (balance view key))]) /\
  ask "getAccountInfo" =
    rpc_success id (match view !! key with
                    | Some a => VObj [("lamports", VNum (lamports a)); ("owner", VStr (hex_encode (owner a)));
                                      ("executable", VBool (executable a)); ("rentEpoch", VNum (rent_epoch a))]
                    | None => VNull
                    end).
Proof.
  intros Hwf [Hlen Hok]. cbv zeta. unfold handle, query, get_balance, get_account_info, pubkey_param. cbn.
  rewrite hex_roundtrip, Hlen by done. cbn. rewrite db_load_view by done.
  split; [done|]. by case_match.
Qed.
End RpcAccounts.
