(* ===== verification/Server.v ===== *)
(** * The RPC server

    src/crates/rpc/src/server.rs: one connection, from the bytes of its single
    read to the bytes written back.  serde_json's parsing of a request and
    printing of a response are parameters; accepting connections is I/O. *)

From S2P Require Import Prelude Crypto Account Store Transaction Executor Mempool Rpc.
From stdpp Require Import list.
Open Scope Z_scope.

Definition CRLF : bytes := [13; 10].

(** The two replies. *)
Definition http_ok (json : bytes) : bytes :=
  str_bytes "HTTP/1.1 200 OK" ++ CRLF ++ str_bytes "Content-Type: application/json" ++ CRLF ++
  str_bytes ("Content-Length: " +:+ dec (Z.of_nat (length json))) ++ CRLF ++ CRLF ++ json.
Definition http_bad_request : bytes := str_bytes "HTTP/1.1 400 Bad Request" ++ CRLF ++ CRLF.

Section Server.
Context {DB : Type} `{Store : AccountsStore DB} `{Sha : Sha256} `{Ed : Ed25519}.
Context (db_account_count : DB -> Z) (from_value : Value -> result Transaction string)
        (hex_decode : string -> option bytes).
(** [serde_json::from_slice::<RpcRequest>] (a request or the error text),
    [serde_json::to_string(&rpc_response)]. *)
Context (parse_request : bytes -> result RpcRequest string) (print_response : RpcResponse -> bytes).

(** The spawned task of [RpcServer::start], given what its read returned (at
    most 65536 bytes): the handler afterwards and what is written. *)
Definition serve (h : RpcHandler DB) (read : result bytes string) (now : Z) : RpcHandler DB * option bytes :=
  match read with
  | Err _ => (h, None)
  | Ok [] => (h, None)
  | Ok body =>
      match find_json_body body with
      | Some json_start =>
          let json_bytes := drop json_start body in
          let '(h, rpc_response) :=
            match parse_request json_bytes with
            | Ok req => handle db_account_count from_value hex_decode h req now
            | Err e => (h, rpc_error None (invalid_params ("Invalid JSON: " +:+ e)))
            end in
          (h, Some (http_ok (print_response rpc_response)))
      | None => (h, Some http_bad_request)
      end
  end.

(** A connection does to the handler what one request does, or nothing. *)
Lemma serve_state h read now :
  (serve h read now).1 = h \/
  exists req, (serve h read now).1 = (handle db_account_count from_value hex_decode h req now).1.
Proof.
  unfold serve. destruct read as [[|b body]|e]; [by left| |by left].
  destruct (find_json_body (b :: body)) as [start|]; [|by left].
  destruct (parse_request _) as [req|e]; [right|by left]. exists req. by destruct (handle _ _ _ _ _ _).
Qed.

End Server.

(** ** Framing of the reply *)

Lemma blank_line_skip b l : b <> 13 -> (4 <= length l)%nat -> find_blank_line (b :: l) = S <$> find_blank_line l.
Proof.
  intros Hb Hl. cbn [find_blank_line]. rewrite (proj2 (Nat.ltb_ge _ _)) by (simpl; lia).
  rewrite bool_decide_eq_false_2; [done|]. cbn [take]. unfold CRLF2. congruence.
Qed.

Lemma blank_line_plain ln l : Forall (fun b => b <> 13) ln -> (4 <= length l)%nat ->
  find_blank_line (ln ++ l) = Nat.add (length ln) <$> find_blank_line l.
Proof.
  intros Hln Hl. induction Hln as [|b ln Hb _ IH]; [cbn [app]; by destruct (find_blank_line l)|].
  cbn [app]. rewrite blank_line_skip, IH by (done || rewrite length_app; lia). by destruct (find_blank_line l).
Qed.

Lemma blank_line_crlf b l : b <> 13 -> (2 <= length l)%nat ->
  find_blank_line (CRLF ++ b :: l) = Nat.add 2 <$> find_blank_line (b :: l).
Proof.
  intros Hb Hl. unfold CRLF. cbn [app]. remember (b :: l) as l' eqn:El.
  assert (Hl' : (3 <= length l')%nat) by (subst; simpl; lia).
  cbn [find_blank_line]. rewrite !(proj2 (Nat.ltb_ge _ _)) by (simpl; lia).
  rewrite !bool_decide_eq_false_2 by (subst; cbn [take]; unfold CRLF2; congruence). by destruct (find_blank_line l').
Qed.

Lemma blank_line_next ln l : ln <> [] -> Forall (fun b => b <> 13) ln -> (4 <= length l)%nat ->
  find_blank_line (CRLF ++ ln ++ l) = Nat.add (2 + length ln) <$> find_blank_line l.
Proof.
  intros Hne Hln Hl. destruct ln as [|b ln]; [done|]. inversion_clear Hln as [|? ? Hb Hrest].
  cbn [app]. rewrite blank_line_crlf by (done || rewrite length_app; lia).
  change (b :: ln ++ l) with ((b :: ln) ++ l). rewrite blank_line_plain by (done || by constructor). by destruct (find_blank_line l).
Qed.

Lemma blank_line_here l : find_blank_line (CRLF ++ CRLF ++ l) = Some 4%nat.
Proof. cbn. by destruct l. Qed.

(** A decimal numeral contains no carriage return. *)
Lemma str_bytes_app a b : str_bytes (a +:+ b) = str_bytes a ++ str_bytes b.
Proof. induction a as [|c a IH]; [done|]. cbn [str_bytes String.app]. simpl. by rewrite IH. Qed.

Definition no_cr (s : string) : Prop := Forall (fun b => b <> 13) (str_bytes s).

Lemma dec_no_cr (n : nat) : no_cr (dec (Z.of_nat n)).
Proof.
  assert (H : forall (m : N) s, no_cr s -> no_cr (pretty_N_go m s)).
  { intros m. induction (N.lt_wf_0 m) as [m _ IH]. intros s Hs.
    destruct (decide (m = 0%N)) as [->|Hm]; [by rewrite pretty_N_go_0|].
    rewrite pretty_N_go_step by lia. apply IH; [apply N.div_lt; lia|].
    constructor; [|done]. unfold pretty_N_char. by repeat case_match. }
  unfold dec. destruct n as [|n]; [by repeat constructor|]. cbn. apply H. constructor.
Qed.

(** The reply is one a client can frame: the blank line that ends its header is
    the first one, so the body search finds exactly the JSON text, whose length
    the header announces. *)
Lemma reply_framed json : exists header, http_ok json = header ++ json /\
  find_json_body (http_ok json) = Some (length header).
Proof.
  set (h1 := str_bytes "HTTP/1.1 200 OK"). set (h2 := str_bytes "Content-Type: application/json").
  set (h3 := str_bytes ("Content-Length: " +:+ dec (Z.of_nat (length json)))).
  exists (h1 ++ CRLF ++ h2 ++ CRLF ++ h3 ++ CRLF ++ CRLF). split; [unfold http_ok; by rewrite <- !app_assoc|].
  assert (N1 : Forall (fun b => b <> 13) h1) by (by repeat constructor).
  assert (N2 : Forall (fun b => b <> 13) h2) by (by repeat constructor).
  assert (N3 : Forall (fun b => b <> 13) h3).
  { unfold h3. rewrite str_bytes_app. apply Forall_app. split; [by repeat constructor|apply dec_no_cr]. }
  assert (H : find_blank_line (http_ok json) = Some (length (h1 ++ CRLF ++ h2 ++ CRLF ++ h3 ++ CRLF ++ CRLF)));
    [|unfold find_json_body; by rewrite H].
  assert (Hl : forall a : bytes, (4 <= length (a ++ CRLF ++ CRLF ++ json))%nat)
    by (intros a; rewrite !length_app; simpl; lia).
  unfold http_ok. fold h1 h2 h3. rewrite blank_line_plain; [|done|rewrite !length_app; simpl; lia].
  rewrite blank_line_next; [|done|done|rewrite !length_app; simpl; lia].
  rewrite blank_line_next; [|done|done|apply (Hl [])]. rewrite blank_line_here. simpl. f_equal.
  rewrite !length_app. simpl. lia.
Qed.

Section Exchange.
Context {DB : Type} `{Store : AccountsStore DB} `{Sha : Sha256} `{Ed : Ed25519}.
Context (db_account_count : DB -> Z) (from_value : Value -> result Transaction string)
        (hex_decode : string -> option bytes)
        (parse_request : bytes -> result RpcRequest string) (print_response : RpcResponse -> bytes).

(** A connection that sends anything is answered: with 400 when no body is
    found, otherwise with a reply in which a client that searches for the body
    the same way finds the printed response of the handler, or of the parse
    error. *)
Theorem http_exchange h b body now :
  match find_json_body (b :: body) with
  | None => serve db_account_count from_value hex_decode parse_request print_response h (Ok (b :: body)) now =
              (h, Some http_bad_request)
  | Some start => exists h' response reply n,
      serve db_account_count from_value hex_decode parse_request print_response h (Ok (b :: body)) now =
        (h', Some reply) /\
      find_json_body reply = Some n /\ drop n reply = print_response response /\
      match parse_request (drop start (b :: body)) with
      | Ok req => handle db_account_count from_value hex_decode h req now = (h', response)
      | Err e => h' = h /\ response = rpc_error None (invalid_params ("Invalid JSON: " +:+ e))
      end
  end.
Proof.
  unfold serve. destruct (find_json_body (b :: body)) as [start|]; [|done].
  destruct (match parse_request _ with Ok req => _ | Err e => _ end) as [h' response] eqn:E.
  destruct (reply_framed (print_response response)) as (header & Hr & Hf).
  exists h', response. eexists _, _. split; [done|]. split; [exact Hf|].
  split; [rewrite Hr; apply drop_app_length|]. destruct (parse_request _) as [req|e]; [done|].
  by injection E as <- <-.
Qed.
End Exchange.
