(* ===== verification/Node.v ===== *)
(** * The node

    src/validator/src/main.rs: the tasks [main] starts and the state they share.
    The validator state, the status table of the RPC handler, the gossip
    protocol and the propagator make up the node; the mempool and the accounts
    are shared by the RPC handler and the validator, so the handler's view is
    built from the validator's.  Every task acts in steps: the slot clock, an
    RPC connection, the two halves of block production (the leadership check, under a
    read lock, and the production that follows it), a burst of datagrams on
    either socket, a round of pings. *)

From S2P Require Import Prelude Crypto Account Store AccountsDB Merkle Transaction Scheduler Executor Mempool Poh Leader Blockstore Validator Gossip Shred Erasure Neighborhood Propagate Net Network Base58 Rpc Server.
From stdpp Require Import list.
Open Scope Z_scope.

Section Node.
Context `{Sha : Sha256} `{Ed : Ed25519} `{Ser : !Serde Account account_ok} `{Json : !Serde BlockRecord record_ok}
  `{Wire : !Serde NetMessage net_ok} `{Payload : !Serde GossipPayload payload_ok}.
(** Thread order, iteration orders, the random choice of peers, the texts of
    errors, and the parameters of the RPC
    handler and server. *)
Context (threads : ExecutionBatch -> list Transaction) (keys_of : AccountsDB -> list bytes)
        (iter : gmap bytes CrdsEntry -> list (bytes * CrdsEntry)) (shuffle : gmap bytes ContactInfo -> list ContactInfo)
        (encode_error : string) (decode_error : bytes -> string)
        (db_account_count : AccountsDB -> Z) (from_value : Value -> result Transaction string)
        (hex_decode : string -> option bytes)
        (parse_request : bytes -> result RpcRequest string) (print_response : RpcResponse -> bytes).
(** Where datagrams come from. *)
Context {Peer : Type}.

(** What the command line, the files and the sockets give [main]. *)
Record Boot := mkBoot {
  bt_identity : bytes;
  bt_key : SigningKey;
  bt_genesis : GenesisConfig;
  bt_accounts : AccountsDB;
  bt_gossip : SocketAddr;
  bt_tpu : SocketAddr;
  bt_rpc_port : Z;
  bt_version : string;
  bt_now : Z;
  bt_peers : list ContactInfo;
  bt_mining : bool;
  bt_rpc_enabled : bool
}.

(** The shared state; [nd_should_produce] is the local variable of the block
    production task. *)
Record Node := mkNodeState {
  nd_state : ValidatorState;
  nd_statuses : gmap string Value;
  nd_gossip : GossipProtocol;
  nd_propagator : Propagator;
  nd_should_produce : bool;
  nd_mining : bool;
  nd_rpc_enabled : bool
}.

Definition set_state (n : Node) (s : ValidatorState) : Node :=
  mkNodeState s (nd_statuses n) (nd_gossip n) (nd_propagator n) (nd_should_produce n) (nd_mining n) (nd_rpc_enabled n).
Definition set_propagator (n : Node) (p : Propagator) : Node :=
  mkNodeState (nd_state n) (nd_statuses n) (nd_gossip n) p (nd_should_produce n) (nd_mining n) (nd_rpc_enabled n).
Definition set_gossip (n : Node) (g : GossipProtocol) : Node :=
  mkNodeState (nd_state n) (nd_statuses n) g (nd_propagator n) (nd_should_produce n) (nd_mining n) (nd_rpc_enabled n).
Definition set_should_produce (n : Node) (b : bool) : Node :=
  mkNodeState (nd_state n) (nd_statuses n) (nd_gossip n) (nd_propagator n) b (nd_mining n) (nd_rpc_enabled n).

(** [main] up to the tasks, over the ledger file [log]: [None] when it exits
    with an error. *)
Definition node_start (b : Boot) (log : bytes) : option Node :=
  let accounts := apply_genesis (bt_accounts b) (bt_genesis b) in
  s ← validator_new (bt_identity b) log accounts default_pool (genesis_stakes (bt_genesis b));
  match network_start (bt_identity b) (bt_key b) (bt_gossip b) (bt_tpu b) (bt_rpc_port b) (bt_version b)
          (bt_now b) (bt_peers b) with
  | Some (Returns (g, p)) => Some (mkNodeState s ∅ g p false (bt_mining b) (bt_rpc_enabled b))
  | _ => None
  end.

(** The RPC handler: the validator's accounts and mempool, the handler's own
    slot (which nothing updates) and status table. *)
Definition rpc_view (n : Node) : RpcHandler AccountsDB :=
  mkHandler (executor_new (ex_db (v_executor (nd_state n)))) 0 (v_identity (nd_state n))
    (Some (v_mempool (nd_state n))) (nd_statuses n).

(** What the handler [h] leaves behind: the mempool it shares with the
    validator, and its status table. *)
Definition after_rpc (n : Node) (h : RpcHandler AccountsDB) : Node :=
  mkNodeState (set_mempool (nd_state n) (default (v_mempool (nd_state n)) (h_mempool h))) (h_transactions h)
    (nd_gossip n) (nd_propagator n) (nd_should_produce n) (nd_mining n) (nd_rpc_enabled n).

(** One request, and one connection of the RPC server. *)
Definition node_request (n : Node) (req : RpcRequest) (now : Z) : Node * RpcResponse :=
  let '(h, response) := handle db_account_count from_value hex_decode (rpc_view n) req now in
  (after_rpc n h, response).
Definition node_connection (n : Node) (read : result bytes string) (now : Z) : Node * option bytes :=
  let '(h, reply) := serve db_account_count from_value hex_decode parse_request print_response (rpc_view n) read now in
  (after_rpc n h, reply).

(** The block production task, after its check. *)
Definition node_produce (n : Node) (now : Z) (io : WriteOutcome) : outcome Node :=
  if nd_should_produce n then
    let '(s, produced) := produce_block threads keys_of (nd_state n) now io in
    let n := set_should_produce (set_state n s) false in
    match produced with
    | None => Returns n
    | Some (slot, block) =>
        match propagate_block (nd_propagator n) block slot true with
        | Panics => Panics
        | Returns p => Returns (set_propagator n p)
        end
    end
  else Returns n.

(** The steps of the tasks. *)
Inductive Event :=
| EvTick
| EvConnection (read : result bytes string) (now : Z)
| EvCheck
| EvProduce (now : Z) (io : WriteOutcome)
| EvTpu (clock : nat -> Z) (socket : list (result (bytes * Peer) string))
| EvGossip (clock : nat -> Z) (socket : list (result (bytes * Peer) string))
| EvPing (peers : list (ContactInfo * Z)) (now : Z).

Definition node_step (n : Node) (e : Event) : outcome Node :=
  match e with
  | EvTick => let '(s, p) := clock_round (nd_state n) (nd_propagator n) in
              Returns (set_propagator (set_state n s) p)
  | EvConnection read now => Returns (if nd_rpc_enabled n then (node_connection n read now).1 else n)
  | EvCheck => Returns (if nd_mining n then set_should_produce n (v_is_leader (nd_state n)) else n)
  | EvProduce now io => node_produce n now io
  | EvTpu clock socket =>
      Returns (set_propagator n (tpu_receive decode_error (length socket) clock (nd_propagator n) socket))
  | EvGossip clock socket =>
      Returns (set_gossip n (gossip_receive decode_error iter shuffle (length socket) clock (nd_gossip n) socket))
  | EvPing peers now => Returns (set_gossip n (ping_round (nd_gossip n) peers now))
  end.

(** ** The invariant *)

Context (threads_perm : forall b, threads b ≡ₚ batch_transactions b).
Context (keys_iterate : forall db, iteration_of db (keys_of db)).
Context (iter_perm : forall m, iter m ≡ₚ map_to_list m).
(** serde only builds transactions whose fields have their types. *)
Context (from_value_ok : forall v tx, from_value v = Ok tx -> tx_ok tx).

Record node_ok (n : Node) : Prop := {
  nk_chain : vinv (nd_state n);
  nk_accounts : db_wf (ex_db (v_executor (nd_state n)));
  nk_pool : pool_ok (v_mempool (nd_state n));
  nk_parked seq e : parked (v_mempool (nd_state n)) seq e ->
    tx_ok (me_tx e) /\ is_Some (nd_statuses n !! bs58_encode (tx_signature (me_tx e)));
  nk_pending : map_Forall (fun _ status => value_get status "status" = VStr "pending") (nd_statuses n);
  nk_buffer : buffer_inv (tp_received (nd_propagator n));
  nk_gossip : gossip_inv (nd_gossip n)
}.

(** The propagator [Network::start] builds: the default coder and nobody to
    send to. *)
Definition node_wired (n : Node) : Prop :=
  tp_coder (nd_propagator n) = erasure_default /\
  neighbors (tp_neighborhood (nd_propagator n)) (tp_validator_id (nd_propagator n)) = Returns [].

(** What an event must respect: no counter is at its limit, the ledger write
    succeeds and the block fits a frame. *)
Definition event_ok (n : Node) (e : Event) : Prop :=
  match e with
  | EvTick => v_current_slot (nd_state n) < U64_MAX
  | EvConnection _ _ => 0 <= next_seq (inner (v_mempool (nd_state n))) < U64_MAX
  | EvProduce now io =>
      v_current_slot (nd_state n) < U64_MAX /\ io = Written /\
      (v_last_produced_slot (nd_state n) <> Some (v_current_slot (nd_state n)) ->
       frame_fits (next_record threads keys_of (nd_state n) now))
  | _ => True
  end.

Lemma single_tree identity : exists t, build_tree [(identity, 1)] 1 = Some (Returns t) /\ neighbors t identity = Returns [].
Proof.
  eexists. split; [reflexivity|]. unfold neighbors. cbn. by rewrite bool_decide_eq_true_2.
Qed.

(** *** Start *)

Lemma network_crds_ok me peers : crds_ok (network_crds default_store me peers).
Proof.
  unfold network_crds.
  assert (H : forall c, crds_ok c -> crds_ok (foldl insert_contact c peers)).
  { induction peers as [|x l IH]; intros c Hc; cbn [foldl]; [done|]. by apply IH. }
  apply H. split; [|apply Nat.le_0_l]. intros id e He.
  change ((∅ : gmap bytes CrdsEntry) !! id = Some e) in He. by rewrite lookup_empty in He.
Qed.

(** Only the validator's part depends on the ledger file. *)
Lemma node_start_ok b log n : node_start b log = Some n ->
  db_wf (bt_accounts b) -> genesis_ok (bt_genesis b) -> vinv (nd_state n) -> node_ok n /\ node_wired n.
Proof.
  unfold node_start, network_start. destruct (single_tree (bt_identity b)) as (t & -> & Ht).
  destruct (validator_new _ _ _ _ _) as [s|] eqn:Hv; [|done]. cbn [mbind option_bind].
  intros [= <-] Hdb Hgen Hinv. cbn [nd_state] in Hinv.
  assert (Hs : ex_db (v_executor s) = apply_genesis (bt_accounts b) (bt_genesis b) /\ v_mempool s = default_pool).
  { revert Hv. unfold validator_new. destruct (leader_new _ _ _); [|done]. cbn [mbind option_bind].
    destruct (last_block _); by intros [= <-]. }
  destruct Hs as [Hdb' Hp]. split; [|done].
  constructor; cbn [nd_state nd_statuses nd_propagator nd_gossip]; rewrite ?Hdb', ?Hp.
  - done.
  - by apply apply_genesis_view.
  - apply mempool_new_ok.
  - intros seq e He. change ((∅ : gmap Z MempoolEntry) !! seq = Some e) in He. by rewrite lookup_empty in He.
  - apply map_Forall_empty.
  - split; cbn [with_signer propagator_new tp_received]; intros *; by rewrite lookup_empty.
  - split; [apply network_crds_ok|constructor].
Qed.

(** *** Requests *)

Lemma node_request_ok n req now : node_ok n -> 0 <= next_seq (inner (v_mempool (nd_state n))) < U64_MAX ->
  node_ok (node_request n req now).1.
Proof.
  intros [H1 H2 H3 H4 H5 H6 H7] Hseq. unfold node_request.
  pose proof (statuses_stay_pending db_account_count from_value hex_decode (rpc_view n) req now) as Hpend.
  destruct Hpend as [_ Hpend]; [by split; [eexists|]|].
  pose proof (handle_state db_account_count from_value hex_decode (rpc_view n) req now) as Hs. cbv zeta in Hs.
  destruct (handle _ _ _ _ req now) as [h response]. cbn [fst] in *.
  assert (Hpool : pool_ok (default (v_mempool (nd_state n)) (h_mempool h)) /\
    forall seq e, parked (default (v_mempool (nd_state n)) (h_mempool h)) seq e ->
      tx_ok (me_tx e) /\ is_Some (h_transactions h !! bs58_encode (tx_signature (me_tx e)))).
  { destruct Hs as [->|(_ & _ & _ & v & tx & _ & Htx & Hm & _ & Ht)]; [done|].
    rewrite Hm. cbn [default from_option id]. cbn [rpc_view h_transactions] in Ht.
    destruct (Mempool.insert (v_mempool (nd_state n)) tx now) as [p' r] eqn:Hi. cbn [fst snd] in *.
    apply insert_cases in Hi as (Hok & _ & _ & Hr); [|done..]. split; [done|]. intros seq e He. rewrite Ht.
    destruct r as [hash|err].
    - destruct Hr as (_ & _ & _ & _ & victim & _ & Hin). apply Hin in He as [[_ ->]|(He & _)].
      + split; [by eapply from_value_ok|]. by rewrite lookup_insert_eq.
      + apply H4 in He as [Hk Hst]. split; [done|]. apply lookup_insert_is_Some. by destruct (decide (bs58_encode (tx_signature tx) = bs58_encode (tx_signature (me_tx e)))); [left|right].
    - destruct Hr as [Hsub _]. by apply Hsub, H4 in He. }
  destruct Hpool as [Hpool Hparked].
  constructor; cbn [nd_state set_mempool v_executor v_mempool nd_statuses nd_propagator nd_gossip]; try done.
  by destruct H1; constructor.
Qed.

Lemma after_rpc_same n : nd_statuses (after_rpc n (rpc_view n)) = nd_statuses n /\
  nd_state (after_rpc n (rpc_view n)) = nd_state n.
Proof. destruct n as [s]. by destruct s. Qed.

Lemma node_connection_ok n read now : node_ok n -> 0 <= next_seq (inner (v_mempool (nd_state n))) < U64_MAX ->
  node_ok (node_connection n read now).1.
Proof.
  intros Hn Hseq. unfold node_connection.
  pose proof (serve_state db_account_count from_value hex_decode parse_request print_response (rpc_view n) read now) as Hs.
  destruct (serve _ _ _ _ _ _ _ _) as [h reply]. cbn [fst] in *. destruct Hs as [->|[req ->]].
  - destruct (after_rpc_same n) as [E1 E2]. destruct Hn. constructor; rewrite ?E1, ?E2; done.
  - pose proof (node_request_ok n req now Hn Hseq) as H. unfold node_request in H. by destruct (handle _ _ _ _ _ _).
Qed.

(** *** Block production *)

Lemma produce_mempool s now io : v_mempool (produce_block threads keys_of s now io).1 =
  if bool_decide (v_last_produced_slot s = Some (v_current_slot s)) then v_mempool s
  else (drain (v_mempool s) MAX_TXS_PER_BLOCK).1.
Proof.
  unfold produce_block. case_bool_decide; [done|]. destruct (drain _ _) as [pool txs].
  destruct (run_batches _ _ _ _ _ _) as [[e ec] ok]. by destruct (append_block _ _ _ _ _ _ _ _ _).
Qed.

(** Draining keeps a part of the pool and hands out parked transactions. *)
Lemma drain_parked p limit : pool_ok p ->
  let '(p', out) := drain p limit in
  (forall seq e, parked p' seq e -> parked p seq e) /\
  (forall tx, tx ∈ out -> exists seq e, parked p seq e /\ me_tx e = tx) /\
  ((pool_len p <= limit)%nat -> forall seq e, parked p seq e -> me_tx e ∈ out).
Proof.
  intros Hp. pose proof (drain_cases p limit Hp) as Hd. destruct (drain p limit) as [p' out].
  destruct Hd as (_ & _ & _ & Hlen & es & -> & Hperm & _). unfold parked. split_and!.
  - intros seq e He. apply elem_of_map_to_list. rewrite <- Hperm. apply elem_of_app. right. by apply elem_of_map_to_list.
  - intros tx (e & -> & (x & -> & Hx)%list_elem_of_fmap)%list_elem_of_fmap. exists x.1, x.2. split; [|done].
    apply elem_of_map_to_list. rewrite <- Hperm. apply elem_of_app. left. by destruct x.
  - intros Hle seq e He. apply list_elem_of_fmap. exists e. split; [done|]. apply list_elem_of_fmap.
    exists (seq, e). split; [done|]. apply elem_of_map_to_list in He. rewrite <- Hperm in He.
    apply elem_of_app in He as [He|He]; [done|]. apply Permutation_length in Hperm.
    rewrite length_app, !length_map_to_list in Hperm. rewrite !length_fmap in Hlen. unfold pool_len in *.
    apply list_elem_of_lookup in He as [i Hi%lookup_lt_Some]. rewrite length_map_to_list in Hi. lia.
Qed.

Lemma drained_tx_ok n : node_ok n -> Forall tx_ok (drain (v_mempool (nd_state n)) MAX_TXS_PER_BLOCK).2.
Proof.
  intros Hn. apply Forall_forall. intros tx Htx.
  pose proof (drain_parked (v_mempool (nd_state n)) MAX_TXS_PER_BLOCK (nk_pool _ Hn)) as Hd.
  destruct (drain _ _) as [p' out]. destruct Hd as (_ & Hd & _). destruct (Hd tx Htx) as (seq & e & He & <-).
  by eapply nk_parked.
Qed.

(** A block that fits a frame is bytes, and short. *)
Lemma fits_bytes r block : frame_fits r -> to_vec r = Some block ->
  bytes_ok block /\ is_u64 (Z.of_nat (length block)).
Proof.
  intros [_ Hf] Hb. rewrite Hb in Hf. split; [exact (to_vec_bytes _ _ Hb)|].
  unfold MAX_FRAME_PAYLOAD in Hf. u64_unfold. lia.
Qed.

Lemma node_slot_u64 n : node_ok n -> is_u64 (v_current_slot (nd_state n)).
Proof. intros [[_ _ _ Hs _ _] _ _ _ _ _ _]. u64_unfold. lia. Qed.

(** Propagating touches the channel and the counters only. *)
Lemma propagate_frame p block slot open p' : propagate_block p block slot open = Returns p' ->
  tp_received p' = tp_received p /\ tp_coder p' = tp_coder p /\ tp_neighborhood p' = tp_neighborhood p /\
  tp_validator_id p' = tp_validator_id p.
Proof.
  unfold propagate_block. destruct (encode _ _ _) as [sh|]; [|done]. destruct (neighbors _ _) as [ns|]; [|done].
  intros [= <-]. cbn [set_prop_stats tp_received tp_coder tp_neighborhood tp_validator_id].
  generalize (tn_validator <$> ns), (sign_all (tp_signer p) sh). intros keys shreds. revert p.
  induction keys as [|k keys IH]; intros p; cbn [foldl]; [done|].
  destruct (IH (if open then push_channel p k shreds else set_prop_stats p (count_error (tp_stats p)))) as (-> & -> & -> & ->).
  by destruct open.
Qed.

Lemma produce_state_ok n now : node_ok n -> event_ok n (EvProduce now Written) ->
  node_ok (set_state n (produce_block threads keys_of (nd_state n) now Written).1).
Proof.
  intros Hn (Hslot & _ & Hfit). pose proof (drained_tx_ok n Hn) as Htx. pose proof Hn as [H1 H2 H3 H4 H5 H6 H7].
  pose proof (produce_mempool (nd_state n) now Written) as Hmem.
  destruct (decide (v_last_produced_slot (nd_state n) = Some (v_current_slot (nd_state n)))) as [Hd|Hd].
  { unfold produce_block. rewrite bool_decide_eq_true_2 by done. by destruct n. }
  rewrite bool_decide_eq_false_2 in Hmem by done.
  pose proof (produce_fresh threads keys_of threads_perm keys_iterate (nd_state n) now Written H2 H3 Htx Hd) as Hf.
  pose proof (produce_block_out threads keys_of (nd_state n) now Hd (Hfit Hd)) as Ho.
  pose proof (drain_parked (v_mempool (nd_state n)) MAX_TXS_PER_BLOCK H3) as Hp.
  destruct (produce_block threads keys_of (nd_state n) now Written) as [s' out] eqn:E. cbn [fst] in *.
  destruct Ho as (block & _ & _ & Hrec & _). destruct Hf as (Hdb & Hpool & _).
  constructor; cbn [set_state nd_state nd_statuses nd_propagator nd_gossip]; try done.
  - eapply (vinv_produce threads keys_of); [exact H1|done|exact E|]. intros r. unfold last_block.
    rewrite Hrec, last_snoc. intros [= <-]. by apply Hfit.
  - intros seq e He. rewrite Hmem in He. destruct (drain _ _) as [p' txs]. by apply Hp, H4 in He.
Qed.

Lemma node_produce_ok n now : node_ok n -> node_wired n -> event_ok n (EvProduce now Written) ->
  exists n', node_produce n now Written = Returns n' /\ node_ok n' /\ node_wired n'.
Proof.
  intros Hn [Hc Hns] Hev. unfold node_produce. destruct (nd_should_produce n); [|by exists n].
  pose proof (produce_state_ok n now Hn Hev) as Hok. destruct Hev as (_ & _ & Hfit).
  destruct (produce_block threads keys_of (nd_state n) now Written) as [s' [[slot block]|]] eqn:E; cbn [fst] in Hok.
  2: { eexists. split; [done|]. split; [|done]. by destruct Hok. }
  cbn [set_should_produce set_state nd_propagator].
  destruct (decide (v_last_produced_slot (nd_state n) = Some (v_current_slot (nd_state n)))) as [Hd|Hd].
  { unfold produce_block in E. by rewrite bool_decide_eq_true_2 in E. }
  pose proof (produce_block_out threads keys_of (nd_state n) now Hd (Hfit Hd)) as Ho. rewrite E in Ho.
  destruct Ho as (b & [= -> ->] & Hb & _). destruct (fits_bytes _ _ (Hfit Hd) Hb) as [Hbytes Hlen].
  destruct (propagation_delivers (Peer:=Peer) encode_error decode_error (nd_propagator n) b
    (v_current_slot (nd_state n)) []) as (shreds & p' & Hp & _);
    rewrite ?Hc; [cbn; lia..|done|done|by apply node_slot_u64|done|].
  rewrite Hp. eexists. split; [done|].
  destruct (propagate_frame _ _ _ _ _ Hp) as (R1 & R2 & R3 & R4).
  split; [|by unfold node_wired; cbn [set_propagator nd_propagator]; rewrite R2, R3, R4].
  destruct Hok. constructor; cbn [set_propagator set_should_produce set_state nd_state nd_statuses nd_propagator nd_gossip] in *;
    rewrite ?R1; done.
Qed.

(** *** Every step *)

Lemma clock_round_ok s p : vinv s -> v_current_slot s < U64_MAX -> buffer_inv (tp_received p) ->
  let '(s', p') := clock_round s p in
  vinv s' /\ v_executor s' = v_executor s /\ v_mempool s' = v_mempool s /\ buffer_inv (tp_received p') /\
  tp_coder p' = tp_coder p /\ tp_neighborhood p' = tp_neighborhood p /\ tp_validator_id p' = tp_validator_id p.
Proof.
  intros Hv Hs Hb. unfold clock_round. cbv zeta. split; [by apply vinv_tick|].
  split; [unfold process_tick; by case_match|]. split; [unfold process_tick; by case_match|].
  destruct (_ =? 0); [|done]. split; [by eapply prop_step_inv with (o := OpPrune _)|].
  unfold prune_slots_below. cbn [fst]. by case_match.
Qed.

Lemma node_step_ok n e : node_ok n -> node_wired n -> event_ok n e ->
  exists n', node_step n e = Returns n' /\ node_ok n' /\ node_wired n'.
Proof.
  intros Hn Hw He. destruct e as [|read now| |now io|clock socket|clock socket|peers now]; cbn [node_step].
  - destruct Hn as [H1 H2 H3 H4 H5 H6 H7]. pose proof (clock_round_ok _ _ H1 He H6) as Hc.
    destruct (clock_round _ _) as [s p]. destruct Hc as (C1 & C2 & C3 & C4 & C5 & C6 & C7).
    eexists. split; [done|]. split; [|unfold node_wired; cbn; by rewrite C5, C6, C7].
    constructor; cbn [set_propagator set_state nd_state nd_statuses nd_propagator nd_gossip]; by rewrite ?C2, ?C3.
  - eexists. split; [done|]. destruct (nd_rpc_enabled n); [|done]. split; [by apply node_connection_ok|].
    unfold node_connection. by destruct (serve _ _ _ _ _ _ _ _).
  - eexists. split; [done|]. destruct (nd_mining n); [|done]. split; [|done]. by destruct Hn; constructor.
  - destruct He as (Hs & -> & Hf). by apply node_produce_ok.
  - eexists. split; [done|]. destruct (tpu_receive_inv decode_error (length socket) clock (nd_propagator n) socket
      (nk_buffer _ Hn)) as (T1 & T2 & T3 & T4).
    split; [|unfold node_wired; cbn [set_propagator nd_propagator]; by rewrite T2, T3, T4]. by destruct Hn; constructor.
  - eexists. split; [done|]. split; [|done]. pose proof (gossip_receive_inv decode_error iter shuffle iter_perm
      (length socket) clock (nd_gossip n) socket (nk_gossip _ Hn)). by destruct Hn; constructor.
  - eexists. split; [done|]. split; [|done]. destruct Hn as [H1 H2 H3 H4 H5 H6 H7]. constructor; try done.
    cbn [set_gossip nd_gossip]. unfold ping_round. revert H7. generalize (nd_gossip n). clear.
    induction peers as [|[peer nonce] peers IH]; intros g Hg; cbn [foldl]; [done|]. by apply IH, gossip_inv_ping.
Qed.

(** The lives of a node: it starts on an empty ledger file, takes steps in any
    interleaving, and may die and start again over whatever part of the ledger
    file survived, with any configuration and accounts. *)
Inductive reachable : Node -> Prop :=
| ReachStart b n : db_wf (bt_accounts b) -> genesis_ok (bt_genesis b) -> node_start b [] = Some n -> reachable n
| ReachRestart n k b n' : reachable n -> v_current_slot (nd_state n) < U64_MAX ->
    db_wf (bt_accounts b) -> genesis_ok (bt_genesis b) ->
    node_start b (take k (bs_file (v_ledger (nd_state n)))) = Some n' -> reachable n'
| ReachStep n e n' : reachable n -> event_ok n e -> node_step n e = Returns n' -> reachable n'.

Lemma node_start_state b log n : node_start b log = Some n ->
  exists pool accounts validators, validator_new (bt_identity b) log accounts pool validators = Some (nd_state n).
Proof.
  unfold node_start. destruct (validator_new _ _ _ _ _) as [s|] eqn:E; [|done]. cbn [mbind option_bind].
  destruct (network_start _ _ _ _ _ _ _ _) as [[[g p]|]|]; [|done..]. intros [= <-]. eauto.
Qed.

Lemma reachable_ok n : reachable n -> node_ok n /\ node_wired n.
Proof.
  induction 1 as [b n Hdb Hg Hn|n k b n' _ [IH _] Hs Hdb Hg Hn|n e n' _ [IH1 IH2] He Hn].
  - destruct (node_start_state _ _ _ Hn) as (p & a & v & Hv). eapply node_start_ok; eauto. by eapply vinv_new.
  - destruct (node_start_state _ _ _ Hn) as (p & a & v & Hv). eapply node_start_ok; eauto.
    eapply vinv_restart; [apply IH|done|exact Hv].
  - destruct (node_step_ok n e IH1 IH2 He) as (n2 & Hn2 & Hok). rewrite Hn in Hn2. by injection Hn2 as <-.
Qed.

(** C5. The whole node keeps its invariant, as long as every ledger write
    succeeds, every block fits a frame and the slot and sequence counters are
    below their 64-bit limits ([event_ok]).  However the slot clock, RPC
    connections, block production, datagrams on both sockets, pings, and crashes
    that cut the ledger file at any byte then interleave, no step panics and at
    every moment: the ledger is one hash chain with ascending slots and heights that
    its file reopens to; the accounts database and the mempool are consistent;
    every parked transaction is well formed and can be looked up over RPC, and
    all statuses read pending; the shred buffer holds only accepted shreds; the
    gossip store keeps its bound and everything queued for sending carries the
    node's own signature. *)
Theorem node_invariant n : reachable n ->
  node_ok n /\ open_ledger (bs_file (v_ledger (nd_state n))) = v_ledger (nd_state n) /\
  forall e, event_ok n e -> exists n', node_step n e = Returns n' /\ node_ok n'.
Proof.
  intros [Hok Hw]%reachable_ok. split; [done|]. split; [apply reopen_ok, Hok|].
  intros e He. destruct (node_step_ok n e Hok Hw He) as (n' & ? & ? & _). eauto.
Qed.

(** ** From a client to the other validators *)

(** A [sendTransaction] that is answered with a result was parked. *)
Lemma request_accepted n id v tx now n1 result :
  from_value v = Ok tx -> node_request n (send_transaction_request id v) now = (n1, rpc_success id result) ->
  exists hash, Mempool.insert (v_mempool (nd_state n)) tx now = (v_mempool (nd_state n1), Ok hash) /\
    nd_state n1 = set_mempool (nd_state n) (v_mempool (nd_state n1)) /\ nd_propagator n1 = nd_propagator n /\
    nd_mining n1 = nd_mining n.
Proof.
  intros Hv. unfold node_request, handle, send_transaction_request. cbn [rq_method]. cbn [String.eqb Ascii.eqb Bool.eqb].
  unfold send_transaction. cbn [first_param rq_params mbind option_bind as_array head]. rewrite Hv.
  cbn [rpc_view h_mempool rq_id].
  destruct (Mempool.insert (v_mempool (nd_state n)) tx now) as [p' [hash|err]] eqn:Hi; [|by intros [=]].
  intros [= <- <-]. by exists hash.
Qed.

(** What production does in a fresh slot when the block fits. *)
Lemma produce_packs n now : node_ok n -> v_last_produced_slot (nd_state n) <> Some (v_current_slot (nd_state n)) ->
  frame_fits (next_record threads keys_of (nd_state n) now) ->
  exists s' block r, produce_block threads keys_of (nd_state n) now Written =
      (s', Some (v_current_slot (nd_state n), block)) /\
    to_vec r = Some block /\ frame_fits r /\ last_block (v_ledger s') = Some r /\
    br_slot r = v_current_slot (nd_state n) /\
    br_transactions r = (drain (v_mempool (nd_state n)) MAX_TXS_PER_BLOCK).2 /\
    br_state_root r = root_of (view (ex_db (v_executor s'))).
Proof.
  intros Hn Hd Hfit.
  pose proof (produce_fresh threads keys_of threads_perm keys_iterate (nd_state n) now Written (nk_accounts _ Hn)
    (nk_pool _ Hn) (drained_tx_ok n Hn) Hd) as Hf.
  pose proof (produce_block_out threads keys_of (nd_state n) now Hd Hfit) as Ho.
  destruct (produce_block threads keys_of (nd_state n) now Written) as [s' out].
  destruct Ho as (block & -> & Hb & Hrec & _).
  destruct Hf as (_ & _ & _ & _ & _ & _ & _ & _ & _ & _ & r & _ & Hr & Hrec' & _ & _ & Hsl & _ & Htx & Hroot).
  assert (r = next_record threads keys_of (nd_state n) now) as ->.
  { rewrite Hrec in Hrec'. by apply app_inj_tail in Hrec' as [_ <-]. }
  exists s', block. eexists. split_and!; [done|exact Hb|done| |done..]. unfold last_block. by rewrite Hrec, last_snoc.
Qed.

(** C4. A transaction goes from a client to the ledger of the leader and to the
    other validators.  Once [sendTransaction] answers with a result, and the
    pool holds no more than a block takes, the leader's next block in a slot it
    has not used lists the transaction, commits to the root of the accounts its
    execution left, and its shreds (signed when the propagator has a key) are
    queued for every neighbor.  A propagator with the same [k] and [m] that holds no shred
    of the slot yet, and whose TPU socket delivers the datagrams of at least [k]
    of those shreds but no other acceptable shred of that slot, reassembles bytes
    that parse to exactly that block.  Conditions: the node is mining, its block
    fits a frame, the ledger write succeeds, the pool's sequence counter is below
    its limit.  The neighbors are those of the node's tree, whatever it is; the
    tree a started node builds holds the node alone, so there the list is
    empty. *)
Theorem client_to_peer n id v tx answer now now' ns n1 :
  node_ok n -> 0 <= next_seq (inner (v_mempool (nd_state n))) < U64_MAX -> nd_mining n = true ->
  from_value v = Ok tx ->
  node_request n (send_transaction_request id v) now = (n1, rpc_success id answer) ->
  (pool_len (v_mempool (nd_state n1)) <= MAX_TXS_PER_BLOCK)%nat ->
  v_is_leader (nd_state n) = true ->
  v_last_produced_slot (nd_state n) <> Some (v_current_slot (nd_state n)) ->
  frame_fits (next_record threads keys_of (nd_state n1) now') ->
  let coder := tp_coder (nd_propagator n) in
  let slot := v_current_slot (nd_state n) in
  (0 < data_shards coder)%nat -> (total_shards coder <= 256)%nat ->
  neighbors (tp_neighborhood (nd_propagator n)) (tp_validator_id (nd_propagator n)) = Returns ns ->
  exists n2 n3 r block encoded,
    node_step n1 EvCheck = Returns n2 /\ node_step n2 (EvProduce now' Written) = Returns n3 /\
    last_block (v_ledger (nd_state n3)) = Some r /\ br_slot r = slot /\ tx ∈ br_transactions r /\
    br_state_root r = root_of (view (ex_db (v_executor (nd_state n3)))) /\
    to_vec r = Some block /\ from_slice block = Some r /\ encode coder block slot = Returns encoded /\
    let shreds := sign_all (tp_signer (nd_propagator n)) encoded in
    tp_channel (nd_propagator n3) =
      tp_channel (nd_propagator n) ++ ((fun m => (tn_validator m, shreds)) <$> ns) /\
    forall q clock (events : list (result (bytes * Peer) string)),
      tp_coder q = coder -> tp_received q !! slot = None ->
      (forall s, s ∈ omap (event_shred decode_error) events -> sh_slot s = slot ->
         shred_acceptable s = true -> s ∈ shreds) ->
      (data_shards coder <= length (filter (fun s => delivered encode_error events s = true) shreds))%nat ->
      exists q', try_reassemble (tpu_receive decode_error (length events) clock q events) slot = Returns (q', Some block).
Proof.
  intros Hn Hseq Hmine Htx Hreq Hlen Hlead Hd Hfit coder slot Hk Hkm Hns.
  pose proof (node_request_ok n (send_transaction_request id v) now Hn Hseq) as Hn1. rewrite Hreq in Hn1. cbn [fst] in Hn1.
  destruct (request_accepted _ _ _ _ _ _ _ Htx Hreq) as (hash & Hi & Hst & Hp & Hm).
  assert (Hslot : v_current_slot (nd_state n1) = slot) by (by rewrite Hst).
  assert (Hlead1 : v_is_leader (nd_state n1) = true) by (by rewrite Hst).
  assert (Hd1 : v_last_produced_slot (nd_state n1) <> Some (v_current_slot (nd_state n1))) by (by rewrite Hst).
  destruct (produce_packs n1 now' Hn1 Hd1 Hfit) as (s' & block & r & Hprod & Hb & Hfr & Hlast & Hrs & Htxs & Hroot).
  destruct (fits_bytes r block Hfr Hb) as [Hbytes Hu].
  assert (Hin : tx ∈ br_transactions r).
  { rewrite Htxs. apply insert_cases in Hi as (Hok & _ & _ & _ & _ & _ & _ & victim & _ & Hpk); [|apply Hn|done].
    pose proof (drain_parked _ MAX_TXS_PER_BLOCK Hok) as Hdr. destruct (drain _ _) as [p' out].
    destruct Hdr as (_ & _ & Hall). apply (Hall Hlen (next_seq (inner (v_mempool (nd_state n))))
      (mkEntry (tx_hash tx) tx (tx_fee tx) now)). apply Hpk. by left. }
  rewrite Hslot in *.
  destruct (propagation_delivers (Peer:=Peer) encode_error decode_error (nd_propagator n) block slot ns) as
    (encoded & p' & Hpr & Henc & _ & _ & Hch & Hdel); [done..|by apply node_slot_u64|done|].
  destruct Hfr as [Hrok _]. destruct (serde_roundtrip r Hrok) as (block' & Hb' & Hparse).
  exists (set_should_produce n1 true). eexists. exists r, block, encoded.
  split; [cbn [node_step]; by rewrite Hm, Hmine, Hlead1|].
  split; [cbn [node_step]; unfold node_produce; cbn [set_should_produce nd_should_produce nd_state];
    rewrite Hprod; cbn [set_should_produce set_state nd_propagator]; rewrite Hp, Hpr; reflexivity|].
  cbn [set_propagator nd_state nd_propagator set_should_produce set_state]. split_and!; [done..|congruence|done|done|].
  exact Hdel.
Qed.

(** ** The leadership check *)

(** The check and the production are two steps: when the clock ticks in
    between, the block goes to the next slot, whether the node leads it or not. *)
Lemma stale_leader_check n now :
  nd_mining n = true -> v_is_leader (nd_state n) = true ->
  let s := process_tick (nd_state n) in
  v_is_leader s = false -> v_last_produced_slot s <> Some (v_current_slot s) ->
  frame_fits (next_record threads keys_of s now) ->
  exists n2 n3 s' slot block, node_step n EvCheck = Returns n2 /\ node_step n2 EvTick = Returns n3 /\
    nd_should_produce n3 = true /\
    produce_block threads keys_of (nd_state n3) now Written = (s', Some (slot, block)) /\
    is_leader (v_leader_schedule s') (v_identity s') slot = false.
Proof.
  intros Hm Hl s Hnl Hd Hfit. exists (set_should_produce n true). eexists.
  pose proof (produce_block_out threads keys_of s now Hd Hfit) as Ho.
  destruct (produce_block threads keys_of s now Written) as [s' out] eqn:E.
  destruct Ho as (block & -> & _). exists s', (v_current_slot s), block.
  split; [cbn [node_step]; by rewrite Hm, Hl|]. split; [cbn [node_step]; unfold clock_round; reflexivity|].
  split; [done|]. split; [exact E|].
  assert (v_leader_schedule s' = v_leader_schedule s /\ v_identity s' = v_identity s) as [-> ->]; [|exact Hnl].
  revert E. unfold produce_block. rewrite bool_decide_eq_false_2 by done. destruct (drain _ _) as [pool txs].
  destruct (run_batches _ _ _ _ _ _) as [[e ec] ok]. destruct (append_block _ _ _ _ _ _ _ _ _). by intros [= <- _].
Qed.
End Node.
