(* ===== verification/Durable.v ===== *)
(** * Durable state

    What survives of the accounts when the node restarts.  Executing
    transactions (src/crates/tx-processor/src/executor.rs and the programs
    under src/crates/program-executor) changes the accounts database
    (src/crates/accounts/src/store.rs) through [store] and [remove] only: the
    file follows those calls from the handlers of the programs up to a produced
    block (src/validator/src/main.rs), shows that every key is a public key and
    every account small enough for the log's length field, and concludes that
    the log of the database reopens to the accounts in memory as long as every
    append succeeded; it also shows what a torn record or a failed append loses. *)

From S2P Require Import Prelude Crypto Account Store AccountsDB Merkle Instruction Vm SystemProgram TokenProgram Processor Transaction Scheduler Executor Mempool Poh Leader Blockstore Validator.
From stdpp Require Import list.
Open Scope Z_scope.

(** ** Accounts the programs store *)

(** Variable-size data is bounded by [MAX_PERMITTED_DATA_LENGTH]. *)
Definition data_small (d : AccountData) : Prop :=
  match d with
  | Program code => Z.of_nat (length code) <= MAX_PERMITTED_DATA_LENGTH
  | Data l => Z.of_nat (length l) <= MAX_PERMITTED_DATA_LENGTH
  | _ => True
  end.
Definition storable (a : Account) : Prop := account_ok a /\ data_small (data a).

Lemma token_data_small d : token_data d -> data_small d.
Proof. by destruct d. Qed.
Lemma new_system_storable k l : is_u64 l -> storable (new_system_account k l).
Proof. intros Hl. split; [by apply new_system_account_ok|done]. Qed.
Lemma set_lamports_storable a l : storable a -> is_u64 l -> storable (set_lamports a l).
Proof. intros [Ha Hd] Hl. split; [by apply set_lamports_ok|done]. Qed.
Lemma set_owner_storable a o : storable a -> arr32 o -> storable (set_owner a o).
Proof. intros [Ha Hd] Ho. split; [by apply set_owner_ok|done]. Qed.
Lemma created_storable n space o : is_u64 n -> is_u64 (n + MINIMUM_RENT_EXEMPT_BALANCE) -> arr32 o ->
  space <= MAX_PERMITTED_DATA_LENGTH -> storable (created_account n space o).
Proof.
  intros Hn Hr Ho Hs. split; [by apply created_account_ok|].
  cbn [created_account data data_small]. rewrite length_replicate. unfold MAX_PERMITTED_DATA_LENGTH in *. lia.
Qed.
Lemma debit_storable a n : storable a -> 0 <= n <= lamports a -> storable (set_lamports a (lamports a - n)).
Proof. intros Ha Hn. apply set_lamports_storable; [done|]. destruct Ha as [(Hl & _) _]. u64_unfold. lia. Qed.

#[export] Hint Resolve new_system_storable set_lamports_storable set_owner_storable debit_storable : trust.

(** ** The calls a transaction makes *)

Section Calls.
Context {DB : Type} `{Laws : AccountsStoreLaws DB}.

(** One call of a client of the database. *)
Inductive db_call : DB -> DB -> Prop :=
| CallStore db k a : arr32 k -> storable a -> db_call db (db_store db k a)
| CallRemove db k : arr32 k -> db_call db (db_remove db k).1.

(** A database that holds storable accounts only. *)
Record small_db (db : DB) : Prop := {
  small_wf : db_wf db;
  small_data : map_Forall (fun _ a => data_small (data a)) (db_view db)
}.

Lemma small_lookup db k a : small_db db -> db_view db !! k = Some a -> storable a.
Proof. intros [Hwf Hd] Hk. split; [by eapply db_view_ok|by apply (Hd k)]. Qed.

Lemma or_new_storable db k : small_db db -> storable (default (new_system_account k 0) (db_view db !! k)).
Proof.
  intros Hdb. destruct (db_view db !! k) eqn:E; cbn [default from_option id]; [by eapply small_lookup|auto with trust].
Qed.

Lemma db_call_small db db' : small_db db -> db_call db db' -> small_db db'.
Proof.
  intros Hdb Hc. destruct Hc as [db k a Hk [Ha Hs]|db k Hk], Hdb as [Hwf Hd]; constructor; auto with trust.
  - rewrite db_store_view by done. by apply map_Forall_insert_2.
  - rewrite db_remove_view by done. by apply map_Forall_delete.
Qed.

Lemma db_calls_small db db' : small_db db -> rtc db_call db db' -> small_db db'.
Proof. intros Hdb. induction 1; eauto using db_call_small. Qed.

(** The stores of a handler. *)
Lemma db_calls_stores db writes : Forall (fun '(k, a) => arr32 k /\ storable a) writes ->
  rtc db_call db (foldl (fun db '(k, a) => db_store db k a) db writes).
Proof.
  intros Hw. revert db. induction Hw as [|[k a] writes [Hk Ha] _ IH]; intros db; cbn [foldl]; [done|].
  eapply rtc_l; [by apply CallStore|apply IH].
Qed.

(** *** Handlers *)

Lemma keys_arr32 (keys : list bytes) i k : Forall arr32 keys -> keys !! i = Some k -> arr32 k.
Proof. intros Hk Hi. by apply (proj1 (Forall_lookup _ _) Hk i). Qed.

(** The stores of a handler, one goal for each account. *)
Tactic Notation "handler_stores" open_constr(l) :=
  eapply (db_calls_stores _ l);
  repeat (apply Forall_cons_2; [split; [by eapply keys_arr32|]|]); [..|apply Forall_nil_2].

Lemma system_calls ixd metas signer keys (s s' : VmState DB) :
  small_db (vm_db s) -> Forall arr32 keys -> bytes_ok ixd ->
  system_process_instruction ixd metas signer keys s = (s', Ok tt) -> rtc db_call (vm_db s) (vm_db s').
Proof.
  intros Hdb Hkeys Hd. pose proof (small_wf _ Hdb) as Hwf. unfold system_process_instruction. rewrite pbind_Ok.
  intros (s1 & i & Hi & Hrun). unfold plift in Hi. injection Hi as <- Hi.
  apply system_from_inv in Hi as [Hok _]; [|done].
  destruct i as [n|n sp o|o|]; simpl in Hok; [| | |by prog_inv Hrun].
  - unfold process_transfer in Hrun. prog_inv Hrun. prog_clean. rewrite db_load_view in * by done.
    handler_stores [(_, _); (_, _)].
    + apply debit_storable; [by eapply small_lookup|]. u64_unfold. lia.
    + pose proof (proj1 (proj1 (or_new_storable _ a4 Hdb))). apply set_lamports_storable; [by apply or_new_storable|].
      u64_unfold. lia.
  - unfold process_create_account in Hrun. prog_inv Hrun. prog_clean. destruct Hok as (Hn & _ & Ho).
    match goal with Hf : db_view _ !! signer = Some ?fa |- _ => pose proof (small_lookup _ _ _ Hdb Hf) as Hfa end.
    handler_stores [(_, _); (_, created_account n sp o)].
    + apply debit_storable; [done|]. unfold MINIMUM_RENT_EXEMPT_BALANCE in *. u64_unfold. lia.
    + apply created_storable; [done| |done|lia]. unfold MINIMUM_RENT_EXEMPT_BALANCE in *. u64_unfold. lia.
  - unfold process_assign in Hrun. prog_inv Hrun. prog_clean.
    handler_stores [(_, _)]. apply set_owner_storable; [by eapply small_lookup|done].
Qed.

Lemma token_calls ixd metas signer keys (s s' : VmState DB) :
  small_db (vm_db s) -> arr32 signer -> Forall arr32 keys -> bytes_ok ixd ->
  token_process_instruction ixd metas signer keys s = (s', Ok tt) -> rtc db_call (vm_db s) (vm_db s').
Proof.
  intros Hdb Hs Hkeys Hd Hrun. destruct (TokenInstruction.from_data ixd) as [i|e] eqn:Hi.
  - destruct (token_handler_step _ _ _ _ _ _ _ (small_wf _ Hdb) Hs Hd Hi Hrun) as (ws & -> & _ & Hok & Hks).
    apply db_calls_stores. rewrite Forall_forall in Hok, Hks |- *. intros [k a] Hin.
    specialize (Hok _ Hin). specialize (Hks _ Hin) as [Hk Ht]. cbn beta iota in *.
    split; [by apply (proj1 (Forall_forall _ _) Hkeys)|]. split; [done|by apply token_data_small].
  - unfold token_process_instruction, pbind, plift in Hrun. by rewrite Hi in Hrun.
Qed.

(** *** Transactions *)

Lemma process_instruction_calls db ix signer keys :
  small_db db -> arr32 signer -> Forall arr32 keys -> bytes_ok (ix_data ix) ->
  rtc db_call db (process_instruction db ix signer keys).1.
Proof.
  intros Hdb Hs Hkeys Hd. destruct (process_instruction db ix signer keys) as [db' res] eqn:Hrun. cbn [fst].
  apply process_instruction_cases in Hrun as [(_ & s & s' & <- & <- & [[_ Hrun]|[_ Hrun]])|(_ & -> & _)]; [| |done].
  - by eapply system_calls.
  - by eapply token_calls.
Qed.

Context `{Sha : Sha256} `{Ed : Ed25519}.

Lemma execute_instruction_calls tx ix (s : ExecState DB) :
  small_db (es_db s) -> arr32 (tx_signer tx) -> Forall arr32 (tx_account_keys tx) -> bytes_ok (ti_data ix) ->
  rtc db_call (es_db s) (es_db (execute_instruction tx ix s).1).
Proof.
  intros Hdb Hs Hkeys Hd. unfold execute_instruction. unfold pbind at 1. cbn [ctx_log pmod].
  destruct (signer_metas_ok tx ix); cbn [negb]; [|done]. unfold pbind at 1. cbn [es_db].
  pose proof (process_instruction_calls (es_db s) (program_ix ix) _ _ Hdb Hs Hkeys Hd) as Hc.
  destruct (process_instruction (es_db s) (program_ix ix) (tx_signer tx) (tx_account_keys tx)) as [db' res].
  match goal with |- context [pbind _ (fun _ => ?k) ?s1] =>
    destruct (log_all_run (res_logs res) k s1) as (s2 & Hs2 & _ & _ & ->) end.
  cbn [es_db fst] in *. unfold pbind, consume_compute. rewrite <- Hs2 in Hc.
  destruct (_ <? _); [done|]. by destruct (res_success res).
Qed.

Lemma execute_instructions_calls tx ixs (s : ExecState DB) :
  small_db (es_db s) -> arr32 (tx_signer tx) -> Forall arr32 (tx_account_keys tx) ->
  Forall (fun ix => bytes_ok (ti_data ix)) ixs ->
  rtc db_call (es_db s) (es_db (execute_instructions tx ixs s).1).
Proof.
  intros Hdb Hs Hkeys Hd. revert s Hdb. induction Hd as [|ix ixs Hix _ IH]; intros s Hdb; [done|].
  pose proof (execute_instruction_calls tx ix s Hdb Hs Hkeys Hix) as Hc. cbn [execute_instructions]. unfold pbind.
  destruct (execute_instruction tx ix s) as [s1 [[]|err]]; cbn [fst] in *; [|done].
  etransitivity; [exact Hc|]. apply IH. by eapply db_calls_small.
Qed.

Lemma rollback_calls db0 db keys : small_db db0 -> Forall arr32 keys ->
  rtc db_call db (rollback_transaction db ((fun key => (key, db_load db0 key)) <$> keys)).
Proof.
  intros Hdb0 Hkeys. revert db. induction Hkeys as [|k keys Hk _ IH]; intros db; [done|].
  cbn [fmap list_fmap]. unfold rollback_transaction. cbn [foldl]. eapply rtc_l; [|apply IH].
  rewrite db_load_view by apply Hdb0. destruct (db_view db0 !! k) as [a|] eqn:E.
  - apply CallStore; [done|]. by eapply small_lookup.
  - by apply CallRemove.
Qed.

Lemma mutable_arr32 tx : tx_ok tx -> Forall arr32 (mutable_accounts tx).
Proof.
  intros (_ & Hs & Hkeys & _). apply Forall_forall. intros k. rewrite elem_of_mutable_accounts.
  intros [->|Hk]; [done|]. unfold write_accounts, accounts_where in Hk.
  apply list_elem_of_join in Hk as (ks & Hk & (ix & -> & _)%list_elem_of_fmap).
  apply list_elem_of_omap in Hk as (m & _ & Hm). destruct (tm_is_writable m); [|done]. by eapply keys_arr32.
Qed.

Lemma fee_payment_calls tx (s : ExecState DB) : small_db (es_db s) -> tx_ok tx ->
  rtc db_call (es_db s) (es_db (execute_fee_payment tx s).1).
Proof.
  intros Hdb (_ & Hs & _ & _ & _ & _ & _ & Hfee).
  unfold execute_fee_payment, consume_compute, ctx_log, pbind, pget, plift, pmod.
  destruct (_ <? _); [done|]. cbn [es_db]. rewrite db_load_view by apply Hdb.
  destruct (db_view (es_db s) !! tx_signer tx) as [a|] eqn:Ha; cbn [ok_or]; [|done].
  destruct (Z.ltb_spec (lamports a) (tx_fee tx)); [done|]. cbn [fst es_db].
  apply rtc_once, CallStore; [done|]. apply debit_storable; [by eapply small_lookup|]. u64_unfold. lia.
Qed.

(** Executing a transaction is a sequence of well-formed calls, whatever its
    outcome. *)
Lemma execute_transaction_calls (e : Executor DB) tx : small_db (ex_db e) -> tx_ok tx ->
  rtc db_call (ex_db e) (ex_db (execute_transaction e tx).1).
Proof.
  intros Hdb Htx. unfold execute_transaction. destruct (validate tx) as [[]|err]; [|done].
  destruct (verify_signature tx); cbn [negb]; [|done]. cbn [lock_accounts ex_db].
  pose proof (fee_payment_calls tx (mkExec (ex_db e) (ctx_new (tx_compute_budget tx))) Hdb Htx) as Hfee.
  destruct (execute_fee_payment _ _) as [s [[]|err]]; cbn [fst es_db] in Hfee; [|done].
  pose proof (db_calls_small _ _ Hdb Hfee) as Hdb1. pose proof Htx as (_ & Hs & Hkeys & _).
  pose proof (execute_instructions_calls tx (tx_instructions tx) s Hdb1 Hs Hkeys (tx_ok_data tx Htx)) as Hixs.
  destruct (execute_instructions _ _ _) as [s' [[]|err]]; cbn [fst ex_db set_db es_db consume_compute] in *.
  - by etransitivity.
  - do 2 (etransitivity; [eassumption|]). by apply rollback_calls, mutable_arr32.
Qed.

Lemma execute_sequence_calls (e : Executor DB) txs : small_db (ex_db e) -> Forall tx_ok txs ->
  rtc db_call (ex_db e) (ex_db (execute_sequence e txs).1).
Proof.
  intros Hdb Htxs. revert e Hdb. induction Htxs as [|tx txs Htx _ IH]; intros e Hdb; [done|].
  pose proof (execute_transaction_calls e tx Hdb Htx) as Hc. cbn [execute_sequence].
  destruct (execute_transaction e tx) as [e1 r]. cbn [fst] in Hc. specialize (IH e1 (db_calls_small _ _ Hdb Hc)).
  destruct (execute_sequence e1 txs). by etransitivity.
Qed.

(** *** No account disappears *)

Definition holds (db : DB) (k : bytes) : Prop := is_Some (db_view db !! k).

Lemma execute_instructions_holds tx ixs (s : ExecState DB) k :
  db_wf (es_db s) -> arr32 (tx_signer tx) -> Forall (fun ix => bytes_ok (ti_data ix)) ixs ->
  holds (es_db s) k -> holds (es_db (execute_instructions tx ixs s).1) k.
Proof.
  intros Hwf Hs Hd. revert s Hwf. induction Hd as [|ix ixs Hix _ IH]; intros s Hwf Hk; [done|].
  cbn [execute_instructions]. unfold pbind. destruct (execute_instruction tx ix s) as [s1 r] eqn:Hrun.
  apply execute_instruction_spec in Hrun as [Hwf1 Hstep]; [|done..]. cbv zeta in Hstep.
  assert (Hk1 : holds (es_db s1) k).
  { unfold holds in *. destruct r as [[]|err]; [by eapply ledger_step_keeps|].
    destruct Hstep as [->|Hstep]; [done|by eapply ledger_step_keeps]. }
  destruct r as [[]|err]; [by apply IH|done].
Qed.

Lemma execute_transaction_holds (e : Executor DB) tx k : db_wf (ex_db e) -> tx_ok tx ->
  holds (ex_db e) k -> holds (ex_db (execute_transaction e tx).1) k.
Proof.
  intros Hwf Htx Hk. unfold execute_transaction. destruct (validate tx) as [[]|err] eqn:Hval; [|done].
  destruct (verify_signature tx) eqn:Hsig; cbn [negb]; [|done]. cbn [lock_accounts ex_db].
  destruct (execute_fee_payment _ _) as [s r0] eqn:Hfee. apply fee_payment_spec in Hfee; [|done..].
  destruct r0 as [[]|err]; [|destruct Hfee as [-> _]; done]. destruct Hfee as [Hwf1 Hm].
  assert (Hk1 : holds (es_db s) k).
  { unfold fee_charged in Hm. rewrite Hval, Hsig in Hm. unfold holds in *. cbn [andb] in Hm.
    repeat (case_match; try done). injection Hm as <-. rewrite lookup_insert. by case_decide. }
  pose proof (execute_instructions_holds tx (tx_instructions tx) s k Hwf1 (proj1 (proj2 Htx)) (tx_ok_data tx Htx) Hk1) as Hk2.
  destruct (execute_instructions _ _ _) as [s' r1] eqn:Hixs.
  apply execute_instructions_spec in Hixs as [Hwf2 _]; [|done|apply Htx|by apply tx_ok_data].
  destruct r1 as [[]|err]; cbn [fst ex_db set_db es_db consume_compute] in *; [done|].
  destruct (rollback_view (es_db s) (es_db s') (mutable_accounts tx) Hwf1 Hwf2) as [_ Hv].
  unfold holds, snapshot_transaction. rewrite Hv. by case_decide.
Qed.

Lemma execute_sequence_holds (e : Executor DB) txs k : db_wf (ex_db e) -> Forall tx_ok txs ->
  holds (ex_db e) k -> holds (ex_db (execute_sequence e txs).1) k.
Proof.
  intros Hwf Htxs. revert e Hwf. induction Htxs as [|tx txs Htx _ IH]; intros e Hwf Hk; [done|].
  pose proof (execute_transaction_holds e tx k Hwf Htx Hk) as Hk1. cbn [execute_sequence].
  destruct (execute_transaction e tx) as [e1 r] eqn:E.
  destruct (execute_transaction_cases _ _ _ _ Hwf Htx E) as [Hwf1 _]. cbn [fst] in Hk1.
  specialize (IH e1 Hwf1 Hk1). by destruct (execute_sequence e1 txs).
Qed.
End Calls.

(** ** The log follows the accounts *)

Section Log.
Context `{Ser : Serde Account account_ok}.
(** serde_json writes an account whose variable-size data is at most 10 MiB in
    less than 2^32 bytes. *)
Context (json_size : forall a, storable a -> Z.of_nat (length (account_json a)) < 2 ^ 32).

(** The log is a sequence of complete records whose replay gives the accounts
    in memory, and the disk does not fail. *)
Definition logged (db : AccountsDB) : Prop :=
  exists ops, Forall op_ok ops /\ persist db = Some (encode_ops ops) /\ appends db = [] /\ map_ops ops ∅ = view db.

Lemma logged_call db db' : wf db -> logged db -> db_call db db' -> logged db'.
Proof.
  intros Hwf Hlog Hc. destruct Hc as [db k a Hk Ha|db k Hk], Hlog as (ops & Hops & Hp & Hio & Hv).
  - exists (ops ++ [OpStore k a]). split_and!.
    + apply Forall_app_2; [done|]. apply Forall_cons_2; [|done]. split; [done|]. split; [apply Ha|by apply json_size].
    + change ((persist_append (persist db) (appends db) (encode_put k a)).1 = Some (encode_ops (ops ++ [OpStore k a]))).
      by rewrite Hp, Hio, encode_ops_app, encode_ops_one.
    + change ((persist_append (persist db) (appends db) (encode_put k a)).2 = []). by rewrite Hp, Hio.
    + unfold map_ops in *. rewrite foldl_snoc, Hv. symmetry. by apply store_view, Ha.
  - cbn [db_remove accounts_db_store]. pose proof (remove_view db k Hwf) as Hr. unfold AccountsDB.remove in *.
    destruct (index db !! k) as [loc|] eqn:E; cbn [fst] in *.
    + exists (ops ++ [OpRemove k]). split_and!.
      * apply Forall_app_2; [done|]. by apply Forall_cons_2.
      * cbn [persist persist_append]. by rewrite Hp, Hio, encode_ops_app, encode_ops_one.
      * cbn [appends persist_append]. by rewrite Hp, Hio.
      * unfold map_ops in *. by rewrite foldl_snoc, Hv.
    + by exists ops.
Qed.

Lemma logged_calls db db' : small_db db -> logged db -> rtc db_call db db' -> logged db'.
Proof.
  intros Hdb Hlog Hc. induction Hc as [|db db1 db2 Hc _ IH]; [done|].
  apply IH; [by eapply db_call_small|]. eapply logged_call; [apply Hdb|done..].
Qed.

(** The calls the node makes. *)
Definition call_ok (op : DbOp) : Prop :=
  match op with OpStore k a => arr32 k /\ storable a | OpRemove k => arr32 k end.

Lemma call_op_ok op : call_ok op -> op_ok op.
Proof. destruct op as [k a|k]; [|done]. intros [Hk Ha]. split; [done|]. split; [apply Ha|by apply json_size]. Qed.

Lemma calls_op_ok calls : Forall call_ok calls -> Forall op_ok calls.
Proof. intros Hc. eapply Forall_impl; [exact Hc|apply call_op_ok]. Qed.

Lemma map_ops_small calls m : Forall call_ok calls -> map_Forall (fun _ a => data_small (data a)) m ->
  map_Forall (fun _ a => data_small (data a)) (map_ops calls m).
Proof.
  intros Hc. revert m. induction Hc as [|op calls Hop _ IH]; intros m Hm; [done|]. apply IH.
  destruct op as [k a|k]; cbn [map_op]; [|by apply map_Forall_delete].
  apply map_Forall_insert_2; [apply Hop|done].
Qed.

(** Opening a log of complete records. *)
Lemma open_logged ops : Forall op_ok ops ->
  map_Forall (fun _ a => data_small (data a)) (map_ops ops ∅) ->
  small_db (open (encode_ops ops)) /\ logged (open (encode_ops ops)).
Proof.
  intros Hops Hsmall. destruct (open_ops_view ops Hops) as [Hwf Ho]. split.
  - split; [done|]. change (map_Forall (fun _ a => data_small (data a)) (view (open (encode_ops ops)))). by rewrite Ho.
  - exists ops. split_and!; [done|done|done|]. by rewrite Ho.
Qed.

(** Reopening gives the accounts in memory, and a log that is still faithful. *)
Lemma logged_reopen db : small_db db -> logged db ->
  exists log, persist db = Some log /\ small_db (open log) /\ logged (open log) /\ view (open log) = view db /\
    persist (open log) = Some log.
Proof.
  intros Hdb (ops & Hops & Hp & _ & Hv). destruct (open_ops_view ops Hops) as [Hwf Ho]. rewrite Hv in Ho.
  destruct (open_logged ops Hops) as [Hs Hl]; [rewrite Hv; apply Hdb|]. by exists (encode_ops ops).
Qed.

(** Cutting a log leaves the state after the records that are complete. *)
Lemma cut_log_prefix ops n : Forall op_ok ops ->
  exists d, longest_within (fun l => length (encode_ops l)) n ops d /\
    wf (open (take n (encode_ops ops))) /\ view (open (take n (encode_ops ops))) = map_ops d ∅.
Proof.
  assert (Hmono : forall l pre : list DbOp, pre `prefix_of` l -> (length (encode_ops pre) <= length (encode_ops l))%nat)
    by (intros l pre [k ->]; rewrite encode_ops_app, length_app; lia).
  induction ops as [|op ops IH] using rev_ind; intros Hops.
  { exists []. change (encode_ops []) with ([] : bytes). rewrite take_nil.
    split; [apply longest_all; [auto|cbn; lia]|]. by apply (open_ops_view []). }
  pose proof Hops as [Hops' Hop]%Forall_app. apply Forall_cons in Hop as [Hop _].
  destruct (decide (length (encode_ops (ops ++ [op])) <= n)%nat) as [Hn|Hn].
  { exists (ops ++ [op]). split; [apply longest_all; auto|]. rewrite take_ge by done. by apply open_ops_view. }
  destruct (decide (n < length (encode_ops ops))%nat) as [Hlt|Hge].
  - destruct (IH Hops') as (d & Hd & Ho). exists d. split; [by apply longest_snoc; [|lia]|].
    by rewrite encode_ops_app, take_app_le by lia.
  - exists ops. split; [apply longest_snoc; [apply longest_all; [auto|lia]|lia]|].
    rewrite encode_ops_app, encode_ops_one in *. rewrite length_app in Hn. rewrite take_app_ge by lia.
    apply open_view; [done|]. intros fuel. apply replay_torn; [done|lia].
Qed.

Lemma logged_fresh : small_db (open []) /\ logged (open []).
Proof. apply (open_logged []); [constructor|apply map_Forall_empty]. Qed.

(** Genesis is a sequence of calls too. *)
Lemma apply_genesis_calls (db : AccountsDB) cfg : genesis_ok cfg -> rtc db_call db (apply_genesis db cfg).
Proof.
  unfold genesis_ok, apply_genesis. intros Hok. revert db.
  induction Hok as [|a l [Hk Hl] _ IH]; intros db; cbn [foldl]; [done|].
  destruct (db_exists _ _); [apply IH|]. eapply rtc_l; [|apply IH]. apply CallStore; [done|auto with trust].
Qed.

(** ** A torn log *)

(** [AccountsDB::open] stops at a torn record but neither truncates the file nor
    skips it, and appends behind it: while the bytes appended are fewer than the
    torn record still announces, everything stored after the restart is lost at
    the next one. *)
Lemma replay_torn_put fuel db k a n tail : op_ok (OpStore k a) -> (37 <= n)%nat ->
  (n + length tail < length (encode_put k a))%nat ->
  replay_loop fuel db (take n (encode_put k a) ++ tail) = db.
Proof.
  intros ([Hk _] & Ha & Hj) Hn Hlen. destruct fuel as [|fuel]; [done|].
  rewrite length_encode_put in Hlen by done. destruct (put_fields k a [] Hk Hj) as (_ & H2 & _). rewrite app_nil_r in H2.
  assert (Hl : length (take n (encode_put k a)) = n) by (rewrite length_take, length_encode_put by done; lia).
  assert (H3 : slice (take n (encode_put k a) ++ tail) 33 37 = slice (encode_put k a) 33 37).
  { rewrite <- (slice_take (encode_put k a) n) by lia. unfold slice. rewrite drop_app_le by lia.
    apply take_app_le. rewrite length_drop. lia. }
  assert (Hx : length (take n (encode_put k a) ++ tail) = (n + length tail)%nat) by (rewrite length_app; lia).
  destruct (take n (encode_put k a) ++ tail) as [|tag l] eqn:E; [cbn in Hx; lia|].
  assert (tag = RECORD_PUT) as ->.
  { destruct n as [|n]; [lia|]. unfold encode_put in E. cbn in E. congruence. }
  cbn [replay_loop]. rewrite Z.eqb_refl, Hx, H3, H2, Nat2Z.id.
  destruct (Nat.ltb_spec (n + length tail) (1 + 32 + 4)); [done|].
  by destruct (Nat.ltb_spec (n + length tail) (37 + length (account_json a))); [|lia].
Qed.

Lemma torn_tail_hides_later_stores ops k a n later :
  Forall op_ok ops -> op_ok (OpStore k a) -> (37 <= n)%nat ->
  (n + length (encode_ops later) < length (encode_put k a))%nat ->
  let log := encode_ops ops ++ take n (encode_put k a) in
  view (open log) = map_ops ops ∅ /\ view (open (log ++ encode_ops later)) = map_ops ops ∅.
Proof.
  intros Hops Hop Hn Hlen log. unfold log. rewrite <- app_assoc. split.
  - rewrite <- (app_nil_r (take n _)). apply open_view; [done|]. intros fuel. apply replay_torn_put; [done..|cbn [length]; lia].
  - apply open_view; [done|]. intros fuel. by apply replay_torn_put.
Qed.

(** An append that fails half-way does the same while the node runs: the error is
    only logged, the accounts in memory go on, and while the bytes appended later
    are fewer than the torn record announces a restart forgets all of them. *)
Lemma failed_append_hides_later_stores ops k a n later :
  Forall op_ok ops -> op_ok (OpStore k a) -> Forall op_ok later -> (37 <= n)%nat ->
  (n + length (encode_ops later) < length (encode_put k a))%nat ->
  let db := run_ops later (store (open_on [AppendFailed n] (encode_ops ops)) k a) in
  view db = map_ops later (<[k:=a]> (map_ops ops ∅)) /\
  exists log, persist db = Some log /\ view (open log) = map_ops ops ∅.
Proof.
  intros Hops Hop Hlater Hn Hlen db. destruct (open_ops_view ops Hops) as [Hwf Hv].
  set (db0 := open_on [AppendFailed n] (encode_ops ops)) in *.
  change (wf db0) in Hwf. change (view db0 = map_ops ops ∅) in Hv.
  assert (Hwf1 : wf (store db0 k a)) by (apply store_wf; [done|apply Hop]). split.
  { unfold db. rewrite run_ops_view, store_view, Hv; [done|done|apply Hop|done|done]. }
  assert (Hlog : exists rest, persist db = Some ((encode_ops ops ++ take n (encode_put k a)) ++ rest) /\
    (length rest <= length (encode_ops later))%nat).
  { unfold db. assert (E : persist (store db0 k a) = Some (encode_ops ops ++ take n (encode_put k a))) by done.
    assert (Eio : appends (store db0 k a) = []) by done. revert E Eio. generalize (store db0 k a) as db1.
    generalize (encode_ops ops ++ take n (encode_put k a)) as log. clear.
    induction later as [|op later IH]; intros log db1 E Eio; [exists []; rewrite app_nil_r; by split|].
    cbn [run_ops foldl]. fold (run_ops later (run_op db1 op)). rewrite encode_ops_cons, length_app.
    assert (Hc : (persist (run_op db1 op) = Some (log ++ encode_op op) \/ persist (run_op db1 op) = Some log) /\
      appends (run_op db1 op) = []).
    { destruct op as [k0 a0|k0]; cbn [run_op encode_op].
      - split; [left|]; cbn [persist appends store]; by rewrite E, Eio.
      - unfold AccountsDB.remove. destruct (index db1 !! k0); cbn [fst persist appends]; rewrite ?E, ?Eio; by eauto. }
    destruct Hc as [[E'|E'] Eio']; destruct (IH _ _ E' Eio') as (rest & -> & Hl).
    - exists (encode_op op ++ rest). rewrite <- app_assoc, length_app. split; [done|lia].
    - exists rest. split; [done|lia]. }
  destruct Hlog as (rest & -> & Hr). eexists. split; [done|]. rewrite <- app_assoc.
  apply open_view; [done|]. intros fuel. apply replay_torn_put; [done|done|lia].
Qed.
End Log.

(** ** A produced block *)

Section Produced.
Context `{Sha : Sha256} `{Ed : Ed25519} `{Ser : !Serde Account account_ok} `{Json : !Serde BlockRecord record_ok}.
Context (threads : ExecutionBatch -> list Transaction) (keys_of : AccountsDB -> list bytes).
Context (threads_perm : forall b, threads b ≡ₚ batch_transactions b).
Context (keys_iterate : forall db, iteration_of db (keys_of db)).

Lemma produce_calls s now io :
  small_db (ex_db (v_executor s)) -> pool_ok (v_mempool s) -> Forall tx_ok (drain (v_mempool s) MAX_TXS_PER_BLOCK).2 ->
  let s' := (produce_block threads keys_of s now io).1 in
  rtc db_call (ex_db (v_executor s)) (ex_db (v_executor s')) /\
  forall k, holds (ex_db (v_executor s)) k -> holds (ex_db (v_executor s')) k.
Proof.
  intros Hdb Hpool Htxs.
  destruct (decide (v_last_produced_slot s = Some (v_current_slot s))) as [Hd|Hd].
  { unfold produce_block. by rewrite bool_decide_eq_true_2. }
  pose proof (produce_fresh threads keys_of threads_perm keys_iterate s now io (small_wf _ Hdb) Hpool Htxs Hd) as Hf.
  destruct (produce_block threads keys_of s now io) as [s' out]. cbn [fst].
  destruct Hf as (_ & _ & _ & _ & (order & Ho & ->) & _).
  assert (Hok : Forall tx_ok order) by (by rewrite Ho). split.
  - by apply execute_sequence_calls.
  - intros k. by apply execute_sequence_holds; [apply Hdb|].
Qed.
End Produced.
