(* ===== verification/Typed.v ===== *)
(** * Types of the records a node writes

    The fields of a block record (src/crates/blockstore/src/record.rs) come from
    the whole node: the slot clock and the PoH hasher, the mempool, the batches,
    the state root and the head of the ledger (src/validator/src/main.rs,
    [produce_block]).  The file shows that each of them has the type of its
    field, so that the record [produce_block] builds is a value of the Rust
    struct; the lives of a node in [Restart] keep this of every ledger record. *)

From S2P Require Import Prelude Crypto Account Store AccountsDB Merkle Transaction Scheduler Executor Mempool Poh Leader Blockstore Validator.
From stdpp Require Import list.
Open Scope Z_scope.

Section Typed.
Context `{Sha : Sha256} `{Ed : Ed25519} `{Ser : !Serde Account account_ok} `{Json : !Serde BlockRecord record_ok}.

(** ** State roots *)

Lemma next_level_arr32 l : Forall arr32 l -> Forall arr32 (next_level l).
Proof.
  revert l. fix IH 1. intros [|a [|b l]] Hl; [done..|].
  apply Forall_cons in Hl as [_ Hl]. apply Forall_cons in Hl as [_ Hl].
  cbn [next_level]. apply Forall_cons_2; [apply sha256_arr32|by apply IH].
Qed.

Lemma compute_arr32 l : Forall arr32 l -> arr32 (compute l).
Proof.
  assert (Hz : arr32 (fill32 0)) by (by apply fill32_ok).
  assert (Hloop : forall fuel l, Forall arr32 l -> Forall arr32 (merkle_loop fuel l)).
  { clear l. induction fuel as [|fuel IH]; intros l Hl; cbn [merkle_loop]; [done|].
    destruct (_ <? _)%nat; [|done]. by apply IH, next_level_arr32. }
  intros Hl. unfold compute. destruct l as [|a [|b l]]; [done|by apply Forall_cons in Hl as [? _]|].
  specialize (Hloop (length (a :: b :: l)) _ Hl). by destruct Hloop.
Qed.

Lemma state_root_arr32 (db : AccountsDB) keys : arr32 (compute_state_root db keys).
Proof.
  unfold compute_state_root. apply compute_arr32. rewrite sort_by_perm. apply Forall_forall.
  intros h (k & _ & Hk)%list_elem_of_omap. destruct (load db k); [|done]. injection Hk as <-. apply sha256_arr32.
Qed.

(** ** The other fields *)

Lemma head_hash_arr32 rs : chained GENESIS_PARENT rs -> arr32 (head_hash rs).
Proof.
  induction rs as [|r rs _] using rev_ind; intros Hc; [by apply fill32_ok|].
  apply chained_snoc in Hc as (_ & _ & Hv%bool_decide_eq_true). rewrite head_tip, tip_snoc, Hv. apply sha256_arr32.
Qed.

Lemma run_batches_entries threads fuel sched (e : Executor AccountsDB) ec ok : is_u64 ec ->
  is_u64 (run_batches threads fuel sched e ec ok).1.2.
Proof.
  revert sched e ec ok. induction fuel as [|fuel IH]; intros sched e ec ok Hec; [done|]. cbn [run_batches].
  destruct (next_batch sched) as [sched' [b|]]; [|done]. destruct (execute_sequence e (threads b)) as [e' rs].
  apply IH, wrap64_u64.
Qed.

(** The PoH clock shows digests. *)
Definition poh_ok (h : PohHasher) : Prop := arr32 (current_hash h).

Lemma hash_n_ok h n : poh_ok h -> poh_ok (hash_n h n).
Proof.
  intros Hh. unfold hash_n. induction (Z.to_nat n) as [|k IH]; [done|]. apply sha256_arr32.
Qed.

Lemma process_tick_poh s : poh_ok (v_poh s) -> poh_ok (v_poh (process_tick s)).
Proof.
  intros Hs. unfold process_tick. pose proof (hash_n_ok _ HASHES_PER_TICK Hs) as Hh.
  revert Hh. generalize (hash_n (v_poh s) HASHES_PER_TICK). intros h Hh. by destruct (TICKS_PER_SLOT <=? _).
Qed.

(** ** The record of the next block *)

Context (threads : ExecutionBatch -> list Transaction) (keys_of : AccountsDB -> list bytes).

Lemma next_record_ok s now : vinv s -> v_current_slot s < U64_MAX -> pool_ok (v_mempool s) ->
  Forall tx_ok (drain (v_mempool s) MAX_TXS_PER_BLOCK).2 -> poh_ok (v_poh s) -> is_u64 now ->
  record_ok (next_record threads keys_of s now).
Proof.
  intros [Hl _ _ Hs Hh _] Hlt Hpool Htxs Hpoh Hnow. unfold next_record.
  pose proof (drain_cases (v_mempool s) MAX_TXS_PER_BLOCK Hpool) as Hd.
  destruct (drain (v_mempool s) MAX_TXS_PER_BLOCK) as [pool txs]. cbn [snd] in *.
  destruct Hd as (_ & _ & _ & Hlen & _). unfold MAX_TXS_PER_BLOCK in Hlen.
  pose proof (run_batches_entries threads (length (batches (schedule (enqueue_batch default_solana txs))))
    (schedule (enqueue_batch default_solana txs)) (v_executor s) 0 0 is_u64_0) as Hec.
  destruct (run_batches _ _ _ _ _ _) as [[e ec] ok]. cbn [fst snd] in Hec.
  unfold record_ok, record_new. cbn. split_and!; [u64_unfold; lia| |..].
  - u64_unfold. case_bool_decide; lia.
  - by apply head_hash_arr32, Hl.
  - apply sha256_arr32.
  - done.
  - apply state_root_arr32.
  - done.
  - u64_unfold. lia.
  - done.
  - done.
Qed.
End Typed.
