(* ===== verification/Startup.v ===== *)
(** * Starting and restarting

    src/validator/src/main.rs, [main] from the command line to the tasks, and
    the files of src/validator/src/genesis.rs: the identity, the genesis file,
    the accounts log and the ledger, in the order [main] opens them, with the
    exits for benchmarks, [--init-genesis] and errors: of the identity, of
    reading, parsing and writing the genesis file, of opening either log, of
    the peers and of the sockets.  The file system is a map from paths to
    contents; serde_json, the hex decoder, the address parser, the random seed
    and the outcome of the system calls are parameters. *)

From S2P Require Import Prelude Crypto Account Store AccountsDB Merkle Transaction Scheduler Executor Mempool Poh Tower Leader Blockstore Validator Gossip Shred Erasure Neighborhood Propagate Net Network Base58 Rpc Server Node Durable.
From stdpp Require Import list strings.
Open Scope Z_scope.

(** [struct Args] *)
Record Args := mkArgs {
  ar_identity : string;
  ar_rpc_port : Z;
  ar_gossip_port : Z;
  ar_tpu_port : Z;
  ar_mining : bool;
  ar_genesis_hash : string;
  ar_rpc_enabled : bool;
  ar_bench : bool;
  ar_ledger : string;
  ar_genesis : string;
  ar_init_genesis : string;
  ar_peers : list string
}.

(** Regular files by path. *)
Notation Files := (gmap string bytes).

Fixpoint ends_with_slash (s : string) : bool :=
  match s with
  | EmptyString => false
  | String c EmptyString => Ascii.eqb c "/"
  | String _ s => ends_with_slash s
  end.

(** [Path::join] of a relative name *)
Definition path_join (dir name : string) : string :=
  match dir with
  | EmptyString => name
  | _ => if ends_with_slash dir then dir +:+ name else dir +:+ "/" +:+ name
  end.

(** The logs under the ledger directory. *)
Definition accounts_path (args : Args) : string := path_join (path_join (ar_ledger args) "accounts") "accounts.log".
Definition blocks_path (args : Args) : string := path_join (ar_ledger args) "blocks.log".

(** What writing a whole file does: everything is written, an error comes after
    the first [n] bytes, or the file cannot be created. *)
Inductive FileWrite := FileWritten | FileStops (n : nat) | FileRefused.

(** What the process gets from outside: the random seed, the clock, the
    address each socket was bound to ([None] when binding fails), the outcome of
    writing a genesis file, whether the accounts log and the ledger can be
    opened, and what the disk does to appends to the accounts log. *)
Record World := mkWorld {
  w_random : bytes;
  w_now : Z;
  w_gossip : option (IpAddr * Z);
  w_tpu : option (IpAddr * Z);
  w_genesis_write : FileWrite;
  w_accounts_open : bool;
  w_ledger_open : bool;
  w_appends : list AppendOutcome
}.

(** [to_gossip_addr], [to_socket_addr] of network.rs *)
Definition to_gossip_addr (addr : IpAddr * Z) : SocketAddr :=
  match addr.1 with
  | IpV4 octets => mkAddr octets addr.2
  | IpV6 => mkAddr [0; 0; 0; 0] addr.2
  end.
Definition to_socket_addr (addr : SocketAddr) : IpAddr * Z := (IpV4 (sa_ip addr), sa_port addr).

Lemma gossip_addr_roundtrip addr : to_gossip_addr (to_socket_addr addr) = addr.
Proof. by destruct addr. Qed.

(** Why [main] returns an error. *)
Inductive StartError :=
| BadIdentity | GenesisUnreadable | GenesisInvalid | GenesisEncodeFailed | GenesisUnwritten
| AccountsUnopened | BadPeer (e : PeerError) | LedgerUnopened | BindFailed.

(** The values of the Rust type. *)
Definition config_ok (cfg : GenesisConfig) : Prop :=
  genesis_ok cfg /\ Forall (fun v => arr32 (gv_identity v) /\ is_u64 (gv_stake v)) (gc_validators cfg).

(** [.map(|p| parse_peer(p)).collect::<Result<_>>()] *)
Fixpoint collect {A B E} (f : A -> result B E) (l : list A) : result (list B) E :=
  match l with
  | [] => Ok []
  | x :: l =>
      match f x with
      | Err e => Err e
      | Ok y => match collect f l with Err e => Err e | Ok ys => Ok (y :: ys) end
      end
  end.

Section Main.
Context `{Sha : Sha256} `{Ed : Ed25519} `{Ser : !Serde Account account_ok} `{Json : !Serde BlockRecord record_ok}
  `{GJson : !Serde GenesisConfig config_ok}.
(** [SigningKey::from_bytes], [hex::decode], [str::parse::<SocketAddr>], the
    JSON byte array of an identity file, and [CARGO_PKG_VERSION]. *)
Context (key_from_seed : bytes -> SigningKey) (hex_decode : string -> option bytes)
        (parse_addr : string -> option (IpAddr * Z)) (parse_bytes : bytes -> option bytes) (version : string).

(** [GenesisConfig::from_json], [from_file] *)
Definition from_json (json : bytes) : result GenesisConfig StartError := ok_or (from_slice json) GenesisInvalid.
Definition from_file (fs : Files) (path : string) : result GenesisConfig StartError :=
  match fs !! path with
  | None => Err GenesisUnreadable
  | Some raw => from_json raw
  end.

(** [GenesisConfig::to_json], [write_file] *)
Definition to_json (cfg : GenesisConfig) : result bytes StartError := ok_or (to_vec cfg) GenesisEncodeFailed.
Definition write_file (cfg : GenesisConfig) (fs : Files) (path : string) (io : FileWrite)
    : Files * result unit StartError :=
  match to_json cfg with
  | Err e => (fs, Err e)
  | Ok json =>
      match io with
      | FileWritten => (<[path := json]> fs, Ok tt)
      | FileStops n => (<[path := take n json]> fs, Err GenesisUnwritten)
      | FileRefused => (fs, Err GenesisUnwritten)
      end
  end.

Definition identity_file (fs : Files) (path : string) : option (option bytes) := parse_bytes <$> fs !! path.

(** The genesis [main] boots from. *)
Definition load_genesis (args : Args) (identity : bytes) (fs : Files) : result GenesisConfig StartError :=
  if String.eqb (ar_genesis args) "" then Ok (genesis_single identity) else from_file fs (ar_genesis args).

(** How [main] ends, or the node whose tasks it starts. *)
Inductive Started := Exited (r : result unit StartError) | Benchmarks (key : SigningKey) | Aborted | Running (n : Node).

(** The logs a node has on disk. *)
Definition set_logs (args : Args) (fs : Files) (accounts blocks : bytes) : Files :=
  <[blocks_path args := blocks]> (<[accounts_path args := accounts]> fs).

(** [main] *)
Definition main (args : Args) (w : World) (fs : Files) : Files * Started :=
  match load_identity hex_decode (identity_file fs) (ar_identity args) (w_random w) with
  | None => (fs, Exited (Err BadIdentity))
  | Some seed =>
      let signing_key := key_from_seed seed in
      let identity := verifying_key signing_key in
      if ar_bench args then (fs, Benchmarks signing_key) else
      if negb (String.eqb (ar_init_genesis args) "") then
        let '(fs, r) := write_file (genesis_single identity) fs (ar_init_genesis args) (w_genesis_write w) in
        (fs, Exited r)
      else
      match load_genesis args identity fs with
      | Err e => (fs, Exited (Err e))
      | Ok cfg =>
          if negb (w_accounts_open w) then (fs, Exited (Err AccountsUnopened)) else
          let opened := open_on (w_appends w) (default [] (fs !! accounts_path args)) in
          let accounts := apply_genesis opened cfg in
          let accounts_log := default [] (persist accounts) in
          match collect (parse_peer hex_decode parse_addr) (ar_peers args) with
          | Err e => (<[accounts_path args := accounts_log]> fs, Exited (Err (BadPeer e)))
          | Ok peers =>
              if negb (w_ledger_open w) then (<[accounts_path args := accounts_log]> fs, Exited (Err LedgerUnopened)) else
              let blocks := default [] (fs !! blocks_path args) in
              let fs' := set_logs args fs accounts_log (bs_file (open_ledger blocks)) in
              match w_gossip w, w_tpu w with
              | Some gossip, Some tpu =>
                  match node_start (mkBoot identity signing_key cfg opened (to_gossip_addr gossip) (to_gossip_addr tpu)
                                      (ar_rpc_port args) version
                                      (w_now w) peers (ar_mining args) (ar_rpc_enabled args)) blocks with
                  | Some n => (fs', Running n)
                  | None => (fs', Aborted)
                  end
              | _, _ => (fs', Exited (Err BindFailed))
              end
          end
      end
  end.

(** ** Genesis files *)

Lemma genesis_single_ok identity : arr32 identity -> config_ok (genesis_single identity).
Proof.
  intros Hid. split.
  - repeat (apply Forall_cons_2; [split; [by apply fill32_ok|u64_unfold; cbn; lia]|]). apply Forall_nil_2.
  - apply Forall_cons_2; [|apply Forall_nil_2]. split; [done|]. u64_unfold. cbn. lia.
Qed.

(** [--init-genesis] writes one file and exits, and a validator that is
    given that file boots from exactly the genesis of the identity that wrote
    it, whatever its own identity. *)
Theorem init_genesis_roundtrip args w fs seed args' identity' :
  load_identity hex_decode (identity_file fs) (ar_identity args) (w_random w) = Some seed ->
  ar_bench args = false -> ar_init_genesis args <> "" -> w_genesis_write w = FileWritten ->
  ar_genesis args' = ar_init_genesis args ->
  let identity := verifying_key (key_from_seed seed) in
  exists json, main args w fs = (<[ar_init_genesis args := json]> fs, Exited (Ok tt)) /\
    load_genesis args' identity' (<[ar_init_genesis args := json]> fs) = Ok (genesis_single identity).
Proof.
  intros Hid Hb Hi Hw Hg identity. unfold main. rewrite Hid, Hb, (proj2 (String.eqb_neq _ _) Hi). cbn [negb].
  destruct (serde_roundtrip (genesis_single identity)) as (json & Hj & Hback);
    [apply genesis_single_ok, verifying_key_arr32|].
  exists json. fold identity. unfold write_file, to_json. rewrite Hj, Hw. split; [done|].
  unfold load_genesis. rewrite Hg, (proj2 (String.eqb_neq _ _) Hi). unfold from_file, from_json.
  by rewrite lookup_insert_eq, Hback.
Qed.
End Main.

(** ** The start-up banner *)

(** [{:>28}] *)
Definition pad_left (width : nat) (s : string) : string :=
  String.string_of_list_ascii (replicate (width - String.length s) " "%char) +:+ s.

(** A row of the table. *)
Definition info_row (label value : string) : string := "│ " +:+ label +:+ pad_left 28 value +:+ " │".

(** [print_validator_info]: the rows of the table. *)
Definition print_validator_info `{Sha256} (s : ValidatorState) : list string :=
  [info_row "Slot:         " (dec (v_current_slot s));
   info_row "Block Height: " (dec (v_block_height s));
   info_row "Leader:       " (if v_is_leader s then "true" else "false");
   info_row "Accounts:     " (dec (account_count (ex_db (v_executor s))));
   info_row "Mempool:      " (dec (Z.of_nat (pool_len (v_mempool s))));
   info_row "PoH Hashes:   " (dec (hash_count (v_poh s)));
   info_row "Tower Nodes:  " (dec (Z.of_nat (ts_nodes (tower_stats (v_tower s)))));
   info_row "Ledger Blocks:" (dec (Z.of_nat (ledger_len (v_ledger s))))].

(** ** Paths *)

Lemma list_ascii_app a b :
  String.list_ascii_of_string (a +:+ b) = String.list_ascii_of_string a ++ String.list_ascii_of_string b.
Proof.
  induction a as [|c a IH]; [done|].
  change (c :: String.list_ascii_of_string (a +:+ b) = c :: String.list_ascii_of_string a ++ String.list_ascii_of_string b).
  by rewrite IH.
Qed.

Lemma path_join_suffix dir name :
  exists pre, String.list_ascii_of_string (path_join dir name) = pre ++ String.list_ascii_of_string name.
Proof.
  unfold path_join. destruct dir as [|c dir]; [by exists []|]. destruct (ends_with_slash _).
  - eexists. apply list_ascii_app.
  - exists (String.list_ascii_of_string (String c dir) ++ String.list_ascii_of_string "/").
    by rewrite !list_ascii_app, <- app_assoc.
Qed.

Lemma accounts_blocks_apart args : accounts_path args <> blocks_path args.
Proof.
  unfold accounts_path, blocks_path. intros E. apply (f_equal String.list_ascii_of_string) in E.
  destruct (path_join_suffix (path_join (ar_ledger args) "accounts") "accounts.log") as [p1 E1].
  destruct (path_join_suffix (ar_ledger args) "blocks.log") as [p2 E2]. rewrite E1, E2 in E.
  apply (f_equal reverse) in E. rewrite !reverse_app in E. by vm_compute in E.
Qed.
