(* ===== verification/Restart.v ===== *)
(** * The life of a node over its files

    A node starts on a fresh ledger directory, takes steps, is stopped between
    two steps and started again by [main] (src/validator/src/main.rs) over the
    files it left: the accounts log, the ledger, the genesis and the identity.
    The invariant of that life says that the files describe the node exactly,
    which gives the types of everything in the ledger and the effect of a
    restart. *)

From S2P Require Import Prelude Crypto Account Store AccountsDB Merkle Transaction Scheduler Executor Mempool Poh Tower Leader Blockstore Validator Gossip Shred Erasure Neighborhood Propagate Net Network Base58 Rpc Server Node Durable Typed Startup.
From stdpp Require Import list strings.
Open Scope Z_scope.

Definition node_db `{Ed25519} (n : Node) : AccountsDB := ex_db (v_executor (nd_state n)).
Definition node_ledger `{Ed25519} (n : Node) : Blockstore := v_ledger (nd_state n).

(** Neither the genesis file nor the identity file is one of the logs. *)
Definition paths_apart (args : Args) : Prop :=
  forall p, p = ar_genesis args \/ p = ar_identity args -> p <> accounts_path args /\ p <> blocks_path args.

Section Start.
Context `{Sha : Sha256} `{Ed : Ed25519} `{Ser : !Serde Account account_ok} `{Json : !Serde BlockRecord record_ok}
  `{GJson : !Serde GenesisConfig config_ok}.
Context (key_from_seed : bytes -> SigningKey) (hex_decode : string -> option bytes)
        (parse_addr : string -> option (IpAddr * Z)) (parse_bytes : bytes -> option bytes) (version : string).
Local Notation boot := (main key_from_seed hex_decode parse_addr parse_bytes version).

(** Where a node resumes. *)
Definition resumes (s : ValidatorState) : Prop :=
  match last_block (v_ledger s) with
  | Some last => v_current_slot s = wrap64 (br_slot last + 1) /\ v_block_height s = wrap64 (br_height last + 1) /\
                 current_hash (v_poh s) = br_poh_hash last
  | None => v_current_slot s = 0 /\ v_block_height s = 0 /\ current_hash (v_poh s) = from_seed "genesis"
  end.

(** What [node_start] builds; it never fails. *)
Lemma node_start_parts b log : exists n, node_start b log = Some n /\
  node_db n = apply_genesis (bt_accounts b) (bt_genesis b) /\ node_ledger n = open_ledger log /\
  v_mempool (nd_state n) = default_pool /\ v_identity (nd_state n) = bt_identity b /\ resumes (nd_state n).
Proof.
  unfold node_start, network_start. destruct (single_tree (bt_identity b)) as (t & -> & _).
  unfold validator_new. set (vs := match genesis_stakes (bt_genesis b) with [] => _ | _ => _ end).
  assert (Hl : is_Some (leader_new vs 4 432000)) by (unfold vs; destruct (genesis_stakes _); by eexists).
  destruct Hl as [ls ->]. cbn [mbind option_bind].
  unfold resumes, node_db, node_ledger.
  destruct (last_block (open_ledger log)) as [r|] eqn:Hlast; eexists; (split; [reflexivity|]);
    cbn [nd_state v_ledger v_executor v_mempool v_identity v_poh]; rewrite Hlast; done.
Qed.

(** What the files and the command line must hold for [main] to get to the
    tasks, given sockets; [P] is asked of the genesis. *)
Record configured (args : Args) (fs : Files) (P : GenesisConfig -> Prop) : Prop := {
  cf_bench : ar_bench args = false;
  cf_init : ar_init_genesis args = "";
  cf_identity random : is_Some (load_identity hex_decode (identity_file parse_bytes fs) (ar_identity args) random);
  cf_genesis identity : exists cfg, load_genesis args identity fs = Ok cfg /\ P cfg;
  cf_peers : exists peers, collect (parse_peer hex_decode parse_addr) (ar_peers args) = Ok peers
}.

(** Sockets and logs can be opened. *)
Definition usable (w : World) : Prop :=
  is_Some (w_gossip w) /\ is_Some (w_tpu w) /\ w_accounts_open w = true /\ w_ledger_open w = true.

Lemma main_starts args fs w P : configured args fs P -> usable w ->
  exists cfg n seed, P cfg /\ load_genesis args (verifying_key (key_from_seed seed)) fs = Ok cfg /\
    load_identity hex_decode (identity_file parse_bytes fs) (ar_identity args) (w_random w) = Some seed /\
    boot args w fs = (set_logs args fs (default [] (persist (node_db n))) (bs_file (node_ledger n)), Running n) /\
    node_db n = apply_genesis (open_on (w_appends w) (default [] (fs !! accounts_path args))) cfg /\
    node_ledger n = open_ledger (default [] (fs !! blocks_path args)) /\
    v_mempool (nd_state n) = default_pool /\ v_identity (nd_state n) = verifying_key (key_from_seed seed) /\
    resumes (nd_state n) /\
    exists b, node_start b (default [] (fs !! blocks_path args)) = Some n /\
      bt_accounts b = open_on (w_appends w) (default [] (fs !! accounts_path args)) /\ bt_genesis b = cfg.
Proof.
  intros [Hb Hi Hid Hg [peers Hp]] ([g Hgo] & [t Htp] & Hao & Hlo). destruct (Hid (w_random w)) as [seed Hs].
  destruct (Hg (verifying_key (key_from_seed seed))) as (cfg & Hcfg & HP).
  unfold main. rewrite Hs, Hb, Hi, Hcfg, Hao, Hp, Hlo, Hgo, Htp. cbn [String.eqb negb].
  set (b := mkBoot _ _ _ _ _ _ _ _ _ _ _ _).
  destruct (node_start_parts b (default [] (fs !! blocks_path args))) as (n & Hn & E1 & E2 & E3 & E4 & E5).
  exists cfg, n, seed. rewrite Hn, E1, E2. split_and!; try done. by exists b.
Qed.

(** Conversely, a node that runs was configured. *)
Lemma main_running args fs w fs' n : boot args w fs = (fs', Running n) -> configured args fs (fun _ => True) /\ usable w.
Proof.
  unfold main. destruct (load_identity _ _ _ _) as [seed|] eqn:Hs; [|done].
  destruct (ar_bench args) eqn:Hb; [done|]. destruct (String.eqb_spec (ar_init_genesis args) "") as [Hi|Hi].
  2: { cbn [negb]. destruct (write_file _ _ _ _). done. }
  cbn [negb]. destruct (load_genesis args _ fs) as [cfg|] eqn:Hg; [|done].
  destruct (w_accounts_open w) eqn:Hao; [|done]. cbn [negb].
  destruct (collect _ _) as [peers|] eqn:Hp; [|done]. destruct (w_ledger_open w) eqn:Hlo; [|done]. cbn [negb].
  destruct (w_gossip w) as [g|] eqn:Hgo; [|done]. destruct (w_tpu w) as [t|] eqn:Htp; [|done]. intros _.
  split; [|unfold usable; rewrite Hgo, Htp; by eauto]. constructor; [done|done| | |by exists peers].
  - intros random. unfold load_identity in *. by destruct (String.eqb (ar_identity args) "").
  - intros identity. unfold load_genesis in *. destruct (String.eqb (ar_genesis args) ""); eauto.
Qed.

Lemma configured_impl args fs (P Q : GenesisConfig -> Prop) : (forall cfg, P cfg -> Q cfg) ->
  configured args fs P -> configured args fs Q.
Proof. intros Hpq [? ? ? Hg ?]. constructor; try done. intros id. destruct (Hg id) as (cfg & ? & ?). eauto. Qed.

(** The genesis accounts do not depend on the identity. *)
Lemma configured_accounts args fs (R : list GenesisAccount -> Prop) identity cfg :
  configured args fs (fun _ => True) -> load_genesis args identity fs = Ok cfg -> R (gc_accounts cfg) ->
  configured args fs (fun cfg => R (gc_accounts cfg)).
Proof.
  intros [? ? ? Hg ?] Hcfg HR. constructor; try done. intros id. unfold load_genesis in *.
  destruct (String.eqb (ar_genesis args) ""); [|by eauto]. injection Hcfg as <-. eexists. by split.
Qed.

(** Writing the logs changes neither the genesis nor the identity. *)
Lemma set_logs_lookup args fs a b p : p <> accounts_path args /\ p <> blocks_path args ->
  set_logs args fs a b !! p = fs !! p.
Proof. intros [H1 H2]. unfold set_logs. by rewrite !lookup_insert_ne by congruence. Qed.

Lemma configured_logs args fs a b P : paths_apart args ->
  configured args fs P -> configured args (set_logs args fs a b) P.
Proof.
  intros Hap [? ? Hid Hg ?]. constructor; try done.
  - intros random. specialize (Hid random). unfold load_identity, identity_file in *.
    by rewrite set_logs_lookup by (apply Hap; by right).
  - intros id. destruct (Hg id) as (cfg & Hcfg & HP). exists cfg. split; [|done]. unfold load_genesis, from_file in *.
    by rewrite set_logs_lookup by (apply Hap; by left).
Qed.

Lemma identity_logs args fs a b random : paths_apart args ->
  load_identity hex_decode (identity_file parse_bytes (set_logs args fs a b)) (ar_identity args) random =
  load_identity hex_decode (identity_file parse_bytes fs) (ar_identity args) random.
Proof.
  intros Hap. unfold load_identity, identity_file. by rewrite set_logs_lookup by (apply Hap; by right).
Qed.

(** A configured identity does not depend on the random seed. *)
Lemma identity_fixed args fs r1 r2 : ar_identity args <> "" ->
  load_identity hex_decode (identity_file parse_bytes fs) (ar_identity args) r1 =
  load_identity hex_decode (identity_file parse_bytes fs) (ar_identity args) r2.
Proof. intros Hne. unfold load_identity. by rewrite (proj2 (String.eqb_neq _ _) Hne). Qed.

Lemma set_logs_read args fs a b :
  set_logs args fs a b !! accounts_path args = Some a /\ set_logs args fs a b !! blocks_path args = Some b.
Proof.
  unfold set_logs. rewrite lookup_insert_eq, lookup_insert_ne, lookup_insert_eq; [done|].
  intros E. by apply (accounts_blocks_apart args).
Qed.

Lemma set_logs_id args fs a b : fs !! accounts_path args = Some a -> fs !! blocks_path args = Some b ->
  set_logs args fs a b = fs.
Proof. intros Ha Hb. unfold set_logs. rewrite (insert_id fs) by done. by rewrite insert_id. Qed.
End Start.

(** ** Genesis over accounts that are there already *)

Section GenesisAgain.
Context {DB : Type} `{Laws : AccountsStoreLaws DB}.

Lemma apply_genesis_noop db cfg : db_wf db -> Forall (fun a => holds db (ga_pubkey a)) (gc_accounts cfg) ->
  apply_genesis db cfg = db.
Proof.
  intros Hwf. unfold apply_genesis. induction 1 as [|a l Ha _ IH]; cbn [foldl]; [done|].
  rewrite db_exists_view, bool_decide_eq_true_2 by done. exact IH.
Qed.

Lemma apply_genesis_holds db cfg : db_wf db -> genesis_ok cfg ->
  Forall (fun a => holds (apply_genesis db cfg) (ga_pubkey a)) (gc_accounts cfg).
Proof.
  intros Hwf Hok. destruct (apply_genesis_view db cfg Hwf Hok) as [_ Hv].
  apply Forall_forall. intros a Ha. unfold holds. rewrite Hv, lookup_union.
  assert (Hg : is_Some (genesis_map (gc_accounts cfg) !! ga_pubkey a)).
  { revert Ha. clear. induction (gc_accounts cfg) as [|b l IH]; [by intros ?%not_elem_of_nil|].
    cbn [genesis_map foldr]. fold (genesis_map l). intros [->|Ha]%elem_of_cons; [by rewrite lookup_insert_eq; eexists|].
    apply lookup_insert_is_Some'. right. by apply IH. }
  destruct Hg as [x ->]. destruct (db_view db !! ga_pubkey a); by eexists.
Qed.
End GenesisAgain.

(** ** The life of a node *)

Section Life.
Context `{Sha : Sha256} `{Ed : Ed25519} `{Ser : !Serde Account account_ok} `{Json : !Serde BlockRecord record_ok}
  `{GJson : !Serde GenesisConfig config_ok} `{Wire : !Serde NetMessage net_ok} `{Payload : !Serde GossipPayload payload_ok}.
(** The parameters of the node and of [main]. *)
Context (threads : ExecutionBatch -> list Transaction) (keys_of : AccountsDB -> list bytes)
        (iter : gmap bytes CrdsEntry -> list (bytes * CrdsEntry)) (shuffle : gmap bytes ContactInfo -> list ContactInfo)
        (encode_error : string) (decode_error : bytes -> string)
        (db_account_count : AccountsDB -> Z) (from_value : Value -> result Transaction string)
        (parse_request : bytes -> result RpcRequest string) (print_response : RpcResponse -> bytes)
        (key_from_seed : bytes -> SigningKey) (hex_decode : string -> option bytes)
        (parse_addr : string -> option (IpAddr * Z)) (parse_bytes : bytes -> option bytes) (version : string).
Context {Peer : Type}.
Local Notation boot := (main key_from_seed hex_decode parse_addr parse_bytes version).
Local Notation step := (node_step (Peer:=Peer) threads keys_of iter shuffle decode_error db_account_count from_value hex_decode
  parse_request print_response).

(** What a step must respect: the slot counter is not at its limit, a ledger
    write succeeds and the encoding of the block is within the frame limit (a
    failed write or an oversized block loses later blocks on the next start:
    [failed_write_loses_later_blocks], [oversized_block_lost]). *)
Definition event_sized (n : Node) (e : Event (Peer:=Peer)) : Prop :=
  match e with
  | EvTick => v_current_slot (nd_state n) < U64_MAX
  | EvConnection _ _ => 0 <= next_seq (inner (v_mempool (nd_state n))) < U64_MAX
  | EvProduce now io =>
      v_current_slot (nd_state n) < U64_MAX /\ io = Written /\ is_u64 now /\
      forall block, to_vec (next_record threads keys_of (nd_state n) now) = Some block ->
        0 < Z.of_nat (length block) <= MAX_FRAME_PAYLOAD
  | _ => True
  end.

(** The files after a step: both logs are written through. *)
Definition save (args : Args) (fs : Files) (n : Node) : Files :=
  set_logs args fs (default [] (persist (node_db n))) (bs_file (node_ledger n)).

(** A node that was started on a fresh ledger directory (whose files are none of
    the other files named on the command line, [paths_apart]) and has since taken
    steps, been restarted over its own files, or crashed with the ledger cut at
    any byte and the accounts log cut between two records.  Appends to the
    accounts log and ledger writes succeed and blocks fit a frame
    ([event_sized]); a crash that leaves a torn record in the accounts log is
    excluded, as what is appended behind it can be lost
    ([torn_tail_hides_later_stores]). *)
Inductive alive (args : Args) : Files -> Node -> Prop :=
| AliveBoot w fs fs' n : paths_apart args -> fs !! accounts_path args = None -> fs !! blocks_path args = None ->
    w_appends w = [] -> boot args w fs = (fs', Running n) -> alive args fs' n
| AliveStep fs n e n' : alive args fs n -> event_sized n e -> step n e = Returns n' -> alive args (save args fs n') n'
| AliveRestart w fs fs' n n' : alive args fs n -> v_current_slot (nd_state n) < U64_MAX -> w_appends w = [] ->
    boot args w fs = (fs', Running n') -> alive args fs' n'
| AliveCrash w fs fs' n n' i j calls : alive args fs n -> v_current_slot (nd_state n) < U64_MAX -> w_appends w = [] ->
    Forall call_ok calls -> take i (default [] (persist (node_db n))) = encode_ops calls ->
    boot args w (set_logs args fs (encode_ops calls) (take j (bs_file (node_ledger n)))) = (fs', Running n') ->
    alive args fs' n'.

(** ** The invariant *)

Context (threads_perm : forall b, threads b ≡ₚ batch_transactions b).
Context (keys_iterate : forall db, iteration_of db (keys_of db)).
Context (iter_perm : forall m, iter m ≡ₚ map_to_list m).
(** serde builds values of the types only, and writes small accounts in less
    than 2^32 bytes. *)
Context (from_value_ok : forall v tx, from_value v = Ok tx -> tx_ok tx).
Context (genesis_typed : forall b cfg, from_slice (A:=GenesisConfig) b = Some cfg -> config_ok cfg).
Context (json_size : forall a, storable a -> Z.of_nat (length (account_json a)) < 2 ^ 32).

(** The genesis accounts are typed, and present. *)
Definition genesis_held (db : AccountsDB) (l : list GenesisAccount) : Prop :=
  Forall (fun a => arr32 (ga_pubkey a) /\ is_u64 (ga_lamports a)) l /\ Forall (fun a => holds db (ga_pubkey a)) l.

Record life_ok (args : Args) (fs : Files) (n : Node) : Prop := {
  lo_apart : paths_apart args;
  lo_node : node_ok n;
  lo_wired : node_wired n;
  lo_small : small_db (node_db n);
  lo_logged : logged (node_db n);
  lo_accounts : fs !! accounts_path args = persist (node_db n);
  lo_blocks : fs !! blocks_path args = Some (bs_file (node_ledger n));
  lo_records : Forall record_ok (bs_records (node_ledger n));
  lo_poh : poh_ok (v_poh (nd_state n));
  lo_identity random seed : ar_identity args <> "" ->
    load_identity hex_decode (identity_file parse_bytes fs) (ar_identity args) random = Some seed ->
    v_identity (nd_state n) = verifying_key (key_from_seed seed);
  lo_config : configured hex_decode parse_addr parse_bytes args fs (fun cfg => genesis_held (node_db n) (gc_accounts cfg))
}.

(** A sized event is one the node invariant admits. *)
Lemma sized_ok args fs n e : life_ok args fs n -> event_sized n e -> event_ok threads keys_of n e.
Proof.
  intros Hl. destruct e as [|read now| |now io|clock socket|clock socket|peers now]; try done.
  intros (Hs & -> & Hnow & Hsize). split; [done|]. split; [done|]. intros _.
  pose proof (lo_node _ _ _ Hl) as Hn.
  assert (Hr : record_ok (next_record threads keys_of (nd_state n) now)).
  { apply next_record_ok; [apply Hn|done|apply Hn|by apply drained_tx_ok|apply Hl|done]. }
  split; [done|]. destruct (serde_roundtrip _ Hr) as (block & Hb & _). rewrite Hb. by apply Hsize.
Qed.
(** *** Steps *)

Lemma produce_keeps s now io : let s' := (produce_block threads keys_of s now io).1 in
  v_poh s' = v_poh s /\ v_identity s' = v_identity s.
Proof.
  unfold produce_block. case_bool_decide; [done|]. destruct (drain _ _) as [pool txs].
  destruct (run_batches _ _ _ _ _ _) as [[e ec] ok]. by destruct (append_block _ _ _ _ _ _ _ _ _).
Qed.

(** Only block production touches the accounts and the ledger. *)
Lemma step_state n e n' : step n e = Returns n' ->
  v_identity (nd_state n') = v_identity (nd_state n) /\ (poh_ok (v_poh (nd_state n)) -> poh_ok (v_poh (nd_state n'))) /\
  (node_db n' = node_db n /\ node_ledger n' = node_ledger n \/
   exists now io, e = EvProduce now io /\ nd_state n' = (produce_block threads keys_of (nd_state n) now io).1).
Proof.
  destruct e as [|read now| |now io|clock socket|clock socket|peers now]; cbn [node_step]; intros Hs;
    try (injection Hs as <-).
  - unfold node_db, node_ledger. cbn [set_propagator set_state nd_state].
    split; [unfold process_tick; by destruct (_ <=? _)|]. split; [apply process_tick_poh|].
    left. split; unfold process_tick; by destruct (_ <=? _).
  - destruct (nd_rpc_enabled n); [|by split_and!; [..|left]]. unfold node_connection.
    destruct (serve _ _ _ _ _ _ _ _). by split_and!; [..|left].
  - destruct (nd_mining n); by split_and!; [..|left].
  - revert Hs. unfold node_produce. destruct (nd_should_produce n); [|intros [= <-]; by split_and!; [..|left]].
    pose proof (produce_keeps (nd_state n) now io) as [K1 K2].
    destruct (produce_block threads keys_of (nd_state n) now io) as [s [[slot block]|]] eqn:E; cbn [fst] in K1, K2.
    + destruct (propagate_block _ _ _ _) as [p|]; [|done]. intros [= <-].
      split; [exact K2|]. split; [cbn; by rewrite K1|]. right. exists now, io. by rewrite E.
    + intros [= <-]. split; [exact K2|]. split; [cbn; by rewrite K1|]. right. exists now, io. by rewrite E.
  - by split_and!; [..|left].
  - by split_and!; [..|left].
  - by split_and!; [..|left].
Qed.

(** What production does to the accounts and the ledger. *)
Lemma produced_parts args fs n now : life_ok args fs n -> event_sized n (EvProduce (Peer:=Peer) now Written) ->
  let s' := (produce_block threads keys_of (nd_state n) now Written).1 in
  small_db (ex_db (v_executor s')) /\ logged (ex_db (v_executor s')) /\
  (forall k, holds (node_db n) k -> holds (ex_db (v_executor s')) k) /\ Forall record_ok (bs_records (v_ledger s')).
Proof.
  intros Hl He. pose proof (lo_node _ _ _ Hl) as Hn. pose proof (sized_ok _ _ _ _ Hl He) as (_ & _ & Hfit).
  destruct (produce_calls threads keys_of threads_perm keys_iterate (nd_state n) now Written) as [Hc Hh];
    [apply Hl|apply Hn|by apply drained_tx_ok|].
  cbv zeta. split; [eapply db_calls_small; [apply Hl|done]|].
  split; [eapply (logged_calls json_size); [apply Hl..|done]|]. split; [done|].
  destruct (decide (v_last_produced_slot (nd_state n) = Some (v_current_slot (nd_state n)))) as [Hd|Hd].
  { unfold produce_block. rewrite bool_decide_eq_true_2 by done. apply Hl. }
  pose proof (produce_block_out threads keys_of (nd_state n) now Hd (Hfit Hd)) as Ho.
  destruct (produce_block threads keys_of (nd_state n) now Written) as [s' out].
  destruct Ho as (block & _ & _ & Hrec & _). cbn [fst]. rewrite Hrec.
  apply Forall_app_2; [apply Hl|]. apply Forall_cons_2; [|done]. by apply Hfit.
Qed.

Lemma life_step args fs n e n' : life_ok args fs n -> event_sized n e -> step n e = Returns n' ->
  life_ok args (save args fs n') n'.
Proof.
  intros Hl He Hs.
  destruct (node_step_ok threads keys_of iter shuffle encode_error decode_error db_account_count from_value hex_decode
    parse_request print_response threads_perm keys_iterate iter_perm from_value_ok n e (lo_node _ _ _ Hl) (lo_wired _ _ _ Hl)
    (sized_ok _ _ _ _ Hl He)) as (n2 & Hn2 & Hok & Hw).
  rewrite Hs in Hn2. injection Hn2 as <-.
  destruct (step_state n e n' Hs) as (Eid & Hpoh & Hcase).
  assert (Hparts : small_db (node_db n') /\ logged (node_db n') /\ (forall k, holds (node_db n) k -> holds (node_db n') k) /\
    Forall record_ok (bs_records (node_ledger n'))).
  { destruct Hcase as [(Ed1 & El)|(now & io & -> & Est)].
    - rewrite Ed1, El. split_and!; [apply Hl..|done|apply Hl].
    - pose proof He as (_ & -> & _). destruct (produced_parts args fs n now Hl He) as (P1 & P2 & P3 & P4).
      unfold node_db, node_ledger. by rewrite Est. }
  destruct Hparts as (P1 & P2 & P3 & P4). pose proof P2 as (ops & _ & Hp & _).
  destruct (set_logs_read args fs (default [] (persist (node_db n'))) (bs_file (node_ledger n'))) as [R1 R2].
  constructor; try done; [apply Hl|by unfold save; rewrite R1, Hp|by apply Hpoh, Hl| |].
  { intros random seed Hne. unfold save. rewrite identity_logs, Eid by apply Hl. by apply (lo_identity _ _ _ Hl). }
  apply configured_logs; [apply Hl|]. eapply configured_impl; [|apply Hl].
  intros cfg [G1 G2]. split; [done|]. eapply Forall_impl; [exact G2|]. intros a. apply P3.
Qed.

(** *** Start *)

Lemma load_genesis_typed args identity fs cfg : arr32 identity -> load_genesis args identity fs = Ok cfg -> genesis_ok cfg.
Proof.
  intros Hid. unfold load_genesis. destruct (String.eqb _ _).
  - intros [= <-]. by apply genesis_single_ok.
  - unfold from_file, from_json. destruct (fs !! ar_genesis args) as [raw|]; [|done]. cbn [ok_or].
    destruct (from_slice raw) as [c|] eqn:E; [|done]. intros [= <-]. by eapply genesis_typed.
Qed.

(** [main] over logs that describe a state. *)
Lemma life_main args fs w fs' n :
  let log := default [] (fs !! accounts_path args) in
  let blocks := default [] (fs !! blocks_path args) in
  boot args w fs = (fs', Running n) -> paths_apart args -> w_appends w = [] -> small_db (open log) -> logged (open log) ->
  Forall record_ok (bs_records (open_ledger blocks)) ->
  (forall identity accounts pool validators, validator_new identity blocks accounts pool validators = Some (nd_state n) ->
     vinv (nd_state n)) ->
  life_ok args fs' n.
Proof.
  intros log blocks Hm Hap Hio Hsmall Hlog Hrec Hv. destruct (main_running _ _ _ _ _ _ _ _ _ _ Hm) as [Hcf Hus].
  destruct (main_starts key_from_seed hex_decode parse_addr parse_bytes version args fs w _ Hcf Hus) as
    (cfg & n2 & seed & _ & Hcfg & Hseed & Hm2 & E1 & E2 & _ & E4 & Hres & b & Hb & Eb1 & Eb2).
  rewrite Hio in E1, Eb1. fold (open (default [] (fs !! accounts_path args))) in E1, Eb1.
  rewrite Hm in Hm2. injection Hm2 as -> <-. fold log in E1. fold blocks in E2.
  assert (Hgen : genesis_ok cfg) by (eapply load_genesis_typed; [apply verifying_key_arr32|exact Hcfg]).
  pose proof (apply_genesis_calls (open log) cfg Hgen) as Hc. rewrite <- E1 in Hc.
  assert (Hvn : vinv (nd_state n)).
  { destruct (node_start_state _ _ _ Hb) as (pool & accounts & validators & Hv'). by eapply Hv. }
  destruct (node_start_ok _ _ _ Hb) as [Hok Hw]; [rewrite Eb1; apply Hsmall|by rewrite Eb2|done|].
  pose proof (logged_calls json_size _ _ Hsmall Hlog Hc) as Hlog'. pose proof Hlog' as (ops & _ & Hp & _).
  destruct (set_logs_read args fs (default [] (persist (node_db n))) (bs_file (node_ledger n))) as [R1 R2].
  constructor; try done.
  - by eapply db_calls_small.
  - by rewrite R1, Hp.
  - by rewrite E2.
  - unfold resumes in Hres. unfold poh_ok. fold (node_ledger n) in Hres. rewrite E2 in Hres. unfold last_block in Hres.
    destruct (last _) as [r|] eqn:Hlast; destruct Hres as (_ & _ & ->); [|apply sha256_arr32].
    apply last_Some in Hlast as [rs Hrs]. fold blocks in Hrs. rewrite Hrs in Hrec.
    apply Forall_app in Hrec as [_ Hr]. apply Forall_cons in Hr as [Hr _]. apply Hr.
  - intros random seed' Hne. rewrite identity_logs, (identity_fixed _ _ _ _ random (w_random w)), Hseed, E4 by done. congruence.
  - apply configured_logs; [done|]. eapply (configured_accounts _ _ _ _ _ (genesis_held (node_db n))); [done|exact Hcfg|].
    split; [exact Hgen|]. rewrite E1. apply apply_genesis_holds; [apply Hsmall|done].
Qed.

Lemma alive_ok args fs n : alive args fs n -> life_ok args fs n.
Proof.
  induction 1 as [w fs fs' n Hap Ha Hb Hio Hm|fs n e n' _ IH He Hs|w fs fs' n n' _ IH Hlt Hio Hm|
                  w fs fs' n n' i j calls _ IH Hlt Hio Hcalls Hcut Hm].
  - eapply life_main; [exact Hm|done|done|..]; rewrite ?Ha, ?Hb; cbn [default from_option].
    + by apply logged_fresh.
    + by apply logged_fresh.
    + by rewrite records_open.
    + intros *. apply vinv_new.
  - by eapply life_step.
  - destruct (logged_reopen (node_db n)) as (log & Hp & Hsm & Hlg & _); [apply IH..|].
    pose proof (lo_accounts _ _ _ IH) as Ha. rewrite Hp in Ha. pose proof (lo_blocks _ _ _ IH) as Hb.
    pose proof (nk_chain _ (lo_node _ _ _ IH)) as Hvi.
    eapply life_main; [exact Hm|apply IH|done|..]; rewrite ?Ha, ?Hb; cbn [default from_option id]; [done|done| |].
    + rewrite reopen_ok by apply Hvi. apply IH.
    + intros * Hv. eapply vinv_restart; [exact Hvi|done|]. rewrite take_ge; [exact Hv|reflexivity].
  - pose proof (nk_chain _ (lo_node _ _ _ IH)) as Hvi.
    destruct (set_logs_read args fs (encode_ops calls) (take j (bs_file (node_ledger n)))) as [R1 R2].
    destruct (open_logged calls) as [Hsm Hlg]; [by eapply calls_op_ok|by apply map_ops_small, map_Forall_empty|].
    eapply life_main; [exact Hm|apply IH|done|..]; rewrite ?R1, ?R2; cbn [default from_option id]; [done|done| |].
    + destruct (cut_ledger_prefix (node_ledger n) j) as [tl Htl]; [apply Hvi|].
      pose proof (lo_records _ _ _ IH) as Hrec. rewrite Htl in Hrec. by apply Forall_app in Hrec as [? _].
    + intros * Hv. by eapply vinv_restart.
Qed.

(** C6. A restart restores the node.  Stop a node between two steps of its
    life ([alive]: started on a fresh directory, every append to its logs
    having succeeded and every block fitting a frame, restarted and crashed
    any number of times but never with a torn record left in the accounts log)
    and run [main] again with the same command line, logs that can be opened
    and sockets that can be bound: it starts, it changes no file, and the new
    node holds exactly the same accounts and the same ledger; it resumes one
    slot and one height after the last block with the PoH clock reseeded from
    that block, the mempool is empty, and a configured identity is the same. *)
Theorem restart_restores args fs n w : alive args fs n -> usable w ->
  exists n', boot args w fs = (fs, Running n') /\
    view (node_db n') = view (node_db n) /\ persist (node_db n') = persist (node_db n) /\
    node_ledger n' = node_ledger n /\ resumes (nd_state n') /\ v_mempool (nd_state n') = default_pool /\
    (ar_identity args <> "" -> v_identity (nd_state n') = v_identity (nd_state n)).
Proof.
  intros Hl%alive_ok Hus. destruct (logged_reopen (node_db n)) as (log & Hp & Hsm & _ & Hv & Hpo); [apply Hl..|].
  pose proof (lo_accounts _ _ _ Hl) as Ha. pose proof (lo_blocks _ _ _ Hl) as Hb. rewrite Hp in Ha.
  pose proof (nk_chain _ (lo_node _ _ _ Hl)) as Hvi.
  destruct (main_starts key_from_seed hex_decode parse_addr parse_bytes version args fs w _ (lo_config _ _ _ Hl) Hus) as
    (cfg & n' & seed & [_ Hheld] & _ & Hseed & Hm & E1 & E2 & E3 & E4 & Hres & _).
  rewrite Ha in E1. rewrite Hb in E2. cbn [default from_option id] in E1, E2.
  rewrite reopen_ok in E2 by apply Hvi.
  rewrite apply_genesis_noop in E1; [|exact (small_wf _ Hsm)|].
  2: { eapply Forall_impl; [exact Hheld|]. intros a. unfold holds. cbn [db_view accounts_db_laws].
       change (view (open_on (w_appends w) log)) with (view (open log)). by rewrite Hv. }
  exists n'. rewrite Hm, E1, E2. change (view (open_on (w_appends w) log)) with (view (open log)).
  change (persist (open_on (w_appends w) log)) with (Some log). cbn [default from_option id].
  split_and!; [by rewrite (set_logs_id args fs)|done|done|done|done|done|].
  intros Hne. rewrite E4. symmetry. by apply (lo_identity _ _ _ Hl _ _ Hne Hseed).
Qed.

(** C7. A crash loses a suffix at most.  Stop a node between two steps of its
    life ([alive], as for the restart), cut its accounts log at byte [i] and
    its ledger file at byte [j], and run [main] with the same command line,
    logs that can be opened and sockets that can be bound: it starts a node
    that satisfies the node invariant.  Its accounts are those after exactly
    the stores and removals whose records lie within the first [i] bytes of
    the log, with the genesis accounts that are missing added again; its chain
    is the prefix of the ledger that consists of exactly the blocks written
    within the first [j] bytes. *)
Theorem crash_restarts args fs n w i j : alive args fs n -> v_current_slot (nd_state n) < U64_MAX -> usable w ->
  let crashed := set_logs args fs (take i (default [] (persist (node_db n)))) (take j (bs_file (node_ledger n))) in
  exists n' fs' cfg calls survived, boot args w crashed = (fs', Running n') /\ node_ok n' /\ node_wired n' /\
    resumes (nd_state n') /\
    bs_records (node_ledger n') `prefix_of` bs_records (node_ledger n) /\
    (forall earlier, open_ledger (bs_file earlier) = earlier -> bs_file earlier `prefix_of` bs_file (node_ledger n) ->
       (length (bs_file earlier) <= j)%nat <-> bs_records earlier `prefix_of` bs_records (node_ledger n')) /\
    map_ops calls ∅ = view (node_db n) /\ persist (node_db n) = Some (encode_ops calls) /\
    longest_within (fun l => length (encode_ops l)) i calls survived /\
    load_genesis args (v_identity (nd_state n')) fs = Ok cfg /\
    view (node_db n') = map_ops survived ∅ ∪ genesis_map (gc_accounts cfg).
Proof.
  intros Hl%alive_ok Hlt Hus crashed. destruct (lo_logged _ _ _ Hl) as (calls & Hops & Hp & _ & Hv).
  pose proof (nk_chain _ (lo_node _ _ _ Hl)) as Hvi.
  assert (Hcf : configured hex_decode parse_addr parse_bytes args crashed (fun cfg => genesis_held (node_db n) (gc_accounts cfg)))
    by (apply configured_logs; apply Hl).
  destruct (main_starts key_from_seed hex_decode parse_addr parse_bytes version args crashed w _ Hcf Hus) as
    (cfg & n' & seed & [Hgen _] & Hcfg & _ & Hm & E1 & E2 & _ & E4 & Hres & b & Hb & Eb1 & Eb2).
  destruct (set_logs_read args fs (take i (default [] (persist (node_db n)))) (take j (bs_file (node_ledger n)))) as [R1 R2].
  fold crashed in R1, R2. rewrite R1, Hp in E1, Eb1. rewrite R2 in E2, Hb. cbn [default from_option id] in E1, E2, Hb, Eb1.
  destruct (cut_log_prefix calls i Hops) as (survived & Hsub & Hwf & Ho).
  assert (Hvn : vinv (nd_state n')).
  { destruct (node_start_state _ _ _ Hb) as (pool & accounts & validators & Hv'). by eapply vinv_restart. }
  destruct (node_start_ok _ _ _ Hb) as [Hok Hw]; [by rewrite Eb1|by rewrite Eb2|done|].
  eexists n', _, cfg, calls, survived. split_and!; [exact Hm|done|done|done| | |done|done|done| |].
  - rewrite E2. by apply cut_ledger_prefix, Hvi.
  - intros earlier He Hpre. rewrite E2. apply cut_ledger; [by apply ledger_open_self|apply Hvi|done].
  - rewrite E4. unfold load_genesis, from_file in *. rewrite <- Hcfg. unfold crashed.
    by rewrite set_logs_lookup by (apply (lo_apart _ _ _ Hl); by left).
  - rewrite E1, <- Ho. exact (proj2 (apply_genesis_view (open_on (w_appends w) (take i (encode_ops calls))) cfg Hwf Hgen)).
Qed.
End Life.
