(* ===== verification/Bench.v ===== *)
(** * The benchmark mode

    [run_benchmarks] of src/validator/src/main.rs: a run of the PoH hasher, the
    accounts database, the state root, the erasure coder and ten thousand signed
    transfers, whose assertion aborts the process when one of them fails.  The
    timings are not modelled; what is computed is, and the file shows that the
    run completes for every identity. *)

From S2P Require Import Prelude Crypto Account Store AccountsDB Merkle Instruction Vm SystemProgram Processor Transaction Executor Poh Gf256 Matrix Shred Erasure Validator.
From stdpp Require Import list.
Open Scope Z_scope.

(** ** A signed transfer *)

(** The instruction of a transfer of [n] lamports from key 0 to key 1. *)
Definition transfer_ix (n : Z) : TxInstruction :=
  mkTxIx (fill32 1) [mkTxMeta 0 true true; mkTxMeta 1 false true] (SystemInstruction.to_data (SystemInstruction.Transfer n)).

(** The accounts after a fee and a transfer. *)
Definition paid (m : gmap bytes Account) (signer recipient : bytes) (a : Account) (fee n : Z) : gmap bytes Account :=
  let m1 := <[signer := set_lamports a (lamports a - fee)]> m in
  let to := account_or_new m1 recipient in
  <[recipient := set_lamports to (lamports to + n)]> (<[signer := set_lamports a (lamports a - fee - n)]> m1).

Section Transfer.
Context {DB : Type} `{Laws : AccountsStoreLaws DB} `{Sha : Sha256} `{Ed : Ed25519}.

Lemma transfer_instruction_runs (db : DB) signer recipient a n :
  db_wf db -> is_u64 n -> db_view db !! signer = Some a -> n <= lamports a ->
  lamports (account_or_new (db_view db) recipient) + n <= U64_MAX ->
  exists db' logs, process_instruction db (program_ix (transfer_ix n)) signer [signer; recipient] =
    (db', with_logs true 300 None logs) /\ db_wf db' /\
    db_view db' = <[recipient := set_lamports (account_or_new (db_view db) recipient)
                                  (lamports (account_or_new (db_view db) recipient) + n)]>
                    (<[signer := set_lamports a (lamports a - n)]> (db_view db)).
Proof.
  intros Hwf Hn Ha Hle Hmax. unfold process_instruction, dispatch. cbv beta zeta.
  cbn [program_ix transfer_ix ti_program_id ti_accounts ti_data program_id ix_data account_metas fmap list_fmap].
  rewrite bool_decide_eq_true_2 by done. cbv [pbind]. rewrite dispatch_charge by lia.
  set (s := charged _ 150). set (metas := [_; _]).
  assert (Hrun : exists logs, system_process_instruction (SystemInstruction.to_data (SystemInstruction.Transfer n)) metas
    signer [signer; recipient] s =
    (mkVm (db_store (db_store db signer (set_lamports a (lamports a - n))) recipient
        (set_lamports (account_or_new (db_view db) recipient) (lamports (account_or_new (db_view db) recipient) + n)))
       (vm_budget (charged s 150)) logs, Ok tt)).
  { unfold system_process_instruction.
    pose proof (system_from_to (SystemInstruction.Transfer n) [] Hn) as Hfrom. rewrite app_nil_r in Hfrom. rewrite Hfrom.
    unfold pbind at 1. cbn [plift]. unfold process_transfer, metas.
    rewrite run_consume by apply (default_budget_covers_system db _ (SystemInstruction.Transfer n)).
    rewrite run_require by done. erewrite run_load_or by (eassumption || done).
    rewrite run_guard by (apply Z.ltb_ge; lia). erewrite run_resolve by reflexivity. rewrite run_load by done.
    rewrite run_add by done. eexists. reflexivity. }
  destruct Hrun as [logs Hrun]. rewrite Hrun. cbn [vm_db vm_budget vm_logs charged budget_consumed budget_new s].
  eexists _, _. split; [reflexivity|].
  assert (Hok1 : account_ok (set_lamports a (lamports a - n))).
  { pose proof (db_view_ok _ _ _ Hwf Ha) as Hok. apply set_lamports_ok; [done|].
    apply is_u64_sub; [apply Hok|u64_unfold; lia]. }
  assert (Hok2 : account_ok (set_lamports (account_or_new (db_view db) recipient)
                               (lamports (account_or_new (db_view db) recipient) + n))).
  { pose proof (account_or_new_ok db recipient Hwf) as Hok. apply set_lamports_ok; [done|].
    destruct Hok as (Hl & _). u64_unfold. lia. }
  rewrite !db_store_view by eauto with trust. split; [eauto with trust|done].
Qed.

(** A signed transaction that holds one transfer. *)
Definition transfer_tx (key : SigningKey) (recipient : bytes) (n : Z) (blockhash : bytes) : Transaction :=
  let signer := verifying_key key in
  tx_sign (mkTx [] signer [signer; recipient] [transfer_ix n] blockhash 200000 5000) key.

(** It succeeds whenever the signer can pay. *)
Lemma transfer_tx_executes (e : Executor DB) key recipient n blockhash a :
  let signer := verifying_key key in
  let m := db_view (ex_db e) in
  db_wf (ex_db e) -> is_u64 n -> m !! signer = Some a -> 5000 + n <= lamports a ->
  lamports (account_or_new (<[signer := set_lamports a (lamports a - 5000)]> m) recipient) + n <= U64_MAX ->
  let '(e', r) := execute_transaction e (transfer_tx key recipient n blockhash) in
  tr_success r = true /\ db_wf (ex_db e') /\ db_view (ex_db e') = paid m signer recipient a 5000 n.
Proof.
  intros signer m Hwf Hn Ha Hle Hmax. unfold execute_transaction.
  change (validate (transfer_tx key recipient n blockhash)) with (Ok (E:=TransactionError.t) tt).
  assert (Hsig : verify_signature (transfer_tx key recipient n blockhash) = true) by apply sign_verifies.
  rewrite Hsig. cbn [negb lock_accounts ex_db]. set (tx := transfer_tx key recipient n blockhash).
  pose proof (db_view_ok _ _ _ Hwf Ha) as Hok.
  assert (Hfee_ok : account_ok (set_lamports a (lamports a - 5000))).
  { apply set_lamports_ok; [done|]. apply is_u64_sub; [apply Hok|u64_unfold; lia]. }
  assert (Hfee : exists logs, execute_fee_payment tx (mkExec (ex_db e) (ctx_new (tx_compute_budget tx))) =
    (mkExec (db_store (ex_db e) signer (set_lamports a (lamports a - 5000))) (mkCtx 150 200000 logs), Ok tt)).
  { unfold execute_fee_payment, consume_compute, ctx_log, pbind, pget, plift, pmod. cbn [es_db es_ctx].
    rewrite db_load_view by done. change (tx_signer tx) with signer. fold m. rewrite Ha. change (tx_fee tx) with 5000.
    change (200000 <? _) with false. cbn [ok_or]. destruct (Z.ltb_spec (lamports a) 5000); [u64_unfold; lia|].
    eexists. reflexivity. }
  destruct Hfee as [logs ->]. cbn [es_db]. change (tx_instructions tx) with [transfer_ix n].
  set (db1 := db_store (ex_db e) signer _). assert (Hwf1 : db_wf db1) by (by apply db_store_wf).
  assert (Hv1 : db_view db1 = <[signer := set_lamports a (lamports a - 5000)]> m) by (by apply db_store_view).
  destruct (transfer_instruction_runs db1 signer recipient (set_lamports a (lamports a - 5000)) n) as
    (db2 & ilogs & Hrun & Hwf2 & Hv2); rewrite ?Hv1; [done|done|by rewrite lookup_insert_eq|cbn; lia|done|].
  assert (Hix : exists logs', execute_instructions tx [transfer_ix n] (mkExec db1 (mkCtx 150 200000 logs)) =
    (mkExec db2 (mkCtx 450 200000 logs'), Ok tt)).
  { cbn [execute_instructions]. unfold pbind at 1. unfold execute_instruction. unfold pbind at 1. cbn [ctx_log pmod].
    assert (Hsm : signer_metas_ok tx (transfer_ix n) = true).
    { unfold signer_metas_ok, bytes_eqb. cbn. change (Z.to_nat 0) with 0%nat. cbn. by rewrite bool_decide_eq_true_2. }
    rewrite Hsm. cbn [negb]. unfold pbind at 1. cbn [es_db].
    change (tx_signer tx) with signer. change (tx_account_keys tx) with [signer; recipient]. rewrite Hrun.
    match goal with |- context [pbind (foldr _ _ _) (fun _ => ?k) ?s1] =>
      destruct (log_all_run (res_logs (with_logs true 300 None ilogs)) k s1) as ([db3 [u mx l]] & Hs2 & Hu & Hm & ->) end.
    cbn [es_db es_ctx ctx_compute_units ctx_max_compute_units] in Hs2, Hu, Hm. subst. eexists. reflexivity. }
  destruct Hix as [logs' ->]. cbn [consume_compute es_db es_ctx fst result_success tr_success ex_db].
  split; [done|]. split; [done|]. by rewrite Hv2, Hv1.
Qed.
End Transfer.

(** ** The benchmarks *)

(** [run_benchmarks] uses [[7u8; 32]] as recipient. *)
Definition bench_recipient : bytes := fill32 7.

(** The key of account [i]: its low and high byte. *)
Definition bench_key (i : Z) : bytes := [i mod 256; (i / 256) mod 256] ++ replicate 30 0.

(** Why a benchmark run can stop early: a failed assertion or a panic is [Panics]. *)
Section Bench.
Context `{Sha : Sha256} `{Ed : Ed25519} `{Ser : !Serde Account account_ok}.
Context (keys_of : AccountsDB -> list bytes).

(** PoH: a million hashes. *)
Definition bench_poh : PohHasher := hash_n (hasher_new (from_seed "benchmark") 0) 1000000.

(** Accounts: [n] inserts. *)
Definition bench_accounts (n : nat) : AccountsDB :=
  foldl (fun db i => store db (bench_key (Z.of_nat i)) (new_system_account (bench_key (Z.of_nat i)) (Z.of_nat i)))
        new (seq 0 n).

(** State root of a thousand accounts. *)
Definition bench_root : bytes := let db := bench_accounts (Z.to_nat 1000) in compute_state_root db (keys_of db).

(** Erasure coding: [n] rounds of encode and decode. *)
Fixpoint bench_erasure (n : nat) : outcome unit :=
  match n with
  | O => Returns tt
  | S n =>
      match encode erasure_default (replicate (Z.to_nat (1228 * 16)) 42) 1 with
      | Panics => Panics
      | Returns shreds =>
          match decode erasure_default shreds with
          | Panics => Panics
          | Returns _ => bench_erasure n
          end
      end
  end.

(** Transfer number [i]: signed over a block hash that holds [i]. *)
Definition bench_tx (key : SigningKey) (i : Z) : Transaction :=
  let signer := verifying_key key in
  let tx := transaction_new signer [transfer_ix 100] (fill32 0) in
  let tx := mkTx (tx_signature tx) (tx_signer tx) (tx_account_keys tx ++ [bench_recipient]) (tx_instructions tx)
              (le_bytes 8 i ++ replicate 24 0) (tx_compute_budget tx) (tx_fee tx) in
  tx_sign tx key.

(** Transfers [i .. i + n): the assertion aborts when one fails. *)
Fixpoint bench_transfers (key : SigningKey) (n : nat) (i : Z) (e : Executor AccountsDB) : outcome (Executor AccountsDB) :=
  match n with
  | O => Returns e
  | S n =>
      let '(e, result) := execute_transaction e (bench_tx key i) in
      if tr_success result then bench_transfers key n (i + 1) e else Panics
  end.

(** What a completed run has computed: the hasher, the database, the root, and
    the balances of signer and recipient after the transfers. *)
Record BenchReport := mkReport {
  rp_poh : PohHasher;
  rp_accounts : AccountsDB;
  rp_root : bytes;
  rp_signer_balance : Z;
  rp_recipient_balance : Z
}.

Definition account_balance (db : AccountsDB) (k : bytes) : Z := default 0 (lamports <$> load db k).

(** A panic ends the run. *)
Definition and_then {A B} (o : outcome A) (f : A -> outcome B) : outcome B :=
  match o with Panics => Panics | Returns a => f a end.

(** [run_benchmarks] *)
Definition run_benchmarks (key : SigningKey) : outcome BenchReport :=
  let signer := verifying_key key in
  and_then (bench_erasure (Z.to_nat 100)) (fun _ =>
  let db := store new signer (new_system_account signer 1000000000) in
  and_then (bench_transfers key (Z.to_nat 10000) 0 (executor_new db)) (fun e =>
  Returns (mkReport bench_poh (bench_accounts (Z.to_nat 10000)) bench_root
             (account_balance (ex_db e) signer) (account_balance (ex_db e) bench_recipient)))).

(** *** Transfers *)

(** The accounts after [i] transfers. *)
Definition bench_balances (signer : bytes) (i : Z) (m : gmap bytes Account) : Prop :=
  exists a, m !! signer = Some a /\
    if decide (signer = bench_recipient) then lamports a = 1000000000 - 4900 * i
    else lamports a = 1000000000 - 5100 * i /\ balance m bench_recipient = 100 * i.

Lemma paid_balances signer i m a : m !! signer = Some a -> bench_balances signer i m ->
  bench_balances signer (i + 1) (paid m signer bench_recipient a 5000 100).
Proof.
  intros Ha (a' & Ha' & Hb). rewrite Ha in Ha'. injection Ha' as <-. unfold bench_balances, paid. cbv zeta.
  destruct (decide (signer = bench_recipient)) as [->|Hne].
  - rewrite lookup_insert_eq. eexists. split; [done|]. unfold account_or_new. rewrite lookup_insert_eq. cbn. lia.
  - destruct Hb as [Hl Hr]. rewrite lookup_insert_ne, lookup_insert_eq by done. eexists. split; [done|].
    split; [cbn; lia|]. rewrite balance_insert, decide_True by done. cbn [set_lamports lamports].
    rewrite balance_account_or_new. unfold balance in *. rewrite lookup_insert_ne by done. lia.
Qed.

Lemma bench_transfers_complete key n i (e : Executor AccountsDB) :
  0 <= i -> i + Z.of_nat n <= 10000 -> wf (ex_db e) -> bench_balances (verifying_key key) i (view (ex_db e)) ->
  exists e', bench_transfers key n i e = Returns e' /\ wf (ex_db e') /\
    bench_balances (verifying_key key) (i + Z.of_nat n) (view (ex_db e')).
Proof.
  revert i e. induction n as [|n IH]; intros i e Hi Hn Hwf Hb.
  { exists e. rewrite Z.add_0_r. done. }
  cbn [bench_transfers]. pose proof Hb as (a & Ha & Hl).
  change (bench_tx key i) with (transfer_tx key bench_recipient 100 (le_bytes 8 i ++ replicate 24 0)).
  pose proof (transfer_tx_executes e key bench_recipient 100 (le_bytes 8 i ++ replicate 24 0) a) as Hx. cbv zeta in Hx.
  destruct (execute_transaction e _) as [e1 r]. destruct Hx as (-> & Hwf1 & Hv1); [done|u64_unfold; lia|done| | |].
  - case_decide; lia.
  - unfold account_or_new. rewrite lookup_insert. cbn [db_view accounts_db_laws].
    destruct (decide (verifying_key key = bench_recipient)) as [Hs|Hs]; [cbn; u64_unfold; lia|].
    destruct Hl as [_ Hr]. unfold balance in Hr. u64_unfold.
    destruct (view (ex_db e) !! bench_recipient) as [b|]; cbn in *; lia.
  - destruct (IH (i + 1) e1) as (e' & -> & Hwf' & Hb'); [lia|lia|done| |].
    + cbn [db_view accounts_db_laws] in Hv1. rewrite Hv1. by apply paid_balances.
    + exists e'. split; [done|]. split; [done|]. by replace (i + Z.of_nat (S n)) with (i + 1 + Z.of_nat n) by lia.
Qed.

(** *** Erasure coding *)

(** All shreds of an encoding decode to the data. *)
Lemma decode_all cfg data slot : (0 < data_shards cfg)%nat -> (total_shards cfg <= 256)%nat ->
  bytes_ok data -> is_u64 (Z.of_nat (length data)) ->
  exists shreds, encode cfg data slot = Returns shreds /\ decode cfg shreds = Returns (Some data).
Proof.
  intros Hk Hkm Hd Hu. destruct (generator_spec (data_shards cfg) (parity_shards cfg) Hkm) as (g & _ & Hg & _).
  destruct (encode_carries cfg data slot g) as (shreds & Henc & Hlen & Hidx); [done..|].
  exists shreds. split; [done|].
  assert (Hseq : sh_index <$> shreds = Z.of_nat <$> seq 0 (total_shards cfg)).
  { rewrite <- Hlen. apply list_eq. intros i. rewrite !list_lookup_fmap. destruct (shreds !! i) as [s|] eqn:E.
    - destruct (Hidx i s E) as [Hi _]. rewrite lookup_seq_lt by (by apply lookup_lt_Some in E). cbn. by rewrite Hi.
    - apply lookup_ge_None in E. by rewrite lookup_seq_ge. }
  apply (decode_encoded _ _ slot shreds); [done..| |].
  - apply Forall_forall. intros s Hs. split; [|right; by exists s].
    apply list_elem_of_lookup in Hs as [i Hi]. destruct (Hidx i s Hi) as [-> _]. lia.
  - unfold indices_in_range. rewrite Hseq, filter_all.
    + rewrite size_list_to_set by (apply NoDup_fmap_2; [intros x y; lia|apply NoDup_seq]).
      rewrite length_fmap, length_seq. unfold total_shards. lia.
    + intros i (j & -> & Hj)%list_elem_of_fmap. apply elem_of_seq in Hj. lia.
Qed.

Lemma bench_erasure_complete n : bench_erasure n = Returns tt.
Proof.
  destruct (decode_all erasure_default (replicate (Z.to_nat (1228 * 16)) 42) 1) as (shreds & He & Hd).
  - cbn. lia.
  - cbn. lia.
  - apply Forall_replicate. u64_unfold. lia.
  - rewrite length_replicate. u64_unfold. lia.
  - induction n as [|n IH]; cbn [bench_erasure]; [done|]. by rewrite He, Hd.
Qed.

(** *** Accounts and PoH *)

Lemma bench_key_inj i j : 0 <= i < 65536 -> 0 <= j < 65536 -> bench_key i = bench_key j -> i = j.
Proof.
  intros Hi Hj [= H1 H2]. rewrite !(Z.mod_small (_ / 256)) in H2 by (split; [apply Z.div_pos; lia|apply Z.div_lt_upper_bound; lia]).
  rewrite (Z.div_mod i 256), (Z.div_mod j 256) by lia. lia.
Qed.

Lemma bench_accounts_spec n : (n <= Z.to_nat 65536)%nat ->
  wf (bench_accounts n) /\ account_count (bench_accounts n) = Z.of_nat n /\
  forall k, is_Some (view (bench_accounts n) !! k) <-> exists i, (i < n)%nat /\ k = bench_key (Z.of_nat i).
Proof.
  induction n as [|n IH]; intros Hn.
  { split; [apply wf_new|]. split; [done|]. intros k. change (view (bench_accounts 0)) with (view new).
    rewrite view_new, lookup_empty. split; [by intros []|]. intros (i & Hi & _). lia. }
  destruct IH as (Hwf & Hc & Hv); [lia|]. unfold bench_accounts in *. rewrite seq_S, Nat.add_0_l, foldl_snoc.
  set (db := foldl _ _ _) in *. set (k0 := bench_key (Z.of_nat n)).
  assert (Hok : account_ok (new_system_account k0 (Z.of_nat n))) by (apply new_system_account_ok; u64_unfold; lia).
  assert (Hnew : index db !! k0 = None).
  { apply eq_None_not_Some. rewrite <- view_lookup_wf, Hv by done. intros (i & Hi & Ek).
    apply bench_key_inj in Ek; lia. }
  split; [by apply store_wf|]. split.
  - cbn [store account_count]. rewrite Hnew, bool_decide_eq_true_2, Hc by done. rewrite wrap64_id by (u64_unfold; lia). lia.
  - intros k. rewrite store_view, lookup_insert_is_Some', Hv by done. split.
    + intros [<-|(i & Hi & ->)]; [by exists n; split; [lia|]|exists i; split; [lia|done]].
    + intros (i & Hi & ->). destruct (decide (i = n)) as [->|Hne]; [by left|]. right. exists i. split; [lia|done].
Qed.

Lemma hash_n_count h n : 0 <= n -> is_u64 (hash_count h) -> hash_count (hash_n h n) = wrap64 (hash_count h + n).
Proof.
  intros Hn Hh. rewrite <- (Z2Nat.id n) at 2 by done. unfold hash_n. generalize (Z.to_nat n). clear n Hn.
  induction n as [|n IH]; [by rewrite Z.add_0_r, wrap64_id|].
  change (Nat.iter (S n) hash_once h) with (hash_once (Nat.iter n hash_once h)). cbn [hash_once hash_count].
  rewrite IH. unfold wrap64. rewrite Zplus_mod_idemp_l. f_equal. lia.
Qed.

(** The benchmark run completes for every identity: no round of encoding and
    decoding panics, all ten thousand signed transfers succeed, so the assertion never
    fires, and the balances reported at the end add up to the funds less ten
    thousand fees; ten thousand accounts were inserted and a million hashes
    counted. *)
Theorem benchmarks_complete key : exists r, run_benchmarks key = Returns r /\
  (verifying_key key <> bench_recipient ->
     rp_signer_balance r = 1000000000 - 10000 * 5100 /\ rp_recipient_balance r = 10000 * 100) /\
  account_count (rp_accounts r) = 10000 /\ hash_count (rp_poh r) = 1000000.
Proof.
  unfold run_benchmarks. cbv zeta. set (signer := verifying_key key). rewrite bench_erasure_complete. cbn [and_then].
  set (db := store new signer (new_system_account signer 1000000000)).
  assert (Hok : account_ok (new_system_account signer 1000000000)) by (apply new_system_account_ok; u64_unfold; lia).
  assert (Hwf : wf db) by (apply store_wf; [apply wf_new|done]).
  assert (Hview : view db = {[signer := new_system_account signer 1000000000]})
    by (unfold db; rewrite store_view, view_new by (apply wf_new || done); done).
  destruct (bench_transfers_complete key (Z.to_nat 10000) 0 (executor_new db)) as (e & He & Hwf' & Hb); [lia|lia|done| |].
  { exists (new_system_account signer 1000000000). cbn [executor_new ex_db]. rewrite Hview, lookup_singleton_eq. split; [done|].
    case_decide as Hs; [cbn; lia|]. split; [cbn; lia|]. unfold balance. by rewrite lookup_singleton_ne. }
  rewrite He. cbn [and_then]. eexists. split; [reflexivity|].
  cbn [rp_signer_balance rp_recipient_balance rp_accounts rp_poh]. rewrite Z2Nat.id in Hb by lia.
  split; [|split].
  - intros Hne. destruct Hb as (a & Ha & Hb). rewrite decide_False in Hb by done. destruct Hb as [Hl Hr].
    unfold account_balance. rewrite !load_view by done. fold signer in Ha. rewrite Ha. unfold balance in Hr.
    cbn [fmap option_fmap option_map default from_option id]. split; [lia|].
    destruct (view (ex_db e) !! bench_recipient); cbn in *; lia.
  - destruct (bench_accounts_spec (Z.to_nat 10000)) as (_ & -> & _); lia.
  - unfold bench_poh. rewrite hash_n_count; [done|lia|apply is_u64_0].
Qed.
End Bench.
