(* ===== verification/NetworkWitnesses.v ===== *)
(** * Concrete instances: ledger, validator, network

    The theorems about the leader schedule, the ledger, block production,
    gossip, erasure coding, propagation and RPC applied to closed inputs on
    which their hypotheses hold, with the external parameters instantiated by
    [Crypto.Toy], the iteration of finite maps and a concrete [hex::decode]. *)

From S2P Require Import Prelude Crypto Account Store AccountsDB Merkle Transaction Scheduler Executor Mempool Poh Tower ForkChoice Leader Blockstore Validator Gossip Gf256 Matrix Shred Erasure Neighborhood Propagate Net Network Base58 Rpc.
From stdpp Require Import list.
Import Toy.
Open Scope Z_scope.

Ltac decide_closed := apply (bool_decide_unpack _); vm_compute; exact I.

Definition id_a : bytes := toy_pk 3.
Definition id_b : bytes := toy_pk 4.

(** ** Leader schedule and ledger *)

Definition stakes0 : list ValidatorStake := [mkStake id_a 100 "a"; mkStake id_b 50 "b"].
Definition sched0 : LeaderSchedule := default (mkSchedule [] 0 0 0 []) (leader_new stakes0 4 10).

Lemma leader_schedule_total_witness :
  exists v, leader_for_slot sched0 7 = Some v /\ v ∈ stakes0 /\ is_leader sched0 (vs_validator v) 7 = true.
Proof.
  destruct (leader_schedule_total stakes0 4 10 sched0) as (_ & H & _); [vm_compute; reflexivity|lia|].
  destruct (H 7) as (v & H1 & H2 & H3 & _); [lia|]. exists v. exact (conj H1 (conj H2 H3)).
Defined.

Definition record0 : BlockRecord := record_new GENESIS_PARENT 1 0 (fill32 9) 0 (fill32 8) [] 5.
Definition record0' : BlockRecord := record_new GENESIS_PARENT 1 0 (fill32 9) 0 (fill32 8) [] 6.

(** A record whose code is short fits a frame. *)
Lemma small_record_fits r :
  bool_decide (record_ok r) && (Z.log2 (Zpos (countable.encode r)) <? 65536) = true -> frame_fits r.
Proof.
  intros [Hok Hlog]%andb_prop. split; [exact (bool_decide_eq_true_1 _ Hok)|].
  change (to_vec r) with (Some (pos_bytes (countable.encode r))).
  revert Hlog. generalize (countable.encode r). intros p Hlog%Z.ltb_lt. cbn beta iota.
  unfold pos_bytes, MAX_FRAME_PAYLOAD. rewrite length_le_bytes.
  pose proof (Z.log2_nonneg (Zpos p)). pose proof (Z.div_pos (Z.log2 (Zpos p)) 8).
  pose proof (Z.div_le_upper_bound (Z.log2 (Zpos p)) 8 65536). lia.
Qed.

Lemma record0_fits : frame_fits record0.
Proof. apply small_record_fits. vm_compute. reflexivity. Qed.

Lemma ledger_durable_witness :
  let st := append_all (open_ledger []) [record0] in open_ledger (bs_file st) = st.
Proof.
  exact (proj1 (proj2 (ledger_durable [] [record0] (Forall_cons_2 _ _ _ record0_fits (Forall_nil_2 _))))).
Defined.

Lemma ledger_binding_witness : Forall2 same_block [record0] [record0'].
Proof.
  apply ledger_binding; [decide_closed|decide_closed|..].
  - vm_compute. repeat split.
  - vm_compute. repeat split.
  - reflexivity.
  - vm_compute. reflexivity.
  - intros x y Hx%list_elem_of_singleton Hy%list_elem_of_singleton _. by rewrite Hx, Hy.
Defined.

(** ** Block production *)

Definition keys0 (db : AccountsDB) : list bytes := (map_to_list (index db)).*1.
Definition db0 : AccountsDB := store new id_a (new_system_account id_a 1000000).
Definition pool0 : Mempool := mempool_new (mkMempoolConfig 10 60000 5000).
Definition state0 : ValidatorState :=
  default (mkValidator (hasher_new (fill32 0) 0) (executor_new new) pool0 (tower_new 0) sched0 0 0 0 [] None
             (open_ledger [])) (validator_new id_a [] db0 pool0 stakes0).

Lemma state0_new : validator_new id_a [] db0 pool0 stakes0 = Some state0.
Proof. reflexivity. Qed.

Lemma db0_wf : wf db0.
Proof. apply store_wf; [apply wf_new|decide_closed]. Qed.

Lemma produce_block_spec_witness :
  let '(s', _) := produce_block batch_transactions keys0 state0 9 Written in
  db_wf (ex_db (v_executor s')) /\ v_block_height s' = wrap64 (v_block_height state0 + 1).
Proof.
  pose proof (produce_block_spec batch_transactions keys0 (fun _ => reflexivity _) (fun _ => reflexivity _)
    state0 9 Written db0_wf (mempool_new_ok _) (Forall_nil_2 _)) as H.
  destruct (produce_block batch_transactions keys0 state0 9 Written) as [s' out].
  destruct H as (taken & order & r & _ & _ & _ & _ & _ & _ & _ & Hwf & _ & _ & _ & Hh & _).
  exact (conj Hwf Hh).
Defined.

Definition state1 : ValidatorState := (produce_block batch_transactions keys0 state0 9 Written).1.

Definition record1 : BlockRecord := default record0 (last (bs_records (v_ledger state1))).

Lemma state1_records : bs_records (v_ledger state1) = [record1].
Proof. vm_compute. reflexivity. Qed.

Lemma record1_fits : frame_fits record1.
Proof. apply small_record_fits. vm_compute. reflexivity. Qed.

Lemma state1_fits r : last_block (v_ledger state1) = Some r -> frame_fits r.
Proof.
  assert (G : forall rs x, rs = [x] -> frame_fits x -> last rs = Some r -> frame_fits r)
    by (intros rs x -> Hx [= <-]; exact Hx).
  exact (G _ _ state1_records record1_fits).
Qed.

Lemma one_block_per_slot_witness :
  ascending br_slot (bs_records (v_ledger (process_tick state1))) /\
  chained GENESIS_PARENT (bs_records (v_ledger (process_tick state1))).
Proof.
  assert (Hrun : rtc (vstep batch_transactions keys0) state0 (process_tick state1)).
  { eapply rtc_l; [|eapply rtc_once].
    - eapply (VProduce _ _ state0 9 state1 (produce_block batch_transactions keys0 state0 9 Written).2);
        [vm_compute; reflexivity|apply surjective_pairing|apply state1_fits].
    - apply (VTick _ _ state1). vm_compute. reflexivity. }
  pose proof (one_block_per_slot batch_transactions keys0 id_a db0 pool0 stakes0 state0 _ state0_new Hrun) as H.
  exact (conj (proj1 H) (proj1 (proj2 (proj2 H)))).
Defined.

(** ** Gossip *)

Definition iter0 (m : gmap bytes CrdsEntry) : list (bytes * CrdsEntry) := map_to_list m.
Definition shuffle0 (m : gmap bytes ContactInfo) : list ContactInfo := (map_to_list m).*2.
Definition push0 : PushData := mkPush (fill32 5) [1; 2] "vote".

Definition node_a : GossipProtocol := protocol_new (3 : @SigningKey toy_ed25519) (crds_new 4).
Definition node_b : GossipProtocol :=
  protocol_new (4 : @SigningKey toy_ed25519) (insert_push iter0 (crds_new 4) id_a (PlPush push0) 7).1.
Definition push_msg : GossipMessage := signed node_a MtPush (PlPush push0) 9.

Lemma gossip_authenticated_witness :
  entries_from (gm_from push_msg) 9 (carried (gm_payload push_msg)) (g_crds node_b) (g_crds (handle_message iter0 shuffle0 node_b push_msg 9)).
Proof.
  pose proof (gossip_authenticated iter0 (fun _ => reflexivity _) shuffle0 node_b push_msg 9) as H.
  cbv zeta in H. rewrite (gossip_sign_verifies _ _ : gossip_verify push_msg = true) in H. exact (proj1 H).
Defined.

Definition pull_req : GossipMessage :=
  signed node_a MtPullRequest (PlPullRequest [("vote", 0)] (own_contact node_a)) 10.
Definition pull_resp : GossipMessage :=
  signed node_b MtPullResponse (PlPullResponse (pull_items iter0 (g_crds node_b) [("vote", 0)]) (own_contact node_b)) 11.
Definition synced : GossipProtocol :=
  handle_message iter0 shuffle0 (send_pull_request node_a [("vote", 0)] 10) pull_resp 12.

Lemma gossip_pull_sync_witness :
  cr_entries (g_crds synced) !! fill32 5 = Some (mkCrdsEntry push0 12 (verifying_key (g_signer node_b)) 0).
Proof.
  pose proof (gossip_pull_sync iter0 (fun _ => reflexivity _) shuffle0 node_a node_b [("vote", 0)] 10 11 12 pull_req pull_resp) as H.
  refine (proj1 (H _ _ _ _) (fill32 5) (mkCrdsEntry push0 7 id_a 0) _).
  - exact (last_snoc pull_req []).
  - unfold handle_message. rewrite (gossip_sign_verifies _ _ : gossip_verify pull_req = true).
    exact (last_snoc pull_resp []).
  - intros id e He. assert (Hb : cr_entries (g_crds node_b) = {[ fill32 5 := mkCrdsEntry push0 7 id_a 0 ]})
      by reflexivity.
    rewrite Hb in He. by apply lookup_singleton_Some in He as [<- <-].
  - vm_compute. lia.
  - split; [reflexivity|]. exists 0. split; [apply list_elem_of_here|reflexivity].
Defined.

(** ** Fork choice *)

Definition fork_g : ForkBlock := mkForkBlock [0] 0 None 0 0 10.
Definition fork_1 : ForkBlock := mkForkBlock [1] 1 (Some [0]) 5 1 20.
Definition fork_2 : ForkBlock := mkForkBlock [2] 3 (Some [1]) 6 2 15.
Definition fork_ops : list fork_op := [AddBlock fork_1; AddBlock fork_2; Prune 1].

Lemma fork_precede : parents_precede (given fork_g fork_ops).
Proof.
  unfold given, fork_ops. simpl. intros a b Ha Hb.
  repeat (apply elem_of_cons in Ha as [->|Ha]; [|]); [..|by apply not_elem_of_nil in Ha];
    repeat (apply elem_of_cons in Hb as [->|Hb]; [|]); try (by apply not_elem_of_nil in Hb);
    simpl; intros [=]; lia.
Qed.

Lemma fork_chain_witness : exists chain, chain_from (fork_run fork_g fork_ops) [2] = Some chain.
Proof.
  destruct (fork_chain fork_g fork_ops [2] fork_precede) as (chain & H & _). exact (ex_intro _ chain H).
Defined.

(** ** Erasure coding, tree and propagation *)

Lemma erasure_decode_encode_witness :
  exists shreds, encode (mkErasureConfig 4 2) [1; 2; 3] 7 = Returns shreds /\ length shreds = 6%nat.
Proof.
  destruct (erasure_decode_encode (mkErasureConfig 4 2) [1; 2; 3] 7) as (shreds & H1 & H2 & _);
    [simpl; lia|vm_compute; lia|decide_closed|decide_closed|]. exact (ex_intro _ shreds (conj H1 H2)).
Defined.

Definition validators0 : list (bytes * Z) := [(id_b, 50); (id_a, 100); (fill32 9, 10)].

Lemma turbine_tree_wellformed_witness :
  is_Some (build_tree validators0 5) /\
  forall t, build_tree validators0 5 = Some (Returns t) -> tree_wf 5 (nh_nodes t).
Proof.
  destruct (turbine_tree_wellformed validators0 5) as [H1 H2]; [lia|].
  exact (conj H1 (fun t Ht => proj1 (H2 t Ht))).
Defined.

Lemma turbine_tree_capacity_witness :
  exists t, build_tree validators0 5 = Some (Returns t) /\ label <$> nh_nodes t ≡ₚ validators0.
Proof. destruct (turbine_tree_capacity validators0) as [H _]; [simpl; lia|]. apply H. simpl. lia. Defined.

Definition tree0 : Neighborhood :=
  match build_tree [(id_b, 50); (id_a, 100)] 5 with
  | Some (Returns t) => t
  | _ => mkNeighborhood (mkNode [] 0 0 0 None []) [] 0
  end.
Definition small_coder : ErasureConfig := mkErasureConfig 1 1.
Definition leader0 : Propagator :=
  mkPropagator small_coder tree0 id_a ∅ [] (Some (3 : @SigningKey toy_ed25519)) stats_zero.
Definition receiver0 : Propagator := mkPropagator small_coder tree0 id_b ∅ [] None stats_zero.
Definition block_bytes : bytes := [1; 2].
Definition shreds0 : list Shred :=
  match encode small_coder block_bytes 7 with
  | Returns l => sign_all (tp_signer leader0) l
  | Panics => []
  end.

Lemma shred_buffer_invariant_witness :
  buffer_inv (tp_received (receive_shred (propagator_new id_b tree0) (new_data 7 0 [1; 2]) id_a 9).1).
Proof.
  apply (shred_buffer_invariant id_b tree0).
  eapply (reach_step _ (propagator_new id_b tree0) (OpReceive (new_data 7 0 [1; 2]) id_a 9)); [apply reach_start|reflexivity].
Defined.

(** The datagram of the parity shred, after a malformed one. *)
Definition events0 : list (result (bytes * unit) string) :=
  Ok ([1; 2; 3], tt) :: ((fun d => Ok (d, tt)) <$> omap (shred_datagram "encode") (drop 1 shreds0)).

Lemma events0_shreds : omap (event_shred (fun _ => "json")) events0 = drop 1 shreds0.
Proof. vm_compute. reflexivity. Qed.

Lemma events0_delivered : (length (filter (fun s => delivered "encode" events0 s = true) shreds0) = 1)%nat.
Proof. vm_compute. reflexivity. Qed.

Lemma block_delivery_witness :
  exists p', propagate_block leader0 block_bytes 7 true = Returns p' /\
    tp_channel p' = [(id_b, shreds0)] /\ Forall (fun s => shred_verify_signature s = true) shreds0 /\
    exists q', try_reassemble (tpu_receive (fun _ => "json") (length events0) (fun _ => 0) receiver0 events0) 7 =
      Returns (q', Some block_bytes).
Proof.
  destruct (block_delivery (Peer:=unit) "encode" (fun _ => "json") leader0 block_bytes 7
    [default (nh_root tree0) (nh_nodes tree0 !! 1%nat)]) as (encoded & p' & Hp & He & _ & Hsig & Hc & Hd);
    [vm_compute; lia|vm_compute; lia|decide_closed|decide_closed|decide_closed|vm_compute; reflexivity|].
  assert (E : sign_all (tp_signer leader0) encoded = shreds0).
  { unfold shreds0. change small_coder with (tp_coder leader0). by rewrite He. }
  rewrite E in Hsig, Hc, Hd. exists p'. split; [exact Hp|]. split; [exact Hc|]. split.
  { eapply Forall_impl; [exact (Hsig _ eq_refl)|]. by intros s [_ Hs]. }
  apply (Hd receiver0 (fun _ => 0) events0); [reflexivity|reflexivity| |].
  - rewrite events0_shreds. intros s Hs _ _. rewrite <- (take_drop 1 shreds0). apply elem_of_app. by right.
  - rewrite events0_delivered. vm_compute. lia.
Defined.

(** ** Datagrams *)

Definition shred_msg : NetMessage := NetShred (new_data 7 0 [1; 2]).

Lemma shred_msg_ok : net_ok shred_msg.
Proof. repeat split; decide_closed. Qed.

Lemma net_send_recv_witness : exists body,
  let datagram := NET_MAGIC ++ [1] ++ body in
  send_to "encode" shred_msg (fun b => Ok (length b)) = Ok (length datagram) /\
  recv (fun _ => "json") [Ok (datagram, tt)] = Some (Ok (shred_msg, tt), []).
Proof.
  destruct (net_send_recv (Peer:=unit) "encode" (fun _ => "json") shred_msg (fun b => Ok (length b)) shred_msg_ok)
    as (body & Hb & H). exists body.
  assert (Hl : (length (NET_MAGIC ++ [1%Z] ++ body) <= MAX_DATAGRAM)%nat).
  { vm_compute in Hb. injection Hb as <-. apply Nat.leb_le. vm_compute. reflexivity. }
  rewrite decide_True in H by exact Hl. exact (conj (proj1 H) (proj2 H tt [] [] (Forall_nil_2 _))).
Defined.

(** ** RPC *)

Definition hex_val (c : ascii) : option Z :=
  let n := Z.of_nat (nat_of_ascii c) in
  if (48 <=? n) && (n <? 58) then Some (n - 48)
  else if (97 <=? n) && (n <? 103) then Some (n - 87) else None.

(** [hex::decode] on lower-case text. *)
Fixpoint hex_decode0 (s : string) : option bytes :=
  match s with
  | EmptyString => Some []
  | String a (String b s) => x ← hex_val a; y ← hex_val b; l ← hex_decode0 s; Some (16 * x + y :: l)
  | _ => None
  end.

Lemma hex_val_digit d : 0 <= d < 16 -> hex_val (hex_digit d) = Some d.
Proof.
  intros Hd. assert (Hall : forallb (fun n => bool_decide (hex_val (hex_digit (Z.of_nat n)) = Some (Z.of_nat n))) (seq 0 16) = true)
    by reflexivity.
  rewrite forallb_forall in Hall. specialize (Hall (Z.to_nat d) ltac:(apply in_seq; lia)).
  apply bool_decide_eq_true in Hall. by rewrite Z2Nat.id in Hall by lia.
Qed.

Lemma hex_roundtrip0 b : bytes_ok b -> hex_decode0 (hex_encode b) = Some b.
Proof.
  induction 1 as [|x l Hx _ IH]; [done|]. cbn [hex_encode hex_decode0]. unfold is_byte in Hx.
  rewrite !hex_val_digit by (first [apply Z.mod_pos_bound; lia | split; [apply Z.div_pos; lia|apply Z.div_lt_upper_bound; lia]]).
  cbn. rewrite IH. cbn. do 2 f_equal. pose proof (Z.div_mod x 16). lia.
Qed.

Definition some_transfer : Transaction := Reorder.transfer 3 id_a id_b 1000.
Definition parse0 (v : Value) : result Transaction string :=
  match v with VStr _ => Ok some_transfer | _ => Err "not a transaction" end.
Definition rpc0 : RpcHandler AccountsDB := handler_with_mempool db0 id_a pool0.

Lemma rpc_handle_safe_witness :
  well_formed (send_transaction_request None (VStr "tx"))
    (handle account_count parse0 hex_decode0 rpc0 (send_transaction_request None (VStr "tx")) 5).2.
Proof.
  pose proof (rpc_handle_safe account_count parse0 hex_decode0 rpc0
    (send_transaction_request None (VStr "tx")) 5 pool0 eq_refl) as H.
  destruct (handle _ _ _ _ _ _) as [h' r]. exact (proj1 H).
Defined.

Lemma rpc_send_then_get_witness :
  let '(h', sent) := handle account_count parse0 hex_decode0 rpc0 (send_transaction_request None (VStr "tx")) 5 in
  sent = rpc_success None (VStr (bs58_encode (tx_signature some_transfer))).
Proof.
  assert (Hr : (Mempool.insert pool0 some_transfer 5).2 = Ok (tx_hash some_transfer)) by (vm_compute; reflexivity).
  destruct (Mempool.insert pool0 some_transfer 5) as [p' r] eqn:Hi. cbn [snd] in Hr.
  subst r. pose proof (rpc_send_then_get account_count parse0 hex_decode0 rpc0 None None (VStr "tx") some_transfer
    pool0 p' (tx_hash some_transfer) 5 6 eq_refl eq_refl Hi) as H.
  cbv zeta in H. destruct (handle _ _ _ _ _ _) as [h' sent]. exact (proj1 H).
Defined.

Lemma rpc_reads_ledger_witness :
  (handle account_count parse0 hex_decode0 rpc0
     (mkRequest "2.0" "getBalance" (Some (VArr [VStr (hex_encode id_a)])) None) 5).2 =
  rpc_success None (VObj [("lamports", VNum (balance (view db0) id_a))]).
Proof.
  assert (Hk : arr32 id_a) by decide_closed.
  exact (proj1 (rpc_reads_ledger account_count parse0 hex_decode0 hex_roundtrip0 rpc0 id_a None 5 db0_wf Hk)).
Defined.

Lemma fork_choice_slots_witness :
  forall b, b ∈ blocks_at_slot (fork_run fork_g fork_ops) 3 ->
    fc_blocks (fork_run fork_g fork_ops) !! fb_hash b = Some b.
Proof.
  assert (Hid : hashes_identify (given fork_g fork_ops)).
  { unfold given, fork_ops. simpl. intros a b Ha Hb.
    repeat (apply elem_of_cons in Ha as [->|Ha]; [|]); [..|by apply not_elem_of_nil in Ha];
      repeat (apply elem_of_cons in Hb as [->|Hb]; [|]); try (by apply not_elem_of_nil in Hb); done. }
  destruct (fork_choice_slots fork_g fork_ops 3 Hid) as [H _]. exact (fun b Hb => proj1 (proj1 (H b) Hb)).
Defined.
