(* ===== verification/NodeWitnesses.v ===== *)
(** * Concrete nodes

    The theorems about the node applied to closed inputs on which their
    hypotheses hold: a node started on an empty ledger, a leader with one
    neighbor to which a client sends a transfer, a batch of two transfers, and
    two validators booted from one genesis. *)

From S2P Require Import Prelude Crypto Account Store AccountsDB Merkle Transaction Scheduler Executor Serial Mempool Poh Tower Leader Blockstore Validator Replica Gossip Shred Erasure Neighborhood Propagate Net Network Base58 Rpc Server Node NetworkWitnesses.
From stdpp Require Import list.
Import Toy.
Open Scope Z_scope.

Definition boot0 : Boot :=
  mkBoot id_a (3 : @SigningKey toy_ed25519) (genesis_single id_a) new (mkAddr [0; 0; 0; 0] 8000)
    (mkAddr [0; 0; 0; 0] 8001) 8899 "0.1.0" 5 [] true true.

Definition bad_json (_ : bytes) : string := "json".

Lemma parse0_ok v tx : parse0 v = Ok tx -> tx_ok tx.
Proof.
  assert (H : tx_ok some_transfer) by decide_closed.
  unfold parse0. destruct v; try discriminate. intros E.
  assert (some_transfer = tx) as <- by congruence. exact H.
Qed.

(** A leader in slot 0, with a neighbor. *)
Definition leader_state : ValidatorState :=
  mkValidator (hasher_new (fill32 0) 0) (executor_new db0) pool0 (tower_new 0) sched0 0 0 0 id_a None (open_ledger []).
Definition leader_node : Node :=
  mkNodeState leader_state ∅ node_a leader0 false true true.

Lemma leader_node_ok : node_ok leader_node.
Proof.
  constructor; cbn [leader_node nd_state leader_state v_executor v_mempool nd_statuses nd_propagator nd_gossip].
  - constructor; [apply open_ledger_ok|constructor|constructor|split; [reflexivity|discriminate]|
      split; [reflexivity|discriminate]|constructor].
  - exact db0_wf.
  - apply mempool_new_ok.
  - intros seq e He. change ((∅ : gmap Z MempoolEntry) !! seq = Some e) in He. by rewrite lookup_empty in He.
  - apply map_Forall_empty.
  - split; intros *; cbn [leader0 tp_received]; by rewrite lookup_empty.
  - split; [|constructor]. split; [|apply Nat.le_0_l]. intros id e He.
    change ((∅ : gmap bytes CrdsEntry) !! id = Some e) in He. by rewrite lookup_empty in He.
Qed.

Definition sent : RpcRequest := send_transaction_request None (VStr "tx").
Definition parked_node : Node := (node_request account_count parse0 hex_decode0 leader_node sent 5).1.

Lemma parked_answer :
  exists answer, node_request account_count parse0 hex_decode0 leader_node sent 5 = (parked_node, rpc_success None answer).
Proof.
  assert (Hr : (Mempool.insert pool0 some_transfer 5).2 = Ok (tx_hash some_transfer)) by (vm_compute; reflexivity).
  unfold parked_node, node_request, handle, send_transaction, sent. cbn.
  destruct (Mempool.insert pool0 some_transfer 5) as [p' r]. cbn [snd] in Hr. subst r. eexists. reflexivity.
Qed.

Definition parked_record : BlockRecord := next_record batch_transactions keys0 (nd_state parked_node) 9.

Lemma parked_fits : frame_fits parked_record.
Proof. apply small_record_fits. vm_compute. reflexivity. Qed.

Definition parse_req0 (b : bytes) : result RpcRequest string :=
  match b with [] => Err "EOF while parsing a value" | _ => Ok sent end.
Definition print0 (r : RpcResponse) : bytes := str_bytes (if rp_error r then "error" else "ok").
Definition step0 : Node -> Event (Peer:=unit) -> outcome Node :=
  node_step batch_transactions keys0 iter0 shuffle0 bad_json account_count parse0 hex_decode0 parse_req0 print0.

Lemma node_invariant_witness :
  exists n n', node_start boot0 [] = Some n /\ step0 n EvCheck = Returns n' /\ node_ok n'.
Proof.
  assert (Hs : is_Some (node_start boot0 [])) by (eexists; reflexivity). destruct Hs as [n Hn].
  assert (Hr : reachable (Peer:=unit) batch_transactions keys0 iter0 shuffle0 bad_json account_count parse0
                 hex_decode0 parse_req0 print0 n).
  { apply (ReachStart _ _ _ _ _ _ _ _ _ _ boot0); [apply wf_new|decide_closed|exact Hn]. }
  destruct (node_invariant batch_transactions keys0 iter0 shuffle0 "encode" bad_json account_count parse0 hex_decode0
    parse_req0 print0 (fun _ => reflexivity _) (fun _ => reflexivity _) (fun _ => reflexivity _) parse0_ok n Hr)
    as (_ & _ & H).
  destruct (H EvCheck I) as (n' & H1 & H2). exists n, n'. exact (conj Hn (conj H1 H2)).
Defined.

Lemma client_to_peer_witness :
  exists n2 n3 r, step0 n2 (EvProduce 9 Written) = Returns n3 /\
    last_block (v_ledger (nd_state n3)) = Some r /\ some_transfer ∈ br_transactions r.
Proof.
  destruct parked_answer as [answer Hans].
  destruct (client_to_peer (Peer:=unit) batch_transactions keys0 iter0 shuffle0 "encode" bad_json account_count parse0
    hex_decode0 parse_req0 print0 (fun _ => reflexivity _) (fun _ => reflexivity _) parse0_ok leader_node None
    (VStr "tx") some_transfer answer 5 9 [default (nh_root tree0) (nh_nodes tree0 !! 1%nat)] parked_node leader_node_ok)
    as (n2 & n3 & r & block & encoded & _ & H2 & H3 & _ & H5 & _);
    [split; [discriminate|reflexivity]|reflexivity|reflexivity|exact Hans|vm_compute; lia|vm_compute; reflexivity|
     discriminate|exact parked_fits|vm_compute; lia|vm_compute; lia|vm_compute; reflexivity|].
  exists n2, n3, r. exact (conj H2 (conj H3 H5)).
Defined.

(** ** A batch and two replicas *)

Definition batch0 : ExecutionBatch :=
  mkBatch 0 [Reorder.transfer 3 id_a (fill32 21) 1000; Reorder.transfer 4 id_b (fill32 22) 1000] 400000.
Definition funded : Executor (gmap bytes Account) :=
  executor_new {[ id_a := new_system_account id_a 100000; id_b := new_system_account id_b 100000 ]}.

Lemma batch0_declared : Forall fully_declared (batch_transactions batch0).
Proof.
  repeat (apply Forall_cons_2; [split_and!; [decide_closed|apply declares_writes_check; vm_compute; reflexivity|decide_closed]|]).
  apply Forall_nil_2.
Qed.

Lemma batch0_parallel : parallel (batch_transactions batch0).
Proof.
  intros [|[|i]] [|[|j]] t1 t2 Hij H1 H2; try discriminate; try (exfalso; apply Hij; reflexivity).
  - injection H1 as <-. injection H2 as <-. vm_compute. reflexivity.
  - injection H1 as <-. injection H2 as <-. vm_compute. reflexivity.
Qed.

Lemma batch_serializable_witness :
  db_view (ex_db (execute_sequence funded (batch_transactions batch0)).1) =
  db_view (ex_db (execute_sequence funded (reverse (batch_transactions batch0))).1).
Proof.
  assert (Hw : db_wf (ex_db funded)) by (apply map_Forall_insert_2; [decide_closed|apply map_Forall_singleton; decide_closed]).
  pose proof (batch_serializable funded batch0 (reverse (batch_transactions batch0)) Hw batch0_declared batch0_parallel
    (reverse_Permutation _)) as H.
  destruct (execute_sequence funded (batch_transactions batch0)), (execute_sequence funded (reverse (batch_transactions batch0))).
  exact (proj1 H).
Defined.

Definition threads_rev (b : ExecutionBatch) : list Transaction := reverse (batch_transactions b).
Definition keys_rev (db : AccountsDB) : list bytes := reverse (keys0 db).

Definition genesis0 : GenesisConfig :=
  mkGenesis "devnet" [mkGenesisAccount id_a 1000000] [mkGenesisValidator id_a 100 "a"].

Definition replica (id : bytes) : ValidatorState :=
  default state0 (validator_new id [] (apply_genesis new genesis0) default_pool
                    (genesis_stakes genesis0)).

Lemma replica_new id : validator_new id [] (apply_genesis new genesis0) default_pool
    (genesis_stakes genesis0) = Some (replica id).
Proof. reflexivity. Qed.

(** Both replicas are given a transfer, at different times. *)
Definition replica_tx : Transaction := Reorder.transfer 3 id_a (fill32 21) 1000.
Definition given (id : bytes) (now : Z) : ValidatorState :=
  set_mempool (replica id) (Mempool.insert (v_mempool (replica id)) replica_tx now).1.

Lemma given_declared : Forall fully_declared (drain (v_mempool (given id_a 3)) MAX_TXS_PER_BLOCK).2.
Proof.
  assert (E : (drain (v_mempool (given id_a 3)) MAX_TXS_PER_BLOCK).2 = [replica_tx]) by (vm_compute; reflexivity).
  rewrite E. apply Forall_cons_2; [|apply Forall_nil_2].
  split_and!; [decide_closed|apply declares_writes_check; vm_compute; reflexivity|decide_closed].
Qed.

Lemma replica_fits1 : frame_fits (next_record batch_transactions keys0 (given id_a 3) 5).
Proof. apply small_record_fits. vm_compute. reflexivity. Qed.
Lemma replica_fits2 : frame_fits (next_record threads_rev keys_rev (given id_b 4) 6).
Proof. apply small_record_fits. vm_compute. reflexivity. Qed.

Lemma replicas_agree_witness :
  exists t1 t2, rtc (feed batch_transactions threads_rev keys0 keys_rev) (replica id_a, replica id_b) (t1, t2) /\
    br_block_hash <$> bs_records (v_ledger t1) = br_block_hash <$> bs_records (v_ledger t2).
Proof.
  eexists _, _.
  assert (Hrun : rtc (feed batch_transactions threads_rev keys0 keys_rev) (replica id_a, replica id_b)
    (process_tick (produce_block batch_transactions keys0 (given id_a 3) 5 Written).1,
     process_tick (produce_block threads_rev keys_rev (given id_b 4) 6 Written).1)).
  { eapply rtc_l; [apply (FeedSubmit _ _ _ _ (replica id_a) (replica id_b) replica_tx 3 4); reflexivity|].
    eapply rtc_l; [apply FeedProduce; [exact given_declared|exact replica_fits1|exact replica_fits2]|].
    apply rtc_once, FeedTick. }
  split; [exact Hrun|].
  assert (Hg : genesis_ok genesis0) by decide_closed.
  exact (proj1 (proj2 (proj2 (replicas_agree batch_transactions threads_rev keys0 keys_rev (fun _ => reflexivity _)
    (fun b => reverse_Permutation _) (fun _ => reflexivity _) (fun db => reverse_Permutation _)
    genesis0 id_a id_b new new (replica id_a) (replica id_b) _ _ wf_new wf_new eq_refl Hg
    (replica_new id_a) (replica_new id_b) Hrun)))).
Defined.
