(* ===== verification/StartupWitnesses.v ===== *)
(** * A concrete life

    The theorems about start, restart and the recorder applied to closed inputs:
    a serializer of accounts whose size is bounded, a parser of genesis files
    that only builds typed values, a node started on an empty ledger directory
    and a recorder that ticks. *)

From S2P Require Import Prelude Crypto Account Store AccountsDB Merkle SystemProgram Transaction Scheduler Executor Mempool Poh PohService Tower Leader Blockstore Validator Gossip Shred Erasure Neighborhood Propagate Net Network Base58 Rpc Server Node Durable Typed Startup Restart NetworkWitnesses NodeWitnesses.
From stdpp Require Import list strings.
Import Toy.
Open Scope Z_scope.

(** ** Accounts in few bytes *)

Definition data_enc (d : AccountData) : bytes :=
  match d with
  | System => [0]
  | Program code => 1 :: code
  | Token m a n => 2 :: m ++ a ++ le_bytes 8 n
  | Mint a s => 3 :: a ++ le_bytes 8 s
  | Data l => 4 :: l
  end.
Definition data_dec (b : bytes) : AccountData :=
  match b with
  | 1 :: code => Program code
  | 2 :: b => Token (take 32 b) (take 32 (drop 32 b)) (from_le (drop 64 b))
  | 3 :: b => Mint (take 32 b) (from_le (drop 32 b))
  | 4 :: l => Data l
  | _ => System
  end.
Definition account_enc (a : Account) : bytes :=
  le_bytes 8 (lamports a) ++ owner a ++ [b2z (executable a)] ++ le_bytes 8 (rent_epoch a) ++ data_enc (data a).
Definition account_dec (b : bytes) : Account :=
  mkAccount (from_le (take 8 b)) (take 32 (drop 8 b)) (bool_decide (drop 40 b !! 0%nat = Some 1))
    (from_le (take 8 (drop 41 b))) (data_dec (drop 49 b)).

Lemma u64_le n : is_u64 n -> from_le (le_bytes 8 n) = n.
Proof. intros Hn. apply from_le_bytes. u64_unfold. cbn. lia. Qed.

Lemma data_roundtrip d : data_ok d -> data_dec (data_enc d) = d.
Proof.
  destruct d as [|c|m a n|a s|l]; cbn [data_ok data_enc data_dec]; [done|done| | |done].
  - intros ([Hm _] & [Ha _] & Hn). rewrite take_app_length' by done. rewrite drop_app_length' by done.
    rewrite take_app_length' by done. rewrite (app_assoc m a), drop_app_length' by (rewrite length_app; lia). by rewrite u64_le.
  - intros ([Ha _] & Hs). rewrite take_app_length', drop_app_length' by done. by rewrite u64_le.
Qed.

Lemma account_roundtrip a : account_ok a -> account_dec (account_enc a) = a.
Proof.
  intros (Hl & [Ho _] & Hr & Hd). pose proof (length_le_bytes 8 (lamports a)) as L1. pose proof (length_le_bytes 8 (rent_epoch a)) as L2.
  assert (D1 : drop 8 (account_enc a) = owner a ++ [b2z (executable a)] ++ le_bytes 8 (rent_epoch a) ++ data_enc (data a))
    by (unfold account_enc; by rewrite drop_app_length').
  assert (D2 : drop 40 (account_enc a) = [b2z (executable a)] ++ le_bytes 8 (rent_epoch a) ++ data_enc (data a))
    by (change 40%nat with (8 + 32)%nat; rewrite <- drop_drop, D1; by rewrite drop_app_length').
  assert (D3 : drop 41 (account_enc a) = le_bytes 8 (rent_epoch a) ++ data_enc (data a))
    by (change 41%nat with (40 + 1)%nat; rewrite <- drop_drop, D2; done).
  assert (D4 : drop 49 (account_enc a) = data_enc (data a))
    by (change 49%nat with (41 + 8)%nat; rewrite <- drop_drop, D3; by rewrite drop_app_length').
  unfold account_dec. rewrite D1, D2, D3, D4, data_roundtrip by done. unfold account_enc.
  rewrite !take_app_length' by done. rewrite !u64_le by done. destruct a as [l o [] r d]; done.
Qed.

Lemma account_enc_ok a : account_ok a -> bytes_ok (account_enc a).
Proof.
  intros (Hl & [_ Ho] & Hr & Hd). unfold account_enc. rewrite !bytes_ok_app. split_and!; try apply le_bytes_ok; [done|..].
  - apply Forall_cons_2; [|apply Forall_nil_2]. destruct (executable a); u64_unfold; cbn; lia.
  - destruct (data a) as [|c|m k n|k s|b]; cbn [data_enc data_ok] in *;
      (apply Forall_cons_2; [u64_unfold; lia|]); unfold arr32 in *; destruct_and?;
      repeat (apply Forall_app_2; [done|]); try apply le_bytes_ok; done.
Qed.

#[local] Program Instance account_serde : Serde Account account_ok := {|
  to_vec a := if decide (account_ok a) then Some (account_enc a) else None;
  from_slice b := Some (account_dec b)
|}.
Next Obligation. intros a b. simpl. case_decide; [|done]. intros [= <-]. by apply account_enc_ok. Qed.
Next Obligation.
  intros a Ha. simpl. rewrite decide_True by done. eexists. split; [done|]. by rewrite account_roundtrip.
Qed.

Lemma account_json_size a : storable a -> Z.of_nat (length (account_json a)) < 2 ^ 32.
Proof.
  intros [Ha Hs]. unfold account_json. cbn [to_vec account_serde]. rewrite decide_True by done.
  cbn [default from_option id]. destruct Ha as (_ & [Ho _] & _ & Hd). unfold account_enc.
  rewrite !length_app, !length_le_bytes, Ho. cbn [length].
  assert (Z.of_nat (length (data_enc (data a))) <= 10485761); [|change (2 ^ 32) with 4294967296; lia].
  destruct (data a) as [|c|m k n|k s|b]; cbn [data_enc data_small data_ok length] in *;
    unfold arr32, MAX_PERMITTED_DATA_LENGTH in *; destruct_and?; rewrite ?length_app, ?length_le_bytes; lia.
Qed.

(** ** Genesis files *)

#[local] Instance GenesisAccount_eq_dec : EqDecision GenesisAccount.
Proof. solve_decision. Defined.
#[local] Instance GenesisValidator_eq_dec : EqDecision GenesisValidator.
Proof. solve_decision. Defined.
#[local] Instance GenesisConfig_eq_dec : EqDecision GenesisConfig.
Proof. solve_decision. Defined.
#[local] Program Instance GenesisAccount_countable : Countable GenesisAccount :=
  inj_countable' (fun a => (ga_pubkey a, ga_lamports a)) (fun '(k, l) => mkGenesisAccount k l) _.
Next Obligation. by intros []. Qed.
#[local] Program Instance GenesisValidator_countable : Countable GenesisValidator :=
  inj_countable' (fun v => (gv_identity v, gv_stake v, gv_name v)) (fun '(i, s, n) => mkGenesisValidator i s n) _.
Next Obligation. by intros []. Qed.
#[local] Program Instance GenesisConfig_countable : Countable GenesisConfig :=
  inj_countable' (fun c => (gc_cluster c, gc_accounts c, gc_validators c)) (fun '(c, a, v) => mkGenesis c a v) _.
Next Obligation. by intros []. Qed.
#[local] Instance config_ok_dec cfg : Decision (config_ok cfg).
Proof. unfold config_ok, genesis_ok. apply _. Defined.

Definition parse_genesis (b : bytes) : option GenesisConfig :=
  cfg ← countable.decode (Z.to_pos (from_le b)); if decide (config_ok cfg) then Some cfg else None.

#[local] Program Instance genesis_serde : Serde GenesisConfig config_ok := {|
  to_vec cfg := Some (pos_bytes (countable.encode cfg));
  from_slice := parse_genesis
|}.
Next Obligation. intros cfg b [= <-]. apply le_bytes_ok. Qed.
Next Obligation.
  intros cfg Hok. eexists. split; [done|]. unfold parse_genesis. rewrite from_le_pos_bytes. cbn [Z.to_pos].
  rewrite decode_encode. cbn [mbind option_bind]. by rewrite decide_True.
Qed.

Lemma parse_genesis_ok b cfg : from_slice (A:=GenesisConfig) b = Some cfg -> config_ok cfg.
Proof.
  cbn [from_slice genesis_serde]. unfold parse_genesis. destruct (countable.decode _); [|done]. cbn [mbind option_bind].
  case_decide; [|done]. by intros [= <-].
Qed.

(** ** A node is started, checks its leadership and is started again *)

Definition args0 : Args := mkArgs "" 8899 8000 8001 true "" true false "ledger" "" "" [].
Definition world0 : World := mkWorld (fill32 3) 5 (Some (IpV4 [0; 0; 0; 0], 8000)) (Some (IpV4 [0; 0; 0; 0], 8001))
  FileWritten true true [].
Lemma world0_usable : usable world0.
Proof. split_and!; by eexists || done. Qed.
Definition key0 (seed : bytes) : @SigningKey toy_ed25519 := from_le seed.
Definition no_addr (_ : string) : option (IpAddr * Z) := None.
Definition no_bytes (_ : bytes) : option bytes := None.

Definition alive0 : Files -> Node -> Prop :=
  alive (Peer:=unit) batch_transactions keys0 iter0 shuffle0 bad_json account_count parse0 parse_req0 print0 key0
    hex_decode0 no_addr no_bytes "0.1.0" args0.

Lemma alive_exists : exists fs n, alive0 fs n /\ v_current_slot (nd_state n) < U64_MAX.
Proof.
  assert (Hc : configured hex_decode0 no_addr no_bytes args0 ∅ (fun _ => True)).
  { constructor; [done|done|by eexists|intros id; eexists; by split|by eexists]. }
  destruct (main_starts key0 hex_decode0 no_addr no_bytes "0.1.0" args0 ∅ world0 _ Hc world0_usable) as
    (cfg & n & seed & _ & _ & _ & Hm & _ & E2 & _ & _ & Hres & _).
  eexists _, (if nd_mining n then set_should_produce n (v_is_leader (nd_state n)) else n). split.
  - eapply (AliveStep _ _ _ _ _ _ _ _ _ _ _ _ _ _ _ _ n EvCheck).
    + eapply AliveBoot; [..|exact Hm]; [|reflexivity..]. intros p [->| ->]; split; discriminate.
    + exact I.
    + reflexivity.
  - assert (E : nd_state (if nd_mining n then set_should_produce n (v_is_leader (nd_state n)) else n) = nd_state n)
      by (by destruct (nd_mining n)).
    rewrite E. revert Hres. unfold resumes. fold (node_ledger n). rewrite E2.
    change (last_block (open_ledger (default [] ((∅ : Files) !! blocks_path args0)))) with (None : option BlockRecord).
    intros [-> _]. reflexivity.
Qed.

Lemma restart_restores_witness : exists fs n n', alive0 fs n /\
  main key0 hex_decode0 no_addr no_bytes "0.1.0" args0 world0 fs = (fs, Running n') /\ node_ledger n' = node_ledger n.
Proof.
  destruct alive_exists as (fs & n & Hl & _).
  destruct (restart_restores (Peer:=unit) batch_transactions keys0 iter0 shuffle0 "encode" bad_json account_count parse0
    parse_req0 print0 key0 hex_decode0 no_addr no_bytes "0.1.0" (fun _ => reflexivity _) (fun _ => reflexivity _)
    (fun _ => reflexivity _) parse0_ok parse_genesis_ok account_json_size args0 fs n world0
    Hl world0_usable) as (n' & Hm & _ & _ & Hb & _).
  exists fs, n, n'. exact (conj Hl (conj Hm Hb)).
Defined.

Lemma crash_restarts_witness : exists fs n n' fs' crashed, alive0 fs n /\
  main key0 hex_decode0 no_addr no_bytes "0.1.0" args0 world0 crashed = (fs', Running n') /\ node_ok n'.
Proof.
  destruct alive_exists as (fs & n & Hl & Hs).
  destruct (crash_restarts (Peer:=unit) batch_transactions keys0 iter0 shuffle0 "encode" bad_json account_count parse0
    parse_req0 print0 key0 hex_decode0 no_addr no_bytes "0.1.0" (fun _ => reflexivity _) (fun _ => reflexivity _)
    (fun _ => reflexivity _) parse0_ok parse_genesis_ok account_json_size args0 fs n world0
    100 7 Hl Hs world0_usable) as (n' & fs' & _ & _ & _ & Hm & Hok & _).
  eexists fs, n, n', fs', _. exact (conj Hl (conj Hm Hok)).
Defined.

(** ** A recorder *)

Definition poh_config0 : PohConfig := mkPohConfig 2 100 4.

Lemma recorder_history_witness :
  exists r, length (rc_sent r) = 3%nat /\ chain (fill32 0) (rec_entry <$> rc_sent r) (recorder_current_hash r).
Proof.
  set (r0 := create_shared_recorder poh_config0 (fill32 0)).
  assert (Hr : rtc recorder_step r0 (run_record (run_loop 2 r0) (RTransaction [1] [2]))).
  { eapply rtc_l; [apply (RecLoop r0 2)|]. apply rtc_once, RecRecord. }
  eexists. split; [|exact (proj1 (recorder_history poh_config0 (fill32 0) _ Hr))]. reflexivity.
Defined.

Lemma init_genesis_roundtrip_witness : exists fs,
  main key0 hex_decode0 no_addr no_bytes "0.1.0"
    (mkArgs "" 8899 8000 8001 true "" true false "ledger" "" "genesis.json" []) world0 ∅ = (fs, Exited (Ok tt)) /\
  load_genesis (mkArgs "" 8899 8000 8001 true "" true false "ledger" "genesis.json" "" []) id_b fs =
    Ok (genesis_single (verifying_key (key0 (fill32 3)))).
Proof.
  destruct (init_genesis_roundtrip key0 hex_decode0 no_addr no_bytes "0.1.0"
    (mkArgs "" 8899 8000 8001 true "" true false "ledger" "" "genesis.json" []) world0 ∅ (fill32 3)
    (mkArgs "" 8899 8000 8001 true "" true false "ledger" "genesis.json" "" []) id_b) as (json & H1 & H2);
    [reflexivity|reflexivity|discriminate|reflexivity|reflexivity|].
  eexists. exact (conj H1 H2).
Defined.
