(* ===== verification/Witnesses.v ===== *)
(** * Concrete instances

    The hypotheses of the theorems hold on concrete inputs: each lemma applies
    one theorem to a closed instance, with the external parameters (SHA-256,
    Ed25519, JSON, the accounts store, iteration orders) instantiated by the
    functions of [Crypto.Toy] and the finite-map store. *)

From S2P Require Import Prelude Crypto Account Store AccountsDB Merkle Instruction Vm SystemProgram TokenProgram Processor Transaction Scheduler Executor Mempool Poh Vote Tower.
From stdpp Require Import list.
Import Toy.
Open Scope Z_scope.

(** Decide a closed decidable statement by evaluation. *)
Ltac by_compute := apply (bool_decide_unpack _); vm_compute; exact I.

Definition key_a : bytes := fill32 3.
Definition key_b : bytes := fill32 4.
Definition key_c : bytes := fill32 6.

(** ** Accounts, database, state root *)

Lemma account_message_inj_witness :
  new_mint key_a key_b = mkAccount 890880 (fill32 2) false 0 (Mint key_b 0).
Proof. apply account_message_inj; [by_compute|by_compute|reflexivity]. Defined.

Definition some_ops : list DbOp :=
  [OpStore key_a (new_system_account key_a 7); OpStore key_b (new_mint key_b key_a); OpRemove key_a].

Lemma accounts_db_refines_map_witness :
  load (run_ops some_ops new) key_b = Some (new_mint key_b key_a) /\
  exists_ (run_ops some_ops new) key_b = true /\
  account_count (run_ops some_ops new) = 1.
Proof. apply (accounts_db_refines_map some_ops key_b); [by_compute|by_compute]. Defined.

Definition some_log : bytes := default [] (persist (run_ops some_ops (open []))).

Lemma crash_recovers_prefix_witness :
  exists done_ops, longest_within (fun l => length (log_of l)) 60 some_ops done_ops /\
    forall k, load (open (take 60 some_log)) k = map_ops done_ops ∅ !! k.
Proof. apply (crash_recovers_prefix some_ops 60). by_compute. Defined.

Lemma reopen_restores_state_witness :
  load (open some_log) key_b = load (run_ops some_ops (open [])) key_b /\
  account_count (open some_log) = Z.of_nat (size (view (open some_log))).
Proof.
  apply (reopen_restores_state some_ops some_log key_b); [by_compute|by_compute|reflexivity].
Defined.

Lemma snapshot_reopen_witness :
  load (open (default [] (persist (snapshot (run_ops some_ops (open [])) [key_b])))) key_b =
  load (run_ops some_ops (open [])) key_b.
Proof. apply (snapshot_reopen some_ops [key_b]); [by_compute|vm_compute; reflexivity|vm_compute; reflexivity].
Defined.

Lemma prove_verifies_witness :
  leaf (prove [key_a; key_b; key_c] 1) = key_b /\
  verify (prove [key_a; key_b; key_c] 1) (compute [key_a; key_b; key_c]) = true.
Proof. apply prove_verifies. reflexivity. Defined.

Lemma state_root_deterministic_witness :
  compute_state_root (run_ops some_ops new) [key_b] = root_of (view (run_ops some_ops new)).
Proof.
  apply state_root_deterministic; [|vm_compute; reflexivity]. apply run_ops_wf; [apply wf_new|by_compute].
Defined.

Lemma state_root_ignores_keys_witness :
  root_of {[key_a := new_mint key_a key_a]} = root_of {[key_b := new_mint key_a key_a]}.
Proof. apply state_root_ignores_keys. by rewrite !map_to_list_singleton. Defined.

(** ** Instructions and programs *)

Lemma system_instruction_codec_witness :
  SystemInstruction.ok (SystemInstruction.Transfer 1000) /\
  SystemInstruction.to_data (SystemInstruction.Transfer 1000) `prefix_of`
    [2; 232; 3; 0; 0; 0; 0; 0; 0; 255].
Proof.
  apply (system_instruction_codec [2; 232; 3; 0; 0; 0; 0; 0; 0; 255]); [by_compute|reflexivity].
Defined.

Lemma token_instruction_codec_witness :
  TokenInstruction.ok (TokenInstruction.MintTo 5) /\
  TokenInstruction.to_data (TokenInstruction.MintTo 5) `prefix_of`
    TokenInstruction.to_data (TokenInstruction.MintTo 5).
Proof. apply token_instruction_codec; [by_compute|reflexivity]. Defined.

Definition metas2 : list AccountMeta := [mkMeta 0 true true; mkMeta 1 false true].
Definition keys2 : list bytes := [key_a; key_b].
Definition ledger_a : gmap bytes Account := {[ key_a := new_system_account key_a 1000000 ]}.
Definition vm_a : VmState (gmap bytes Account) := mkVm ledger_a (budget_new 150000) [].
Definition pay_data : bytes := SystemInstruction.to_data (SystemInstruction.Transfer 1000).

Lemma ledger_a_wf : db_wf ledger_a.
Proof. change (map_Forall (fun _ a => account_ok a) ledger_a). by_compute. Qed.

Lemma ledger_a_inv : token_inv ledger_a.
Proof. apply token_inv_fresh; [apply token_inv_empty|reflexivity|exact I]. Qed.

Lemma vm_a_covers cost : 0 <= cost <= 150000 -> budget_covers (vm_budget vm_a) cost.
Proof. unfold budget_covers. simpl. u64_unfold. lia. Qed.

Lemma system_program_refines_witness :
  exists i, SystemInstruction.from_data pay_data = Ok i /\
    system_step metas2 key_a keys2 (db_view (vm_db vm_a)) i
      (db_view (vm_db (system_process_instruction pay_data metas2 key_a keys2 vm_a).1)).
Proof.
  refine (proj1 (system_program_refines pay_data metas2 key_a keys2 vm_a
    (db_view (vm_db (system_process_instruction pay_data metas2 key_a keys2 vm_a).1)) ledger_a_wf _ _) _);
    [by_compute| |].
  - intros i [= <-]. apply vm_a_covers. simpl. lia.
  - eexists. split; [|reflexivity]. vm_compute. reflexivity.
Defined.

Lemma system_conserves_supply_witness :
  supply (db_view (vm_db (system_process_instruction pay_data metas2 key_a keys2 vm_a).1)) =
  supply (db_view (vm_db vm_a)).
Proof.
  apply (system_conserves_supply pay_data (SystemInstruction.Transfer 1000) metas2 key_a keys2 vm_a
    (system_process_instruction pay_data metas2 key_a keys2 vm_a).1);
    [apply ledger_a_wf|by_compute|reflexivity|reflexivity|vm_compute; reflexivity].
Defined.

Lemma self_transfer_mints_witness :
  let m' := db_view (vm_db (system_process_instruction pay_data metas2 key_a [key_a; key_a] vm_a).1) in
  supply m' = supply (db_view (vm_db vm_a)) + 1000 /\
  balance m' key_a = balance (db_view (vm_db vm_a)) key_a + 1000.
Proof.
  apply (self_transfer_mints pay_data 1000 metas2 key_a [key_a; key_a] vm_a
    (system_process_instruction pay_data metas2 key_a [key_a; key_a] vm_a).1);
    [apply ledger_a_wf|by_compute|reflexivity|reflexivity|vm_compute; reflexivity].
Defined.

Lemma system_only_debits_signer_witness :
  let m' := db_view (vm_db (system_process_instruction pay_data metas2 key_a keys2 vm_a).1) in
  balance (db_view (vm_db vm_a)) key_b <= balance m' key_b /\
  (forall a, db_view (vm_db vm_a) !! key_b = Some a ->
     exists a', m' !! key_b = Some a' /\ owner a' = owner a /\ data a' = data a).
Proof.
  apply (system_only_debits_signer pay_data metas2 key_a keys2 vm_a
    (system_process_instruction pay_data metas2 key_a keys2 vm_a).1);
    [apply ledger_a_wf|by_compute|by_compute|vm_compute; reflexivity].
Defined.

(** A ledger with a mint under [key_b] and a token account [key_c] of [key_a]. *)
Definition mint_data : bytes := TokenInstruction.to_data (TokenInstruction.MintTo 50).
Definition ledger_m : gmap bytes Account := {[ key_b := new_mint key_b key_b ]}.
Definition ledger_t : gmap bytes Account := <[key_c := new_token_account key_c key_b key_a 0]> ledger_m.
Definition vm_t : VmState (gmap bytes Account) := mkVm ledger_t (budget_new 150000) [].
Definition keys_t : list bytes := [key_b; key_c].

Lemma ledger_t_wf : db_wf ledger_t.
Proof. change (map_Forall (fun _ a => account_ok a) ledger_t). by_compute. Qed.

Lemma ledger_t_inv : token_inv ledger_t.
Proof.
  apply (token_step_inv [mkMeta 0 false false; mkMeta 1 false true; mkMeta 2 true false] key_a
    [key_b; key_c; key_a] ledger_m (TokenInstruction.InitializeAccount key_b)).
  - apply (token_step_inv [mkMeta 0 true true] key_b [key_b] ∅ TokenInstruction.InitializeMint);
      [apply token_inv_empty|]. by eapply step_initialize_mint.
  - eapply (step_initialize_account _ _ _ _ key_b); try reflexivity. by split.
Qed.

Lemma token_program_refines_witness :
  exists i, TokenInstruction.from_data mint_data = Ok i /\
    token_step metas2 key_b keys_t (db_view (vm_db vm_t)) i
      (db_view (vm_db (token_process_instruction mint_data metas2 key_b keys_t vm_t).1)).
Proof.
  refine (proj1 (token_program_refines mint_data metas2 key_b keys_t vm_t
    (db_view (vm_db (token_process_instruction mint_data metas2 key_b keys_t vm_t).1)) ledger_t_wf _ _ _) _);
    [by_compute|by_compute| |].
  - intros i [= <-]. unfold budget_covers. simpl. u64_unfold. lia.
  - eexists. split; [|reflexivity]. vm_compute. reflexivity.
Defined.

Lemma token_conservation_witness :
  token_inv (db_view (vm_db (token_process_instruction mint_data metas2 key_b keys_t vm_t).1)).
Proof.
  apply (token_conservation mint_data metas2 key_b keys_t vm_t
           (token_process_instruction mint_data metas2 key_b keys_t vm_t).1
           (token_process_instruction mint_data metas2 key_b keys_t vm_t).2);
    [apply ledger_t_wf|by_compute|by_compute|apply surjective_pairing|apply ledger_t_inv].
Defined.


Definition mint_ix : Instruction := mkIx token_program_id metas2 mint_data.

Lemma process_instruction_decides_witness :
  let '(db', res) := process_instruction ledger_t mint_ix key_b keys_t in
  db_wf db' /\
  if res_success res then ledger_step mint_ix key_b keys_t (db_view ledger_t) (db_view db')
  else db' = ledger_t /\ is_Some (res_error res) /\ 
    forall m', ~ ledger_step mint_ix key_b keys_t (db_view ledger_t) m'.
Proof.
  apply (process_instruction_decides ledger_t mint_ix key_b keys_t);
    [apply ledger_t_wf|by_compute|by_compute].
Defined.

Lemma process_instruction_safe_witness :
  let '(db', res) := process_instruction ledger_t mint_ix key_b keys_t in
  token_inv (db_view db') /\
  (forall k, k ∉ written_keys mint_ix keys_t -> db_view db' !! k = db_view ledger_t !! k) /\
  supply (db_view db') = supply (db_view ledger_t) +
    (if res_success res then ledger_minted mint_ix key_b keys_t else 0).
Proof.
  apply (process_instruction_safe ledger_t mint_ix key_b keys_t);
    [apply ledger_t_wf|by_compute|by_compute|apply ledger_t_inv].
Defined.

(** ** Transactions, batches, execution *)

Import Executor.Examples.

Definition some_tx : Transaction := tx_of [sys_ix [payer; mkTxMeta 1 false true] (SystemInstruction.Transfer 1000)].
Definition rich : Executor (gmap bytes Account) := ledger 1000000.

Lemma tx_message_inj_witness :
  some_tx = set_signature some_tx (tx_signer some_tx) (tx_signature some_tx).
Proof. apply tx_message_inj; [by_compute|by_compute|reflexivity]. Defined.

Lemma sign_verifies_witness :
  verify_signature (tx_sign some_tx (8 : @SigningKey toy_ed25519)) = true /\
  tx_signer (tx_sign some_tx (8 : @SigningKey toy_ed25519)) = toy_pk 8 /\
  verify_signature (set_signature some_tx (tx_signer some_tx) []) = false.
Proof. apply (sign_verifies some_tx (8 : @SigningKey toy_ed25519)). Defined.

Lemma batch_locks_deadlock_free_witness :
  locks_ok (batch_threads [some_tx; some_tx]) /\
  (batch_threads [some_tx; some_tx] <> ∅ -> exists ts', lock_step (batch_threads [some_tx; some_tx]) ts').
Proof. apply (batch_locks_deadlock_free [some_tx; some_tx]). apply rtc_refl. Defined.

Lemma rich_wf : db_wf (ex_db rich).
Proof. change (map_Forall (fun _ a => account_ok a) (ex_db rich)). by_compute. Qed.

Lemma rich_inv : token_inv (db_view (ex_db rich)).
Proof. apply token_inv_fresh; [apply token_inv_empty|reflexivity|exact I]. Qed.

Lemma some_tx_ok : tx_ok some_tx.
Proof. by_compute. Qed.

Lemma execute_transaction_refines_witness :
  let '(e', r) := execute_transaction rich some_tx in
  db_wf (ex_db e') /\
  match fee_charged (db_view (ex_db rich)) some_tx with
  | None => tr_success r = false /\ ex_db e' = ex_db rich /\ tr_fee_paid r = 0
  | Some m1 =>
      if tr_success r
      then ledger_steps some_tx (tx_instructions some_tx) m1 (db_view (ex_db e')) /\
           tr_fee_paid r = tx_fee some_tx
      else (declares_writes some_tx -> db_view (ex_db e') = m1) /\ tr_fee_paid r = 0
  end.
Proof. apply (execute_transaction_refines rich some_tx); [apply rich_wf|apply some_tx_ok]. Defined.

Lemma execute_transaction_supply_witness :
  let '(e', r) := execute_transaction rich some_tx in
  token_inv (db_view (ex_db e')) /\
  supply (db_view (ex_db e')) =
    supply (db_view (ex_db rich))
    - (match fee_charged (db_view (ex_db rich)) some_tx with Some _ => tx_fee some_tx | None => 0 end)
    + (if tr_success r then minted_by some_tx (tx_instructions some_tx) else 0).
Proof.
  apply (execute_transaction_supply rich some_tx);
    [apply rich_wf|apply some_tx_ok|apply declares_writes_check; vm_compute; reflexivity|apply rich_inv].
Defined.

Definition init_mint_ix : TxInstruction :=
  mkTxIx token_program_id [payer] (TokenInstruction.to_data TokenInstruction.InitializeMint).

Lemma initialize_mint_never_succeeds_witness :
  tr_success (execute_transaction rich (tx_of [init_mint_ix])).2 = false.
Proof.
  apply (initialize_mint_never_succeeds rich (tx_of [init_mint_ix]) init_mint_ix);
    [apply rich_wf|by_compute|by left|reflexivity|reflexivity].
Defined.

(** ** Mempool *)

Definition small_pool : Mempool := mempool_new (mkMempoolConfig 1 60000 5000).

Lemma small_pool_ok : pool_ok small_pool.
Proof. apply mempool_new_ok. Qed.

Lemma mempool_insert_spec_witness :
  let '(p', r) := Mempool.insert small_pool some_tx 10 in
  pool_ok p' /\
  match r with
  | Ok h => h = tx_hash some_tx /\ verify_signature some_tx = true /\
            min_fee (config small_pool) <= tx_fee some_tx /\
            by_hash (inner small_pool) !! h = None /\ inserted small_pool some_tx 10 p'
  | Err err => rejected small_pool some_tx 10 p' err
  end.
Proof. apply (mempool_insert_spec small_pool some_tx 10); [apply small_pool_ok|simpl; u64_unfold; lia]. Defined.

Definition parked_pool : Mempool := foldl run_pool_op small_pool [PInsert some_tx 10].

Lemma parked_pool_ok : pool_ok parked_pool.
Proof. apply (mempool_invariant (mkMempoolConfig 1 60000 5000) [PInsert some_tx 10]). simpl. u64_unfold. lia. Qed.

Lemma mempool_drain_spec_witness :
  let '(p', out) := drain parked_pool 4 in
  pool_ok p' /\ config p' = config parked_pool /\ next_seq (inner p') = next_seq (inner parked_pool) /\
  length out = Nat.min 4 (pool_len parked_pool) /\
  exists es : list (Z * MempoolEntry),
    out = me_tx <$> es.*2 /\
    es ++ map_to_list (by_seq (inner p')) ≡ₚ map_to_list (by_seq (inner parked_pool)) /\
    StronglySorted goes_first es /\
    (forall a b, a ∈ es -> b ∈ map_to_list (by_seq (inner p')) -> goes_first a b).
Proof. apply (mempool_drain_spec parked_pool 4). apply parked_pool_ok. Defined.

Example parked_pool_drained : (drain parked_pool 4).2 = [some_tx].
Proof. vm_compute. reflexivity. Qed.

Lemma mempool_invariant_witness :
  pool_ok (foldl run_pool_op small_pool [PInsert some_tx 1; PInsert some_tx 2; PDrain 1; PExpire 9]).
Proof. apply (mempool_invariant (mkMempoolConfig 1 60000 5000)). simpl. u64_unfold. lia. Defined.

(** ** Proof of History *)

Definition recorder0 : PohRecorder := recorder_new (mkPohConfig 2 160 4) poh_zero.
Definition record_ops : list RecordOp := [RTick; RTransaction [1; 2] [3]; RTick].
Definition entries0 : list PohEntry := rc_current_entries (foldl run_record recorder0 record_ops).
Definition block0 : Entry :=
  mkBlock (rc_prev_hash (foldl run_record recorder0 record_ops)) 0 poh_zero entries0 1 0.

Lemma verified_blocks_chain_witness :
  (vr_valid (verify_block block0) = true <->
     bl_entries block0 <> [] /\ exists h, chain h (bl_entries block0) (bl_hash block0)) /\
  (verify_poh_chain block0 = true <->
     bl_entries block0 <> [] /\ exists h, chain (bl_parent_hash block0) (bl_entries block0) h) /\
  (vr_valid (verify_block block0) && verify_poh_chain block0 && vr_valid (verify_block block0) &&
     verify_poh_chain block0 && vr_valid (verify_chain_link block0 block0) = true ->
   chain (bl_parent_hash block0) (bl_entries block0 ++ bl_entries block0) (bl_hash block0)).
Proof. apply (verified_blocks_chain block0 block0). Defined.

Lemma recorder_blocks_verify_witness :
  let '(r', entries) := recorder_new_slot (foldl run_record recorder0 record_ops) 1 in
  let b := mkBlock (rc_prev_hash r') (rc_slot recorder0) (rc_prev_hash recorder0) entries 1 0 in
  rc_current_entries r' = [] /\ rc_entry_index r' = 0 /\
  (forall i e, entries !! i = Some e ->
     pe_slot e = rc_slot recorder0 /\ pe_index e = wrap64 (Z.of_nat i)) /\
  (entries <> [] ->
     verify_poh_chain b = true /\
     verify_block b = verification_ok (Z.of_nat (length entries)) (total_work entries)).
Proof. apply (recorder_blocks_verify recorder0 record_ops 1 1 0); reflexivity. Defined.

Definition tick0 : PohEntry := entry_tick poh_zero 2 0 0.

Lemma history_binding_witness :
  ([tick0] <> [] -> poh_zero = poh_zero) /\
  Forall2 (fun e1 e2 => pe_hash e1 = pe_hash e2 /\ pe_prev_hash e1 = pe_prev_hash e2 /\
    pe_slot e1 = pe_slot e2 /\ pe_index e1 = pe_index e2 /\
    payload (pe_data e1) = payload (pe_data e2)) [tick0] [tick0].
Proof.
  assert (Hc : chain poh_zero [tick0] (pe_hash tick0))
    by (constructor; [reflexivity|apply entry_of_verifies|constructor]).
  assert (Ho : entry_ok tick0) by (unfold entry_ok; simpl; by_compute).
  apply (history_binding poh_zero poh_zero (pe_hash tick0) [tick0] [tick0]);
    [exact Hc|exact Hc|by constructor|by constructor|reflexivity|].
  assert (Hall : Forall (fun x => Forall (fun y => sha256 x = sha256 y -> x = y)
    (mjoin (entry_inputs <$> [tick0]))) (mjoin (entry_inputs <$> [tick0]))) by by_compute.
  intros x y Hx Hy. rewrite Forall_forall in Hall. specialize (Hall x Hx).
  rewrite Forall_forall in Hall. by apply Hall.
Defined.

(** ** Consensus *)

Import Tower.Cycle.

Definition tower1 : Tower :=
  match process_vote map_to_list (tower_new 0) (vote 1 3 0) with Some (t, _) => t | None => tower_new 0 end.


Lemma vote_lockout_enforced_witness :
  exists st', validator_states tower1 !! toy_pk 5 = Some st' /\ last_vote_slot st' = 3.
Proof.
  destruct (vote_lockout_enforced map_to_list (tower_new 0) (vote 1 3 0) tower1 true) as (_ & _ & st' & H1 & H2 & _);
    [vm_compute; reflexivity|by_compute|by_compute|].
  exists st'. exact (conj H1 H2).
Defined.

Lemma vote_processing_picks_heaviest_witness :
  exists t' b, process_vote map_to_list (tower_new 0) (vote 1 3 0) = Some (t', b) /\
    (b = true -> forall l, l ∈ leaves_of map_to_list (nodes t') (root_slot t') ->
       exists h w, best_head t' = Some h /\ h ∈ leaves_of map_to_list (nodes t') (root_slot t') /\
         chain_is (nodes t') h w /\
         forall wl, chain_is (nodes t') l wl ->
           better_or_equal (w, from_option n_slot 0 (nodes t' !! h))
                           (wl, from_option n_slot 0 (nodes t' !! l))).
Proof.
  apply (vote_processing_picks_heaviest map_to_list (fun ns => reflexivity _) (fun _ => 3) 0); [apply rtc_refl|].
  split; [reflexivity|]. intros ps [= <-]. simpl. lia.
Defined.
